(* ===== verification/_CoqProject ===== *)
-Q . S2P
Prelude.v
F64.v
Text.v
Domain.v
Paging.v
Table.v
Piece.v
Segment.v
SegmentFacts.v
Writer.v
Engine.v
EngineGc.v
EngineInv.v
EngineOps.v
EngineGcFacts.v
Instances.v
EngineProps.v
Recovery.v
EngineMore.v
EngineLimits.v
Health.v
Latency.v
DiskSlow.v
Placement.v
Shard.v
Erasure.v
Verified.v
Metrics.v
Throttle.v
HealQueue.v
PoolState.v
Pool.v
PoolFacts.v
PoolRead.v
PoolEcRead.v
PoolWrite.v
PoolEcWrite.v
Repair.v
RepairFacts.v
Migrate.v
PoolKeep.v
ResilverFacts.v
Drain.v
PoolDemo.v
HealDemo.v
Store.v
MigrateFacts.v
MemShard.v
WalkDemo.v
Cache.v
CacheFacts.v
CacheThreads.v
CacheDemo.v
Car.v
CarFacts.v
CarDemo.v
SigV4.v
Gateway.v
GatewayFacts.v
GatewayList.v
GatewayService.v
GatewayDemo.v
Zfs.v
ZfsFacts.v
ZfsDemo.v
Fs.v
Snapshot.v
Calendar.v
SnapshotFacts.v
SnapshotDemo.v
Exposition.v
Admin.v
Safe.v
AdminFacts.v
Daemon.v
DaemonLoops.v
DaemonFacts.v
Vault.v
DaemonDemo.v
Bench.v
