(* ===== verification/Prelude.v ===== *)
(** * ozd: verification of the OpenZFS daemon

    ozd stores immutable blocks (IPFS blocks under S3 keys) on a pool of
    disks. This library models the whole program, the crates ozd-domain,
    ozd-engine, ozd-app, ozd-ipfs, ozd-zfs, ozd-admin, ozd-daemon and ozd-bench of
    the repository, as executable definitions, and proves what makes each part
    correct.

    ** The program and its parts

    - A disk is a _shard_: [DiskEngine] (ozd-engine/src/lib.rs) appends bodies
      to pack segments (ozd-engine/src/segment.rs) and keeps an index in an
      ordered key-value store; small bodies go into the index itself. Garbage
      collection rewrites live records and unlinks segments; recovery scans
      the tail behind the last flush.
    - A _pool_ (ozd-app/src/pool.rs) places every key on several shards by
      rendezvous hashing (placement.rs), as mirrored copies or as
      erasure-coded pieces (erasure.rs, ozd-domain/src/piece.rs). It reads
      with hedging, writes with a quorum and handoff, queues repairs in a
      priority heap, heals them with several threads, scrubs, resilvers and
      migrates mirrored keys to pieces. It measures itself: metrics.rs,
      latency.rs, diskslow.rs, health.rs, throttle.rs.
    - In front of it are the read cache (cache.rs), verified range reads
      (verified.rs) and the bulk loader (car.rs).
    - Clients come in through the S3 gateway (ozd-ipfs): rate limit, request
      signatures, then the object handlers. Operators come in through the
      admin server (ozd-admin): reports, maintenance, CAR files, snapshots.
    - The ZFS adapter (ozd-zfs) reads the output of zpool and zfs and keeps
      the identity of a disk in a property of its dataset.
    - The daemon (ozd-daemon) checks its configuration, opens the disks, puts
      the parts together, and runs the background tasks: health, healing,
      scrub, slow disks, migration, collection, reload, shutdown. ozd-bench
      measures a pool under a reproducible load.

    The parts meet at interfaces, type classes of Domain.v with their
    contracts as further classes: [ShardEngine] is one disk; [DiskSpec] what any
    disk promises, also one with records that are there and cannot be read;
    [ShardEngineSpec] what a disk promises that reads every record it has;
    [WalkEngineSpec] flush and cursors; [PlacementPolicy]/[PlacementSpec] the
    choice of disks; [BlockStore]/[BlockStoreSpec] what gateway and bulk loader
    see. [CacheEngine] adds the eviction that the cache needs, [MaintEngine] and
    [MaintEngineSpec] (Shard.v) what the admin server and the daemon call,
    [ScrubEngineSpec] that a scrub calls no key corrupt that the disk can read,
    [EraEngineSpec] that noting the length of an object changes no body. A client
    is verified against the interface, and the implementation meets it:
    Shard.v for the engine and the rendezvous placement, CacheFacts.v for the
    cache tier over any store, MemShard.v for disks in memory: one that reads
    all it holds, and a worn one on which the records of a given set are there
    and unreadable. Repair, the resilver, scrub, migration, and the upkeep of a
    pool (Repair, Migrate, Safe, DaemonFacts, AdminFacts, Vault) are proved over
    [DiskSpec], so that damaged records are met, dropped and repaired.

    Upkeep writes to disks in whatever state it finds them. [SturdyDisk] and
    [SturdyMaint] say that a disk takes or refuses a write or a collection in
    any state it can come to. The worn disk is one; the engine is one behind a
    [guarded] (Shard.v), which refuses what the engine's theorems do not cover
    (a write to a segment file that is not as long as its books say, faults
    together with a failover directory or a ballast, segment numbers that run
    out, keys and bodies beyond the record format), and DaemonDemo runs on both.
    [Runner] (Zfs.v) is the port to the commands of ZFS.

    ** Effects

    Stateful code runs in [M S E A := S -> result E A * S] (below): the state
    after the call is kept when it fails, as in Rust, where [?] leaves the
    effects already made. [wp c Q s] is the weakest precondition. Integers are
    [Z] with the wrap-around of their type written out ([wrap]); [f64] is
    binary64 with correct rounding (F64.v); bytes are [list Byte.byte].
    What the program does not determine is an input: faults of system calls
    and of index transactions are lists that the calls consume, the clock and
    the order in which parallel answers arrive are lists in the state of the
    pool, the order of a directory is a function. Theorems hold for all of
    them. Threads whose interleaving matters (the heal workers, the callers of
    the cache, the import workers) are state machines with atomic steps, and
    their theorems quantify over all interleavings; the background tasks of
    the daemon interleave by rounds ([event], [run_events]). Two runs leave
    a trace: the heal threads a log of the repairs with their results
    ([drain_run]), and a collection the engine after each of its steps
    ([gc_moments]), between any two of which a get may look.

    ** Files

    Shared: F64 (binary64, parsing and integers), Text (decimal
    text, splitting, UTF-8), Domain (types and ports), Paging (walks over
    pages of a listing), Table (the ordered table that stands for redb).

    Engine (ozd-engine, ozd-domain):
    - Piece: piece.rs. Segment, SegmentFacts, Writer: segment.rs, its record
      format and scans, and the invariant of the segment writer.
    - Engine, EngineGc: lib.rs, operation by operation ([put_impl],
      [engine_get], [engine_delete], [engine_list], [gc_once],
      [evict_oldest_segment], [engine_open], ...). EngineInv: the invariant
      [inv] between index and segments, and the relation [holds] that is the
      abstract content. EngineOps, EngineGcFacts: each operation
      against [holds]. EngineProps, Recovery, EngineMore: the properties.
      EngineLimits: concrete runs in which the code loses or hides data.
      Instances: executable stand-ins for CRC-32 and zstd.
    Pool (ozd-app):
    - Health, Latency, DiskSlow, Placement, Erasure, Verified, Metrics,
      Throttle, HealQueue: the modules of the same names (HealQueue is the
      heap inside pool.rs), each with its properties.
    - PoolState, Pool: [Pool], its topology, put, get, stat, delete and list.
      PoolFacts: steps that write nothing ([still]), the state in the middle
      of a write. PoolRead, PoolWrite: mirrored bodies; PoolEcRead,
      PoolEcWrite: erasure-coded ones.
    - Repair: creation, repair of a key, scrub and resilver; RepairFacts for
      copies and for pieces, ResilverFacts for the walk. Migrate,
      MigrateFacts: mirrors to pieces. PoolKeep: what every operation keeps.
      Drain: the heal workers, step by step, and the log of a run. Shard,
      Store, MemShard: implementations of the interfaces. PoolDemo, HealDemo, WalkDemo:
      concrete runs.
    In front of the pool:
    - Cache, CacheFacts, CacheThreads, CacheDemo: the read cache.
    - Car, CarFacts, CarDemo: the bulk loader.
    Gateway (ozd-ipfs):
    - SigV4: sigv4.rs. Gateway: lib.rs and ratelimit.rs, request
      to response. GatewayFacts, GatewayList: ranges, the rate limit and
      listings. GatewayService: the whole of a request.
      GatewayDemo: concrete runs.
    ZFS (ozd-zfs):
    - Zfs: parser.rs and properties.rs, then lib.rs and runner.rs.
      ZfsFacts, ZfsDemo.
    Admin server (ozd-admin) and daemon (ozd-daemon):
    - Fs: directories, files and hard links with calls that fail. Snapshot:
      the snapshot requests over it. Calendar: the names of snapshots and the
      time. SnapshotFacts, SnapshotDemo: deletion and retention, runs.
    - Exposition: the metrics page and its scraper.
    - Admin: every request of the router ([serve]). Safe: the maintenance
      operations of the pool that lose nothing ([harmless]). AdminFacts.
    - Daemon: configuration and start; DaemonFacts. DaemonLoops: one round of
      each background task, the reload, the shutdown. Vault: computations that keep an invariant
      ([stable]), and the invariant [vault] of a pool of copies and pieces
      under its own upkeep. DaemonDemo: concrete runs, also of the admin server.
    Load driver (ozd-bench):
    - Bench: arguments, generator, puts, reading threads, percentiles, with
      their theorem and a run.

    ** What the theorems show

    - Engine: a put makes its key read the body, a delete removes exactly its
      key, an error changes nothing ([put_then_get], [delete_then_get]);
      collection preserves every read, whichever writes, syncs, unlinkings and
      transactions fail on a disk without failover directory and ballast
      ([gc_preserves]), and so does a get whose looks fall between its appends,
      its changes of the index and its unlinkings ([get_survives_gc]). Reads of
      segments do not fail in the model; EngineLimits shows what a damaged
      record does to a collection. Opening after a crash
      finds exactly the complete records ([open_recovers],
      [open_cuts_torn_tail]); eviction forgets one segment; listing pages,
      [stat] and the structure check are exact.
    - Pool: an acknowledged mirrored put has its quorum of readable copies among
      or besides the first R eligible disks of the topology in use, with a heal
      request unless they all have one, and
      is read back ([put_reaches_the_quorum], [put_is_read_back]); a read
      fails only when no shard can read ([get_finds_a_copy]); an acknowledged
      erasure-coded put is read back after the loss of as many shards as the
      quorum exceeds k ([ec_put_is_read_back]); repair accounts for every
      replica that could not read, and restores copies and pieces
      ([repair_restores_copies], [repair_restores_pieces]); the resilver ends
      and, when it reports no errors, every key reads on each of its replicas
      ([resilver_restores_every_copy]); migration keeps every body readable
      through any failure, with at most parity + 1 copies
      ([migration_keeps_the_body]), and the turns of the
      background task are the full migration ([turns_are_the_full_migration]);
      the merged listing keeps the contract of a page.
    - Heal workers: every interleaving ends, and a request that is reported as
      healed is in the log of the run with a repair that failed nowhere, all
      others are kept ([drain_heals_or_keeps]); no shard is among the replicas
      of more keys under repair than the limit ([bulkhead_holds]).
    - Cache: it is a store with the contract of the store behind it
      ([cache_store_spec]), cannot break a read, and stays coherent but for the
      overwrites and deletes that [cache_stays_coherent] names; concurrent
      reads merge into one flight, and nobody waits for ever.
    - Bulk loader: export followed by import gives the same blocks, under any
      scheduling; the import accounts for every frame.
    - Gateway: a request is the operation on the map of objects that its
      response says ([served_request_is_a_map_operation]); a signature is good
      for one request, unless the digests confuse those very two; ranges are exact; a client that follows the tokens sees
      every object once; the rate limit lets exactly the configured number of
      requests of an instant through.
    - ZFS: a printed report is read back; an identity is never overwritten.
    - Admin server: no maintenance request loses a body
      ([maintenance_loses_no_body]); the deletion of a snapshot stays inside
      the snapshot directories, retention keeps the last names, none of an
      earlier second than a removed one; a scraper reads from the metrics page
      what the pool counts, name by name, sums and histograms included.
    - Daemon: a start gives a well-formed pool in which no key is placed on a
      disk that did not open, and swapped disks are refused with their numbers
      unchanged; the background
      tasks, in any order, on disks with damaged records too, lose no body, on a mirrored pool
      ([background_loses_no_body]) and, as long as no disk changes its rank, on
      one that migrates copies to pieces ([background_keeps_every_body]); the
      shutdown ends.
    - Load driver: with at least as many objects as hot keys, every planned
      read is done and measured once, under any scheduling ([bench_measures_every_read]).
    - Ranks follow the free space of the disks. Theorems on pieces assume that
      the topology in use does not expire ([steady]) or that no shard holds the
      piece of another rank ([ranked]); WalkDemo shows what happens otherwise
      ([fuller_disk_hides_pieces], [repair_overwrites_the_last_piece]).
    - Placement, erasure code, percentile, health, heal queue, throttle: the
      functional contracts of the pure modules, against reference
      definitions where there is one.
    - The Demo files also hold the runs in which the code does not do what its
      comments say.

    ** Bounds and fuel

    Loops that are not structural take fuel, and a theorem or lemma shows that
    the fuel the model passes is enough: [drain_fuel] (drain_heals_or_keeps),
    the rounds of eviction (wp_maybe_evict: each frees a byte of the books),
    [import_fuel] (import_accounts_for_every_frame: a byte of the stream pays
    for a message), the pages of an export (one more than the keys), the scan
    of a segment (its length), the walk of the resilver (one more page than
    keys, resilver_restores_every_copy). [migrate_loop] takes fuel and says so
    when it runs out; turns_are_the_full_migration holds for every fuel.
    [drain_wait] takes the polls of the shutdown; 601 are enough
    (shutdown_ends).

    ** Not modelled

    - Third-party code is a parameter with its documented behaviour as a
      hypothesis or class: CRC-32, zstd and redb (EngineEnv, RedbTable), xxh3
      and ln (Placement), Reed-Solomon (rs_law), bao (bao_law), SHA-256, HMAC,
      the parser of addresses.
    - The web framework: sockets, routing, percent-decoding, the encoding of
      JSON. A request is a value of [Request] with its decoded query.
    - Reading and parsing the TOML file: a configuration is the parsed record.
    - The start of processes (LocalRunner): a runner is a state machine that
      answers commands. The bytes that a failed export leaves in its file are
      an input.
    - Sleeps and logging. The asynchronous adapter, which hands every call on.
    - The microbenchmarks of the engine (storage_bench.rs) and the tests, which
      hold no logic of the system; the printed lines of the load driver.
    - Memory-order effects: an atomic access is one step. The rounds of two
      background tasks do not overlap in the model of the daemon, and the tree
      of files of the snapshots is apart from the disks of the pool.
    - Errors of reads of segments and of the index in the engine; a damaged
      segment file is modelled, by its bytes.
    - A panic (an index out of range, an unwrap) is an error value where the
      source can reach it; a release build is assumed, in which sums wrap. *)

From Stdlib Require Import ZArith Lia Strings.Byte Sorting.Permutation Sorting.Sorted.
From stdpp Require Import base list gmap sorting.
From coqutil Require Export Word.LittleEndianList.

(** ** Bytes *)

Abbreviation byte := Byte.byte.
Abbreviation bytes := (list Byte.byte).

#[global] Instance byte_eq_dec : EqDecision byte := Byte.byte_eq_dec.

#[global] Instance byte_countable : Countable byte :=
  inj_countable Byte.to_N Byte.of_N Byte.of_to_N.

#[global] Instance byte_inhabited : Inhabited byte := populate Byte.x00.

(** Lengths are integers, as the code's [usize]. *)
Definition blen (b : bytes) : Z := Z.of_nat (length b).

(** [&b[lo..lo+n]] for bounds that are known to be in range. *)
Definition slice (lo n : nat) (b : bytes) : bytes := take n (drop lo b).

(** [z as uW]: reduction modulo [2^w]. *)
Definition wrap (w z : Z) : Z := (z mod 2 ^ w)%Z.

(** [from_le_bytes] of the [n] bytes at [lo]; [to_le_bytes] is [le_split]. *)
Definition le_at (lo n : nat) (b : bytes) : Z := le_combine (slice lo n b).

(** [b[i]] as an integer, for an index known to be in range. *)
Definition u8_at (i : nat) (b : bytes) : Z := Byte.byte.unsigned (nth i b Byte.x00).

(** [a.saturating_sub(b)], [a.saturating_duration_since(b)] *)
Definition sat_sub (a b : Z) : Z := Z.max 0 (a - b).

(** [a.div_ceil(b)] *)
Definition div_ceil (a b : Z) : Z := ((a + b - 1) / b)%Z.

Section ByteFacts.
Local Open Scope Z_scope.

Lemma wrap_small w z : 0 <= z < 2 ^ w → wrap w z = z.
Proof. apply Z.mod_small. Qed.

Lemma wrap_bound w z : 0 <= w → 0 <= wrap w z < 2 ^ w.
Proof. intros. apply Z.mod_pos_bound, Z.pow_pos_nonneg; lia. Qed.

Lemma blen_app a b : blen (a ++ b) = blen a + blen b.
Proof. unfold blen. rewrite length_app. lia. Qed.

Lemma blen_nonneg b : 0 <= blen b.
Proof. unfold blen. lia. Qed.

Lemma blen_le_split n z : blen (le_split n z) = Z.of_nat n.
Proof. unfold blen. by rewrite length_le_split. Qed.

Lemma le_round n z :
  0 <= z < 2 ^ (Z.of_nat n * 8) → le_combine (le_split n z) = z.
Proof. intros. rewrite le_combine_split. by apply Z.mod_small. Qed.

Lemma le_at_app n x r :
  length x = n → le_at 0 n (x ++ r) = le_combine x.
Proof. intros <-. unfold le_at, slice. by rewrite drop_0, take_app_length. Qed.

Lemma slice_skip lo n x r :
  (length x ≤ lo)%nat → slice lo n (x ++ r) = slice (lo - length x)%nat n r.
Proof. intros. unfold slice. by rewrite drop_app_ge. Qed.

Lemma slice_here n x r : length x = n → slice 0 n (x ++ r) = x.
Proof. intros <-. unfold slice. by rewrite drop_0, take_app_length. Qed.

Lemma le_at_bound lo n b : 0 <= le_at lo n b < 2 ^ (8 * Z.of_nat n).
Proof.
  unfold le_at, slice. rewrite le_combine_firstn.
  apply Z.mod_pos_bound, Z.pow_pos_nonneg; lia.
Qed.

Lemma u8_at_bound i b : 0 <= u8_at i b < 256.
Proof. unfold u8_at. apply Byte.byte.unsigned_range. Qed.
End ByteFacts.

Lemma elem_of_take_in {A} (x : A) n l : x ∈ take n l → x ∈ l.
Proof. intros H. rewrite <-(take_drop n l). apply elem_of_app. by left. Qed.

Lemma elem_of_concat {A} (x : A) (ls : list (list A)) :
  x ∈ concat ls ↔ ∃ l, x ∈ l ∧ l ∈ ls.
Proof.
  rewrite list_elem_of_In, in_concat. setoid_rewrite list_elem_of_In. firstorder.
Qed.

(** Sums over a list of which one element changes. *)
Lemma sum_insert {A} (f : A → nat) l i x y :
  l !! i = Some x → (sum_list_with f (<[i := y]> l) + f x = sum_list_with f l + f y)%nat.
Proof.
  revert i. induction l as [| z l IH]; intros [| i] Hi; simpl in *; [done | done | |].
  - injection Hi as ->. lia.
  - specialize (IH i Hi). lia.
Qed.

Lemma sum_above {A} (f : A → nat) l i x : l !! i = Some x → (f x ≤ sum_list_with f l)%nat.
Proof.
  revert i. induction l as [| z l IH]; intros [| i] Hi; simpl in *; [done | done | |].
  - injection Hi as ->. lia.
  - specialize (IH i Hi). lia.
Qed.

Lemma sum_repeat {A} (f : A → nat) n x : sum_list_with f (replicate n x) = (n * f x)%nat.
Proof. induction n as [| n IH]; simpl; [done |]. by rewrite IH. Qed.

Lemma bind_insert {A B} (f : A → list B) l i x y :
  l !! i = Some x → ∃ rest, (l ≫= f) ≡ₚ rest ++ f x ∧ (<[i := y]> l ≫= f) ≡ₚ rest ++ f y.
Proof.
  intros Hi. exists ((take i l ≫= f) ++ (drop (S i) l ≫= f)). pose proof (lookup_lt_Some _ _ _ Hi).
  split.
  - rewrite <-(take_drop_middle l i x Hi) at 1. rewrite bind_app. simpl. rewrite <-app_assoc.
    apply Permutation_app_head, Permutation_app_comm.
  - rewrite insert_take_drop by done. rewrite bind_app. simpl. rewrite <-app_assoc.
    apply Permutation_app_head, Permutation_app_comm.
Qed.

Lemma perm_exchange {A} (d d' w w' rest h h' q q' : list A) :
  w ≡ₚ rest ++ h → w' ≡ₚ rest ++ h' → d' ++ h' ++ q' ≡ₚ d ++ h ++ q → d' ++ w' ++ q' ≡ₚ d ++ w ++ q.
Proof.
  intros H1 H2 H.
  assert (∀ a b c : list A, a ++ (rest ++ b) ++ c ≡ₚ rest ++ a ++ b ++ c) as Hsw.
  { intros a b c. rewrite <-app_assoc. apply Permutation_app_swap_app. }
  transitivity (d' ++ (rest ++ h') ++ q'); [by apply Permutation_app_head, Permutation_app_tail |].
  transitivity (d ++ (rest ++ h) ++ q); [| by apply Permutation_app_head, Permutation_app_tail].
  transitivity (rest ++ d' ++ h' ++ q'); [apply Hsw |]. transitivity (rest ++ d ++ h ++ q); [| by symmetry].
  by apply Permutation_app_head.
Qed.

Lemma elem_of_insert_inv {A} (l : list A) i x y : x ∈ <[i := y]> l → x = y ∨ x ∈ l.
Proof.
  intros (j & Hj)%list_elem_of_lookup. apply list_lookup_insert_Some in Hj as [(_ & -> & _) | [_ Hj]]; [by left |].
  right. by eapply list_elem_of_lookup_2.
Qed.

(** ** Results and the state-and-error monad of the stateful code *)

Inductive result (E A : Type) : Type :=
| Ok (a : A)
| Err (e : E).
Arguments Ok {E A} a.
Arguments Err {E A} e.
#[global] Instance result_eq_dec `{EqDecision E, EqDecision A} : EqDecision (result E A).
Proof. solve_decision. Defined.

(** [S -> Result<A, E>] with the state after the call kept in both cases: an
    early return with [?] leaves the effects already made. *)
Definition M (S E A : Type) : Type := S → result E A * S.

Section Monad.
Context {S E : Type}.

Definition mret {A} (a : A) : M S E A := λ s, (Ok a, s).
Definition mthrow {A} (e : E) : M S E A := λ s, (Err e, s).
Definition mthen {A B} (c : M S E A) (k : A → M S E B) : M S E B := λ s,
  match c s with
  | (Ok a, s') => k a s'
  | (Err e, s') => (Err e, s')
  end.
(** [match c { r => k r }]: the caller inspects the result itself. *)
Definition mcatch {E' A B} (c : M S E' A) (k : result E' A → M S E B) : M S E B := λ s,
  let '(r, s') := c s in k r s'.
Definition mget : M S E S := λ s, (Ok s, s).
Definition mmodify (f : S → S) : M S E unit := λ s, (Ok tt, f s).
Definition mlift {A} (r : result E A) : M S E A := λ s, (r, s).
(** [c.map_err(f)] *)
Definition mmap_err {E' A} (f : E' → E) (c : M S E' A) : M S E A := λ s,
  let '(r, s') := c s in (match r with Ok a => Ok a | Err e => Err (f e) end, s').

(** A [for] loop over a slice; an [Err] leaves the loop. *)
Fixpoint miter {A} (f : A → M S E unit) (l : list A) : M S E unit :=
  match l with
  | [] => mret tt
  | a :: l => mthen (f a) (λ _, miter f l)
  end.
(** The same with local variables [acc] that the body updates. *)
Fixpoint mfold {A B} (f : B → A → M S E B) (acc : B) (l : list A) : M S E B :=
  match l with
  | [] => mret acc
  | a :: l => mthen (f acc a) (λ acc, mfold f acc l)
  end.
End Monad.

Declare Scope rust_scope.
Delimit Scope rust_scope with rust.
Notation "'let!' x ':=' c 'in' k" := (mthen c (λ x, k))
  (at level 10, x binder, c at level 200, k at level 200) : rust_scope.
Notation "'do!' c ';' k" := (mthen c (λ _, k))
  (at level 10, c at level 200, k at level 200) : rust_scope.
Notation "'match!' c 'with!' r '=>' k" := (mcatch c (λ r, k))
  (at level 10, r binder, c at level 200, k at level 200) : rust_scope.

(** [wp c Q s]: running [c] from [s] ends with [Q]. *)
Definition wp {S E A} (c : M S E A) (Q : result E A → S → Prop) (s : S) : Prop :=
  Q (c s).1 (c s).2.

Lemma wp_run {S E A} (c : M S E A) (Q : result E A → S → Prop) s r s' :
  wp c Q s → c s = (r, s') → Q r s'.
Proof. unfold wp. by intros H Hc; rewrite Hc in H. Qed.

Lemma run_fst {S E A} (c : M S E A) s r : (c s).1 = r → c s = (r, (c s).2).
Proof. intros <-. by destruct (c s). Qed.

Section Wp.
Context {S E : Type}.

Lemma wp_ret {A} (a : A) (Q : result E A → S → Prop) s : Q (Ok a) s → wp (mret a) Q s.
Proof. done. Qed.

Lemma wp_throw {A} e (Q : result E A → S → Prop) s : Q (Err e) s → wp (mthrow e) Q s.
Proof. done. Qed.

Lemma wp_mono {A} (c : M S E A) (P Q : result E A → S → Prop) s :
  wp c P s → (∀ r s', P r s' → Q r s') → wp c Q s.
Proof. unfold wp. eauto. Qed.

Lemma wp_bind {A B} (c : M S E A) (k : A → M S E B) Q s :
  wp c (λ r s', match r with Ok a => wp (k a) Q s' | Err e => Q (Err e) s' end) s →
  wp (mthen c k) Q s.
Proof. unfold wp, mthen. destruct (c s) as [[a | e] s']; done. Qed.

Lemma wp_catch {E' A B} (c : M S E' A) (k : result E' A → M S E B) Q s :
  wp c (λ r s', wp (k r) Q s') s → wp (mcatch c k) Q s.
Proof. unfold wp, mcatch. destruct (c s) as [r s']; done. Qed.

Lemma wp_map_err {E' A} (f : E' → E) (c : M S E' A) (Q : result E A → S → Prop) s :
  wp c (λ r s', Q (match r with Ok a => Ok a | Err e => Err (f e) end) s') s →
  wp (mmap_err f c) Q s.
Proof. unfold wp, mmap_err. by destruct (c s) as [r s']. Qed.

Lemma wp_get (Q : result E S → S → Prop) s : Q (Ok s) s → wp mget Q s.
Proof. done. Qed.

Lemma wp_modify f (Q : result E unit → S → Prop) s :
  Q (Ok tt) (f s) → wp (mmodify f) Q s.
Proof. done. Qed.

Lemma wp_lift {A} (r : result E A) (Q : result E A → S → Prop) s :
  Q r s → wp (mlift r) Q s.
Proof. done. Qed.

(** An invariant of the loop body is one of the loop, whether it runs to the
    end or leaves with an error. *)
Lemma wp_iter {A} (I : S → Prop) (f : A → M S E unit) l s :
  I s →
  (∀ a s, a ∈ l → I s → wp (f a) (λ _ s', I s') s) →
  wp (miter f l) (λ _ s', I s') s.
Proof.
  revert s. induction l as [| a l IH]; intros s HI Hf; simpl; [done |].
  apply wp_bind. eapply wp_mono.
  { apply Hf; [left | done]. }
  intros [[] | e] s' HI'; [| done].
  apply IH; [done |]. intros b t Hb Ht. apply Hf; [by right | done].
Qed.

(** A loop without early exits whose body establishes [G a], which the rest of
    the loop keeps. *)
Lemma wp_iter_all {A} (I : S → Prop) (G : A → S → Prop) (f : A → M S E unit) l s :
  I s →
  (∀ a s, a ∈ l → I s → wp (f a) (λ r s', r = Ok tt ∧ I s' ∧ G a s' ∧ ∀ b, G b s → G b s') s) →
  wp (miter f l) (λ r s', r = Ok tt ∧ I s' ∧ (∀ a, a ∈ l → G a s') ∧ ∀ b, G b s → G b s') s.
Proof.
  revert s. induction l as [| a l IH]; intros s HI Hf; simpl.
  { apply wp_ret. split_and!; [done | done | by intros a ?%not_elem_of_nil | done]. }
  apply wp_bind. eapply wp_mono; [apply Hf; [left | done] |]. intros r s1 (-> & HI1 & Ha & Hk1).
  eapply wp_mono; [apply IH; [done |]; intros b t Hb Ht; apply Hf; [by right | done] |].
  intros r s2 (-> & HI2 & Hall & Hk2). split_and!; [done | done | | auto].
  intros b [-> | Hb]%elem_of_cons; auto.
Qed.

Lemma wp_fold {A B} (I : S → Prop) (f : B → A → M S E B) acc l s :
  I s →
  (∀ acc a s, a ∈ l → I s → wp (f acc a) (λ _ s', I s') s) →
  wp (mfold f acc l) (λ _ s', I s') s.
Proof.
  revert acc s. induction l as [| a l IH]; intros acc s HI Hf; simpl; [done |].
  apply wp_bind. eapply wp_mono.
  { apply Hf; [left | done]. }
  intros [b | e] s' HI'; [| done].
  apply IH; [done |]. intros acc' b' t Hb Ht. apply Hf; [by right | done].
Qed.
End Wp.

Arguments wp : simpl never.

Create HintDb ozd.
#[export] Hint Resolve wp_ret wp_throw wp_get wp_modify wp_lift : ozd.

(** [wp_step] runs one statement of a monadic body. *)
Ltac wp_step :=
  lazymatch goal with
  | |- wp (mthen _ _) _ _ => apply wp_bind
  | |- wp (mcatch _ _) _ _ => apply wp_catch
  | |- wp (mmap_err _ _) _ _ => apply wp_map_err
  | |- wp (mret _) _ _ => apply wp_ret
  | |- wp (mthrow _) _ _ => apply wp_throw
  | |- wp mget _ _ => apply wp_get
  | |- wp (mmodify _) _ _ => apply wp_modify
  | |- wp (mlift _) _ _ => apply wp_lift
  end; cbv beta iota.
Ltac wp_steps := repeat wp_step.

(** ** The order of keys *)

(** [derive(Ord)] of [Vec<u8>]: lexicographic, a proper prefix first. *)
Fixpoint bytes_cmp (a b : bytes) : comparison :=
  match a, b with
  | [], [] => Eq
  | [], _ :: _ => Lt
  | _ :: _, [] => Gt
  | x :: a, y :: b =>
      match (Byte.to_N x ?= Byte.to_N y)%N with
      | Eq => bytes_cmp a b
      | c => c
      end
  end.

Definition bytes_lt (a b : bytes) : Prop := bytes_cmp a b = Lt.
Definition bytes_le (a b : bytes) : Prop := bytes_cmp a b ≠ Gt.

#[global] Instance bytes_lt_dec a b : Decision (bytes_lt a b).
Proof. unfold bytes_lt. solve_decision. Defined.
#[global] Instance bytes_le_dec a b : Decision (bytes_le a b).
Proof. unfold bytes_le. solve_decision. Defined.

Lemma to_N_inj x y : Byte.to_N x = Byte.to_N y → x = y.
Proof.
  intros H. apply (f_equal Byte.of_N) in H. rewrite !Byte.of_to_N in H. by simplify_eq.
Qed.

Lemma bytes_cmp_refl a : bytes_cmp a a = Eq.
Proof. induction a; simpl; [done |]. by rewrite N.compare_refl. Qed.

Lemma bytes_cmp_eq a b : bytes_cmp a b = Eq ↔ a = b.
Proof.
  split; [| intros ->; apply bytes_cmp_refl].
  revert b. induction a as [| x a IH]; intros [| y b]; simpl; try done.
  destruct (N.compare_spec (Byte.to_N x) (Byte.to_N y)) as [H | |]; try done.
  intros Hc. apply to_N_inj in H as ->. f_equal. by apply IH.
Qed.

Lemma bytes_cmp_antisym a b : bytes_cmp b a = CompOpp (bytes_cmp a b).
Proof.
  revert b. induction a as [| x a IH]; intros [| y b]; simpl; try done.
  rewrite (N.compare_antisym (Byte.to_N x)).
  destruct (Byte.to_N x ?= Byte.to_N y)%N; simpl; auto.
Qed.

Lemma bytes_lt_trans a b c : bytes_lt a b → bytes_lt b c → bytes_lt a c.
Proof.
  unfold bytes_lt. revert b c.
  induction a as [| x a IH]; intros [| y b] [| z c]; simpl; try done.
  destruct (N.compare_spec (Byte.to_N x) (Byte.to_N y)) as [Hxy | Hxy | Hxy],
           (N.compare_spec (Byte.to_N y) (Byte.to_N z)) as [Hyz | Hyz | Hyz],
           (N.compare_spec (Byte.to_N x) (Byte.to_N z)) as [Hxz | Hxz | Hxz];
    try done; try lia. eauto.
Qed.

#[global] Instance bytes_lt_strict : StrictOrder bytes_lt.
Proof.
  split; [| intros a b c; apply bytes_lt_trans].
  intros a H. unfold bytes_lt in H. by rewrite bytes_cmp_refl in H.
Qed.

Lemma bytes_lt_irrefl a : ¬ bytes_lt a a.
Proof. apply irreflexivity, _. Qed.

Lemma bytes_le_lteq a b : bytes_le a b ↔ bytes_lt a b ∨ a = b.
Proof.
  unfold bytes_le, bytes_lt. rewrite <-bytes_cmp_eq.
  destruct (bytes_cmp a b); intuition done.
Qed.

Lemma bytes_nlt_le a b : ¬ bytes_lt a b ↔ bytes_le b a.
Proof.
  unfold bytes_lt, bytes_le. rewrite (bytes_cmp_antisym a b).
  destruct (bytes_cmp a b); intuition done.
Qed.

Lemma bytes_nle_lt a b : ¬ bytes_le a b ↔ bytes_lt b a.
Proof.
  unfold bytes_lt, bytes_le. rewrite (bytes_cmp_antisym a b).
  destruct (bytes_cmp a b); intuition done.
Qed.

#[global] Instance bytes_le_po : PartialOrder bytes_le.
Proof.
  split; [split |].
  - intros a. apply bytes_le_lteq. by right.
  - intros a b c. rewrite !bytes_le_lteq. intros [? | ->] [? | ->]; auto.
    left. by eapply bytes_lt_trans.
  - intros a b. rewrite !bytes_le_lteq. intros [Hab | ?] [Hba | ?]; auto.
    destruct (irreflexivity bytes_lt a). by apply (bytes_lt_trans a b).
Qed.

#[global] Instance bytes_lt_tricho : TrichotomyT bytes_lt.
Proof.
  intros a b. destruct (bytes_cmp a b) eqn:Hc.
  - left; right. by apply bytes_cmp_eq.
  - by left; left.
  - right. unfold bytes_lt. by rewrite bytes_cmp_antisym, Hc.
Defined.

Lemma bytes_le_lt_trans a b c : bytes_le a b → bytes_lt b c → bytes_lt a c.
Proof. rewrite bytes_le_lteq. intros [Hab | ->] Hbc; [| done]. by apply (bytes_lt_trans a b). Qed.

Lemma bytes_lt_le_trans a b c : bytes_lt a b → bytes_le b c → bytes_lt a c.
Proof. rewrite bytes_le_lteq. intros Hab [Hbc | <-]; [| done]. by apply (bytes_lt_trans a b). Qed.

Lemma bytes_lt_le a b : bytes_lt a b → bytes_le a b.
Proof. rewrite bytes_le_lteq. auto. Qed.

Lemma bytes_nil_le a : bytes_le [] a.
Proof. by destruct a. Qed.

(** [key.starts_with(prefix)] *)
Definition starts_with (p k : bytes) : bool := bool_decide (p `prefix_of` k).

Lemma bytes_cmp_app p a b : bytes_cmp (p ++ a) (p ++ b) = bytes_cmp a b.
Proof. induction p; simpl; [done |]. by rewrite N.compare_refl. Qed.

Lemma prefix_bytes_le p k : p `prefix_of` k → bytes_le p k.
Proof.
  intros [r ->]. unfold bytes_le. rewrite <-(app_nil_r p) at 1.
  rewrite bytes_cmp_app. by destruct r.
Qed.

(** The keys with a given prefix are an interval of the order. *)
Lemma prefix_interval p k k' :
  bytes_le p k → bytes_le k k' → p `prefix_of` k' → p `prefix_of` k.
Proof.
  unfold bytes_le. revert k k'.
  induction p as [| x p IH]; intros k k' Hpk Hkk' [r ->]; [apply prefix_nil |].
  destruct k as [| y k]; simpl in *; [done |].
  destruct (N.compare_spec (Byte.to_N x) (Byte.to_N y)) as [Hxy | Hxy | Hxy];
    destruct (N.compare_spec (Byte.to_N y) (Byte.to_N x)) as [Hyx | Hyx | Hyx];
    try done; try lia.
  apply to_N_inj in Hxy as ->. apply prefix_cons. eapply IH; [done | exact Hkk' |].
  by eexists.
Qed.

(** [after] followed by a zero byte is the least key above [after]. *)
Lemma bytes_succ_le a k : bytes_le (a ++ [Byte.x00]) k ↔ bytes_lt a k.
Proof.
  unfold bytes_le, bytes_lt. revert k.
  induction a as [| x a IH]; intros [| y k]; simpl; try done.
  - destruct (Byte.to_N y) as [| n]; [by destruct k; split | by split].
  - destruct (Byte.to_N x ?= Byte.to_N y)%N; [apply IH | by split | by split].
Qed.

#[export] Hint Resolve bytes_lt_le bytes_nil_le prefix_bytes_le : ozd.

Lemma NoDup_map_inj {A B} (f : A → B) (l : list A) x y :
  NoDup (map f l) → x ∈ l → y ∈ l → f x = f y → x = y.
Proof.
  induction l as [| z l IH]; intros Hnd Hx Hy Heq; [by apply not_elem_of_nil in Hx |].
  apply NoDup_cons in Hnd as [Hz Hnd]. apply elem_of_cons in Hx, Hy.
  destruct Hx as [-> | Hx], Hy as [-> | Hy]; [done | | | by apply IH]; exfalso; apply Hz.
  - rewrite Heq. by apply list_elem_of_fmap_2.
  - rewrite <-Heq. by apply list_elem_of_fmap_2.
Qed.

(** ** Stable sorting *)

Section SortBy.
Context {A : Type} (cmp : A → A → comparison).

(** Put [x] behind the elements that are not greater. *)
Fixpoint insert_by (x : A) (l : list A) : list A :=
  match l with
  | [] => [x]
  | y :: l => match cmp y x with Gt => x :: y :: l | _ => y :: insert_by x l end
  end.

(** [slice.sort_by(cmp)]: the stable sort, for a [cmp] that orders the
    elements. *)
Definition sort_by (l : list A) : list A := foldl (λ acc x, insert_by x acc) [] l.

Lemma insert_by_perm x l : insert_by x l ≡ₚ x :: l.
Proof.
  induction l as [| y l IH]; simpl; [done |].
  destruct (cmp y x); [| | done]; (etransitivity; [by apply perm_skip | apply perm_swap]).
Qed.

Lemma sort_by_snoc l x : sort_by (l ++ [x]) = insert_by x (sort_by l).
Proof. unfold sort_by. by rewrite foldl_app. Qed.

Lemma sort_by_perm l : sort_by l ≡ₚ l.
Proof.
  induction l as [| x l IH] using rev_ind; [done |].
  rewrite sort_by_snoc. etransitivity; [apply insert_by_perm |].
  etransitivity; [by apply perm_skip | apply Permutation_cons_append].
Qed.

(** [cmp] orders the elements of [P]. *)
Record orders (P : A → Prop) : Prop := {
  or_antisym : ∀ x y, P x → P y → cmp y x = CompOpp (cmp x y);
  or_trans : ∀ x y z, P x → P y → P z → cmp x y ≠ Gt → cmp y z ≠ Gt → cmp x z ≠ Gt;
}.

Definition not_gt (x y : A) : Prop := cmp x y ≠ Gt.

Lemma insert_by_sorted P x l :
  orders P → P x → Forall P l → StronglySorted not_gt l → StronglySorted not_gt (insert_by x l).
Proof.
  intros HO Hx. induction l as [| y l IH]; intros HP Hs; simpl; [by repeat constructor |].
  apply Forall_cons in HP as [Hy HP]. apply StronglySorted_inv in Hs as [Hs Hall].
  destruct (cmp y x) eqn:Hc.
  1,2: constructor; [by apply IH |]; rewrite insert_by_perm; constructor; [unfold not_gt; congruence | done].
  constructor; [by constructor |]. assert (not_gt x y) as Hxy.
  { unfold not_gt. rewrite (or_antisym _ HO y x Hy Hx), Hc. done. }
  constructor; [done |]. rewrite Forall_forall in *. intros z Hz.
  eapply (or_trans _ HO); [done | exact Hy | by apply HP | done | by apply Hall].
Qed.

Lemma Forall_sort_by (P : A → Prop) l : Forall P (sort_by l) ↔ Forall P l.
Proof.
  rewrite !Forall_forall. split; intros H x Hx; apply H;
    [by rewrite sort_by_perm | by rewrite sort_by_perm in Hx].
Qed.

Lemma sort_by_sorted P l : orders P → Forall P l → StronglySorted not_gt (sort_by l).
Proof.
  intros HO. induction l as [| x l IH] using rev_ind; intros HP; [constructor |].
  apply Forall_app in HP as [HP Hx]. apply Forall_cons in Hx as [Hx _].
  rewrite sort_by_snoc. apply (insert_by_sorted P); [done | done | by apply Forall_sort_by | by apply IH].
Qed.

(** Sorting with one more element puts it somewhere and moves nothing else. *)
Lemma sort_by_extra P l1 x l2 :
  orders P → P x → Forall P (l1 ++ l2) →
  ∃ a b, sort_by (l1 ++ l2) = a ++ b ∧ sort_by (l1 ++ x :: l2) = a ++ x :: b.
Proof.
  intros HO Hx. induction l2 as [| y l2 IH] using rev_ind; intros HP.
  - rewrite app_nil_r. rewrite sort_by_snoc. generalize (sort_by l1). intros l.
    induction l as [| z l (a & b & Hl & Hi)]; simpl; [by exists [], [] |].
    destruct (cmp z x); [| | by exists [], (z :: l)];
      exists (z :: a), b; simpl; (split; [by f_equal | by rewrite Hi]).
  - rewrite app_assoc in HP. apply Forall_app in HP as [HP Hy]. apply Forall_cons in Hy as [Hy _].
    destruct (IH HP) as (a & b & Hl & Hi).
    rewrite app_comm_cons, !app_assoc, !sort_by_snoc, Hl, Hi.
    assert (StronglySorted not_gt (a ++ x :: b)) as Hs.
    { rewrite <-Hi. apply (sort_by_sorted P); [done |].
      apply Forall_app in HP as [? ?]. apply Forall_app. split; [done |]. by constructor. }
    assert (Forall P a ∧ Forall P b) as [HPa HPb].
    { apply Forall_app. rewrite <-Hl. by apply Forall_sort_by. }
    clear Hl Hi IH HP. induction a as [| z a IHa]; simpl.
    + apply StronglySorted_inv in Hs as [_ Hall]. destruct (cmp x y) eqn:Hc.
      1,2: by exists [], (insert_by y b).
      exists [y], b. split; [| done]. destruct b as [| w b]; [done |]. simpl.
      apply Forall_cons in Hall as [Hxw _]. apply Forall_cons in HPb as [Hw _].
      destruct (cmp w y) eqn:Hwy; [| | done].
      all: exfalso; apply (or_trans _ HO x w y Hx Hw Hy Hxw); congruence.
    + apply StronglySorted_inv in Hs as [Hs _]. apply Forall_cons in HPa as [_ HPa].
      destruct (IHa Hs HPa) as (a' & b' & H1 & H2).
      destruct (cmp z y); [| | by exists (y :: z :: a), b];
        exists (z :: a'), b'; simpl; by rewrite H1, H2.
Qed.
End SortBy.

(** ** Pages: association lists sorted by their keys *)

Section Sorted.
Context {V : Type}.
Implicit Types (l : list (bytes * V)).

Lemma sorted_app l1 l2 :
  StronglySorted bytes_lt (l1 ++ l2).*1 →
  StronglySorted bytes_lt l1.*1 ∧ StronglySorted bytes_lt l2.*1 ∧
  ∀ k1 k2, k1 ∈ l1.*1 → k2 ∈ l2.*1 → bytes_lt k1 k2.
Proof.
  rewrite fmap_app. intros Hs. split_and!.
  - by eapply StronglySorted_app_1_l.
  - by eapply StronglySorted_app_1_r.
  - intros k1 k2 H1 H2. by eapply StronglySorted_app_1_elem_of.
Qed.

Lemma sorted_keys_NoDup (keys : list bytes) : StronglySorted bytes_lt keys → NoDup keys.
Proof.
  induction keys as [| k keys IH]; intros Hs; [constructor |].
  apply StronglySorted_inv in Hs as [Hs Hall]. constructor; [| by apply IH].
  intros Hk. rewrite Forall_forall in Hall. apply Hall in Hk. by apply bytes_lt_irrefl in Hk.
Qed.

Lemma sorted_NoDup l : StronglySorted bytes_lt l.*1 → NoDup l.*1.
Proof. apply sorted_keys_NoDup. Qed.

Lemma sorted_take n l : StronglySorted bytes_lt l.*1 → StronglySorted bytes_lt (take n l).*1.
Proof. rewrite <-(take_drop n l) at 1. by intros (? & _ & _)%sorted_app. Qed.

(** What a truncated sorted list leaves out comes after a full page. *)
Lemma sorted_take_complete n l k :
  StronglySorted bytes_lt l.*1 → k ∈ l.*1 →
  k ∈ (take n l).*1 ∨ (length (take n l) = n ∧ ∀ k', k' ∈ (take n l).*1 → bytes_lt k' k).
Proof.
  intros Hs Hk. rewrite <-(take_drop n l) in Hs, Hk.
  apply sorted_app in Hs as (_ & _ & Hlt). rewrite fmap_app in Hk.
  apply elem_of_app in Hk as [Hk | Hk]; [by left | right]. split; [| auto].
  apply length_take_le. destruct (decide (n ≤ length l)%nat) as [|Hn]; [done |].
  rewrite drop_ge in Hk by lia. by apply not_elem_of_nil in Hk.
Qed.

(** If [n] of the keys of a sorted list are below [k], so are its first [n]. *)
Lemma sorted_take_below n l (l0 : list bytes) k :
  StronglySorted bytes_lt l.*1 → NoDup l0 → (n <= length l0)%nat →
  (∀ k0, k0 ∈ l0 → k0 ∈ l.*1 ∧ bytes_lt k0 k) →
  length (take n l) = n ∧ ∀ k', k' ∈ (take n l).*1 → bytes_lt k' k.
Proof.
  intros Hs Hnd Hn Hl0. split.
  - apply length_take_le. rewrite <-(length_fmap fst l).
    transitivity (length l0); [done |]. apply submseteq_length, NoDup_submseteq; [done |].
    intros k0 Hk0. by apply Hl0.
  - intros k' Hk'. destruct (decide (bytes_lt k' k)) as [|Hge]; [done | exfalso].
    apply bytes_nlt_le in Hge.
    apply list_elem_of_fmap in Hk' as ([k2 v2] & -> & Hin). simpl in *.
    apply list_elem_of_split in Hin as (l1 & l2 & Htk).
    assert (length l1 < n)%nat as Hl1.
    { assert (length (take n l) <= n)%nat as Hlen by (rewrite length_take; lia).
      rewrite Htk, length_app in Hlen. simpl in Hlen. lia. }
    rewrite <-(take_drop n l), Htk, <-app_assoc in Hs.
    apply sorted_app in Hs as (_ & Hs2 & _). simpl in Hs2.
    apply StronglySorted_inv in Hs2 as [_ Hall]. rewrite Forall_forall in Hall.
    assert (length l0 <= length l1)%nat; [| lia].
    rewrite <-(length_fmap fst l1). apply submseteq_length, NoDup_submseteq; [done |].
    intros k0 [Hin Hlt]%Hl0.
    rewrite <-(take_drop n l), Htk, <-app_assoc, fmap_app in Hin. simpl in Hin.
    assert (bytes_lt k0 k2) as Hlt2 by (by eapply bytes_lt_le_trans).
    apply elem_of_app in Hin as [Hin | [-> | Hin]%elem_of_cons]; [done | |].
    + by apply bytes_lt_irrefl in Hlt2.
    + apply Hall in Hin. assert (bytes_lt k0 k0) as H by (by etransitivity).
      by apply bytes_lt_irrefl in H.
Qed.
End Sorted.
