(* ===== verification/F64.v ===== *)
(** * IEEE 754 binary64 arithmetic, as Rust's [f64]

    [f64] values are the Standard Library's [SpecFloat] numbers with 53 bits
    of precision; the operations round to nearest even. [as u64] truncates and
    saturates, [max] and [min] return the other operand of a NaN.

    Second part: Integers in binary64. *)

From Stdlib Require Import ZArith Lia SpecFloat.
From stdpp Require Import base decidable tactics.
Open Scope Z_scope.

Definition f64 := spec_float.
#[global] Instance f64_eq_dec : EqDecision f64.
Proof. intros x y. unfold Decision. repeat decide equality. Defined.

(** [z as f64] *)
Definition f64_of_Z (z : Z) : f64 := binary_normalize 53 1024 z 0 false.
Definition f64_mul : f64 → f64 → f64 := SFmul 53 1024.
Definition f64_add : f64 → f64 → f64 := SFadd 53 1024.
Definition f64_sub : f64 → f64 → f64 := SFsub 53 1024.
Definition f64_div : f64 → f64 → f64 := SFdiv 53 1024.
Definition f64_opp : f64 → f64 := SFopp.
Definition f64_lt : f64 → f64 → bool := SFltb.
Definition f64_le : f64 → f64 → bool := SFleb.

(** [partial_cmp] *)
Definition f64_cmp : f64 → f64 → option comparison := SFcompare.

Definition f64_max (x y : f64) : f64 :=
  match x, y with
  | S754_nan, _ => y
  | _, S754_nan => x
  | _, _ => if f64_lt x y then y else x
  end.
Definition f64_min (x y : f64) : f64 :=
  match x, y with
  | S754_nan, _ => y
  | _, S754_nan => x
  | _, _ => if f64_lt y x then y else x
  end.

(** [x as u64] *)
Definition f64_to_u64 (x : f64) : Z :=
  match x with
  | S754_zero _ | S754_nan => 0
  | S754_infinity true => 0
  | S754_infinity false => 2 ^ 64 - 1
  | S754_finite true _ _ => 0
  | S754_finite false m e => Z.min (2 ^ 64 - 1) (Z.shiftl (Z.pos m) e)
  end.

(** [0.5], [0.1], [1.0], [0.01], [0.95] as the nearest binary64 numbers. *)
Definition f64_ratio (a b : Z) : f64 := f64_div (f64_of_Z a) (f64_of_Z b).

Example f64_third : f64_to_u64 (f64_mul (f64_ratio 1 10) (f64_of_Z 100)) = 10.
Proof. vm_compute. reflexivity. Qed.
Example f64_u64_max : f64_to_u64 (f64_of_Z (2 ^ 64 - 1)) = 2 ^ 64 - 1.
Proof. vm_compute. reflexivity. Qed.


(** ** The order of the numbers that are not NaN *)

(** Lexicographic key of a number in the order of [partial_cmp]. *)
Definition f64_key (x : f64) : Z * Z * Z :=
  match x with
  | S754_infinity true => (-2, 0, 0)
  | S754_finite true m e => (-1, - e, - Z.pos m)
  | S754_finite false m e => (1, e, Z.pos m)
  | S754_infinity false => (2, 0, 0)
  | _ => (0, 0, 0)
  end.

Definition key_cmp (a b : Z * Z * Z) : comparison :=
  match a.1.1 ?= b.1.1 with
  | Eq => match a.1.2 ?= b.1.2 with Eq => a.2 ?= b.2 | c => c end
  | c => c
  end.

Definition is_num (x : f64) : Prop := x ≠ S754_nan.

Lemma f64_cmp_key x y : is_num x → is_num y → f64_cmp x y = Some (key_cmp (f64_key x) (f64_key y)).
Proof.
  unfold is_num, f64_cmp, key_cmp.
  destruct x as [s | s | | s m e], y as [s' | s' | | s' m' e']; try done; intros _ _;
    try (by destruct s); try (by destruct s'); try (by destruct s, s').
  destruct s, s'; simpl; try done.
  - change (PosDef.Pos.compare_cont Eq m m') with (m ?= m')%positive.
    rewrite Z.compare_opp, (Z.compare_antisym e e'). by destruct (e ?= e').
Qed.

Lemma key_cmp_antisym a b : key_cmp b a = CompOpp (key_cmp a b).
Proof.
  unfold key_cmp. rewrite (Z.compare_antisym a.1.1), (Z.compare_antisym a.1.2), (Z.compare_antisym a.2).
  destruct (a.1.1 ?= b.1.1), (a.1.2 ?= b.1.2); done.
Qed.

Lemma key_cmp_trans a b c : key_cmp a b ≠ Gt → key_cmp b c ≠ Gt → key_cmp a c ≠ Gt.
Proof.
  unfold key_cmp.
  destruct (Z.compare_spec a.1.1 b.1.1), (Z.compare_spec b.1.1 c.1.1), (Z.compare_spec a.1.1 c.1.1);
    try done; try lia;
  destruct (Z.compare_spec a.1.2 b.1.2), (Z.compare_spec b.1.2 c.1.2), (Z.compare_spec a.1.2 c.1.2);
    try done; try lia;
  destruct (Z.compare_spec a.2 b.2), (Z.compare_spec b.2 c.2), (Z.compare_spec a.2 c.2); try done; lia.
Qed.

(** ** Numbers that cannot be NaN *)

Lemma shr_1_nonneg mrs : 0 <= shr_m mrs → 0 <= shr_m (shr_1 mrs).
Proof. destruct mrs as [[| [p | p |] | p] r s]; simpl; lia. Qed.

Lemma iter_shr_nonneg p mrs : 0 <= shr_m mrs → 0 <= shr_m (iter_pos shr_1 p mrs).
Proof. revert mrs. induction p; intros mrs Hm; simpl; auto using shr_1_nonneg. Qed.

Lemma shr_fexp_nonneg prec emax m e l : 0 <= m → 0 <= shr_m (shr_fexp prec emax m e l).1.
Proof.
  intros Hm. unfold shr_fexp.
  assert (0 <= shr_m (shr_record_of_loc m l)) as Hr by (destruct l as [| []]; simpl; lia).
  destruct (_ - e); simpl; try done. by apply iter_shr_nonneg.
Qed.

Lemma binary_round_aux_num prec emax s m e l : 0 <= m → is_num (binary_round_aux prec emax s m e l).
Proof.
  intros Hm. unfold binary_round_aux.
  pose proof (shr_fexp_nonneg prec emax m e l Hm) as H1.
  destruct (shr_fexp prec emax m e l) as [mrs1 e1]. simpl in H1.
  set (m2 := round_nearest_even _ _).
  assert (0 <= m2) as Hm2 by (unfold m2, round_nearest_even; destruct (loc_of_shr_record mrs1) as [| []]; try lia;
    destruct (Z.even _); lia).
  pose proof (shr_fexp_nonneg prec emax m2 e1 loc_Exact Hm2) as H2.
  destruct (shr_fexp prec emax m2 e1 loc_Exact) as [mrs2 e2]. simpl in H2.
  unfold is_num. destruct (shr_m mrs2); [done | by destruct (_ <=? _) | lia].
Qed.

Lemma f64_of_Z_num z : is_num (f64_of_Z z).
Proof.
  unfold f64_of_Z, binary_normalize, binary_round. destruct z as [| p | p]; [done | |];
    destruct (shl_align _ _ _); by apply binary_round_aux_num.
Qed.

Lemma key_cmp_refl a : key_cmp a a = Eq.
Proof. unfold key_cmp. by rewrite !Z.compare_refl. Qed.

Lemma f64_le_refl x : is_num x → f64_le x x = true.
Proof. intros Hx. unfold f64_le, SFleb. change SFcompare with f64_cmp. by rewrite f64_cmp_key, key_cmp_refl. Qed.

Lemma f64_not_lt_le x y : is_num x → is_num y → f64_lt x y = false → f64_le y x = true.
Proof.
  intros Hx Hy. unfold f64_le, f64_lt, SFleb, SFltb. change SFcompare with f64_cmp.
  rewrite !f64_cmp_key by done. rewrite (key_cmp_antisym (f64_key x)). by destruct (key_cmp _ _).
Qed.

Lemma f64_lt_le x y : f64_lt x y = true → f64_le x y = true.
Proof. unfold f64_le, f64_lt, SFleb, SFltb. by destruct (SFcompare x y) as [[] |]. Qed.

(** [max] and [min] with a number as the second operand. *)
Lemma f64_max_ge x y : is_num y → is_num (f64_max x y) ∧ f64_le y (f64_max x y) = true.
Proof.
  intros Hy. destruct (decide (x = S754_nan)) as [-> | Hx]; [by split; [| apply f64_le_refl] |].
  assert (f64_max x y = if f64_lt x y then y else x) as -> by (by destruct x, y).
  destruct (f64_lt x y) eqn:H; [by split; [| apply f64_le_refl] |].
  split; [done |]. by apply f64_not_lt_le.
Qed.

Lemma f64_min_le x y : is_num y → is_num (f64_min x y) ∧ f64_le (f64_min x y) y = true.
Proof.
  intros Hy. destruct (decide (x = S754_nan)) as [-> | Hx]; [by split; [| apply f64_le_refl] |].
  assert (f64_min x y = if f64_lt y x then y else x) as -> by (by destruct x, y).
  destruct (f64_lt y x) eqn:H; [by split; [| apply f64_le_refl] |].
  split; [done |]. by apply f64_not_lt_le.
Qed.

(** ** Decimal numbers *)

(** The nearest number to [(-1)^s * d * 10^x]. *)
Definition f64_decimal (s : bool) (d x : Z) : f64 :=
  match d with
  | Z.pos p =>
      if 0 <=? x then binary_round 53 1024 s (Pos.mul p (Z.to_pos (10 ^ x))) 0
      else let '(q, e, l) := SFdiv_core_binary 53 1024 (Z.pos p) 0 (10 ^ (- x)) 0 in binary_round_aux 53 1024 s q e l
  | _ => S754_zero s
  end.

Example f64_one_and_a_half : f64_decimal false 15 (-1) = f64_ratio 3 2.
Proof. vm_compute. reflexivity. Qed.
Example f64_tenth : f64_decimal false 1 (-1) = f64_ratio 1 10.
Proof. vm_compute. reflexivity. Qed.

(** * Integers in binary64

    Integers below 2^53 are exact: conversion, comparison, and subtraction of
    one give the number of the integer result, without rounding. *)

(** ** Doubling *)

Definition dbl (n : nat) (p : positive) : positive := Nat.iter n xO p.

Lemma dbl_Z n p : Z.pos (dbl n p) = Z.pos p * 2 ^ Z.of_nat n.
Proof.
  induction n as [| n IH]; [cbn; lia |]. change (dbl (S n) p) with (xO (dbl n p)).
  rewrite Nat2Z.inj_succ, Z.pow_succ_r, Pos2Z.inj_xO by lia. lia.
Qed.

Lemma dbl_add m n p : dbl m (dbl n p) = dbl (m + n) p.
Proof. unfold dbl. by rewrite Nat.iter_add. Qed.

Lemma iter_xO d p : Pos.iter xO p d = dbl (Pos.to_nat d) p.
Proof. apply Pos2Nat.inj_iter. Qed.

Lemma iter_pos_nat {A} (f : A → A) d x : iter_pos f d x = Nat.iter (Pos.to_nat d) f x.
Proof.
  revert x. induction d as [d IH | d IH |]; intros x; cbn [iter_pos]; [| | done]; rewrite !IH, <-Nat.iter_add.
  - rewrite <-Nat.iter_succ_r. f_equal. lia.
  - f_equal. lia.
Qed.

Abbreviation dg p := (Z.pos (digits2_pos p)).

Lemma digits_dbl n p : dg (dbl n p) = dg p + Z.of_nat n.
Proof. induction n as [| n IH]; [cbn; lia |]. change (dbl (S n) p) with (xO (dbl n p)). cbn [digits2_pos]. lia. Qed.

Lemma digits_bound p : 2 ^ (dg p - 1) <= Z.pos p < 2 ^ dg p.
Proof.
  induction p as [p IH | p IH |]; cbn [digits2_pos]; [| | done]; rewrite Pos2Z.inj_succ, Z.pow_succ_r by lia;
    replace (Z.succ (dg p) - 1) with (Z.succ (dg p - 1)) by lia; rewrite Z.pow_succ_r by lia; lia.
Qed.

Lemma digits_mono p q : (p <= q)%positive → dg p <= dg q.
Proof.
  intros Hpq. pose proof (digits_bound p). pose proof (digits_bound q).
  destruct (Z.le_gt_cases (dg p) (dg q)) as [| Hlt]; [done | exfalso].
  assert (2 ^ dg q <= 2 ^ (dg p - 1)) by (apply Z.pow_le_mono_r; lia). lia.
Qed.

Lemma digits_small p : Z.pos p < 2 ^ 53 → dg p <= 53.
Proof.
  intros Hp. pose proof (digits_bound p) as [Hd _]. destruct (Z.le_gt_cases (dg p) 53) as [| Hlt]; [done | exfalso].
  assert (2 ^ 53 <= 2 ^ (dg p - 1)) by (apply Z.pow_le_mono_r; lia). lia.
Qed.

(** ** Rounding of what needs none *)

Definition canonical (c : positive) (e : Z) : Prop := fexp 53 1024 (dg c + e) = e ∧ e <= 1024 - 53.

Lemma shr_dbl n c : Nat.iter n shr_1 {| shr_m := Z.pos (dbl n c); shr_r := false; shr_s := false |}
  = {| shr_m := Z.pos c; shr_r := false; shr_s := false |}.
Proof. induction n as [| n IH]; [done |]. rewrite Nat.iter_succ_r. exact IH. Qed.

Lemma shr_fexp_dbl n c e : canonical c e →
  shr_fexp 53 1024 (Z.pos (dbl n c)) (e - Z.of_nat n) loc_Exact = ({| shr_m := Z.pos c; shr_r := false; shr_s := false |}, e).
Proof.
  intros [Hc _]. unfold shr_fexp. cbn [Zdigits2 shr_record_of_loc]. rewrite digits_dbl.
  replace (dg c + Z.of_nat n + (e - Z.of_nat n)) with (dg c + e) by lia. rewrite Hc.
  replace (e - (e - Z.of_nat n)) with (Z.of_nat n) by lia. destruct n as [| n]; cbn [Z.of_nat shr].
  - by rewrite Z.sub_0_r.
  - rewrite iter_pos_nat, SuccNat2Pos.id_succ, shr_dbl. f_equal. lia.
Qed.

Lemma round_aux_dbl n c e : canonical c e →
  binary_round_aux 53 1024 false (Z.pos (dbl n c)) (e - Z.of_nat n) loc_Exact = S754_finite false c e.
Proof.
  intros Hc. unfold binary_round_aux. rewrite (shr_fexp_dbl n c e Hc). cbn [loc_of_shr_record round_nearest_even shr_m].
  pose proof (shr_fexp_dbl 0 c e Hc) as H0. cbn [dbl Nat.iter Z.of_nat] in H0. rewrite Z.sub_0_r in H0.
  change (dbl 0 c) with c in H0. rewrite H0. cbn [shr_m]. destruct Hc as [_ He]. by rewrite (proj2 (Z.leb_le _ _)).
Qed.

(** A mantissa with trailing zeros. *)
Lemma round_long n c e : canonical c e → binary_round 53 1024 false (dbl n c) (e - Z.of_nat n) = S754_finite false c e.
Proof.
  intros Hc. unfold binary_round. rewrite digits_dbl.
  replace (dg c + Z.of_nat n + (e - Z.of_nat n)) with (dg c + e) by lia. rewrite (proj1 Hc).
  unfold shl_align. replace (e - (e - Z.of_nat n)) with (Z.of_nat n) by lia.
  destruct n; cbn [Z.of_nat]; by apply round_aux_dbl.
Qed.

(** A mantissa that is too short. *)
Lemma round_short n m e : canonical (dbl n m) e → binary_round 53 1024 false m (e + Z.of_nat n) = S754_finite false (dbl n m) e.
Proof.
  intros Hc. pose proof Hc as [He _]. rewrite digits_dbl in He. unfold binary_round.
  replace (dg m + (e + Z.of_nat n)) with (dg m + Z.of_nat n + e) by lia. rewrite He.
  unfold shl_align. replace (e - (e + Z.of_nat n)) with (- Z.of_nat n) by lia.
  pose proof (round_aux_dbl 0 (dbl n m) e Hc) as H0. rewrite Z.sub_0_r in H0. change (dbl 0 (dbl n m)) with (dbl n m) in H0.
  destruct n as [| n]; cbn [Z.of_nat Z.opp].
  - by rewrite Z.add_0_r.
  - by rewrite iter_xO, SuccNat2Pos.id_succ.
Qed.

(** ** Integers *)

Definition int_shift (p : positive) : nat := 53 - Pos.to_nat (digits2_pos p).
Definition int_m (p : positive) : positive := dbl (int_shift p) p.
Definition int_e (p : positive) : Z := dg p - 53.

Lemma int_canonical p : dg p <= 53 → canonical (int_m p) (int_e p).
Proof.
  intros Hp. unfold canonical, int_m, int_e. rewrite digits_dbl. unfold int_shift, fexp, emin. split; lia.
Qed.

Lemma f64_of_pos p : dg p <= 53 → f64_of_Z (Z.pos p) = S754_finite false (int_m p) (int_e p).
Proof.
  intros Hp. unfold f64_of_Z, binary_normalize.
  replace 0 with (int_e p + Z.of_nat (int_shift p)) by (unfold int_e, int_shift; lia).
  by apply round_short, int_canonical.
Qed.

Lemma f64_le_int a b : 0 <= a <= b → b < 2 ^ 53 → f64_lt (f64_of_Z b) (f64_of_Z a) = false ∧ f64_le (f64_of_Z a) (f64_of_Z b) = true.
Proof.
  intros [Ha Hab] Hb. assert (f64_lt (f64_of_Z b) (f64_of_Z a) = false) as Hlt.
  2: { split; [done |]. apply f64_not_lt_le; [apply f64_of_Z_num .. | done]. }
  destruct a as [| p | p]; [| | lia].
  { destruct b as [| q | q]; [done | | lia]. by rewrite f64_of_pos by (by apply digits_small). }
  destruct b as [| q | q]; [lia | | lia]. assert (p <= q)%positive as Hpq by lia.
  pose proof (digits_small q Hb) as Hq. pose proof (digits_mono p q Hpq).
  rewrite !f64_of_pos by lia. unfold f64_lt, SFltb, SFcompare, int_e.
  destruct (Z.compare_spec (dg q - 53) (dg p - 53)) as [He | He | He]; [| lia | done].
  change (Pos.compare_cont Eq (int_m q) (int_m p)) with (int_m q ?= int_m p)%positive.
  destruct (Pos.compare_spec (int_m q) (int_m p)) as [| Hlt |]; [done | exfalso | done].
  assert (int_shift q = int_shift p) as Hs by (unfold int_shift; lia).
  unfold int_m in Hlt. rewrite Hs in Hlt. apply Pos2Z.pos_lt_pos in Hlt. rewrite !dbl_Z in Hlt. nia.
Qed.

(** [n - 1] *)
Lemma f64_sub_one n : 1 <= n → n < 2 ^ 53 → f64_sub (f64_of_Z n) (f64_of_Z 1) = f64_of_Z (n - 1).
Proof.
  intros H1 Hn. destruct n as [| p | p]; [lia | | lia]. pose proof (digits_small p Hn) as Hp.
  rewrite (f64_of_pos p Hp). change (f64_of_Z 1) with (S754_finite false (dbl 52 1) (-52)).
  unfold f64_sub, SFsub. replace (Z.min (int_e p) (-52)) with (-52) by (unfold int_e; lia).
  assert (fst (shl_align (int_m p) (int_e p) (-52)) = dbl 52 p) as ->.
  { unfold shl_align, int_e. replace (-52 - (dg p - 53)) with (- (dg p - 1)) by lia.
    destruct (digits2_pos p) as [d | d |] eqn:Hd.
    - cbn [Z.sub Z.add Z.pos_sub Z.opp Pos.pred_double]. cbn [fst]. rewrite iter_xO. unfold int_m, int_shift. rewrite Hd, dbl_add. f_equal. lia.
    - replace (Z.neg (d~0) + 1) with (Z.neg (Pos.pred_double d)) by lia. change (- (Z.pos d~0 - 1)) with (Z.neg (Pos.pred_double d)).
      cbn [fst]. rewrite iter_xO. unfold int_m, int_shift. rewrite Hd, dbl_add. f_equal. lia.
    - cbn. unfold int_m, int_shift. by rewrite Hd. }
  change (fst (shl_align (dbl 52 1) (-52) (-52))) with (dbl 52 1). cbn [cond_Zopp].
  rewrite !dbl_Z. destruct (Pos.eq_dec p 1) as [-> | Hp1]; [done |].
  assert (∃ q, p = Pos.succ q) as [q ->] by (exists (Pos.pred p); lia).
  replace (Z.pos (Pos.succ q) * 2 ^ Z.of_nat 52 - 1 * 2 ^ Z.of_nat 52) with (Z.pos (dbl 52 q)) by (rewrite dbl_Z; lia).
  replace (Z.pos (Pos.succ q) - 1) with (Z.pos q) by lia.
  assert (dg q <= 53) as Hq by (pose proof (digits_mono q (Pos.succ q) ltac:(lia)); lia).
  rewrite (f64_of_pos q Hq). cbn [binary_normalize].
  replace (dbl 52 q) with (dbl (Pos.to_nat (digits2_pos q) - 1) (int_m q)) by (unfold int_m, int_shift; rewrite dbl_add; f_equal; lia).
  replace (-52) with (int_e q - Z.of_nat (Pos.to_nat (digits2_pos q) - 1)) by (unfold int_e; lia).
  by apply round_long, int_canonical.
Qed.

(** Adding zero. *)
Lemma f64_add_zero x : is_num x → f64_add x (S754_zero false) = x ∨ x = S754_zero true.
Proof. intros Hx. destruct x as [[] | | | [] m e]; auto. Qed.
