(* ===== verification/Text.v ===== *)
(** * Text, as Rust's [str]

    A [&str] is its UTF-8 bytes. The functions of the standard library that
    the gateway and the ZFS adapter use, on ASCII text: header values have
    passed [to_str], which accepts visible ASCII and tabs only, so [trim] and
    [split_whitespace] see no other white space. *)

From Stdlib Require Import ZArith Lia Strings.Byte.
From stdpp Require Import base list strings pretty.
From S2P Require Import Prelude.
Open Scope Z_scope.

(** A literal. *)
Abbreviation str := String.list_byte_of_string.

(** ** Pieces *)

(** [s.strip_prefix(p)] *)
Fixpoint strip_prefix (p s : bytes) : option bytes :=
  match p, s with
  | [], _ => Some s
  | x :: p, y :: s => if decide (x = y) then strip_prefix p s else None
  | _ :: _, [] => None
  end.

(** [s.split(c)]: at least one piece. *)
Fixpoint split (c : byte) (s : bytes) : list bytes :=
  match s with
  | [] => [[]]
  | b :: s =>
      if decide (b = c) then [] :: split c s
      else match split c s with p :: ps => (b :: p) :: ps | [] => [[b]] end
  end.

(** [s.split_once(c)] *)
Fixpoint split_once (c : byte) (s : bytes) : option (bytes * bytes) :=
  match s with
  | [] => None
  | b :: s =>
      if decide (b = c) then Some ([], s)
      else match split_once c s with Some (k, v) => Some (b :: k, v) | None => None end
  end.

(** [ps.join(sep)] *)
Fixpoint join (sep : bytes) (ps : list bytes) : bytes :=
  match ps with
  | [] => []
  | [p] => p
  | p :: ps => p ++ sep ++ join sep ps
  end.

(** ** White space *)

Definition is_white (b : byte) : bool :=
  let n := Byte.byte.unsigned b in ((9 <=? n) && (n <=? 13)) || (n =? 32).

Fixpoint trim_start_while (f : byte → bool) (s : bytes) : bytes :=
  match s with b :: s' => if f b then trim_start_while f s' else s | [] => [] end.
(** [s.trim_end_matches(f)] *)
Definition trim_end_while (f : byte → bool) (s : bytes) : bytes := reverse (trim_start_while f (reverse s)).

(** [s.trim()] *)
Definition trim (s : bytes) : bytes := trim_end_while is_white (trim_start_while is_white s).

(** [s.split_whitespace()]: the non-empty pieces between white space. *)
Fixpoint split_spaces (s : bytes) : list bytes :=
  match s with
  | [] => [[]]
  | b :: s =>
      if is_white b then [] :: split_spaces s
      else match split_spaces s with p :: ps => (b :: p) :: ps | [] => [[b]] end
  end.
Definition split_whitespace (s : bytes) : list bytes := filter (λ p, p ≠ []) (split_spaces s).

(** ** Letters and digits *)

Definition byte_of_Z (z : Z) : byte := default x00 (Byte.of_N (Z.to_N (z mod 256))).

(** [b.to_ascii_lowercase()] *)
Definition lower (b : byte) : byte :=
  let n := Byte.byte.unsigned b in if (65 <=? n) && (n <=? 90) then byte_of_Z (n + 32) else b.
Definition to_ascii_lowercase (s : bytes) : bytes := map lower s.
Definition eq_ignore_ascii_case (a b : bytes) : bool :=
  bool_decide (to_ascii_lowercase a = to_ascii_lowercase b).

(** [char::to_digit] for radix 10 and 16. *)
Definition digit (radix : Z) (b : byte) : option Z :=
  let n := Byte.byte.unsigned b in
  let v := if (48 <=? n) && (n <=? 57) then n - 48
           else if (97 <=? n) && (n <=? 122) then n - 87
           else if (65 <=? n) && (n <=? 90) then n - 55 else radix in
  if v <? radix then Some v else None.

Fixpoint digits (radix acc : Z) (s : bytes) : option Z :=
  match s with
  | [] => Some acc
  | b :: s => match digit radix b with Some d => digits radix (acc * radix + d) s | None => None end
  end.

(** [T::from_str_radix] of an integer type with values [lo..=hi]: a sign, then
    one digit at least; [-] only where the type has negative numbers. *)
Definition from_str_radix (lo hi radix : Z) (s : bytes) : option Z :=
  let bounded z := if (lo <=? z) && (z <=? hi) then Some z else None in
  match s with
  | [] => None
  | b :: r =>
      if decide (b = x2b) then
        if bool_decide (r = []) then None else digits radix 0 r ≫= bounded
      else if decide (b = x2d ∧ lo < 0) then
        if bool_decide (r = []) then None else digits radix 0 r ≫= λ z, bounded (- z)
      else digits radix 0 s ≫= bounded
  end.
Definition parse_u64 : bytes → option Z := from_str_radix 0 (2 ^ 64 - 1) 10.
Definition parse_i64 : bytes → option Z := from_str_radix (- 2 ^ 63) (2 ^ 63 - 1) 10.

(** [format!("{n}")] *)
Definition show (n : Z) : bytes := str (pretty n).

(** [format!("{n:0w$}")] *)
Definition pad0 (w : nat) (s : bytes) : bytes := replicate (w - length s) x30 ++ s.

(** [format!("{b:02x}")] *)
Definition hex_digit (v : Z) : byte := byte_of_Z (if v <? 10 then 48 + v else 87 + v).
Definition hex_byte (b : byte) : bytes :=
  let n := Byte.byte.unsigned b in [hex_digit (n / 16); hex_digit (n mod 16)].

Example trim_tabs : trim (str "  a b	 ") = str "a b".
Proof. vm_compute. reflexivity. Qed.
Example split_white_pieces : split_whitespace (str " a  b ") = [str "a"; str "b"].
Proof. vm_compute. reflexivity. Qed.
Example parse_plus : parse_u64 (str "+7") = Some 7 ∧ parse_u64 (str "-0") = None ∧ parse_i64 (str "-12") = Some (-12).
Proof. vm_compute. done. Qed.

(** ** Facts *)

Lemma strip_prefix_app p s : strip_prefix p (p ++ s) = Some s.
Proof. induction p; simpl; [done |]. by rewrite decide_True. Qed.

Lemma strip_prefix_Some p s r : strip_prefix p s = Some r → s = p ++ r.
Proof.
  revert s. induction p as [| x p IH]; intros s; simpl; [by intros [= ->] |].
  destruct s as [| y s]; [done |]. destruct (decide (x = y)) as [-> |]; [| done].
  intros Hs. by rewrite (IH s).
Qed.

Lemma split_not_nil c s : split c s ≠ [].
Proof. destruct s as [| b s]; simpl; [done |]. destruct (decide (b = c)); [done |]. by destruct (split c s). Qed.

Lemma split_free c s : c ∉ s → split c s = [s].
Proof.
  induction s as [| b s IH]; intros Hc; simpl; [done |].
  apply not_elem_of_cons in Hc as [Hb Hc]. rewrite decide_False by done. by rewrite IH.
Qed.

Lemma split_app c p s : c ∉ p → split c (p ++ c :: s) = p :: split c s.
Proof.
  induction p as [| b p IH]; intros Hc; simpl; [by rewrite decide_True |].
  apply not_elem_of_cons in Hc as [Hb Hc]. rewrite decide_False by done. by rewrite IH.
Qed.

Lemma elem_of_join_sep b sep ps : b ∈ join sep ps → b ∈ sep ∨ ∃ p, p ∈ ps ∧ b ∈ p.
Proof.
  induction ps as [| p ps IH]; [by intros ?%not_elem_of_nil |]. destruct ps as [| q ps].
  { intros Hb. right. exists p. split; [left | done]. }
  change (join sep (p :: q :: ps)) with (p ++ sep ++ join sep (q :: ps)). rewrite !elem_of_app.
  intros [Hb | [Hb | Hb]]; [right; exists p; split; [left | done] | by left |].
  destruct (IH Hb) as [? | (p' & Hp & Hb')]; [by left | right; exists p'; split; [by right | done]].
Qed.

Lemma split_join c ps : ps ≠ [] → Forall (λ p, c ∉ p) ps → split c (join [c] ps) = ps.
Proof.
  induction ps as [| p ps IH]; [done |]. intros _ [Hp Hps]%Forall_cons.
  destruct ps as [| q ps]; [by apply split_free |].
  change (join [c] (p :: q :: ps)) with (p ++ c :: join [c] (q :: ps)).
  rewrite split_app by done. by rewrite IH.
Qed.

Lemma join_inj c ps qs :
  ps ≠ [] → qs ≠ [] → Forall (λ p, c ∉ p) ps → Forall (λ p, c ∉ p) qs →
  join [c] ps = join [c] qs → ps = qs.
Proof. intros Hp Hq Fp Fq H. rewrite <-(split_join c ps), <-(split_join c qs) by done. by rewrite H. Qed.

Lemma elem_of_split_piece c s p b : p ∈ split c s → b ∈ p → b ∈ s ∧ b ≠ c.
Proof.
  revert p. induction s as [| a s IH]; intros p; simpl.
  { intros ->%list_elem_of_singleton. by intros ?%not_elem_of_nil. }
  destruct (decide (a = c)) as [-> | Hac].
  - intros [-> | Hp]%elem_of_cons; [by intros ?%not_elem_of_nil |]. intros Hb.
    destruct (IH p Hp Hb). split; [by right | done].
  - destruct (split c s) as [| q qs] eqn:Hq; [by apply split_not_nil in Hq |].
    intros [-> | Hp]%elem_of_cons.
    + intros [-> | Hb]%elem_of_cons; [split; [left | done] |]. destruct (IH q) as [? ?]; [left | done |].
      split; [by right | done].
    + intros Hb. destruct (IH p) as [? ?]; [by right | done |]. split; [by right | done].
Qed.

Lemma split_once_app c k v : c ∉ k → split_once c (k ++ c :: v) = Some (k, v).
Proof.
  induction k as [| b k IH]; intros Hc; simpl; [by rewrite decide_True |].
  apply not_elem_of_cons in Hc as [Hb Hc]. rewrite decide_False by done. by rewrite IH.
Qed.

Lemma split_once_Some c s k v : split_once c s = Some (k, v) → s = k ++ c :: v ∧ c ∉ k.
Proof.
  revert k. induction s as [| b s IH]; intros k; simpl; [done |].
  destruct (decide (b = c)) as [-> | Hb]; [intros [= <- <-]; split; [done | apply not_elem_of_nil] |].
  destruct (split_once c s) as [[k' v'] |]; [| done]. intros [= <- ->]. destruct (IH k') as [-> Hk]; [done |].
  split; [done |]. by apply not_elem_of_cons.
Qed.

Lemma split_once_None c s : split_once c s = None → c ∉ s.
Proof.
  induction s as [| b s IH]; simpl; [intros _; apply not_elem_of_nil |].
  destruct (decide (b = c)); [done |]. destruct (split_once c s) as [[] |]; [done |]. intros _.
  apply not_elem_of_cons. split; [done | by apply IH].
Qed.

(** Two texts cut at their first [c]. *)
Lemma cut_inj (c : byte) (a a' s s' : bytes) : c ∉ a → c ∉ a' → a ++ c :: s = a' ++ c :: s' → a = a' ∧ s = s'.
Proof.
  intros Ha Ha' H. pose proof (split_once_app c a s Ha) as H1. rewrite H, split_once_app in H1 by done.
  by injection H1 as -> ->.
Qed.

(** *** White space *)

Definition no_white (s : bytes) : Prop := Forall (λ b, is_white b = false) s.

Lemma trim_start_id f s : (∀ b, head s = Some b → f b = false) → trim_start_while f s = s.
Proof. destruct s as [| b s]; simpl; [done |]. intros H. by rewrite (H b). Qed.

(** Nothing to trim: neither end is white space. *)
Lemma trim_id s :
  (∀ b, head s = Some b → is_white b = false) → (∀ b, last s = Some b → is_white b = false) → trim s = s.
Proof.
  intros Hh Hl. unfold trim, trim_end_while. rewrite (trim_start_id _ s Hh), trim_start_id.
  - apply reverse_involutive.
  - intros b. rewrite head_reverse. apply Hl.
Qed.

Lemma trim_space s : trim (x20 :: s) = trim s.
Proof. done. Qed.

Lemma no_white_trim s : no_white s → trim s = s.
Proof.
  intros Hs. unfold no_white in Hs. rewrite Forall_forall in Hs. apply trim_id; intros b Hb; apply Hs.
  - destruct s; [done |]. injection Hb as ->. left.
  - apply last_Some in Hb as [s' ->]. apply elem_of_app. right. left.
Qed.

(** *** Hexadecimal digits *)

(** Not a separator of any text below. *)
Definition hexadecimal (c : byte) : Prop :=
  is_white c = false ∧ c ≠ x2c ∧ c ≠ x0a ∧ c ≠ x3d ∧ c ≠ x2f.

Lemma hex_digit_ok v : 0 <= v < 16 → hexadecimal (hex_digit v).
Proof.
  intros Hv. assert (v ∈ (Z.of_nat <$> seq 0 16)) as Hin.
  { apply list_elem_of_fmap. exists (Z.to_nat v). split; [lia |]. apply elem_of_seq. lia. }
  clear Hv. unfold hexadecimal. revert v Hin. apply Forall_forall. cbv [seq fmap list_fmap Z.of_nat Pos.of_succ_nat].
  repeat constructor; vm_compute; done.
Qed.

(** ** UTF-8 *)

Definition cont (b : byte) : bool := let n := Byte.byte.unsigned b in (128 <=? n) && (n <=? 191).
(** May [c] follow [b] in a sequence of three, of four bytes? *)
Definition second3 (b c : Z) : bool :=
  ((b =? 0xE0) && (0xA0 <=? c) && (c <=? 0xBF)) || ((0xE1 <=? b) && (b <=? 0xEC) && (0x80 <=? c) && (c <=? 0xBF))
  || ((b =? 0xED) && (0x80 <=? c) && (c <=? 0x9F)) || ((0xEE <=? b) && (b <=? 0xEF) && (0x80 <=? c) && (c <=? 0xBF)).
Definition second4 (b c : Z) : bool :=
  ((b =? 0xF0) && (0x90 <=? c) && (c <=? 0xBF)) || ((0xF1 <=? b) && (b <=? 0xF3) && (0x80 <=? c) && (c <=? 0xBF))
  || ((b =? 0xF4) && (0x80 <=? c) && (c <=? 0x8F)).

(** U+FFFD *)
Definition REPLACEMENT : bytes := [xef; xbf; xbd].

(** [String::from_utf8_lossy]: a sequence that cannot be continued becomes one
    replacement character. *)
Fixpoint from_utf8_lossy (s : bytes) : bytes :=
  match s with
  | [] => []
  | b :: s1 =>
      let n := Byte.byte.unsigned b in
      if n <? 128 then b :: from_utf8_lossy s1
      else if (0xC2 <=? n) && (n <=? 0xDF) then
        match s1 with
        | c :: s2 => if cont c then b :: c :: from_utf8_lossy s2 else REPLACEMENT ++ from_utf8_lossy s1
        | [] => REPLACEMENT
        end
      else if (0xE0 <=? n) && (n <=? 0xEF) then
        match s1 with
        | c :: s2 =>
            if second3 n (Byte.byte.unsigned c) then
              match s2 with
              | d :: s3 => if cont d then b :: c :: d :: from_utf8_lossy s3 else REPLACEMENT ++ from_utf8_lossy s2
              | [] => REPLACEMENT
              end
            else REPLACEMENT ++ from_utf8_lossy s1
        | [] => REPLACEMENT
        end
      else if (0xF0 <=? n) && (n <=? 0xF4) then
        match s1 with
        | c :: s2 =>
            if second4 n (Byte.byte.unsigned c) then
              match s2 with
              | d :: s3 =>
                  if cont d then
                    match s3 with
                    | e :: s4 => if cont e then b :: c :: d :: e :: from_utf8_lossy s4 else REPLACEMENT ++ from_utf8_lossy s3
                    | [] => REPLACEMENT
                    end
                  else REPLACEMENT ++ from_utf8_lossy s2
              | [] => REPLACEMENT
              end
            else REPLACEMENT ++ from_utf8_lossy s1
        | [] => REPLACEMENT
        end
      else REPLACEMENT ++ from_utf8_lossy s1
  end.

(** Valid UTF-8 is left as it is. *)
Definition utf8 (s : bytes) : Prop := from_utf8_lossy s = s.
#[global] Instance utf8_dec s : Decision (utf8 s).
Proof. unfold utf8. apply _. Defined.

Example lossy_bad : from_utf8_lossy [x41; xe2; x82; x42; xff; xc3; xa9] = [x41] ++ REPLACEMENT ++ [x42] ++ REPLACEMENT ++ [xc3; xa9].
Proof. vm_compute. reflexivity. Qed.

Lemma utf8_cons b s : Byte.byte.unsigned b < 128 → utf8 s → utf8 (b :: s).
Proof. intros Hb Hs. unfold utf8. cbn [from_utf8_lossy]. rewrite (proj2 (Z.ltb_lt _ _) Hb). by rewrite Hs. Qed.
Lemma ascii_utf8 s : Forall (λ b, Byte.byte.unsigned b < 128) s → utf8 s.
Proof. induction 1; [done | by apply utf8_cons]. Qed.

(** ** Lines and substrings *)

(** [s.lines()]: a final newline ends the last line, and a carriage return
    before a newline belongs to it. *)
Definition strip_cr (s : bytes) : bytes := match last s with Some x0d => take (length s - 1) s | _ => s end.
Definition lines (s : bytes) : list bytes :=
  match reverse (split x0a s) with
  | [] => []
  | rest :: ls => map strip_cr (reverse ls) ++ (if bool_decide (rest = []) then [] else [rest])
  end.

(** [s.find(needle)], as the text before it. *)
Fixpoint find_cut (needle s : bytes) : option bytes :=
  if bool_decide (needle `prefix_of` s) then Some []
  else match s with
       | [] => None
       | b :: s => match find_cut needle s with Some pre => Some (b :: pre) | None => None end
       end.
Definition contains (needle s : bytes) : bool := bool_decide (is_Some (find_cut needle s)).

Definition ends_with (b : byte) (s : bytes) : bool := bool_decide (last s = Some b).
(** [s.trim_end_matches(c)] *)
Definition trim_end_matches (cs : list byte) (s : bytes) : bytes := trim_end_while (λ b, bool_decide (b ∈ cs)) s.

Example lines_pieces : lines [x61; x0d; x0a; x0a; x62; x0a] = [[x61]; []; [x62]] ∧ lines [x61] = [[x61]] ∧ lines [] = [].
Proof. vm_compute. done. Qed.

(** Lines, each with its newline. *)
Definition text_of (ls : list bytes) : bytes := concat (map (λ l, l ++ [x0a]) ls).

Definition line_ok (l : bytes) : Prop := (x0a ∉ l) ∧ last l ≠ Some x0d.

Lemma split_text ls : Forall line_ok ls → split x0a (text_of ls) = ls ++ [[]].
Proof.
  induction 1 as [| l ls [Hl _] _ IH]; [done |]. unfold text_of in *. cbn [map concat].
  rewrite <-app_assoc. cbn [app]. by rewrite split_app, IH.
Qed.

Lemma lines_text ls : Forall line_ok ls → lines (text_of ls) = ls.
Proof.
  intros H. unfold lines. rewrite split_text, reverse_app by done. change (reverse [[]] : list bytes) with ([[]] : list bytes). cbn [app].
  rewrite bool_decide_eq_true_2, reverse_involutive, app_nil_r by done.
  induction H as [| l ls [_ Hl] _ IH]; [done |]. cbn [map]. rewrite IH. f_equal. unfold strip_cr.
  destruct (last l) as [b |]; [| done]. by destruct b.
Qed.

Example find_usage : find_cut (str "usage") (str "no such usage:") = Some (str "no such ").
Proof. vm_compute. reflexivity. Qed.

(** ** Decimal numbers, printed and read *)

Definition decimal (b : byte) : Prop := 48 <= Byte.byte.unsigned b <= 57.

Lemma decimal_char v : (v < 10)%N →
  let b := Ascii.byte_of_ascii (pretty_N_char v) in digit 10 b = Some (Z.of_N v) ∧ decimal b.
Proof.
  intros Hv. assert (v = 0 ∨ v = 1 ∨ v = 2 ∨ v = 3 ∨ v = 4 ∨ v = 5 ∨ v = 6 ∨ v = 7 ∨ v = 8 ∨ v = 9)%N as Hc by lia.
  clear Hv. destruct_or! Hc; subst v; (split; [reflexivity |]); unfold decimal; vm_compute; split; congruence.
Qed.

Lemma str_cons a s : str (String a s) = Ascii.byte_of_ascii a :: str s.
Proof. done. Qed.

Lemma digits_pretty x s :
  digits 10 0 (str (pretty_N_go x s)) = digits 10 (Z.of_N x) (str s) ∧
  (Forall decimal (str s) → Forall decimal (str (pretty_N_go x s))) ∧
  (0 < x → str (pretty_N_go x s) ≠ [])%N.
Proof.
  revert s. induction (N.lt_wf_0 x) as [x _ IH]. intros s. destruct (decide (x = 0)%N) as [-> | Hx]; [done |].
  assert (0 < x)%N as Hpos by lia. rewrite pretty_N_go_step by done.
  destruct (IH (x / 10)%N ltac:(apply N.div_lt; lia) (String (pretty_N_char (x mod 10)) s)) as (Hd & Hf & Hn).
  destruct (decimal_char (x mod 10)) as [Hc1 Hc2]; [by apply N.mod_lt |]. split_and!.
  - rewrite Hd, str_cons. cbn [digits]. rewrite Hc1. f_equal. rewrite N2Z.inj_div, N2Z.inj_mod.
    change (Z.of_N 10) with 10. pose proof (Z.div_mod (Z.of_N x) 10 ltac:(lia)). lia.
  - intros Hs. apply Hf. rewrite str_cons. by constructor.
  - intros _. destruct (decide (x / 10 = 0)%N) as [-> | Hq]; [done |]. apply Hn. by apply N.neq_0_lt_0.
Qed.

Lemma show_N n : show (Z.of_N n) = if decide (n = 0)%N then [x30] else str (pretty_N_go n "").
Proof. destruct n; [done |]. unfold show, pretty, pretty_Z, pretty, pretty_N. by rewrite !decide_False. Qed.

Lemma show_digits n : 0 <= n → digits 10 0 (show n) = Some n ∧ Forall decimal (show n) ∧ show n ≠ [].
Proof.
  intros Hn. rewrite <-(Z2N.id n Hn). generalize (Z.to_N n). clear. intros n. rewrite show_N. case_decide as Hz.
  - subst n. split_and!; [done | | done]. repeat constructor; vm_compute; congruence.
  - destruct (digits_pretty n "") as (Hd & Hf & Hne). split_and!; [done | by apply Hf | apply Hne; lia].
Qed.

Lemma parse_u64_show n : 0 <= n < 2 ^ 64 → parse_u64 (show n) = Some n.
Proof.
  intros Hn. destruct (show_digits n) as (Hd & Hf & Hne); [lia |]. unfold parse_u64, from_str_radix.
  destruct (show n) as [| b r]; [done |]. apply Forall_cons in Hf as [Hb _].
  rewrite decide_False by (intros ->; vm_compute in Hb; destruct Hb as [Hb _]; by apply Hb).
  rewrite decide_False by (intros [_ ?]; lia). rewrite Hd. cbn [mbind option_bind].
  by rewrite (proj2 (Z.leb_le _ _)), (proj2 (Z.leb_le _ _)) by lia.
Qed.

Lemma show_inj m n : 0 <= m → 0 <= n → show m = show n → m = n.
Proof. intros Hm Hn H. destruct (show_digits m Hm) as [H1 _], (show_digits n Hn) as [H2 _]. rewrite H in H1. congruence. Qed.

Lemma decimal_plain b : decimal b → is_white b = false ∧ b ≠ x0a ∧ b ≠ x0d ∧ b ≠ x2d.
Proof.
  unfold decimal, is_white. intros Hb. split_and!; try (intros ->; vm_compute in Hb; destruct Hb as [Hb _]; by apply Hb).
  destruct (Z.leb_spec 9 (Byte.byte.unsigned b)), (Z.leb_spec (Byte.byte.unsigned b) 13), (Z.eqb_spec (Byte.byte.unsigned b) 32);
    cbn; try done; lia.
Qed.
