(* ===== verification/Domain.v ===== *)
(** * Domain types and ports (crates/ozd-domain/src/lib.rs)

    Identifiers, statuses, errors and reports of the domain, the ports
    [ShardEngine] (one disk) and [PlacementPolicy] (which disks a key goes to)
    as type classes, and the specification of a listing page that every
    implementation of [list] has to meet. *)

From Stdlib Require Import ZArith Lia.
From stdpp Require Import base list gmap strings pretty sorting.
From S2P Require Import Prelude.

(** ** Identifiers, statuses, capacities *)

(** [BlockKey(Vec<u8>)]: the key's bytes. *)
Abbreviation BlockKey := bytes.

(** [ShardId(u16)]: an index of the pool's shard vector. *)
Abbreviation ShardId := nat (only parsing).

Inductive ShardStatus := Online | Suspect | Faulted.
#[global] Instance ShardStatus_eq_dec : EqDecision ShardStatus.
Proof. solve_decision. Defined.

Record Capacity := { total_bytes : Z; free_bytes : Z }.
Definition Capacity_default : Capacity := {| total_bytes := 0; free_bytes := 0 |}.
#[global] Instance Capacity_eq_dec : EqDecision Capacity.
Proof. solve_decision. Defined.

(** ** Errors *)

Inductive DomainError :=
| NotFound
| ShardUnavailable (s : ShardId)
| IntegrityViolation (m : string)
| QuorumNotReached (ok want : nat)
| Timeout (m : string)
| DiskFull (m : string)
| Corrupt (m : string)
| Config (m : string)
| Shutdown
| Io (m : string).
#[global] Instance DomainError_eq_dec : EqDecision DomainError.
Proof. solve_decision. Defined.

Abbreviation DomainResult := (result DomainError).

(** [Display], from the [#[error(...)]] attributes. *)
Definition error_to_string (e : DomainError) : string :=
  match e with
  | NotFound => "block not found"
  | ShardUnavailable s => "shard ShardId(" +:+ pretty s +:+ ") unavailable"
  | IntegrityViolation m => "integrity violation: " +:+ m
  | QuorumNotReached ok want =>
      "write quorum not reached: " +:+ pretty ok +:+ " < " +:+ pretty want
  | Timeout m => "timeout: " +:+ m
  | DiskFull m => "disk full: " +:+ m
  | Corrupt m => "corrupt record: " +:+ m
  | Config m => "config: " +:+ m
  | Shutdown => "shutdown: writes rejected"
  | Io m => "io: " +:+ m
  end.

(** ** Reports *)

Record GcReport := {
  victim_seg : option Z;
  live_moved : nat;
  reclaimed_bytes : Z;
  orphans_removed : nat;
  orphan_bytes : Z;
}.
Definition GcReport_default : GcReport :=
  {| victim_seg := None; live_moved := 0; reclaimed_bytes := 0;
     orphans_removed := 0; orphan_bytes := 0 |}.

Record ScrubStep := {
  ss_checked : Z;
  ss_bytes : Z;
  ss_corrupt : list BlockKey;
  ss_last_key : option BlockKey;
  ss_done : bool;
}.

Record StructureReport := {
  segments_referenced : nat;
  segments_missing : list Z;
  keys_at_risk : Z;
  orphan_segments : list Z;
}.

Definition is_healthy (r : StructureReport) : bool :=
  match segments_missing r with [] => true | _ => false end.

(** ** Listing pages *)

Section ListPage.
Context (here : BlockKey → Z → Prop).

(** The keys a listing may return: present, with the prefix, after the
    cursor. *)
Definition list_match (prefix : bytes) (after : option BlockKey) (k : BlockKey) (sz : Z) : Prop :=
  here k sz ∧ prefix `prefix_of` k ∧
  match after with Some a => bytes_lt a k | None => True end.

(** The page is in strictly increasing key order, sound, at most [limit]
    long, and complete: a key it leaves out comes after a full page. *)
Record list_page (prefix : bytes) (after : option BlockKey) (limit : nat)
    (out : list (BlockKey * Z)) : Prop := {
  lp_sorted : StronglySorted bytes_lt out.*1;
  lp_sound : ∀ k sz, (k, sz) ∈ out → list_match prefix after k sz;
  lp_length : length out ≤ limit;
  lp_complete : ∀ k sz, list_match prefix after k sz →
    k ∈ out.*1 ∨ (length out = limit ∧ ∀ k', k' ∈ out.*1 → bytes_lt k' k);
}.
End ListPage.

(** ** Ports *)

(** [trait ShardEngine]: one disk. Reads do not change the engine; the other
    operations run in the state-and-error monad. The operations that only the
    cache calls are in [CacheEngine], those of the daemon and the admin server
    in the engine's files. *)
Class ShardEngine (E : Type) := {
  se_put : BlockKey → bytes → M E DomainError unit;
  se_get : E → BlockKey → DomainResult bytes;
  se_has : E → BlockKey → DomainResult bool;
  se_delete : BlockKey → M E DomainError unit;
  se_list : E → bytes → option BlockKey → nat → DomainResult (list (BlockKey * Z));
  se_usage : E → DomainResult Capacity;
  se_flush : M E DomainError unit;
  se_scrub_step : E → option BlockKey → nat → DomainResult ScrubStep;
  se_stat : E → BlockKey → DomainResult Z;
  se_save_cursor : string → option BlockKey → M E DomainError unit;
  se_load_cursor : E → string → DomainResult (option BlockKey);
  se_put_meta : BlockKey → bytes → option Z → M E DomainError unit;
  se_stat_obj : E → BlockKey → DomainResult (Z * option Z);
  se_set_obj_logical : BlockKey → Z → M E DomainError bool;
}.

(** [s'] reads as [s], and as [r] at [k]. *)
Definition reads_same `{ShardEngine E} (s s' : E) : Prop := ∀ k, se_get s' k = se_get s k.
Definition reads_update `{ShardEngine E} (s : E) (k : BlockKey) (r : DomainResult bytes) (s' : E) : Prop :=
  ∀ k', se_get s' k' = if decide (k = k') then r else se_get s k'.

(** What any disk promises, also one that rots: [se_ok] is its invariant,
    [se_ready] that it can take one more record, [se_fits] the sizes it can
    store. A put or a delete that fails leaves every key as it was, and a body
    that can be read is a record that is there; the record may be there and
    its body unreadable. *)
Class DiskSpec (E : Type) `{ShardEngine E} := {
  se_ok : E → Prop;
  se_ready : E → Prop;
  se_fits : BlockKey → bytes → Prop;
  se_ready_ok : ∀ s, se_ready s → se_ok s;
  se_put_spec : ∀ s k d, se_ready s → se_fits k d →
    wp (se_put k d) (λ r s', se_ok s' ∧
      match r with Ok _ => reads_update s k (Ok d) s' | Err _ => reads_same s s' end) s;
  se_put_meta_spec : ∀ s k d o, se_ready s → se_fits k d → (0 <= o < 2 ^ 64)%Z →
    wp (se_put_meta k d (Some o)) (λ r s', se_ok s' ∧
      match r with Ok _ => reads_update s k (Ok d) s' | Err _ => reads_same s s' end) s;
  se_delete_spec : ∀ s k, se_ok s →
    wp (se_delete k) (λ r s', se_ok s' ∧ (se_ready s → se_ready s') ∧
      match r with Ok _ => reads_update s k (Err NotFound) s' | Err _ => reads_same s s' end) s;
  se_held_spec : ∀ s k d, se_ok s → se_get s k = Ok d → se_has s k = Ok true;
}.

(** What a disk promises on which every record that is there can be read. *)
Class ShardEngineSpec (E : Type) `{ShardEngine E} := {
  se_disk :: DiskSpec E;
  se_shown : E → BlockKey → Z → Prop;
  se_get_spec : ∀ s k, se_ok s → (∃ d, se_get s k = Ok d) ∨ se_get s k = Err NotFound;
  se_has_spec : ∀ s k, se_ok s →
    se_has s k = Ok (match se_get s k with Ok _ => true | Err _ => false end);
  se_stat_spec : ∀ s k, se_ok s →
    se_stat s k = match se_get s k with Ok d => Ok (blen d) | Err _ => Err NotFound end;
  se_list_spec : ∀ s prefix after limit, se_ok s →
    match after with Some a => bytes_le prefix (a ++ [Byte.x00]) | None => True end →
    ∃ out, se_list s prefix after limit = Ok out ∧ list_page (se_shown s) prefix after limit out;
  se_shown_spec : ∀ s k, se_ok s → (∃ sz, se_shown s k sz) ↔ ∃ d, se_get s k = Ok d;
}.

(** A disk that takes or refuses any write in any state it can come to. *)
Class SturdyDisk (E : Type) `{DiskSpec E} : Prop := {
  sturdy_ready : ∀ s, se_ok s → se_ready s;
  sturdy_fits : ∀ k d, se_fits k d;
}.

(** What the walks over a shard rely on: a flush and a cursor touch no body,
    and a cursor that was saved is the one that is loaded. *)
Class WalkEngineSpec (E : Type) `{DiskSpec E} : Prop := {
  se_flush_spec : ∀ s, se_ok s → wp se_flush (λ _ s', se_ok s' ∧ reads_same s s' ∧
    ∀ n, se_load_cursor s' n = se_load_cursor s n) s;
  se_save_cursor_spec : ∀ s n pos, se_ok s → wp (se_save_cursor n pos) (λ r s', se_ok s' ∧ reads_same s s' ∧
    match r with
    | Ok _ => se_load_cursor s' n = Ok pos ∧ ∀ n', n' ≠ n → se_load_cursor s' n' = se_load_cursor s n'
    | Err _ => ∀ n', se_load_cursor s' n' = se_load_cursor s n'
    end) s;
}.

(** The operations of [trait ShardEngine] that the read cache needs on top:
    [evict_oldest_segment] and [data_bytes]. *)
Class CacheEngine (E : Type) := {
  se_evict : M E DomainError (Z * nat);
  se_data_bytes : E → DomainResult Z;
}.

(** Eviction forgets keys and changes no body; the sizes are a [u64]. *)
Class CacheEngineSpec (E : Type) `{DiskSpec E, !CacheEngine E} : Prop := {
  se_evict_spec : ∀ s, se_ok s → wp se_evict (λ _ s', se_ok s' ∧
    ∀ k, se_get s' k = se_get s k ∨ se_get s' k = Err NotFound) s;
  se_evict_size : ∀ s, wp se_evict (λ r _, ∀ freed n, r = Ok (freed, n) → (0 <= freed)%Z) s;
}.

(** [trait BlockStore]: what the gateway and the bulk loader see. Reads may
    count, measure and cache, so they run in the monad as well. *)
Class BlockStore (B : Type) := {
  bs_put : BlockKey → bytes → M B DomainError unit;
  bs_get : BlockKey → M B DomainError bytes;
  bs_stat : BlockKey → M B DomainError Z;
  bs_has : BlockKey → M B DomainError bool;
  bs_delete : BlockKey → M B DomainError unit;
  bs_list : bytes → option BlockKey → nat → M B DomainError (list (BlockKey * Z));
}.

(** [s'] holds what [s] holds. *)
Definition vals_same {B} (val : B → BlockKey → option bytes) (s s' : B) : Prop := ∀ k, val s' k = val s k.
(** [s'] holds what [s] holds, but for [k] perhaps [o]. *)
Definition vals_maybe {B} (val : B → BlockKey → option bytes) (s : B) (k : BlockKey) (o : option bytes) (s' : B)
    : Prop :=
  ∀ k', val s' k' = val s k' ∨ (k' = k ∧ val s' k' = o).
Definition vals_update {B} (val : B → BlockKey → option bytes) (s : B) (k : BlockKey) (o : option bytes) (s' : B)
    : Prop :=
  ∀ k', val s' k' = if decide (k = k') then o else val s k'.

Lemma vals_same_maybe {B} (val : B → BlockKey → option bytes) s k o s' : vals_same val s s' → vals_maybe val s k o s'.
Proof. intros Hs x. left. apply Hs. Qed.
Lemma vals_update_maybe {B} (val : B → BlockKey → option bytes) s k o s' :
  vals_update val s k o s' → vals_maybe val s k o s'.
Proof. intros Hs x. specialize (Hs x). case_decide; [right; by subst | by left]. Qed.

(** What a client relies on. [bs_val] is what the store holds; [bs_ready]
    that it can take one more operation, [bs_takes] and [bs_drops] that it
    can take this body and drop this key. A read answers what the store
    holds or fails; a write that fails may have been made. *)
Class BlockStoreSpec (B : Type) `{BlockStore B} := {
  bs_ok : B → Prop;
  bs_ready : B → Prop;
  bs_val : B → BlockKey → option bytes;
  bs_takes : B → BlockKey → bytes → Prop;
  bs_drops : B → BlockKey → Prop;
  bs_ready_ok : ∀ s, bs_ready s → bs_ok s;
  bs_get_spec : ∀ s k, bs_ready s → wp (bs_get k) (λ r s', bs_ok s' ∧ vals_same bs_val s s' ∧
    match r with Ok v => bs_val s k = Some v | Err NotFound => bs_val s k = None | Err _ => True end) s;
  bs_stat_spec : ∀ s k, bs_ready s → wp (bs_stat k) (λ r s', bs_ok s' ∧ vals_same bs_val s s' ∧
    match r with Ok n => ∃ v, bs_val s k = Some v ∧ n = blen v | Err _ => True end) s;
  bs_has_spec : ∀ s k, bs_ready s → wp (bs_has k) (λ r s', bs_ok s' ∧ vals_same bs_val s s' ∧
    match r with Ok b => b = bool_decide (is_Some (bs_val s k)) | Err _ => True end) s;
  bs_put_spec : ∀ s k d, bs_ready s → bs_takes s k d → wp (bs_put k d) (λ r s', bs_ok s' ∧
    match r with Ok _ => vals_update bs_val s k (Some d) s' | Err _ => vals_maybe bs_val s k (Some d) s' end) s;
  bs_delete_spec : ∀ s k, bs_ready s → bs_drops s k → wp (bs_delete k) (λ r s', bs_ok s' ∧
    match r with Ok _ => vals_update bs_val s k None s' | Err _ => vals_maybe bs_val s k None s' end) s;
  bs_list_spec : ∀ s prefix after limit, bs_ready s →
    match after with Some a => bytes_le prefix a | None => True end →
    wp (bs_list prefix after limit) (λ r s', bs_ok s' ∧ vals_same bs_val s s' ∧
      match r with
      | Ok out => list_page (λ k sz, ∃ v, bs_val s k = Some v ∧ sz = blen v) prefix after limit out
      | Err _ => True
      end) s;
}.

(** [trait PlacementPolicy] *)
Class PlacementPolicy := {
  pp_select : BlockKey → list (ShardId * Capacity * ShardStatus) → nat → list ShardId;
}.

(** Different shards of the topology, none of them [Faulted]; fewer targets
    are a prefix of more. [pp_eligible] are the shards that the policy picks
    from: as many as are asked for, while there are as many. *)
Class PlacementSpec `{PlacementPolicy} := {
  pp_eligible : ShardId * Capacity * ShardStatus → bool;
  pp_nodup : ∀ k t n, NoDup (map (λ e, e.1.1) t) → NoDup (pp_select k t n);
  pp_alive : ∀ k t n id, id ∈ pp_select k t n → ∃ cap st, (id, cap, st) ∈ t ∧ st ≠ Faulted;
  pp_count : ∀ k t n, length (pp_select k t n) = n `min` length (filter pp_eligible t);
  pp_prefix : ∀ k t n m, n ≤ m → pp_select k t n = take n (pp_select k t m);
}.

Lemma pp_length `{PlacementSpec} k t n : length (pp_select k t n) ≤ n.
Proof. rewrite pp_count. lia. Qed.
