(* ===== verification/Paging.v ===== *)
(** * Walking a listing page by page

    A client that asks for the page after the last key it has seen, and so on
    until a page is not full, sees every key under the prefix once, in order.
    The bulk export and the clients of the gateway walk so. *)

From Stdlib Require Import ZArith Lia Sorting.Sorted.
From stdpp Require Import base list sorting.
From S2P Require Import Prelude Domain.

(** Only the keys after the cursor matter. *)
Lemma list_page_after (h h' : BlockKey → Z → Prop) prefix after limit out :
  (∀ k sz, match after with Some a => bytes_lt a k | None => True end → h k sz ↔ h' k sz) →
  list_page h prefix after limit out → list_page h' prefix after limit out.
Proof.
  intros H [Hs Hd Hl Hc]. split; [done | | done |].
  - intros k sz Hin. destruct (Hd k sz Hin) as (Hh & ? & ?). split_and!; [by apply H | done | done].
  - intros k sz (Hh & ? & ?). apply (Hc k sz). split_and!; [by apply H | done | done].
Qed.

Lemma list_page_ext (h h' : BlockKey → Z → Prop) prefix after limit out :
  (∀ k sz, h k sz ↔ h' k sz) → list_page h prefix after limit out → list_page h' prefix after limit out.
Proof. intros H. by apply list_page_after. Qed.

(** The front of a page is the page of that limit. *)
Lemma list_page_take (h : BlockKey → Z → Prop) prefix after n m out :
  (n ≤ m)%nat → list_page h prefix after m out → list_page h prefix after n (take n out).
Proof.
  intros Hnm [Hs Hd Hl Hc]. split.
  - by apply sorted_take.
  - intros k sz Hin. apply Hd. by eapply elem_of_take_in.
  - rewrite length_take. lia.
  - intros k sz Hk. destruct (Hc k sz Hk) as [Hin | [Hlen Hlt]].
    + by apply sorted_take_complete.
    + right. split; [apply length_take_le; lia |]. intros k' Hk'. apply Hlt.
      apply list_elem_of_fmap in Hk' as (e & -> & He). apply list_elem_of_fmap_2. by eapply elem_of_take_in.
Qed.

(** The keys of [content], with the sizes of their bodies. *)
Definition here (content : BlockKey → option bytes) (k : BlockKey) (sz : Z) : Prop :=
  ∃ v, content k = Some v ∧ sz = blen v.
Definition held (content : BlockKey → option bytes) (k : BlockKey) : Prop := is_Some (content k).

Lemma held_here content k : held content k ↔ ∃ sz, here content k sz.
Proof.
  split; [intros [v Hv]; by exists (blen v), v | intros (sz & v & Hv & _); by exists v].
Qed.

Section Paging.
Context (prefix : bytes) (present : BlockKey → Prop).

Definition due (k : BlockKey) : Prop := prefix `prefix_of` k ∧ present k.

(** The [keys] have been seen, and all that comes later is after the cursor. *)
Record seen (after : option BlockKey) (keys : list BlockKey) : Prop := {
  sn_sorted : StronglySorted bytes_lt keys;
  sn_due : Forall due keys;
  sn_all : ∀ k, due k → k ∈ keys ∨ match after with Some a => bytes_lt a k | None => True end;
  sn_cursor : match after with Some a => prefix `prefix_of` a ∧ ∀ k, k ∈ keys → bytes_le k a | None => keys = [] end;
}.

(** All keys, in order. *)
Record complete (keys : list BlockKey) : Prop := {
  cm_sorted : StronglySorted bytes_lt keys;
  cm_due : ∀ k, k ∈ keys ↔ due k;
}.

Lemma seen_start : seen None [].
Proof. split; [constructor | constructor | by right | done]. Qed.

Lemma seen_cursor after keys : seen after keys → match after with Some a => bytes_le prefix a | None => True end.
Proof. intros [_ _ _ Hc]. destruct after as [a |]; [| done]. by apply prefix_bytes_le, Hc. Qed.

(** One page more. *)
Lemma seen_page (h : BlockKey → Z → Prop) after keys limit page :
  (∀ k, present k ↔ ∃ sz, h k sz) → seen after keys → list_page h prefix after limit page →
  Forall due page.*1 ∧ StronglySorted bytes_lt (keys ++ page.*1) ∧
  ((length page < limit)%nat → complete (keys ++ page.*1)) ∧
  (∀ a, last page.*1 = Some a → seen (Some a) (keys ++ page.*1)).
Proof.
  intros Hh [Hs Hd Ha Hc] [Ps Pd Pl Pc].
  assert (Forall due page.*1) as Hdue.
  { apply Forall_forall. intros k ([k' sz] & -> & Hin)%list_elem_of_fmap. destruct (Pd _ _ Hin) as (Hhk & Hp & _).
    split; [done |]. apply Hh. by exists sz. }
  assert (Forall due (keys ++ page.*1)) as Hd' by (by apply Forall_app).
  assert (∀ x y, x ∈ keys → y ∈ page.*1 → bytes_lt x y) as Hlt.
  { intros x y Hx ([k' sz] & -> & Hin)%list_elem_of_fmap. destruct (Pd _ _ Hin) as (_ & _ & Haft).
    destruct after as [a |]; [| subst keys; by apply not_elem_of_nil in Hx].
    eapply bytes_le_lt_trans; [by apply (proj2 Hc) | done]. }
  assert (StronglySorted bytes_lt (keys ++ page.*1)) as Hsort by (by apply StronglySorted_app_2).
  assert (∀ k, due k → k ∈ keys ++ page.*1 ∨ (length page = limit ∧ ∀ k', k' ∈ page.*1 → bytes_lt k' k)) as Hall.
  { intros k Hk. destruct (Ha k Hk) as [? | Haft]; [left; apply elem_of_app; by left |].
    destruct Hk as [Hp [sz Hsz]%Hh]. destruct (Pc k sz) as [Hin | ?].
    - split_and!; [done | done | by destruct after].
    - left. apply elem_of_app. by right.
    - by right. }
  split_and!; [done | done | |].
  - intros Hlen. split; [done |]. intros k. split; [rewrite Forall_forall in Hd'; apply Hd' |].
    intros Hk. destruct (Hall k Hk) as [? | [? _]]; [done | lia].
  - intros a Hlast. split; [done | done | |].
    + intros k Hk. destruct (Hall k Hk) as [? | [_ Hk']]; [by left | right]. apply Hk'. by apply last_Some_elem_of.
    + apply last_Some in Hlast as (l & Hl). split.
      * rewrite Forall_forall in Hdue. apply Hdue. rewrite Hl. apply elem_of_app. right. by left.
      * intros k [Hk | Hk]%elem_of_app.
        -- apply bytes_lt_le, Hlt; [done |]. rewrite Hl. apply elem_of_app. right. by left.
        -- rewrite Hl in Hk, Ps. apply elem_of_app in Hk as [Hk | ->%list_elem_of_singleton]; [| done].
           apply bytes_lt_le. eapply StronglySorted_app_1_elem_of; [exact Ps | done | by left].
Qed.

Lemma seen_bounded (all : list BlockKey) after keys : (∀ k, due k → k ∈ all) → seen after keys → (length keys <= length all)%nat.
Proof.
  intros Hfin [Hs Hd _ _]. apply submseteq_length, NoDup_submseteq.
  - by apply sorted_keys_NoDup.
  - intros k Hk. rewrite Forall_forall in Hd. by apply Hfin, Hd.
Qed.
End Paging.
