(* ===== verification/Table.v ===== *)
(** * Ordered tables

    The engine's index is a redb database: a third-party ordered key-value
    store. [RedbTable] is the interface the engine uses and [RedbTableSpec]
    its documented behaviour; the engine is verified against the two.
    [MapTable] implements the interface over [gmap] and is the instance the
    executable examples run. The standard library's [BTreeMap] is the same
    structure, used directly. *)

From Stdlib Require Import ZArith Lia.
From stdpp Require Import base list gmap sorting.
From S2P Require Import Prelude.

(** ** Iteration of a finite map in key order *)

Section Iter.
Context {V : Type}.

(** Order of entries by key. *)
Definition entry_le (x y : bytes * V) : Prop := bytes_le x.1 y.1.
#[global] Instance entry_le_dec x y : Decision (entry_le x y).
Proof. unfold entry_le. apply _. Defined.
#[global] Instance entry_le_trans : Transitive entry_le.
Proof. intros x y z. unfold entry_le. apply transitivity. Qed.
#[global] Instance entry_le_total : Total entry_le.
Proof.
  intros x y. unfold entry_le. destruct (decide (bytes_le x.1 y.1)) as [|H]; [by left |].
  right. apply bytes_nle_lt in H. by apply bytes_lt_le.
Qed.

(** [map.iter()] of a [BTreeMap]. *)
Definition map_iter (m : gmap bytes V) : list (bytes * V) :=
  merge_sort entry_le (map_to_list m).

Lemma elem_of_map_iter m k v : (k, v) ∈ map_iter m ↔ m !! k = Some v.
Proof.
  unfold map_iter. rewrite (merge_sort_Permutation entry_le). apply elem_of_map_to_list.
Qed.

Lemma sorted_le_lt (l : list (bytes * V)) :
  NoDup l.*1 → StronglySorted entry_le l → StronglySorted bytes_lt l.*1.
Proof.
  induction l as [| [k v] l IH]; intros Hnd Hs; simpl in *; [constructor |].
  apply NoDup_cons in Hnd as [Hk Hnd]. apply StronglySorted_inv in Hs as [Hs Hall].
  constructor; [by apply IH |].
  rewrite Forall_forall in Hall. apply Forall_forall. intros k' Hk'.
  apply list_elem_of_fmap in Hk' as ([k2 v2] & -> & Hin); simpl.
  specialize (Hall _ Hin). unfold entry_le in Hall; simpl in Hall.
  apply bytes_le_lteq in Hall as [? | ->]; [done |].
  destruct Hk. apply list_elem_of_fmap. by exists (k2, v2).
Qed.

Lemma map_iter_sorted m : StronglySorted bytes_lt (map_iter m).*1.
Proof.
  apply sorted_le_lt.
  - unfold map_iter. rewrite (merge_sort_Permutation entry_le). apply NoDup_fst_map_to_list.
  - apply (StronglySorted_merge_sort entry_le).
Qed.

Lemma sorted_fst_filter (P : bytes * V → Prop) `{∀ x, Decision (P x)} l :
  StronglySorted bytes_lt l.*1 → StronglySorted bytes_lt (filter P l).*1.
Proof.
  induction l as [| [k v] l IH]; intros Hs; [constructor |].
  apply StronglySorted_inv in Hs as [Hs Hall]. rewrite filter_cons. simpl in *.
  destruct (decide (P (k, v))); [| by apply IH].
  simpl. constructor; [by apply IH |].
  rewrite Forall_forall in Hall. apply Forall_forall. intros k' Hk'. apply Hall.
  apply list_elem_of_fmap in Hk' as (x & -> & Hx).
  apply list_elem_of_filter in Hx as [_ Hx]. by apply list_elem_of_fmap_2.
Qed.
End Iter.

(** ** The interface of a redb table *)

Class RedbTable (T : Type → Type) := {
  tempty : ∀ {V}, T V;
  tget : ∀ {V}, T V → bytes → option V;
  tinsert : ∀ {V}, bytes → V → T V → T V;
  tremove : ∀ {V}, bytes → T V → T V;
  (** [table.range(start..)]; [table.iter()] is the range from the empty key *)
  trange : ∀ {V}, T V → bytes → list (bytes * V);
}.

Class RedbTableSpec (T : Type → Type) `{!RedbTable T} : Prop := {
  tget_tempty : ∀ V k, tget (tempty : T V) k = None;
  tget_tinsert : ∀ V k k' (v : V) (t : T V),
    tget (tinsert k v t) k' = if decide (k = k') then Some v else tget t k';
  tget_tremove : ∀ V k k' (t : T V),
    tget (tremove k t) k' = if decide (k = k') then None else tget t k';
  trange_sorted : ∀ V (t : T V) s, StronglySorted bytes_lt (trange t s).*1;
  elem_of_trange : ∀ V (t : T V) s k v,
    (k, v) ∈ trange t s ↔ tget t k = Some v ∧ bytes_le s k;
}.

Definition titer {T} `{RedbTable T} {V} (t : T V) : list (bytes * V) := trange t [].

(** ** The instance over finite maps *)

Definition MapTable (V : Type) : Type := gmap bytes V.

#[global] Instance map_table : RedbTable MapTable := {|
  tempty V := (∅ : gmap bytes V);
  tget V t k := (t : gmap bytes V) !! k;
  tinsert V k v t := <[k := v]> (t : gmap bytes V);
  tremove V k t := delete k (t : gmap bytes V);
  trange V t s := filter (λ e, bytes_le s e.1) (map_iter t);
|}.

#[global] Instance map_table_spec : RedbTableSpec MapTable.
Proof.
  split; simpl; unfold MapTable.
  - intros V k. apply lookup_empty.
  - intros V k k' v t. apply lookup_insert.
  - intros V k k' t. apply lookup_delete.
  - intros V t s. apply sorted_fst_filter, map_iter_sorted.
  - intros V t s k v. rewrite list_elem_of_filter, elem_of_map_iter. simpl. tauto.
Qed.

Section TableFacts.
Context {T} `{RedbTableSpec T} {V : Type}.
Implicit Types (t : T V) (k : bytes) (v : V).

Lemma tget_tinsert_eq k v t : tget (tinsert k v t) k = Some v.
Proof. rewrite tget_tinsert. by rewrite decide_True. Qed.
Lemma tget_tinsert_ne k k' v t : k ≠ k' → tget (tinsert k v t) k' = tget t k'.
Proof. intros. rewrite tget_tinsert. by rewrite decide_False. Qed.
Lemma tget_tremove_eq k t : tget (tremove k t) k = None.
Proof. rewrite tget_tremove. by rewrite decide_True. Qed.
Lemma tget_tremove_ne k k' t : k ≠ k' → tget (tremove k t) k' = tget t k'.
Proof. intros. rewrite tget_tremove. by rewrite decide_False. Qed.
Lemma elem_of_titer k v t : (k, v) ∈ titer t ↔ tget t k = Some v.
Proof.
  unfold titer. rewrite elem_of_trange. split; [by intros [] |]. auto using bytes_nil_le.
Qed.
End TableFacts.

Create Rewrite HintDb ozd_table.
#[export] Hint Rewrite @tget_tempty @tget_tinsert_eq @tget_tremove_eq : ozd_table.
#[export] Hint Rewrite @tget_tinsert_ne @tget_tremove_ne using done : ozd_table.
