(* ===== verification/Piece.v ===== *)
(** * The self-described envelope of an erasure-coded piece
    (crates/ozd-domain/src/piece.rs)

    A piece is a 16-byte header, "OZEC" | ver | k | m | piece_idx |
    logical_len (u64 LE), followed by the stripe bytes. The engine's recovery
    and the pool's reads recognise a piece by parsing this header. *)

From Stdlib Require Import ZArith Lia Strings.Byte.
From stdpp Require Import base list.
From S2P Require Import Prelude.
Open Scope Z_scope.

Definition EC_MAGIC : bytes := [x4f; x5a; x45; x43]. (* b"OZEC" *)
Definition EC_VER : Z := 1.
Definition EC_HEADER_LEN : nat := 16.

Record PieceHeader := {
  ph_k : Z;
  ph_m : Z;
  ph_piece_idx : Z;
  ph_logical_len : Z;
}.
#[global] Instance PieceHeader_eq_dec : EqDecision PieceHeader.
Proof. solve_decision. Defined.

Definition encode_piece_header (h : PieceHeader) : bytes :=
  EC_MAGIC ++ le_split 1 EC_VER ++ le_split 1 (ph_k h) ++ le_split 1 (ph_m h) ++
  le_split 1 (ph_piece_idx h) ++ le_split 8 (ph_logical_len h).

(** [h.k + h.m] is an addition of two [u8]: it wraps in the release profile
    the daemon is built with. *)
Definition parse_piece_header (body : bytes) : option PieceHeader :=
  if bool_decide (length body < EC_HEADER_LEN)%nat
     || negb (bool_decide (slice 0 4 body = EC_MAGIC))
     || negb (u8_at 4 body =? EC_VER)
  then None
  else
    let h := {| ph_k := u8_at 5 body;
                ph_m := u8_at 6 body;
                ph_piece_idx := u8_at 7 body;
                ph_logical_len := le_at 8 8 body |} in
    if (ph_k h =? 0) || (ph_m h =? 0) || (wrap 8 (ph_k h + ph_m h) <=? ph_piece_idx h)
    then None
    else
      let stripe := blen body - Z.of_nat EC_HEADER_LEN in
      let want := div_ceil (ph_logical_len h) (ph_k h) in
      if stripe =? want then Some h else None.

(** ** Header fields of an encoding *)

(** A header whose fields fit their types. *)
Definition header_fits (h : PieceHeader) : Prop :=
  0 <= ph_k h < 256 ∧ 0 <= ph_m h < 256 ∧ 0 <= ph_piece_idx h < 256 ∧
  0 <= ph_logical_len h < 2 ^ 64.

(** The checks of [parse_piece_header] on the fields and the stripe. *)
Definition piece_ok (h : PieceHeader) (stripe : bytes) : Prop :=
  ph_k h ≠ 0 ∧ ph_m h ≠ 0 ∧ ph_piece_idx h < wrap 8 (ph_k h + ph_m h) ∧
  blen stripe = div_ceil (ph_logical_len h) (ph_k h).

Lemma length_encode_piece_header h : length (encode_piece_header h) = EC_HEADER_LEN.
Proof. unfold encode_piece_header. by rewrite !length_app, !length_le_split. Qed.

Lemma le_split_1 z : le_split 1 z = [Byte.byte.of_Z z].
Proof. reflexivity. Qed.

Lemma unsigned_of_u8 z : 0 <= z < 256 → Byte.byte.unsigned (Byte.byte.of_Z z) = z.
Proof. intros. rewrite Byte.byte.unsigned_of_Z. by apply Z.mod_small. Qed.

Lemma encode_fields h stripe :
  let b := encode_piece_header h ++ stripe in
  header_fits h →
  slice 0 4 b = EC_MAGIC ∧ u8_at 4 b = EC_VER ∧ u8_at 5 b = ph_k h ∧
  u8_at 6 b = ph_m h ∧ u8_at 7 b = ph_piece_idx h ∧ le_at 8 8 b = ph_logical_len h.
Proof.
  intros b (Hk & Hm & Hi & Hl). unfold b, encode_piece_header.
  rewrite !le_split_1. unfold u8_at. cbn [app nth EC_MAGIC].
  rewrite !unsigned_of_u8 by (unfold EC_VER; lia).
  repeat split. unfold le_at, slice. cbn [drop].
  rewrite drop_0, take_app_length' by (by rewrite length_le_split).
  apply le_round. lia.
Qed.

Lemma parse_encode h stripe :
  header_fits h → piece_ok h stripe →
  parse_piece_header (encode_piece_header h ++ stripe) = Some h.
Proof.
  intros Hf (Hk & Hm & Hi & Hs).
  destruct (encode_fields h stripe Hf) as (E1 & E2 & E3 & E4 & E5 & E6).
  unfold parse_piece_header. rewrite E1, E2, E3, E4, E5, E6.
  rewrite bool_decide_eq_false_2 by (rewrite length_app, length_encode_piece_header; lia).
  rewrite bool_decide_eq_true_2 by done.
  cbn [orb negb Z.eqb Pos.eqb EC_VER ph_k ph_m ph_piece_idx ph_logical_len].
  rewrite (proj2 (Z.eqb_neq _ _) Hk), (proj2 (Z.eqb_neq _ _) Hm).
  rewrite (proj2 (Z.leb_gt _ _)) by done. cbn [orb].
  rewrite blen_app. unfold blen at 1. rewrite length_encode_piece_header.
  rewrite (proj2 (Z.eqb_eq _ _)) by lia. by destruct h.
Qed.

(** A body of at least 16 bytes is cut into the header's fields. *)
Lemma header_cut (b : bytes) :
  (EC_HEADER_LEN <= length b)%nat →
  b = slice 0 4 b ++ le_split 1 (u8_at 4 b) ++ le_split 1 (u8_at 5 b) ++
      le_split 1 (u8_at 6 b) ++ le_split 1 (u8_at 7 b) ++
      le_split 8 (le_at 8 8 b) ++ drop 16 b.
Proof.
  unfold EC_HEADER_LEN. intros Hlen.
  do 16 (destruct b as [| ? b]; [simpl in Hlen; lia |]).
  rewrite !le_split_1. unfold u8_at, le_at, slice. simpl drop. simpl take. simpl nth.
  rewrite !Byte.byte.of_Z_unsigned. rewrite (split_le_combine' _ 8) by done. reflexivity.
Qed.

Lemma parse_sound body h :
  parse_piece_header body = Some h →
  header_fits h ∧ ∃ stripe, body = encode_piece_header h ++ stripe ∧ piece_ok h stripe.
Proof.
  unfold parse_piece_header. intros Hp.
  destruct (bool_decide_reflect (length body < EC_HEADER_LEN)%nat) as [|Hlen]; [done |].
  destruct (bool_decide_reflect (slice 0 4 body = EC_MAGIC)) as [Hmag|]; [|done].
  destruct (Z.eqb_spec (u8_at 4 body) EC_VER) as [Hver|]; [|done]. simpl in Hp.
  destruct (Z.eqb_spec (u8_at 5 body) 0) as [|Hk]; [done |].
  destruct (Z.eqb_spec (u8_at 6 body) 0) as [|Hm]; [done |]. simpl in Hp.
  destruct (Z.leb_spec (wrap 8 (u8_at 5 body + u8_at 6 body)) (u8_at 7 body)) as [|Hi]; [done |].
  match type of Hp with context [if ?c =? ?d then _ else _] =>
    destruct (Z.eqb_spec c d) as [Hs|]; [| done] end.
  injection Hp as <-. split.
  { pose proof (u8_at_bound 5 body). pose proof (u8_at_bound 6 body).
    pose proof (u8_at_bound 7 body). pose proof (le_at_bound 8 8 body).
    repeat split; simpl; lia. }
  exists (drop 16 body). assert (EC_HEADER_LEN <= length body)%nat as Hl by lia. split.
  - rewrite (header_cut body Hl) at 1. rewrite Hmag, Hver.
    unfold encode_piece_header. by rewrite <-!app_assoc.
  - repeat split; simpl; try done. rewrite <-Hs. unfold blen. rewrite length_drop.
    unfold EC_HEADER_LEN in *. lia.
Qed.

(** The piece envelope round-trips: for header fields that fit their
    types, parsing an encoded header followed by a stripe gives the header
    back exactly when the parser's checks hold, and a body that parses at all
    is an encoded header followed by its stripe. *)
Theorem piece_envelope_exact (body : bytes) (h : PieceHeader) :
  parse_piece_header body = Some h ↔
  header_fits h ∧ ∃ stripe, body = encode_piece_header h ++ stripe ∧ piece_ok h stripe.
Proof.
  split; [apply parse_sound |]. intros (Hf & stripe & -> & Hok). by apply parse_encode.
Qed.
