(* ===== verification/Segment.v ===== *)
(** * Pack segments (crates/ozd-engine/src/segment.rs)

    Append-only segment files, the writer with rotation and failover, the
    recovery scan of the tail, the scan of a sealed segment and the verified
    read of one record.

    The two segment directories are [Primary] and [Failover]; the file
    [seg.<id>.dat] of a directory is the entry [(dir, id)] of [w_seg], and
    [seg.meta] the entry [dir] of [w_meta].  Every system call that changes a
    directory or a file takes the next entry of [w_faults]: [None] (and the
    empty list) is success, and a fault makes the call fail after the first
    [f_partial] bytes of a write have reached the file.  A read fails when the
    file is missing or too short.  [posix_fadvise] has no effect on contents and is
    left out.  CRC-32 is the third-party [crc32fast]: a parameter. *)

From Stdlib Require Import ZArith Lia Strings.Byte.
From stdpp Require Import base list gmap.
From S2P Require Import Prelude.
Open Scope Z_scope.

(** ** The file system the engine sees *)

Inductive SegDir := Primary | Failover.
#[global] Instance SegDir_eq_dec : EqDecision SegDir.
Proof. solve_decision. Defined.
#[global] Instance SegDir_countable : Countable SegDir :=
  inj_countable' (λ d, if d is Primary then true else false)
    (λ b : bool, if b then Primary else Failover) ltac:(by intros []).

(** [std::io::ErrorKind]; [StorageFull] is the raw error ENOSPC. *)
Inductive IoError := ENotFound | EUnexpectedEof | EInvalidData | EStorageFull | EOther.
#[global] Instance IoError_eq_dec : EqDecision IoError.
Proof. solve_decision. Defined.

Record fault := { f_err : IoError; f_partial : nat }.

Record world := {
  w_seg : gmap (SegDir * Z) bytes;
  w_meta : gmap SegDir bytes;
  w_faults : list (option fault);
}.

(** ** Record format *)

Definition MAGIC : bytes := [x4f; x5a; x42; x32]. (* b"OZB2" *)
Definition HEADER_LEN : nat := 20.
Definition FLAG_ZSTD : Z := 1.

Record RecordAddr := {
  seg_id : Z;
  offset : Z;
  stored_len : Z;
  key_len : Z;
}.
#[global] Instance RecordAddr_eq_dec : EqDecision RecordAddr.
Proof. solve_decision. Defined.

Definition encode_header (key_len flags stored_len logical_len crc : Z) : bytes :=
  MAGIC ++ le_split 2 key_len ++ le_split 2 flags ++ le_split 4 stored_len ++
  le_split 4 logical_len ++ le_split 4 crc.

Record ParsedHeader := {
  h_key_len : nat;
  h_flags : Z;
  h_stored_len : nat;
  h_logical_len : Z;
  h_crc : Z;
}.

Definition parse_header (h : bytes) : option ParsedHeader :=
  if bool_decide (length h < HEADER_LEN)%nat || negb (bool_decide (slice 0 4 h = MAGIC))
  then None
  else Some {| h_key_len := Z.to_nat (le_at 4 2 h);
               h_flags := le_at 6 2 h;
               h_stored_len := Z.to_nat (le_at 8 4 h);
               h_logical_len := le_at 12 4 h;
               h_crc := le_at 16 4 h |}.

(** A record as the scans report it. *)
Record RecoveredRecord := {
  r_key : bytes;
  r_addr : RecordAddr;
  r_crc : Z;
  r_flags : Z;
  r_logical_len : Z;
  r_stored : bytes;
}.

(** [meta]: active_seg_id u32 | flush_offset u64 (LE) *)
Definition encode_meta (seg flush : Z) : bytes := le_split 4 seg ++ le_split 8 flush.

(** ** System calls *)

Section Syscalls.
Definition set_seg (w : world) (m : gmap (SegDir * Z) bytes) : world :=
  {| w_seg := m; w_meta := w_meta w; w_faults := w_faults w |}.
Definition set_meta (w : world) (m : gmap SegDir bytes) : world :=
  {| w_seg := w_seg w; w_meta := m; w_faults := w_faults w |}.

(** Take the outcome of the next system call. *)
Definition next_fault (w : world) : option fault * world :=
  match w_faults w with
  | [] => (None, w)
  | f :: fs => (f, {| w_seg := w_seg w; w_meta := w_meta w; w_faults := fs |})
  end.

(** A call that either succeeds with the effect [eff] or fails without one. *)
Definition syscall (eff : world → world) : M world IoError unit := λ w,
  match next_fault w with
  | (None, w) => (Ok tt, eff w)
  | (Some f, w) => (Err (f_err f), w)
  end.

(** [file.write_all(data)] on an O_APPEND handle: a fault leaves a prefix.
    The handle of a removed file still accepts writes that no name reaches. *)
Definition write_all (file : SegDir * Z) (data : bytes) : M world IoError unit := λ w,
  match next_fault w with
  | (None, w) => (Ok tt, set_seg w (alter (λ b, b ++ data) file (w_seg w)))
  | (Some f, w) =>
      (Err (f_err f), set_seg w (alter (λ b, b ++ take (f_partial f) data) file (w_seg w)))
  end.

Definition sync_data : M world IoError unit := syscall id.
Definition create_dir_all (_ : SegDir) : M world IoError unit := syscall id.

(** [OpenOptions::new().create(true).read(true).append(true).open(path)] *)
Definition open_active (path : SegDir * Z) : M world IoError unit :=
  syscall (λ w, set_seg w (<[path := default [] (w_seg w !! path)]> (w_seg w))).

(** [fs::write(tmp)] then [fs::rename(tmp, meta)]: only the rename shows. *)
Definition write_meta (dir : SegDir) (seg flush : Z) : M world IoError unit :=
  (do! syscall id;
   syscall (λ w, set_meta w (<[dir := encode_meta seg flush]> (w_meta w))))%rust.

Definition read_meta (w : world) (dir : SegDir) : option (Z * Z) :=
  match w_meta w !! dir with
  | Some buf =>
      if (length buf =? 12)%nat then Some (le_at 0 4 buf, le_at 4 8 buf) else None
  | None => None
  end.

(** [fs::remove_file] *)
Definition remove_file (path : SegDir * Z) : M world IoError unit := λ w,
  match next_fault w with
  | (None, w) =>
      match w_seg w !! path with
      | Some _ => (Ok tt, set_seg w (delete path (w_seg w)))
      | None => (Err ENotFound, w)
      end
  | (Some f, w) => (Err (f_err f), w)
  end.
End Syscalls.

(** ** The writer *)

Record SegmentWriter := {
  failover : bool;             (* [failover: Option<PathBuf>] is [Some] *)
  active_dir : SegDir;
  wr_seg_id : Z;
  file : SegDir * Z;           (* the open handle *)
  len : Z;
  flush_offset : Z;
  unflushed_items : Z;
  max_size : Z;
  fsync_items : Z;
  failed_over : bool;
  drop_cache : bool;
}.

Record segst := { sg_world : world; sg_wr : SegmentWriter }.

Section Lift.
(** A system call from the writer's state. *)
Definition sys {A} (c : M world IoError A) : M segst IoError A := λ s,
  let '(r, w) := c (sg_world s) in (r, {| sg_world := w; sg_wr := sg_wr s |}).

Definition upd_wr (f : SegmentWriter → SegmentWriter) : M segst IoError unit :=
  mmodify (λ s, {| sg_world := sg_world s; sg_wr := f (sg_wr s) |}).

Definition wr_flushed (w : SegmentWriter) : SegmentWriter :=
  {| failover := failover w; active_dir := active_dir w; wr_seg_id := wr_seg_id w;
     file := file w; len := len w; flush_offset := len w; unflushed_items := 0;
     max_size := max_size w; fsync_items := fsync_items w;
     failed_over := failed_over w; drop_cache := drop_cache w |}.

Definition wr_appended (n : Z) (w : SegmentWriter) : SegmentWriter :=
  {| failover := failover w; active_dir := active_dir w; wr_seg_id := wr_seg_id w;
     file := file w; len := len w + n; flush_offset := flush_offset w;
     unflushed_items := wrap 32 (unflushed_items w + 1);
     max_size := max_size w; fsync_items := fsync_items w;
     failed_over := failed_over w; drop_cache := drop_cache w |}.

(** [install]: the new active segment. *)
Definition install (dir : SegDir) (id : Z) (fo : bool) (w : SegmentWriter) : SegmentWriter :=
  {| failover := failover w; active_dir := dir; wr_seg_id := id; file := (dir, id);
     len := 0; flush_offset := 0; unflushed_items := 0;
     max_size := max_size w; fsync_items := fsync_items w;
     failed_over := fo; drop_cache := drop_cache w |}.
End Lift.

Section Segment.
(** [crc32fast::Hasher] over the concatenation of what it is fed. *)
Context (crc32 : bytes → Z).

Definition flush : M segst IoError unit :=
  (let! s := mget in
   let w := sg_wr s in
   if (flush_offset w =? len w) && (unflushed_items w =? 0) then mret tt
   else
     do! sys sync_data;
     do! upd_wr wr_flushed;
     sys (write_meta (active_dir w) (wr_seg_id w) (len w)))%rust.

Definition failover_rotate : M segst IoError unit :=
  (let! s := mget in
   let w := sg_wr s in
   if failover w then
     match! sys sync_data with! _ =>
     let next := wrap 32 (wr_seg_id w + 1) in
     do! sys (create_dir_all Failover);
     do! sys (open_active (Failover, next));
     do! sys (write_meta Failover next 0);
     upd_wr (install Failover next true)
   else mthrow EOther)%rust.

Definition rotate_primary (next : Z) : M segst IoError unit :=
  (do! sys (create_dir_all Primary);
   do! sys (open_active (Primary, next));
   sys (write_meta Primary next 0))%rust.

Definition rotate : M segst IoError unit :=
  (let! s := mget in
   match! flush with! r =>
   do! match r with
       | Ok _ => mret tt
       | Err e =>
           if failover (sg_wr s) then match! sys sync_data with! _ => mret tt
           else mthrow e
       end;
   let! s := mget in
   let next := wrap 32 (wr_seg_id (sg_wr s) + 1) in
   match! rotate_primary next with! p =>
   match p with
   | Ok _ => upd_wr (install Primary next false)
   | Err e => if failover (sg_wr s) then failover_rotate else mthrow e
   end)%rust.

Definition write_record (key stored : bytes) (logical_len flags : Z)
    : M segst IoError (RecordAddr * Z) :=
  (let crc := crc32 (key ++ stored) in
   let header := encode_header (wrap 16 (blen key)) flags (wrap 32 (blen stored))
                   logical_len crc in
   let! s := mget in
   let w := sg_wr s in
   let off := len w in
   do! sys (write_all (file w) header);
   do! sys (write_all (file w) key);
   do! sys (write_all (file w) stored);
   do! upd_wr (wr_appended (Z.of_nat HEADER_LEN + blen key + blen stored));
   let! s := mget in
   do! (if fsync_items (sg_wr s) <=? unflushed_items (sg_wr s) then flush else mret tt);
   mret ({| seg_id := wr_seg_id w; offset := off;
            stored_len := wrap 32 (blen stored); key_len := wrap 16 (blen key) |}, crc))%rust.

Definition append_with_flags (key stored : bytes) (logical_len flags : Z)
    : M segst IoError (RecordAddr * Z) :=
  (let! s := mget in
   do! (if max_size (sg_wr s) <=? len (sg_wr s) then rotate else mret tt);
   match! write_record key stored logical_len flags with! r =>
   let! s := mget in
   match r with
   | Ok v => mret v
   | Err e =>
       if failover (sg_wr s) && negb (failed_over (sg_wr s)) then
         do! failover_rotate;
         write_record key stored logical_len flags
       else mthrow e
   end)%rust.

(** Uncompressed append. *)
Definition append (key data : bytes) : M segst IoError (RecordAddr * Z) :=
  append_with_flags key data (wrap 32 (blen data)) 0.

(** ** Scans *)

(** One record at the head of [buf]: header, key and body complete and the
    CRC over key and body matches. *)
Definition next_record (buf : bytes) : option (ParsedHeader * bytes * bytes) :=
  if bool_decide (length buf < HEADER_LEN)%nat then None
  else
    match parse_header (take HEADER_LEN buf) with
    | None => None
    | Some h =>
        let total := (HEADER_LEN + h_key_len h + h_stored_len h)%nat in
        if bool_decide (length buf < total)%nat then None
        else
          let key := slice HEADER_LEN (h_key_len h) buf in
          let data := slice (HEADER_LEN + h_key_len h) (h_stored_len h) buf in
          if crc32 (key ++ data) =? h_crc h then Some (h, key, data) else None
    end.

Definition record_total (h : ParsedHeader) : nat :=
  (HEADER_LEN + h_key_len h + h_stored_len h)%nat.

Definition recovered (seg pos : Z) (h : ParsedHeader) (key data : bytes) : RecoveredRecord :=
  {| r_key := key;
     r_addr := {| seg_id := seg; offset := pos;
                  stored_len := wrap 32 (Z.of_nat (h_stored_len h));
                  key_len := wrap 16 (Z.of_nat (h_key_len h)) |};
     r_crc := h_crc h; r_flags := h_flags h; r_logical_len := h_logical_len h;
     r_stored := data |}.

(** The record loop of [open] and of [scan_segment]: the records from the
    head of [buf], and the position after the last one. A record takes at
    least [HEADER_LEN] bytes, so [length buf] rounds are enough. *)
Fixpoint scan_loop (fuel : nat) (seg pos : Z) (buf : bytes) : list RecoveredRecord * Z :=
  match fuel with
  | O => ([], pos)
  | S fuel =>
      match next_record buf with
      | None => ([], pos)
      | Some (h, key, data) =>
          let '(l, e) := scan_loop fuel seg (pos + Z.of_nat (record_total h))
                           (drop (record_total h) buf) in
          (recovered seg pos h key data :: l, e)
      end
  end.

Definition scan (seg pos : Z) (buf : bytes) : list RecoveredRecord * Z :=
  scan_loop (length buf) seg pos buf.

(** [scan_segment(dir, seg_id, f)]: the callback on every record in order,
    with the variables it captures in [acc];
    an error of the callback ends the scan. *)
Definition scan_segment {St E B : Type} (files : gmap (SegDir * Z) bytes) (dir : SegDir) (seg : Z)
    (io : IoError → E) (f : B → RecoveredRecord → M St E B) (acc : B) : M St E B :=
  match files !! (dir, seg) with
  | None => mthrow (io ENotFound)
  | Some b => mfold f acc (scan seg 0 b).1
  end.

(** [read_record(dir, addr, expect_crc)] *)
Definition read_record (files : gmap (SegDir * Z) bytes) (dir : SegDir) (addr : RecordAddr)
    (expect_crc : Z) : result IoError bytes :=
  match files !! (dir, seg_id addr) with
  | None => Err ENotFound
  | Some b =>
      let total := Z.of_nat HEADER_LEN + key_len addr + stored_len addr in
      if blen b <? offset addr + total then Err EUnexpectedEof
      else
        let buf := slice (Z.to_nat (offset addr)) (Z.to_nat total) b in
        let key := slice HEADER_LEN (Z.to_nat (key_len addr)) buf in
        let data := drop (HEADER_LEN + Z.to_nat (key_len addr)) buf in
        if crc32 (key ++ data) =? expect_crc then Ok data else Err EInvalidData
  end.

(** ** Opening a segment directory *)

(** The choice of the active segment: the larger id of the two metas. *)
Definition choose_active (pm fm : option (Z * Z)) : SegDir * Z * Z :=
  match pm, fm with
  | Some (ps, po), Some (fs_, fo) => if ps <? fs_ then (Failover, fs_, fo) else (Primary, ps, po)
  | Some (ps, po), None => (Primary, ps, po)
  | None, Some (fs_, fo) => (Failover, fs_, fo)
  | None, None => (Primary, 0, 0)
  end.

(** [SegmentWriter::open]: pick the active segment, scan the tail after the
    recovery point, cut a torn tail off. *)
Definition open (fo : bool) (max fsync : Z) (dc : bool)
    : M world IoError (SegmentWriter * list RecoveredRecord) :=
  (match! create_dir_all Primary with! r =>
   do! match r with Ok _ => mret tt | Err e => if fo then mret tt else mthrow e end;
   let! w := mget in
   let pm := read_meta w Primary in
   let fm := if fo then read_meta w Failover else None in
   let '(dir, id, flush) := choose_active pm fm in
   do! open_active (dir, id);
   let! w := mget in
   let b := default [] (w_seg w !! (dir, id)) in
   let pos := Z.min flush (blen b) in
   let '(recs, pos) := if pos <? blen b then scan id pos (drop (Z.to_nat pos) b) else ([], pos) in
   do! (if pos <? blen b then
          syscall (λ w, set_seg w (<[(dir, id) := take (Z.to_nat pos) b]> (w_seg w)))
        else mret tt);
   let l := Z.max pos flush in
   mret ({| failover := fo; active_dir := dir; wr_seg_id := id; file := (dir, id);
            len := l; flush_offset := l; unflushed_items := 0; max_size := max;
            fsync_items := fsync; failed_over := bool_decide (dir ≠ Primary);
            drop_cache := dc |}, recs))%rust.
End Segment.
