(* ===== verification/SegmentFacts.v ===== *)
(** * Facts about segments: record format, scans and the writer's invariant

    Encoding and parsing of a record agree; a scan of a file finds exactly its
    complete records and is stable when the file grows; the writer appends
    records where it says it does. *)

From Stdlib Require Import ZArith Lia Strings.Byte.
From stdpp Require Import base list gmap.
From S2P Require Import Prelude Segment.
Open Scope Z_scope.

(** ** The header *)

Lemma length_encode_header kl fl sl ll crc :
  length (encode_header kl fl sl ll crc) = HEADER_LEN.
Proof. unfold encode_header. by rewrite !length_app, !length_le_split. Qed.

Lemma le_at_skip lo n x r :
  (length x ≤ lo)%nat → le_at lo n (x ++ r) = le_at (lo - length x) n r.
Proof. intros. unfold le_at. by rewrite slice_skip. Qed.

Lemma le_at_split n z r : 0 <= z < 2 ^ (Z.of_nat n * 8) → le_at 0 n (le_split n z ++ r) = z.
Proof. intros. rewrite le_at_app by apply length_le_split. by apply le_round. Qed.

Ltac le_field :=
  repeat (rewrite le_at_skip by (rewrite ?length_le_split; cbn; lia));
  rewrite ?length_le_split; cbn [length Nat.sub MAGIC]; apply le_at_split; lia.

Lemma parse_encode_header kl fl sl ll crc r :
  0 <= kl < 2 ^ 16 → 0 <= fl < 2 ^ 16 → 0 <= sl < 2 ^ 32 → 0 <= ll < 2 ^ 32 →
  0 <= crc < 2 ^ 32 →
  parse_header (encode_header kl fl sl ll crc ++ r) =
    Some {| h_key_len := Z.to_nat kl; h_flags := fl; h_stored_len := Z.to_nat sl;
            h_logical_len := ll; h_crc := crc |}.
Proof.
  intros Hk Hf Hs Hl Hc. unfold parse_header.
  rewrite bool_decide_eq_false_2 by (rewrite length_app, length_encode_header; lia).
  rewrite bool_decide_eq_true_2; cbn [orb negb].
  2: { unfold encode_header. rewrite <-!app_assoc. by apply slice_here. }
  unfold encode_header. rewrite <-!app_assoc.
  f_equal; f_equal; try f_equal; le_field.
Qed.

Section Facts.
Context (crc32 : bytes → Z).
Context (crc32_range : ∀ b, 0 <= crc32 b < 2 ^ 32).

(** ** One record *)

(** What [write_record] puts in the file. *)
Definition encode_record (key stored : bytes) (logical flags : Z) : bytes :=
  encode_header (wrap 16 (blen key)) flags (wrap 32 (blen stored)) logical
    (crc32 (key ++ stored)) ++ key ++ stored.

Definition record_fits (key stored : bytes) (logical flags : Z) : Prop :=
  blen key < 2 ^ 16 ∧ blen stored < 2 ^ 32 ∧ 0 <= logical < 2 ^ 32 ∧ 0 <= flags < 2 ^ 16.

Definition header_of (key stored : bytes) (logical flags : Z) : ParsedHeader :=
  {| h_key_len := length key; h_flags := flags; h_stored_len := length stored;
     h_logical_len := logical; h_crc := crc32 (key ++ stored) |}.

Lemma length_encode_record key stored logical flags :
  length (encode_record key stored logical flags) =
    (HEADER_LEN + length key + length stored)%nat.
Proof. unfold encode_record. rewrite !length_app, length_encode_header. lia. Qed.

Lemma blen_wrap w b : blen b < 2 ^ w → Z.to_nat (wrap w (blen b)) = length b.
Proof. intros. rewrite wrap_small by (pose proof (blen_nonneg b); lia). unfold blen. lia. Qed.

Lemma parse_record_header key stored logical flags r :
  record_fits key stored logical flags →
  parse_header (encode_header (wrap 16 (blen key)) flags (wrap 32 (blen stored)) logical
                  (crc32 (key ++ stored)) ++ r) = Some (header_of key stored logical flags).
Proof.
  intros (Hk & Hs & Hl & Hf).
  rewrite parse_encode_header by (auto using wrap_bound with lia).
  unfold header_of. by rewrite !blen_wrap.
Qed.

Lemma next_record_encode key stored logical flags r :
  record_fits key stored logical flags →
  next_record crc32 (encode_record key stored logical flags ++ r) =
    Some (header_of key stored logical flags, key, stored).
Proof.
  intros Hfit. unfold next_record, encode_record.
  set (hdr := encode_header _ _ _ _ _).
  assert (length hdr = HEADER_LEN) as Hh by apply length_encode_header.
  rewrite <-!app_assoc.
  rewrite bool_decide_eq_false_2 by (rewrite !length_app; lia).
  rewrite take_app_length' by done. rewrite <-(app_nil_r hdr) at 1. unfold hdr at 1.
  rewrite parse_record_header by done. cbn [header_of h_key_len h_stored_len h_crc].
  rewrite bool_decide_eq_false_2 by (rewrite !length_app; lia).
  assert (slice HEADER_LEN (length key) (hdr ++ key ++ stored ++ r) = key) as ->.
  { rewrite slice_skip by lia. rewrite Hh, Nat.sub_diag. by apply slice_here. }
  assert (slice (HEADER_LEN + length key) (length stored) (hdr ++ key ++ stored ++ r) = stored) as ->.
  { rewrite slice_skip by lia. rewrite Hh.
    rewrite slice_skip by lia.
    replace (HEADER_LEN + length key - HEADER_LEN - length key)%nat with 0%nat by lia.
    by apply slice_here. }
  by rewrite Z.eqb_refl.
Qed.

Lemma parse_header_take (b r : bytes) :
  (HEADER_LEN <= length b)%nat → take HEADER_LEN (b ++ r) = take HEADER_LEN b.
Proof. intros. by rewrite take_app_le. Qed.

Lemma slice_app lo n (b r : bytes) : (lo + n <= length b)%nat → slice lo n (b ++ r) = slice lo n b.
Proof.
  intros. unfold slice. rewrite drop_app_le by lia. apply take_app_le.
  rewrite length_drop. lia.
Qed.

(** A record found in a buffer is found when the buffer grows. *)
Lemma next_record_app b r x :
  next_record crc32 b = Some x → next_record crc32 (b ++ r) = Some x.
Proof.
  unfold next_record. destruct (bool_decide_reflect (length b < HEADER_LEN)%nat); [done |].
  rewrite bool_decide_eq_false_2 by (rewrite length_app; lia).
  rewrite parse_header_take by lia.
  destruct (parse_header (take HEADER_LEN b)) as [h |]; [| done].
  destruct (bool_decide_reflect (length b < HEADER_LEN + h_key_len h + h_stored_len h)%nat); [done |].
  rewrite bool_decide_eq_false_2 by (rewrite length_app; lia).
  by rewrite !slice_app by lia.
Qed.

Lemma next_record_length b h key data :
  next_record crc32 b = Some (h, key, data) →
  (record_total h <= length b)%nat ∧ length key = h_key_len h ∧ length data = h_stored_len h.
Proof.
  unfold next_record. destruct (bool_decide_reflect (length b < HEADER_LEN)%nat); [done |].
  destruct (parse_header (take HEADER_LEN b)) as [h' |]; [| done].
  destruct (bool_decide_reflect (length b < HEADER_LEN + h_key_len h' + h_stored_len h')%nat); [done |].
  destruct (_ =? _); [| done]. intros [= -> <- <-].
  unfold record_total, slice, HEADER_LEN in *. rewrite !length_take, !length_drop. lia.
Qed.

(** A strict prefix of a record is not a record. *)
Lemma next_record_torn key stored logical flags n :
  record_fits key stored logical flags →
  (n < length (encode_record key stored logical flags))%nat →
  next_record crc32 (take n (encode_record key stored logical flags)) = None.
Proof.
  intros Hfit Hn. rewrite length_encode_record in Hn. unfold next_record.
  destruct (bool_decide_reflect (length (take n (encode_record key stored logical flags)) < HEADER_LEN)%nat)
    as [|Hlen]; [done |].
  rewrite length_take, length_encode_record in Hlen.
  rewrite take_take, Nat.min_l by lia. unfold encode_record at 1.
  rewrite take_app_length' by (symmetry; apply length_encode_header).
  rewrite <-(app_nil_r (encode_header _ _ _ _ _)). rewrite parse_record_header by done.
  cbn [header_of h_key_len h_stored_len].
  rewrite bool_decide_eq_true_2; [done |]. rewrite length_take. lia.
Qed.

(** ** Scans *)

(** [scan_loop] does not depend on its fuel once it covers the buffer. *)
Lemma scan_loop_fuel f1 f2 seg pos b :
  (length b <= f1)%nat → (length b <= f2)%nat →
  scan_loop crc32 f1 seg pos b = scan_loop crc32 f2 seg pos b.
Proof.
  revert f2 pos b. induction f1 as [| f1 IH]; intros f2 pos b H1 H2.
  { destruct b; [| simpl in H1; lia]. by destruct f2. }
  destruct f2 as [| f2]; [destruct b; [done | simpl in H2; lia] |]. simpl.
  destruct (next_record crc32 b) as [[[h key] data] |] eqn:Hn; [| done].
  apply next_record_length in Hn as (Hl & _ & _). unfold record_total, HEADER_LEN in Hl.
  rewrite (IH f2); [done | |]; rewrite length_drop; unfold record_total, HEADER_LEN; lia.
Qed.

Lemma scan_eq seg pos b :
  scan crc32 seg pos b =
    match next_record crc32 b with
    | None => ([], pos)
    | Some (h, key, data) =>
        let '(l, e) := scan crc32 seg (pos + Z.of_nat (record_total h)) (drop (record_total h) b) in
        (recovered seg pos h key data :: l, e)
    end.
Proof.
  unfold scan at 1. destruct b as [| x b]; [done |]. simpl length. simpl scan_loop.
  destruct (next_record crc32 (x :: b)) as [[[h key] data] |] eqn:Hn; [| done].
  unfold scan. apply next_record_length in Hn as (Hl & _ & _).
  rewrite (scan_loop_fuel (length b) (length (drop (record_total h) (x :: b)))); [done | | done].
  rewrite length_drop. unfold record_total, HEADER_LEN in *. simpl. lia.
Qed.

(** Induction along a scan. *)
Lemma scan_ind (P : Z → bytes → Prop) :
  (∀ pos b, next_record crc32 b = None → P pos b) →
  (∀ pos b h key data, next_record crc32 b = Some (h, key, data) →
     P (pos + Z.of_nat (record_total h)) (drop (record_total h) b) → P pos b) →
  ∀ pos b, P pos b.
Proof.
  intros H0 HS pos b. remember (length b) as n eqn:Hn. revert pos b Hn.
  induction (lt_wf n) as [n _ IH]. intros pos b ->.
  destruct (next_record crc32 b) as [[[h key] data] |] eqn:Hr; [| by apply H0].
  eapply HS; [done |]. apply next_record_length in Hr as (Hl & _ & _).
  eapply IH; [| reflexivity]. rewrite length_drop. unfold record_total, HEADER_LEN in *. lia.
Qed.

Lemma scan_end_bound seg pos b : pos <= (scan crc32 seg pos b).2 <= pos + blen b.
Proof.
  revert pos b. apply (scan_ind (λ pos b, pos <= (scan crc32 seg pos b).2 <= pos + blen b)).
  - intros pos b Hn. rewrite scan_eq, Hn. simpl. pose proof (blen_nonneg b). lia.
  - intros pos b h key data Hn IH. rewrite scan_eq, Hn.
    destruct (scan crc32 seg (pos + Z.of_nat (record_total h)) _) as [l e]. simpl in *.
    apply next_record_length in Hn as (Hl & _ & _).
    unfold blen in *. rewrite length_drop in IH. lia.
Qed.

(** A scan that covers its buffer goes on into what is appended. *)
Lemma scan_app seg pos b r :
  (scan crc32 seg pos b).2 = pos + blen b →
  scan crc32 seg pos (b ++ r) =
    ((scan crc32 seg pos b).1 ++ (scan crc32 seg (pos + blen b) r).1,
     (scan crc32 seg (pos + blen b) r).2).
Proof.
  revert pos b.
  apply (scan_ind (λ pos b, (scan crc32 seg pos b).2 = pos + blen b → _)).
  - intros pos b Hn. rewrite (scan_eq seg pos b), Hn. simpl. unfold blen. intros He.
    destruct b; [| simpl in He; lia]. simpl. rewrite Z.add_0_r. by destruct (scan _ _ _ _).
  - intros pos b h key data Hn IH. rewrite (scan_eq seg pos b), Hn.
    rewrite (scan_eq seg pos (b ++ r)), (next_record_app _ r _ Hn).
    apply next_record_length in Hn as (Hl & _ & _). rewrite drop_app_le by done.
    assert (pos + Z.of_nat (record_total h) + blen (drop (record_total h) b) = pos + blen b) as Hp.
    { unfold blen. rewrite length_drop. lia. }
    rewrite Hp in IH.
    destruct (scan crc32 seg (pos + Z.of_nat (record_total h)) (drop (record_total h) b)) as [l e].
    simpl in *. intros ->. rewrite IH by done. done.
Qed.

(** The records of a file stay where they are when the file grows. *)
Lemma scan_grow seg pos b r :
  (scan crc32 seg pos b).1 `prefix_of` (scan crc32 seg pos (b ++ r)).1.
Proof.
  revert pos b.
  apply (scan_ind (λ pos b, (scan crc32 seg pos b).1 `prefix_of` (scan crc32 seg pos (b ++ r)).1)).
  - intros pos b Hn. rewrite (scan_eq seg pos b), Hn. apply prefix_nil.
  - intros pos b h key data Hn IH. rewrite (scan_eq seg pos b), Hn.
    rewrite (scan_eq seg pos (b ++ r)), (next_record_app _ r _ Hn).
    apply next_record_length in Hn as (Hl & _ & _). rewrite drop_app_le by done.
    destruct (scan crc32 seg _ (drop (record_total h) b)) as [l e].
    destruct (scan crc32 seg _ (drop (record_total h) b ++ r)) as [l' e']. by apply prefix_cons.
Qed.

Definition record_at (seg pos : Z) (key stored : bytes) (logical flags : Z) : RecoveredRecord :=
  recovered seg pos (header_of key stored logical flags) key stored.

Lemma scan_one seg pos key stored logical flags r :
  record_fits key stored logical flags →
  scan crc32 seg pos (encode_record key stored logical flags ++ r) =
    (record_at seg pos key stored logical flags ::
       (scan crc32 seg (pos + blen (encode_record key stored logical flags)) r).1,
     (scan crc32 seg (pos + blen (encode_record key stored logical flags)) r).2).
Proof.
  intros Hf. rewrite scan_eq, next_record_encode by done.
  assert (record_total (header_of key stored logical flags)
          = length (encode_record key stored logical flags)) as ->
    by (by rewrite length_encode_record).
  rewrite drop_app_length. unfold blen. by destruct (scan _ _ _ r).
Qed.

(** What a scan reports at an offset is there to be read. *)
Lemma scan_read seg pos b rec :
  rec ∈ (scan crc32 seg pos b).1 →
  ∃ n h, (n + record_total h <= length b)%nat ∧
    r_addr rec = {| seg_id := seg; offset := pos + Z.of_nat n;
                    stored_len := wrap 32 (Z.of_nat (h_stored_len h));
                    key_len := wrap 16 (Z.of_nat (h_key_len h)) |} ∧
    next_record crc32 (drop n b) = Some (h, r_key rec, r_stored rec) ∧
    r_crc rec = h_crc h ∧ r_flags rec = h_flags h ∧ r_logical_len rec = h_logical_len h.
Proof.
  revert pos b. apply (scan_ind (λ pos b, rec ∈ (scan crc32 seg pos b).1 → _)).
  - intros pos b Hn. rewrite scan_eq, Hn. intros H. by apply not_elem_of_nil in H.
  - intros pos b h key data Hn IH. rewrite scan_eq, Hn.
    pose proof (next_record_length _ _ _ _ Hn) as (Hl & _ & _).
    destruct (scan crc32 seg _ (drop (record_total h) b)) as [l e]. simpl in *.
    intros [-> | Hin]%elem_of_cons.
    + exists 0%nat, h. rewrite drop_0, Z.add_0_r. simpl. repeat split; [lia | done].
    + destruct (IH Hin) as (n & h' & Hle & Ha & Hn' & Hrest).
      exists (record_total h + n)%nat, h'. rewrite length_drop in Hle.
      rewrite drop_drop in Hn'. split; [lia |]. split; [| done].
      rewrite Ha. f_equal. lia.
Qed.
Lemma parse_header_bounds b h :
  parse_header b = Some h →
  Z.of_nat (h_key_len h) < 2 ^ 16 ∧ Z.of_nat (h_stored_len h) < 2 ^ 32 ∧
  0 <= h_flags h < 2 ^ 16 ∧ 0 <= h_logical_len h < 2 ^ 32.
Proof.
  unfold parse_header. destruct (_ || _); [done |]. intros [= <-]. simpl.
  pose proof (le_at_bound 4 2 b). pose proof (le_at_bound 8 4 b).
  pose proof (le_at_bound 6 2 b). pose proof (le_at_bound 12 4 b). simpl in *. lia.
Qed.

Lemma next_record_inv b h key data :
  next_record crc32 b = Some (h, key, data) →
  Z.of_nat (h_key_len h) < 2 ^ 16 ∧ Z.of_nat (h_stored_len h) < 2 ^ 32 ∧
  0 <= h_flags h < 2 ^ 16 ∧ 0 <= h_logical_len h < 2 ^ 32 ∧
  key = slice HEADER_LEN (h_key_len h) b ∧
  data = slice (HEADER_LEN + h_key_len h) (h_stored_len h) b ∧
  crc32 (key ++ data) = h_crc h.
Proof.
  unfold next_record. destruct (bool_decide_reflect (length b < HEADER_LEN)%nat); [done |].
  destruct (parse_header (take HEADER_LEN b)) as [h' |] eqn:Hp; [| done].
  apply parse_header_bounds in Hp as (Hk & Hs & Hf & Hl).
  destruct (bool_decide _); [done |].
  destruct (Z.eqb_spec (crc32 (slice HEADER_LEN (h_key_len h') b ++
    slice (HEADER_LEN + h_key_len h') (h_stored_len h') b)) (h_crc h')) as [Hc|]; [| done].
  intros [= <- <- <-]. auto 10.
Qed.

(** ** Records that can be reached in the files *)

(** The record lies in a file of its segment, where a scan of that file
    finds it. *)
Definition reach (files : gmap (SegDir * Z) bytes) (d : SegDir) (rec : RecoveredRecord) : Prop :=
  ∃ b, files !! (d, seg_id (r_addr rec)) = Some b ∧
       rec ∈ (scan crc32 (seg_id (r_addr rec)) 0 b).1.

Lemma reach_read files d rec :
  reach files d rec → read_record crc32 files d (r_addr rec) (r_crc rec) = Ok (r_stored rec).
Proof.
  intros (b & Hb & Hin).
  destruct (scan_read _ _ _ _ Hin) as (n & h & Hle & Ha & Hn & Hc & _).
  apply next_record_inv in Hn as (Hk & Hs & _ & _ & Hkey & Hdata & Hcrc).
  unfold read_record. rewrite Hb, Ha. cbn [key_len stored_len offset].
  rewrite !wrap_small by lia.
  assert (Z.of_nat HEADER_LEN + Z.of_nat (h_key_len h) + Z.of_nat (h_stored_len h)
          = Z.of_nat (record_total h)) as -> by (unfold record_total; lia).
  destruct (Z.ltb_spec (blen b) (0 + Z.of_nat n + Z.of_nat (record_total h))) as [Hlt|_].
  { unfold blen in Hlt. lia. }
  rewrite Z.add_0_l, !Nat2Z.id.
  assert (slice HEADER_LEN (h_key_len h) (slice n (record_total h) b) = r_key rec) as ->.
  { rewrite Hkey. unfold slice. rewrite <-(take_drop (record_total h) (drop n b)) at 2.
    symmetry. apply slice_app. rewrite length_take, length_drop. unfold record_total in *. lia. }
  assert (drop (HEADER_LEN + h_key_len h) (slice n (record_total h) b) = r_stored rec) as ->.
  { rewrite Hdata. unfold slice. rewrite skipn_firstn_comm. f_equal. unfold record_total. lia. }
  by rewrite Hcrc, Hc, Z.eqb_refl.
Qed.

(** Files only grow. *)
Definition extends (m m' : gmap (SegDir * Z) bytes) : Prop :=
  ∀ p b, m !! p = Some b → ∃ r, m' !! p = Some (b ++ r).

#[global] Instance extends_preorder : PreOrder extends.
Proof.
  split.
  - intros m p b Hb. exists []. by rewrite app_nil_r.
  - intros m1 m2 m3 H1 H2 p b Hb. destruct (H1 _ _ Hb) as [r Hr].
    destruct (H2 _ _ Hr) as [r' Hr']. exists (r ++ r'). by rewrite app_assoc.
Qed.

Lemma extends_alter p x m : extends m (alter (λ b, b ++ x) p m).
Proof.
  intros q b Hb. rewrite lookup_alter. case_decide; subst.
  - exists x. by rewrite Hb.
  - exists []. by rewrite app_nil_r.
Qed.

Lemma extends_open p m : extends m (<[p := default [] (m !! p)]> m).
Proof.
  intros q b Hb. exists []. rewrite app_nil_r, lookup_insert. case_decide; subst; [| done].
  by rewrite Hb.
Qed.

Lemma reach_extends m m' d rec : extends m m' → reach m d rec → reach m' d rec.
Proof.
  intros He (b & Hb & Hin). destruct (He _ _ Hb) as [r Hr]. exists (b ++ r). split; [done |].
  destruct (scan_grow (seg_id (r_addr rec)) 0 b r) as [l ->]. apply elem_of_app. by left.
Qed.
End Facts.
