(* ===== verification/Writer.v ===== *)
(** * The segment writer's invariant

    [wr_ok] says that the active file holds exactly the records the writer has
    appended and that its length is the writer's [len], so that the offset of
    the next record is where the bytes will go.  Every operation of the writer
    keeps what is already in the files ([sstep]); a successful append leaves
    its record reachable at the address it returns. *)

From Stdlib Require Import ZArith Lia Strings.Byte.
From stdpp Require Import base list gmap.
From S2P Require Import Prelude Segment SegmentFacts.
Open Scope Z_scope.

(** ** One system call *)

(** The world after the outcome of one call has been taken. *)
Definition popw (w : world) : world := (next_fault w).2.

Lemma popw_seg w : w_seg (popw w) = w_seg w.
Proof. unfold popw, next_fault. by destruct (w_faults w). Qed.
Lemma popw_meta w : w_meta (popw w) = w_meta w.
Proof. unfold popw, next_fault. by destruct (w_faults w). Qed.
Lemma popw_faults w : w_faults w = [] → w_faults (popw w) = [].
Proof. unfold popw, next_fault. intros H. by rewrite H. Qed.

Lemma next_fault_some w f w' : next_fault w = (Some f, w') → w_faults w ≠ [].
Proof. unfold next_fault. destruct (w_faults w); [by intros [=] | done]. Qed.

Lemma wp_syscall eff (Q : result IoError unit → world → Prop) w :
  Q (Ok tt) (eff (popw w)) →
  (∀ e, w_faults w ≠ [] → Q (Err e) (popw w)) →
  wp (syscall eff) Q w.
Proof.
  intros HO HE. unfold wp, syscall, popw in *.
  destruct (next_fault w) as [[f |] w'] eqn:Hf; simpl in *; [| done].
  eauto using next_fault_some.
Qed.

Lemma wp_write_all file data (Q : result IoError unit → world → Prop) w :
  Q (Ok tt) (set_seg (popw w) (alter (λ b, b ++ data) file (w_seg w))) →
  (∀ e x, w_faults w ≠ [] → Q (Err e) (set_seg (popw w) (alter (λ b, b ++ x) file (w_seg w)))) →
  wp (write_all file data) Q w.
Proof.
  intros HO HE. rewrite <-(popw_seg w) in HO. unfold wp, write_all.
  assert (∀ e x, w_faults w ≠ [] →
    Q (Err e) (set_seg (popw w) (alter (λ b, b ++ x) file (w_seg (popw w))))) as HE'
    by (rewrite popw_seg; auto). clear HE. unfold popw in *.
  destruct (next_fault w) as [[f |] w'] eqn:Hf; simpl in *; [| done].
  eauto using next_fault_some.
Qed.

Lemma wp_sys {A} (c : M world IoError A) (Q : result IoError A → segst → Prop) s :
  wp c (λ r w, Q r {| sg_world := w; sg_wr := sg_wr s |}) (sg_world s) → wp (sys c) Q s.
Proof. unfold wp, sys. by destruct (c (sg_world s)) as [r w]. Qed.

(** ** Relations between writer states *)

Definition files (s : segst) := w_seg (sg_world s).
Definition faults (s : segst) := w_faults (sg_world s).

(** The fields that say where the next record goes. *)
Definition core (w : SegmentWriter) :=
  (failover w, active_dir w, wr_seg_id w, file w, len w, max_size w).

(** Nothing the readers can see has changed. *)
Definition frame (s s' : segst) : Prop :=
  files s' = files s ∧ core (sg_wr s') = core (sg_wr s) ∧ (faults s = [] → faults s' = []).

(** The writer's configuration. *)
Definition wcfg (w : SegmentWriter) := (failover w, max_size w).

(** Files only grow, those before the active segment do not change, new ones
    come after it, the configuration stays. *)
Record sstep (s s' : segst) : Prop := {
  ss_ext : extends (files s) (files s');
  ss_cfg : wcfg (sg_wr s') = wcfg (sg_wr s);
  ss_quiet : faults s = [] → faults s' = [];
  ss_id : wr_seg_id (sg_wr s) <= wr_seg_id (sg_wr s');
  ss_old : ∀ d id, id < wr_seg_id (sg_wr s) → files s' !! (d, id) = files s !! (d, id);
  ss_new : ∀ p, p.2 <= wr_seg_id (sg_wr s) → files s !! p = None → files s' !! p = None;
}.

(** No failover directory, or no fault ahead. *)
Definition calm (s : segst) : Prop := failover (sg_wr s) = false ∨ faults s = [].

#[global] Instance frame_preorder : PreOrder frame.
Proof.
  split; [by intros s |].
  intros s1 s2 s3 (F1 & C1 & H1) (F2 & C2 & H2). repeat split; [congruence | congruence | auto].
Qed.

#[global] Instance sstep_preorder : PreOrder sstep.
Proof.
  split; [intros s; by split |].
  intros s1 s2 s3 [E1 C1 H1 I1 O1 N1] [E2 C2 H2 I2 O2 N2].
  split; [by transitivity (files s2) | congruence | auto | lia | |].
  - intros d id Hid. rewrite O2, O1; [done | done | lia].
  - intros p Hp Hno. apply N2; [lia | auto].
Qed.

Lemma frame_core s s' : frame s s' →
  failover (sg_wr s') = failover (sg_wr s) ∧ active_dir (sg_wr s') = active_dir (sg_wr s) ∧
  wr_seg_id (sg_wr s') = wr_seg_id (sg_wr s) ∧ file (sg_wr s') = file (sg_wr s) ∧
  len (sg_wr s') = len (sg_wr s).
Proof. intros (_ & Hc & _). unfold core in Hc. by simplify_eq. Qed.

Lemma core_wcfg w w' : core w' = core w → wcfg w' = wcfg w.
Proof. unfold core, wcfg. congruence. Qed.

Lemma frame_sstep s s' : frame s s' → sstep s s'.
Proof.
  intros HF. pose proof (frame_core _ _ HF) as (_ & _ & Hid & _). destruct HF as (Hfi & Hc & Hfa).
  split; [by rewrite Hfi | by apply core_wcfg | done | lia | by rewrite Hfi | by rewrite Hfi].
Qed.

Lemma calm_sstep s s' : sstep s s' → calm s → calm s'.
Proof.
  intros [_ Hc Hf _ _ _] [H | H]; [left; unfold wcfg in Hc; congruence | right; auto].
Qed.

#[export] Hint Resolve frame_sstep calm_sstep : ozd.

Section Writer.
Context (crc32 : bytes → Z).
Context (crc32_range : ∀ b, 0 <= crc32 b < 2 ^ 32).

Record wr_base (s : segst) : Prop := {
  wb_file : file (sg_wr s) = (active_dir (sg_wr s), wr_seg_id (sg_wr s));
  wb_fresh : ∀ d id b, files s !! (d, id) = Some b → wr_seg_id (sg_wr s) < id →
    b = [] ∧ d = Primary;
  wb_unique : ∀ id b1 b2, files s !! (Primary, id) = Some b1 →
    files s !! (Failover, id) = Some b2 → False;
  wb_dirs : ∀ id b, files s !! (Failover, id) = Some b → failover (sg_wr s) = true;
  wb_id : 0 <= wr_seg_id (sg_wr s);
}.

Definition wr_sync (s : segst) : Prop :=
  ∃ b, files s !! file (sg_wr s) = Some b ∧ blen b = len (sg_wr s) ∧
       (scan crc32 (wr_seg_id (sg_wr s)) 0 b).2 = blen b.

Definition wr_ok (s : segst) : Prop := wr_base s ∧ wr_sync s.

Lemma wr_base_frame s s' : frame s s' → wr_base s → wr_base s'.
Proof.
  intros Hf [Hfile Hfresh Huniq Hdirs Hid].
  destruct (frame_core _ _ Hf) as (Hfo & Had & Hwi & Hfi & Hl). destruct Hf as (Hfs & _ & _).
  split; rewrite ?Hfs, ?Hfo, ?Had, ?Hwi, ?Hfi; auto.
Qed.

Lemma wr_sync_frame s s' : frame s s' → wr_sync s → wr_sync s'.
Proof.
  intros Hf (b & Hb & Hl & Hs).
  destruct (frame_core _ _ Hf) as (Hfo & Had & Hwi & Hfi & Hl'). destruct Hf as (Hfs & _ & _).
  exists b. by rewrite Hfs, Hfi, Hl', Hwi.
Qed.

Lemma wr_ok_frame s s' : frame s s' → wr_ok s → wr_ok s'.
Proof. intros Hf [? ?]. split; eauto using wr_base_frame, wr_sync_frame. Qed.

(** ** flush *)

Lemma frame_pop s : frame s {| sg_world := popw (sg_world s); sg_wr := sg_wr s |}.
Proof. split; [apply popw_seg |]. split; [done | apply popw_faults]. Qed.

Lemma wp_write_meta d id off (Q : result IoError unit → segst → Prop) s :
  (∀ s', frame s s' → Q (Ok tt) s') →
  (∀ e s', faults s ≠ [] → frame s s' → Q (Err e) s') →
  wp (sys (write_meta d id off)) Q s.
Proof.
  intros HO HE. apply wp_sys. unfold write_meta. wp_step.
  apply wp_syscall; cbv beta iota.
  2: { intros e He. apply HE; [done | apply frame_pop]. }
  apply wp_syscall; cbv beta iota.
  - apply HO. split; [| split; [done |]]; unfold files, faults; simpl; rewrite ?popw_seg; [done |].
    intros Hf. apply popw_faults, popw_faults, Hf.
  - intros e He. apply HE.
    + intros Hf. by apply He, popw_faults.
    + split; [| split; [done |]]; unfold files, faults; simpl; rewrite ?popw_seg; [done |].
      intros Hf. apply popw_faults, popw_faults, Hf.
Qed.

Lemma wp_sync_data (Q : result IoError unit → segst → Prop) s :
  (∀ s', frame s s' → Q (Ok tt) s') →
  (∀ e s', faults s ≠ [] → frame s s' → Q (Err e) s') →
  wp (sys sync_data) Q s.
Proof.
  intros HO HE. apply wp_sys, wp_syscall; [apply HO, frame_pop |].
  intros e He. apply HE; [done | apply frame_pop].
Qed.

Lemma wp_flush (Q : result IoError unit → segst → Prop) s :
  (∀ s', frame s s' → Q (Ok tt) s') →
  (∀ e s', faults s ≠ [] → frame s s' → Q (Err e) s') →
  wp flush Q s.
Proof.
  intros HO HE. unfold flush. wp_steps.
  destruct (_ && _); [by apply wp_ret, HO |]. wp_step.
  apply wp_sync_data; [| by auto]. intros s1 F1. wp_step. unfold upd_wr. wp_step.
  set (s2 := {| sg_world := sg_world s1; sg_wr := wr_flushed (sg_wr s1) |}).
  assert (frame s s2) as F2 by (transitivity s1; [done | by split]).
  apply wp_write_meta.
  - intros s3 F3. apply HO. by transitivity s2.
  - intros e s3 Hf F3. apply HE; [| by transitivity s2].
    intros Hs. apply Hf. by apply F2.
Qed.

(** ** Rotation *)

Definition opened (p : SegDir * Z) (s s' : segst) : Prop :=
  files s' = <[p := default [] (files s !! p)]> (files s) ∧
  core (sg_wr s') = core (sg_wr s) ∧ (faults s = [] → faults s' = []).

Lemma opened_sstep p s s' : wr_seg_id (sg_wr s) < p.2 → opened p s s' → sstep s s'.
Proof.
  intros Hp (Hf & Hc & Hfa). pose proof (core_wcfg _ _ Hc) as Hw.
  unfold core in Hc. injection Hc as _ _ Hid _ _ _.
  split; [rewrite Hf; apply extends_open | done | done | lia | |].
  - intros d id Hlt. rewrite Hf, lookup_insert_ne; [done |]. intros ->. simpl in Hp. lia.
  - intros q Hq Hno. rewrite Hf, lookup_insert_ne; [done |]. intros ->. lia.
Qed.

Lemma opened_frame p s s1 s2 : opened p s s1 → frame s1 s2 → opened p s s2.
Proof.
  intros (F1 & C1 & H1) (F2 & C2 & H2). split; [congruence | split; [congruence | auto]].
Qed.

Lemma wp_rotate_primary next (Q : result IoError unit → segst → Prop) s :
  (∀ s', opened (Primary, next) s s' → Q (Ok tt) s') →
  (∀ e s', faults s ≠ [] → frame s s' ∨ opened (Primary, next) s s' → Q (Err e) s') →
  wp (rotate_primary next) Q s.
Proof.
  intros HO HE. unfold rotate_primary. wp_step. unfold create_dir_all.
  apply wp_sync_data; [intros s1 F1 | eauto]. wp_step. apply wp_sys, wp_syscall; cbv beta iota.
  2: { intros e He. apply HE; [intros Hs; apply He, F1, Hs |].
       left. transitivity s1; [done | apply frame_pop]. }
  set (s2 := {| sg_world := _; sg_wr := _ |}).
  assert (opened (Primary, next) s s2) as O2.
  { destruct F1 as (F & C & H). unfold s2, opened, files, faults in *. simpl.
    rewrite popw_seg, F. split; [done | split; [done |]]. intros; by apply popw_faults, H. }
  apply wp_write_meta.
  - intros s3 F3. apply HO. by eapply opened_frame.
  - intros e s3 Hf F3. apply HE; [| right; by eapply opened_frame].
    intros Hs. by apply Hf, O2.
Qed.

Definition next_free (s : segst) : Prop := wr_seg_id (sg_wr s) + 1 < 2 ^ 32.

Lemma wr_base_opened s s' :
  wr_base s → opened (Primary, wr_seg_id (sg_wr s) + 1) s s' → wr_base s'.
Proof.
  intros [Hfile Hfresh Huniq Hdirs Hid] (Hf & Hc & _). unfold core in Hc.
  injection Hc as Hfo Had Hwi Hfi Hl _.
  split; rewrite ?Hf, ?Hfo, ?Had, ?Hwi, ?Hfi; try done.
  - intros d id b. rewrite lookup_insert. case_decide as Hd; [| by apply Hfresh].
    injection Hd as <- <-. intros [= <-] Hlt. split; [| done].
    destruct (files s !! (Primary, wr_seg_id (sg_wr s) + 1)) as [b |] eqn:Hb; [| done].
    apply (Hfresh _ _ _ Hb). lia.
  - intros id b1 b2. rewrite !lookup_insert. case_decide as Hd; case_decide as Hd'; try done.
    + injection Hd as <-. intros _ H2. destruct (Hfresh _ _ _ H2); [lia | done].
    + apply Huniq.
  - intros id b. rewrite lookup_insert. case_decide; [done | apply Hdirs].
Qed.

Lemma wr_sync_opened s s' :
  wr_base s → wr_sync s → opened (Primary, wr_seg_id (sg_wr s) + 1) s s' → wr_sync s'.
Proof.
  intros HB (b & Hb & Hl & Hs) (Hf & Hc & _). unfold core in Hc.
  injection Hc as Hfo Had Hwi Hfi Hl' _.
  exists b. rewrite Hf, Hfi, Hl', Hwi. split; [| done].
  rewrite lookup_insert_ne; [done |]. rewrite (wb_file _ HB). intros [=]. lia.
Qed.

Lemma wr_ok_installed s s' next :
  wr_base s → next = wr_seg_id (sg_wr s) + 1 → opened (Primary, next) s s' →
  wr_ok {| sg_world := sg_world s'; sg_wr := install Primary next false (sg_wr s') |}.
Proof.
  intros HB -> HO. pose proof (wr_base_opened _ _ HB HO) as [_ Hfresh Huniq Hdirs _].
  destruct HO as (Hf & Hc & _). unfold core in Hc. injection Hc as Hfo Had Hwi Hfi Hl _.
  split.
  - split; simpl; try done.
    + intros d id b Hb Hlt. apply (Hfresh d id b Hb). lia.
    + pose proof (wb_id _ HB). lia.
  - exists []. simpl. split; [| done]. unfold files in Hf |- *. simpl. rewrite Hf.
    rewrite lookup_insert_eq. f_equal.
    destruct (w_seg (sg_world s) !! _) as [b |] eqn:Hb; [| done]. simpl.
    apply (wb_fresh _ HB _ _ _ Hb). lia.
Qed.

Lemma wp_rotate (Q : result IoError unit → segst → Prop) s :
  wr_base s → calm s → next_free s →
  (∀ s', wr_ok s' → sstep s s' → wr_seg_id (sg_wr s') = wr_seg_id (sg_wr s) + 1 →
     len (sg_wr s') = 0 → Q (Ok tt) s') →
  (∀ e s', faults s ≠ [] → wr_base s' → (wr_sync s → wr_sync s') → sstep s s' →
     wr_seg_id (sg_wr s') = wr_seg_id (sg_wr s) → Q (Err e) s') →
  wp rotate Q s.
Proof.
  intros HB Hcalm Hfree HO HE. unfold rotate. wp_steps.
  apply wp_flush; [intros s1 F1 | intros e s1 Hf F1].
  2: { destruct Hcalm as [Hno | Hno]; [| done].
       destruct (frame_core _ _ F1) as (Hfo & _ & Hwi & _). wp_step. rewrite Hno.
       wp_step. apply HE; eauto using wr_base_frame, wr_sync_frame with ozd. }
  do 4 wp_step. cbv zeta.
  destruct (frame_core _ _ F1) as (Hfo & _ & Hwi & _).
  assert (wrap 32 (wr_seg_id (sg_wr s1) + 1) = wr_seg_id (sg_wr s1) + 1) as ->.
  { apply wrap_small. rewrite Hwi. pose proof (wb_id _ HB). unfold next_free in Hfree. lia. }
  assert (wr_base s1) as HB1 by eauto using wr_base_frame.
  wp_step. apply wp_rotate_primary.
  - intros s2 O2. unfold upd_wr. wp_step. apply HO.
    + by eapply wr_ok_installed.
    + assert (sstep s1 s2) as [E2 C2 H2 I2 D2 N2] by (eapply opened_sstep; [| done]; simpl; lia).
      transitivity s1; [by apply frame_sstep |]. split; try done. simpl. lia.
    + simpl. lia.
    + done.
  - intros e s2 Hf F2. rewrite Hfo.
    destruct Hcalm as [Hno | Hno]; [rewrite Hno | by destruct Hf; apply F1].
    wp_step. assert (faults s ≠ []) as Hf' by (intros H; by apply Hf, F1).
    destruct F2 as [F2 | O2].
    + apply HE; [done | eauto using wr_base_frame | eauto using wr_sync_frame | |].
      * apply frame_sstep. by transitivity s1.
      * destruct (frame_core _ _ F2) as (_ & _ & Hw2 & _). lia.
    + apply HE; [done | eauto using wr_base_opened | | |].
      * intros Hs. eapply wr_sync_opened; eauto using wr_sync_frame.
      * transitivity s1; [by apply frame_sstep | by eapply opened_sstep; [| done]; simpl; lia].
      * destruct O2 as (_ & C2 & _). unfold core in C2. injection C2. intros. lia.
Qed.

(** ** Appending a record *)

(** The bytes [x] have been added to the active file. *)
Definition grown (x : bytes) (s s' : segst) : Prop :=
  files s' = alter (λ b, b ++ x) (file (sg_wr s)) (files s) ∧
  core (sg_wr s') = core (sg_wr s) ∧ (faults s = [] → faults s' = []).

Lemma grown_sstep x s s' : wr_base s → grown x s s' → sstep s s'.
Proof.
  intros HB (Hf & Hc & Hfa). pose proof (core_wcfg _ _ Hc) as Hw.
  unfold core in Hc. injection Hc as _ _ Hid _ _ _.
  split; [rewrite Hf; apply extends_alter | done | done | lia | |].
  - intros d id Hlt. rewrite Hf, lookup_alter_ne; [done |]. rewrite (wb_file _ HB). intros [=]. lia.
  - intros q _ Hno. by rewrite Hf, lookup_alter_None.
Qed.

Lemma grown_trans x y s1 s2 s3 : grown x s1 s2 → grown y s2 s3 → grown (x ++ y) s1 s3.
Proof.
  intros (F1 & C1 & H1) (F2 & C2 & H2). split; [| split; [congruence | auto]].
  assert (file (sg_wr s2) = file (sg_wr s1)) as Hfile by (unfold core in C1; by simplify_eq).
  rewrite F2, Hfile, F1. apply map_eq. intros i. rewrite !lookup_alter.
  repeat case_decide; try done. subst i.
  destruct (files s1 !! file (sg_wr s1)); simpl; [by rewrite app_assoc | done].
Qed.

Lemma wp_write_bytes data f (Q : result IoError unit → segst → Prop) s :
  f = file (sg_wr s) →
  (∀ s', grown data s s' → Q (Ok tt) s') →
  (∀ e x s', faults s ≠ [] → grown x s s' → Q (Err e) s') →
  wp (sys (write_all f data)) Q s.
Proof.
  intros -> HO HE. apply wp_sys, wp_write_all.
  - apply HO. split; [done | split; [done | apply popw_faults]].
  - intros e x Hf. apply (HE e x); [done |]. split; [done | split; [done | apply popw_faults]].
Qed.

Lemma lookup_alter_grow (f : bytes → bytes) (p q : SegDir * Z) (m : gmap (SegDir * Z) bytes) b :
  alter f p m !! q = Some b → ∃ b', m !! q = Some b'.
Proof.
  destruct (decide (p = q)) as [-> | Hn]; [| rewrite lookup_alter_ne by done; eauto].
  rewrite lookup_alter_eq. destruct (m !! q); [eauto | done].
Qed.

Lemma grown_base x s s' : wr_base s → grown x s s' → wr_base s'.
Proof.
  intros [Hfile Hfresh Huniq Hdirs Hid] (Hf & Hc & _). unfold core in Hc.
  injection Hc as Hfo Had Hwi Hfi Hl _.
  split; rewrite ?Hf, ?Hfo, ?Had, ?Hwi, ?Hfi; try done.
  - intros d id b. rewrite lookup_alter. case_decide as Hd; [| apply Hfresh].
    rewrite Hfile in Hd. injection Hd as <- <-. lia.
  - intros id b1 b2 [b1' H1]%lookup_alter_grow [b2' H2]%lookup_alter_grow. by eapply Huniq.
  - intros id b [b' H]%lookup_alter_grow. by eapply Hdirs.
Qed.

Lemma frame_appended n s :
  files {| sg_world := sg_world s; sg_wr := wr_appended n (sg_wr s) |} = files s.
Proof. done. Qed.

(** The appended record is in the active file, where the scan of the file
    ends with it. *)
Lemma grown_record key stored logical flags s s' :
  record_fits key stored logical flags → wr_ok s →
  grown (encode_record crc32 key stored logical flags) s s' →
  let w := sg_wr s in
  let s2 := {| sg_world := sg_world s';
               sg_wr := wr_appended (Z.of_nat HEADER_LEN + blen key + blen stored) (sg_wr s') |} in
  wr_ok s2 ∧
  reach crc32 (files s2) (active_dir w)
    (record_at crc32 (wr_seg_id w) (len w) key stored logical flags).
Proof.
  intros Hfit [HB (b & Hb & Hl & Hs)] HG w s2.
  pose proof (grown_base _ _ _ HB HG) as HB'.
  destruct HG as (Hf & Hc & _). unfold core in Hc. injection Hc as Hfo Had Hwi Hfi Hlen _.
  set (x := encode_record crc32 key stored logical flags) in *.
  assert (files s2 !! file w = Some (b ++ x)) as Hb2.
  { unfold s2, files in *. simpl. rewrite Hf, lookup_alter_eq. unfold w. by rewrite Hb. }
  assert (blen x = Z.of_nat HEADER_LEN + blen key + blen stored) as Hx.
  { unfold blen, x. rewrite length_encode_record. lia. }
  assert (scan crc32 (wr_seg_id w) 0 (b ++ x) =
    ((scan crc32 (wr_seg_id w) 0 b).1 ++
       [record_at crc32 (wr_seg_id w) (len w) key stored logical flags],
     blen b + blen x)) as Hscan.
  { rewrite scan_app by (by rewrite Z.add_0_l). rewrite Z.add_0_l.
    rewrite <-(app_nil_r x). unfold x. rewrite scan_one by done. rewrite app_nil_r.
    unfold w. rewrite <-Hl. done. }
  split; [split |].
  - destruct HB' as [A1 A2 A3 A4 A5]. split; done.
  - exists (b ++ x). unfold s2 at 2 3 4. simpl. rewrite Hfi. split; [done |].
    rewrite Hlen, Hwi. fold w. rewrite Hscan, !blen_app. simpl. split; [| done]. unfold w in *. lia.
  - exists (b ++ x). cbn [record_at recovered r_addr seg_id].
    rewrite Hscan. split.
    + pose proof (wb_file _ HB) as Hfile. fold w in Hfile. by rewrite <-Hfile.
    + apply elem_of_app. right. by left.
Qed.

Lemma wp_write_record key stored logical flags (Q : result IoError (RecordAddr * Z) → segst → Prop) s :
  record_fits key stored logical flags → wr_ok s →
  (∀ s' rec, wr_ok s' → sstep s s' → wr_seg_id (sg_wr s') = wr_seg_id (sg_wr s) →
     file (sg_wr s') = file (sg_wr s) →
     rec = record_at crc32 (wr_seg_id (sg_wr s)) (len (sg_wr s)) key stored logical flags →
     reach crc32 (files s') (active_dir (sg_wr s)) rec →
     Q (Ok (r_addr rec, r_crc rec)) s') →
  (∀ e s', faults s ≠ [] → wr_base s' → sstep s s' →
     wr_seg_id (sg_wr s') = wr_seg_id (sg_wr s) → Q (Err e) s') →
  wp (write_record crc32 key stored logical flags) Q s.
Proof.
  intros Hfit HW HO HE. pose proof (proj1 HW) as HB. unfold write_record. cbv zeta. wp_steps.
  assert (∀ s1 x, grown x s s1 → file (sg_wr s1) = file (sg_wr s) ∧
            wr_seg_id (sg_wr s1) = wr_seg_id (sg_wr s)) as Hg.
  { intros s1 x (_ & Hc & _). unfold core in Hc. by simplify_eq. }
  assert (∀ e x s1, faults s ≠ [] → grown x s s1 → Q (Err e) s1) as HE'.
  { intros e x s1 Hf G. apply HE; eauto using grown_base, grown_sstep. by eapply Hg. }
  assert (∀ s1 x, grown x s s1 → faults s1 ≠ [] → faults s ≠ []) as Hfl.
  { intros s1 x (_ & _ & H) H1 H0. auto. }
  apply wp_write_bytes; [done | intros s1 G1 | eauto]. wp_step.
  apply wp_write_bytes; [symmetry; by eapply Hg | intros s2 G2 |];
    [| intros e x s2 Hf G2; eapply HE'; [by eauto | by eapply grown_trans]].
  pose proof (grown_trans _ _ _ _ _ G1 G2) as G12. wp_step.
  apply wp_write_bytes; [symmetry; by eapply Hg | intros s3 G3 |];
    [| intros e x s3 Hf G3; eapply HE'; [by eauto | by eapply grown_trans]].
  pose proof (grown_trans _ _ _ _ _ G12 G3) as G. rewrite <-app_assoc in G.
  change (grown (encode_record crc32 key stored logical flags) s s3) in G.
  unfold upd_wr. wp_steps.
  destruct (grown_record _ _ _ _ _ _ Hfit HW G) as [HW4 HR].
  set (rec := record_at crc32 (wr_seg_id (sg_wr s)) (len (sg_wr s)) key stored logical flags) in *.
  set (s4 := {| sg_world := _; sg_wr := _ |}) in *.
  assert (sstep s s4) as S4.
  { destruct (grown_sstep _ _ _ HB G). by split. }
  assert (file (sg_wr s4) = file (sg_wr s) ∧ wr_seg_id (sg_wr s4) = wr_seg_id (sg_wr s))
    as [Hfile Hid] by (exact (Hg _ _ G)).
  destruct (_ <=? _).
  - apply wp_flush.
    + intros s5 F5. wp_step. destruct (frame_core _ _ F5) as (_ & _ & Hw5 & Hf5 & _).
      apply (HO _ rec); [by eapply wr_ok_frame | | congruence | congruence | done |].
      * transitivity s4; [done | by apply frame_sstep].
      * destruct F5 as (Hfs5 & _). by rewrite Hfs5.
    + intros e s5 Hf F5. destruct (frame_core _ _ F5) as (_ & _ & Hw5 & _).
      apply HE; [| by eapply wr_base_frame; [| apply HW4] | | congruence].
      * intros H. apply Hf. by apply S4.
      * transitivity s4; [done | by apply frame_sstep].
  - wp_steps. by apply (HO _ rec).
Qed.

(** What a successful append gives: the record is reachable in the active
    file, at the address returned. *)
Record appended (key stored : bytes) (logical flags : Z) (s s' : segst) (rec : RecoveredRecord)
    : Prop := {
  ap_ok : wr_ok s';
  ap_step : sstep s s';
  ap_id : wr_seg_id (sg_wr s) <= wr_seg_id (sg_wr s') <= wr_seg_id (sg_wr s) + 1;
  ap_reach : reach crc32 (files s') (file (sg_wr s')).1 rec;
  ap_key : r_key rec = key;
  ap_stored : r_stored rec = stored;
  ap_flags : r_flags rec = flags;
  ap_logical : r_logical_len rec = logical;
  ap_crc : r_crc rec = crc32 (key ++ stored);
  ap_addr : r_addr rec = {| seg_id := wr_seg_id (sg_wr s'); offset := offset (r_addr rec);
                            stored_len := blen stored; key_len := blen key |};
  ap_offset : 0 <= offset (r_addr rec) < Z.max 1 (max_size (sg_wr s));
}.

(** [append_with_flags] without failover, or without faults: an [Ok] leaves
    the record reachable at the returned address and the writer in step with
    its file; an [Err] leaves everything already written in place. *)
Lemma wp_append key stored logical flags (Q : result IoError (RecordAddr * Z) → segst → Prop) s :
  record_fits key stored logical flags → wr_ok s → calm s → next_free s →
  (∀ s' rec, appended key stored logical flags s s' rec → Q (Ok (r_addr rec, r_crc rec)) s') →
  (∀ e s', faults s ≠ [] → wr_base s' → sstep s s' →
     wr_seg_id (sg_wr s) <= wr_seg_id (sg_wr s') <= wr_seg_id (sg_wr s) + 1 → Q (Err e) s') →
  wp (append_with_flags crc32 key stored logical flags) Q s.
Proof.
  intros Hfit HW Hcalm Hfree HO HE. pose proof (proj1 HW) as HB.
  unfold append_with_flags. do 3 wp_step.
  (* the write, from the state after a possible rotation *)
  assert (∀ s1, wr_ok s1 → sstep s s1 →
    wr_seg_id (sg_wr s) <= wr_seg_id (sg_wr s1) <= wr_seg_id (sg_wr s) + 1 →
    len (sg_wr s1) < Z.max 1 (max_size (sg_wr s)) →
    wp (mcatch (write_record crc32 key stored logical flags) (λ r,
      mthen mget (λ s, match r with
        | Ok v => mret v
        | Err e => if failover (sg_wr s) && negb (failed_over (sg_wr s))
                   then mthen failover_rotate (λ _, write_record crc32 key stored logical flags)
                   else mthrow e
        end))) Q s1) as Hwrite.
  { intros s1 HW1 S1 Hid1 Hlen1. wp_step. apply wp_write_record; try done.
    - intros s2 rec HW2 S2 Hid2 Hfile2 Hrec HR. wp_steps. pose proof (proj1 HW1) as HB1.
      apply (HO _ rec). subst rec. destruct Hfit as (Hk & Hst & _).
      pose proof (blen_nonneg key). pose proof (blen_nonneg stored).
      split; try done; [by transitivity s1 | lia | | |].
      + by rewrite Hfile2, (wb_file _ HB1).
      + unfold record_at, recovered. simpl.
        rewrite !wrap_small by (unfold blen in *; lia). unfold blen. f_equal. lia.
      + split; [| done]. destruct HW1 as [_ (b & _ & Hl & _)].
        pose proof (blen_nonneg b). simpl. lia.
    - intros e s2 Hf HB2 S2 Hid2. wp_steps.
      assert (faults s ≠ []) as Hf' by (intros H; by apply Hf, S1).
      destruct Hcalm as [Hno | Hno]; [| done].
      assert (failover (sg_wr s2) = false) as ->.
      { pose proof (ss_cfg _ _ S1). pose proof (ss_cfg _ _ S2). unfold wcfg in *. congruence. }
      simpl. wp_step. apply HE; [done | done | by transitivity s1 | lia]. }
  destruct (Z.leb_spec (max_size (sg_wr s)) (len (sg_wr s))).
  - apply wp_rotate; try done.
    + intros s1 HW1 S1 Hid1 Hl1. apply Hwrite; [done | done | lia | lia].
    + intros e s1 Hf HB1 _ S1 Hid1. apply HE; [done | done | done | lia].
  - wp_step. apply Hwrite; [done | done | lia | lia].
Qed.
End Writer.
