(* ===== verification/Engine.v ===== *)
(** * The engine of one disk (crates/ozd-engine/src/lib.rs)

    [DiskEngine]: two-tier storage of one disk. Bodies go to pack segments
    ([Segment]); the index is four ordered tables: "addr" (key -> encoded
    address row), "inline" (key -> small body), "meta" (discard counters per
    segment) and "cursor". Every operation of the engine is a definition with
    the order of effects of the code: body into the segment first, index row
    second; durability of the moved copies before the victim of a garbage
    collection is unlinked.

    Third-party code is the class [EngineEnv]: CRC-32, zstd, the texts of
    error messages and the order in which a directory is listed. A write
    transaction of the index is atomic: it takes one entry of [db_faults], and
    a fault is an [Err] without an effect. Read transactions do not fail. *)

From Stdlib Require Import ZArith Lia Strings.Byte SpecFloat.
From stdpp Require Import base list gmap strings pretty sorting.
From S2P Require Import Prelude Domain Table Piece Segment.
Open Scope Z_scope.

Class EngineEnv := {
  crc32 : bytes → Z;
  zstd_compress : bytes → option bytes;
  (** [zstd::bulk::decompress(data, capacity)] *)
  zstd_decompress : bytes → Z → option bytes;
  io_msg : IoError → string;
  utf8_lossy : bytes → string;
  (** the segment files of a directory, in the order [read_dir] lists them *)
  read_dir : gmap (SegDir * Z) bytes → SegDir → list (Z * bytes);
}.

Class EngineEnvSpec `{!EngineEnv} : Prop := {
  crc32_range : ∀ b, 0 <= crc32 b < 2 ^ 32;
  zstd_round : ∀ d c, zstd_compress d = Some c → zstd_decompress c (blen d) = Some d;
  read_dir_spec : ∀ m d id b, (id, b) ∈ read_dir m d ↔ m !! (d, id) = Some b;
}.

(** ** Index rows *)

Record AddrEntry := {
  ae_addr : RecordAddr;
  ae_crc : Z;
  ae_logical_len : Z;
  ae_flags : Z;
  ae_obj_logical : option Z;
}.
#[global] Instance AddrEntry_eq_dec : EqDecision AddrEntry.
Proof. solve_decision. Defined.

Definition encode_addr (e : AddrEntry) : bytes :=
  le_split 4 (seg_id (ae_addr e)) ++ le_split 8 (offset (ae_addr e)) ++
  le_split 4 (stored_len (ae_addr e)) ++ le_split 2 (key_len (ae_addr e)) ++
  le_split 4 (ae_crc e) ++ le_split 4 (ae_logical_len e) ++ le_split 2 (ae_flags e) ++
  match ae_obj_logical e with Some o => le_split 8 o | None => [] end.

(** 22 bytes = v1, 28 = v2, 36 = v3. *)
Definition decode_addr (v : bytes) : option AddrEntry :=
  if negb (length v =? 22)%nat && negb (length v =? 28)%nat && negb (length v =? 36)%nat
  then None
  else
    let addr := {| seg_id := le_at 0 4 v; offset := le_at 4 8 v;
                   stored_len := le_at 12 4 v; key_len := le_at 16 2 v |} in
    let '(logical, flags) :=
      if (28 <=? length v)%nat then (le_at 22 4 v, le_at 26 2 v) else (stored_len addr, 0) in
    Some {| ae_addr := addr; ae_crc := le_at 18 4 v; ae_logical_len := logical;
            ae_flags := flags;
            ae_obj_logical := if (length v =? 36)%nat then Some (le_at 28 8 v) else None |}.

Inductive Lookup := LInline (b : bytes) | LAddr (e : AddrEntry) | LMissing.

(** ** State *)

Record EngineConfig := {
  segment_max_size : Z;
  inline_min : Z;
  cfg_fsync_items : Z;
  compress_zstd : bool;
  compress_min : Z;
  ballast_bytes : Z;
  failover_path : bool;            (* [Option<PathBuf>] is [Some] *)
  fadvise_dontneed : bool;
}.

Definition EngineConfig_default : EngineConfig :=
  {| segment_max_size := 2 * 1024 * 1024 * 1024; inline_min := 4096; cfg_fsync_items := 256;
     compress_zstd := false; compress_min := 512; ballast_bytes := 0;
     failover_path := false; fadvise_dontneed := false |}.

Section Engine.
Context {T : Type → Type} `{RT : !RedbTable T}.

Record tables := {
  t_addr : T bytes;
  t_inline : T bytes;
  t_meta : T Z;
  t_cursor : T bytes;
}.

Record engine := {
  cfg : EngineConfig;
  tb : tables;
  db_faults : list (option string);
  e_seg : segst;                 (* the disk and [writer] *)
  ballast_file : option Z;       (* length of the ballast file on the disk *)
  ballast_present : bool;
  used_bytes : Z;
  gc_pass_count : Z;
}.

(** ** State updates *)

Definition set_tb (t : tables) (e : engine) : engine :=
  {| cfg := cfg e; tb := t; db_faults := db_faults e; e_seg := e_seg e;
     ballast_file := ballast_file e; ballast_present := ballast_present e;
     used_bytes := used_bytes e; gc_pass_count := gc_pass_count e |}.
Definition set_db_faults (l : list (option string)) (e : engine) : engine :=
  {| cfg := cfg e; tb := tb e; db_faults := l; e_seg := e_seg e;
     ballast_file := ballast_file e; ballast_present := ballast_present e;
     used_bytes := used_bytes e; gc_pass_count := gc_pass_count e |}.
Definition set_e_seg (s : segst) (e : engine) : engine :=
  {| cfg := cfg e; tb := tb e; db_faults := db_faults e; e_seg := s;
     ballast_file := ballast_file e; ballast_present := ballast_present e;
     used_bytes := used_bytes e; gc_pass_count := gc_pass_count e |}.
Definition set_ballast (f : option Z) (p : bool) (e : engine) : engine :=
  {| cfg := cfg e; tb := tb e; db_faults := db_faults e; e_seg := e_seg e;
     ballast_file := f; ballast_present := p;
     used_bytes := used_bytes e; gc_pass_count := gc_pass_count e |}.
Definition set_used (u : Z) (e : engine) : engine :=
  {| cfg := cfg e; tb := tb e; db_faults := db_faults e; e_seg := e_seg e;
     ballast_file := ballast_file e; ballast_present := ballast_present e;
     used_bytes := u; gc_pass_count := gc_pass_count e |}.
Definition set_gc_pass (n : Z) (e : engine) : engine :=
  {| cfg := cfg e; tb := tb e; db_faults := db_faults e; e_seg := e_seg e;
     ballast_file := ballast_file e; ballast_present := ballast_present e;
     used_bytes := used_bytes e; gc_pass_count := n |}.

Definition with_addr (f : T bytes → T bytes) (t : tables) : tables :=
  {| t_addr := f (t_addr t); t_inline := t_inline t; t_meta := t_meta t; t_cursor := t_cursor t |}.
Definition with_inline (f : T bytes → T bytes) (t : tables) : tables :=
  {| t_addr := t_addr t; t_inline := f (t_inline t); t_meta := t_meta t; t_cursor := t_cursor t |}.
Definition with_meta (f : T Z → T Z) (t : tables) : tables :=
  {| t_addr := t_addr t; t_inline := t_inline t; t_meta := f (t_meta t); t_cursor := t_cursor t |}.
Definition with_cursor (f : T bytes → T bytes) (t : tables) : tables :=
  {| t_addr := t_addr t; t_inline := t_inline t; t_meta := t_meta t; t_cursor := f (t_cursor t) |}.

Definition seg_files (e : engine) : gmap (SegDir * Z) bytes := w_seg (sg_world (e_seg e)).

(** [begin_write] .. [commit]: the body [f] on the tables, atomically. *)
Definition write_txn {A} (f : tables → A * tables) : M engine DomainError A := λ e,
  match db_faults e with
  | Some m :: fs => (Err (Io m), set_db_faults fs e)
  | fs => let '(a, t) := f (tb e) in (Ok a, set_tb t (set_db_faults (tail fs) e))
  end.

(** A call of the segment writer, under its lock. *)
Definition on_seg {A} (c : M segst IoError A) : M engine IoError A := λ e,
  let '(r, s) := c (e_seg e) in (r, set_e_seg s e).

Context `{EE : !EngineEnv}.

Definition io_err (e : IoError) : DomainError := Io (io_msg e).

(** ** Reading the index *)

Definition engine_lookup (t : tables) (key : BlockKey) : DomainResult Lookup :=
  match tget (t_inline t) key with
  | Some v => Ok (LInline v)
  | None =>
      match tget (t_addr t) key with
      | None => Ok LMissing
      | Some v =>
          match decode_addr v with
          | Some entry => Ok (LAddr entry)
          | None => Err (Io "bad addr entry")
          end
      end
  end.

Definition seg_dir_of (e : engine) (seg : Z) : SegDir :=
  if decide (is_Some (seg_files e !! (Primary, seg))) then Primary
  else if failover_path (cfg e) && bool_decide (is_Some (seg_files e !! (Failover, seg)))
  then Failover else Primary.

Definition sealed_segments (e : engine) : list (Z * Z) :=
  let active := wr_seg_id (sg_wr (e_seg e)) in
  let dirs := Primary :: (if failover_path (cfg e) then [Failover] else []) in
  concat (map (λ d,
    map (λ x, (x.1, blen x.2)) (filter (λ x, x.1 ≠ active) (read_dir (seg_files e) d))) dirs).

Definition discard_key (seg : Z) : bytes := String.list_byte_of_string ("discard." +:+ pretty seg).

Definition discard_of (t : tables) (seg : Z) : Z := default 0 (tget (t_meta t) (discard_key seg)).

Definition bump_in (seg n : Z) (t : tables) : tables :=
  with_meta (tinsert (discard_key seg) (wrap 64 (discard_of t seg + n))) t.

(** [Some(a) => bump_in(..)] *)
Definition bump_old (old : option bytes) (t : tables) : tables :=
  match old ≫= decode_addr with
  | Some e => bump_in (seg_id (ae_addr e)) (stored_len (ae_addr e)) t
  | None => t
  end.

Definition referenced_segments (t : tables) : gmap Z Z :=
  foldl (λ refs x,
    match decode_addr x.2 with
    | Some e => let s := seg_id (ae_addr e) in <[s := wrap 64 (default 0 (refs !! s) + 1)]> refs
    | None => refs
    end) ∅ (titer (t_addr t)).

(** ** put *)

Definition release_ballast_file : M engine IoError bool := λ e,
  if ballast_bytes (cfg e) =? 0 then (Ok false, e)
  else
    let '(f, w) := next_fault (sg_world (e_seg e)) in
    let e := set_e_seg {| sg_world := w; sg_wr := sg_wr (e_seg e) |} e in
    match f, ballast_file e with
    | None, Some _ => (Ok true, set_ballast None false e)
    | _, _ => (Ok false, e)
    end.

Definition put_inline (key : BlockKey) (data : bytes) : M engine DomainError unit :=
  write_txn (λ t,
    let t := with_inline (tinsert key data) t in
    let old := tget (t_addr t) key in
    let t := with_addr (tremove key) t in
    (tt, bump_old old t)).

(** What is stored and the flags: zstd when it pays. *)
Definition compress_body (c : EngineConfig) (data : bytes) : bytes * Z :=
  if compress_zstd c && (compress_min c <=? blen data) then
    match zstd_compress data with
    | Some z => if blen z <? blen data then (z, FLAG_ZSTD) else (data, 0)
    | None => (data, 0)
    end
  else (data, 0).

Definition append_body (key stored : bytes) (logical flags : Z)
    : M engine DomainError (RecordAddr * Z) :=
  let again := on_seg (append_with_flags crc32 key stored logical flags) in
  (match! again with! first =>
   match first with
   | Ok v => mret v
   | Err e =>
       if bool_decide (e = EStorageFull) then
         match! release_ballast_file with! released =>
         match released with
         | Ok true => mmap_err io_err again
         | _ => mthrow (io_err e)
         end
       else mthrow (io_err e)
   end)%rust.

Definition index_body (key : BlockKey) (entry : AddrEntry) : M engine DomainError unit :=
  write_txn (λ t,
    let old := tget (t_addr t) key in
    let t := with_addr (tinsert key (encode_addr entry)) t in
    let t := with_inline (tremove key) t in
    (tt, bump_old old t)).

Definition put_impl (key : BlockKey) (data : bytes) (obj : option Z)
    : M engine DomainError unit :=
  (let! e := mget in
   if bool_decide (obj = None) && (wrap 32 (blen data) <? inline_min (cfg e))
   then put_inline key data
   else
     let '(stored, flags) := compress_body (cfg e) data in
     let logical := wrap 32 (blen data) in
     let! r := append_body key stored logical flags in
     do! mmodify (λ e, set_used (wrap 64 (used_bytes e + blen stored)) e);
     index_body key {| ae_addr := r.1; ae_crc := r.2; ae_logical_len := logical;
                       ae_flags := flags; ae_obj_logical := obj |})%rust.

Definition engine_put (key : BlockKey) (data : bytes) := put_impl key data None.
Definition engine_put_meta (key : BlockKey) (data : bytes) (obj : option Z) := put_impl key data obj.

(** ** get *)

(** zstd after the CRC check. *)
Definition open_body (entry : AddrEntry) (stored : bytes) : DomainResult bytes :=
  if negb (Z.land (ae_flags entry) FLAG_ZSTD =? 0) then
    match zstd_decompress stored (ae_logical_len entry) with
    | None => Err (IntegrityViolation "zstd: error")
    | Some out =>
        if blen out =? ae_logical_len entry then Ok out
        else Err (IntegrityViolation "zstd: logical length mismatch")
    end
  else Ok stored.

(** The two attempts of [get]. Garbage collection may run between the index
    lookup and the read of the record: the [n]-th look at the disk sees the
    engine [view n]. *)
Fixpoint get_attempts (attempts : nat) (n : nat) (view : nat → engine) (key : BlockKey)
    (prev : option AddrEntry) : DomainResult bytes :=
  match attempts with
  | O => Err (Io "record unreadable after re-lookup")
  | S attempts =>
      match engine_lookup (tb (view n)) key with
      | Err e => Err e
      | Ok (LInline v) => Ok v
      | Ok LMissing => Err NotFound
      | Ok (LAddr entry) =>
          if bool_decide (prev = Some entry) then Err (Io "record unreadable after re-lookup")
          else
            let e := view (S n) in
            match read_record crc32 (seg_files e) (seg_dir_of e (seg_id (ae_addr entry)))
                    (ae_addr entry) (ae_crc entry) with
            | Ok stored => open_body entry stored
            | Err EInvalidData => Err (Corrupt (utf8_lossy key +:+ ": " +:+ io_msg EInvalidData))
            | Err _ => get_attempts attempts (S (S n)) view key (Some entry)
            end
      end
  end.

Definition get_view (view : nat → engine) (key : BlockKey) : DomainResult bytes :=
  get_attempts 2 0 view key None.

Definition engine_get (e : engine) (key : BlockKey) : DomainResult bytes := get_view (λ _, e) key.

Definition engine_has (e : engine) (key : BlockKey) : DomainResult bool :=
  Ok (match tget (t_inline (tb e)) key with
      | Some _ => true
      | None => bool_decide (is_Some (tget (t_addr (tb e)) key))
      end).

Definition engine_stat (e : engine) (key : BlockKey) : DomainResult Z :=
  match engine_lookup (tb e) key with
  | Err er => Err er
  | Ok (LInline v) => Ok (blen v)
  | Ok (LAddr entry) => Ok (ae_logical_len entry)
  | Ok LMissing => Err NotFound
  end.

Definition engine_stat_obj (e : engine) (key : BlockKey) : DomainResult (Z * option Z) :=
  match engine_lookup (tb e) key with
  | Err er => Err er
  | Ok (LInline v) => Ok (blen v, None)
  | Ok (LAddr entry) => Ok (ae_logical_len entry, ae_obj_logical entry)
  | Ok LMissing => Err NotFound
  end.

(** ** delete, era bit, cursors *)

Definition engine_delete (key : BlockKey) : M engine DomainError unit :=
  write_txn (λ t,
    let old := tget (t_addr t) key in
    let t := with_addr (tremove key) t in
    let t := with_inline (tremove key) t in
    (tt, bump_old old t)).

Definition set_obj_logical (key : BlockKey) (obj : Z) : M engine DomainError bool :=
  write_txn (λ t,
    match tget (t_addr t) key ≫= decode_addr with
    | Some e =>
        if bool_decide (ae_obj_logical e ≠ Some obj) then
          (true, with_addr (tinsert key (encode_addr
             {| ae_addr := ae_addr e; ae_crc := ae_crc e; ae_logical_len := ae_logical_len e;
                ae_flags := ae_flags e; ae_obj_logical := Some obj |})) t)
        else (false, t)
    | None => (false, t)
    end).

Definition save_cursor (name : string) (pos : option BlockKey) : M engine DomainError unit :=
  write_txn (λ t,
    (tt, with_cursor (match pos with
                      | Some k => tinsert (String.list_byte_of_string name) k
                      | None => tremove (String.list_byte_of_string name)
                      end) t)).

Definition load_cursor (e : engine) (name : string) : DomainResult (option BlockKey) :=
  Ok (tget (t_cursor (tb e)) (String.list_byte_of_string name)).

Definition ballast_released (e : engine) : bool :=
  (0 <? ballast_bytes (cfg e)) && negb (ballast_present e).

Definition release_ballast : M engine DomainError bool := mmap_err io_err release_ballast_file.

Definition engine_flush : M engine DomainError unit := mmap_err io_err (on_seg flush).

Definition usage (statvfs : option (Z * Z * Z)) : DomainResult Capacity :=
  Ok {| total_bytes := match statvfs with Some (bs, bl, _) => wrap 64 (bl * bs) | None => 0 end;
        free_bytes := match statvfs with Some (bs, _, ba) => wrap 64 (ba * bs) | None => 0 end |}.

Definition data_bytes (e : engine) : DomainResult Z :=
  Ok (wrap 64 (foldr Z.add 0 (map snd (sealed_segments e)) + len (sg_wr (e_seg e)))).

(** ** list *)

(** The size a listing shows: the object's for a piece, else the body's. *)
Definition row_size (v : bytes) : Z :=
  match decode_addr v with
  | Some e => default (ae_logical_len e) (ae_obj_logical e)
  | None => 0
  end.

(** The loop over the addr range: [push] answers whether to go on. *)
Fixpoint list_addr (prefix : bytes) (limit : nat) (rows : list (bytes * bytes))
    (out : list (BlockKey * Z)) : list (BlockKey * Z) :=
  match rows with
  | [] => out
  | (k, v) :: rows =>
      if starts_with prefix k then
        let out := out ++ [(k, row_size v)] in
        if (length out <? limit)%nat then list_addr prefix limit rows out else out
      else out
  end.

Fixpoint list_inline (prefix : bytes) (rows : list (bytes * bytes)) : list (BlockKey * Z) :=
  match rows with
  | [] => []
  | (k, v) :: rows =>
      if starts_with prefix k then (k, blen v) :: list_inline prefix rows else []
  end.

(** [derive(Ord)] of the pairs [(BlockKey, u64)]. *)
Definition pair_le (x y : BlockKey * Z) : Prop :=
  bytes_lt x.1 y.1 ∨ (x.1 = y.1 ∧ x.2 <= y.2).
#[global] Instance pair_le_dec x y : Decision (pair_le x y).
Proof. unfold pair_le. apply _. Defined.

(** [dedup_by(|a, b| a.0 == b.0)]: the first of a run is kept. *)
Fixpoint dedup_after (prev : BlockKey) (l : list (BlockKey * Z)) : list (BlockKey * Z) :=
  match l with
  | [] => []
  | y :: l => if bool_decide (y.1 = prev) then dedup_after prev l else y :: dedup_after y.1 l
  end.
Definition dedup_key (l : list (BlockKey * Z)) : list (BlockKey * Z) :=
  match l with [] => [] | x :: l => x :: dedup_after x.1 l end.

Definition list_start (prefix : bytes) (after : option BlockKey) : bytes :=
  match after with Some k => k ++ [x00] | None => prefix end.

Definition engine_list (e : engine) (prefix : bytes) (after : option BlockKey) (limit : nat)
    : DomainResult (list (BlockKey * Z)) :=
  let start := list_start prefix after in
  let out := list_addr prefix limit (trange (t_addr (tb e)) start) [] ++
             list_inline prefix (trange (t_inline (tb e)) start) in
  Ok (take limit (dedup_key (merge_sort pair_le out))).

(** ** scrub *)

Definition scrub_key (e : engine) (s : ScrubStep) (key : BlockKey) : ScrubStep :=
  match engine_get e key with
  | Ok d => {| ss_checked := wrap 64 (ss_checked s + 1); ss_bytes := wrap 64 (ss_bytes s + blen d);
               ss_corrupt := ss_corrupt s; ss_last_key := ss_last_key s; ss_done := ss_done s |}
  | Err NotFound => s
  | Err _ => {| ss_checked := ss_checked s; ss_bytes := ss_bytes s;
                ss_corrupt := ss_corrupt s ++ [key]; ss_last_key := ss_last_key s;
                ss_done := ss_done s |}
  end.

Definition scrub_step (e : engine) (after : option BlockKey) (limit : nat)
    : DomainResult ScrubStep :=
  match engine_list e [] after limit with
  | Err er => Err er
  | Ok page =>
      let keys := map fst page in
      let s := foldl (scrub_key e)
                 {| ss_checked := 0; ss_bytes := 0; ss_corrupt := []; ss_last_key := None;
                    ss_done := (length keys <? limit)%nat |} keys in
      Ok {| ss_checked := ss_checked s; ss_bytes := ss_bytes s; ss_corrupt := ss_corrupt s;
            ss_last_key := last keys; ss_done := ss_done s |}
  end.

(** ** Structure check *)

(** [BTreeMap] iteration in key order. *)
Definition seg_le (x y : Z * Z) : Prop := x.1 <= y.1.
#[global] Instance seg_le_dec x y : Decision (seg_le x y).
Proof. unfold seg_le. apply _. Defined.
Definition refs_iter (m : gmap Z Z) : list (Z * Z) := merge_sort seg_le (map_to_list m).
Definition set_iter (m : gset Z) : list Z := merge_sort Z.le (elements m).

Definition verify_structure (e : engine) : DomainResult StructureReport :=
  let refs := referenced_segments (tb e) in
  let active := wr_seg_id (sg_wr (e_seg e)) in
  let on_disk : gset Z := {[active]} ∪ list_to_set (map fst (sealed_segments e)) in
  let missing := filter (λ x, x.1 ∉ on_disk) (refs_iter refs) in
  Ok {| segments_referenced := size refs;
        segments_missing := map fst missing;
        keys_at_risk := wrap 64 (foldr Z.add 0 (map snd missing));
        orphan_segments :=
          filter (λ s, s ≠ active ∧ refs !! s = None) (set_iter on_disk) |}.
End Engine.
Arguments tables : clear implicits.
Arguments engine : clear implicits.
