(* ===== verification/EngineGc.v ===== *)
(** * Garbage collection, eviction and recovery of the engine
    (crates/ozd-engine/src/lib.rs)

    [gc_once] moves the live records of the sealed segment with the most
    discarded bytes into the active one and unlinks it ([gc_pass] is its code,
    over any way to make its steps; [gc_moments] are the engines it passes), [sweep_orphans]
    unlinks sealed segments without an index row, [evict_oldest_segment] is
    the cache's eviction, and [engine_open] opens a disk and puts the records
    of the unflushed tail back into the index. *)

From Stdlib Require Import ZArith Lia Strings.Byte.
From stdpp Require Import base list gmap strings pretty sorting.
From S2P Require Import Prelude F64 Domain Table Piece Segment Engine.
Open Scope Z_scope.

Section Gc.
Context {T : Type → Type} `{RT : !RedbTable T} `{EE : !EngineEnv}.

(** ** gc_once *)

(** The index still points at this record. *)
Definition points_at (l : DomainResult Lookup) (a : RecordAddr) : bool :=
  match l with
  | Ok (LAddr e) => (seg_id (ae_addr e) =? seg_id a) && (offset (ae_addr e) =? offset a)
  | _ => false
  end.

(** The compare-and-set of the index row, in one transaction. *)
Definition cas_row (rec : RecoveredRecord) (new_addr : RecordAddr) (new_crc : Z)
    : M (engine T) DomainError bool :=
  write_txn (λ t,
    match tget (t_addr t) (r_key rec) ≫= decode_addr with
    | Some e =>
        if (seg_id (ae_addr e) =? seg_id (r_addr rec)) && (offset (ae_addr e) =? offset (r_addr rec))
        then
          (true, with_addr (tinsert (r_key rec) (encode_addr
             {| ae_addr := new_addr; ae_crc := new_crc; ae_logical_len := r_logical_len rec;
                ae_flags := r_flags rec; ae_obj_logical := ae_obj_logical e |})) t)
        else (false, t)
    | None => (false, t)
    end).

(** The first sealed segment with the most discarded bytes: (id, size, discard). *)
Definition gc_victim (e : engine T) : option (Z * Z * Z) :=
  foldl (λ v x,
    let d := discard_of (tb e) x.1 in
    if d =? 0 then v
    else match v with
         | Some (_, _, vd) => if vd <? d then Some (x.1, x.2, d) else v
         | None => Some (x.1, x.2, d)
         end) None (sealed_segments e).

Definition drop_discard (ids : list Z) (t : tables T) : tables T :=
  foldl (λ t id, with_meta (tremove (discard_key id)) t) t ids.

(** [vsize > 0 && (vdiscard as f64) < discard_ratio * (vsize as f64)] *)
Definition below_ratio (ratio : f64) (vsize vdiscard : Z) : bool :=
  (0 <? vsize) && f64_lt (f64_of_Z vdiscard) (f64_mul ratio (f64_of_Z vsize)).

Definition sub_used (n : Z) (e : engine T) : engine T := set_used (used_bytes e - Z.min n (used_bytes e)) e.

(** The pass calls the engine through [act]: each call is one atomic step, a
    look at the index, a call of the segment store or a transaction. *)
Section Pass.
Context {St : Type} (act : ∀ X A : Type, M (engine T) X A → M St X A).
Local Abbreviation atomic c := (act _ _ c).

(** The callback of the victim's scan; it counts the moved records and
    collects the copies that lost the race. *)
Definition gc_record (acc : nat * list (Z * Z)) (rec : RecoveredRecord)
    : M St IoError (nat * list (Z * Z)) :=
  (let! e := atomic mget in
   if points_at (engine_lookup (tb e) (r_key rec)) (r_addr rec) then
     let! n := atomic (on_seg (append_with_flags crc32 (r_key rec) (r_stored rec)
                         (r_logical_len rec) (r_flags rec))) in
     match! atomic (cas_row rec n.1 n.2) with! cas =>
     match cas with
     | Ok true => mret (S acc.1, acc.2)
     | Ok false => mret (acc.1, acc.2 ++ [(seg_id n.1, stored_len n.1)])
     | Err _ => mthrow EOther
     end
   else mret acc)%rust.

Definition sweep_orphan (refs : gmap Z Z) (acc : GcReport * list Z) (x : Z * Z)
    : M St DomainError (GcReport * list Z) :=
  (match refs !! x.1 with
   | Some _ => mret acc
   | None =>
       let! e := atomic mget in
       match! atomic (on_seg (sys (remove_file (seg_dir_of e x.1, x.1)))) with! r =>
       match r with
       | Ok _ =>
           mret ({| victim_seg := victim_seg acc.1; live_moved := live_moved acc.1;
                    reclaimed_bytes := reclaimed_bytes acc.1;
                    orphans_removed := S (orphans_removed acc.1);
                    orphan_bytes := wrap 64 (orphan_bytes acc.1 + x.2) |}, acc.2 ++ [x.1])
       | Err _ => mret acc
       end
   end)%rust.

Definition sweep_orphans (report : GcReport) : M St DomainError GcReport :=
  (let! e := atomic mget in
   let refs := referenced_segments (tb e) in
   let! r := mfold (sweep_orphan refs) (report, []) (sealed_segments e) in
   do! (match r.2 with
        | [] => mret tt
        | ids => atomic (write_txn (λ t, (tt, drop_discard ids t)))
        end);
   mret r.1)%rust.

(** Scan, account the lost races, flush the copies, unlink, drop the counter. *)
Definition gc_rewrite (vid vsize : Z) : M St DomainError nat :=
  (let! e := atomic mget in
   let vdir := seg_dir_of e vid in
   let! r := mmap_err io_err (scan_segment crc32 (seg_files e) vdir vid id gc_record (0%nat, [])) in
   do! (match r.2 with
        | [] => mret tt
        | l => atomic (write_txn (λ t, (tt, foldl (λ t x, bump_in x.1 x.2 t) t l)))
        end);
   do! mmap_err io_err (atomic (on_seg flush));
   do! mmap_err io_err (atomic (on_seg (sys (remove_file (vdir, vid)))));
   do! atomic (write_txn (λ t, (tt, drop_discard [vid] t)));
   do! atomic (mmodify (sub_used vsize));
   mret r.1)%rust.

Definition gc_pass (ratio : f64) : M St DomainError GcReport :=
  (let! e := atomic mget in
   let pass := gc_pass_count e in
   do! atomic (mmodify (set_gc_pass (wrap 32 (pass + 1))));
   let finish report := if pass mod 5 =? 0 then sweep_orphans report else mret report in
   match gc_victim e with
   | None => finish GcReport_default
   | Some (vid, vsize, vdiscard) =>
       if below_ratio ratio vsize vdiscard then finish GcReport_default
       else
         let! moved := gc_rewrite vid vsize in
         finish {| victim_seg := Some vid; live_moved := moved; reclaimed_bytes := vsize;
                   orphans_removed := 0; orphan_bytes := 0 |}
   end)%rust.
End Pass.

Definition gc_once (ratio : f64) : M (engine T) DomainError GcReport := gc_pass (λ _ _ c, c) ratio.

(** *** The moments of a pass *)

(** A call that leaves the engine behind it on record. *)
Definition witnessed (X A : Type) (c : M (engine T) X A) : M (engine T * list (engine T)) X A := λ s,
  let r := c s.1 in (r.1, (r.2, s.2 ++ [r.2])).

(** The engine before the pass and after each of its steps. *)
Definition gc_moments (ratio : f64) (e : engine T) : list (engine T) := (gc_pass witnessed ratio (e, [e])).2.2.

(** ** Eviction *)

(** [min_by_key]: the first of the least ids. *)
Definition oldest (l : list (Z * Z)) : option (Z * Z) :=
  foldl (λ v x, match v with
                | Some y => if x.1 <? y.1 then Some x else v
                | None => Some x
                end) None l.

Definition evict_oldest_segment : M (engine T) DomainError (Z * nat) :=
  (let! e := mget in
   match oldest (sealed_segments e) with
   | None => mret (0, 0%nat)
   | Some (vid, vsize) =>
       let vdir := seg_dir_of e vid in
       let! victims := mmap_err io_err (scan_segment crc32 (seg_files e) vdir vid id (λ acc rec,
         let! e := mget in
         mret (if points_at (engine_lookup (tb e) (r_key rec)) (r_addr rec)
               then acc ++ [r_key rec] else acc)) []) in
       do! write_txn (λ t,
         let t := foldl (λ t k, with_addr (tremove k) t) t victims in
         (tt, drop_discard [vid] t));
       do! mmap_err io_err (on_seg (sys (remove_file (vdir, vid))));
       do! mmodify (sub_used vsize);
       mret (vsize, length victims)
   end)%rust.

(** ** Opening a disk *)

(** What the disk holds before [open]. *)
Record disk := {
  d_tb : tables T;
  d_db_faults : list (option string);
  d_world : world;
  d_ballast : option Z;
}.

Definition set_d_tb (t : tables T) (d : disk) : disk :=
  {| d_tb := t; d_db_faults := d_db_faults d; d_world := d_world d; d_ballast := d_ballast d |}.
Definition set_d_db_faults (l : list (option string)) (d : disk) : disk :=
  {| d_tb := d_tb d; d_db_faults := l; d_world := d_world d; d_ballast := d_ballast d |}.
Definition set_d_world (w : world) (d : disk) : disk :=
  {| d_tb := d_tb d; d_db_faults := d_db_faults d; d_world := w; d_ballast := d_ballast d |}.
Definition set_d_ballast (b : option Z) (d : disk) : disk :=
  {| d_tb := d_tb d; d_db_faults := d_db_faults d; d_world := d_world d; d_ballast := b |}.

Definition disk_sys {A} (c : M world IoError A) : M disk IoError A := λ d,
  let '(r, w) := c (d_world d) in (r, set_d_world w d).

Definition disk_txn (f : tables T → tables T) : M disk DomainError unit := λ d,
  match d_db_faults d with
  | Some m :: fs => (Err (Io m), set_d_db_faults fs d)
  | fs => (Ok tt, set_d_tb (f (d_tb d)) (set_d_db_faults (tail fs) d))
  end.

(** A call on the ballast file with the effect [eff]. *)
Definition ballast_call (eff : option Z → option Z) : M disk IoError unit := λ d,
  match next_fault (d_world d) with
  | (None, w) => (Ok tt, set_d_ballast (eff (d_ballast d)) (set_d_world w d))
  | (Some f, w) => (Err (f_err f), set_d_world w d)
  end.

Definition ballast_chunk : Z := 2 ^ 20.

(** The write loop over chunks of 1 MiB: only the length of the
    incompressible stream matters. [div_ceil left ballast_chunk] rounds are enough. *)
Fixpoint fill_ballast (fuel : nat) (left : Z) : M disk IoError unit :=
  match fuel with
  | O => mret tt
  | S fuel =>
      if 0 <? left then
        let n := Z.min left ballast_chunk in
        mthen (ballast_call (λ b, Some (default 0 b + n))) (λ _, fill_ballast fuel (left - n))
      else mret tt
  end.

Definition ensure_ballast (c : EngineConfig) (free : option Z) : M disk DomainError bool :=
  (let! d := mget in
   let rm : M disk DomainError unit :=
     match! ballast_call (λ _, None) with! _ => mret tt in
   if ballast_bytes c =? 0 then do! rm; mret false
   else if bool_decide (d_ballast d = Some (ballast_bytes c)) then mret true
   else
     do! (match d_ballast d with Some _ => rm | None => mret tt end);
     if default 0 free <? Z.min (ballast_bytes c * 2) (2 ^ 64 - 1) then mret false
     else
       match! (do! ballast_call (λ _, Some 0);
               do! fill_ballast (Z.to_nat (div_ceil (ballast_bytes c) ballast_chunk)) (ballast_bytes c);
               ballast_call id) with! r =>
       match r with
       | Ok _ => mret true
       | Err _ => do! rm; mret false
       end)%rust.

(** The row of a recovered record: the era bit comes from the piece envelope. *)
Definition recovered_entry (r : RecoveredRecord) : AddrEntry :=
  let raw := if negb (Z.land (r_flags r) FLAG_ZSTD =? 0)
             then zstd_decompress (r_stored r) (r_logical_len r)
             else Some (r_stored r) in
  {| ae_addr := r_addr r; ae_crc := r_crc r; ae_logical_len := r_logical_len r;
     ae_flags := r_flags r;
     ae_obj_logical := ph_logical_len <$> (raw ≫= parse_piece_header) |}.

Definition reindex (rs : list RecoveredRecord) (t : tables T) : tables T :=
  foldl (λ t r, with_addr (tinsert (r_key r) (encode_addr (recovered_entry r))) t) t rs.

(** [DiskEngine::open]; [free] is [fs_free_bytes(data_path)]. *)
Definition engine_open (c : EngineConfig) (free : option Z) : M disk DomainError (engine T) :=
  (do! mmap_err io_err (disk_sys (create_dir_all Primary));
   do! disk_txn id;
   let! r := mmap_err io_err (disk_sys (open crc32 (failover_path c) (segment_max_size c)
                                          (cfg_fsync_items c) (fadvise_dontneed c))) in
   let! ballast := ensure_ballast c free in
   do! (match r.2 with [] => mret tt | rs => disk_txn (reindex rs) end);
   let! d := mget in
   mret {| cfg := c; tb := d_tb d; db_faults := d_db_faults d;
           e_seg := {| sg_world := d_world d; sg_wr := r.1 |};
           ballast_file := d_ballast d; ballast_present := ballast;
           used_bytes := len r.1; gc_pass_count := 0 |})%rust.
End Gc.
Arguments disk : clear implicits.
Arguments drop_discard : simpl never.
