(* ===== verification/EngineInv.v ===== *)
(** * The engine's invariant and its reads

    [inv] ties the index to the segments: every row of the addr table decodes
    and its record can be reached in a segment file, under the row's key, with
    the row's CRC, flags and length, and opens to a body; no key is in both
    tables. Under it [engine_get] answers exactly what the index [holds]. *)

From Stdlib Require Import ZArith Lia Strings.Byte.
From stdpp Require Import base list gmap strings.
From S2P Require Import Prelude Domain Table Piece Segment SegmentFacts Writer Engine.
Open Scope Z_scope.

(** ** Index rows *)

Definition entry_fits (e : AddrEntry) : Prop :=
  0 <= seg_id (ae_addr e) < 2 ^ 32 ∧ 0 <= offset (ae_addr e) < 2 ^ 64 ∧
  0 <= stored_len (ae_addr e) < 2 ^ 32 ∧ 0 <= key_len (ae_addr e) < 2 ^ 16 ∧
  0 <= ae_crc e < 2 ^ 32 ∧ 0 <= ae_logical_len e < 2 ^ 32 ∧ 0 <= ae_flags e < 2 ^ 16 ∧
  match ae_obj_logical e with Some o => 0 <= o < 2 ^ 64 | None => True end.

Lemma length_encode_addr e :
  length (encode_addr e) = if ae_obj_logical e is Some _ then 36%nat else 28%nat.
Proof.
  unfold encode_addr. rewrite !length_app, !length_le_split.
  destruct (ae_obj_logical e); [by rewrite length_le_split | done].
Qed.

Lemma le_at_last n z : 0 <= z < 2 ^ (Z.of_nat n * 8) → le_at 0 n (le_split n z) = z.
Proof. intros. rewrite <-(app_nil_r (le_split n z)). by apply le_at_split. Qed.

Lemma decode_encode_addr e : entry_fits e → decode_addr (encode_addr e) = Some e.
Proof.
  intros (H1 & H2 & H3 & H4 & H5 & H6 & H7 & H8).
  unfold decode_addr. rewrite length_encode_addr.
  destruct e as [[sg ofs sl kl] crc lg fl [o |]]; cbn in *;
    unfold encode_addr; cbn [ae_addr ae_crc ae_logical_len ae_flags ae_obj_logical
      seg_id offset stored_len key_len];
    f_equal; f_equal; try f_equal; try le_field.
  repeat (rewrite le_at_skip by (rewrite ?length_le_split; cbn; lia)).
  rewrite ?length_le_split. cbn [Nat.sub]. apply le_at_last. lia.
Qed.

Section EngineInv.
Context {T : Type → Type} `{RT : !RedbTable T, RTS : !RedbTableSpec T} `{EE : !EngineEnv, EES : !EngineEnvSpec}.
Implicit Types (e : engine T) (t : tables T) (k : BlockKey) (d : bytes).

(** ** The invariant *)

(** The stored bytes open to the body [d] of the length the row says. *)
Definition row_body (ent : AddrEntry) (stored : bytes) d : Prop :=
  open_body ent stored = Ok d ∧ ae_logical_len ent = blen d.

(** The row [v] of key [k] opens to the body [d]. *)
Definition row_ok (fs : gmap (SegDir * Z) bytes) k (v : bytes) d : Prop :=
  ∃ ent dir rec, decode_addr v = Some ent ∧ reach crc32 fs dir rec ∧
    r_key rec = k ∧ r_addr rec = ae_addr ent ∧ r_crc rec = ae_crc ent ∧
    r_flags rec = ae_flags ent ∧ r_logical_len rec = ae_logical_len ent ∧
    row_body ent (r_stored rec) d.

Definition rows_ok (fs : gmap (SegDir * Z) bytes) t : Prop :=
  (∀ k v, tget (t_addr t) k = Some v → ∃ d, row_ok fs k v d) ∧
  (∀ k, tget (t_addr t) k = None ∨ tget (t_inline t) k = None).

Record inv e : Prop := {
  inv_wr : wr_base (e_seg e);
  inv_fo : failover (sg_wr (e_seg e)) = failover_path (cfg e);
  inv_rows : rows_ok (seg_files e) (tb e);
}.

(** The index has the body [d] under [k]. *)
Definition holds_t (fs : gmap (SegDir * Z) bytes) t k d : Prop :=
  tget (t_inline t) k = Some d ∨ ∃ v, tget (t_addr t) k = Some v ∧ row_ok fs k v d.

Definition holds e k d : Prop := holds_t (seg_files e) (tb e) k d.

Lemma row_ok_extends fs fs' k v d : extends fs fs' → row_ok fs k v d → row_ok fs' k v d.
Proof.
  intros He (ent & dir & rec & Hd & Hr & H). exists ent, dir, rec.
  split; [done | split; [| done]]. by eapply reach_extends.
Qed.

Lemma rows_ok_extends fs fs' t : extends fs fs' → rows_ok fs t → rows_ok fs' t.
Proof.
  intros He [Hr Hd]. split; [| done]. intros k v Hv. destruct (Hr _ _ Hv) as [d Hrow].
  exists d. by eapply row_ok_extends.
Qed.

(** ** get *)

Lemma file_dir e dir id b :
  wr_base (e_seg e) → failover (sg_wr (e_seg e)) = failover_path (cfg e) →
  seg_files e !! (dir, id) = Some b → seg_dir_of e id = dir.
Proof.
  intros HB Hfo Hb. unfold seg_dir_of.
  destruct (decide (is_Some (seg_files e !! (Primary, id)))) as [[b' Hb'] | Hno].
  - destruct dir; [done |]. by destruct (wb_unique _ HB _ _ _ Hb' Hb).
  - destruct dir; [destruct Hno; eauto |].
    rewrite <-Hfo, (wb_dirs _ HB _ _ Hb). rewrite bool_decide_eq_true_2; eauto.
Qed.

Lemma reach_dir e dir rec :
  wr_base (e_seg e) → failover (sg_wr (e_seg e)) = failover_path (cfg e) →
  reach crc32 (seg_files e) dir rec → seg_dir_of e (seg_id (r_addr rec)) = dir.
Proof. intros HB Hfo (b & Hb & _). by eapply file_dir. Qed.

(** One attempt of [get] on a row that is good in the view of the read. *)
Lemma get_attempts_row n m (view : nat → engine T) k v d prev :
  rows_ok (seg_files (view n)) (tb (view n)) →
  tget (t_addr (tb (view n))) k = Some v →
  wr_base (e_seg (view (S n))) →
  failover (sg_wr (e_seg (view (S n)))) = failover_path (cfg (view (S n))) →
  row_ok (seg_files (view (S n))) k v d →
  prev ≠ decode_addr v →
  get_attempts (S m) n view k prev = Ok d.
Proof.
  intros [_ Hdisj] Hv HB Hfo Hrow Hprev. simpl. unfold engine_lookup.
  destruct (Hdisj k) as [| Hi]; [congruence |]. rewrite Hi, Hv.
  destruct Hrow as (ent & dir & rec & Hd & Hr & Hk & Ha & Hc & Hf & Hl & Ho).
  rewrite Hd in Hprev |- *. rewrite bool_decide_eq_false_2 by congruence.
  rewrite <-Ha, <-Hc, (reach_dir _ _ _ HB Hfo Hr), (reach_read _ _ _ _ Hr). apply Ho.
Qed.

Lemma lookup_inline t k d : tget (t_inline t) k = Some d → engine_lookup t k = Ok (LInline d).
Proof. unfold engine_lookup. by intros ->. Qed.

Lemma get_holds e k d : inv e → holds e k d → engine_get e k = Ok d.
Proof.
  intros [HB Hfo Hrows] [Hi | (v & Hv & Hrow)]; unfold engine_get, get_view.
  - simpl. by rewrite (lookup_inline _ _ _ Hi).
  - eapply get_attempts_row; try done.
    destruct Hrow as (ent & _ & _ & -> & _). done.
Qed.

Lemma get_missing e k :
  tget (t_addr (tb e)) k = None → tget (t_inline (tb e)) k = None → engine_get e k = Err NotFound.
Proof. intros Ha Hi. unfold engine_get, get_view. simpl. unfold engine_lookup. by rewrite Hi, Ha. Qed.

Lemma get_cases e k : inv e →
  (∃ d, holds e k d ∧ engine_get e k = Ok d) ∨
  ((∀ d, ¬ holds e k d) ∧ engine_get e k = Err NotFound).
Proof.
  intros HI. destruct (tget (t_inline (tb e)) k) as [d |] eqn:Hi.
  { left. exists d. assert (holds e k d) by (by left). auto using get_holds. }
  destruct (tget (t_addr (tb e)) k) as [v |] eqn:Ha.
  - left. destruct (proj1 (inv_rows _ HI) _ _ Ha) as [d Hrow]. exists d.
    assert (holds e k d) by (right; eauto). auto using get_holds.
  - right. split; [| by apply get_missing]. intros d [H | (v & H & _)]; congruence.
Qed.

Lemma get_iff e k d : inv e → engine_get e k = Ok d ↔ holds e k d.
Proof.
  intros HI. split; [| by apply get_holds].
  destruct (get_cases e k HI) as [(d' & Hd & ->) | [_ ->]]; [by intros [= <-] | done].
Qed.

(** Engines that hold the same bodies under a key answer the same. *)
Lemma get_same e e' k :
  inv e → inv e' → (∀ d, holds e k d ↔ holds e' k d) → engine_get e k = engine_get e' k.
Proof.
  intros HI HI' Heq.
  destruct (get_cases e k HI) as [(d & Hd & ->) | [Hn ->]].
  - symmetry. by apply get_holds, Heq.
  - destruct (get_cases e' k HI') as [(d' & Hd' & _) | [_ ->]]; [| done].
    destruct (Hn d'). by apply Heq.
Qed.

(** ** Transactions and segment calls *)

Lemma wp_txn {A} (f : tables T → A * tables T) (Q : result DomainError A → engine T → Prop) e :
  (∀ fs, (db_faults e = [] → fs = []) → Q (Ok (f (tb e)).1) (set_tb (f (tb e)).2 (set_db_faults fs e))) →
  (∀ m fs, db_faults e ≠ [] → Q (Err (Io m)) (set_db_faults fs e)) →
  wp (write_txn f) Q e.
Proof.
  intros HO HE. unfold wp, write_txn.
  destruct (db_faults e) as [| [m |] fs] eqn:Hf; simpl.
  - specialize (HO [] (λ _, eq_refl)). by destruct (f (tb e)) as [a t].
  - by apply HE.
  - specialize (HO fs). destruct (f (tb e)) as [a t]. by apply HO.
Qed.

Lemma wp_on_seg {A} (c : M segst IoError A) (Q : result IoError A → engine T → Prop) e :
  wp c (λ r s, Q r (set_e_seg s e)) (e_seg e) → wp (on_seg c) Q e.
Proof. unfold wp, on_seg. by destruct (c (e_seg e)) as [r s]. Qed.

(** Counters and the ballast do not matter to reads. *)
Definition same_data t t' : Prop := t_addr t' = t_addr t ∧ t_inline t' = t_inline t.

Lemma same_data_rows fs t t' : same_data t t' → rows_ok fs t → rows_ok fs t'.
Proof. intros [Ha Hi] H. unfold rows_ok. by rewrite Ha, Hi. Qed.

Lemma same_data_holds fs t t' k d : same_data t t' → holds_t fs t k d ↔ holds_t fs t' k d.
Proof. intros [Ha Hi]. unfold holds_t. by rewrite Ha, Hi. Qed.

Lemma bump_old_same old t : same_data t (bump_old old t).
Proof. unfold bump_old. by destruct (old ≫= decode_addr). Qed.

(** The segment side of an engine after a step of the writer. *)
Lemma inv_sstep e s :
  inv e → wr_base s → sstep (e_seg e) s → inv (set_e_seg s e).
Proof.
  intros [HB Hfo Hrows] HB' [He Hc _ _ _ _]. split; [done | |].
  - unfold wcfg in Hc. simpl. congruence.
  - by eapply rows_ok_extends.
Qed.

Lemma holds_inv_eq e e' k d :
  inv e → inv e' → (∀ d, holds e k d → holds e' k d) →
  ((∀ d, ¬ holds e k d) → ∀ d, ¬ holds e' k d) → holds e k d ↔ holds e' k d.
Proof.
  intros HI HI' H1 H2. split; [apply H1 |]. intros Hd'.
  destruct (get_cases e k HI) as [(d0 & Hd0 & _) | [Hn _]].
  - apply H1 in Hd0 as Hd0'. apply get_holds in Hd0', Hd'; [| done | done].
    replace d with d0 by congruence. done.
  - by destruct (H2 Hn d).
Qed.

(** Files that only grow keep what is held. *)
Lemma holds_extends fs fs' t k d :
  extends fs fs' → rows_ok fs t → holds_t fs t k d → holds_t fs' t k d.
Proof.
  intros He _ [Hi | (v & Hv & Hrow)]; [by left | right]. exists v. eauto using row_ok_extends.
Qed.

Lemma holds_sstep e s k d :
  inv e → wr_base s → sstep (e_seg e) s → holds e k d ↔ holds (set_e_seg s e) k d.
Proof.
  intros HI HB' HS. apply holds_inv_eq; [done | by apply inv_sstep | |].
  - intros d'. apply holds_extends; [by apply HS | apply HI].
  - intros Hn d' [Hi | (v & Hv & _)]; simpl in *.
    + apply (Hn d'). by left.
    + destruct (proj1 (inv_rows _ HI) _ _ Hv) as [d0 Hrow]. apply (Hn d0). right. eauto.
Qed.

(** A step that shows nothing keeps what is held. *)
Lemma inv_frame e s : inv e → frame (e_seg e) s → inv (set_e_seg s e).
Proof. intros HI HF. apply inv_sstep; [done | | by apply frame_sstep]. by eapply wr_base_frame; [| apply HI]. Qed.

Lemma holds_frame e s k d : frame (e_seg e) s → holds (set_e_seg s e) k d ↔ holds e k d.
Proof. intros (Hf & _). unfold holds, seg_files, files in *. simpl. by rewrite Hf. Qed.
End EngineInv.
