(* ===== verification/EngineOps.v ===== *)
(** * What put, delete and the era bit do

    The functional behaviour of the engine's writes on the invariant: an [Ok]
    put makes the key hold the new body and no other key changes; an [Err]
    changes what no key holds, whatever system call or transaction failed;
    without faults a put is [Ok]. *)

From Stdlib Require Import ZArith Lia Strings.Byte.
From stdpp Require Import base list gmap strings.
From S2P Require Import Prelude Domain Table Piece Segment SegmentFacts Writer Engine EngineInv.
Open Scope Z_scope.

Section EngineOps.
Context {T : Type → Type} `{RT : !RedbTable T, RTS : !RedbTableSpec T}
  `{EE : !EngineEnv, EES : !EngineEnvSpec}.
Implicit Types (e : engine T) (t : tables T) (k : BlockKey) (d : bytes).

(** No fault ahead. *)
Definition quiet e : Prop := faults (e_seg e) = [] ∧ db_faults e = [].

(** The engine is ready to write: the writer is in step with its file, there
    is a next segment id, and faults do not lead to a failover or to a retry
    after a torn write. *)
Record ready e : Prop := {
  rd_inv : inv e;
  rd_wr : wr_ok crc32 (e_seg e);
  rd_calm : calm (e_seg e);
  rd_free : next_free (e_seg e);
  rd_max : max_size (sg_wr (e_seg e)) <= 2 ^ 64;
  rd_ballast : ballast_bytes (cfg e) = 0 ∨ faults (e_seg e) = [];
}.

(** The key holds [o], every other key what it held. *)
Definition updated e e' k (o : option bytes) : Prop :=
  ∀ k' d', holds e' k' d' ↔ if decide (k = k') then o = Some d' else holds e k' d'.

Definition unchanged e e' : Prop := ∀ k d, holds e' k d ↔ holds e k d.

#[global] Instance unchanged_preorder : PreOrder unchanged.
Proof.
  split; [by intros e k d |]. intros e1 e2 e3 H1 H2 k d. by rewrite (H2 k d), (H1 k d).
Qed.

Lemma holds_fun e k d d' : inv e → holds e k d → holds e k d' → d = d'.
Proof. intros HI H1%get_holds H2%get_holds; try done. congruence. Qed.

(** ** Updates of the tables *)

Lemma rows_put_inline fs t k d :
  rows_ok fs t →
  let t' := with_addr (tremove k) (with_inline (tinsert k d) t) in
  rows_ok fs t' ∧
  ∀ k' d', holds_t fs t' k' d' ↔ if decide (k = k') then Some d = Some d' else holds_t fs t k' d'.
Proof.
  intros [Hr Hd] t'. split; [split |].
  - intros k' v. simpl. rewrite tget_tremove. case_decide; [done |]. apply Hr.
  - intros k'. simpl. rewrite tget_tremove, tget_tinsert. case_decide; [by left | apply Hd].
  - intros k' d'. unfold holds_t. simpl. rewrite tget_tremove, tget_tinsert. case_decide; [| done].
    split; [intros [? | (? & ? & _)]; done | by left].
Qed.

Lemma rows_delete fs t k :
  rows_ok fs t →
  let t' := with_inline (tremove k) (with_addr (tremove k) t) in
  rows_ok fs t' ∧
  ∀ k' d', holds_t fs t' k' d' ↔ if decide (k = k') then None = Some d' else holds_t fs t k' d'.
Proof.
  intros [Hr Hd] t'. split; [split |].
  - intros k' v. simpl. rewrite tget_tremove. case_decide; [done |]. apply Hr.
  - intros k'. simpl. rewrite !tget_tremove. case_decide; [by left | apply Hd].
  - intros k' d'. unfold holds_t. simpl. rewrite !tget_tremove. case_decide; [| done].
    split; [intros [? | (? & ? & _)]; done | done].
Qed.

(** A new row for a key that has no inline body afterwards. *)
Lemma rows_put_addr fs t k v d :
  rows_ok fs t → row_ok fs k v d →
  let t' := with_inline (tremove k) (with_addr (tinsert k v) t) in
  rows_ok fs t' ∧ holds_t fs t' k d ∧
  ∀ k' d', k ≠ k' → holds_t fs t' k' d' ↔ holds_t fs t k' d'.
Proof.
  intros [Hr Hd] Hrow t'. split; [split | split].
  - intros k' v'. simpl. rewrite tget_tinsert. case_decide; subst; [| apply Hr].
    intros [= <-]. eauto.
  - intros k'. simpl. rewrite tget_tremove, tget_tinsert. case_decide; [by right | apply Hd].
  - right. exists v. simpl. by rewrite tget_tinsert_eq.
  - intros k' d' Hne. unfold holds_t. simpl. by rewrite tget_tremove_ne, tget_tinsert_ne.
Qed.

(** The row of a key that already has one is replaced by an equivalent one. *)
Lemma rows_replace fs t k v0 v d :
  rows_ok fs t → tget (t_addr t) k = Some v0 → row_ok fs k v d →
  let t' := with_addr (tinsert k v) t in
  rows_ok fs t' ∧ holds_t fs t' k d ∧
  ∀ k' d', k ≠ k' → holds_t fs t' k' d' ↔ holds_t fs t k' d'.
Proof.
  intros [Hr Hd] Hv0 Hrow t'. split; [split | split].
  - intros k' v'. simpl. rewrite tget_tinsert. case_decide; subst; [| apply Hr].
    intros [= <-]. eauto.
  - intros k'. simpl. rewrite tget_tinsert. case_decide; subst; [| apply Hd].
    right. destruct (Hd k'); congruence.
  - right. exists v. simpl. by rewrite tget_tinsert_eq.
  - intros k' d' Hne. unfold holds_t. simpl. by rewrite tget_tinsert_ne.
Qed.

(** ** The invariant after a transaction *)

Lemma inv_tb e t fs : inv e → rows_ok (seg_files e) t → inv (set_tb t (set_db_faults fs e)).
Proof. intros [HB Hfo _] Hr. by split. Qed.

Lemma ready_tb e t fs :
  ready e → rows_ok (seg_files e) t → ready (set_tb t (set_db_faults fs e)).
Proof. intros [HI ? ? ? ? ?] Hr. split; try done. by apply inv_tb. Qed.

Lemma ready_db_faults e fs : ready e → ready (set_db_faults fs e).
Proof. intros [[HB Hfo Hr] ? ? ? ? ?]. by split. Qed.

Lemma inv_db_faults e fs : inv e → inv (set_db_faults fs e).
Proof. intros [HB Hfo Hr]. by split. Qed.

Lemma inv_set_used e u : inv e → inv (set_used u e).
Proof. intros [HB Hfo Hr]. by split. Qed.

(** ** The body and its row *)

Definition key_fits k : Prop := blen k < 2 ^ 16.
Definition data_fits d : Prop := blen d < 2 ^ 32.
Definition obj_fits (o : option Z) : Prop := match o with Some o => 0 <= o < 2 ^ 64 | None => True end.

Lemma compress_body_fits c d stored flags :
  compress_body c d = (stored, flags) → data_fits d →
  blen stored < 2 ^ 32 ∧ 0 <= flags < 2 ^ 16 ∧
  ∀ addr crc obj, row_body {| ae_addr := addr; ae_crc := crc; ae_logical_len := wrap 32 (blen d);
                              ae_flags := flags; ae_obj_logical := obj |} stored d.
Proof.
  unfold compress_body, data_fits. intros Hc Hd. pose proof (blen_nonneg d).
  assert (wrap 32 (blen d) = blen d) as -> by (by apply wrap_small).
  destruct (_ && _).
  - destruct (zstd_compress d) as [z |] eqn:Hz.
    + destruct (Z.ltb_spec (blen z) (blen d)); injection Hc as <- <-; [| done].
      split; [lia | split; [done |]]. intros addr crc obj. unfold row_body, open_body. simpl.
      rewrite (zstd_round _ _ Hz), Z.eqb_refl. done.
    + by injection Hc as <- <-.
  - by injection Hc as <- <-.
Qed.

(** The row written for an appended record fits its format and opens to the
    body. *)
Lemma appended_row k stored logical flags obj s s' rec d :
  appended crc32 k stored logical flags s s' rec →
  key_fits k → blen stored < 2 ^ 32 → 0 <= flags < 2 ^ 16 → 0 <= logical < 2 ^ 32 → obj_fits obj →
  wr_base s → next_free s → max_size (sg_wr s) <= 2 ^ 64 →
  (∀ addr crc, row_body {| ae_addr := addr; ae_crc := crc; ae_logical_len := logical;
                           ae_flags := flags; ae_obj_logical := obj |} stored d) →
  let entry := {| ae_addr := r_addr rec; ae_crc := r_crc rec; ae_logical_len := logical;
                  ae_flags := flags; ae_obj_logical := obj |} in
  entry_fits entry ∧ row_ok (files s') k (encode_addr entry) d.
Proof.
  intros [Hok _ Hid Hre Hk Hst Hfl Hlo Hcrc Ha Hoff] Hkf Hsf Hff Hlf Hof HB Hfree Hmax Hop entry.
  unfold next_free in Hfree. pose proof (wb_id _ HB).
  assert (entry_fits entry) as Hfits.
  { unfold entry_fits. simpl. rewrite Ha, Hcrc. simpl.
    pose proof (blen_nonneg k). pose proof (blen_nonneg stored).
    pose proof (crc32_range (k ++ stored)). unfold key_fits in *.
    split_and!; try lia. by destruct obj. }
  split; [done |]. eexists _, _, rec. rewrite decode_encode_addr by done. split; [done |].
  simpl. rewrite Hst. eauto 10.
Qed.

Lemma appended_inv e k stored logical flags s rec :
  inv e → appended crc32 k stored logical flags (e_seg e) s rec → inv (set_e_seg s e).
Proof. intros HI Hap. apply inv_sstep; [done | apply Hap | apply Hap]. Qed.

(** ** put *)

(** What holds after a put of [d], or of a row for it. *)
Definition put_post e k d (r : result DomainError unit) e' : Prop :=
  match r with
  | Ok _ => inv e' ∧ wr_ok crc32 (e_seg e') ∧ calm (e_seg e') ∧ updated e e' k (Some d)
  | Err _ => inv e' ∧ unchanged e e' ∧ ¬ quiet e
  end.

Lemma wp_put_inline e k d : ready e → wp (put_inline k d) (put_post e k d) e.
Proof.
  intros HR. pose proof (rd_inv _ HR) as HI. apply wp_txn; [intros fs _ | intros m fs Hf].
  - simpl. destruct (rows_put_inline _ _ k d (inv_rows _ HI)) as [Hr Hh].
    pose proof (bump_old_same (tget (t_addr (tb e)) k)
      (with_addr (tremove k) (with_inline (tinsert k d) (tb e)))) as Hs.
    split_and!; [by apply inv_tb; [| eapply same_data_rows] | apply HR | apply HR |].
    intros k' d'. rewrite <-Hh. symmetry. by apply same_data_holds.
  - split; [by apply inv_db_faults | split; [done |]]. by intros [_ ?].
Qed.

Lemma wp_index_body e e1 k v d :
  inv e1 → wr_ok crc32 (e_seg e1) → calm (e_seg e1) → unchanged e e1 →
  (quiet e → quiet e1) → row_ok (seg_files e1) k (encode_addr v) d →
  wp (index_body k v) (put_post e k d) e1.
Proof.
  intros HI HW HC HU HQ Hrow. apply wp_txn; [intros fs _ | intros m fs Hf].
  - simpl. destruct (rows_put_addr _ _ _ _ _ (inv_rows _ HI) Hrow) as (Hr & Hk & Hh).
    set (t' := with_inline _ _) in *. pose proof (bump_old_same (tget (t_addr (tb e1)) k) t') as Hs.
    assert (inv (set_tb (bump_old (tget (t_addr (tb e1)) k) t') (set_db_faults fs e1))) as HI'
      by (apply inv_tb; [done | by eapply same_data_rows]).
    split_and!; try done. intros k' d'. case_decide as Hkk; subst.
    + split; [| intros [= ->]; by apply (same_data_holds _ _ _ _ _ Hs)].
      intros Hd'. f_equal. eapply holds_fun; [exact HI' | | exact Hd'].
      by apply (same_data_holds _ _ _ _ _ Hs).
    + unfold holds at 1. simpl. rewrite <-(same_data_holds _ _ _ _ _ Hs), Hh by done. apply HU.
  - split; [by apply inv_db_faults | split; [done |]]. intros Hq. by destruct (HQ Hq).
Qed.

(** A body append: [Ok] is [appended] to the writer's state, an [Err] has
    changed nothing that is held. *)
Lemma wp_append_body e k stored logical flags
    (Q : result DomainError (RecordAddr * Z) → engine T → Prop) :
  ready e → record_fits k stored logical flags →
  (∀ s rec, appended crc32 k stored logical flags (e_seg e) s rec →
     Q (Ok (r_addr rec, r_crc rec)) (set_e_seg s e)) →
  (∀ m e', faults (e_seg e) ≠ [] → inv e' → unchanged e e' → Q (Err m) e') →
  wp (append_body k stored logical flags) Q e.
Proof.
  intros HR Hfit HO HE. pose proof (rd_inv _ HR) as HI. unfold append_body. wp_step.
  apply wp_on_seg, wp_append; try apply HR; try done.
  - apply crc32_range.
  - intros er s Hf HB HS _.
    assert (inv (set_e_seg s e)) as HI' by (by apply inv_sstep).
    assert (unchanged e (set_e_seg s e)) as HU by (intros k' d'; symmetry; by apply holds_sstep).
    case_bool_decide; wp_step; [| by apply HE].
    unfold wp, release_ballast_file. simpl.
    destruct (rd_ballast _ HR) as [-> |]; [| done]. by apply HE.
Qed.

Lemma wp_put_impl e k d obj :
  ready e → key_fits k → data_fits d → obj_fits obj →
  wp (put_impl k d obj) (put_post e k d) e.
Proof.
  intros HR Hk Hd Ho. pose proof (rd_inv _ HR) as HI. unfold put_impl. do 2 wp_step.
  destruct (_ && _); [by apply wp_put_inline |].
  destruct (compress_body (cfg e) d) as [stored flags] eqn:Hc.
  destruct (compress_body_fits _ _ _ _ Hc Hd) as (Hs & Hf & Hop).
  assert (0 <= wrap 32 (blen d) < 2 ^ 32) as Hl by (by apply wrap_bound). wp_step.
  apply wp_append_body; [done | split_and!; first [done | apply Hl | apply Hf] | |].
  - intros s rec Hap. do 2 wp_step. eapply wp_index_body.
    + apply inv_set_used. by eapply appended_inv.
    + apply Hap.
    + eapply calm_sstep; [apply Hap | apply HR].
    + intros k' d'. symmetry. apply (holds_sstep e s); [done | apply Hap | apply Hap].
    + intros [Hq1 Hq2]. split; [by apply (ap_step _ _ _ _ _ _ _ _ Hap) | done].
    + eapply (appended_row k stored _ flags obj); try done; apply HR.
  - intros m e' Hfa HI' HU. split; [done | split; [done |]]. by intros [? _].
Qed.

(** ** delete *)

Lemma wp_delete e k :
  inv e →
  wp (engine_delete k) (λ r e', inv e' ∧ e_seg e' = e_seg e ∧ cfg e' = cfg e ∧
    match r with
    | Ok _ => updated e e' k None
    | Err _ => unchanged e e' ∧ ¬ quiet e
    end) e.
Proof.
  intros HI. apply wp_txn; [intros fs _ | intros m fs Hf].
  - simpl. destruct (rows_delete _ _ k (inv_rows _ HI)) as [Hr Hh].
    pose proof (bump_old_same (tget (t_addr (tb e)) k)
      (with_inline (tremove k) (with_addr (tremove k) (tb e)))) as Hs.
    split_and!; [by apply inv_tb; [| eapply same_data_rows] | done | done |].
    intros k' d'. rewrite <-Hh. symmetry. by apply same_data_holds.
  - split_and!; [by apply inv_db_faults | done | done | done |]. by intros [_ ?].
Qed.
End EngineOps.
