(* ===== verification/EngineGcFacts.v ===== *)
(** * Garbage collection loses nothing

    The loop of [gc_once] over the victim keeps the invariant and every body,
    and when it ends no row points into the victim, so that unlinking it is
    safe; the orphan sweep unlinks only files without a row. The engines that
    the pass goes through are traced along.

    Second part: Listing pages of the engine. *)

From Stdlib Require Import ZArith Lia Strings.Byte.
From stdpp Require Import base list gmap strings sorting.
From S2P Require Import Prelude F64 Domain Table Piece Segment SegmentFacts Writer Engine EngineGc EngineInv EngineOps.
Open Scope Z_scope.

(** ** Records of a scan *)

Section Scan.
Context (crc32 : bytes → Z).

(** An offset of a file has one record. *)
Lemma scan_unique seg b rec1 rec2 :
  rec1 ∈ (scan crc32 seg 0 b).1 → rec2 ∈ (scan crc32 seg 0 b).1 →
  offset (r_addr rec1) = offset (r_addr rec2) → rec1 = rec2.
Proof.
  intros (n1 & h1 & _ & A1 & N1 & C1 & F1 & L1)%scan_read
    (n2 & h2 & _ & A2 & N2 & C2 & F2 & L2)%scan_read Ho.
  rewrite A1, A2 in Ho. simpl in Ho. assert (n1 = n2) as -> by lia.
  rewrite N1 in N2. injection N2 as <- Hk Hs.
  destruct rec1, rec2. simpl in *. congruence.
Qed.

Lemma scan_rec_fits seg b rec :
  rec ∈ (scan crc32 seg 0 b).1 →
  record_fits (r_key rec) (r_stored rec) (r_logical_len rec) (r_flags rec) ∧
  seg_id (r_addr rec) = seg ∧ b ≠ [].
Proof.
  intros (n & h & Hle & A & N & C & F & L)%scan_read.
  pose proof (next_record_length _ _ _ _ _ N) as (_ & Hk & Hs).
  apply next_record_inv in N as (Hkb & Hsb & Hf & Hl & _).
  rewrite A, F, L. unfold record_fits, blen. rewrite Hk, Hs.
  split_and!; try done; try lia.
  intros ->. unfold record_total, HEADER_LEN in Hle. simpl in Hle. lia.
Qed.
End Scan.

Lemma decode_addr_fits v e : decode_addr v = Some e → entry_fits e.
Proof.
  unfold decode_addr. destruct (_ && _); [done |].
  pose proof (le_at_bound 0 4 v). pose proof (le_at_bound 4 8 v). pose proof (le_at_bound 12 4 v).
  pose proof (le_at_bound 16 2 v). pose proof (le_at_bound 18 4 v). pose proof (le_at_bound 22 4 v).
  pose proof (le_at_bound 26 2 v). pose proof (le_at_bound 28 8 v).
  destruct (28 <=? length v)%nat; destruct (length v =? 36)%nat; intros [= <-];
    unfold entry_fits; simpl in *; split_and!; lia.
Qed.

Section EngineGcFacts.
Context {T : Type → Type} `{RT : !RedbTable T, RTS : !RedbTableSpec T}
  `{EE : !EngineEnv, EES : !EngineEnvSpec}.
Implicit Types (e : engine T) (t : tables T) (k : BlockKey) (d : bytes).

(** Files grow or disappear; an id in use is not used again. *)
Record fstep e e' : Prop := {
  fs_id : wr_seg_id (sg_wr (e_seg e)) <= wr_seg_id (sg_wr (e_seg e'));
  fs_keep : ∀ p b, p.2 <= wr_seg_id (sg_wr (e_seg e)) → seg_files e !! p = Some b →
    seg_files e' !! p = None ∨ ∃ r, seg_files e' !! p = Some (b ++ r);
  fs_new : ∀ p, p.2 <= wr_seg_id (sg_wr (e_seg e)) → seg_files e !! p = None →
    seg_files e' !! p = None;
}.

#[global] Instance fstep_preorder : PreOrder fstep.
Proof.
  split.
  - intros e. split; [done | | done]. intros p b _ Hb. right. exists []. by rewrite app_nil_r.
  - intros e1 e2 e3 [I1 K1 N1] [I2 K2 N2]. split; [lia | |].
    + intros p b Hp Hb. destruct (K1 _ _ Hp Hb) as [Hno | [r Hr]].
      * left. apply N2; [lia | done].
      * destruct (K2 p _ ltac:(lia) Hr) as [? | [r' ?]]; [by left | right].
        exists (r ++ r'). by rewrite app_assoc.
    + intros p Hp Hno. apply N2; [lia | auto].
Qed.

Lemma fstep_sstep e e' : sstep (e_seg e) (e_seg e') → fstep e e'.
Proof.
  intros [He _ _ Hi _ Hn]. split; [done | | done]. intros p b _ Hb. right. by apply He.
Qed.

(** What a collection leaves, whatever failed. *)
Record kept (e e' : engine T) : Prop := {
  kp_inv : inv e';
  kp_same : unchanged e e';
}.
#[global] Instance kept_preorder_trans : Transitive kept.
Proof. intros e1 e2 e3 [_ H1] [I2 H2]. split; [done | by etransitivity]. Qed.

(** ** The moments of a pass *)

(** [R] holds from each element to the later ones. *)
Definition ordered (R : engine T → engine T → Prop) (l : list (engine T)) : Prop := ∀ i j x y,
  (i ≤ j)%nat → l !! i = Some x → l !! j = Some y → R x y.

Lemma ordered_one (R : engine T → engine T → Prop) `{!PreOrder R} e : ordered R [e].
Proof.
  intros i j x y Hij Hx Hy. destruct i as [| i]; [| done]. destruct j as [| j]; [| done]. simpl in *. by simplify_eq.
Qed.
Lemma ordered_snoc (R : engine T → engine T → Prop) `{!PreOrder R} l e e' :
  ordered R l → last l = Some e → R e e' → ordered R (l ++ [e']).
Proof.
  intros Hl He Hee i j x y Hij Hx Hy. apply lookup_snoc_Some in Hx as [[Hi Hx] | [-> <-]], Hy as [[Hj Hy] | [-> <-]].
  - by apply (Hl i j).
  - transitivity e; [| done]. rewrite last_lookup in He. apply (Hl i (pred (length l)) x e); [lia | done | done].
  - lia.
  - done.
Qed.

(** Files grow, and none goes. *)
Definition widened e e' : Prop := fstep e e' ∧ extends (seg_files e) (seg_files e').
#[global] Instance widened_preorder : PreOrder widened.
Proof.
  split; [by intros e |]. intros e1 e2 e3 [F1 G1] [F2 G2]. split; by etransitivity.
Qed.
Lemma widened_sstep e e' : sstep (e_seg e) (e_seg e') → widened e e'.
Proof. intros H. split; [by apply fstep_sstep | apply H]. Qed.
Lemma widened_same e e' : e_seg e' = e_seg e → widened e e'.
Proof. intros Hs. apply widened_sstep. by rewrite Hs. Qed.

(** No row changes. *)
Definition same_rows e e' : Prop := same_data (tb e) (tb e').
#[global] Instance same_rows_preorder : PreOrder same_rows.
Proof. split; [by intros e |]. intros e1 e2 e3 [A1 I1] [A2 I2]. split; congruence. Qed.

(** The moments before the first unlinking are those of [l1], the others
    those of [l2]: while rows change no file goes, and once files go no row
    changes. *)
Record moments (e0 : engine T) (l1 l2 : list (engine T)) : Prop := {
  mo_step : ordered fstep (l1 ++ l2);
  mo_widened : ordered widened l1;
  mo_rows : ordered same_rows l2;
  mo_kept : ∀ x, x ∈ l1 ++ l2 → kept e0 x;
}.
Definition passed e0 (h : list (engine T)) : Prop := ∃ l1 l2, h = l1 ++ l2 ∧ moments e0 l1 l2.

(** The history up to the present engine: nothing is unlinked yet; or no row
    changes any more. *)
Definition early e0 e (h : list (engine T)) : Prop := moments e0 h [] ∧ last h = Some e.
Definition late e0 e (h : list (engine T)) : Prop := ∃ l1 l2, h = l1 ++ l2 ∧ moments e0 l1 l2 ∧ last l2 = Some e.

Lemma early_passed e0 e h : early e0 e h → passed e0 h.
Proof. intros [HM _]. exists h, []. by rewrite app_nil_r. Qed.
Lemma late_passed e0 e h : late e0 e h → passed e0 h.
Proof. intros (l1 & l2 & -> & HM & _). by exists l1, l2. Qed.

Lemma early_here e : inv e → early e e [e].
Proof.
  intros HI. split; [| done]. split; [apply ordered_one, _ | apply ordered_one, _ | by intros i j x y _ ? | ].
  intros x ->%list_elem_of_singleton. done.
Qed.
Lemma early_step e0 e e' h : early e0 e h → kept e0 e' → widened e e' → early e0 e' (h ++ [e']).
Proof.
  intros [[Hs Hg Hr Hk] Hl] K G. rewrite app_nil_r in *. split; [| by rewrite last_snoc].
  split; rewrite ?app_nil_r; [by apply (ordered_snoc _ _ e), G | by apply (ordered_snoc _ _ e) | done |].
  intros x [Hx | ->%list_elem_of_singleton]%elem_of_app; auto.
Qed.
Lemma late_start e0 e e' h : early e0 e h → kept e0 e' → fstep e e' → late e0 e' (h ++ [e']).
Proof.
  intros [[Hs Hg Hr Hk] Hl] K G. rewrite app_nil_r in *. exists h, [e']. split; [done |]. split; [| done].
  split; [by apply (ordered_snoc _ _ e) | done | apply ordered_one, _ |].
  intros x [Hx | ->%list_elem_of_singleton]%elem_of_app; auto.
Qed.
Lemma late_step e0 e e' h : late e0 e h → kept e0 e' → fstep e e' → same_rows e e' → late e0 e' (h ++ [e']).
Proof.
  intros (l1 & l2 & -> & [Hs Hg Hr Hk] & Hl) K G R. exists l1, (l2 ++ [e']). rewrite app_assoc. split; [done |].
  split; [| by rewrite last_snoc]. split; rewrite ?app_assoc; [| done | by apply (ordered_snoc _ _ e) |].
  - apply (ordered_snoc _ _ e); [done | | done]. by rewrite last_app, Hl.
  - intros x [Hx | ->%list_elem_of_singleton]%elem_of_app; auto.
Qed.

(** A call on record. *)
Lemma wp_witnessed {X A} (c : M (engine T) X A) (Q : result X A → engine T * list (engine T) → Prop) e h :
  wp c (λ r e', Q r (e', h ++ [e'])) e → wp (witnessed X A c) Q (e, h).
Proof. done. Qed.

(** Enough segment ids for [n] appends. *)
Definition room (n : nat) e : Prop := wr_seg_id (sg_wr (e_seg e)) + Z.of_nat n < 2 ^ 32.

Lemma room_free n e : room (S n) e → next_free (e_seg e).
Proof. unfold room, next_free. lia. Qed.

(** The rows of the victim are among the records still to come. *)
Definition covered (vid : Z) (l : list RecoveredRecord) e : Prop :=
  ∀ k v ent, tget (t_addr (tb e)) k = Some v → decode_addr v = Some ent →
    seg_id (ae_addr ent) = vid → ∃ rec, rec ∈ l ∧ r_key rec = k ∧ r_addr rec = ae_addr ent.

(** The state the loop goes on from. *)
Record gc_loop (e0 : engine T) (vdir : SegDir) (vid : Z) (b : bytes) (l : list RecoveredRecord) e
    : Prop := {
  gl_inv : inv e;
  gl_wr : wr_ok crc32 (e_seg e);
  gl_calm : calm (e_seg e);
  gl_room : room (length l) e;
  gl_max : max_size (sg_wr (e_seg e)) <= 2 ^ 64;
  gl_same : unchanged e0 e;
  gl_victim : seg_files e !! (vdir, vid) = Some b;
  gl_sealed : l ≠ [] → vid < wr_seg_id (sg_wr (e_seg e));
  gl_recs : ∀ rec, rec ∈ l → rec ∈ (scan crc32 vid 0 b).1;
  gl_covered : covered vid l e;
  gl_active : wr_seg_id (sg_wr (e_seg e)) ≠ vid;
  gl_quiet : quiet e0 → quiet e;
  gl_files : fstep e0 e;
}.

Lemma victim_row e vdir vid b k v ent :
  inv e → seg_files e !! (vdir, vid) = Some b →
  tget (t_addr (tb e)) k = Some v → decode_addr v = Some ent → seg_id (ae_addr ent) = vid →
  ∃ rec d, rec ∈ (scan crc32 vid 0 b).1 ∧ r_key rec = k ∧ r_addr rec = ae_addr ent ∧
    r_crc rec = ae_crc ent ∧ r_flags rec = ae_flags ent ∧ r_logical_len rec = ae_logical_len ent ∧
    row_body ent (r_stored rec) d ∧ holds e k d.
Proof.
  intros HI Hb Hv Hdec Hseg. destruct (proj1 (inv_rows _ HI) _ _ Hv) as [d Hrow].
  pose proof Hrow as (ent' & dir & rec & Hdec' & (b' & Hb' & Hin) & Hk & Ha & Hc & Hf & Hl & Ho).
  rewrite Hdec in Hdec'. injection Hdec' as <-. rewrite Ha, Hseg in Hb', Hin.
  assert (b' = b) as ->.
  { pose proof (wb_unique _ (inv_wr _ HI) vid). destruct dir, vdir; try congruence; exfalso; eauto. }
  exists rec, d. split_and!; try done. right. eauto.
Qed.

Lemma points_at_row e k a :
  points_at (engine_lookup (tb e) k) a = true →
  ∃ v ent, tget (t_addr (tb e)) k = Some v ∧ decode_addr v = Some ent ∧
    seg_id (ae_addr ent) = seg_id a ∧ offset (ae_addr ent) = offset a.
Proof.
  unfold engine_lookup. destruct (tget (t_inline (tb e)) k); [done |].
  destruct (tget (t_addr (tb e)) k) as [v |] eqn:Hv; [| done].
  destruct (decode_addr v) as [ent |] eqn:Hd; [| done]. simpl.
  intros [H1%Z.eqb_eq H2%Z.eqb_eq]%andb_true_iff. eauto 10.
Qed.

Lemma points_at_miss e k v ent a :
  inv e → tget (t_addr (tb e)) k = Some v → decode_addr v = Some ent →
  points_at (engine_lookup (tb e) k) a = false → ae_addr ent ≠ a.
Proof.
  intros HI Hv Hd. unfold engine_lookup.
  destruct (proj2 (inv_rows _ HI) k) as [| ->]; [congruence |]. rewrite Hv, Hd. simpl.
  intros Hp Ha. rewrite Ha, !Z.eqb_refl in Hp. done.
Qed.

(** A dead record: nothing is done. *)
Lemma gc_loop_dead e0 vdir vid b rec l e :
  gc_loop e0 vdir vid b (rec :: l) e →
  points_at (engine_lookup (tb e) (r_key rec)) (r_addr rec) = false →
  gc_loop e0 vdir vid b l e.
Proof.
  intros [HI HW HC HRm HM HS HV Hse HRe Hco Hac HQ] Hp. split; try done.
  - unfold room in *. simpl in HRm. lia.
  - intros _. by apply Hse.
  - intros r Hr. apply HRe. by right.
  - intros k v ent Hv Hd Hs. destruct (Hco _ _ _ Hv Hd Hs) as (r & Hin & Hk & Ha).
    apply elem_of_cons in Hin as [-> | Hin]; [| by eauto].
    subst k. by destruct (points_at_miss _ _ _ _ _ HI Hv Hd Hp).
Qed.

(** The writer's state after the copy of a record has been appended. *)
Lemma gc_loop_append e0 vdir vid b rec l e s nrec :
  gc_loop e0 vdir vid b (rec :: l) e →
  appended crc32 (r_key rec) (r_stored rec) (r_logical_len rec) (r_flags rec) (e_seg e) s nrec →
  gc_loop e0 vdir vid b (rec :: l) e ∧ inv (set_e_seg s e) ∧ unchanged e0 (set_e_seg s e) ∧
  wr_ok crc32 s ∧ calm s ∧ room (length l) (set_e_seg s e) ∧ max_size (sg_wr s) <= 2 ^ 64 ∧
  files s !! (vdir, vid) = Some b ∧ vid < wr_seg_id (sg_wr s) ∧
  (quiet e0 → quiet (set_e_seg s e)).
Proof.
  intros HG Hap. pose proof HG as [HI HW HC HRm HM HS HV Hse HRe Hco Hac HQ].
  destruct (ap_step _ _ _ _ _ _ _ _ Hap) as [Hext Hcfg Hq _ Hold _].
  pose proof (ap_id _ _ _ _ _ _ _ _ Hap). specialize (Hse ltac:(done)).
  split_and!; try done.
  - by eapply appended_inv.
  - intros k d. rewrite <-(HS k d). symmetry. apply holds_sstep; [done | apply Hap | apply Hap].
  - apply Hap.
  - eapply calm_sstep; [apply Hap | done].
  - unfold room in *. simpl in *. lia.
  - unfold wcfg in Hcfg. by injection Hcfg as _ ->.
  - by rewrite Hold.
  - lia.
  - intros [Hq1 Hq2]%HQ. split; [by apply Hq | done].
Qed.

(** The copy's row opens to the same body as the old one. *)
Lemma moved_row e s rec nrec ent d :
  inv e → wr_ok crc32 (e_seg e) → next_free (e_seg e) → max_size (sg_wr (e_seg e)) <= 2 ^ 64 →
  appended crc32 (r_key rec) (r_stored rec) (r_logical_len rec) (r_flags rec) (e_seg e) s nrec →
  record_fits (r_key rec) (r_stored rec) (r_logical_len rec) (r_flags rec) →
  entry_fits ent → r_flags rec = ae_flags ent → r_logical_len rec = ae_logical_len ent →
  row_body ent (r_stored rec) d →
  let entry := {| ae_addr := r_addr nrec; ae_crc := r_crc nrec; ae_logical_len := r_logical_len rec;
                  ae_flags := r_flags rec; ae_obj_logical := ae_obj_logical ent |} in
  entry_fits entry ∧ row_ok (files s) (r_key rec) (encode_addr entry) d.
Proof.
  intros HI HW Hfree HM Hap (Hk & Hs & Hl & Hf) Hent Hfl Hll Hop.
  eapply appended_row; try done; [by apply Hent | apply HI |].
  intros addr crc. unfold row_body, open_body in *. simpl. by rewrite Hfl, Hll.
Qed.

(** One record of the victim. *)
Lemma wp_gc_record e0 vdir vid b rec l acc e h (Q : result IoError (nat * list (Z * Z)) → engine T * list (engine T) → Prop) :
  gc_loop e0 vdir vid b (rec :: l) e → early e0 e h →
  (∀ acc' e' h', gc_loop e0 vdir vid b l e' → early e0 e' h' → Q (Ok acc') (e', h')) →
  (∀ er e' h', kept e0 e' → ¬ quiet e0 → passed e0 h' → Q (Err er) (e', h')) →
  wp (gc_record witnessed acc rec) Q (e, h).
Proof.
  intros HG HT HO HE. unfold gc_record. wp_step. apply wp_witnessed. wp_step.
  assert (kept e0 e) as K0 by (split; apply HG). pose proof (early_step _ _ e _ HT K0 (reflexivity e)) as HT1.
  destruct (points_at _ _) eqn:Hp; [| wp_step; apply HO; [by eapply gc_loop_dead | done]].
  pose proof HG as [HI HW HC HRm HM HS HV Hse HRe Hco Hac HQ]. specialize (HRe rec ltac:(by left)).
  destruct (scan_rec_fits _ _ _ _ HRe) as (Hfit & Hseg & _).
  wp_step. apply wp_witnessed, wp_on_seg, wp_append; [apply crc32_range | done | done | done | by eapply room_free | |].
  2: { intros er s Hf HB HSs _. assert (kept e0 (set_e_seg s e)) as K1.
       { split; [by apply inv_sstep |]. intros k d. rewrite <-(HS k d). symmetry. by apply holds_sstep. }
       apply HE; [done | intros Hq; by destruct (HQ Hq) |]. eapply early_passed, early_step; [exact HT1 | done |].
       by apply widened_sstep. }
  intros s nrec Hap. wp_step.
  destruct (gc_loop_append _ _ _ _ _ _ _ _ _ HG Hap)
    as (_ & HI' & HS' & HW' & HC' & HR' & HM' & HV' & Hlt & HQ').
  assert (early e0 (set_e_seg s e) ((h ++ [e]) ++ [set_e_seg s e])) as HT2.
  { eapply early_step; [exact HT1 | done |]. apply widened_sstep, Hap. }
  destruct (points_at_row _ _ _ Hp) as (v & ent & Hv & Hd & Hsg & Hof).
  destruct (victim_row _ _ _ _ _ _ _ HI HV Hv Hd (eq_trans Hsg Hseg))
    as (rec' & d & Hin & Hk & Ha & Hc & Hf & Hl & Hop & Hh).
  assert (rec' = rec) as -> by (eapply scan_unique; [done | done |]; by rewrite Ha).
  pose proof (moved_row _ _ _ _ _ _ HI HW (room_free _ _ HRm) HM Hap Hfit
    (decode_addr_fits _ _ Hd) Hf Hl Hop) as [Hfits Hrow].
  apply wp_witnessed. unfold cas_row. apply wp_txn; [intros fs Hfs | intros m fs Hfs]; cbn [tb set_e_seg].
  - rewrite Hv. simpl. rewrite Hd. simpl. rewrite Hsg, Hof, !Z.eqb_refl. simpl.
    destruct (rows_replace _ _ _ _ _ _ (inv_rows _ HI') Hv Hrow) as (HrT & HhT & Hother).
    set (t' := with_addr _ _) in *.
    assert (inv (set_tb t' (set_db_faults fs (set_e_seg s e)))) as HIn by (by apply inv_tb).
    assert (unchanged e0 (set_tb t' (set_db_faults fs (set_e_seg s e)))) as HUn.
    { etransitivity; [exact HS' |]. intros k' d'. destruct (decide (r_key rec = k')) as [<- | Hne].
      * assert (holds (set_e_seg s e) (r_key rec) d) as Hh'.
        { apply (holds_sstep e s); [done | apply Hap | apply Hap | done]. }
        split; intros Hd'; [rewrite (holds_fun _ _ _ _ HIn Hd' HhT) |
          rewrite (holds_fun _ _ _ _ HI' Hd' Hh')]; done.
      * by apply Hother. }
    apply HO; [| eapply early_step; [exact HT2 | done | by apply widened_same]].
    split; try done.
    + intros r Hr. pose proof (gl_recs _ _ _ _ _ _ HG). apply H. by right.
    + intros k' v' ent' Hv'. simpl in Hv'. rewrite tget_tinsert in Hv'. case_decide as Hkk.
      * injection Hv' as <-. intros Hd' Hs'.
        rewrite decode_encode_addr in Hd' by done. injection Hd' as <-. simpl in Hs'.
        rewrite (ap_addr _ _ _ _ _ _ _ _ Hap) in Hs'. simpl in Hs'. lia.
      * intros Hd' Hs'. destruct (Hco _ _ _ Hv' Hd' Hs') as (r & Hr & Hrk & Hra).
        apply elem_of_cons in Hr as [-> | Hr]; [done | eauto].
    + simpl. lia.
    + intros Hq. destruct (HQ' Hq) as [Hq1 Hq2]. split; [done |]. simpl. auto.
    + transitivity e; [apply HG |]. apply fstep_sstep, Hap.
  - wp_step. assert (kept e0 (set_db_faults fs (set_e_seg s e))) as K2 by (split; [by apply inv_db_faults | done]).
    apply HE; [done | intros Hq; by destruct (HQ' Hq) |].
    eapply early_passed, early_step; [exact HT2 | done | by apply widened_same].
Qed.

Lemma wp_gc_loop e0 vdir vid b l acc e h (Q : result IoError (nat * list (Z * Z)) → engine T * list (engine T) → Prop) :
  gc_loop e0 vdir vid b l e → early e0 e h →
  (∀ acc' e' h', gc_loop e0 vdir vid b [] e' → early e0 e' h' → Q (Ok acc') (e', h')) →
  (∀ er e' h', kept e0 e' → ¬ quiet e0 → passed e0 h' → Q (Err er) (e', h')) →
  wp (mfold (gc_record witnessed) acc l) Q (e, h).
Proof.
  revert acc e h. induction l as [| rec l IH]; intros acc e h HG HT HO HE; simpl; [by apply wp_ret, HO |].
  wp_step. eapply wp_gc_record; [done | done | | done]. intros acc' e' h' HG' HT'. by apply IH.
Qed.

(** ** Unlinking *)

Lemma row_unlink (fs : gmap (SegDir * Z) bytes) p k v d :
  (∀ ent, decode_addr v = Some ent → seg_id (ae_addr ent) ≠ p.2) →
  row_ok fs k v d ↔ row_ok (delete p fs) k v d.
Proof.
  intros Hne. split.
  - intros (ent & dir & rec & Hd & (b & Hb & Hin) & Hk & Ha & Hrest). exists ent, dir, rec.
    split; [done | split; [| done]]. exists b. split; [| done]. rewrite lookup_delete_ne; [done |].
    intros ->. destruct (Hne _ Hd). by rewrite <-Ha.
  - intros (ent & dir & rec & Hd & (b & Hb & Hin) & Hk & Ha & Hrest). exists ent, dir, rec.
    split; [done | split; [| done]]. exists b. split; [| done]. by apply lookup_delete_Some in Hb as [_ Hb].
Qed.

(** What unlinking a file without rows leaves. *)
Record unlinked (p : SegDir * Z) e e' : Prop := {
  ul_inv : inv e';
  ul_same : unchanged e e';
  ul_tb : tb e' = tb e;
  ul_cfg : cfg e' = cfg e;
  ul_wr : sg_wr (e_seg e') = sg_wr (e_seg e);
  ul_files : seg_files e' = delete p (seg_files e);
  ul_faults : faults (e_seg e) = [] → faults (e_seg e') = [];
  ul_db : db_faults e' = db_faults e;
}.

Lemma unlink_unlinked p e w :
  inv e → covered p.2 [] e → w_seg w = delete p (seg_files e) → (faults (e_seg e) = [] → w_faults w = []) →
  unlinked p e (set_e_seg {| sg_world := w; sg_wr := sg_wr (e_seg e) |} e).
Proof.
  intros [[B1 B2 B3 B4 B5] Hfo [Hr Hdisj]] Hco Hw Hq.
  assert (Hne : ∀ k v ent, tget (t_addr (tb e)) k = Some v → decode_addr v = Some ent →
    seg_id (ae_addr ent) ≠ p.2).
  { intros k v ent Hv Hd Hs. destruct (Hco _ _ _ Hv Hd Hs) as (r & Hr' & _).
    by apply not_elem_of_nil in Hr'. }
  set (e' := set_e_seg _ e).
  assert (seg_files e' = delete p (seg_files e)) as Hf by done.
  assert (∀ q b, delete p (seg_files e) !! q = Some b → seg_files e !! q = Some b) as Hdel.
  { intros q b Hq'. by apply lookup_delete_Some in Hq' as [_ ?]. }
  split; try done.
  - split; try done.
    + split; try done; change (files (e_seg e')) with (seg_files e'); rewrite Hf; eauto.
    + split; [| done]. rewrite Hf. intros k v Hv. destruct (Hr _ _ Hv) as [d Hd].
      exists d. apply row_unlink; [intros ent; by eapply Hne | done].
  - intros k d. unfold holds, holds_t. rewrite Hf. simpl. split.
    + intros [Hi | (v & Hv & Hrow)]; [by left | right]. exists v. split; [done |].
      apply row_unlink in Hrow; [done | intros ent; by eapply Hne].
    + intros [Hi | (v & Hv & Hrow)]; [by left | right]. exists v. split; [done |].
      apply row_unlink; [intros ent; by eapply Hne | done].
Qed.

Lemma wp_unlink p e (Q : result IoError unit → engine T → Prop) :
  inv e → covered p.2 [] e →
  (∀ e', unlinked p e e' → Q (Ok tt) e') →
  (∀ er s, frame (e_seg e) s → (is_Some (seg_files e !! p) → faults (e_seg e) ≠ []) →
     Q (Err er) (set_e_seg s e)) →
  wp (on_seg (sys (remove_file p))) Q e.
Proof.
  intros HI Hco HO HE. apply wp_on_seg, wp_sys. unfold wp, remove_file.
  destruct (next_fault (sg_world (e_seg e))) as [f w] eqn:Hf.
  assert (w = popw (sg_world (e_seg e))) as -> by (unfold popw; by rewrite Hf).
  destruct f as [f |]; simpl.
  { apply HE; [apply frame_pop | intros _; by eapply next_fault_some]. }
  rewrite popw_seg. destruct (w_seg (sg_world (e_seg e)) !! p) as [b |] eqn:Hb; simpl.
  - apply HO, unlink_unlinked; try done. intros Hq. simpl. by apply popw_faults.
  - apply HE; [apply frame_pop |]. unfold seg_files. rewrite Hb. by intros [? [=]].
Qed.

(** ** Sealed segments and references *)

Lemma elem_of_sealed e id sz :
  inv e → (id, sz) ∈ sealed_segments e ↔
  id ≠ wr_seg_id (sg_wr (e_seg e)) ∧
  ∃ b, seg_files e !! (seg_dir_of e id, id) = Some b ∧ sz = blen b.
Proof.
  intros HI. unfold sealed_segments. rewrite elem_of_concat.
  assert (∀ d : SegDir, (id, sz) ∈ map (λ x, (x.1, blen x.2))
      (filter (λ x, x.1 ≠ wr_seg_id (sg_wr (e_seg e))) (read_dir (seg_files e) d)) ↔
    id ≠ wr_seg_id (sg_wr (e_seg e)) ∧ ∃ b, seg_files e !! (d, id) = Some b ∧ sz = blen b) as Hd.
  { intros d. rewrite list_elem_of_fmap. split.
    - intros ([id' b] & [= -> ->] & [Hne Hin]%list_elem_of_filter).
      apply read_dir_spec in Hin. eauto.
    - intros (Hne & b & Hb & ->). exists (id, b). split; [done |].
      apply list_elem_of_filter. split; [done |]. by apply read_dir_spec. }
  split.
  - intros (l & Hin & Hl). apply list_elem_of_fmap in Hl as (d & -> & Hdir).
    apply Hd in Hin as (Hne & b & Hb & ->). split; [done |]. exists b. split; [| done].
    by rewrite (file_dir _ _ _ _ (inv_wr _ HI) (inv_fo _ HI) Hb).
  - intros (Hne & b & Hb & ->). eexists. split; [apply Hd; eauto |].
    apply list_elem_of_fmap. eexists. split; [done |].
    destruct (seg_dir_of e id); [by left |].
    rewrite <-(inv_fo _ HI), (wb_dirs _ (inv_wr _ HI) _ _ Hb). right. by left.
Qed.

Lemma referenced_fold l (refs : gmap Z Z) k v ent :
  (k, v) ∈ l ∨ is_Some (refs !! seg_id (ae_addr ent)) → decode_addr v = Some ent →
  is_Some (foldl (λ refs x, match decode_addr x.2 with
     | Some e => let s := seg_id (ae_addr e) in <[s := wrap 64 (default 0 (refs !! s) + 1)]> refs
     | None => refs end) refs l !! seg_id (ae_addr ent)).
Proof.
  intros Hin Hd. revert refs Hin. induction l as [| [k' v'] l IH]; intros refs Hin; simpl.
  { destruct Hin as [Hin%not_elem_of_nil | Hs]; done. }
  apply IH. destruct Hin as [[[= <- <-] | Hin]%elem_of_cons | Hs].
  - right. rewrite Hd. simpl. rewrite lookup_insert_eq. eauto.
  - by left.
  - right. destruct (decode_addr v'); [| done]. simpl. rewrite lookup_insert.
    case_decide; eauto.
Qed.

Lemma unreferenced_covered e id :
  referenced_segments (tb e) !! id = None → covered id [] e.
Proof.
  intros Hno k v ent Hv Hd Hs. exfalso. apply elem_of_titer in Hv.
  pose proof (referenced_fold _ ∅ k v ent (or_introl Hv) Hd) as [x Hx].
  rewrite <-Hs in Hno. assert (Some x = None); [| done].
  etransitivity; [symmetry; exact Hx | exact Hno].
Qed.

Lemma gc_victim_sealed e vid vsize vd :
  gc_victim e = Some (vid, vsize, vd) → (vid, vsize) ∈ sealed_segments e.
Proof.
  unfold gc_victim. generalize (sealed_segments e). intros l.
  assert (∀ acc : option (Z * Z * Z), (∀ a b c, acc = Some (a, b, c) → (a, b) ∈ l) →
    ∀ l', (∀ x, x ∈ l' → x ∈ l) →
    foldl (λ v x, let d := discard_of (tb e) x.1 in if d =? 0 then v else
      match v with Some (_, _, vd) => if vd <? d then Some (x.1, x.2, d) else v
                 | None => Some (x.1, x.2, d) end) acc l' = Some (vid, vsize, vd) →
    (vid, vsize) ∈ l) as H; [| by apply (H None)].
  intros acc Hacc l'. revert acc Hacc. induction l' as [| [a b] l' IH]; intros acc Hacc Hl; simpl.
  { apply Hacc. }
  assert ((a, b) ∈ l) as Hab by (apply Hl; by left).
  apply IH; [| intros x Hx; apply Hl; by right].
  intros a' b' c'. destruct (_ =? 0); [apply Hacc |].
  destruct acc as [[[p q] r] |]; [destruct (r <? _); [| apply Hacc] |]; by intros [= <- <- _].
Qed.

(** ** Transactions that only touch counters *)

Lemma bump_fold_same l t : same_data t (foldl (λ t (x : Z * Z), bump_in x.1 x.2 t) t l).
Proof.
  revert t. induction l as [| x l IH]; intros t; [done |]. simpl.
  destruct (IH (bump_in x.1 x.2 t)) as [H1 H2]. by split; [rewrite H1 | rewrite H2].
Qed.

Lemma drop_discard_same ids t : same_data t (drop_discard ids t).
Proof.
  unfold drop_discard. revert t. induction ids as [| x l IH]; intros t; [done |]. simpl.
  destruct (IH (with_meta (tremove (discard_key x)) t)) as [H1 H2].
  by split; [rewrite H1 | rewrite H2].
Qed.

Lemma wp_txn_meta (f : tables T → tables T) (Q : result DomainError unit → engine T → Prop) e :
  (∀ t, same_data t (f t)) →
  (∀ t fs, same_data (tb e) t → (db_faults e = [] → fs = []) →
     Q (Ok tt) (set_tb t (set_db_faults fs e))) →
  (∀ m fs, db_faults e ≠ [] → Q (Err (Io m)) (set_db_faults fs e)) →
  wp (write_txn (λ t, (tt, f t))) Q e.
Proof. intros Hs HO HE. apply wp_txn; [| done]. intros fs Hfs. simpl. by apply HO. Qed.

(** ** gc_once *)

Record kept_ok (e e' : engine T) : Prop := {
  ko_kept : kept e e';
  ko_wr : wr_ok crc32 (e_seg e');
  ko_calm : calm (e_seg e');
  ko_quiet : quiet e → quiet e';
  ko_files : fstep e e';
}.

#[global] Instance kept_ok_trans : Transitive kept_ok.
Proof.
  intros e1 e2 e3 [K1 _ _ Q1 F1] [K2 ? ? Q2 F2].
  split; [by transitivity e2 | done | done | auto | by transitivity e2].
Qed.

Lemma kept_ok_tb e t fs :
  inv e → wr_ok crc32 (e_seg e) → calm (e_seg e) → same_data (tb e) t →
  (db_faults e = [] → fs = []) → kept_ok e (set_tb t (set_db_faults fs e)).
Proof.
  intros HI HW HC Hs Hfs. split; [split | done | done | | by apply fstep_sstep].
  - apply inv_tb; [done |]. eapply same_data_rows; [done | apply HI].
  - intros k d. symmetry. by apply same_data_holds.
  - intros [Hq1 Hq2]. split; [done | by apply Hfs].
Qed.

(** A step of the writer that shows nothing. *)
Lemma kept_ok_frame e s :
  inv e → wr_ok crc32 (e_seg e) → calm (e_seg e) → frame (e_seg e) s → kept_ok e (set_e_seg s e).
Proof.
  intros HI HW HC HF. split; [split | | | | by apply fstep_sstep, frame_sstep].
  - by apply inv_frame.
  - intros k d. by apply holds_frame.
  - by eapply wr_ok_frame.
  - eapply calm_sstep; [by apply frame_sstep | done].
  - intros [Hq1 Hq2]. split; [by apply HF | done].
Qed.

Lemma kept_frame e s : inv e → frame (e_seg e) s → kept e (set_e_seg s e).
Proof. intros HI HF. split; [by apply inv_frame | intros k d; by apply holds_frame]. Qed.

Lemma kept_db_faults e fs : inv e → kept e (set_db_faults fs e).
Proof. intros HI. split; [by apply inv_db_faults | done]. Qed.

Lemma kept_ok_unlinked p e e' :
  wr_ok crc32 (e_seg e) → calm (e_seg e) → wr_seg_id (sg_wr (e_seg e)) ≠ p.2 →
  unlinked p e e' → kept_ok e e'.
Proof.
  intros [HB (b & Hb & Hl & Hs)] HC Hne [HI HS Ht Hc Hw Hf Hq Hdb]. split; [by split | | | |].
  - split; [apply HI |]. exists b. rewrite !Hw. split; [| done].
    change (files (e_seg e')) with (seg_files e'). rewrite Hf, lookup_delete_ne; [done |].
    rewrite (wb_file _ HB). intros Heq. apply Hne. by rewrite Heq.
  - destruct HC as [HC | HC]; [left; by rewrite Hw | right; auto].
  - intros [Hq1 Hq2]. split; [auto | congruence].
  - split; [by rewrite Hw | |]; intros q; rewrite Hf.
    + intros bq _ Hbq. destruct (decide (q = p)) as [-> | Hqp]; [left; apply lookup_delete_eq |].
      right. exists []. by rewrite lookup_delete_ne, app_nil_r.
    + intros _ Hno. by apply lookup_delete_None; right.
Qed.

(** Segment ids for every record of any one segment. *)
Definition gc_room e : Prop :=
  ∀ (dir : SegDir) id b, seg_files e !! (dir, id) = Some b →
    wr_seg_id (sg_wr (e_seg e)) + Z.of_nat (length (scan crc32 id 0 b).1) < 2 ^ 32.

Lemma gc_loop_start e vdir vid b :
  ready e → gc_room e → seg_files e !! (vdir, vid) = Some b →
  vid ≠ wr_seg_id (sg_wr (e_seg e)) →
  gc_loop e vdir vid b (scan crc32 vid 0 b).1 e.
Proof.
  intros HR HRm Hb Hne. pose proof (rd_inv _ HR) as HI. split; try apply HR; try done.
  - by eapply HRm.
  - intros Hl. destruct (decide (wr_seg_id (sg_wr (e_seg e)) < vid)) as [Hlt |]; [| lia].
    destruct (wb_fresh _ (inv_wr _ HI) _ _ _ Hb Hlt) as [-> _]. done.
  - intros k v ent Hv Hd Hs.
    destruct (victim_row _ _ _ _ _ _ _ HI Hb Hv Hd Hs) as (rec & d & Hin & Hk & Ha & _). eauto.
Qed.

(** The end of [gc_rewrite]: flush, unlink, drop the counter. *)
Lemma wp_gc_finish {B} e0 e h vdir vid (k : unit → M (engine T * list (engine T)) DomainError B)
    (Q : result DomainError B → engine T * list (engine T) → Prop) :
  kept_ok e0 e → early e0 e h → covered vid [] e →
  is_Some (seg_files e !! (vdir, vid)) → wr_seg_id (sg_wr (e_seg e)) ≠ vid →
  (∀ e' h', kept_ok e0 e' → late e0 e' h' → (∀ dir : SegDir, seg_files e' !! (dir, vid) = None) → wp (k tt) Q (e', h')) →
  (∀ er e' h', kept e0 e' → ¬ quiet e0 → passed e0 h' → Q (Err er) (e', h')) →
  wp (mthen (mmap_err io_err (witnessed _ _ (on_seg flush))) (λ _,
      mthen (mmap_err io_err (witnessed _ _ (on_seg (sys (remove_file (vdir, vid)))))) (λ _,
      mthen (witnessed _ _ (write_txn (λ t, (tt, drop_discard [vid] t)))) k))) Q (e, h).
Proof.
  intros K0 HT HCo [b HV] Hne HO HE. pose proof K0 as [[HI HS] HW HC HQ0 _].
  do 2 wp_step. apply wp_witnessed, wp_on_seg, wp_flush.
  2: { intros er s Hf HF. pose proof (kept_frame _ _ HI HF) as K1.
       assert (kept e0 (set_e_seg s e)) as K01 by (transitivity e; [apply K0 | done]).
       apply HE; [done | by intros [? _]%HQ0 |]. eapply early_passed, early_step; [exact HT | done |].
       by apply widened_sstep, frame_sstep. }
  intros s HF. do 2 wp_step. pose proof (kept_ok_frame _ _ HI HW HC HF) as K1.
  set (e1 := set_e_seg s e) in *. assert (kept_ok e0 e1) as K01 by (by transitivity e).
  assert (early e0 e1 (h ++ [e1])) as HT1 by (eapply early_step; [exact HT | apply K01 | by apply widened_sstep, frame_sstep]).
  destruct (frame_core _ _ HF) as (_ & _ & Hid & _).
  assert (seg_files e1 !! (vdir, vid) = Some b) as HV1.
  { unfold seg_files, e1 in *. simpl. destruct HF as (HF & _). unfold files in HF. by rewrite HF. }
  apply wp_witnessed, wp_unlink; [apply K1 | done | |].
  2: { intros er s' HF' Hf. assert (kept e0 (set_e_seg s' e1)) as K2.
       { transitivity e1; [apply K01 |]. apply kept_frame; [apply K1 | done]. }
       apply HE; [done | |].
       - intros [Hq _]%(ko_quiet _ _ K01). by apply Hf; [eauto |].
       - eapply early_passed, early_step; [exact HT1 | done |]. by apply widened_sstep, frame_sstep. }
  intros e2 U. wp_step.
  assert (kept_ok e1 e2) as K12 by (apply (kept_ok_unlinked (vdir, vid)); [apply K1 | apply K1 | simpl; by rewrite Hid | done]).
  assert (kept_ok e0 e2) as K2 by (by transitivity e1).
  assert (late e0 e2 ((h ++ [e1]) ++ [e2])) as HT2 by (eapply late_start; [exact HT1 | apply K2 | apply K12]).
  assert (∀ dir : SegDir, seg_files e2 !! (dir, vid) = None) as HV2.
  { intros dir. rewrite (ul_files _ _ _ U). destruct (decide (dir = vdir)) as [-> | Hd].
    - apply lookup_delete_eq.
    - rewrite lookup_delete_ne by congruence.
      destruct (seg_files e1 !! (dir, vid)) as [b' |] eqn:Hb'; [| done].
      pose proof (wb_unique _ (inv_wr _ (kp_inv _ _ (ko_kept _ _ K1))) vid) as Hu.
      destruct dir, vdir; try done; exfalso; eauto. }
  apply wp_witnessed, wp_txn_meta; [intros; apply drop_discard_same | |].
  - intros t fs Hs Hfs. assert (kept_ok e2 (set_tb t (set_db_faults fs e2))) as K23 by (by apply kept_ok_tb; try apply K2).
    assert (kept_ok e0 (set_tb t (set_db_faults fs e2))) as K3 by (by transitivity e2).
    apply HO; [done | | done]. eapply late_step; [exact HT2 | apply K3 | apply K23 | done].
  - intros m fs Hfs. assert (kept e2 (set_db_faults fs e2)) as K23 by (apply kept_db_faults, K2).
    assert (kept e0 (set_db_faults fs e2)) as K3 by (transitivity e2; [apply K2 | done]).
    apply HE; [done | intros Hq; by destruct (ko_quiet _ _ K2 Hq) |].
    eapply late_passed, late_step; [exact HT2 | done | by apply fstep_sstep | done].
Qed.

(** The accounts of the copies that lost the race. *)
Lemma wp_gc_lost e0 e h (lost : list (Z * Z)) (Q : result DomainError unit → engine T * list (engine T) → Prop) :
  kept_ok e0 e → early e0 e h →
  (∀ e' h', kept_ok e0 e' → early e0 e' h' → e_seg e' = e_seg e → t_addr (tb e') = t_addr (tb e) → Q (Ok tt) (e', h')) →
  (∀ er e' h', kept e0 e' → ¬ quiet e0 → passed e0 h' → Q (Err er) (e', h')) →
  wp (match lost with
      | [] => mret tt
      | x :: l => witnessed _ _ (write_txn (λ t, (tt, foldl (λ t (x : Z * Z), bump_in x.1 x.2 t) t (x :: l))))
      end) Q (e, h).
Proof.
  intros K HT HO HE. destruct lost as [| x lost]; [by apply wp_ret, HO |].
  apply wp_witnessed, wp_txn_meta; [intros; apply bump_fold_same | |].
  - intros t fs Hs Hfs. assert (kept_ok e (set_tb t (set_db_faults fs e))) as K1 by (by apply kept_ok_tb; try apply K).
    assert (kept_ok e0 (set_tb t (set_db_faults fs e))) as K01 by (by transitivity e).
    apply HO; [done | | done | apply Hs]. eapply early_step; [exact HT | apply K01 | by apply widened_same].
  - intros m fs Hfs. assert (kept e0 (set_db_faults fs e)) as K1 by (transitivity e; [apply K | apply kept_db_faults, K]).
    apply HE; [done | intros Hq; by destruct (ko_quiet _ _ K Hq) |].
    eapply early_passed, early_step; [exact HT | done | by apply widened_same].
Qed.

(** Since [e0] nothing happened that could be seen; now collect. *)
Lemma gc_loop_since e0 e vdir vid b :
  kept_ok e0 e → gc_loop e vdir vid b (scan crc32 vid 0 b).1 e → gc_loop e0 vdir vid b (scan crc32 vid 0 b).1 e.
Proof. intros [[_ HS] _ _ HQ HF] []. by split. Qed.

(** The files of a victim that has been collected are gone. *)
Lemma wp_gc_rewrite e0 e h vid vsize (Q : result DomainError nat → engine T * list (engine T) → Prop) :
  kept_ok e0 e → early e0 e h → ready e → gc_room e → (vid, vsize) ∈ sealed_segments e →
  (∀ n e' h', kept_ok e0 e' → late e0 e' h' → (∀ dir : SegDir, seg_files e' !! (dir, vid) = None) → Q (Ok n) (e', h')) →
  (∀ er e' h', kept e0 e' → ¬ quiet e0 → passed e0 h' → Q (Err er) (e', h')) →
  wp (gc_rewrite witnessed vid vsize) Q (e, h).
Proof.
  intros K0 HT HR HRm Hseal HO HE. pose proof (rd_inv _ HR) as HI.
  apply (elem_of_sealed _ _ _ HI) in Hseal as (Hne & b & Hb & _).
  unfold gc_rewrite. wp_step. apply wp_witnessed. wp_step. set (vdir := seg_dir_of e vid) in *.
  assert (early e0 e (h ++ [e])) as HT0 by (eapply early_step; [exact HT | apply K0 | done]).
  unfold scan_segment. do 2 wp_step. rewrite Hb.
  eapply wp_gc_loop; [apply gc_loop_since; [exact K0 | by apply gc_loop_start] | exact HT0 | | intros; by apply HE].
  intros [moved lost] e1 h1 [HI1 HW1 HC1 _ _ HS1 HV1 _ _ HCo1 Hac1 HQ1 HF1] HT1. wp_step.
  assert (K1 : kept_ok e0 e1) by done. clear HW1 HC1 HQ1 HS1 HF1.
  cbn [fst snd]. apply (wp_gc_lost e0 e1 h1 lost); [done | done | | done]. intros e2 h2 K2 HT2 Hse2 Hta2. cbv beta iota.
  apply (wp_gc_finish e0 e2 h2 vdir vid); [done | done | | | | | done].
  - intros k v ent. rewrite Hta2. apply HCo1.
  - unfold seg_files in *. rewrite Hse2. eauto.
  - by rewrite Hse2.
  - intros e3 h3 K3 HT3 HV3. wp_step. apply wp_witnessed. do 2 wp_step.
    assert (kept_ok e0 (sub_used vsize e3)) as K4.
    { destruct K3 as [[HI3 HS3] HW3 HC3 HQ3 HF3].
      split; [split; [by apply inv_set_used | done] | done | done | done | by destruct HF3]. }
    apply HO; [done | | done]. eapply late_step; [exact HT3 | apply K4 | by apply fstep_sstep | done].
Qed.

(** The orphan sweep from an engine whose writer is in step. *)
Lemma wp_sweep_orphans e0 e h report (Q : result DomainError GcReport → engine T * list (engine T) → Prop) :
  kept_ok e0 e → early e0 e h ∨ late e0 e h →
  (∀ rep e' h', kept_ok e0 e' → late e0 e' h' → victim_seg rep = victim_seg report →
     (∀ p, seg_files e !! p = None → seg_files e' !! p = None) → Q (Ok rep) (e', h')) →
  (∀ er e' h', kept e0 e' → ¬ quiet e0 → passed e0 h' → Q (Err er) (e', h')) →
  wp (sweep_orphans witnessed report) Q (e, h).
Proof.
  intros K0 HT HO HE. pose proof K0 as [[HI _] _ _ _ _]. unfold sweep_orphans. wp_step. apply wp_witnessed. wp_step.
  assert (late e0 e (h ++ [e])) as HT0.
  { destruct HT; [eapply late_start | eapply late_step]; try done; apply K0. }
  wp_step. set (I := λ e' h', kept_ok e0 e' ∧ late e0 e' h' ∧ tb e' = tb e ∧
    wr_seg_id (sg_wr (e_seg e')) = wr_seg_id (sg_wr (e_seg e)) ∧
    (∀ p, seg_files e !! p = None → seg_files e' !! p = None)).
  assert (∀ l acc e1 h1, I e1 h1 → (∀ x, x ∈ l → x ∈ sealed_segments e) → victim_seg acc.1 = victim_seg report →
    wp (mfold (sweep_orphan witnessed (referenced_segments (tb e))) acc l)
      (λ r s, I s.1 s.2 ∧ ∃ acc', r = Ok acc' ∧ victim_seg acc'.1 = victim_seg report) (e1, h1)) as Hloop.
  { intros l. induction l as [| x l IH]; intros acc e1 h1 HI1 Hl Hacc; simpl.
    { apply wp_ret. eauto. }
    assert (∀ y, y ∈ l → y ∈ sealed_segments e) as Hl' by (intros y Hy; apply Hl; by right).
    wp_step. unfold sweep_orphan at 1. destruct (_ !! x.1) eqn:Hno; [wp_step; by apply IH |].
    destruct HI1 as (K1 & HT1 & Ht1 & Hid1 & Hf1).
    wp_step. apply wp_witnessed. do 2 wp_step. apply wp_witnessed, wp_unlink; [apply K1 | | |].
    - apply unreferenced_covered. by rewrite Ht1.
    - intros e2 U. wp_step. assert (kept_ok e1 e2) as K12.
      { eapply kept_ok_unlinked; [apply K1 | apply K1 | | done].
        simpl. rewrite Hid1. destruct x as [id sz]. specialize (Hl (id, sz) ltac:(by left)).
        apply (elem_of_sealed _ _ _ HI) in Hl as [Hne _]. simpl in *. congruence. }
      assert (kept_ok e0 e2) as K2 by (by transitivity e1).
      apply IH; [| done | done]. split_and!; [done | | | |].
      + eapply late_step; [eapply late_step; [exact HT1 | apply K1 | done | done] | apply K2 | apply K12 |].
        unfold same_rows. by rewrite (ul_tb _ _ _ U).
      + by rewrite (ul_tb _ _ _ U).
      + by rewrite (ul_wr _ _ _ U).
      + intros p Hp. rewrite (ul_files _ _ _ U). apply lookup_delete_None. auto.
    - intros er s HF _. wp_step. assert (kept_ok e1 (set_e_seg s e1)) as K12 by (by apply kept_ok_frame; try apply K1).
      assert (kept_ok e0 (set_e_seg s e1)) as K2 by (by transitivity e1). apply IH; [| done | done]. split_and!; try done.
      + eapply late_step; [eapply late_step; [exact HT1 | apply K1 | done | done] | apply K2 | apply K12 | done].
      + destruct (frame_core _ _ HF) as (_ & _ & Hid & _). simpl. by rewrite Hid.
      + intros p Hp. destruct HF as (HF & _). unfold seg_files, files in *. simpl.
        rewrite HF. by apply Hf1. }
  eapply wp_mono; [apply (Hloop _ (report, []) e (h ++ [e])); [| done | done] |].
  { by split_and!. }
  intros r [e1 h1] [(K1 & HT1 & Ht1 & Hid1 & Hf1) ([rep ids] & -> & Hrep)]. simpl in *. wp_step.
  destruct ids as [| id ids]; [do 2 wp_step; by apply HO |].
  apply wp_witnessed, wp_txn_meta; [intros; apply drop_discard_same | |].
  - intros t fs Hs Hfs. wp_step. assert (kept_ok e1 (set_tb t (set_db_faults fs e1))) as K12 by (by apply kept_ok_tb; try apply K1).
    assert (kept_ok e0 (set_tb t (set_db_faults fs e1))) as K2 by (by transitivity e1).
    apply HO; [done | | done | done]. eapply late_step; [exact HT1 | apply K2 | apply K12 | done].
  - intros m fs Hfs. assert (kept e0 (set_db_faults fs e1)) as K2 by (transitivity e1; [apply K1 | apply kept_db_faults, K1]).
    apply HE; [done | intros Hq; by destruct (ko_quiet _ _ K1 Hq) |].
    eapply late_passed, late_step; [exact HT1 | done | by apply fstep_sstep | done].
Qed.

(** *** The whole pass *)

(** What a pass of [gc_once] comes to. *)
Definition gc_outcome e (r : result DomainError GcReport) e' : Prop :=
  match r with
  | Ok rep => kept_ok e e' ∧ ∀ vid, victim_seg rep = Some vid → ∀ dir : SegDir, seg_files e' !! (dir, vid) = None
  | Err _ => kept e e' ∧ ¬ quiet e
  end.

Lemma wp_gc_pass e ratio :
  ready e → gc_room e → wp (gc_pass witnessed ratio) (λ r s, gc_outcome e r s.1 ∧ passed e s.2) (e, [e]).
Proof.
  intros HR HRm. pose proof (rd_inv _ HR) as HI. unfold gc_pass. wp_step. apply wp_witnessed. do 2 wp_step.
  apply wp_witnessed. wp_step.
  set (e0 := set_gc_pass (wrap 32 (gc_pass_count e + 1)) e).
  assert (kept_ok e e0) as K0.
  { destruct HR as [[HB Hfo Hr] ? ? ? ? ?]. split; [split; [by split | done] | done | done | done | by apply fstep_sstep]. }
  assert (kept e e) as Ke by done. pose proof (early_here e HI) as HT.
  assert (early e e0 (([e] ++ [e]) ++ [e0])) as HT0.
  { eapply early_step; [by eapply early_step; [exact HT | |] | apply K0 | by apply widened_same]. }
  assert (ready e0) as HR0.
  { destruct HR as [? ? ? ? ? ?]. split; try done. apply K0. }
  assert (gc_room e0) as HRm0 by done.
  assert (∀ report e1 h1, kept_ok e e1 → early e e1 h1 ∨ late e e1 h1 →
    (∀ vid, victim_seg report = Some vid → ∀ dir : SegDir, seg_files e1 !! (dir, vid) = None) →
    wp (if gc_pass_count e mod 5 =? 0 then sweep_orphans witnessed report else mret report)
      (λ r s, gc_outcome e r s.1 ∧ passed e s.2) (e1, h1)) as Hfin.
  { intros report e1 h1 K1 HT1 Hvid. destruct (_ =? 0).
    2: { wp_step. split; [done |]. destruct HT1; [by eapply early_passed | by eapply late_passed]. }
    eapply wp_sweep_orphans; [exact K1 | exact HT1 | | by intros].
    intros rep e2 h2 K2 HT2 Hv Hf. split; [| by eapply late_passed]. split; [done |]. rewrite Hv. auto. }
  assert (gc_victim e = gc_victim e0) as -> by done.
  destruct (gc_victim e0) as [[[vid vsize] vd] |] eqn:Hv; [| by apply Hfin; [| left |]].
  destruct (below_ratio _ _ _); [by apply Hfin; [| left |] |].
  wp_step. eapply wp_gc_rewrite; [exact K0 | exact HT0 | done | done | by eapply gc_victim_sealed | | by intros].
  intros n e1 h1 K1 HT1 Hf. apply Hfin; [done | by right |]. simpl. by intros ? [= <-].
Qed.

(** *** The pass on record is the pass *)

Local Abbreviation plain := (λ (X A : Type) (c : M (engine T) X A), c).

(** [c'] does what [c] does, and records. *)
Definition records {X A} (c : M (engine T) X A) (c' : M (engine T * list (engine T)) X A) : Prop :=
  ∀ e h, (c' (e, h)).1 = (c e).1 ∧ (c' (e, h)).2.1 = (c e).2.

Lemma records_ret {X A} (a : A) : records (X := X) (mret a) (mret a).
Proof. done. Qed.
Lemma records_throw {X A} (x : X) : records (A := A) (mthrow x) (mthrow x).
Proof. done. Qed.
Lemma records_act {X A} (c : M (engine T) X A) : records c (witnessed X A c).
Proof. done. Qed.
Lemma records_then {X A B} (c : M (engine T) X A) c' (f : A → M (engine T) X B) (f' : A → M _ X B) :
  records c c' → (∀ a, records (f a) (f' a)) → records (mthen c f) (mthen c' f').
Proof.
  intros Hc Hk e h. destruct (Hc e h) as [H1 H2]. unfold mthen. destruct (c e) as [r e1], (c' (e, h)) as [r' [e1' h1]].
  simpl in *. subst. destruct r; [apply Hk | done].
Qed.
Lemma records_catch {X X' A B} (c : M (engine T) X A) c' (f : result X A → M (engine T) X' B) (f' : result X A → M _ X' B) :
  records c c' → (∀ a, records (f a) (f' a)) → records (mcatch c f) (mcatch c' f').
Proof.
  intros Hc Hk e h. destruct (Hc e h) as [H1 H2]. unfold mcatch. destruct (c e) as [r e1], (c' (e, h)) as [r' [e1' h1]].
  simpl in *. subst. apply Hk.
Qed.
Lemma records_map_err {X X' A} (f : X → X') (c : M (engine T) X A) c' :
  records c c' → records (mmap_err f c) (mmap_err f c').
Proof.
  intros Hc e h. destruct (Hc e h) as [H1 H2]. unfold mmap_err. destruct (c e) as [r e1], (c' (e, h)) as [r' [e1' h1]].
  simpl in *. by subst.
Qed.
Lemma records_fold {X A B} (f : B → A → M (engine T) X B) f' acc l :
  (∀ acc a, records (f acc a) (f' acc a)) → records (mfold f acc l) (mfold f' acc l).
Proof.
  intros Hf. revert acc. induction l as [| a l IH]; intros acc; simpl; [apply records_ret |]. by apply records_then.
Qed.

Ltac records_step :=
  match goal with
  | |- ∀ _, _ => intro
  | |- records (if ?b then _ else _) _ => destruct b
  | |- records (match ?x with _ => _ end) _ => destruct x
  | |- records (mret _) _ => apply records_ret
  | |- records (mthrow _) _ => apply records_throw
  | |- records (mthen _ _) _ => apply records_then
  | |- records (mcatch _ _) _ => apply records_catch
  | |- records (mmap_err _ _) _ => apply records_map_err
  | |- records (mfold _ _ _) _ => apply records_fold
  | |- records _ (witnessed _ _ _) => apply records_act
  end.

Lemma gc_once_on_record ratio e h :
  gc_once ratio e = ((gc_pass witnessed ratio (e, h)).1, (gc_pass witnessed ratio (e, h)).2.1).
Proof.
  assert (records (gc_pass plain ratio) (gc_pass witnessed ratio)) as Hrec.
  { unfold gc_pass, gc_rewrite, sweep_orphans, sweep_orphan, scan_segment, gc_record. cbv zeta. repeat (records_step; cbv beta zeta). }
  destruct (Hrec e h) as [-> ->]. apply surjective_pairing.
Qed.

(** [gc_once]. *)
Lemma wp_gc_once e ratio (Q : result DomainError GcReport → engine T → Prop) :
  ready e → gc_room e →
  (∀ rep e', kept_ok e e' →
     (∀ vid, victim_seg rep = Some vid → ∀ dir : SegDir, seg_files e' !! (dir, vid) = None) →
     Q (Ok rep) e') →
  (∀ er e', kept e e' → ¬ quiet e → Q (Err er) e') →
  wp (gc_once ratio) Q e.
Proof.
  intros HR HRm HO HE. pose proof (wp_gc_pass e ratio HR HRm) as [Hout _]. unfold wp in *.
  rewrite (gc_once_on_record ratio e [e]). cbn [fst snd]. unfold gc_outcome in Hout.
  destruct (gc_pass witnessed ratio (e, [e])) as [r [e' h]]. cbn [fst snd] in *. destruct r; [apply HO | eapply HE]; apply Hout.
Qed.

(** The engine after the pass is the last of its moments. *)
Lemma gc_moments_passed e ratio : ready e → gc_room e → passed e (gc_moments ratio e).
Proof. intros HR HRm. apply (wp_gc_pass e ratio HR HRm). Qed.
End EngineGcFacts.

(** * Listing pages of the engine

    [engine_list] merges the ranges of the two tables: the page it returns is
    a [list_page] of the keys the index has, whatever the state of the
    segments, as long as no key is in both tables and the cursor is not before
    the prefix. *)

(** ** The two loops *)

Definition sized (f : bytes → Z) (e : bytes * bytes) : BlockKey * Z := (e.1, f e.2).

Lemma fst_sized f l : (map (sized f) l).*1 = l.*1.
Proof. induction l as [| [k v] l IH]; [done |]. rewrite map_cons, !fmap_cons, IH. done. Qed.

(** After the first key without the prefix there is none with it. *)
Lemma filter_prefix_nil prefix k v (l : list (bytes * bytes)) :
  StronglySorted bytes_lt (k :: l.*1) → bytes_le prefix k → ¬ prefix `prefix_of` k →
  filter (λ e, prefix `prefix_of` e.1) ((k, v) :: l) = [].
Proof.
  intros Hs Hle Hn. apply StronglySorted_inv in Hs as [_ Hall]. rewrite Forall_forall in Hall.
  rewrite filter_cons_False by done. apply elem_of_nil_inv.
  intros [k' v'] [Hp Hin]%list_elem_of_filter. simpl in Hp. apply Hn. eapply prefix_interval; [done | | done].
  apply bytes_lt_le, Hall. apply list_elem_of_fmap. by exists (k', v').
Qed.

Lemma list_inline_spec prefix rows :
  StronglySorted bytes_lt rows.*1 → (∀ k, k ∈ rows.*1 → bytes_le prefix k) →
  list_inline prefix rows = map (sized blen) (filter (λ e, prefix `prefix_of` e.1) rows).
Proof.
  induction rows as [| [k v] rows IH]; intros Hs Hle; [done |]. simpl list_inline.
  unfold starts_with. case_bool_decide as Hp.
  - rewrite filter_cons_True by done. simpl. rewrite IH; [done | |].
    + by apply StronglySorted_inv in Hs as [Hs _].
    + intros k' Hk'. apply Hle. by right.
  - by rewrite filter_prefix_nil; [| | apply Hle; left |].
Qed.

Lemma list_addr_spec prefix limit rows out :
  StronglySorted bytes_lt rows.*1 → (∀ k, k ∈ rows.*1 → bytes_le prefix k) →
  (out = [] ∨ length out < limit)%nat →
  list_addr prefix limit rows out =
    out ++ take (Nat.max 1 (limit - length out))
             (map (sized row_size) (filter (λ e, prefix `prefix_of` e.1) rows)).
Proof.
  revert out. induction rows as [| [k v] rows IH]; intros out Hs Hle Hout; simpl list_addr.
  { simpl. by rewrite take_nil, app_nil_r. }
  unfold starts_with. case_bool_decide as Hp.
  - rewrite filter_cons_True by done. simpl map. change (sized row_size (k, v)) with (k, row_size v).
    rewrite length_app. simpl length.
    destruct (Nat.ltb_spec (length out + 1) limit) as [Hlt | Hge].
    + rewrite IH.
      * rewrite <-app_assoc. f_equal. rewrite length_app. simpl.
        replace (Nat.max 1 (limit - length out))
          with (S (Nat.max 1 (limit - (length out + 1)))) by lia. done.
      * by apply StronglySorted_inv in Hs as [Hs _].
      * intros k' Hk'. apply Hle. by right.
      * right. rewrite length_app. simpl. lia.
    + replace (Nat.max 1 (limit - length out)) with 1%nat; [done |].
      destruct Hout as [-> | Hout]; simpl in *; lia.
  - rewrite filter_prefix_nil; [simpl; by rewrite take_nil, app_nil_r | done | | done].
    apply Hle. left.
Qed.

(** ** Sorting and deduplication *)

#[global] Instance pair_le_trans : Transitive pair_le.
Proof.
  intros [k1 v1] [k2 v2] [k3 v3]. unfold pair_le. simpl.
  intros [H1 | [-> H1]] [H2 | [-> H2]]; auto.
  - left. by etransitivity.
  - right. split; [done | lia].
Qed.

#[global] Instance pair_le_total : Total pair_le.
Proof.
  intros [k1 v1] [k2 v2]. unfold pair_le. simpl.
  destruct (bytes_cmp k1 k2) eqn:Hc.
  - apply bytes_cmp_eq in Hc as ->. destruct (Z.le_ge_cases v1 v2); auto.
  - auto.
  - right. left. unfold bytes_lt. by rewrite bytes_cmp_antisym, Hc.
Qed.

Lemma pair_sorted_lt (l : list (BlockKey * Z)) :
  NoDup l.*1 → StronglySorted pair_le l → StronglySorted bytes_lt l.*1.
Proof.
  induction l as [| [k v] l IH]; simpl; intros Hnd Hs; [constructor |].
  apply NoDup_cons in Hnd as [Hk Hnd]. apply StronglySorted_inv in Hs as [Hs Hall].
  constructor; [by apply IH |]. rewrite Forall_forall in Hall. apply Forall_forall.
  intros k' Hk'. apply list_elem_of_fmap in Hk' as ([k2 v2] & -> & Hin).
  destruct (Hall _ Hin) as [Hlt | [Heq _]]; [done |]. simpl in Heq. subst.
  destruct Hk. apply list_elem_of_fmap. by exists (k2, v2).
Qed.

Lemma dedup_after_sorted prev l :
  (∀ k, k ∈ l.*1 → bytes_lt prev k) → StronglySorted bytes_lt l.*1 → dedup_after prev l = l.
Proof.
  revert prev. induction l as [| [k v] l IH]; intros prev Hlt Hs; [done |]. simpl.
  rewrite bool_decide_eq_false_2.
  - apply StronglySorted_inv in Hs as [Hs Hall]. rewrite Forall_forall in Hall. by rewrite IH.
  - intros ->. assert (bytes_lt prev prev) as H by (apply Hlt; left). by apply bytes_lt_irrefl in H.
Qed.

Lemma dedup_key_sorted l : StronglySorted bytes_lt l.*1 → dedup_key l = l.
Proof.
  destruct l as [| [k v] l]; [done |]. simpl. intros Hs.
  apply StronglySorted_inv in Hs as [Hs Hall]. rewrite Forall_forall in Hall.
  by rewrite dedup_after_sorted.
Qed.

Section EngineList.
Context {T : Type → Type} `{RT : !RedbTable T, RTS : !RedbTableSpec T} `{EE : !EngineEnv}.
Implicit Types (e : engine T) (t : tables T) (k : BlockKey).

(** What a listing shows of a key. *)
Definition shown t k (sz : Z) : Prop :=
  (∃ v, tget (t_addr t) k = Some v ∧ sz = row_size v) ∨
  (∃ d, tget (t_inline t) k = Some d ∧ sz = blen d).

Definition disjoint_tables t : Prop := ∀ k, tget (t_addr t) k = None ∨ tget (t_inline t) k = None.

(** The range of a table from the cursor, with the prefix. *)
Definition matching (t : T bytes) (prefix : bytes) (after : option BlockKey) : list (bytes * bytes) :=
  filter (λ x, prefix `prefix_of` x.1) (trange t (list_start prefix after)).

Lemma start_match prefix after k :
  bytes_le prefix (list_start prefix after) → prefix `prefix_of` k →
  bytes_le (list_start prefix after) k ↔ match after with Some a => bytes_lt a k | None => True end.
Proof.
  intros _ Hp. destruct after as [a |]; simpl; [apply bytes_succ_le |].
  split; [done |]. intros _. by apply prefix_bytes_le.
Qed.

Lemma elem_of_matching (t : T bytes) prefix after k v :
  bytes_le prefix (list_start prefix after) →
  (k, v) ∈ matching t prefix after ↔
  tget t k = Some v ∧ prefix `prefix_of` k ∧ match after with Some a => bytes_lt a k | None => True end.
Proof.
  intros Hst. unfold matching. rewrite list_elem_of_filter, elem_of_trange. simpl. split.
  - intros (Hp & Hv & Hle). apply start_match in Hle; auto.
  - intros (Hv & Hp & Ha). split; [done | split; [done |]]. by apply start_match.
Qed.

Lemma matching_sorted (t : T bytes) prefix after : StronglySorted bytes_lt (matching t prefix after).*1.
Proof. apply sorted_fst_filter, trange_sorted. Qed.

Lemma trange_above (t : T bytes) prefix after k :
  bytes_le prefix (list_start prefix after) →
  k ∈ (trange t (list_start prefix after)).*1 → bytes_le prefix k.
Proof.
  intros Hst ([k' v] & -> & Hin)%list_elem_of_fmap. apply elem_of_trange in Hin as [_ Hle].
  simpl. by etransitivity.
Qed.

Lemma engine_list_page e prefix after limit :
  disjoint_tables (tb e) → bytes_le prefix (list_start prefix after) →
  ∃ out, engine_list e prefix after limit = Ok out ∧ list_page (shown (tb e)) prefix after limit out.
Proof.
  intros Hdisj Hst. eexists. split; [done |].
  set (A0 := map (sized row_size) (matching (t_addr (tb e)) prefix after)).
  set (A := take (Nat.max 1 limit) A0).
  set (I := map (sized blen) (matching (t_inline (tb e)) prefix after)).
  assert (list_addr prefix limit (trange (t_addr (tb e)) (list_start prefix after)) [] = A) as ->.
  { rewrite list_addr_spec; [| apply trange_sorted | intros k; by apply trange_above | by left].
    simpl. by rewrite Nat.sub_0_r. }
  assert (list_inline prefix (trange (t_inline (tb e)) (list_start prefix after)) = I) as ->.
  { apply list_inline_spec; [apply trange_sorted | intros k; by apply trange_above]. }
  set (L := merge_sort pair_le (A ++ I)).
  assert (L ≡ₚ A ++ I) as HL by apply merge_sort_Permutation.
  assert (StronglySorted bytes_lt A0.*1) as HsA0 by (unfold A0; rewrite fst_sized; apply matching_sorted).
  assert (StronglySorted bytes_lt A.*1) as HsA by (by apply sorted_take).
  assert (StronglySorted bytes_lt I.*1) as HsI by (unfold I; rewrite fst_sized; apply matching_sorted).
  assert (∀ k sz, (k, sz) ∈ A0 ↔ ∃ v, sz = row_size v ∧ (k, v) ∈ matching (t_addr (tb e)) prefix after) as HinA.
  { intros k sz. unfold A0. rewrite list_elem_of_fmap. unfold sized. split.
    - intros ([k' v] & [= -> ->] & Hin). eauto.
    - intros (v & -> & Hin). by exists (k, v). }
  assert (∀ k sz, (k, sz) ∈ I ↔ ∃ v, sz = blen v ∧ (k, v) ∈ matching (t_inline (tb e)) prefix after) as HinI.
  { intros k sz. unfold I. rewrite list_elem_of_fmap. unfold sized. split.
    - intros ([k' v] & [= -> ->] & Hin). eauto.
    - intros (v & -> & Hin). by exists (k, v). }
  assert (∀ x, x ∈ A → x ∈ A0) as HAA0 by (intros x; apply elem_of_take_in).
  assert (NoDup L.*1) as HndL.
  { rewrite HL, fmap_app. apply NoDup_app. split_and!; [by apply sorted_NoDup | | by apply sorted_NoDup].
    intros k ([k1 s1] & -> & H1%HAA0%HinA)%list_elem_of_fmap ([k2 s2] & Hk & H2%HinI)%list_elem_of_fmap.
    simpl in Hk. subst k2. destruct H1 as (v1 & _ & H1), H2 as (v2 & _ & H2).
    apply elem_of_matching in H1 as [H1 _], H2 as [H2 _]; [| done | done].
    simpl in *. destruct (Hdisj k1); congruence. }
  assert (StronglySorted bytes_lt L.*1) as HsL by (apply pair_sorted_lt; [done | apply (StronglySorted_merge_sort pair_le)]).
  rewrite dedup_key_sorted by done. split.
  - by apply sorted_take.
  - intros k sz Hin%elem_of_take_in. rewrite HL in Hin. unfold list_match, shown.
    apply elem_of_app in Hin as [Hin%HAA0%HinA | Hin%HinI];
      destruct Hin as (v & -> & (Hv & Hp & Ha)%elem_of_matching); try done; eauto 10.
  - rewrite length_take. lia.
  - intros k sz ([(v & Hv & ->) | (v & Hv & ->)] & Hp & Ha).
    + assert ((k, row_size v) ∈ A0) as Hin.
      { apply HinA. exists v. split; [done |]. by apply elem_of_matching. }
      destruct (sorted_take_complete (Nat.max 1 limit) A0 k HsA0) as [HkA | [Hlen Hbelow]].
      { apply list_elem_of_fmap. by exists (k, row_size v). }
      * apply sorted_take_complete; [done |]. rewrite HL, fmap_app. apply elem_of_app. by left.
      * right. apply (sorted_take_below _ _ A.*1); [done | by apply sorted_NoDup | |].
        -- rewrite length_fmap. unfold A. lia.
        -- intros k0 Hk0. split; [| by apply Hbelow]. rewrite HL, fmap_app. apply elem_of_app. by left.
    + apply sorted_take_complete; [done |]. rewrite HL, fmap_app. apply elem_of_app. right.
      apply list_elem_of_fmap. exists (k, blen v). split; [done |].
      apply HinI. exists v. split; [done |]. by apply elem_of_matching.
Qed.
End EngineList.
