(* ===== verification/Instances.v ===== *)
(** * A concrete environment

    Executable stand-ins for the third-party code, with which the examples
    and witnesses run: a byte-sum checksum, a compressor of constant data and
    the directory order of [map_to_list]. They satisfy the assumptions of
    [EngineEnvSpec]. *)

From Stdlib Require Import ZArith Lia Strings.Byte.
From stdpp Require Import base list gmap strings.
From S2P Require Import Prelude Domain Table Piece Segment Writer Engine EngineGc EngineInv EngineOps.
Open Scope Z_scope.

Definition sum_crc (b : bytes) : Z :=
  wrap 32 (foldl (λ a x, 31 * a + Byte.byte.unsigned x + 1) 7 b).

Definition rle_compress (d : bytes) : option bytes :=
  match d with
  | x :: l => if forallb (λ y, bool_decide (y = x)) l then Some [x] else None
  | [] => None
  end.

Definition rle_decompress (c : bytes) (n : Z) : option bytes :=
  match c with [x] => Some (repeat x (Z.to_nat n)) | _ => None end.

Definition dir_entries (m : gmap (SegDir * Z) bytes) (d : SegDir) : list (Z * bytes) :=
  omap (λ x : (SegDir * Z) * bytes, if decide (x.1.1 = d) then Some (x.1.2, x.2) else None) (map_to_list m).

Definition err_text (e : IoError) : string :=
  match e with
  | ENotFound => "not found" | EUnexpectedEof => "unexpected end of file"
  | EInvalidData => "crc mismatch" | EStorageFull => "no space" | EOther => "other"
  end.

#[export] Instance toy_env : EngineEnv := {|
  crc32 := sum_crc;
  zstd_compress := rle_compress;
  zstd_decompress := rle_decompress;
  io_msg := err_text;
  utf8_lossy _ := "key"%string;
  read_dir := dir_entries;
|}.

Lemma rle_repeat (x : byte) l : forallb (λ y, bool_decide (y = x)) l = true → l = repeat x (length l).
Proof.
  induction l as [| y l IH]; [done |]. simpl. intros [Hy%bool_decide_eq_true H]%andb_true_iff.
  subst. f_equal. by apply IH.
Qed.

#[export] Instance toy_env_spec : EngineEnvSpec.
Proof.
  split; simpl.
  - intros b. by apply wrap_bound.
  - intros [| x l] c; simpl; [done |]. destruct (forallb _ l) eqn:Hl; [| done]. intros [= <-].
    simpl. f_equal. unfold blen. rewrite Nat2Z.id. simpl. f_equal. symmetry. by apply rle_repeat.
  - intros m d id b. unfold dir_entries. rewrite list_elem_of_omap. split.
    + intros ([[d' id'] b'] & Hin & H). simpl in H. case_decide; simplify_eq.
      by apply elem_of_map_to_list in Hin.
    + intros Hb. exists ((d, id), b). simpl. rewrite decide_True by done. split; [| done].
      by apply elem_of_map_to_list.
Qed.

(** ** A fresh engine *)

Definition empty_tables : tables MapTable :=
  {| t_addr := tempty; t_inline := tempty; t_meta := tempty; t_cursor := tempty |}.

Definition mk_cfg (max inl fsync : Z) (zstd fo : bool) (ballast : Z) : EngineConfig :=
  {| segment_max_size := max; inline_min := inl; cfg_fsync_items := fsync; compress_zstd := zstd;
     compress_min := 4; ballast_bytes := ballast; failover_path := fo; fadvise_dontneed := false |}.

Definition empty_world (fs : list (option fault)) : world :=
  {| w_seg := ∅; w_meta := ∅; w_faults := fs |}.

(** The engine [engine_open] gives on an empty disk. *)
Definition fresh (c : EngineConfig) : engine MapTable :=
  {| cfg := c; tb := empty_tables; db_faults := [];
     e_seg := {| sg_world := {| w_seg := {[(Primary, 0) := []]}; w_meta := ∅; w_faults := [] |};
                 sg_wr := {| failover := failover_path c; active_dir := Primary; wr_seg_id := 0;
                             file := (Primary, 0); len := 0; flush_offset := 0; unflushed_items := 0;
                             max_size := segment_max_size c; fsync_items := cfg_fsync_items c;
                             failed_over := false; drop_cache := fadvise_dontneed c |} |};
     ballast_file := None; ballast_present := false; used_bytes := 0; gc_pass_count := 0 |}.

Lemma open_empty c free :
  ballast_bytes c = 0 →
  (engine_open c free {| d_tb := empty_tables; d_db_faults := []; d_world := empty_world [];
                         d_ballast := None |}).1 = Ok (fresh c).
Proof.
  intros Hb. unfold engine_open, ensure_ballast. simpl. unfold ensure_ballast. simpl.
  unfold mthen, mget, mret, mcatch. simpl. rewrite Hb. simpl.
  unfold open. destruct (failover_path c) eqn:Hf; unfold fresh; rewrite Hf; done.
Qed.

Lemma fresh_ready c :
  segment_max_size c <= 2 ^ 64 → ready (fresh c).
Proof.
  intros Hmax.
  assert (wr_base (e_seg (fresh c))) as HB.
  { assert (∀ d id b, files (e_seg (fresh c)) !! (d, id) = Some b → d = Primary ∧ id = 0 ∧ b = []) as H.
    { intros d id b. unfold files. simpl. intros [[= <- <-] <-]%lookup_singleton_Some. done. }
    split; simpl; try done.
    - intros d id b (-> & -> & ->)%H. done.
    - intros id b1 b2 _ (? & _)%H. done.
    - intros id b (? & _)%H. done. }
  split; try done.
  - split; [done | done |]. split; simpl; [intros k v; by rewrite lookup_empty | intros k; left; apply lookup_empty].
  - split; [done |]. exists []. done.
  - by right.
  - by right.
Qed.
