(* ===== verification/EngineProps.v ===== *)
(** * Properties of the engine

    The correctness of [DiskEngine] on every branch: put, delete, garbage
    collection, reads that race with it, eviction, listing, stat and the
    structure check, each with a run of the executable model that meets its
    hypotheses. *)

From Stdlib Require Import ZArith Lia Strings.Byte.
From stdpp Require Import base list gmap strings.
From S2P Require Import Prelude F64 Domain Table Piece Segment SegmentFacts Writer Engine EngineGc EngineInv EngineOps EngineGcFacts Instances.
Open Scope Z_scope.

Section EngineProps.
Context {T : Type → Type} `{RT : !RedbTable T, RTS : !RedbTableSpec T}
  `{EE : !EngineEnv, EES : !EngineEnvSpec}.
Implicit Types (e : engine T) (t : tables T) (k : BlockKey) (d : bytes).

(** ** From what is held to what is read *)

Lemma unchanged_get e e' k : inv e → inv e' → unchanged e e' → engine_get e' k = engine_get e k.
Proof. intros HI HI' HU. apply get_same; [done | done |]. apply HU. Qed.

Lemma updated_get e e' k o k' :
  inv e → inv e' → updated e e' k o →
  engine_get e' k' = if decide (k = k') then match o with Some d => Ok d | None => Err NotFound end
                     else engine_get e k'.
Proof.
  intros HI HI' HU. case_decide as Hk; subst.
  - destruct o as [d |].
    + apply get_holds, HU; [done |]. by rewrite decide_True.
    + destruct (get_cases e' k' HI') as [(d & Hd & _) | [_ ->]]; [| done].
      apply HU in Hd. rewrite decide_True in Hd by done. done.
  - apply get_same; [done | done |]. intros d. rewrite (HU k' d), decide_False by done. done.
Qed.

(** A read of a row whose file is there or gone. *)
Lemma read_gone e seg addr crc :
  (∀ dir : SegDir, seg_files e !! (dir, seg) = None) → seg_id addr = seg →
  read_record crc32 (seg_files e) (seg_dir_of e seg) addr crc = Err ENotFound.
Proof. intros Hno <-. unfold read_record. by rewrite Hno. Qed.

(** No row points beyond the active segment. *)
Lemma row_id e k v d ent :
  inv e → row_ok (seg_files e) k v d → decode_addr v = Some ent → seg_id (ae_addr ent) <= wr_seg_id (sg_wr (e_seg e)).
Proof.
  intros HI (ent' & dir & rec & Hd & (b & Hb & Hin) & Hk & Ha & Hrest) Hd'. assert (ent' = ent) as -> by congruence.
  rewrite <-Ha. destruct (decide (wr_seg_id (sg_wr (e_seg e)) < seg_id (r_addr rec))) as [Hlt |]; [| lia].
  destruct (wb_fresh _ (inv_wr _ HI) _ _ _ Hb Hlt) as [-> _]. by apply not_elem_of_nil in Hin.
Qed.

(** The row of a key across a collection: its file is there, with the record,
    or gone, with the key's row elsewhere. *)
Lemma row_across e e' k v d :
  inv e → fstep e e' → row_ok (seg_files e) k v d →
  row_ok (seg_files e') k v d ∨
  ∃ ent, decode_addr v = Some ent ∧ ∀ dir : SegDir, seg_files e' !! (dir, seg_id (ae_addr ent)) = None.
Proof.
  intros HI [_ HK HN] Hrow. pose proof Hrow as (ent & dir & rec & Hd & (b & Hb & Hin) & Hk & Ha & Hrest).
  pose proof (row_id _ _ _ _ _ HI Hrow Hd) as Hle. rewrite <-Ha in Hle. clear Hrow.
  destruct (HK (dir, seg_id (r_addr rec)) b Hle Hb) as [Hno | [r Hr]].
  - right. exists ent. split; [done |]. rewrite <-Ha. intros dir'.
    destruct (decide (dir' = dir)) as [-> | Hne]; [done |]. apply HN; [done |].
    destruct (seg_files e !! (dir', _)) as [b' |] eqn:Hb'; [| done].
    pose proof (wb_unique _ (inv_wr _ HI) (seg_id (r_addr rec))) as Hu.
    destruct dir, dir'; try done; exfalso; eauto.
  - left. exists ent, dir, rec. split; [done | split; [| done]]. exists (b ++ r). split; [done |].
    destruct (scan_grow crc32 (seg_id (r_addr rec)) 0 b r) as [l ->]. apply elem_of_app. by left.
Qed.

(** C1. put: an [Ok] makes the key read back the body and leaves every other
    key as it was; an [Err] leaves every key as it was, and happens only after
    a failed system call or transaction. *)
Theorem put_then_get e k d obj r e' :
  ready e → key_fits k → data_fits d → obj_fits obj → put_impl k d obj e = (r, e') →
  inv e' ∧
  match r with
  | Ok _ => ∀ k', engine_get e' k' = if decide (k = k') then Ok d else engine_get e k'
  | Err _ => (∀ k', engine_get e' k' = engine_get e k') ∧ ¬ quiet e
  end.
Proof.
  intros HR Hk Hd Ho Hrun. pose proof (rd_inv _ HR) as HI.
  pose proof (wp_run _ _ _ _ _ (wp_put_impl e k d obj HR Hk Hd Ho) Hrun) as Hpost.
  destruct r as [[] | m]; simpl in Hpost.
  - destruct Hpost as (HI' & _ & _ & HU). split; [done |]. intros k'. by rewrite (updated_get e e' k (Some d)).
  - destruct Hpost as (HI' & HU & Hq). split; [done |]. split; [| done]. intros k'. by apply unchanged_get.
Qed.

(** delete: the key is gone and nothing else changes; on a failed
    transaction nothing changes. *)
Theorem delete_then_get e k r e' :
  inv e → engine_delete k e = (r, e') →
  inv e' ∧
  match r with
  | Ok _ => ∀ k', engine_get e' k' = if decide (k = k') then Err NotFound else engine_get e k'
  | Err _ => (∀ k', engine_get e' k' = engine_get e k') ∧ ¬ quiet e
  end.
Proof.
  intros HI Hrun.
  destruct (wp_run _ _ _ _ _ (wp_delete e k HI) Hrun) as (HI' & _ & _ & Hpost).
  split; [done |]. destruct r as [[] | m].
  - intros k'. by rewrite (updated_get e e' k None).
  - destruct Hpost as [HU Hq]. split; [| done]. intros k'. by apply unchanged_get.
Qed.

(** C17. Garbage collection, at any discard ratio, on a disk whose records can be
    read, changes what no key reads, whichever writes, syncs, unlinkings and
    index transactions fail on the way (faults are for disks without a failover
    directory and a ballast; those with them run without faults); it only
    fails after such a failure, and the segment it reports as collected is
    gone. (What a record that cannot be read does to a collection is shown by
    gc_unlinks_live_records_behind_damage in EngineLimits.) *)
Theorem gc_preserves e ratio r e' :
  ready e → gc_room e → gc_once ratio e = (r, e') →
  inv e' ∧ (∀ k, engine_get e' k = engine_get e k) ∧
  match r with
  | Ok rep => ∀ vid, victim_seg rep = Some vid → ∀ dir : SegDir, seg_files e' !! (dir, vid) = None
  | Err _ => ¬ quiet e
  end.
Proof.
  intros HR HRm Hrun. pose proof (rd_inv _ HR) as HI.
  assert (wp (gc_once ratio) (λ r e', kept e e' ∧
    match r with
    | Ok rep => ∀ vid, victim_seg rep = Some vid → ∀ dir : SegDir, seg_files e' !! (dir, vid) = None
    | Err _ => ¬ quiet e end) e) as Hwp.
  { apply wp_gc_once; [done | done | |]; [intros rep e1 [K _ _ _ _] Hv | intros er e1 K Hq]; auto. }
  destruct (wp_run _ _ _ _ _ Hwp Hrun) as [[HI' HU] Hpost].
  split; [done | split; [| done]]. intros k. by apply unchanged_get.
Qed.

(** A row at one moment of a pass, at the next look at the disk: the record
    is there; or its file is gone, and whatever row the key has later than
    that has its record for the rest of the pass. *)
Lemma row_at_moments e l1 l2 i j x y k v d :
  moments e l1 l2 → holds e k d → (i ≤ j)%nat → (l1 ++ l2) !! i = Some x → (l1 ++ l2) !! j = Some y →
  tget (t_addr (tb x)) k = Some v → row_ok (seg_files x) k v d →
  row_ok (seg_files y) k v d ∨
  (length l1 ≤ j)%nat ∧
  ∃ ent, decode_addr v = Some ent ∧ ∀ dir : SegDir, seg_files y !! (dir, seg_id (ae_addr ent)) = None.
Proof.
  intros HM Hd Hij Hx Hy Hv Hrow. pose proof (mo_kept _ _ _ HM x ltac:(by eapply list_elem_of_lookup_2)) as [HI _].
  destruct (row_across x y k v d HI (mo_step _ _ _ HM i j x y Hij Hx Hy) Hrow) as [? | Hgone]; [by left |].
  right. split; [| exact Hgone]. destruct (Nat.le_gt_cases (length l1) j) as [| Hj]; [done |]. exfalso.
  rewrite lookup_app_l in Hx, Hy by lia. destruct (mo_widened _ _ _ HM i j x y Hij Hx Hy) as [_ Hg].
  destruct Hrow as (ent & dir & rec & Hdec & (b & Hb & _) & _ & Ha & _), Hgone as (ent' & Hdec' & Hno).
  destruct (Hg _ _ Hb) as [r Hr]. rewrite Ha in Hr. assert (ent' = ent) as -> by congruence. by rewrite Hno in Hr.
Qed.

(** After the first unlinking a row's record stays where it is. *)
Lemma row_stays e l1 l2 i j x y k v d :
  moments e l1 l2 → (length l1 ≤ i)%nat → (i ≤ j)%nat → (l1 ++ l2) !! i = Some x → (l1 ++ l2) !! j = Some y →
  holds e k d → tget (t_addr (tb x)) k = Some v → row_ok (seg_files y) k v d.
Proof.
  intros HM Hi Hij Hx Hy Hd Hv. pose proof (mo_kept _ _ _ HM y ltac:(by eapply list_elem_of_lookup_2)) as [HI HU].
  rewrite lookup_app_r in Hx, Hy by lia. destruct (mo_rows _ _ _ HM _ _ x y (Nat.sub_le_mono_r _ _ (length l1) Hij) Hx Hy) as [Ha _].
  apply HU in Hd as [Hin | (v' & Hv' & Hrow)].
  - destruct (proj2 (inv_rows _ HI) k) as [Hno | Hno]; congruence.
  - rewrite Ha in Hv'. assert (v' = v) as -> by congruence. done.
Qed.

(** C19. A read that races with a garbage collection: each of its looks, at the
    index or at the segments, falls on some moment of the pass, never on an
    earlier one than the look before (the moments are the engines before the
    pass and after each of its steps: a look at the index, an append of a
    copy, the compare-and-set of its row, a flush, an unlinking, a
    transaction). Wherever they fall, and whichever writes, unlinkings and
    transactions fail in the pass, the key reads the body that it had. *)
Theorem get_survives_gc e ratio (at_ : nat → nat) (view : nat → engine T) k d :
  ready e → gc_room e → engine_get e k = Ok d →
  (∀ i j, i ≤ j → at_ i ≤ at_ j)%nat → (∀ i, gc_moments ratio e !! at_ i = Some (view i)) →
  get_view view k = Ok d.
Proof.
  intros HR HRm Hg Hmono Hview. pose proof (rd_inv _ HR) as HI. apply get_iff in Hg; [| done].
  destruct (gc_moments_passed e ratio HR HRm) as (l1 & l2 & Hl & HM). rewrite Hl in Hview.
  assert (∀ i, kept e (view i)) as HK by (intros i; eapply HM, list_elem_of_lookup_2, Hview).
  assert (∀ i, holds (view i) k d) as Hh by (intros i; by apply (kp_same _ _ (HK i))).
  unfold get_view. destruct (Hh 0%nat) as [Hin | (v & Hv & Hrow)].
  { simpl. by rewrite (lookup_inline _ _ _ Hin). }
  pose proof (kp_inv _ _ (HK 0%nat)) as HI0. pose proof (kp_inv _ _ (HK 1%nat)) as HI1.
  destruct (row_at_moments e l1 l2 _ _ _ _ k v d HM Hg (Hmono 0 1 ltac:(lia))%nat (Hview _) (Hview _) Hv Hrow)
    as [Hrow1 | (Hlate & ent & Hd & Hgone)].
  { eapply get_attempts_row; try done; [apply HI0 | apply HI1 | apply HI1 |]. by destruct Hrow as (ent & _ & _ & -> & _). }
  cbn [get_attempts]. unfold engine_lookup at 1. destruct (proj2 (inv_rows _ HI0) k) as [Hno | Hin0]; [congruence |].
  rewrite Hin0, Hv, Hd, bool_decide_eq_false_2 by done. cbv zeta. rewrite (read_gone (view 1%nat) _ _ _ Hgone) by done.
  pose proof (kp_inv _ _ (HK 2%nat)) as HI2. pose proof (kp_inv _ _ (HK 3%nat)) as HI3.
  destruct (Hh 2%nat) as [Hin | (v' & Hv' & Hrow')].
  { unfold engine_lookup. by rewrite Hin. }
  pose proof (Hmono 1 2 ltac:(lia))%nat as H12. pose proof (Hmono 2 3 ltac:(lia))%nat as H23.
  pose proof (row_stays e l1 l2 _ _ _ _ k v' d HM (Nat.le_trans _ _ _ Hlate H12) H23 (Hview _) (Hview _) Hg Hv') as Hrow3.
  change (get_attempts 1 2 view k (Some ent) = Ok d).
  eapply get_attempts_row; try done; [apply HI2 | apply HI3 | apply HI3 |].
  destruct Hrow' as (ent' & dir & rec & Hd' & (b & Hb & _) & _ & Ha & _).
  rewrite Hd'. intros [= <-].
  (* the row cannot have stayed, for its file is gone for good *)
  pose proof (mo_step _ _ _ HM _ _ _ _ H12 (Hview _) (Hview _)) as HF. rewrite Ha in Hb.
  rewrite (fs_new _ _ HF (dir, seg_id (ae_addr ent))) in Hb; [done | | by rewrite Hgone].
  pose proof (row_id _ _ _ _ _ HI0 Hrow Hd). pose proof (fs_id _ _ (mo_step _ _ _ HM _ _ _ _ (Hmono 0 1 ltac:(lia))%nat (Hview _) (Hview _))).
  simpl. lia.
Qed.

Lemma stat_from_get e k :
  inv e → engine_stat e k = match engine_get e k with Ok d => Ok (blen d) | Err _ => Err NotFound end ∧
  engine_has e k = Ok (match engine_get e k with Ok _ => true | Err _ => false end).
Proof.
  intros HI. destruct (get_cases e k HI) as [(d & Hd & ->) | [Hn ->]].
  - unfold engine_stat, engine_has. destruct Hd as [Hi | (v & Hv & Hrow)].
    + by rewrite (lookup_inline _ _ _ Hi), Hi.
    + destruct Hrow as (ent & dir & rec & Hd & _ & _ & _ & _ & _ & _ & _ & Hl).
      unfold engine_lookup. destruct (proj2 (inv_rows _ HI) k) as [| Hi]; [congruence |].
      by rewrite Hi, Hv, Hd, Hl, bool_decide_eq_true_2 by eauto.
  - unfold engine_stat, engine_has, engine_lookup.
    destruct (tget (t_inline (tb e)) k) as [d |] eqn:Hi; [by destruct (Hn d); left |].
    destruct (tget (t_addr (tb e)) k) as [v |] eqn:Hv; [| done].
    destruct (proj1 (inv_rows _ HI) _ _ Hv) as [d Hrow]. destruct (Hn d). right. eauto.
Qed.

(** stat answers the length of the body get returns, and is missing
    exactly when get is. *)
Theorem stat_exact e k :
  inv e → engine_stat e k = match engine_get e k with Ok d => Ok (blen d) | Err _ => Err NotFound end ∧
  engine_has e k = Ok (match engine_get e k with Ok _ => true | Err _ => false end).
Proof. apply stat_from_get. Qed.

(** C20. A listing page of the engine is sorted, sound, bounded by the limit
    and complete for every prefix, cursor and limit, whatever the state of the
    segments, when the cursor is not before the prefix. *)
Theorem list_page_correct e prefix after limit :
  disjoint_tables (tb e) → bytes_le prefix (list_start prefix after) →
  ∃ out, engine_list e prefix after limit = Ok out ∧ list_page (shown (tb e)) prefix after limit out.
Proof. apply engine_list_page. Qed.
End EngineProps.

(** ** Runs *)

(** Everything a run of puts has to check to stay [ready], as one boolean. *)
Definition put_check {T} `{RT : !RedbTable T} `{EE : !EngineEnv} (e : engine T) k d : bool :=
  let '(r, e') := put_impl k d None e in
  (blen k <? 2 ^ 16) && (blen d <? 2 ^ 32) && (match r with Ok _ => true | Err _ => false end) &&
  (wr_seg_id (sg_wr (e_seg e')) + 1 <? 2 ^ 32) && (max_size (sg_wr (e_seg e')) <=? 2 ^ 64) &&
  (ballast_bytes (cfg e') =? 0).

Lemma ready_put {T} `{RT : !RedbTable T, RTS : !RedbTableSpec T} `{EE : !EngineEnv, EES : !EngineEnvSpec}
    (e : engine T) k d : ready e → put_check e k d = true → ready (put_impl k d None e).2.
Proof.
  intros HR. unfold put_check. destruct (put_impl k d None e) as [r e'] eqn:Hrun. simpl.
  intros [[[[[Hk%Z.ltb_lt Hd%Z.ltb_lt]%andb_true_iff Hr]%andb_true_iff
    Hf%Z.ltb_lt]%andb_true_iff Hm%Z.leb_le]%andb_true_iff Hb%Z.eqb_eq]%andb_true_iff. destruct r as [[] |]; [| done].
  destruct (wp_run _ _ _ _ _ (wp_put_impl e k d None HR Hk Hd I) Hrun) as (HI & HW & HC & _).
  split; auto.
Qed.

Definition gc_room_check {T} `{EE : !EngineEnv} (e : engine T) : bool :=
  bool_decide (map_Forall (λ (p : SegDir * Z) b,
    wr_seg_id (sg_wr (e_seg e)) + Z.of_nat (length (scan crc32 p.2 0 b).1) < 2 ^ 32) (seg_files e)).

Lemma gc_room_checked {T} `{EE : !EngineEnv} (e : engine T) : gc_room_check e = true → gc_room e.
Proof. intros H%bool_decide_eq_true dir id b Hb. apply (H (dir, id) b Hb). Qed.

Definition small_cfg : EngineConfig := mk_cfg 64 2 2 true false 0.
Definition k1 : BlockKey := [x01].
Definition k2 : BlockKey := [x01; x02].
Definition d1 : bytes := repeat x61 30.
Definition d2 : bytes := [x01; x02; x03; x04; x05; x06; x07; x08; x09; x0a; x0b; x0c; x0d; x0e; x0f; x10].

(** Two bodies, a rotation, and an overwrite that leaves garbage behind. *)
Definition demo1 : engine MapTable := (put_impl k1 d2 None (fresh small_cfg)).2.
Definition demo2 : engine MapTable := (put_impl k2 d2 None demo1).2.
Definition demo3 : engine MapTable := (put_impl k1 d1 None demo2).2.

Lemma fresh_small_ready : ready (fresh small_cfg).
Proof. apply fresh_ready. vm_compute. discriminate. Qed.

Lemma demo1_ready : ready demo1.
Proof. apply ready_put; [exact fresh_small_ready | vm_compute; reflexivity]. Qed.
Lemma demo2_ready : ready demo2.
Proof. apply ready_put; [exact demo1_ready | vm_compute; reflexivity]. Qed.
Lemma demo3_ready : ready demo3.
Proof. apply ready_put; [exact demo2_ready | vm_compute; reflexivity]. Qed.

Lemma put_then_get_witness :
  engine_get demo2 k2 = Ok d2 ∧ engine_get demo2 k1 = engine_get demo1 k1.
Proof.
  assert (put_impl k2 d2 None demo1 = (Ok tt, demo2)) as Hrun by (unfold demo2; apply run_fst; vm_compute; reflexivity).
  destruct (put_then_get demo1 k2 d2 None (Ok tt) demo2 demo1_ready
    ltac:(vm_compute; reflexivity) ltac:(vm_compute; reflexivity) I Hrun) as [_ H].
  split; [rewrite (H k2), decide_True by reflexivity | rewrite (H k1), decide_False by discriminate];
    reflexivity.
Defined.

Definition demo_del : engine MapTable := (engine_delete k1 demo3).2.

Lemma delete_then_get_witness : engine_get demo_del k1 = Err NotFound.
Proof.
  assert (engine_delete k1 demo3 = (Ok tt, demo_del)) as Hrun by (unfold demo_del; apply run_fst; vm_compute; reflexivity).
  destruct (delete_then_get demo3 k1 (Ok tt) demo_del (rd_inv _ demo3_ready) Hrun) as [_ H].
  rewrite (H k1), decide_True by reflexivity. reflexivity.
Defined.

Definition demo_report : GcReport :=
  {| victim_seg := Some 0; live_moved := 1; reclaimed_bytes := 75; orphans_removed := 0;
     orphan_bytes := 0 |}.
Definition demo4 : engine MapTable := (gc_once (f64_of_Z 0) demo3).2.

Lemma demo_gc_run : gc_once (f64_of_Z 0) demo3 = (Ok demo_report, demo4).
Proof. unfold demo4. apply run_fst. vm_compute. reflexivity. Qed.

Lemma demo3_room : gc_room demo3.
Proof. apply gc_room_checked. vm_compute. reflexivity. Qed.

Lemma gc_preserves_witness :
  engine_get demo4 k1 = engine_get demo3 k1 ∧ seg_files demo4 !! (Primary, 0) = None.
Proof.
  destruct (gc_preserves demo3 (f64_of_Z 0) (Ok demo_report) demo4 demo3_ready demo3_room demo_gc_run)
    as (_ & Hg & Hv).
  split; [apply Hg | apply Hv; reflexivity].
Defined.

(** The first look is at the index before the pass; the others come when the
    segment it points to is gone. *)
Definition demo_moments : list (engine MapTable) := gc_moments (f64_of_Z 0) demo3.
Definition first_and_last (i : nat) : nat := match i with O => O | S _ => pred (length demo_moments) end.
Definition demo_view (i : nat) : engine MapTable := nth (first_and_last i) demo_moments demo3.

Lemma get_survives_gc_witness : seg_files (demo_view 1) !! (Primary, 0) = None ∧ get_view demo_view k2 = Ok d2.
Proof.
  split; [vm_compute; reflexivity |].
  apply (get_survives_gc demo3 (f64_of_Z 0) first_and_last demo_view k2 d2 demo3_ready demo3_room).
  - vm_compute. reflexivity.
  - unfold first_and_last. generalize (length demo_moments). intros n [| i] [| j]; lia.
  - intros i. fold demo_moments. unfold demo_view.
    destruct (lookup_lt_is_Some_2 demo_moments (first_and_last i)) as [x Hx]; [| by rewrite (nth_lookup_Some _ _ _ _ Hx), Hx].
    assert (Nat.ltb 0 (length demo_moments) = true) as Hlen%Nat.ltb_lt by (vm_compute; reflexivity).
    unfold first_and_last. revert Hlen. generalize (length demo_moments). intros n Hn. destruct i; lia.
Defined.

Lemma stat_exact_witness :
  engine_stat demo3 k1 = match engine_get demo3 k1 with Ok d => Ok (blen d) | Err _ => Err NotFound end.
Proof. exact (proj1 (stat_exact demo3 k1 (rd_inv _ demo3_ready))). Defined.

Lemma list_page_correct_witness :
  ∃ out, engine_list demo3 [x01] (Some k1) 5 = Ok out ∧
    list_page (shown (tb demo3)) [x01] (Some k1) 5 out.
Proof.
  apply (list_page_correct demo3 [x01] (Some k1) 5 (proj2 (inv_rows _ (rd_inv _ demo3_ready)))).
  vm_compute. discriminate.
Defined.
