(* ===== verification/Recovery.v ===== *)
(** * Recovery after a crash

    What a crash leaves of the active segment is a flushed part, complete
    records that were not yet covered by the meta file, and a torn record.
    [open] finds exactly the complete records, cuts the torn one off and
    leaves the writer in step with the file; [engine_open] puts the records
    back into the index, so that each of their keys reads its last body. *)

From Stdlib Require Import ZArith Lia Strings.Byte.
From stdpp Require Import base list gmap strings.
From S2P Require Import Prelude Domain Table Piece Segment SegmentFacts Writer Engine EngineGc EngineInv EngineOps EngineGcFacts EngineProps Instances.
Open Scope Z_scope.

(** What one append wrote. *)
Record wrec := { w_key : BlockKey; w_stored : bytes; w_logical : Z; w_flags : Z }.

Section Tail.
Context (crc32 : bytes → Z).
Context (crc32_range : ∀ b, 0 <= crc32 b < 2 ^ 32).

Definition wrec_fits (r : wrec) : Prop := record_fits (w_key r) (w_stored r) (w_logical r) (w_flags r).

Definition enc (r : wrec) : bytes :=
  encode_record crc32 (w_key r) (w_stored r) (w_logical r) (w_flags r).

Lemma enc_pos r : (0 < length (enc r))%nat.
Proof. unfold enc. rewrite length_encode_record. unfold HEADER_LEN. lia. Qed.

Definition tail_bytes (rs : list wrec) : bytes := concat (map enc rs).

(** The records as the scan reports them, from position [pos]. *)
Fixpoint tail_records (seg pos : Z) (rs : list wrec) : list RecoveredRecord :=
  match rs with
  | [] => []
  | r :: rs =>
      record_at crc32 seg pos (w_key r) (w_stored r) (w_logical r) (w_flags r) ::
      tail_records seg (pos + blen (enc r)) rs
  end.

(** A proper prefix of a record, the empty one included. *)
Definition torn (t : bytes) : Prop := ∃ r n, wrec_fits r ∧ (n < length (enc r))%nat ∧ t = take n (enc r).

Lemma torn_none t : torn t → next_record crc32 t = None.
Proof. intros (r & n & Hf & Hn & ->). by apply next_record_torn. Qed.

Lemma torn_nil : torn [].
Proof.
  exists {| w_key := []; w_stored := []; w_logical := 0; w_flags := 0 |}, 0%nat.
  split; [done | split; [apply enc_pos | done]].
Qed.

Lemma scan_enc seg pos r x :
  wrec_fits r →
  scan crc32 seg pos (enc r ++ x) =
    (record_at crc32 seg pos (w_key r) (w_stored r) (w_logical r) (w_flags r) ::
       (scan crc32 seg (pos + blen (enc r)) x).1, (scan crc32 seg (pos + blen (enc r)) x).2).
Proof. intros Hf. by apply scan_one. Qed.

Lemma tail_nil rs : blen (tail_bytes rs) = 0 → rs = [].
Proof.
  destruct rs as [| r rs]; [done |]. unfold tail_bytes, blen. simpl.
  rewrite length_app. pose proof (enc_pos r). lia.
Qed.

Lemma scan_tail seg pos rs t :
  Forall wrec_fits rs → torn t →
  scan crc32 seg pos (tail_bytes rs ++ t) = (tail_records seg pos rs, pos + blen (tail_bytes rs)).
Proof.
  intros Hf Ht. revert pos. induction Hf as [| r rs Hr _ IH]; intros pos.
  - simpl. rewrite scan_eq, (torn_none _ Ht). unfold blen. simpl. f_equal. lia.
  - unfold tail_bytes. cbn [map concat tail_records]. rewrite <-app_assoc, scan_enc by done.
    fold (tail_bytes rs). rewrite IH, blen_app. simpl. f_equal. lia.
Qed.

(** ** open *)

(** The disk after a crash: the active file is a flushed part of complete
    records, [rs], and a torn tail. *)
Record crashed (w : world) (id : Z) (pre : bytes) (rs : list wrec) (t : bytes) : Prop := {
  cr_meta : read_meta w Primary = Some (id, blen pre) ∨
            read_meta w Primary = None ∧ id = 0 ∧ pre = [];
  cr_file : w_seg w !! (Primary, id) = Some (pre ++ tail_bytes rs ++ t);
  cr_pre : (scan crc32 id 0 pre).2 = blen pre;
  cr_fits : Forall wrec_fits rs;
  cr_torn : torn t;
  cr_quiet : w_faults w = [];
}.

Lemma scan_crashed w id pre rs t :
  crashed w id pre rs t → ∀ t', torn t' →
  scan crc32 id 0 (pre ++ tail_bytes rs ++ t') =
    ((scan crc32 id 0 pre).1 ++ tail_records id (blen pre) rs, blen pre + blen (tail_bytes rs)).
Proof.
  intros [_ _ Hpre Hf _ _] t' Ht'. rewrite scan_app by (by rewrite Z.add_0_l).
  rewrite Z.add_0_l, scan_tail by done. done.
Qed.

Lemma syscall_quiet eff w : w_faults w = [] → syscall eff w = (Ok tt, eff w).
Proof. intros Hq. unfold syscall, next_fault. by rewrite Hq. Qed.

Lemma open_crashed w id pre rs t mx fs dc :
  crashed w id pre rs t →
  ∃ w' wr, open crc32 false mx fs dc w = (Ok (wr, tail_records id (blen pre) rs), w') ∧
    w_seg w' = <[(Primary, id) := pre ++ tail_bytes rs]> (w_seg w) ∧ w_faults w' = [] ∧
    w_meta w' = w_meta w ∧
    wr = {| failover := false; active_dir := Primary; wr_seg_id := id; file := (Primary, id);
            len := blen (pre ++ tail_bytes rs); flush_offset := blen (pre ++ tail_bytes rs);
            unflushed_items := 0; max_size := mx; fsync_items := fs; failed_over := false;
            drop_cache := dc |}.
Proof.
  intros HC. pose proof HC as [Hm Hb Hpre Hf Ht Hq].
  unfold open, create_dir_all, mcatch, mthen, mget. rewrite syscall_quiet by done. simpl.
  assert (choose_active (read_meta w Primary) None = (Primary, id, blen pre)) as ->.
  { unfold choose_active. destruct Hm as [-> | (-> & -> & ->)]; done. }
  unfold open_active. rewrite syscall_quiet by done. simpl. rewrite lookup_insert_eq, Hb. simpl.
  set (b := pre ++ tail_bytes rs ++ t).
  assert (blen b = blen pre + blen (tail_bytes rs) + blen t) as Hlen.
  { unfold b. rewrite !blen_app. lia. }
  pose proof (blen_nonneg pre). pose proof (blen_nonneg (tail_bytes rs)). pose proof (blen_nonneg t).
  rewrite Z.min_l by lia.
  assert (drop (Z.to_nat (blen pre)) b = tail_bytes rs ++ t) as Hdrop.
  { unfold b, blen. rewrite Nat2Z.id. apply drop_app_length. }
  assert (take (Z.to_nat (blen pre + blen (tail_bytes rs))) b = pre ++ tail_bytes rs) as Htake.
  { unfold b. rewrite app_assoc. apply take_app_length'. rewrite length_app. unfold blen. lia. }
  destruct (Z.ltb_spec (blen pre) (blen b)) as [Hlt | Hge].
  - rewrite Hdrop, scan_tail by done. rewrite blen_app.
    destruct (Z.ltb_spec (blen pre + blen (tail_bytes rs)) (blen b)) as [Ht0 | Ht0].
    + unfold syscall, next_fault. simpl. rewrite Hq. simpl. rewrite Htake, Z.max_l by lia.
      eexists _, _. split; [done |]. split; [by rewrite insert_insert_eq | done].
    + assert (t = []) as -> by (apply length_zero_iff_nil; unfold blen in *; lia).
      simpl. rewrite Z.max_l by lia. unfold b. rewrite app_nil_r. eauto 10.
  - assert (rs = []) as -> by (apply tail_nil; lia).
    assert (t = []) as -> by (apply length_zero_iff_nil; unfold blen in *; lia).
    destruct (Z.ltb_spec (blen pre) (blen b)); [lia |]. simpl. rewrite Z.max_l by lia.
    unfold b, tail_bytes. simpl. rewrite !app_nil_r. eauto 10.
Qed.
End Tail.

(** ** engine_open *)

(** The last element with a key. *)
Fixpoint last_with {A} (key : A → BlockKey) (k : BlockKey) (l : list A) : option A :=
  match l with
  | [] => None
  | x :: l =>
      match last_with key k l with
      | Some y => Some y
      | None => if decide (key x = k) then Some x else None
      end
  end.

Lemma last_with_in {A} (key : A → BlockKey) k l x :
  last_with key k l = Some x → x ∈ l ∧ key x = k.
Proof.
  induction l as [| y l IH]; simpl; [done |]. destruct (last_with key k l) as [z |].
  - intros [= <-]. destruct (IH eq_refl). split; [by right | done].
  - case_decide; [| done]. intros [= <-]. split; [by left | done].
Qed.

Lemma last_with_tail crc32 seg pos rs k :
  match last_with r_key k (tail_records crc32 seg pos rs), last_with w_key k rs with
  | Some rec, Some r => r_key rec = w_key r ∧ r_stored rec = w_stored r ∧
      r_flags rec = w_flags r ∧ r_logical_len rec = w_logical r
  | None, None => True
  | _, _ => False
  end.
Proof.
  revert pos. induction rs as [| r rs IH]; intros pos; simpl; [done |].
  specialize (IH (pos + blen (enc crc32 r))).
  destruct (last_with r_key k _), (last_with w_key k rs); try done. by case_decide.
Qed.

Section Reopen.
Context {T : Type → Type} `{RT : !RedbTable T, RTS : !RedbTableSpec T}
  `{EE : !EngineEnv, EES : !EngineEnvSpec}.
Implicit Types (t : tables T) (k : BlockKey).

(** The record's bytes open to [b]. *)
Definition wrec_opens (r : wrec) (b : bytes) : Prop :=
  ∀ addr crc obj, row_body {| ae_addr := addr; ae_crc := crc; ae_logical_len := w_logical r;
                             ae_flags := w_flags r; ae_obj_logical := obj |} (w_stored r) b.

Lemma reindex_inline l t : t_inline (reindex l t) = t_inline t.
Proof. revert t. induction l as [| r l IH]; intros t; [done |]. simpl. by rewrite IH. Qed.

Lemma reindex_addr l t k :
  tget (t_addr (reindex l t)) k =
    match last_with r_key k l with
    | Some rec => Some (encode_addr (recovered_entry rec))
    | None => tget (t_addr t) k
    end.
Proof.
  revert t. induction l as [| r l IH]; intros t; [done |].
  change (reindex (r :: l) t)
    with (reindex l (with_addr (tinsert (r_key r) (encode_addr (recovered_entry r))) t)).
  rewrite IH. simpl. destruct (last_with r_key k l); [done |].
  rewrite tget_tinsert. by case_decide.
Qed.

Lemma recovered_fits rec :
  0 <= seg_id (r_addr rec) < 2 ^ 32 → 0 <= offset (r_addr rec) < 2 ^ 64 →
  0 <= stored_len (r_addr rec) < 2 ^ 32 → 0 <= key_len (r_addr rec) < 2 ^ 16 →
  0 <= r_crc rec < 2 ^ 32 → 0 <= r_logical_len rec < 2 ^ 32 → 0 <= r_flags rec < 2 ^ 16 →
  entry_fits (recovered_entry rec).
Proof.
  intros. unfold entry_fits, recovered_entry. cbn. split_and!; try lia.
  destruct (_ ≫= parse_piece_header) as [h |] eqn:Hp; simpl; [| done].
  apply bind_Some in Hp as (raw & _ & Hp). apply parse_sound in Hp as ((_ & _ & _ & Hl) & _). done.
Qed.

(** The conditions on what the crash left. *)
Record recoverable (c : EngineConfig) (d : disk T) (id : Z) (pre : bytes) (rs : list wrec) (tn : bytes)
    : Prop := {
  rc_crashed : crashed crc32 (d_world d) id pre rs tn;
  rc_files : ∀ dir id' b, w_seg (d_world d) !! (dir, id') = Some b →
    dir = Primary ∧ (id < id' → b = []);
  rc_rows : rows_ok (w_seg (d_world d)) (d_tb d);
  rc_tail : ∀ r, r ∈ rs → tget (t_inline (d_tb d)) (w_key r) = None ∧ ∃ b, wrec_opens r b;
  rc_id : 0 <= id ∧ id + 1 < 2 ^ 32;
  rc_len : blen (pre ++ tail_bytes crc32 rs) < 2 ^ 64;
  rc_db : d_db_faults d = [];
  rc_cfg : failover_path c = false ∧ ballast_bytes c = 0 ∧ segment_max_size c <= 2 ^ 64;
}.

Lemma reach_same_scan (fs : gmap (SegDir * Z) bytes) (d0 : SegDir) id b b' dir rec :
  fs !! (d0, id) = Some b → (scan crc32 id 0 b).1 = (scan crc32 id 0 b').1 →
  reach crc32 fs dir rec ↔ reach crc32 (<[(d0, id) := b']> fs) dir rec.
Proof.
  intros Hb Heq. unfold reach.
  destruct (decide ((d0, id) = (dir, seg_id (r_addr rec)))) as [Hp | Hp].
  - rewrite <-Hp, Hb, lookup_insert_eq. injection Hp as _ <-.
    split; intros (f & [= <-] & Hin); [rewrite Heq in Hin | rewrite <-Heq in Hin]; eauto.
  - by rewrite lookup_insert_ne.
Qed.

(** A row of the index before the crash is still good in the cut file. *)
Lemma row_ok_cut c d id pre rs tn k v b :
  recoverable c d id pre rs tn →
  row_ok (w_seg (d_world d)) k v b ↔
  row_ok (<[(Primary, id) := pre ++ tail_bytes crc32 rs]> (w_seg (d_world d))) k v b.
Proof.
  intros [HC _ _ _ _ _ _ _]. pose proof (scan_crashed crc32 crc32_range _ _ _ _ _ HC) as Hscan.
  assert ((scan crc32 id 0 (pre ++ tail_bytes crc32 rs ++ tn)).1 =
          (scan crc32 id 0 (pre ++ tail_bytes crc32 rs)).1) as Heq.
  { rewrite (Hscan tn) by apply HC. specialize (Hscan [] (torn_nil crc32)).
    rewrite app_nil_r in Hscan. by rewrite Hscan. }
  pose proof (cr_file _ _ _ _ _ _ HC) as Hb.
  split; intros (ent & dir & rec & Hd & Hre & Hrest); exists ent, dir, rec;
    (split; [done | split; [| done]]).
  - by apply (reach_same_scan _ _ _ _ _ _ _ Hb Heq).
  - by apply (reach_same_scan _ _ _ _ _ _ _ Hb Heq).
Qed.

(** A record of the tail, once its row is in the index. *)
Lemma tail_row c d id pre rs tn rec r b :
  recoverable c d id pre rs tn →
  rec ∈ tail_records crc32 id (blen pre) rs → wrec_fits r → r_key rec = w_key r →
  r_stored rec = w_stored r → r_flags rec = w_flags r → r_logical_len rec = w_logical r →
  wrec_opens r b →
  row_ok (<[(Primary, id) := pre ++ tail_bytes crc32 rs]> (w_seg (d_world d))) (w_key r)
    (encode_addr (recovered_entry rec)) b.
Proof.
  intros HR Hin Hfit Hk Hs Hf Hl Hop. pose proof HR as [HC _ _ _ [Hid0 Hid] Hlen _ _].
  set (fs := <[_ := _]> _).
  assert (rec ∈ (scan crc32 id 0 (pre ++ tail_bytes crc32 rs)).1) as Hscan.
  { pose proof (scan_crashed crc32 crc32_range _ _ _ _ _ HC [] (torn_nil crc32)) as Hscan.
    rewrite app_nil_r in Hscan. rewrite Hscan. apply elem_of_app. by right. }
  pose proof (scan_rec_fits _ _ _ _ Hscan) as ((Hkf & Hsf & Hlf & Hff) & Hseg & _).
  assert (reach crc32 fs Primary rec) as Hreach.
  { exists (pre ++ tail_bytes crc32 rs). rewrite Hseg. split; [apply lookup_insert_eq | done]. }
  pose proof Hscan as (n & h & Hle & Ha & Hn & Hc & _ & _)%scan_read.
  assert (entry_fits (recovered_entry rec)) as Hfits.
  { apply next_record_inv in Hn as (Hkb & Hsb & _ & _ & _ & _ & Hcrc).
    assert (HEADER_LEN <= record_total h)%nat by (unfold record_total; lia).
    apply recovered_fits; rewrite ?Ha; simpl; rewrite ?wrap_small by lia; try lia.
    - unfold blen, HEADER_LEN in *. lia.
    - rewrite Hc, <-Hcrc. apply crc32_range. }
  exists (recovered_entry rec), Primary, rec. split; [by apply decode_encode_addr |].
  split; [done |]. split; [done |]. split; [done |]. split; [done |]. split; [done |]. split; [done |].
  rewrite Hs. unfold recovered_entry. rewrite Hf, Hl. apply Hop.
Qed.

Lemma tail_records_fits seg pos rs rec :
  Forall wrec_fits rs → rec ∈ tail_records crc32 seg pos rs →
  ∃ r, r ∈ rs ∧ wrec_fits r ∧ r_key rec = w_key r ∧ r_stored rec = w_stored r ∧
    r_flags rec = w_flags r ∧ r_logical_len rec = w_logical r.
Proof.
  intros Hf. revert pos. induction Hf as [| r rs Hr _ IH]; intros pos; simpl.
  { by intros ?%not_elem_of_nil. }
  intros [-> | Hin]%elem_of_cons.
  - exists r. split; [by left | done].
  - destruct (IH _ Hin) as (r' & Hr' & H). exists r'. split; [by right | done].
Qed.

(** The engine that [open] gives on the crashed disk. *)
Lemma engine_open_recoverable c d id pre rs tn free :
  recoverable c d id pre rs tn →
  ∃ e d', engine_open c free d = (Ok e, d') ∧ cfg e = c ∧
    tb e = reindex (tail_records crc32 id (blen pre) rs) (d_tb d) ∧
    seg_files e = <[(Primary, id) := pre ++ tail_bytes crc32 rs]> (w_seg (d_world d)) ∧
    faults (e_seg e) = [] ∧ db_faults e = [] ∧
    sg_wr (e_seg e) =
      {| failover := false; active_dir := Primary; wr_seg_id := id; file := (Primary, id);
         len := blen (pre ++ tail_bytes crc32 rs); flush_offset := blen (pre ++ tail_bytes crc32 rs);
         unflushed_items := 0; max_size := segment_max_size c; fsync_items := cfg_fsync_items c;
         failed_over := false; drop_cache := fadvise_dontneed c |}.
Proof.
  intros [HC Hfi Hr Ht Hid Hlen Hdb (Hfo & Hbal & _)].
  destruct (open_crashed crc32 crc32_range _ _ _ _ _ (segment_max_size c) (cfg_fsync_items c) (fadvise_dontneed c) HC)
    as (w' & wr & Hopen & Hw & Hwf & _ & Hwr).
  unfold engine_open, mmap_err, mthen, mget, mret, disk_sys, disk_txn. simpl.
  unfold create_dir_all. rewrite syscall_quiet by apply HC. simpl. rewrite Hdb. simpl.
  rewrite Hfo, Hopen. simpl. unfold ensure_ballast, mthen, mget, mcatch, mret, ballast_call.
  rewrite Hbal. simpl. unfold next_fault. rewrite Hwf. simpl.
  destruct (tail_records _ _ _ _) as [| rr l]; simpl; eexists _, _; (split; [done |]);
    rewrite <-Hwr; (split; [done |]); (split; [done |]); done.
Qed.
Lemma recovered_rows c d id pre rs tn :
  recoverable c d id pre rs tn →
  let fs := <[(Primary, id) := pre ++ tail_bytes crc32 rs]> (w_seg (d_world d)) in
  let t := reindex (tail_records crc32 id (blen pre) rs) (d_tb d) in
  rows_ok fs t ∧
  ∀ k b, match last_with w_key k rs with
         | Some r => wrec_opens r b → holds_t fs t k b
         | None => holds_t fs t k b ↔ holds_t (w_seg (d_world d)) (d_tb d) k b
         end.
Proof.
  intros HR fs t. pose proof HR as [HC _ [Hrows Hdisj] Ht _ _ _ _].
  assert (∀ k r rec, last_with w_key k rs = Some r →
    last_with r_key k (tail_records crc32 id (blen pre) rs) = Some rec → ∀ b, wrec_opens r b →
    row_ok fs k (encode_addr (recovered_entry rec)) b) as Hnew.
  { intros k r rec Hr Hrec b Hop. pose proof (last_with_tail crc32 id (blen pre) rs k) as Hm.
    rewrite Hr, Hrec in Hm. destruct Hm as (Hk & Hs & Hf & Hl).
    apply last_with_in in Hr as [Hr <-], Hrec as [Hrec _].
    pose proof (cr_fits _ _ _ _ _ _ HC) as Hfit. rewrite Forall_forall in Hfit.
    eapply tail_row; eauto. }
  split; [split |].
  - intros k v. unfold t. rewrite reindex_addr.
    pose proof (last_with_tail crc32 id (blen pre) rs k) as Hm.
    destruct (last_with r_key k _) as [rec |] eqn:Hrec, (last_with w_key k rs) as [r |] eqn:Hr; try done.
    + intros [= <-]. destruct (last_with_in _ _ _ _ Hr) as [Hin _]. destruct (Ht _ Hin) as [_ [b Hop]]. eauto.
    + intros Hv. destruct (Hrows _ _ Hv) as [b Hb]. exists b. by eapply row_ok_cut.
  - intros k. unfold t. rewrite reindex_addr, reindex_inline.
    pose proof (last_with_tail crc32 id (blen pre) rs k) as Hm.
    destruct (last_with r_key k _) as [rec |] eqn:Hrec, (last_with w_key k rs) as [r |] eqn:Hr; try done.
    destruct (last_with_in _ _ _ _ Hr) as [Hin <-]. right. by apply Ht.
  - intros k b. pose proof (last_with_tail crc32 id (blen pre) rs k) as Hm.
    destruct (last_with w_key k rs) as [r |] eqn:Hr.
    + intros Hop. destruct (last_with r_key k _) as [rec |] eqn:Hrec; [| done].
      right. eexists. unfold t. rewrite reindex_addr, Hrec. eauto.
    + destruct (last_with r_key k _) as [rec |] eqn:Hrec; [done |].
      unfold holds_t, t. rewrite reindex_addr, Hrec, reindex_inline.
      split; (intros [Hi | (v & Hv & Hrow)]; [by left | right; exists v; split; [done |]]);
        by eapply row_ok_cut.
Qed.

Lemma recovered_writer c d id pre rs tn (e : engine T) :
  recoverable c d id pre rs tn → cfg e = c →
  seg_files e = <[(Primary, id) := pre ++ tail_bytes crc32 rs]> (w_seg (d_world d)) →
  sg_wr (e_seg e) =
    {| failover := false; active_dir := Primary; wr_seg_id := id; file := (Primary, id);
       len := blen (pre ++ tail_bytes crc32 rs); flush_offset := blen (pre ++ tail_bytes crc32 rs);
       unflushed_items := 0; max_size := segment_max_size c; fsync_items := cfg_fsync_items c;
       failed_over := false; drop_cache := fadvise_dontneed c |} →
  wr_ok crc32 (e_seg e).
Proof.
  intros [HC Hfi _ _ [Hid _] _ _ _] Hc Hf Hw.
  assert (∀ dir id' b, files (e_seg e) !! (dir, id') = Some b → dir = Primary ∧ (id < id' → b = [])) as Hfi'.
  { intros dir id' b. change (files (e_seg e)) with (seg_files e). rewrite Hf, lookup_insert.
    case_decide as Hp; [| by apply Hfi]. injection Hp as <- <-. intros _. split; [done | lia]. }
  split.
  - split; rewrite ?Hw; simpl; try done.
    + intros dir id' b Hb Hlt. destruct (Hfi' _ _ _ Hb). auto.
    + intros id' b1 b2 _ Hb2. by destruct (Hfi' _ _ _ Hb2).
    + intros id' b Hb. by destruct (Hfi' _ _ _ Hb).
  - exists (pre ++ tail_bytes crc32 rs). rewrite Hw. simpl.
    change (files (e_seg e)) with (seg_files e). rewrite Hf, lookup_insert_eq.
    split; [done | split; [done |]].
    pose proof (scan_crashed crc32 crc32_range _ _ _ _ _ HC [] (torn_nil crc32)) as Hscan.
    rewrite app_nil_r in Hscan. rewrite Hscan, blen_app. done.
Qed.

(** C18. Opening after a crash: the engine is ready to write; a key with a
    complete record in the unflushed tail reads the body of its last such
    record, and every other key reads what the index held before. *)
Theorem open_recovers c d id pre rs tn free :
  recoverable c d id pre rs tn →
  ∃ e d', engine_open c free d = (Ok e, d') ∧ ready e ∧
    ∀ k b, match last_with w_key k rs with
           | Some r => wrec_opens r b → engine_get e k = Ok b
           | None => engine_get e k = Ok b ↔ holds_t (w_seg (d_world d)) (d_tb d) k b
           end.
Proof.
  intros HR. destruct (engine_open_recoverable c d id pre rs tn free HR)
    as (e & d' & Hopen & Hc & Ht & Hf & Hfa & Hdb & Hw).
  destruct (recovered_rows _ _ _ _ _ _ HR) as [Hrows Hholds].
  pose proof (recovered_writer _ _ _ _ _ _ _ HR Hc Hf Hw) as HW.
  pose proof HR as [_ _ _ _ [Hid0 Hid] _ _ (Hfo & Hbal & Hmax)].
  assert (inv e) as HI.
  { split; [apply HW | by rewrite Hw, Hc | by rewrite Hf, Ht]. }
  exists e, d'. split; [done |]. split.
  - split; try done; [by right | unfold next_free; by rewrite Hw | by rewrite Hw | by right].
  - intros k b. specialize (Hholds k b). rewrite <-Hf, <-Ht in Hholds.
    destruct (last_with w_key k rs) as [r |].
    + intros Hop. by apply get_holds, Hholds.
    + rewrite get_iff by done. apply Hholds.
Qed.
End Reopen.

(** The tail scan of [open]: exactly the complete records after the flush
    point are recovered, at their offsets, the torn tail is cut off, and the
    writer continues at the end of the file. *)
Theorem open_cuts_torn_tail (crc32 : bytes → Z) (crc32_range : ∀ b, 0 <= crc32 b < 2 ^ 32)
    w id pre rs t mx fs dc :
  crashed crc32 w id pre rs t →
  ∃ w' wr, Segment.open crc32 false mx fs dc w = (Ok (wr, tail_records crc32 id (blen pre) rs), w') ∧
    w_seg w' = <[(Primary, id) := pre ++ tail_bytes crc32 rs]> (w_seg w) ∧
    wr_seg_id wr = id ∧ len wr = blen (pre ++ tail_bytes crc32 rs).
Proof.
  intros HC. destruct (open_crashed crc32 crc32_range _ _ _ _ _ mx fs dc HC)
    as (w' & wr & Hopen & Hw & _ & _ & ->). eauto 10.
Qed.

(** ** A crash in the middle of a record *)

Definition tail_r1 : wrec := {| w_key := k1; w_stored := d2; w_logical := 16; w_flags := 0 |}.
Definition tail_r2 : wrec := {| w_key := k2; w_stored := d2; w_logical := 16; w_flags := 0 |}.
Definition tail_t : bytes := take 25 (enc sum_crc tail_r1).

Definition crash_world : world :=
  {| w_seg := {[(Primary, 0) := enc sum_crc tail_r1 ++ tail_bytes sum_crc [tail_r2] ++ tail_t]};
     w_meta := {[Primary := encode_meta 0 37]}; w_faults := [] |}.
Definition crash_disk : disk MapTable :=
  {| d_tb := empty_tables; d_db_faults := []; d_world := crash_world; d_ballast := None |}.

Lemma crash_world_crashed :
  crashed sum_crc crash_world 0 (enc sum_crc tail_r1) [tail_r2] tail_t.
Proof.
  split.
  - left. vm_compute. reflexivity.
  - reflexivity.
  - vm_compute. reflexivity.
  - repeat constructor; vm_compute; congruence.
  - exists tail_r1, 25%nat. split; [| split; [vm_compute; lia | done]].
    repeat constructor; vm_compute; congruence.
  - reflexivity.
Qed.

Lemma crash_recoverable :
  recoverable small_cfg crash_disk 0 (enc sum_crc tail_r1) [tail_r2] tail_t.
Proof.
  split; try done.
  - exact crash_world_crashed.
  - intros dir id b. simpl. intros [[= <- <-] <-]%lookup_singleton_Some. split; [done | lia].
  - split; [intros k v H; vm_compute in H; done | intros k; by left].
  - intros r [-> | ?%not_elem_of_nil]%elem_of_cons; [| done].
    split; [reflexivity |]. exists d2. intros addr crc obj. done.
Qed.

Lemma open_recovers_witness :
  ∃ e d', engine_open small_cfg None crash_disk = (Ok e, d') ∧ ready e ∧ engine_get e k2 = Ok d2.
Proof.
  destruct (open_recovers small_cfg crash_disk 0 (enc sum_crc tail_r1) [tail_r2] tail_t None crash_recoverable)
    as (e & d' & Hopen & HR & Hg).
  exists e, d'. split; [exact Hopen | split; [exact HR |]].
  apply (Hg k2 d2). intros addr crc obj. split; reflexivity.
Defined.

Lemma open_cuts_torn_tail_witness :
  ∃ w' wr, Segment.open sum_crc false 64 2 false crash_world =
      (Ok (wr, tail_records sum_crc 0 37 [tail_r2]), w') ∧ len wr = 75.
Proof.
  destruct (open_cuts_torn_tail sum_crc (λ b, wrap_bound 32 _ ltac:(done)) crash_world 0
    (enc sum_crc tail_r1) [tail_r2] tail_t 64 2 false crash_world_crashed)
    as (w' & wr & Hopen & _ & _ & Hlen).
  exists w', wr. split; [exact Hopen | rewrite Hlen; reflexivity].
Defined.
