(* ===== verification/EngineMore.v ===== *)
(** * Eviction, structure check and the engine's limits

    [evict_oldest_segment] forgets the keys of one segment and no other;
    [verify_structure] reports a store healthy exactly when every row's
    segment has a file. The examples at the end run the model where the code
    does not do what it means to. *)

From Stdlib Require Import ZArith Lia Strings.Byte.
From stdpp Require Import base list gmap strings sorting.
From S2P Require Import Prelude Domain Table Piece Segment SegmentFacts Writer Engine EngineGc EngineInv EngineOps EngineGcFacts Instances EngineProps.
Open Scope Z_scope.

Section EngineMore.
Context {T : Type → Type} `{RT : !RedbTable T, RTS : !RedbTableSpec T}
  `{EE : !EngineEnv, EES : !EngineEnvSpec}.
Implicit Types (e : engine T) (t : tables T) (k : BlockKey) (d : bytes).

(** ** Eviction *)

(** The key's row points into the segment. *)
Definition row_in (vid : Z) t k : Prop :=
  ∃ v ent, tget (t_addr t) k = Some v ∧ decode_addr v = Some ent ∧ seg_id (ae_addr ent) = vid.

#[global] Instance row_in_dec vid t k : Decision (row_in vid t k).
Proof.
  destruct (tget (t_addr t) k) as [v |] eqn:Hv; [destruct (decode_addr v) as [ent |] eqn:Hd;
    [destruct (decide (seg_id (ae_addr ent) = vid)) as [Hs | Hs] |] |].
  - left. by exists v, ent.
  - right. intros (v' & ent' & Hv' & Hd' & Hs'). congruence.
  - right. intros (v' & ent' & Hv' & Hd' & Hs'). congruence.
  - right. intros (v' & ent' & Hv' & Hd' & Hs'). congruence.
Defined.

(** The scan of the victim collects its keys. *)
Lemma evict_scan e l acc :
  wp (mfold (S:=engine T) (E:=IoError) (λ acc rec,
        mthen mget (λ e, mret (if points_at (engine_lookup (tb e) (r_key rec)) (r_addr rec)
                               then acc ++ [r_key rec] else acc))) acc l)
    (λ r e', e' = e ∧ r = Ok (acc ++ map r_key (filter (λ rec,
       points_at (engine_lookup (tb e) (r_key rec)) (r_addr rec) = true) l))) e.
Proof.
  revert acc. induction l as [| rec l IH]; intros acc; simpl.
  { apply wp_ret. by rewrite app_nil_r. }
  wp_steps. eapply wp_mono; [apply IH |]. intros r e' [-> ->]. split; [done |]. f_equal.
  rewrite filter_cons. destruct (points_at _ _) eqn:Hp.
  - rewrite decide_True by done. by rewrite <-app_assoc.
  - by rewrite decide_False.
Qed.

Lemma evict_keys e vdir vid b k :
  inv e → seg_files e !! (vdir, vid) = Some b →
  k ∈ map r_key (filter (λ rec, points_at (engine_lookup (tb e) (r_key rec)) (r_addr rec) = true)
                   (scan crc32 vid 0 b).1) ↔ row_in vid (tb e) k.
Proof.
  intros HI Hb. rewrite list_elem_of_fmap. split.
  - intros (rec & -> & [Hp Hin]%list_elem_of_filter).
    destruct (points_at_row _ _ _ Hp) as (v & ent & Hv & Hd & Hs & _).
    destruct (scan_rec_fits _ _ _ _ Hin) as (_ & Hseg & _). exists v, ent. by rewrite Hs.
  - intros (v & ent & Hv & Hd & Hs).
    destruct (victim_row _ _ _ _ _ _ _ HI Hb Hv Hd Hs) as (rec & d & Hin & <- & Ha & _).
    exists rec. split; [done |]. apply list_elem_of_filter. split; [| done].
    destruct (points_at (engine_lookup (tb e) (r_key rec)) (r_addr rec)) eqn:Hp; [done |].
    by destruct (points_at_miss _ _ _ _ _ HI Hv Hd Hp).
Qed.

Lemma evict_tables t vid ks k :
  let t' := drop_discard [vid] (foldl (λ t k, with_addr (tremove k) t) t ks) in
  t_inline t' = t_inline t ∧
  tget (t_addr t') k = if decide (k ∈ ks) then None else tget (t_addr t) k.
Proof.
  intros t'. unfold t'. destruct (drop_discard_same [vid] (foldl (λ t k, with_addr (tremove k) t) t ks)) as [-> ->].
  clear t'. revert t. induction ks as [| k' ks IH]; intros t; cbn [foldl].
  { split; [done |]. by rewrite decide_False by apply not_elem_of_nil. }
  destruct (IH (with_addr (tremove k') t)) as [-> ->]. split; [done |]. cbn [t_addr with_addr].
  rewrite tget_tremove. destruct (decide (k ∈ ks)) as [Hin | Hin].
  - by rewrite decide_True by (by right).
  - case_decide as Hk; subst; [by rewrite decide_True by left |].
    rewrite decide_False; [done |]. by intros [-> | ?]%elem_of_cons.
Qed.

(** What an eviction may have done: nothing, or the rows of one segment that
    was not the active one are gone. *)
Definition evicted e (gone : option Z) e' : Prop :=
  inv e' ∧
  match gone with
  | None => unchanged e e'
  | Some vid => vid ≠ wr_seg_id (sg_wr (e_seg e)) ∧
      ∀ k d, holds e' k d ↔ ¬ row_in vid (tb e) k ∧ holds e k d
  end.

Lemma oldest_in l v : oldest l = Some v → v ∈ l.
Proof.
  unfold oldest. assert (∀ acc : option (Z * Z), foldl (λ v x, match v with
      | Some y => if x.1 <? y.1 then Some x else v | None => Some x end) acc l = Some v →
    acc = Some v ∨ v ∈ l) as H; [| by intros [[=] |]%H].
  induction l as [| x l IH]; intros acc; cbn [foldl]; [by left |].
  intros [Hacc | Hin]%IH; [| by right; right].
  destruct acc as [y |]; [destruct (x.1 <? y.1) |]; simplify_eq; auto using list_elem_of_here.
Qed.

Lemma evicted_tables e vid ks fs :
  inv e → vid ≠ wr_seg_id (sg_wr (e_seg e)) → (∀ k, k ∈ ks ↔ row_in vid (tb e) k) →
  let t := drop_discard [vid] (foldl (λ t k, with_addr (tremove k) t) (tb e) ks) in
  let e' := set_tb t (set_db_faults fs e) in
  evicted e (Some vid) e' ∧ covered vid [] e'.
Proof.
  intros HI Hne Hks t e'. pose proof (inv_rows _ HI) as [Hr Hdisj].
  assert (∀ k, t_inline t = t_inline (tb e) ∧
    tget (t_addr t) k = if decide (k ∈ ks) then None else tget (t_addr (tb e)) k) as Ht
    by (intros k; apply evict_tables).
  clearbody t.
  split; [split; [| split; [done |]] |].
  - apply inv_tb; [done |]. split.
    + intros k v. rewrite (proj2 (Ht k)). case_decide; [done | apply Hr].
    + intros k. destruct (Ht k) as [Hi ->]. rewrite Hi. case_decide; [by left | apply Hdisj].
  - intros k d. unfold holds, holds_t. simpl. destruct (Ht k) as [-> ->]. split.
    + intros [Hi | (v & Hv & Hrow)].
      * split; [| by left]. intros (v & ent & Hv & _). destruct (Hdisj k); congruence.
      * destruct (decide (k ∈ ks)) as [| Hn]; [done |]. split; [by rewrite <-Hks |]. eauto.
    + intros [Hn [Hi | (v & Hv & Hrow)]]; [by left |]. right. exists v.
      rewrite decide_False by (by rewrite Hks). done.
  - intros k v ent. simpl. rewrite (proj2 (Ht k)). case_decide as Hk; [done |].
    intros Hv Hd Hs. destruct Hk. apply Hks. by exists v, ent.
Qed.

Lemma wp_evict e :
  inv e →
  wp evict_oldest_segment (λ r e', (∃ gone, evicted e gone e') ∧
    match r with
    | Ok (sz, n) => (sz, n) = (0, 0%nat) ∧ evicted e None e' ∨
        ∃ vid, (vid, sz) ∈ sealed_segments e ∧ evicted e (Some vid) e' ∧
          ∀ dir : SegDir, seg_files e' !! (dir, vid) = None
    | Err _ => ¬ quiet e
    end) e.
Proof.
  intros HI. unfold evict_oldest_segment. do 2 wp_step.
  assert (evicted e None e) as Hnone by done.
  destruct (oldest (sealed_segments e)) as [[vid vsize] |] eqn:Ho.
  2: { wp_step. split; [eauto |]. by left. }
  apply oldest_in in Ho as Hseal. pose proof Hseal as Hse.
  apply (elem_of_sealed _ _ _ HI) in Hse as (Hne & b & Hb & _).
  set (vdir := seg_dir_of e vid) in *. do 2 wp_step. unfold scan_segment. rewrite Hb.
  eapply wp_mono; [apply evict_scan |]. intros r e1 [-> ->]. cbv beta iota. simpl app.
  set (ks := map _ _).
  assert (∀ k, k ∈ ks ↔ row_in vid (tb e) k) as Hks by (intros k; by apply (evict_keys e vdir vid b)).
  wp_step. apply wp_txn; [intros fs Hfs | intros m fs Hfs]; simpl.
  2: { split; [exists None; split; [by apply inv_db_faults | done] | by intros [_ ?]]. }
  destruct (evicted_tables e vid ks fs HI Hne Hks) as [Hev Hcov].
  set (e2 := set_tb _ _) in *. do 2 wp_step. apply wp_unlink; [apply Hev | done | |].
  - intros e3 U. wp_steps.
    assert (evicted e (Some vid) (sub_used vsize e3)) as Hev3.
    { split; [apply inv_set_used, U |]. split; [done |]. intros k d.
      change (holds (sub_used vsize e3) k d) with (holds e3 k d).
      rewrite (ul_same _ _ _ U k d). apply Hev. }
    split; [eauto |]. right. exists vid. split; [done | split; [done |]].
    intros dir. change (seg_files (sub_used vsize e3)) with (seg_files e3).
    rewrite (ul_files _ _ _ U). destruct (decide (dir = vdir)) as [-> | Hd]; [apply lookup_delete_eq |].
    rewrite lookup_delete_ne by congruence.
    change (seg_files e2) with (seg_files e).
    destruct (seg_files e !! (dir, vid)) as [b' |] eqn:Hb'; [| done].
    pose proof (wb_unique _ (inv_wr _ HI) vid) as Hu. destruct dir, vdir; try done; exfalso; eauto.
  - intros er s HF Hf. simpl. split.
    + exists (Some vid). split; [by apply inv_frame; [apply Hev |] |]. split; [done |].
      intros k d. rewrite holds_frame by done. apply Hev.
    + intros [Hq _]. by apply Hf; [exists b |].
Qed.

(** Cache eviction, whatever fails on the way: either nothing is
    forgotten, or exactly the keys whose row pointed into one sealed segment;
    on [Ok] that segment's file is gone and its size is reported. *)
Theorem evict_forgets_one_segment e r e' :
  inv e → evict_oldest_segment e = (r, e') →
  inv e' ∧
  (∃ gone, ∀ k, match gone with
     | Some vid => engine_get e' k = if decide (row_in vid (tb e) k) then Err NotFound else engine_get e k
     | None => engine_get e' k = engine_get e k
     end) ∧
  match r with
  | Ok (sz, n) => (sz, n) = (0, 0%nat) ∨
      ∃ vid, (vid, sz) ∈ sealed_segments e ∧ ∀ dir : SegDir, seg_files e' !! (dir, vid) = None
  | Err _ => ¬ quiet e
  end.
Proof.
  intros HI Hrun. destruct (wp_run _ _ _ _ _ (wp_evict e HI) Hrun) as [(gone & HI' & Hg) Hr].
  split; [done |]. split.
  - exists gone. intros k. destruct gone as [vid |]; [| by apply unchanged_get].
    destruct Hg as [_ Hg]. case_decide as Hrow.
    + destruct (get_cases e' k HI') as [(d & Hd & _) | [_ ->]]; [| done].
      apply Hg in Hd as [Hd _]. done.
    + apply get_same; [done | done |]. intros d. rewrite (Hg k d). tauto.
  - destruct r as [[sz n] |]; [| done]. destruct Hr as [[? _] | (vid & Hs & _ & Hf)]; eauto.
Qed.

(** ** Structure check *)

(** The segment's file is in a directory the engine uses, or it is active. *)
Definition seg_present e (id : Z) : Prop :=
  id = wr_seg_id (sg_wr (e_seg e)) ∨
  ∃ dir : SegDir, (dir = Failover → failover_path (cfg e) = true) ∧
    is_Some (seg_files e !! (dir, id)).

Lemma sealed_ids e id :
  id ∈ map fst (sealed_segments e) ↔
  id ≠ wr_seg_id (sg_wr (e_seg e)) ∧
  ∃ dir : SegDir, (dir = Failover → failover_path (cfg e) = true) ∧ is_Some (seg_files e !! (dir, id)).
Proof.
  unfold sealed_segments. rewrite list_elem_of_fmap. setoid_rewrite elem_of_concat.
  assert (∀ d : SegDir, id ∈ map fst (map (λ x : Z * bytes, (x.1, blen x.2))
      (filter (λ x, x.1 ≠ wr_seg_id (sg_wr (e_seg e))) (read_dir (seg_files e) d))) ↔
    id ≠ wr_seg_id (sg_wr (e_seg e)) ∧ is_Some (seg_files e !! (d, id))) as Hd.
  { intros d. rewrite map_map, list_elem_of_fmap. split.
    - intros ([id' b] & -> & [Hne Hin]%list_elem_of_filter). apply read_dir_spec in Hin. eauto.
    - intros (Hne & b & Hb). exists (id, b). split; [done |].
      apply list_elem_of_filter. split; [done |]. by apply read_dir_spec. }
  split.
  - intros (x & -> & l & Hx & Hl). apply list_elem_of_fmap in Hl as (d & -> & Hdir).
    assert (x.1 ∈ map fst (map (λ x : Z * bytes, (x.1, blen x.2))
      (filter (λ x, x.1 ≠ wr_seg_id (sg_wr (e_seg e))) (read_dir (seg_files e) d)))) as H
      by (by apply list_elem_of_fmap_2).
    apply Hd in H as [Hne Hs]. split; [done |]. exists d. split; [| done]. intros ->.
    apply elem_of_cons in Hdir as [| Hdir]; [done |].
    by destruct (failover_path (cfg e)); [| apply not_elem_of_nil in Hdir].
  - intros (Hne & d & Hfo & Hs). assert (Hin := proj2 (Hd d) (conj Hne Hs)).
    apply list_elem_of_fmap in Hin as (x & -> & Hx). exists x. split; [done |].
    eexists. split; [exact Hx |]. apply list_elem_of_fmap. exists d. split; [done |].
    destruct d; [by left |]. rewrite Hfo by done. right. by left.
Qed.

Lemma referenced_fold_inv l (refs : gmap Z Z) s :
  is_Some (foldl (λ refs x, match decode_addr x.2 with
     | Some e => let s := seg_id (ae_addr e) in <[s := wrap 64 (default 0 (refs !! s) + 1)]> refs
     | None => refs end) refs l !! s) →
  is_Some (refs !! s) ∨ ∃ x ent, (x : bytes * bytes) ∈ l ∧ decode_addr x.2 = Some ent ∧ seg_id (ae_addr ent) = s.
Proof.
  revert refs. induction l as [| x l IH]; intros refs; cbn [foldl]; [by left |].
  intros [H | (y & ent & Hy & Hd & Hs)]%IH.
  - destruct (decode_addr x.2) as [ent |] eqn:Hd; [| by left]. simpl in H.
    rewrite lookup_insert in H. case_decide as Hs; [| by left].
    right. exists x, ent. split; [by left | done].
  - right. exists y, ent. split; [by right | done].
Qed.

Definition has_row e (s : Z) : Prop :=
  ∃ k v ent, tget (t_addr (tb e)) k = Some v ∧ decode_addr v = Some ent ∧ seg_id (ae_addr ent) = s.

Lemma referenced_spec e s : is_Some (referenced_segments (tb e) !! s) ↔ has_row e s.
Proof.
  split.
  - intros [[? H] | ([k v] & ent & Hin & Hd & Hs)]%referenced_fold_inv; [by rewrite lookup_empty in H |].
    apply elem_of_titer in Hin. by exists k, v, ent.
  - intros (k & v & ent & Hv & Hd & <-). apply elem_of_titer in Hv.
    by apply (referenced_fold _ ∅ k v ent); [left |].
Qed.

(** The structure check reports a store healthy exactly when every index
    row's segment has a file in a directory the engine uses, and lists as
    orphans exactly the sealed segment files no row points into. *)
Theorem verify_structure_exact e :
  ∃ rep, verify_structure e = Ok rep ∧
    (is_healthy rep = true ↔ ∀ s, has_row e s → seg_present e s) ∧
    (∀ s, s ∈ segments_missing rep ↔ has_row e s ∧ ¬ seg_present e s) ∧
    (∀ s, s ∈ orphan_segments rep ↔ s ∈ map fst (sealed_segments e) ∧ ¬ has_row e s).
Proof.
  eexists. split; [done |]. cbn [segments_missing orphan_segments].
  set (on_disk := {[_]} ∪ list_to_set _).
  assert (∀ s, s ∈ on_disk ↔ seg_present e s) as Hdisk.
  { intros s. unfold on_disk, seg_present. rewrite elem_of_union, elem_of_singleton, elem_of_list_to_set, sealed_ids.
    destruct (decide (s = wr_seg_id (sg_wr (e_seg e)))); tauto. }
  assert (∀ s, s ∈ map fst (filter (λ x, x.1 ∉ on_disk) (refs_iter (referenced_segments (tb e)))) ↔
    has_row e s ∧ ¬ seg_present e s) as Hmiss.
  { intros s. rewrite list_elem_of_fmap, <-Hdisk, <-referenced_spec. unfold refs_iter. split.
    - intros ([s' n] & -> & [Hn Hin]%list_elem_of_filter). simpl in *.
      rewrite (merge_sort_Permutation seg_le) in Hin. apply elem_of_map_to_list in Hin. eauto.
    - intros [[n Hn] Hd]. exists (s, n). split; [done |]. apply list_elem_of_filter. split; [done |].
      rewrite (merge_sort_Permutation seg_le). by apply elem_of_map_to_list. }
  split_and!; [| done |].
  - unfold is_healthy. cbn [segments_missing]. split.
    + intros Hh s Hs. apply Hdisk, dec_stable; rewrite Hdisk. intros Hn. assert (Hin := proj2 (Hmiss s) (conj Hs Hn)).
      destruct (map fst (filter _ _)); [by apply not_elem_of_nil in Hin | done].
    + intros Hall. destruct (map fst (filter _ _)) as [| s l] eqn:Hl; [done |].
      destruct (proj1 (Hmiss s)) as [Hs Hn]; [left |]. by destruct Hn; apply Hall.
  - intros s. unfold set_iter. rewrite list_elem_of_filter, (merge_sort_Permutation Z.le), elem_of_elements.
    rewrite <-referenced_spec, Hdisk, sealed_ids. unfold seg_present.
    rewrite <-eq_None_not_Some. tauto.
Qed.
End EngineMore.

Definition demo_evicted : engine MapTable := (evict_oldest_segment demo3).2.

Lemma evict_forgets_one_segment_witness :
  inv demo_evicted ∧ ∃ vid, (vid, 75) ∈ sealed_segments demo3 ∧
    ∀ dir : SegDir, seg_files demo_evicted !! (dir, vid) = None.
Proof.
  assert (evict_oldest_segment demo3 = (Ok (75, 1%nat), demo_evicted)) as Hrun
    by (unfold demo_evicted; apply run_fst; vm_compute; reflexivity).
  destruct (evict_forgets_one_segment demo3 _ _ (rd_inv _ demo3_ready) Hrun) as (HI & _ & [[=] | H]).
  split; [exact HI | exact H].
Defined.

Lemma verify_structure_exact_witness :
  ∃ rep, verify_structure demo3 = Ok rep ∧
    (is_healthy rep = true ↔ ∀ s, has_row demo3 s → seg_present demo3 s).
Proof.
  destruct (verify_structure_exact demo3) as (rep & Hrun & Hh & _). exists rep. split; [exact Hrun | exact Hh].
Defined.
