(* ===== verification/EngineLimits.v ===== *)
(** * Runs of the engine that lose or hide data

    Each example evaluates the model on a concrete disk and shows a behaviour
    of the code that its comments rule out: a put acknowledged after a torn
    write, a listing that stops before its prefix, a collection that meets a
    damaged record, a collection that overtakes a put, and a rotation that
    fails half way with a failover directory configured. *)

From Stdlib Require Import ZArith Lia Strings.Byte.
From stdpp Require Import base list gmap strings.
From S2P Require Import Prelude F64 Domain Table Piece Segment Engine EngineGc EngineProps Instances.
Open Scope Z_scope.

Definition with_faults (fs : list (option fault)) (e : engine MapTable) : engine MapTable :=
  set_e_seg {| sg_world := {| w_seg := w_seg (sg_world (e_seg e)); w_meta := w_meta (sg_world (e_seg e));
                              w_faults := fs |}; sg_wr := sg_wr (e_seg e) |} e.

Definition io_fault (e : IoError) (n : nat) : option fault := Some {| f_err := e; f_partial := n |}.

(** ENOSPC on the key of a record, after its header: the ballast is released
    and the retry is acknowledged, but the header of the first try is still in
    the file, so the record is not at the offset the index gets. *)
Definition ballast_engine : engine MapTable :=
  set_ballast (Some 8) true (fresh (mk_cfg 1000 2 100 false false 8)).

Example torn_retry_is_acknowledged_and_unreadable :
  let '(r, e) := put_impl k1 d2 None (with_faults [None; io_fault EStorageFull 0] ballast_engine) in
  r = Ok tt ∧ engine_get e k1 = Err (Corrupt "key: crc mismatch").
Proof. vm_compute. split; reflexivity. Qed.

(** A cursor before the prefix, and a key between the two: the page is empty
    although a key matches. *)
Definition list_engine : engine MapTable :=
  (put_impl [x61; x61] d2 None (put_impl [x62; x2f; x31] d2 None (fresh small_cfg)).2).2.

Example list_stops_before_the_prefix :
  engine_list list_engine [x62] (Some [x61]) 10 = Ok [] ∧
  engine_list list_engine [x62] None 10 = Ok [([x62; x2f; x31], 16)].
Proof. vm_compute. split; reflexivity. Qed.

(** One damaged byte in a dead record hides the live records behind it from
    the scan, and the collection unlinks them. *)
Definition damage (e : engine MapTable) : engine MapTable :=
  set_e_seg {| sg_world := set_seg (sg_world (e_seg e))
                 (alter (λ b, xff :: tail b) (Primary, 0) (seg_files e)); sg_wr := sg_wr (e_seg e) |} e.

Example gc_unlinks_live_records_behind_damage :
  engine_get (damage demo3) k2 = Ok d2 ∧
  engine_get (gc_once (f64_of_Z 0) (damage demo3)).2 k2 =
    Err (Io "record unreadable after re-lookup").
Proof. vm_compute. split; reflexivity. Qed.

(** A put whose body is in the segment but whose row is not yet in the index
    when a collection takes the segment. *)
Definition race_engine : engine MapTable := demo1.
Definition race_append : result DomainError (RecordAddr * Z) * engine MapTable :=
  append_body k2 d2 16 0 race_engine.
Definition race_addr : RecordAddr * Z :=
  match race_append.1 with Ok a => a | Err _ => ({| seg_id := 0; offset := 0; stored_len := 0; key_len := 0 |}, 0) end.
Definition race_other : engine MapTable := (put_impl k1 d2 None race_append.2).2.
Definition race_gc : engine MapTable := (gc_once (f64_of_Z 0) race_other).2.
Definition race_end : result DomainError unit * engine MapTable :=
  index_body k2 {| ae_addr := race_addr.1; ae_crc := race_addr.2; ae_logical_len := 16; ae_flags := 0;
                   ae_obj_logical := None |} race_gc.

Example gc_overtakes_an_acknowledged_put :
  race_end.1 = Ok tt ∧ engine_get race_end.2 k2 = Err (Io "record unreadable after re-lookup").
Proof. vm_compute. split; reflexivity. Qed.

(** A rotation whose new primary file is created but whose meta cannot be
    written: the failover segment gets the same id, and reads go to the empty
    primary file. *)
Definition failover_engine : engine MapTable :=
  (put_impl k1 d2 None (fresh (mk_cfg 10 2 100 false true 0))).2.

Example failover_segment_is_shadowed :
  let faults := [None; None; None; None; None; io_fault EOther 0] in
  let '(r, e) := put_impl k2 d2 None (with_faults faults failover_engine) in
  r = Ok tt ∧ engine_get e k2 = Err (Io "record unreadable after re-lookup").
Proof. vm_compute. split; reflexivity. Qed.
