(* ===== verification/Health.v ===== *)
(** * Disk health (crates/ozd-app/src/health.rs)

    The state machine Online -> Suspect -> Faulted -> Returning with
    hysteresis: how many consecutive observations each transition takes. *)

From Stdlib Require Import ZArith Lia.
From stdpp Require Import base list.
From S2P Require Import Prelude Domain.
Open Scope Z_scope.

Inductive Observation := Healthy | Degraded | Down.
#[global] Instance Observation_eq_dec : EqDecision Observation.
Proof. solve_decision. Defined.

Inductive FsmState := FOnline | FSuspect | FFaulted | FReturning.
#[global] Instance FsmState_eq_dec : EqDecision FsmState.
Proof. solve_decision. Defined.

Record HealthFsm := {
  fsm_state : FsmState;
  fails : Z;
  oks : Z;
  suspect_after : Z;
  recover_after : Z;
}.

Definition fsm_new (suspect recover : Z) : HealthFsm :=
  {| fsm_state := FOnline; fails := 0; oks := 0;
     suspect_after := Z.max suspect 1; recover_after := Z.max recover 1 |}.

Definition fsm_set (f : HealthFsm) (s : FsmState) (fl ok : Z) : HealthFsm :=
  {| fsm_state := s; fails := fl; oks := ok;
     suspect_after := suspect_after f; recover_after := recover_after f |}.

(** The transition of [observe]. *)
Definition fsm_step (f : HealthFsm) (o : Observation) : HealthFsm :=
  match fsm_state f, o with
  | FOnline, Healthy => fsm_set f FOnline 0 (oks f)
  | FOnline, Degraded =>
      let n := wrap 32 (fails f + 1) in
      if suspect_after f <=? n then fsm_set f FSuspect 0 0 else fsm_set f FOnline n (oks f)
  | FOnline, Down => fsm_set f FSuspect 0 0
  | FSuspect, Healthy =>
      let n := wrap 32 (oks f + 1) in
      if recover_after f <=? n then fsm_set f FOnline 0 0 else fsm_set f FSuspect 0 n
  | FSuspect, Degraded => fsm_set f FSuspect (fails f) 0
  | FSuspect, Down =>
      let n := wrap 32 (fails f + 1) in
      if suspect_after f <=? n then fsm_set f FFaulted 0 0 else fsm_set f FSuspect n 0
  | FFaulted, Healthy => fsm_set f FReturning 0 1
  | FFaulted, _ => fsm_set f FFaulted (fails f) (oks f)
  | FReturning, Healthy =>
      let n := wrap 32 (oks f + 1) in
      if recover_after f <=? n then fsm_set f FOnline 0 0 else fsm_set f FReturning (fails f) n
  | FReturning, _ => fsm_set f FFaulted 0 0
  end.

Definition fsm_status (f : HealthFsm) : ShardStatus :=
  match fsm_state f with
  | FOnline => Online
  | FSuspect | FReturning => Suspect
  | FFaulted => Faulted
  end.

Definition observe (f : HealthFsm) (o : Observation) : HealthFsm * ShardStatus :=
  let f := fsm_step f o in (f, fsm_status f).

(** A run of the monitor. *)
Definition fsm_run (f : HealthFsm) (os : list Observation) : HealthFsm := foldl fsm_step f os.

(** ** Counters and histories *)

(** What the counters count along a history, the latest observation first. *)
Fixpoint streak (o : Observation) (os : list Observation) : Z :=
  match os with
  | o' :: os => if decide (o' = o) then streak o os + 1 else 0
  | [] => 0
  end.

Lemma streak_nonneg o os : 0 <= streak o os.
Proof. induction os as [| o' os IH]; simpl; [lia |]. case_decide; lia. Qed.

(** A streak of [n] is the last [n] observations. *)
Lemma streak_split o os : ∃ os', os = replicate (Z.to_nat (streak o os)) o ++ os'.
Proof.
  induction os as [| o' os [os' IH]]; [by exists [] |]. simpl.
  case_decide as Ho; subst; [| by exists (o' :: os)].
  exists os'. rewrite Z2Nat.inj_add by (pose proof (streak_nonneg o os); lia).
  rewrite Nat.add_comm. simpl. by rewrite <-IH.
Qed.

(** The run over a history given latest first. *)
Definition fsm_history (f : HealthFsm) (os : list Observation) : HealthFsm := fsm_run f (rev os).

Lemma fsm_history_cons f o os : fsm_history f (o :: os) = fsm_step (fsm_history f os) o.
Proof. unfold fsm_history, fsm_run. simpl. by rewrite foldl_app. Qed.

Section Run.
Context (suspect recover : Z) (Hs : suspect < 2 ^ 32) (Hr : recover < 2 ^ 32).

Let f0 := fsm_new suspect recover.

(** The counters of a reachable state are bounded by the streaks. *)
Record fsm_inv (os : list Observation) (f : HealthFsm) : Prop := {
  fi_suspect : suspect_after f = Z.max suspect 1;
  fi_recover : recover_after f = Z.max recover 1;
  fi_fails : 0 <= fails f < suspect_after f;
  fi_oks : 0 <= oks f ∧ (fsm_state f = FReturning ∨ oks f < recover_after f);
  fi_online : fsm_state f = FOnline → fails f <= streak Degraded os;
  fi_healing : fsm_state f = FSuspect ∨ fsm_state f = FReturning → oks f <= streak Healthy os;
  fi_returning : fsm_state f = FReturning → 1 <= oks f ∧ (1 < oks f → oks f < recover_after f);
}.

Lemma fsm_inv_run os : fsm_inv os (fsm_history f0 os).
Proof.
  induction os as [| o os [I1 I2 I3 I4 I5 I6 I7]].
  { split; simpl; try lia; try done. }
  rewrite fsm_history_cons. set (f := fsm_history f0 os) in *.
  pose proof (streak_nonneg Healthy os). pose proof (streak_nonneg Degraded os).
  assert (wrap 32 (fails f + 1) = fails f + 1) as Hwf by (apply wrap_small; lia).
  assert (fsm_state f = FReturning ∨ wrap 32 (oks f + 1) = oks f + 1) as Hwo.
  { destruct I4 as [? [? |]]; [by left | right]. apply wrap_small. lia. }
  assert (fsm_state f = FReturning → wrap 32 (oks f + 1) = oks f + 1) as Hwr.
  { intros [? ?]%I7. apply wrap_small. destruct (decide (1 < oks f)); lia. }
  unfold fsm_step.
  destruct (fsm_state f) eqn:Hst, o;
    rewrite ?Hwf, ?Hwr by done; destruct Hwo as [Hwo | Hwo]; try done; rewrite ?Hwo;
    repeat match goal with |- context [if ?b then _ else _] =>
      lazymatch b with context [Z.leb] => destruct b eqn:?Hb end end;
    rewrite ?Z.leb_le, ?Z.leb_gt in *;
    split; simpl; rewrite ?decide_True by done; try done; try lia;
    intuition (try done; try lia; try congruence).
Qed.
End Run.

(** [n] consecutive observations [o] somewhere in the history. *)
Definition has_run (n : nat) (o : Observation) (os : list Observation) : Prop :=
  ∃ l1 l2, os = l1 ++ replicate n o ++ l2.

Lemma rev_replicate n (o : Observation) : rev (replicate n o) = replicate n o.
Proof. induction n as [| n IH]; [done |]. simpl. by rewrite IH, replicate_cons_app. Qed.

Lemma has_run_rev n o os : has_run n o (rev os) → has_run n o os.
Proof.
  intros (l1 & l2 & H). exists (rev l2), (rev l1).
  apply (f_equal (@rev Observation)) in H. rewrite rev_involutive, !rev_app_distr in H.
  by rewrite H, <-app_assoc, rev_replicate.
Qed.

Lemma has_run_cons n o o' os : has_run n o os → has_run n o (o' :: os).
Proof. intros (l1 & l2 & ->). by exists (o' :: l1), l2. Qed.

Lemma streak_has_run n o os : Z.of_nat n <= streak o os → has_run n o os.
Proof.
  intros Hn. destruct (streak_split o os) as [os' Hos]. rewrite Hos.
  exists [], (replicate (Z.to_nat (streak o os) - n) o ++ os'). simpl.
  rewrite app_assoc, <-replicate_add. f_equal. f_equal. lia.
Qed.

(** Runs can be searched for. *)
Fixpoint has_run_b (n : nat) (o : Observation) (os : list Observation) : bool :=
  bool_decide (replicate n o `prefix_of` os) ||
  match os with [] => false | _ :: os => has_run_b n o os end.

Lemma has_run_b_spec n o os : has_run_b n o os = true ↔ has_run n o os.
Proof.
  split.
  - induction os as [| o' os IH]; simpl; rewrite ?orb_false_r.
    + intros [l ->]%bool_decide_eq_true. by exists [], l.
    + intros [[l Hl]%bool_decide_eq_true | H]%orb_true_iff; [exists [], l; by rewrite Hl |].
      by apply has_run_cons, IH.
  - intros (l1 & l2 & ->). induction l1 as [| o' l1 IH]; simpl.
    + assert (bool_decide (replicate n o `prefix_of` replicate n o ++ l2) = true) as H
        by (apply bool_decide_eq_true; by exists l2).
      destruct (replicate n o ++ l2); simpl; by rewrite H.
    + rewrite IH. apply orb_true_r.
Qed.

#[global] Instance has_run_dec n o os : Decision (has_run n o os).
Proof.
  destruct (has_run_b n o os) eqn:H; [left; by apply has_run_b_spec |].
  right. intros Hr%has_run_b_spec. congruence.
Defined.

(** Hysteresis against glitches: as long as no observation is Down and no
    [suspect_after] consecutive ones are Degraded, the disk stays Online. *)
Theorem glitches_tolerated suspect recover os :
  suspect < 2 ^ 32 → recover < 2 ^ 32 → Down ∉ os →
  ¬ has_run (Z.to_nat (Z.max suspect 1)) Degraded os →
  fsm_status (fsm_run (fsm_new suspect recover) os) = Online.
Proof.
  intros Hs Hr Hd Hn. rewrite <-(rev_involutive os).
  change (fsm_run ?f (rev ?l)) with (fsm_history f l).
  assert (Down ∉ rev os) as Hd' by (by rewrite list_elem_of_In, <-in_rev, <-list_elem_of_In).
  assert (¬ has_run (Z.to_nat (Z.max suspect 1)) Degraded (rev os)) as Hn' by (by intros ?%has_run_rev).
  clear Hd Hn. revert Hd' Hn'. generalize (rev os). clear os. intros os.
  induction os as [| o os IH]; intros Hd Hn; [done |].
  apply not_elem_of_cons in Hd as [Ho Hd].
  specialize (IH Hd ltac:(intros H; by apply Hn, has_run_cons)).
  destruct (fsm_inv_run suspect recover Hs Hr os) as [I1 _ I3 _ I5 _ _].
  rewrite fsm_history_cons. set (f := fsm_history _ os) in *.
  unfold fsm_status in *. unfold fsm_step. destruct (fsm_state f) eqn:Hst; try done. simpl.
  destruct o; try done. rewrite wrap_small by lia.
  destruct (Z.leb_spec (suspect_after f) (fails f + 1)); [| done].
  destruct Hn. apply streak_has_run. simpl. specialize (I5 eq_refl). lia.
Qed.

Lemma returning_run f os :
  fsm_state f = FFaulted → recover_after f < 2 ^ 32 → 1 <= recover_after f →
  ¬ has_run (Z.to_nat (Z.max 2 (recover_after f))) Healthy os →
  let f' := fsm_history f os in
  recover_after f' = recover_after f ∧
  (fsm_state f' = FFaulted ∨
   fsm_state f' = FReturning ∧ 1 <= oks f' <= streak Healthy os ∧ oks f' < Z.max 2 (recover_after f)).
Proof.
  intros Hf Hr Hr1. induction os as [| o os IH]; intros Hn; [by split; [| left] |].
  destruct (IH ltac:(intros H; by apply Hn, has_run_cons)) as [Hre Hst]. cbv zeta in *.
  rewrite fsm_history_cons. set (f' := fsm_history f os) in *.
  pose proof (streak_nonneg Healthy os). unfold fsm_step.
  destruct Hst as [Hst | (Hst & Ho & Hlt)]; rewrite Hst.
  - destruct o; (split; [done |]); [right | by left | by left].
    simpl. rewrite ?decide_True by done. split; [done | lia].
  - destruct o; [| by split; [| left] | by split; [| left]].
    rewrite wrap_small by lia. rewrite Hre.
    destruct (Z.leb_spec (recover_after f) (oks f' + 1)).
    + destruct Hn. apply streak_has_run. simpl. rewrite ?decide_True by done. lia.
    + split; [done |]. right. simpl. rewrite ?decide_True by done. split; [done | lia].
Qed.

(** A disk that was Faulted is Online again only after
    [max 2 recover_after] consecutive Healthy probes; before that its status
    is Faulted or Suspect. *)
Theorem return_needs_probes suspect recover os probes :
  recover < 2 ^ 32 →
  fsm_status (fsm_run (fsm_new suspect recover) os) = Faulted →
  fsm_status (fsm_run (fsm_new suspect recover) (os ++ probes)) = Online →
  has_run (Z.to_nat (Z.max 2 recover)) Healthy probes.
Proof.
  intros Hr Hf Ho. unfold fsm_run in *. rewrite foldl_app in Ho.
  set (f := foldl fsm_step (fsm_new suspect recover) os) in *.
  assert (recover_after f = Z.max recover 1) as Hre.
  { unfold f. clear. induction os as [| o os IH] using rev_ind; [done |].
    rewrite foldl_app. simpl. rewrite <-IH. unfold fsm_step.
    destruct (fsm_state _), o; try done; by destruct (_ <=? _). }
  assert (fsm_state f = FFaulted) as Hst by (unfold fsm_status in Hf; by destruct (fsm_state f)).
  replace (Z.max 2 recover) with (Z.max 2 (recover_after f)) by lia.
  destruct (has_run_dec (Z.to_nat (Z.max 2 (recover_after f))) Healthy (rev probes)) as [H | H];
    [by apply has_run_rev |].
  destruct (returning_run f (rev probes) Hst) as [_ Hst']; [lia | lia | done |].
  unfold fsm_history, fsm_run in Hst'. rewrite rev_involutive in Hst'.
  unfold fsm_status in Ho. destruct Hst' as [-> | [-> _]] in Ho; done.
Qed.

Lemma glitches_tolerated_witness :
  fsm_status (fsm_run (fsm_new 3 2) [Degraded; Degraded; Healthy; Degraded; Degraded]) = Online.
Proof.
  apply (glitches_tolerated 3 2); [lia | lia | intros H%(bool_decide_eq_true_2 _); vm_compute in H; discriminate H |].
  intros H%has_run_b_spec. vm_compute in H. discriminate H.
Defined.

Lemma return_needs_probes_witness :
  has_run 2 Healthy [Healthy; Down; Healthy; Healthy].
Proof.
  apply (return_needs_probes 1 2 [Down; Down] [Healthy; Down; Healthy; Healthy]);
    [lia | reflexivity | reflexivity].
Defined.
