(* ===== verification/Latency.v ===== *)
(** * Rolling 99th percentile (crates/ozd-app/src/latency.rs)

    Read latencies in 22 power-of-two buckets over two epochs; the percentile
    is the upper bound of the first bucket that covers 99 per cent of the
    samples of both. The specification keeps the samples themselves: the
    buckets are their histogram ([refines]), and the reported bound is a
    percentile of them. Each call is one step; times are microseconds since
    [base]. *)

From Stdlib Require Import ZArith Lia.
From stdpp Require Import base list.
From S2P Require Import Prelude.
Open Scope Z_scope.

Definition BUCKETS : nat := 22.

Record RollingP99 := {
  window_us : Z;
  min_samples : Z;
  cur : bool;                      (* the current epoch, 0 or 1 *)
  epoch_start_us : Z;
  buckets0 : list Z; buckets1 : list Z;
  counts0 : Z; counts1 : Z;
}.

(** [63 - leading_zeros(max(us, 1))], at most the last bucket. *)
Definition bucket_idx (us : Z) : nat := Nat.min (Z.to_nat (Z.log2 (Z.max us 1))) (BUCKETS - 1).

Definition p99_new (window min : Z) : RollingP99 :=
  {| window_us := window; min_samples := min; cur := false; epoch_start_us := 0;
     buckets0 := replicate BUCKETS 0; buckets1 := replicate BUCKETS 0; counts0 := 0; counts1 := 0 |}.

Definition epoch_buckets (p : RollingP99) (e : bool) : list Z := if e then buckets1 p else buckets0 p.
Definition epoch_count (p : RollingP99) (e : bool) : Z := if e then counts1 p else counts0 p.

(** Store the buckets and the count of an epoch. *)
Definition set_epoch (p : RollingP99) (e : bool) (b : list Z) (n : Z) : RollingP99 :=
  {| window_us := window_us p; min_samples := min_samples p; cur := cur p;
     epoch_start_us := epoch_start_us p;
     buckets0 := if e then buckets0 p else b; buckets1 := if e then b else buckets1 p;
     counts0 := if e then counts0 p else n; counts1 := if e then n else counts1 p |}.

Definition set_cur (p : RollingP99) (e : bool) : RollingP99 :=
  {| window_us := window_us p; min_samples := min_samples p; cur := e;
     epoch_start_us := epoch_start_us p; buckets0 := buckets0 p; buckets1 := buckets1 p;
     counts0 := counts0 p; counts1 := counts1 p |}.

Definition set_start (p : RollingP99) (t : Z) : RollingP99 :=
  {| window_us := window_us p; min_samples := min_samples p; cur := cur p;
     epoch_start_us := t; buckets0 := buckets0 p; buckets1 := buckets1 p;
     counts0 := counts0 p; counts1 := counts1 p |}.

Definition maybe_rotate (p : RollingP99) (now : Z) : RollingP99 :=
  if sat_sub now (epoch_start_us p) <? window_us p then p
  else
    let stale_both := wrap 64 (window_us p * 2) <=? sat_sub now (epoch_start_us p) in
    let next := negb (cur p) in
    let p := set_epoch p next (replicate BUCKETS 0) 0 in
    let p := set_cur p next in
    let p := if stale_both then set_epoch p (negb next) (replicate BUCKETS 0) 0 else p in
    set_start p now.

Definition record_at (p : RollingP99) (lat now : Z) : RollingP99 :=
  let p := maybe_rotate p now in
  let e := cur p in
  set_epoch p e (alter (λ n, wrap 64 (n + 1)) (bucket_idx lat) (epoch_buckets p e))
    (wrap 64 (epoch_count p e + 1)).

(** The loop over the buckets, from bucket [i] with [n] left. *)
Fixpoint p99_loop (n i : nat) (cum target : Z) (b0 b1 : list Z) : Z :=
  match n with
  | O => 2 ^ Z.of_nat BUCKETS
  | S n =>
      let cum := wrap 64 (cum + wrap 64 (nth i b0 0 + nth i b1 0)) in
      if target <=? cum then 2 ^ (Z.of_nat i + 1) else p99_loop n (S i) cum target b0 b1
  end.

Definition p99_at (p : RollingP99) (now : Z) : option Z * RollingP99 :=
  let p := maybe_rotate p now in
  let total := wrap 64 (counts0 p + counts1 p) in
  if total <? min_samples p then (None, p)
  else
    let target := div_ceil (wrap 64 (total * 99)) 100 in
    (Some (p99_loop BUCKETS 0 0 target (buckets0 p) (buckets1 p)), p).

(** ** Specification: the samples of two epochs *)

Record window := { w_start : Z; w_cur : list Z; w_old : list Z }.

Definition window_rotate (len : Z) (w : window) (now : Z) : window :=
  if sat_sub now (w_start w) <? len then w
  else {| w_start := now; w_cur := [];
          w_old := if len * 2 <=? sat_sub now (w_start w) then [] else w_cur w |}.

Definition window_record (len : Z) (w : window) (lat now : Z) : window :=
  let w := window_rotate len w now in
  {| w_start := w_start w; w_cur := lat :: w_cur w; w_old := w_old w |}.

Definition samples (w : window) : list Z := w_cur w ++ w_old w.

(** How many samples satisfy a test. *)
Definition count (f : Z → bool) (l : list Z) : Z := Z.of_nat (length (filter (λ x, f x = true) l)).

Definition hist (l : list Z) : list Z :=
  map (λ i, count (λ x, bool_decide (bucket_idx x = i)) l) (seq 0 BUCKETS).

(** The buckets are the histogram of the samples. *)
Record refines (p : RollingP99) (w : window) : Prop := {
  rf_start : epoch_start_us p = w_start w;
  rf_cur : epoch_buckets p (cur p) = hist (w_cur w);
  rf_old : epoch_buckets p (negb (cur p)) = hist (w_old w);
  rf_ncur : epoch_count p (cur p) = Z.of_nat (length (w_cur w));
  rf_nold : epoch_count p (negb (cur p)) = Z.of_nat (length (w_old w));
}.

Lemma count_cons f x l : count f (x :: l) = count f l + (if f x then 1 else 0).
Proof.
  unfold count. rewrite filter_cons. destruct (f x); case_decide; try done; simpl; lia.
Qed.

Lemma count_app f l1 l2 : count f (l1 ++ l2) = count f l1 + count f l2.
Proof. unfold count. rewrite filter_app, length_app. lia. Qed.

Lemma count_bound f l : 0 <= count f l <= Z.of_nat (length l).
Proof.
  induction l as [| x l IH]; [done |]. rewrite count_cons. simpl. destruct (f x); lia.
Qed.

Lemma count_ext f g l : (∀ x, x ∈ l → f x = g x) → count f l = count g l.
Proof.
  induction l as [| x l IH]; intros H; [done |]. rewrite !count_cons, IH.
  - rewrite H; [done | by left].
  - intros y Hy. apply H. by right.
Qed.

Lemma bucket_idx_lt x : (bucket_idx x < BUCKETS)%nat.
Proof. unfold bucket_idx, BUCKETS. lia. Qed.

Lemma hist_length l : length (hist l) = BUCKETS.
Proof. unfold hist. by rewrite length_map, length_seq. Qed.

Lemma hist_nil : hist [] = replicate BUCKETS 0.
Proof. reflexivity. Qed.

Lemma hist_nth l i : (i < BUCKETS)%nat →
  hist l !! i = Some (count (λ x, bool_decide (bucket_idx x = i)) l).
Proof.
  intros Hi. unfold hist. rewrite list_lookup_fmap, lookup_seq_lt by done. done.
Qed.

Lemma hist_cons x l : Z.of_nat (length l) < 2 ^ 57 →
  alter (λ n, wrap 64 (n + 1)) (bucket_idx x) (hist l) = hist (x :: l).
Proof.
  intros Hl. apply list_eq. intros i. destruct (decide (i < BUCKETS)%nat) as [Hi | Hi].
  - rewrite (hist_nth (x :: l)) by done. destruct (decide (bucket_idx x = i)) as [<- | Hne].
    + rewrite list_lookup_alter, decide_True, hist_nth by (try done; apply bucket_idx_lt). simpl. f_equal.
      pose proof (count_bound (λ y, bool_decide (bucket_idx y = bucket_idx x)) l).
      rewrite wrap_small by lia. by rewrite count_cons, bool_decide_eq_true_2.
    + rewrite list_lookup_alter_ne, hist_nth by done. f_equal.
      rewrite count_cons, bool_decide_eq_false_2 by done. lia.
  - rewrite !lookup_ge_None_2; [done | rewrite hist_length; lia |].
    rewrite length_alter, hist_length. lia.
Qed.

(** C34. The tracker refines the two-epoch window of samples: rotation and
    recording keep its buckets the histograms of the current and the previous
    epoch, and its counts their sizes. *)
Theorem record_at_refines p w lat now :
  refines p w → 0 <= window_us p < 2 ^ 63 → Z.of_nat (length (samples w)) + 1 < 2 ^ 57 →
  refines (maybe_rotate p now) (window_rotate (window_us p) w now) ∧
  refines (record_at p lat now) (window_record (window_us p) w lat now).
Proof.
  intros HR Hw Hn.
  assert (refines (maybe_rotate p now) (window_rotate (window_us p) w now)) as HR'.
  { destruct HR as [R1 R2 R3 R4 R5]. unfold maybe_rotate, window_rotate. rewrite R1.
    destruct (_ <? _); [by split |]. rewrite wrap_small by lia.
    destruct p as [wi mi [|] st b0 b1 n0 n1], (_ <=? _); simpl in *; by split; simpl; rewrite ?hist_nil. }
  split; [done |].
  assert (Z.of_nat (length (w_cur (window_rotate (window_us p) w now))) < 2 ^ 57) as Hl.
  { unfold samples in Hn. rewrite length_app in Hn. unfold window_rotate.
    destruct (_ <? _); simpl; lia. }
  unfold record_at, window_record. destruct HR' as [R1 R2 R3 R4 R5].
  set (p' := maybe_rotate p now) in *. set (w' := window_rotate _ w now) in *.
  destruct p' as [wi mi c st b0 b1 n0 n1]. simpl in *.
  assert (wrap 64 (epoch_count {| window_us := wi; min_samples := mi; cur := c; epoch_start_us := st;
     buckets0 := b0; buckets1 := b1; counts0 := n0; counts1 := n1 |} c + 1) = Z.of_nat (length (w_cur w')) + 1) as Hc.
  { rewrite R4. apply wrap_small. lia. }
  rewrite Hc, R2, hist_cons by done.
  destruct c; split; simpl in *; try done; lia.
Qed.

(** ** The percentile *)

Definition below (i : nat) (l : list Z) : Z := count (λ x, (bucket_idx x <? i)%nat) l.

Lemma below_S i l : below (S i) l = below i l + count (λ x, bool_decide (bucket_idx x = i)) l.
Proof.
  unfold below. induction l as [| x l IH]; [done |]. rewrite !count_cons, IH.
  case_bool_decide; destruct (Nat.ltb_spec (bucket_idx x) (S i)), (Nat.ltb_spec (bucket_idx x) i); lia.
Qed.

Lemma below_0 l : below 0 l = 0.
Proof. unfold below. induction l as [| x l IH]; [done |]. rewrite count_cons, IH. done. Qed.

Lemma below_all l : below BUCKETS l = Z.of_nat (length l).
Proof.
  unfold below. induction l as [| x l IH]; [done |]. rewrite count_cons, IH.
  rewrite (proj2 (Nat.ltb_lt _ _)) by apply bucket_idx_lt. simpl. lia.
Qed.

(** The loop stops at the first bucket that covers the target. *)
Lemma p99_loop_spec n i l0 l1 target b0 b1 :
  b0 = hist l0 → b1 = hist l1 → (i + n = BUCKETS)%nat →
  Z.of_nat (length (l0 ++ l1)) < 2 ^ 57 → target <= Z.of_nat (length (l0 ++ l1)) →
  (n = 0%nat → target <= 0) →
  ∀ cum, cum = below i (l0 ++ l1) → (0 < n)%nat →
  ∃ j, (i <= j < BUCKETS)%nat ∧ p99_loop n i cum target b0 b1 = 2 ^ (Z.of_nat j + 1) ∧
    target <= below (S j) (l0 ++ l1) ∧ (∀ i', (i <= i' < j)%nat → below (S i') (l0 ++ l1) < target).
Proof.
  intros -> -> Hn Hl Ht _. revert i Hn. induction n as [| n IH]; intros i Hn cum Hcum Hpos; [lia |].
  cbn [p99_loop].
  assert (nth i (hist l0) 0 = count (λ x, bool_decide (bucket_idx x = i)) l0) as ->.
  { apply nth_lookup_Some. apply hist_nth. lia. }
  assert (nth i (hist l1) 0 = count (λ x, bool_decide (bucket_idx x = i)) l1) as ->.
  { apply nth_lookup_Some. apply hist_nth. lia. }
  rewrite <-count_app.
  pose proof (count_bound (λ x, bool_decide (bucket_idx x = i)) (l0 ++ l1)) as Hb1.
  pose proof (count_bound (λ x, (bucket_idx x <? S i)%nat) (l0 ++ l1)) as Hb2.
  change (count (λ x, (bucket_idx x <? S i)%nat) (l0 ++ l1)) with (below (S i) (l0 ++ l1)) in Hb2.
  pose proof (below_S i (l0 ++ l1)) as HS.
  rewrite (wrap_small 64 (count _ _)) by lia. rewrite Hcum, wrap_small by lia. rewrite <-HS.
  destruct (Z.leb_spec target (below (S i) (l0 ++ l1))) as [Hle | Hgt].
  - exists i. split; [lia | split; [done | split; [done |]]]. intros i' Hi'. lia.
  - destruct n as [| n].
    { exfalso. replace (S i) with BUCKETS in Hgt by lia. rewrite below_all in Hgt. lia. }
    destruct (IH (S i) ltac:(lia) _ eq_refl ltac:(lia)) as (j & Hj & -> & Hc & Hlt).
    exists j. split; [lia | split; [done | split; [done |]]]. intros i' Hi'.
    destruct (decide (i' = i)) as [-> | Hne]; [done | apply Hlt; lia].
Qed.

Lemma bucket_below x j : 0 <= x < 2 ^ 22 → (j < BUCKETS)%nat →
  (bucket_idx x < S j)%nat ↔ x < 2 ^ (Z.of_nat j + 1).
Proof.
  intros Hx Hj. unfold bucket_idx, BUCKETS in *.
  assert (Z.log2 (Z.max x 1) < 22) as Hlog by (apply Z.log2_lt_pow2; lia).
  pose proof (Z.log2_nonneg (Z.max x 1)).
  assert (x < 2 ^ (Z.of_nat j + 1) ↔ Z.log2 (Z.max x 1) < Z.of_nat j + 1) as ->; [| lia].
  rewrite <-Z.log2_lt_pow2 by lia.
  assert (1 < 2 ^ (Z.of_nat j + 1)) by (apply Z.pow_gt_1; lia). lia.
Qed.

(** The reported percentile, once warmed up: at least 99 per cent of the
    window's samples are below it, and it is the least power of two (from 2)
    of which this holds. Before [min_samples] samples there is no report. *)
Theorem p99_is_a_percentile p w now :
  refines p w → 0 <= window_us p < 2 ^ 63 →
  let w' := window_rotate (window_us p) w now in
  let all := samples w' in
  let n := Z.of_nat (length all) in
  n < 2 ^ 57 → (∀ x, x ∈ all → 0 <= x < 2 ^ 22) → 0 < n →
  match (p99_at p now).1 with
  | None => n < min_samples p
  | Some u => min_samples p <= n ∧ 99 * n <= 100 * count (λ x, x <? u) all ∧
      ∃ j, u = 2 ^ (Z.of_nat j + 1) ∧
        ∀ i, (i < j)%nat → 100 * count (λ x, x <? 2 ^ (Z.of_nat i + 1)) all < 99 * n
  end.
Proof.
  intros HR Hw w' all n Hn Hx Hpos.
  assert (min_samples (maybe_rotate p now) = min_samples p) as Hmin
    by (unfold maybe_rotate; cbv zeta; repeat case_match; done).
  assert (refines (maybe_rotate p now) w') as [R1 R2 R3 R4 R5].
  { destruct HR as [R1 R2 R3 R4 R5]. unfold w', maybe_rotate, window_rotate. rewrite R1.
    destruct (_ <? _); [by split |]. rewrite wrap_small by lia.
    destruct p as [wi mi [|] st b0 b1 n0 n1], (_ <=? _); simpl in *; by split; simpl; rewrite ?hist_nil. }
  unfold p99_at. rewrite Hmin. set (p' := maybe_rotate p now) in *. cbv zeta.
  assert (∃ l0 l1, buckets0 p' = hist l0 ∧ buckets1 p' = hist l1 ∧ all ≡ₚ l0 ++ l1 ∧
    counts0 p' + counts1 p' = n) as (l0 & l1 & H0 & H1 & Hp & Hc).
  { unfold n, all, samples. rewrite length_app. destruct (cur p'); simpl in *.
    - exists (w_old w'), (w_cur w'). split_and!; try done; [by rewrite Permutation_app_comm | lia].
    - exists (w_cur w'), (w_old w'). split_and!; try done. lia. }
  assert (∀ f, count f all = count f (l0 ++ l1)) as Hcnt by (intros f; unfold count; by rewrite Hp).
  assert (n = Z.of_nat (length (l0 ++ l1))) as Hlen by (unfold n; by rewrite Hp).
  rewrite Hc, (wrap_small 64 n) by lia.
  destruct (Z.ltb_spec n (min_samples p)); cbn [fst]; [done |]. split; [done |].
  rewrite (wrap_small 64 (n * 99)) by lia. set (target := div_ceil (n * 99) 100).
  assert (100 * (target - 1) < 99 * n <= 100 * target) as Ht.
  { unfold target, div_ceil. pose proof (Z.div_mod (n * 99 + 100 - 1) 100).
    pose proof (Z.mod_pos_bound (n * 99 + 100 - 1) 100). lia. }
  destruct (p99_loop_spec BUCKETS 0 l0 l1 target _ _ H0 H1) with (cum := 0)
    as (j & Hj & -> & Hcov & Hleast); try lia; try done.
  { by rewrite below_0. } { unfold BUCKETS. lia. }
  assert (∀ i, (i < BUCKETS)%nat → below (S i) (l0 ++ l1) = count (λ x, x <? 2 ^ (Z.of_nat i + 1)) all) as Hbelow.
  { intros i Hi. rewrite Hcnt. unfold below. apply count_ext. intros x Hin.
    assert (0 <= x < 2 ^ 22) as Hxb by (apply Hx; by rewrite Hp).
    pose proof (bucket_below x i Hxb Hi).
    destruct (Nat.ltb_spec (bucket_idx x) (S i)), (Z.ltb_spec x (2 ^ (Z.of_nat i + 1))); try done; lia. }
  rewrite Hbelow in Hcov by lia. split; [lia |]. exists j. split; [done |]. intros i Hi.
  specialize (Hleast i ltac:(lia)). rewrite Hbelow in Hleast by lia. lia.
Qed.

(** ** A run *)

Definition demo_p99 : RollingP99 := record_at (record_at (p99_new 1000 2) 300 10) 5 20.
Definition demo_window : window := {| w_start := 0; w_cur := [5; 300]; w_old := [] |}.

Lemma demo_refines : refines demo_p99 demo_window.
Proof. by split. Qed.

Lemma record_at_refines_witness :
  refines (record_at demo_p99 7 1500) (window_record 1000 demo_window 7 1500).
Proof.
  apply (record_at_refines demo_p99 demo_window 7 1500 demo_refines); simpl; lia.
Defined.

Lemma p99_is_a_percentile_witness :
  match (p99_at demo_p99 30).1 with
  | None => 2 < 2
  | Some u => 2 <= 2 ∧ 99 * 2 <= 100 * count (λ x, x <? u) [5; 300] ∧
      ∃ j, u = 2 ^ (Z.of_nat j + 1) ∧
        ∀ i, (i < j)%nat → 100 * count (λ x, x <? 2 ^ (Z.of_nat i + 1)) [5; 300] < 99 * 2
  end.
Proof.
  apply (p99_is_a_percentile demo_p99 demo_window 30 demo_refines); simpl; try lia.
  intros x [-> | [-> | ?%not_elem_of_nil]%elem_of_cons]%elem_of_cons; [lia | lia | done].
Defined.
