(* ===== verification/DiskSlow.v ===== *)
(** * Slow-disk detection (crates/ozd-app/src/diskslow.rs)

    A moving average of the latencies of each shard, and the verdict "slow"
    against the median of the fleet and an absolute floor. Latencies are in
    microseconds; the average is integer arithmetic on [u64]. *)

From Stdlib Require Import ZArith Lia.
From stdpp Require Import base list sorting.
From S2P Require Import Prelude F64.
Open Scope Z_scope.

Record DiskSlowConfig := { abs_floor_ms : Z; rel_factor : f64; ds_min_samples : Z }.

Definition DiskSlowConfig_default : DiskSlowConfig :=
  {| abs_floor_ms := 250; rel_factor := f64_of_Z 4; ds_min_samples := 32 |}.

Record DiskSlowMonitor := { ewma_us : list Z; ds_counts : list Z }.

Definition ALPHA_NUM : Z := 1.
Definition ALPHA_DEN : Z := 8.

Definition slow_new (n : nat) : DiskSlowMonitor :=
  {| ewma_us := replicate n 0; ds_counts := replicate n 0 |}.

Definition ewma_step (old us : Z) : Z :=
  wrap 64 (wrap 64 (old * (ALPHA_DEN - ALPHA_NUM)) + us * ALPHA_NUM) / ALPHA_DEN.

Definition slow_record (m : DiskSlowMonitor) (shard : nat) (us : Z) : DiskSlowMonitor :=
  match ewma_us m !! shard, ds_counts m !! shard with
  | Some old, Some n =>
      {| ewma_us := <[shard := if n =? 0 then us else ewma_step old us]> (ewma_us m);
         ds_counts := <[shard := wrap 64 (n + 1)]> (ds_counts m) |}
  | _, _ => m
  end.

Definition ewma_ms (m : DiskSlowMonitor) (shard : nat) : Z := default 0 (ewma_us m !! shard) / 1000.
Definition slow_samples (m : DiskSlowMonitor) (shard : nat) : Z := default 0 (ds_counts m !! shard).

(** Average and sample count of every shard. *)
Definition slow_rows (m : DiskSlowMonitor) : list (Z * Z) := zip (ewma_us m) (ds_counts m).

Definition participating (cfg : DiskSlowConfig) (m : DiskSlowMonitor) : list Z :=
  merge_sort Z.le (map fst (filter (λ r, ds_min_samples cfg <= r.2) (slow_rows m))).

Definition slow_threshold (cfg : DiskSlowConfig) (m : DiskSlowMonitor) : Z :=
  let p := participating cfg m in
  let median_us := default 0 (p !! (length p / 2)%nat) in
  let floor_us := wrap 64 (abs_floor_ms cfg * 1000) in
  let rel_us := f64_to_u64 (f64_mul (f64_of_Z median_us) (rel_factor cfg)) in
  Z.max floor_us rel_us.

Definition verdicts (cfg : DiskSlowConfig) (m : DiskSlowMonitor) : list bool :=
  map (λ r, (ds_min_samples cfg <=? r.2) && (slow_threshold cfg m <? r.1)) (slow_rows m).

(** ** The average stays among the latencies *)

Definition run_records (m : DiskSlowMonitor) (rs : list (nat * Z)) : DiskSlowMonitor :=
  foldl (λ m r, slow_record m r.1 r.2) m rs.

Lemma ewma_step_between lo hi old us :
  0 <= lo → hi < 2 ^ 60 → lo <= old <= hi → lo <= us <= hi → lo <= ewma_step old us <= hi.
Proof.
  intros Hlo Hhi Ho Hu. unfold ewma_step, ALPHA_DEN, ALPHA_NUM.
  rewrite (wrap_small 64 (old * _)), wrap_small by lia. split.
  - apply Z.div_le_lower_bound; lia.
  - apply Z.div_le_upper_bound; lia.
Qed.

(** Every average of a shard that has samples is between the bounds. *)
Definition between (lo hi : Z) (m : DiskSlowMonitor) : Prop :=
  length (ewma_us m) = length (ds_counts m) ∧
  ∀ i a n, ewma_us m !! i = Some a → ds_counts m !! i = Some n →
    0 <= n ∧ (n = 0 ∧ a = 0 ∨ lo <= a <= hi).

Lemma between_record lo hi m shard us :
  0 <= lo → hi < 2 ^ 60 → lo <= us <= hi → between lo hi m → between lo hi (slow_record m shard us).
Proof.
  intros Hlo Hhi Hu [Hlen Hb]. unfold slow_record.
  destruct (ewma_us m !! shard) as [old |] eqn:Ho; [| by split].
  destruct (ds_counts m !! shard) as [n |] eqn:Hn; [| by split].
  destruct (Hb _ _ _ Ho Hn) as [Hn0 Hold]. split; [by simpl; rewrite !length_insert |].
  intros i a c. simpl. rewrite !list_lookup_insert_Some.
  intros [(<- & <- & _) | [Hi Ha]] [(? & <- & _) | [Hi' Hc]]; try done.
  - split; [by apply wrap_bound |]. right. destruct (Z.eqb_spec n 0); [done |].
    apply ewma_step_between; lia.
  - by eapply Hb.
Qed.

Lemma between_run lo hi m rs :
  0 <= lo → hi < 2 ^ 60 → Forall (λ r, lo <= r.2 <= hi) rs → between lo hi m →
  between lo hi (run_records m rs).
Proof.
  intros Hlo Hhi Hrs. revert m. unfold run_records.
  induction Hrs as [| [s us] rs Hr _ IH]; intros m Hm; [done |]. simpl.
  by apply IH, between_record.
Qed.

(** The moving average of a shard stays between the least and the greatest
    latency recorded, and a fleet whose latencies never exceed the absolute
    floor has no slow disk, whatever the relative factor. *)
Theorem quiet_fleet_not_slow cfg n lo hi rs :
  0 <= lo → hi < 2 ^ 60 → Forall (λ r, lo <= r.2 <= hi) rs →
  let m := run_records (slow_new n) rs in
  (∀ i a, ewma_us m !! i = Some a → slow_samples m i ≠ 0 → lo <= a <= hi) ∧
  (0 <= abs_floor_ms cfg < 2 ^ 50 → hi <= abs_floor_ms cfg * 1000 →
     ∀ v, v ∈ verdicts cfg m → v = false).
Proof.
  intros Hlo Hhi Hrs m.
  assert (between lo hi m) as [Hlen Hb].
  { apply between_run; [done | done | done |]. split; [unfold slow_new; simpl; by rewrite !length_replicate |].
    intros i a c [-> _]%lookup_replicate [-> _]%lookup_replicate. split; [done | by left]. }
  split.
  - intros i a Ha Hs. unfold slow_samples in Hs.
    destruct (ds_counts m !! i) as [c |] eqn:Hc; [| done].
    destruct (Hb _ _ _ Ha Hc) as [_ [[-> _] | ?]]; [done | done].
  - intros Hf Hfl v ([a c] & -> & Hin)%list_elem_of_fmap. simpl.
    apply list_elem_of_lookup in Hin as [i Hi]. unfold slow_rows in Hi.
    apply lookup_zip_Some in Hi as [Ha Hc].
    assert (a <= slow_threshold cfg m) as Hle.
    { unfold slow_threshold. rewrite (wrap_small 64 (abs_floor_ms cfg * 1000)) by lia.
      destruct (Hb _ _ _ Ha Hc) as [_ [[_ ->] | ?]]; lia. }
    destruct (Z.ltb_spec (slow_threshold cfg m) a); [lia | by rewrite andb_false_r].
Qed.

Definition demo_fleet : DiskSlowMonitor :=
  run_records (slow_new 2) [(0%nat, 900); (1%nat, 249000); (1%nat, 1000)].

Lemma quiet_fleet_not_slow_witness :
  ewma_us demo_fleet = [900; 218000] ∧ ∀ v, v ∈ verdicts DiskSlowConfig_default demo_fleet → v = false.
Proof.
  split; [reflexivity |].
  apply (quiet_fleet_not_slow DiskSlowConfig_default 2 900 249000 [(0%nat, 900); (1%nat, 249000); (1%nat, 1000)]);
    simpl; try lia. repeat constructor; simpl; lia.
Defined.
