(* ===== verification/Placement.v ===== *)
(** * Rendezvous placement (crates/ozd-app/src/placement.rs)

    The score of a shard for a key is [-weight / ln(h01(key, shard))]; the
    shards with the highest scores are the targets. The hash (xxh3) and the
    natural logarithm are arguments of the model. *)

From Stdlib Require Import ZArith Lia SpecFloat.
From stdpp Require Import base list sorting.
From S2P Require Import Prelude F64 Domain.
Open Scope Z_scope.

Abbreviation topology := (list (ShardId * Capacity * ShardStatus)%type).


Section Placement.
(** [xxh3_64_with_seed(key, seed)] and [f64::ln]. *)
Context (xxh3 : bytes → Z → Z) (ln : f64 → f64).

(** [fill_block]: shards at least this full are no targets. *)
Context (fill_block : f64).

Definition h01_of (h : Z) : f64 :=
  f64_div (f64_add (f64_of_Z h) (f64_of_Z 1)) (f64_add (f64_of_Z (2 ^ 64 - 1)) (f64_of_Z 2)).

Definition h01 (key : bytes) (shard : ShardId) : f64 := h01_of (xxh3 key (Z.of_nat shard + 1)).

Definition eligible (t : ShardId * Capacity * ShardStatus) : bool :=
  let '(_, cap, st) := t in
  if bool_decide (st = Faulted) then false
  else if 0 <? total_bytes cap then
    let used := f64_sub (f64_of_Z 1) (f64_div (f64_of_Z (free_bytes cap)) (f64_of_Z (total_bytes cap))) in
    negb (f64_le fill_block used)
  else true.

Definition weight (cap : Capacity) (st : ShardStatus) : f64 :=
  let w := if 0 <? free_bytes cap then f64_of_Z (free_bytes cap) else f64_of_Z 1 in
  if bool_decide (st = Suspect) then f64_mul w (f64_ratio 1 100) else w.

Definition score (key : bytes) (t : ShardId * Capacity * ShardStatus) : f64 * ShardId :=
  let '(id, cap, st) := t in
  (f64_div (f64_opp (weight cap st)) (ln (h01 key id)), id).

(** [b.0.partial_cmp(&a.0).unwrap_or(Equal)] *)
Definition by_score (a b : f64 * ShardId) : comparison := default Eq (f64_cmp b.1 a.1).

(** The eligible shards by falling score. *)
Definition ranking (key : bytes) (t : topology) : list (f64 * ShardId) :=
  sort_by by_score (map (score key) (filter eligible t)).

Definition select (key : bytes) (t : topology) (rf : nat) : list ShardId :=
  map snd (take rf (ranking key t)).

(** The scores of the eligible shards are comparable. *)
Definition scored (key : bytes) (t : topology) : Prop :=
  Forall (λ sc, is_num sc.1) (map (score key) (filter eligible t)).

Lemma by_score_orders : orders by_score (λ sc, is_num sc.1).
Proof.
  assert (∀ a b : f64 * ShardId, is_num a.1 → is_num b.1 →
    by_score a b = key_cmp (f64_key b.1) (f64_key a.1)) as H.
  { intros a b Ha Hb. unfold by_score. by rewrite f64_cmp_key. }
  split.
  - intros a b Ha Hb. rewrite !H by done. rewrite (key_cmp_antisym (f64_key b.1)).
    by destruct (key_cmp _ _).
  - intros a b c Ha Hb Hc. rewrite !H by done. intros H1 H2. by apply (key_cmp_trans _ (f64_key b.1)).
Qed.

Lemma f64_cmp_lt (a b : f64 * ShardId) :
  is_num a.1 → is_num b.1 → not_gt by_score a b → f64_lt a.1 b.1 = false.
Proof.
  intros Ha Hb. unfold not_gt, by_score, f64_lt, SFltb.
  change SFcompare with f64_cmp. rewrite !f64_cmp_key by done. simpl.
  rewrite (key_cmp_antisym (f64_key a.1)). by destruct (key_cmp _ _).
Qed.

Lemma ranked_ids key t : map snd (ranking key t)
  ≡ₚ map (λ e, e.1.1) (filter eligible t).
Proof.
  unfold ranking. rewrite sort_by_perm, map_map. apply eq_subrelation; [apply _ |]. apply map_ext. by intros [[? ?] ?].
Qed.

(** Highest random weight: [select] returns [min rf n] different shards,
    [n] being the number of eligible shards (not [Faulted] and less full than
    [fill_block]); each one is eligible, and no eligible shard that is left
    out scores higher than a selected one. *)
Theorem select_takes_the_best key t rf :
  NoDup (map (λ e, e.1.1) t) → scored key t →
  let sel := select key t rf in
  NoDup sel ∧ length sel = min rf (length (filter eligible t)) ∧
  (∀ id, id ∈ sel → ∃ e, e ∈ t ∧ eligible e ∧ e.1.1 = id) ∧
  (∀ e e', e ∈ t → e' ∈ t → eligible e' → e.1.1 ∈ sel → e'.1.1 ∉ sel →
     f64_lt (score key e).1 (score key e').1 = false).
Proof.
  intros Hnd Hsc sel. unfold sel, select. rewrite <-firstn_map.
  pose proof (ranked_ids key t) as Hp.
  set (L := ranking key t) in *.
  assert (NoDup (map snd L)) as HndL.
  { rewrite Hp. eapply sublist_NoDup; [exact Hnd |]. apply fmap_sublist, sublist_filter. }
  split_and!.
  - eapply sublist_NoDup; [exact HndL | apply sublist_take].
  - rewrite length_take, Hp, length_map. done.
  - intros id Hid. apply elem_of_take_in in Hid. rewrite Hp in Hid.
    apply list_elem_of_fmap in Hid as (e & -> & He). apply list_elem_of_filter in He as [? ?]. eauto.
  - intros e e' He He' Hel Hs Hns.
    assert (∀ e, e ∈ t → eligible e → score key e ∈ L) as HL.
    { intros e0 ? ?. unfold L, ranking. rewrite sort_by_perm. apply list_elem_of_fmap_2, list_elem_of_filter. done. }
    assert (StronglySorted (not_gt by_score) (take rf L ++ drop rf L)) as HS.
    { rewrite take_drop. unfold L, ranking. apply (sort_by_sorted by_score _ _ by_score_orders Hsc). }
    rewrite firstn_map in Hs, Hns.
    apply list_elem_of_fmap in Hs as (sc & Heq & Hin).
    assert (sc ∈ L) as HscL by by apply elem_of_take_in in Hin.
    unfold L, ranking in HscL. rewrite sort_by_perm in HscL.
    apply list_elem_of_fmap in HscL as (e0 & -> & He0). apply list_elem_of_filter in He0 as [Hel0 He0].
    assert (e0 = e) as ->.
    { apply (NoDup_map_inj (λ e, e.1.1) t); [done | done | done |]. rewrite Heq. by destruct e0 as [[? ?] ?]. }
    unfold scored in Hsc. rewrite Forall_forall in Hsc.
    apply f64_cmp_lt.
    1,2: apply Hsc, list_elem_of_fmap_2, list_elem_of_filter; done.
    eapply StronglySorted_app_1_elem_of; [exact HS | done |].
    specialize (HL e' He' Hel). rewrite <-(take_drop rf L) in HL. apply elem_of_app in HL as [HL |]; [| done].
    exfalso. apply Hns. apply list_elem_of_fmap. exists (score key e'). by destruct e' as [[? ?] ?].
Qed.

(** C33. Minimal disruption: adding one shard to the topology, at any position,
    either leaves the selection for a key as it was, or puts the new shard
    at one place of it, so that at most the last of the old targets is
    dropped; no block moves between old shards. *)
Theorem adding_a_shard_moves_nothing_else key t1 e t2 rf :
  scored key (t1 ++ e :: t2) →
  let old := select key (t1 ++ t2) rf in
  let new := select key (t1 ++ e :: t2) rf in
  new = old ∨ ∃ pre post, old = pre ++ post ∧ new = take rf (pre ++ e.1.1 :: post).
Proof.
  unfold scored, select, ranking. rewrite !filter_app, filter_cons.
  destruct (decide (eligible e)) as [He | He]; [| by left].
  rewrite !map_app. simpl. intros HF.
  destruct (sort_by_extra by_score (λ sc, is_num sc.1) (map (score key) (filter eligible t1)) (score key e)
    (map (score key) (filter eligible t2)) by_score_orders) as (a & b & Hold & Hnew).
  { apply Forall_app in HF as [_ HF]. by apply Forall_cons in HF as [? _]. }
  { apply Forall_app in HF as [? HF]. apply Forall_cons in HF as [_ ?]. by apply Forall_app. }
  right. rewrite Hold, Hnew. exists (map snd (take rf a)), (map snd (take (rf - length a) b)).
  rewrite <-!firstn_map. split.
  - by rewrite map_app, take_app, length_map.
  - rewrite map_app. simpl. assert ((score key e).2 = e.1.1) as -> by by destruct e as [[? ?] ?].
    rewrite !take_app, !length_take, !length_map, take_take, Nat.min_id.
    f_equal. destruct (decide (rf ≤ length a)%nat).
    + replace (rf - rf `min` length a)%nat with 0%nat by lia. by replace (rf - length a)%nat with 0%nat by lia.
    + replace (rf `min` length a)%nat with (length a) by lia.
      destruct (rf - length a)%nat eqn:Hn; [lia |]. simpl. f_equal. rewrite take_take. f_equal. lia.
Qed.
End Placement.

(** The largest hash gives [h01 = 1.0], not a number below one: the comment
    next to it says strictly inside (0,1). *)
Example h01_reaches_one : h01_of (2 ^ 64 - 1) = f64_of_Z 1.
Proof. vm_compute. reflexivity. Qed.

(** ** A concrete topology *)

(** A hash and a logarithm to run the definitions with. *)
Definition toy_xxh3 (key : bytes) (seed : Z) : Z :=
  (foldr (λ b n, n * 257 + Z.of_N (Byte.to_N b)) 0 key * 1000003 + seed * 11400714819323198485) mod 2 ^ 64.
Definition toy_ln (x : f64) : f64 := f64_sub x (f64_of_Z 1).

Definition disk (i : ShardId) (free : Z) (st : ShardStatus) : ShardId * Capacity * ShardStatus :=
  (i, {| total_bytes := 1000; free_bytes := free |}, st).
Definition disks : topology :=
  [disk 0 500 Online; disk 1 20 Online; disk 2 400 Suspect; disk 3 300 Online; disk 4 900 Faulted].
Definition some_key : bytes := [Byte.x61; Byte.x62].

Definition toy_select : bytes → topology → nat → list ShardId :=
  select toy_xxh3 toy_ln (f64_ratio 95 100).

Lemma select_takes_the_best_witness :
  toy_select some_key disks 2 = [0; 3]%nat ∧
  ∃ sel, sel = toy_select some_key disks 2 ∧ NoDup sel ∧ length sel = 2%nat.
Proof.
  split; [vm_compute; reflexivity |].
  destruct (select_takes_the_best toy_xxh3 toy_ln (f64_ratio 95 100) some_key disks 2) as (H1 & H2 & _).
  - vm_compute. apply (bool_decide_unpack (NoDup [0; 1; 2; 3; 4]%nat)). vm_compute. exact I.
  - unfold scored. vm_compute. repeat constructor; discriminate.
  - eexists; split; [reflexivity |]. split; [exact H1 |]. refine (eq_trans H2 _). vm_compute. reflexivity.
Defined.

Lemma adding_a_shard_moves_nothing_else_witness :
  let old := toy_select some_key disks 2 in
  let new := toy_select some_key (take 2 disks ++ disk 5 700 Online :: drop 2 disks) 2 in
  new ≠ old ∧ (new = old ∨ ∃ pre post, old = pre ++ post ∧ new = take 2 (pre ++ 5%nat :: post)).
Proof.
  split; [vm_compute; discriminate |].
  apply (adding_a_shard_moves_nothing_else toy_xxh3 toy_ln (f64_ratio 95 100) some_key
    (take 2 disks) (disk 5 700 Online) (drop 2 disks) 2).
  unfold scored. vm_compute. repeat constructor; discriminate.
Defined.
