(* ===== verification/Shard.v ===== *)
(** * The implementations of the ports

    [DiskEngine] implements [ShardEngine] and keeps its contract; rendezvous
    placement implements [PlacementPolicy] and keeps its contract.

    Second part: The operations of a disk that only maintenance calls. *)

From Stdlib Require Import ZArith Lia.
From stdpp Require Import base list gmap strings.
From S2P Require Import Prelude F64 Domain Table Piece Segment SegmentFacts Writer Engine EngineGc EngineInv EngineOps EngineGcFacts Instances EngineProps EngineMore Placement.
Open Scope Z_scope.

(** ** The engine *)

Section EngineShard.
Context {T : Type → Type} `{RT : !RedbTable T} `{EE : !EngineEnv}.

(** [statvfs] of the engine's file system. *)
Context (statvfs : option (Z * Z * Z)).

Definition disk_engine : ShardEngine (engine T) := {|
  se_put := engine_put;
  se_get := engine_get;
  se_has := engine_has;
  se_delete := engine_delete;
  se_list := engine_list;
  se_usage _ := usage statvfs;
  se_flush := engine_flush;
  se_scrub_step := scrub_step;
  se_stat := engine_stat;
  se_save_cursor := save_cursor;
  se_load_cursor := load_cursor;
  se_put_meta := engine_put_meta;
  se_stat_obj := engine_stat_obj;
  se_set_obj_logical := set_obj_logical;
|}.
End EngineShard.

Section EngineShardSpec.
Context {T : Type → Type} `{RT : !RedbTable T, RTS : !RedbTableSpec T} `{EE : !EngineEnv, EES : !EngineEnvSpec}.
Context (statvfs : option (Z * Z * Z)).
Implicit Types (e : engine T) (k : BlockKey) (d : bytes).

Lemma put_impl_contract e k d obj :
  ready e → key_fits k → data_fits d → obj_fits obj →
  wp (put_impl k d obj) (λ r e', inv e' ∧
    match r with
    | Ok _ => ∀ k', engine_get e' k' = if decide (k = k') then Ok d else engine_get e k'
    | Err _ => ∀ k', engine_get e' k' = engine_get e k'
    end) e.
Proof.
  intros HR Hk Hd Ho. pose proof (rd_inv _ HR) as HI.
  eapply wp_mono; [by apply wp_put_impl |]. intros [[] | m] e'; simpl.
  - intros (HI' & _ & _ & HU). split; [done |]. intros k'. by rewrite (updated_get e e' k (Some d)).
  - intros (HI' & HU & _). split; [done |]. intros k'. by apply unchanged_get.
Qed.

Lemma delete_contract e k :
  inv e →
  wp (engine_delete k) (λ r e', inv e' ∧ (ready e → ready e') ∧
    match r with
    | Ok _ => ∀ k', engine_get e' k' = if decide (k = k') then Err NotFound else engine_get e k'
    | Err _ => ∀ k', engine_get e' k' = engine_get e k'
    end) e.
Proof.
  intros HI. eapply wp_mono; [by apply wp_delete |]. intros r e' (HI' & Hs & Hc & Hr).
  split; [done |]. split.
  - intros [_ ? ? ? ? ?]. split; [done | by rewrite ?Hs, ?Hc ..].
  - destruct r as [[] |]; intros k'; [by rewrite (updated_get e e' k None) |].
    destruct Hr as [HU _]. by apply unchanged_get.
Qed.

Lemma get_shown e k : inv e → (∃ sz, shown (tb e) k sz) ↔ ∃ d, engine_get e k = Ok d.
Proof.
  intros HI. split.
  - intros (sz & [(v & Hv & _) | (d & Hd & _)]).
    + destruct (proj1 (inv_rows _ HI) _ _ Hv) as [d Hrow]. exists d. apply get_holds; [done |]. right. eauto.
    + exists d. apply get_holds; [done |]. by left.
  - intros (d & Hd). apply get_iff in Hd; [| done]. destruct Hd as [Hd | (v & Hv & _)].
    + exists (blen d). right. eauto.
    + exists (row_size v). left. eauto.
Qed.

#[program] Definition disk_engine_base : @DiskSpec (engine T) (disk_engine statvfs) := {|
  se_ok := inv;
  se_ready := ready;
  se_fits k d := key_fits k ∧ data_fits d;
|}.
Next Obligation. intros s. apply rd_inv. Qed.
Next Obligation. intros s k d HR [Hk Hd]. by apply put_impl_contract. Qed.
Next Obligation. intros s k d o HR [Hk Hd] Ho. by apply put_impl_contract. Qed.
Next Obligation. intros s k HI. by apply delete_contract. Qed.
Next Obligation. intros s k d HI Hd. simpl in *. rewrite (proj2 (stat_from_get s k HI)). by rewrite Hd. Qed.

#[program] Definition disk_engine_spec : @ShardEngineSpec (engine T) (disk_engine statvfs) := {|
  se_disk := disk_engine_base;
  se_shown e := shown (tb e);
|}.
Next Obligation. intros s k HI. destruct (get_cases s k HI) as [(d & _ & ?) | [_ ?]]; eauto. Qed.
Next Obligation. intros s k HI. apply (stat_from_get s k HI). Qed.
Next Obligation. intros s k HI. apply (stat_from_get s k HI). Qed.
Next Obligation.
  intros s prefix after limit HI Ha. apply engine_list_page; [exact (proj2 (inv_rows _ HI)) |].
  by destruct after.
Qed.
Next Obligation. intros s k HI. by apply get_shown. Qed.
End EngineShardSpec.

(** ** The engine of the read cache *)

#[global] Instance engine_cache {T : Type → Type} `{RT : !RedbTable T} `{EE : !EngineEnv} : CacheEngine (engine T) :=
  {| se_evict := evict_oldest_segment; se_data_bytes := data_bytes |}.

Section EngineCacheSpec.
Context {T : Type → Type} `{RT : !RedbTable T, RTS : !RedbTableSpec T} `{EE : !EngineEnv, EES : !EngineEnvSpec}.
Context (statvfs : option (Z * Z * Z)).
Implicit Types (e : engine T).

Lemma wp_ok_bind {St Er A C} (c : M St Er A) (k : A → M St Er C) (P : C → Prop) s :
  (∀ a s, wp (k a) (λ r _, ∀ b, r = Ok b → P b) s) → wp (mthen c k) (λ r _, ∀ b, r = Ok b → P b) s.
Proof. intros Hk. unfold wp, mthen in *. destruct (c s) as [[a | er] s']; [apply Hk | done]. Qed.

Lemma evict_size e : wp evict_oldest_segment (λ r _, ∀ freed n, r = Ok (freed, n) → 0 <= freed) e.
Proof.
  assert (wp (evict_oldest_segment : M (engine T) DomainError _) (λ r _, ∀ b, r = Ok b → 0 <= b.1) e) as H.
  { unfold evict_oldest_segment. do 2 wp_step.
    destruct (oldest (sealed_segments e)) as [[vid vsize] |] eqn:Ho; [| by apply wp_ret; intros b [= <-]].
    do 4 (apply wp_ok_bind; intros ? ?). apply wp_ret. intros b [= <-]. simpl.
    apply oldest_in in Ho. unfold sealed_segments in Ho. apply elem_of_concat in Ho as (l & Hl & (d & -> & _)%list_elem_of_fmap).
    apply list_elem_of_fmap in Hl as (x & [= _ ->] & _). apply blen_nonneg. }
  eapply wp_mono; [exact H |]. intros r s' Hr freed n Hb. exact (Hr _ Hb).
Qed.

Lemma engine_cache_spec :
  @CacheEngineSpec (engine T) (disk_engine statvfs) (disk_engine_base statvfs) engine_cache.
Proof.
  split.
  - intros e HI. eapply wp_mono; [apply (wp_evict e HI) |]. intros res e' [(gone & HI' & Hg) _]. split; [done |].
    intros k. simpl. destruct gone as [vid |]; [| left; by apply unchanged_get].
    destruct Hg as [_ Hg]. destruct (get_cases e' k HI') as [(d & Hd & Hr) | [_ Hr]]; [left | right; exact Hr].
    apply Hg in Hd as [_ Hd]. simpl in Hr. rewrite Hr. symmetry. by apply get_holds.
  - intros e. apply evict_size.
Qed.
End EngineCacheSpec.

(** ** The engine of the walks *)

Lemma name_bytes_inj n n' : String.list_byte_of_string n = String.list_byte_of_string n' → n = n'.
Proof.
  intros H. by rewrite <-(String.string_of_list_byte_of_string n), H, String.string_of_list_byte_of_string.
Qed.

Section EngineWalkSpec.
Context {T : Type → Type} `{RT : !RedbTable T, RTS : !RedbTableSpec T} `{EE : !EngineEnv, EES : !EngineEnvSpec}.
Context (statvfs : option (Z * Z * Z)).
Implicit Types (e : engine T).

(** The tables of bodies and the files are those of [e]. *)
Lemma same_bodies e e' :
  inv e → cfg e' = cfg e → e_seg e' = e_seg e → same_data (tb e) (tb e') →
  inv e' ∧ ∀ k, engine_get e' k = engine_get e k.
Proof.
  intros HI Hc Hs Hd. assert (inv e') as HI'.
  { destruct HI as [? ? Hrows]. split; [by rewrite Hs | by rewrite Hs, Hc |].
    unfold seg_files. rewrite Hs. by apply (same_data_rows _ (tb e)). }
  split; [done |]. intros k. apply get_same; [done | done |]. intros d. unfold holds, seg_files. rewrite Hs.
  symmetry. by apply same_data_holds.
Qed.

Lemma engine_walk_spec : @WalkEngineSpec (engine T) (disk_engine statvfs) (disk_engine_base statvfs).
Proof.
  split.
  - intros e HI. simpl. unfold engine_flush. wp_step. apply wp_on_seg, wp_flush; [intros s F | intros er s _ F];
      (pose proof (inv_frame e s HI F); split; [done |]; split; [| done]; intros k; apply get_same;
       [done | done | intros d; by apply holds_frame]).
  - intros e n pos HI. simpl. unfold save_cursor. apply wp_txn.
    + intros fs _. edestruct (same_bodies e) as [HI' HU]; [done | | | | split; [exact HI' | split; [exact HU |]]]; [done .. |].
      unfold load_cursor. simpl. split; [| intros n' Hn]; destruct pos as [k |].
      * by rewrite tget_tinsert_eq.
      * by rewrite tget_tremove_eq.
      * rewrite tget_tinsert_ne; [done |]. intros H. by apply Hn, name_bytes_inj.
      * rewrite tget_tremove_ne; [done |]. intros H. by apply Hn, name_bytes_inj.
    + intros m fs _. edestruct (same_bodies e) as [HI' HU]; [done | | | | split; [exact HI' | split; [exact HU | done]]]; done.
Qed.
End EngineWalkSpec.

(** ** The era bit *)

(** What a migration relies on: the length of the object that is noted next to
    a body changes no body. *)
Class EraEngineSpec (E : Type) `{DiskSpec E} : Prop := {
  se_set_obj_spec : ∀ s k o, se_ok s → 0 <= o < 2 ^ 64 →
    wp (se_set_obj_logical k o) (λ _ s', se_ok s' ∧ reads_same s s') s;
}.

Lemma decoded_fits v ent : decode_addr v = Some ent → entry_fits ent.
Proof.
  unfold decode_addr. destruct (negb _ && _ && _); [done |].
  pose proof (λ lo, le_at_bound lo 2 v) as H2. pose proof (λ lo, le_at_bound lo 4 v) as H4. pose proof (λ lo, le_at_bound lo 8 v) as H8.
  change (8 * Z.of_nat 2) with 16 in H2. change (8 * Z.of_nat 4) with 32 in H4. change (8 * Z.of_nat 8) with 64 in H8.
  destruct (28 <=? length v)%nat; intros [= <-]; unfold entry_fits;
    cbn [ae_addr ae_crc ae_logical_len ae_flags ae_obj_logical seg_id offset stored_len key_len].
  all: split_and!; try apply H2; try apply H4; try apply H8; try lia; destruct (length v =? 36)%nat; [apply H8 | done].
Qed.

Section EngineEraSpec.
Context {T : Type → Type} `{RT : !RedbTable T, RTS : !RedbTableSpec T} `{EE : !EngineEnv, EES : !EngineEnvSpec}.
Context (statvfs : option (Z * Z * Z)).
Implicit Types (e : engine T).

Definition with_obj (ent : AddrEntry) (o : Z) : AddrEntry :=
  {| ae_addr := ae_addr ent; ae_crc := ae_crc ent; ae_logical_len := ae_logical_len ent;
     ae_flags := ae_flags ent; ae_obj_logical := Some o |}.

(** The row with another length of the object opens to the same bodies. *)
Lemma row_with_obj fs k v ent o d : decode_addr v = Some ent → 0 <= o < 2 ^ 64 →
  row_ok fs k v d ↔ row_ok fs k (encode_addr (with_obj ent o)) d.
Proof.
  intros Hv Ho. assert (decode_addr (encode_addr (with_obj ent o)) = Some (with_obj ent o)) as Hd.
  { apply decode_encode_addr. destruct (decoded_fits v ent Hv) as (? & ? & ? & ? & ? & ? & ? & _). unfold entry_fits. cbn. tauto. }
  split; intros (ent' & dir & rec & Hdec & Hr & H).
  - rewrite Hv in Hdec. injection Hdec as <-. exists (with_obj ent o), dir, rec. split; [done |]. split; [done |]. exact H.
  - rewrite Hd in Hdec. injection Hdec as <-. exists ent, dir, rec. split; [done |]. split; [done |]. exact H.
Qed.

(** Only the row of [k] changes, to one that opens to the same bodies. *)
Lemma same_rows e e' k v v' :
  inv e → cfg e' = cfg e → e_seg e' = e_seg e → t_inline (tb e') = t_inline (tb e) →
  t_addr (tb e') = tinsert k v' (t_addr (tb e)) → tget (t_addr (tb e)) k = Some v →
  (∀ d, row_ok (seg_files e) k v d ↔ row_ok (seg_files e) k v' d) →
  inv e' ∧ ∀ k', engine_get e' k' = engine_get e k'.
Proof.
  intros HI Hc Hs Hi Ha Hv Hrow. assert (seg_files e' = seg_files e) as Hf by (unfold seg_files; by rewrite Hs).
  assert (inv e') as HI'.
  { destruct HI as [? ? [Hr Hd]]. split; [by rewrite Hs | by rewrite Hs, Hc |]. rewrite Hf. split; rewrite ?Ha, ?Hi.
    - intros k' w. rewrite tget_tinsert. case_decide as Hk; [subst k'; intros [= <-] | apply Hr].
      destruct (Hr k v Hv) as [d Hd']. exists d. by apply Hrow.
    - intros k'. rewrite tget_tinsert. case_decide as Hk; [subst k'; right; by destruct (Hd k) as [H | H]; [congruence |] | apply Hd]. }
  split; [done |]. intros k'. symmetry. apply get_same; [done | done |]. intros d. unfold holds, holds_t. rewrite Hf, Ha, Hi.
  rewrite tget_tinsert. case_decide as Hk; [subst k' | done]. rewrite Hv. split; (intros [? | (w & [= <-] & Hw)]; [by left | right]).
  - exists v'. split; [done | by apply Hrow].
  - exists v. split; [done | by apply Hrow].
Qed.

Lemma engine_era_spec : @EraEngineSpec (engine T) (disk_engine statvfs) (disk_engine_base statvfs).
Proof.
  split. intros e k o HI Ho. simpl. unfold set_obj_logical.
  assert (∀ fs, inv (set_db_faults fs e) ∧ ∀ k, engine_get (set_db_faults fs e) k = engine_get e k) as Hsame
    by (intros fs; by apply (same_bodies e)).
  apply wp_txn; [| intros m fs _; apply Hsame]. intros fs _.
  destruct (tget (t_addr (tb e)) k) as [v |] eqn:Hv; simpl; [| by apply (same_bodies e)].
  destruct (decode_addr v) as [ent |] eqn:Hd; simpl; [| by apply (same_bodies e)].
  case_bool_decide; simpl; [| by apply (same_bodies e)].
  apply (same_rows e _ k v (encode_addr (with_obj ent o))); try done. intros d. by apply row_with_obj.
Qed.
End EngineEraSpec.

(** ** Placement *)

Section Rendezvous.
Context (xxh3 : bytes → Z → Z) (ln : f64 → f64) (fill_block : f64).

Definition rendezvous : PlacementPolicy := {| pp_select := select xxh3 ln fill_block |}.

Definition rendezvous_spec : @PlacementSpec rendezvous.
Proof.
  apply (Build_PlacementSpec rendezvous (eligible fill_block)); simpl; unfold select.
  - intros k t n Hnd. eapply sublist_NoDup; [| apply fmap_sublist, sublist_take].
    change (snd <$> ranking xxh3 ln fill_block k t) with (map snd (ranking xxh3 ln fill_block k t)).
    rewrite ranked_ids. eapply sublist_NoDup; [exact Hnd |]. apply fmap_sublist, sublist_filter.
  - intros k t n id Hid. rewrite <-firstn_map in Hid. apply elem_of_take_in in Hid. rewrite ranked_ids in Hid.
    apply list_elem_of_fmap in Hid as ([[id' cap] st] & -> & He). apply list_elem_of_filter in He as [Hel He].
    exists cap, st. split; [done |]. intros ->. done.
  - intros k t n. rewrite length_map, length_take. f_equal.
    rewrite <-(length_map snd (ranking _ _ _ _ _)), ranked_ids, length_map. reflexivity.
  - intros k t n m Hle. rewrite <-!firstn_map, take_take. f_equal. lia.
Defined.
End Rendezvous.

(** * The operations of a disk that only maintenance calls

    The rest of [trait ShardEngine] (crates/ozd-domain/src/lib.rs): garbage
    collection, the structure check and the ballast, which the admin server
    and the daemon call past the pool. The disk engine implements them and
    keeps the contract: no body changes. *)

Class MaintEngine (E : Type) := {
  se_gc : f64 → M E DomainError GcReport;
  se_verify_structure : E → DomainResult StructureReport;
  se_ballast_released : E → bool;
  se_release_ballast : M E DomainError bool;
}.

Definition StructureReport_default : StructureReport :=
  {| segments_referenced := 0; segments_missing := []; keys_at_risk := 0; orphan_segments := [] |}.

(** The default methods of the trait: an engine that needs no maintenance. *)
Definition maint_default (E : Type) : MaintEngine E := {|
  se_gc _ := mret GcReport_default;
  se_verify_structure _ := Ok StructureReport_default;
  se_ballast_released _ := false;
  se_release_ballast := mret false;
|}.

(** Whatever the ratio and whether they fail, a collection and a release of
    the ballast change no body. [se_gc_room]: the segments that a collection
    may open have room for what it moves. *)
Class MaintEngineSpec (E : Type) `{DiskSpec E, !MaintEngine E} := {
  se_gc_room : E → Prop;
  se_gc_spec : ∀ s ratio, se_ready s → se_gc_room s → wp (se_gc ratio) (λ _ s', se_ok s' ∧ reads_same s s') s;
  se_release_spec : ∀ s, se_ok s → wp se_release_ballast (λ _ s', se_ok s' ∧ reads_same s s') s;
}.

(** ** The disk engine *)

#[global] Instance disk_maint {T : Type → Type} `{RT : !RedbTable T} `{EE : !EngineEnv} : MaintEngine (engine T) := {|
  se_gc := gc_once;
  se_verify_structure := verify_structure;
  se_ballast_released := ballast_released;
  se_release_ballast := release_ballast;
|}.

Section EngineMaintSpec.
Context {T : Type → Type} `{RT : !RedbTable T, RTS : !RedbTableSpec T} `{EE : !EngineEnv, EES : !EngineEnvSpec}.
Context (statvfs : option (Z * Z * Z)).
Implicit Types (e : engine T).

Lemma gc_contract e ratio : ready e → gc_room e →
  wp (gc_once ratio) (λ _ e', inv e' ∧ ∀ k, engine_get e' k = engine_get e k) e.
Proof.
  intros HR HRm. pose proof (rd_inv _ HR) as HI.
  eapply wp_mono with (P := λ _ e', kept e e').
  - apply wp_gc_once; [done | done | |]; [intros rep e1 [K _ _ _ _] _ | intros er e1 K _]; exact K.
  - intros r e' [HI' HU]. split; [done |]. intros k. by apply unchanged_get.
Qed.

Lemma release_contract e : inv e → wp release_ballast (λ _ e', inv e' ∧ ∀ k, engine_get e' k = engine_get e k) e.
Proof.
  intros HI. unfold release_ballast. apply wp_map_err. unfold wp, release_ballast_file.
  case_match; [by split |]. destruct (next_fault _) as [f w] eqn:Hf.
  set (s := {| sg_world := w; sg_wr := sg_wr (e_seg e) |}).
  assert (frame (e_seg e) s) as HF.
  { unfold next_fault in Hf. unfold frame, files, faults.
    destruct (w_faults _) as [| f' fs] eqn:Hfs; injection Hf as <- <-; simpl; rewrite ?Hfs; done. }
  assert (∀ e', cfg e' = cfg e → tb e' = tb e → e_seg e' = s → inv e' ∧ ∀ k, engine_get e' k = engine_get e k) as Hsame.
  { intros e' Hc Ht Hs. pose proof (inv_frame e s HI HF) as HI1.
    assert (inv e') as HI' by (destruct HI1; split; unfold seg_files in *; rewrite ?Hs, ?Ht, ?Hc; done).
    split; [done |]. intros k. apply get_same; [done | done |]. intros d. rewrite <-(holds_frame e s k d HF).
    unfold holds, seg_files. by rewrite Hs, Ht. }
  destruct f; [by apply Hsame |]. simpl. destruct (ballast_file e); by apply Hsame.
Qed.

Lemma engine_maint_spec : @MaintEngineSpec (engine T) (disk_engine statvfs) (disk_engine_base statvfs) disk_maint.
Proof.
  apply (Build_MaintEngineSpec _ _ (disk_engine_base statvfs) disk_maint gc_room).
  - intros e ratio HR HRm. by apply gc_contract.
  - intros e HI. by apply release_contract.
Defined.
End EngineMaintSpec.

(** ** Scrub *)

(** A step of the scrub calls no key corrupt that the disk can read, and none
    twice. *)
Class ScrubEngineSpec (E : Type) `{DiskSpec E} : Prop := {
  se_scrub_spec : ∀ s after limit st, se_ok s → se_scrub_step s after limit = Ok st →
    NoDup (ss_corrupt st) ∧ ∀ k, k ∈ ss_corrupt st → ∀ d, se_get s k ≠ Ok d;
}.

Section EngineScrubSpec.
Context {T : Type → Type} `{RT : !RedbTable T, RTS : !RedbTableSpec T} `{EE : !EngineEnv, EES : !EngineEnvSpec}.
Context (statvfs : option (Z * Z * Z)).
Implicit Types (e : engine T).

Lemma scrub_keys_clean e keys st : inv e →
  ss_corrupt (foldl (scrub_key e) st keys) = ss_corrupt st ∧ ss_done (foldl (scrub_key e) st keys) = ss_done st.
Proof.
  intros HI. revert st. induction keys as [| k keys IH]; intros st; [done |]. cbn [foldl].
  destruct (IH (scrub_key e st k)) as [-> ->]. unfold scrub_key. destruct (get_cases e k HI) as [(d & _ & ->) | [_ ->]]; done.
Qed.

(** A step of the disk engine looks at one page of its keys, and finds none of
    them corrupt. *)
Lemma engine_scrub_page e after limit : inv e →
  ∃ st page, se_scrub_step (ShardEngine := disk_engine statvfs) e after limit = Ok st ∧
    list_page (shown (tb e)) [] after limit page ∧
    ss_last_key st = last page.*1 ∧ ss_done st = (length page <? limit)%nat ∧ ss_corrupt st = [].
Proof.
  intros HI. simpl. unfold scrub_step.
  destruct (engine_list_page e [] after limit (proj2 (inv_rows _ HI))) as (page & -> & Hpage).
  { apply prefix_bytes_le, prefix_nil. }
  destruct (scrub_keys_clean e (map fst page) {| ss_checked := 0; ss_bytes := 0; ss_corrupt := []; ss_last_key := None;
    ss_done := (length (map fst page) <? limit)%nat |} HI) as [Hc Hd].
  eexists _, page. split; [reflexivity |]. cbn [ss_corrupt ss_last_key ss_done]. rewrite Hc, Hd.
  cbn [ss_corrupt ss_done]. rewrite length_map. by split_and!.
Qed.

Lemma engine_scrub_spec : @ScrubEngineSpec (engine T) (disk_engine statvfs) (disk_engine_base statvfs).
Proof.
  split. intros e after limit st HI Hst. destruct (engine_scrub_page e after limit HI) as (st' & page & Hst' & _ & _ & _ & Hc).
  rewrite Hst in Hst'. injection Hst' as <-. rewrite Hc. split; [constructor |]. by intros k ?%not_elem_of_nil.
Qed.
End EngineScrubSpec.

(** ** A disk that refuses what it cannot do *)

(** Collection has room in any state the disk can come to. *)
Class SturdyMaint (E : Type) `{MaintEngineSpec E} : Prop := {
  sturdy_room : ∀ s, se_ok s → se_gc_room s;
}.

(** A disk behind a check: a write or a collection that it is not ready for is
    refused. *)
Record guarded (E : Type) := Guarded { unguarded : E }.
Arguments Guarded {E} _.
Arguments unguarded {E} _.

Section Guard.
Context {E : Type} `{SE : !ShardEngine E, DS : !DiskSpec E} `{ME : !MaintEngine E, MES : !MaintEngineSpec E}.
Context (can_write can_collect : E → bool) (takes : BlockKey → bytes → bool).

Definition in_guard {X A} (c : M E X A) : M (guarded E) X A := λ g, let r := c (unguarded g) in (r.1, Guarded r.2).
Definition guard {A} (b : E → bool) (c : M E DomainError A) : M (guarded E) DomainError A := λ g,
  if b (unguarded g) then in_guard c g else (Err (DiskFull "refused"), g).

Definition guarded_shard : ShardEngine (guarded E) := {|
  se_put k d := guard (λ s, can_write s && takes k d) (se_put k d);
  se_get g := se_get (unguarded g);
  se_has g := se_has (unguarded g);
  se_delete k := in_guard (se_delete k);
  se_list g := se_list (unguarded g);
  se_usage g := se_usage (unguarded g);
  se_flush := in_guard se_flush;
  se_scrub_step g := se_scrub_step (unguarded g);
  se_stat g := se_stat (unguarded g);
  se_save_cursor n pos := in_guard (se_save_cursor n pos);
  se_load_cursor g := se_load_cursor (unguarded g);
  se_put_meta k d o := guard (λ s, can_write s && takes k d) (se_put_meta k d o);
  se_stat_obj g := se_stat_obj (unguarded g);
  se_set_obj_logical k o := in_guard (se_set_obj_logical k o);
|}.
Definition guarded_maint : MaintEngine (guarded E) := {|
  se_gc ratio := guard (λ s, can_write s && can_collect s) (se_gc ratio);
  se_verify_structure g := se_verify_structure (unguarded g);
  se_ballast_released g := se_ballast_released (unguarded g);
  se_release_ballast := in_guard se_release_ballast;
|}.

Lemma wp_guard {A} b (c : M E DomainError A) (Q : DomainResult A → E → Prop) g :
  (b (unguarded g) = true → wp c Q (unguarded g)) → Q (Err (DiskFull "refused")) (unguarded g) →
  wp (guard b c) (λ r g', Q r (unguarded g')) g.
Proof. intros Hc Hq. unfold guard, wp. destruct (b (unguarded g)); [by apply Hc | exact Hq]. Qed.

Context (writes : ∀ s, se_ok s → can_write s = true → se_ready s)
  (collects : ∀ s, can_collect s = true → se_gc_room s) (fits : ∀ k d, takes k d = true → se_fits k d).

Definition put_post (s : E) (k : BlockKey) (d : bytes) (r : DomainResult unit) (s' : E) : Prop :=
  se_ok s' ∧ match r with Ok _ => reads_update s k (Ok d) s' | Err _ => reads_same s s' end.

#[program] Definition guarded_spec : @DiskSpec (guarded E) guarded_shard := {|
  se_ok g := se_ok (unguarded g);
  se_ready g := se_ok (unguarded g);
  se_fits _ _ := True;
|}.
Next Obligation. done. Qed.
Next Obligation.
  intros g k d Hok _. apply (wp_guard _ (se_put k d) (put_post (unguarded g) k d)); [| by split].
  intros [Hw Ht]%andb_prop. apply se_put_spec; auto.
Qed.
Next Obligation.
  intros g k d o Hok _ Ho. apply (wp_guard _ (se_put_meta k d (Some o)) (put_post (unguarded g) k d)); [| by split].
  intros [Hw Ht]%andb_prop. apply se_put_meta_spec; auto.
Qed.
Next Obligation.
  intros g k Hok. destruct (se_delete_spec (unguarded g) k Hok) as (Hok' & _ & Hr). by split_and!.
Qed.
Next Obligation. intros g k d Hok Hd. exact (se_held_spec (unguarded g) k d Hok Hd). Qed.

Lemma guarded_sturdy : @SturdyDisk (guarded E) guarded_shard guarded_spec.
Proof. by split. Qed.
Lemma guarded_walk : WalkEngineSpec E → @WalkEngineSpec (guarded E) guarded_shard guarded_spec.
Proof.
  intros WES. split.
  - intros g Hok. exact (se_flush_spec (unguarded g) Hok).
  - intros g n pos Hok. exact (se_save_cursor_spec (unguarded g) n pos Hok).
Qed.
Lemma guarded_era : EraEngineSpec E → @EraEngineSpec (guarded E) guarded_shard guarded_spec.
Proof.
  intros XES. split. intros g k o Hok Ho. exact (se_set_obj_spec (unguarded g) k o Hok Ho).
Qed.
Lemma guarded_scrub : ScrubEngineSpec E → @ScrubEngineSpec (guarded E) guarded_shard guarded_spec.
Proof. intros SCS. split. intros g after limit st Hok Hst. exact (se_scrub_spec (unguarded g) after limit st Hok Hst). Qed.

Definition guarded_maint_spec : @MaintEngineSpec (guarded E) guarded_shard guarded_spec guarded_maint.
Proof.
  apply (Build_MaintEngineSpec _ _ guarded_spec guarded_maint (λ _, True)).
  - intros g ratio Hok _. apply (wp_guard _ (se_gc ratio) (λ _ s', se_ok s' ∧ reads_same (unguarded g) s')); [| by split].
    intros [Hw Hc]%andb_prop. apply se_gc_spec; auto.
  - intros g Hok. exact (se_release_spec (unguarded g) Hok).
Defined.
Lemma guarded_sturdy_maint : @SturdyMaint (guarded E) guarded_shard guarded_spec guarded_maint guarded_maint_spec.
Proof. by split. Qed.
End Guard.

(** The disk engine's checks: the writer is in step with its file, and there
    are segment ids left. *)
Section EngineGuard.
Context {T : Type → Type} `{RT : !RedbTable T, RTS : !RedbTableSpec T} `{EE : !EngineEnv, EES : !EngineEnvSpec}.
Implicit Types (e : engine T).

Definition no_faults e : bool := match faults (e_seg e) with [] => true | _ => false end.
Definition can_write e : bool :=
  let w := sg_wr (e_seg e) in
  match files (e_seg e) !! file w with
  | Some b => (blen b =? len w) && ((scan crc32 (wr_seg_id w) 0 b).2 =? blen b)
  | None => false
  end && (negb (failover w) || no_faults e) && (wr_seg_id w + 1 <? 2 ^ 32) && (max_size w <=? 2 ^ 64) &&
  ((ballast_bytes (cfg e) =? 0) || no_faults e).
Definition can_collect e : bool :=
  bool_decide (map_Forall (λ (p : SegDir * Z) b,
    wr_seg_id (sg_wr (e_seg e)) + Z.of_nat (length (scan crc32 p.2 0 b).1) < 2 ^ 32) (seg_files e)).
Definition takes (k : BlockKey) (d : bytes) : bool := bool_decide (key_fits k) && bool_decide (data_fits d).

Lemma can_write_ready e : inv e → can_write e = true → ready e.
Proof.
  intros HI H. unfold can_write in H. cbv zeta in H.
  apply andb_prop in H as [[[[Hs Hc]%andb_prop Hn%Z.ltb_lt]%andb_prop Hm%Z.leb_le]%andb_prop Hb].
  assert (no_faults e = true → faults (e_seg e) = []) as Hf by (unfold no_faults; by destruct (faults (e_seg e))).
  split; [done | | | done | done |].
  - split; [apply HI |]. destruct (files (e_seg e) !! _) as [b |] eqn:Hfile; [| done].
    apply andb_prop in Hs as [Hl%Z.eqb_eq Hsc%Z.eqb_eq]. by exists b.
  - unfold calm. apply orb_prop in Hc as [Hc%negb_true_iff | Hc]; auto.
  - apply orb_prop in Hb as [Hb%Z.eqb_eq | Hb]; auto.
Qed.
Lemma can_collect_room e : can_collect e = true → gc_room e.
Proof. intros H%bool_decide_eq_true dir id b Hb. apply (H (dir, id) b Hb). Qed.
Lemma takes_fits k d : takes k d = true → key_fits k ∧ data_fits d.
Proof. intros [Hk%bool_decide_eq_true Hd%bool_decide_eq_true]%andb_prop. done. Qed.
End EngineGuard.
