(* ===== verification/Erasure.v ===== *)
(** * Erasure coding of bodies (crates/ozd-app/src/erasure.rs)

    A body is cut into [k] stripes of equal length, [m] parity stripes are
    computed, and each stripe becomes a piece with its own header (Piece.v).
    The Reed-Solomon code itself is a crate: a parameter, with its documented
    behaviour as [rs_law]. *)

From Stdlib Require Import ZArith Lia Strings.Byte.
From stdpp Require Import base list strings pretty.
From S2P Require Import Prelude Domain Piece.

(** ** The Reed-Solomon crate *)

(** [ReedSolomon::new], [encode] and [reconstruct]; an error is its
    [Display]. *)
Class ReedSolomon := {
  rs_new : nat → nat → result string unit;
  rs_encode : nat → nat → list bytes → result string (list bytes);
  rs_reconstruct : nat → nat → list (option bytes) → result string (list (option bytes));
}.

(** What is left of [full] where some of its elements are erased. *)
Definition erased {A} (slots : list (option A)) (full : list A) : Prop :=
  Forall2 (λ s p, s = None ∨ s = Some p) slots full.

(** [slots.iter().filter(|s| s.is_some()).count()] *)
Definition have {A} (slots : list (option A)) : nat := length (omap id slots).

(** Encoding writes the parity into the last [m] slots and leaves the data as
    it is; any [k] of the [k + m] stripes give the others back. *)
Record rs_law `{ReedSolomon} (k m : nat) : Prop := {
  law_new : rs_new k m = Ok ();
  law_code : ∀ s data, (0 < s)%nat → length data = k → Forall (λ d, length d = s) data →
    ∃ parity, length parity = m ∧ Forall (λ d, length d = s) parity ∧
      (∀ filler, length filler = m → Forall (λ d, length d = s) filler →
         rs_encode k m (data ++ filler) = Ok (data ++ parity)) ∧
      (∀ slots, erased slots (data ++ parity) → (k ≤ have slots)%nat →
         rs_reconstruct k m slots = Ok (map Some (data ++ parity)));
}.

(** ** Configuration *)

Record EcConfig := {
  ec_data : nat;
  ec_parity : nat;
  ec_min_size : Z;
  ec_write_quorum : nat;
}.
Definition EcConfig_default : EcConfig :=
  {| ec_data := 4; ec_parity := 2; ec_min_size := 64 * 1024; ec_write_quorum := 5 |}.
Definition ec_total (c : EcConfig) : nat := ec_data c + ec_parity c.

Section Erasure.
Context `{ReedSolomon}.

Definition rs (k m : nat) : DomainResult () :=
  match rs_new k m with
  | Ok a => Ok a
  | Err e => Err (Io ("reed-solomon init (" +:+ pretty k +:+ "+" +:+ pretty m +:+ "): " +:+ e))
  end.

(** ** Encoding *)

(** [s.resize(n, 0)] *)
Definition resize (n : nat) (s : bytes) : bytes := take n s ++ replicate (n - length s) x00.

(** [data.len().div_ceil(k).max(1)] *)
Definition stripe_len (len k : nat) : nat := Nat.max (Z.to_nat (div_ceil (Z.of_nat len) (Z.of_nat k))) 1.

Definition data_stripe (data : bytes) (stripe i : nat) : bytes :=
  let start := Nat.min (i * stripe) (length data) in
  let stop := Nat.min ((i + 1) * stripe) (length data) in
  resize stripe (slice start (stop - start) data).

Definition make_piece (k m : nat) (logical_len : Z) (i : nat) (s : bytes) : bytes :=
  encode_piece_header {| ph_k := Z.of_nat k; ph_m := Z.of_nat m; ph_piece_idx := Z.of_nat i;
                         ph_logical_len := logical_len |} ++ s.

(** [k] is a positive number: the code divides by it. *)
Definition ec_encode (data : bytes) (cfg : EcConfig) : DomainResult (list bytes) :=
  let k := ec_data cfg in
  let m := ec_parity cfg in
  let stripe := stripe_len (length data) k in
  let shards := map (data_stripe data stripe) (seq 0 k) ++ replicate m (replicate stripe x00) in
  match rs k m with
  | Err e => Err e
  | Ok _ =>
      match rs_encode k m shards with
      | Err e => Err (Io ("rs encode: " +:+ e))
      | Ok shards => Ok (imap (make_piece k m (blen data)) shards)
      end
  end.

(** ** Decoding *)

(** The loop over the slots: the last header's length and the stripes. *)
Fixpoint ec_slots (i : nat) (slots : list (option bytes)) (logical : option Z) :
    DomainResult (option Z * list (option bytes)) :=
  match slots with
  | [] => Ok (logical, [])
  | Some p :: slots =>
      match parse_piece_header p with
      | None => Err (IntegrityViolation ("piece " +:+ pretty i +:+ ": bad EC header"))
      | Some h =>
          if negb (Z.to_nat (ph_piece_idx h) =? i)%nat then
            Err (IntegrityViolation ("piece slot " +:+ pretty i +:+ " holds idx " +:+ pretty (ph_piece_idx h)))
          else
            match ec_slots (S i) slots (Some (ph_logical_len h)) with
            | Ok (l, ss) => Ok (l, Some (drop EC_HEADER_LEN p) :: ss)
            | Err e => Err e
            end
      end
  | None :: slots =>
      match ec_slots (S i) slots logical with
      | Ok (l, ss) => Ok (l, None :: ss)
      | Err e => Err e
      end
  end.

(** Concatenate the data stripes and cut the padding off. *)
Definition join_data (k : nat) (logical : Z) (stripes : list (option bytes)) : bytes :=
  take (Z.to_nat logical) (concat (omap id (take k stripes))).

Definition ec_decode (slots : list (option bytes)) (k m : nat) : DomainResult bytes :=
  if negb (length slots =? k + m)%nat then
    Err (Io ("ec decode: want " +:+ pretty (k + m)%nat +:+ " slots, got " +:+ pretty (length slots)))
  else
    match ec_slots 0 slots None with
    | Err e => Err e
    | Ok (None, _) => Err NotFound
    | Ok (Some logical, stripes) =>
        if (have stripes <? k)%nat then
          Err (Io ("ec decode: only " +:+ pretty (have stripes) +:+ " of " +:+ pretty k +:+ " pieces"))
        else if forallb (λ s, bool_decide (is_Some s)) (take k stripes) then Ok (join_data k logical stripes)
        else
          match rs k m with
          | Err e => Err e
          | Ok _ =>
              match rs_reconstruct k m stripes with
              | Err e => Err (Io ("rs reconstruct: " +:+ e))
              | Ok stripes => Ok (join_data k logical stripes)
              end
          end
    end.

Definition ec_repair_pieces (slots : list (option bytes)) (k m : nat) : DomainResult (list bytes) :=
  match ec_decode slots k m with
  | Err e => Err e
  | Ok body => ec_encode body {| ec_data := k; ec_parity := m;
      ec_min_size := ec_min_size EcConfig_default; ec_write_quorum := ec_write_quorum EcConfig_default |}
  end.

(** ** The stripes of a body *)

Lemma length_resize n s : length (resize n s) = n.
Proof. unfold resize. rewrite length_app, length_take, length_replicate. lia. Qed.

Lemma data_stripe_eq data s i : data_stripe data s i = resize s (take s (drop (i * s) data)).
Proof.
  unfold data_stripe, slice. destruct (decide (i * s ≤ length data)%nat) as [Hle | Hgt].
  - rewrite (Nat.min_l (i * s)) by done. f_equal. destruct (decide ((i + 1) * s ≤ length data)%nat).
    + rewrite Nat.min_l by done. f_equal. lia.
    + rewrite Nat.min_r by lia. rewrite !take_ge; [done | |]; rewrite length_drop; lia.
  - rewrite (Nat.min_r (i * s)), Nat.min_r by lia. rewrite !drop_ge by lia. by rewrite !take_nil.
Qed.

Lemma concat_stripes s k data :
  (length data ≤ k * s)%nat →
  concat (map (λ i, resize s (take s (drop (i * s) data))) (seq 0 k)) =
  data ++ replicate (k * s - length data) x00.
Proof.
  revert data. induction k as [| k IH]; intros data Hlen.
  - destruct data; [done | simpl in Hlen; lia].
  - simpl. rewrite <-seq_shift, map_map, drop_0.
    rewrite (map_ext _ (λ i, resize s (take s (drop (i * s) (drop s data))))).
    2: { intros i. rewrite drop_drop. repeat f_equal. }
    rewrite IH by (rewrite length_drop; lia). unfold resize.
    rewrite length_drop, length_take, take_take, Nat.min_id.
    destruct (decide (length data ≤ s)%nat).
    + rewrite take_ge, (drop_ge data) by lia. simpl. rewrite <-app_assoc. f_equal.
      rewrite <-replicate_add. f_equal. lia.
    + replace (s - s `min` length data)%nat with 0%nat by lia. simpl.
      rewrite app_nil_r, app_assoc, take_drop. f_equal. f_equal. lia.
Qed.

Lemma stripe_len_pos len k : (0 < stripe_len len k)%nat.
Proof. unfold stripe_len. lia. Qed.

Lemma stripe_len_covers len k : (0 < k)%nat → (len ≤ k * stripe_len len k)%nat.
Proof.
  intros Hk. unfold stripe_len, div_ceil.
  pose proof (Z.div_mod (Z.of_nat len + Z.of_nat k - 1) (Z.of_nat k) ltac:(lia)).
  pose proof (Z.mod_pos_bound (Z.of_nat len + Z.of_nat k - 1) (Z.of_nat k) ltac:(lia)).
  pose proof (Z.div_pos (Z.of_nat len + Z.of_nat k - 1) (Z.of_nat k) ltac:(lia) ltac:(lia)). nia.
Qed.

(** The stripe of a body that is not empty is what the piece parser expects. *)
Lemma stripe_len_exact len k : (0 < len)%nat → (0 < k)%nat →
  Z.of_nat (stripe_len len k) = div_ceil (Z.of_nat len) (Z.of_nat k).
Proof.
  intros Hl Hk. unfold stripe_len, div_ceil.
  assert (1 <= (Z.of_nat len + Z.of_nat k - 1) / Z.of_nat k)%Z by (apply Z.div_le_lower_bound; lia). lia.
Qed.

Lemma join_complete data s k parity :
  (length data ≤ k * s)%nat →
  join_data k (blen data) (map Some (map (data_stripe data s) (seq 0 k) ++ parity)) = data.
Proof.
  intros Hl. unfold join_data.
  assert (∀ l : list bytes, omap id (map Some l) = l) as Hid.
  { intros l. induction l; simpl; by f_equal. }
  rewrite map_app, take_app_length' by (by rewrite !length_map, length_seq). rewrite Hid.
  rewrite (map_ext _ _ (data_stripe_eq data s)), concat_stripes by done.
  unfold blen. rewrite Nat2Z.id. by rewrite take_app_length.
Qed.

(** ** Encoding and decoding *)

(** The shapes the piece header can express: [k + m] has to fit a byte, and a
    body must not be empty. *)
Record ec_fits (k m : nat) (body : bytes) : Prop := {
  fit_k : (0 < k)%nat;
  fit_m : (0 < m)%nat;
  fit_km : (k + m ≤ 255)%nat;
  fit_len : 0 < blen body < 2 ^ 64;
}.

Lemma parse_make_piece k m body i s :
  ec_fits k m body → (i < k + m)%nat → length s = stripe_len (length body) k →
  parse_piece_header (make_piece k m (blen body) i s) =
    Some {| ph_k := Z.of_nat k; ph_m := Z.of_nat m; ph_piece_idx := Z.of_nat i; ph_logical_len := blen body |}.
Proof.
  intros [Hk Hm Hkm Hl] Hi Hs. apply parse_encode; unfold header_fits, piece_ok; simpl.
  - lia.
  - rewrite wrap_small by lia. unfold blen in *. rewrite Hs. split_and!; [lia .. |].
    apply stripe_len_exact; lia.
Qed.

Lemma drop_make_piece k m l i s : drop EC_HEADER_LEN (make_piece k m l i s) = s.
Proof. unfold make_piece. apply drop_app_length'. by rewrite length_encode_piece_header. Qed.

#[local] Arguments drop : simpl never.
#[local] Arguments make_piece : simpl never.

(** Reading the slots gives the stripes that are there, and the length. *)
Lemma ec_slots_erased k m body full i slots logical :
  ec_fits k m body → (i + length full ≤ k + m)%nat →
  Forall (λ d, length d = stripe_len (length body) k) full →
  erased slots (imap (λ j, make_piece k m (blen body) (i + j)) full) →
  ∃ stripes, ec_slots i slots logical = Ok (if (have slots =? 0)%nat then logical else Some (blen body), stripes) ∧
    erased stripes full ∧ have stripes = have slots.
Proof.
  intros Hf. revert i slots logical. induction full as [| d full IH]; intros i slots logical Hi Hd Her.
  { apply Forall2_nil_inv_r in Her as ->. exists []. split; [done |]. split; [constructor | done]. }
  simpl in Her. apply Forall2_cons_inv_r in Her as (sl & slots' & Hsl & Her & ->).
  apply Forall_cons in Hd as [Hd0 Hd]. simpl in Hi.
  assert (erased slots' (imap (λ j, make_piece k m (blen body) (S i + j)) full)) as Her'.
  { erewrite imap_ext; [exact Her |]. intros j x _. simpl. f_equal. lia. }
  destruct Hsl as [-> | ->]; simpl.
  - destruct (IH (S i) slots' logical ltac:(lia) Hd Her') as (st & -> & He & Hh).
    exists (None :: st). split; [done |]. split; [constructor; [by left | done] | done].
  - rewrite (parse_make_piece k m body) by (done || lia). simpl.
    rewrite Nat2Z.id, Nat.add_0_r, Nat.eqb_refl. simpl.
    destruct (IH (S i) slots' (Some (blen body)) ltac:(lia) Hd Her') as (st & -> & He & Hh).
    exists (Some d :: st). rewrite drop_make_piece. split; [by destruct (have slots' =? 0)%nat |].
    split; [constructor; [by right | done] |]. exact (f_equal S Hh).
Qed.

Lemma length_data_stripe data s i : length (data_stripe data s i) = s.
Proof. apply length_resize. Qed.

(** What an encoding is, by the law of the code. *)
Lemma ec_encode_ok cfg body :
  rs_law (ec_data cfg) (ec_parity cfg) →
  let k := ec_data cfg in let m := ec_parity cfg in let s := stripe_len (length body) k in
  let data := map (data_stripe body s) (seq 0 k) in
  ∃ parity, ec_encode body cfg = Ok (imap (make_piece k m (blen body)) (data ++ parity)) ∧
    length parity = m ∧ Forall (λ d, length d = s) (data ++ parity) ∧
    (∀ slots, erased slots (data ++ parity) → (k ≤ have slots)%nat →
       rs_reconstruct k m slots = Ok (map Some (data ++ parity))).
Proof.
  intros Hlaw k m s data. destruct Hlaw as [Hnew Hcode]. fold k m in Hnew, Hcode.
  assert (Forall (λ d, length d = s) data) as Hdata.
  { apply Forall_fmap, Forall_true. intros i. apply length_data_stripe. }
  destruct (Hcode s data) as (parity & Hp & HpF & Henc & Hrec);
    [apply stripe_len_pos | unfold data; by rewrite length_map, length_seq | done |].
  exists parity. split_and!; [| done | by apply Forall_app | done].
  unfold ec_encode, rs. fold k m. rewrite Hnew. fold s data. rewrite Henc; [done | by rewrite length_replicate |].
  apply Forall_replicate, length_replicate.
Qed.

(** With all the data stripes present the fast path gives the same body. *)
Lemma fast_path {A} (stripes : list (option A)) full :
  erased stripes full → forallb (λ s, bool_decide (is_Some s)) stripes = true → stripes = map Some full.
Proof.
  induction 1 as [| s p stripes full Hs _ IH]; simpl; [done |].
  intros [Hb ?]%andb_true_iff. destruct Hs as [-> | ->]; [done |]. f_equal. by apply IH.
Qed.

Lemma ec_decode_pieces cfg body pieces slots :
  rs_law (ec_data cfg) (ec_parity cfg) → ec_fits (ec_data cfg) (ec_parity cfg) body →
  ec_encode body cfg = Ok pieces → erased slots pieces → (ec_data cfg ≤ have slots)%nat →
  ec_decode slots (ec_data cfg) (ec_parity cfg) = Ok body.
Proof.
  intros Hlaw Hf Henc Her Hhave.
  destruct (ec_encode_ok cfg body Hlaw) as (parity & Henc' & Hp & HF & Hrec). rewrite Henc in Henc'.
  injection Henc' as ->. set (k := ec_data cfg) in *. set (m := ec_parity cfg) in *.
  set (data := map _ (seq 0 k)) in *. assert (length data = k) as Hdk by (unfold data; by rewrite length_map, length_seq).
  destruct (ec_slots_erased k m body (data ++ parity) 0 slots None Hf) as (st & Hsl & He & Hh);
    [rewrite length_app; lia | done | done |].
  assert (length (data ++ parity) = length slots) as Hlen.
  { apply Forall2_length in Her. by rewrite length_imap in Her. }
  pose proof (fit_k _ _ _ Hf). unfold ec_decode. rewrite <-Hlen, length_app, Hdk, Hp, Nat.eqb_refl. simpl.
  rewrite Hsl. destruct (Nat.eqb_spec (have slots) 0); [lia |].
  rewrite Hh, (proj2 (Nat.ltb_ge _ _)) by done.
  assert (join_data k (blen body) (map Some (data ++ parity)) = body) as Hj
    by (apply join_complete, stripe_len_covers; lia).
  destruct (forallb _ _) eqn:Hall.
  - f_equal. rewrite <-Hj at 2. unfold join_data. do 3 f_equal.
    rewrite (fast_path (take k st) (take k (data ++ parity))) by (done || by apply Forall2_take).
    by rewrite firstn_map.
  - destruct Hlaw as [Hnew _]. unfold rs. by rewrite Hnew, Hrec, Hj by (done || lia).
Qed.

Lemma ec_slots_sound i slots logical l st :
  ec_slots i slots logical = Ok (l, st) →
  Forall2 (λ s t, t = drop EC_HEADER_LEN <$> s) slots st ∧
  (∀ j p, slots !! j = Some (Some p) → ∃ h, parse_piece_header p = Some h ∧ Z.to_nat (ph_piece_idx h) = (i + j)%nat) ∧
  (l = logical ∨ ∃ j p h, slots !! j = Some (Some p) ∧ parse_piece_header p = Some h ∧ l = Some (ph_logical_len h)).
Proof.
  revert i logical st. induction slots as [| [p |] slots IH]; intros i logical st; simpl.
  - intros [= <- <-]. split_and!; [constructor | done | by left].
  - destruct (parse_piece_header p) as [h |] eqn:Hp; [| done].
    destruct (Nat.eqb_spec (Z.to_nat (ph_piece_idx h)) i) as [Hi |]; [| done]. simpl.
    destruct (ec_slots _ slots _) as [[l' st'] |] eqn:Hs; [| done]. intros [= -> <-].
    apply IH in Hs as (HF & Hall & Hl). split_and!.
    + by constructor.
    + intros [| j] q; simpl; [intros [= <-]; exists h; split; [done | lia] |].
      intros Hq. destruct (Hall j q Hq) as (h' & ? & ?). exists h'. split; [done | lia].
    + right. destruct Hl as [-> | (j & q & h' & ? & ? & ?)]; [by exists 0%nat, p, h | by exists (S j), q, h'].
  - destruct (ec_slots _ slots _) as [[l' st'] |] eqn:Hs; [| done]. intros [= -> <-].
    apply IH in Hs as (HF & Hall & Hl). split_and!.
    + by constructor.
    + intros [| j] q; simpl; [done |]. intros Hq. destruct (Hall j q Hq) as (h' & ? & ?). exists h'. split; [done | lia].
    + destruct Hl as [-> | (j & q & h' & ? & ? & ?)]; [by left | right; by exists (S j), q, h'].
Qed.

Lemma have_fmap {A B} (f : A → B) slots st :
  Forall2 (λ s t, t = f <$> s) slots st → have st = have slots.
Proof.
  unfold have. induction 1 as [| s t slots st -> _ IH]; [done |]. destruct s; simpl; [exact (f_equal S IH) | exact IH].
Qed.

(** A body's pieces, by what readers rely on. *)
Record piece_set (k m : nat) (body : bytes) (pieces : list bytes) : Prop := {
  ps_len : length pieces = (k + m)%nat;
  ps_fits : ec_fits k m body;
  ps_header : ∀ j b, pieces !! j = Some b → parse_piece_header b =
    Some {| ph_k := Z.of_nat k; ph_m := Z.of_nat m; ph_piece_idx := Z.of_nat j; ph_logical_len := blen body |};
  ps_decode : ∀ slots, erased slots pieces → (k ≤ have slots)%nat → ec_decode slots k m = Ok body;
  ps_repair : ∀ slots, erased slots pieces → (k ≤ have slots)%nat → ec_repair_pieces slots k m = Ok pieces;
}.

Lemma encode_piece_set cfg body :
  rs_law (ec_data cfg) (ec_parity cfg) → ec_fits (ec_data cfg) (ec_parity cfg) body →
  ∃ pieces, ec_encode body cfg = Ok pieces ∧ piece_set (ec_data cfg) (ec_parity cfg) body pieces.
Proof.
  intros Hlaw Hf. pose proof (ec_encode_ok cfg body Hlaw) as Henc. simpl in Henc.
  destruct Henc as (parity & Henc & Hp & HF & Hrec).
  eexists. split; [exact Henc |]. split.
  - by rewrite length_imap, length_app, length_map, length_seq, Hp.
  - done.
  - intros j b Hb. rewrite list_lookup_imap in Hb. apply fmap_Some in Hb as (d & Hd & ->).
    apply parse_make_piece; [done | |].
    + apply lookup_lt_Some in Hd. by rewrite length_app, length_map, length_seq, Hp in Hd.
    + rewrite Forall_forall in HF. by eapply HF, list_elem_of_lookup_2.
  - intros slots Her Hhave. by eapply ec_decode_pieces.
  - intros slots Her Hhave. unfold ec_repair_pieces. erewrite ec_decode_pieces by done. by rewrite <-Henc.
Qed.

(** C22. Erasure coding: a body of at least one byte is cut into [k + m]
    pieces of [16 + ceil(len / k)] bytes, and whichever at least [k] pieces
    are left in their slots, decoding gives the body and repairing gives all
    the pieces back, bit for bit. *)
Theorem any_k_pieces_suffice cfg body :
  rs_law (ec_data cfg) (ec_parity cfg) → ec_fits (ec_data cfg) (ec_parity cfg) body →
  ∃ pieces, ec_encode body cfg = Ok pieces ∧ length pieces = ec_total cfg ∧
    (∀ p, p ∈ pieces → blen p = 16 + div_ceil (blen body) (Z.of_nat (ec_data cfg)))%Z ∧
    ∀ slots, erased slots pieces → (ec_data cfg ≤ have slots)%nat →
      ec_decode slots (ec_data cfg) (ec_parity cfg) = Ok body ∧
      ec_repair_pieces slots (ec_data cfg) (ec_parity cfg) = Ok pieces.
Proof.
  intros Hlaw Hf. destruct (encode_piece_set cfg body Hlaw Hf) as (pieces & Henc & Hps).
  pose proof (ec_encode_ok cfg body Hlaw) as Henc'. simpl in Henc'.
  destruct Henc' as (parity & Henc' & Hp & HF & _). rewrite Henc in Henc'. injection Henc' as Heq.
  exists pieces. split; [done |]. split; [apply (ps_len _ _ _ _ Hps) |]. split.
  - intros p Hp'. rewrite Heq in Hp'. apply elem_of_lookup_imap in Hp' as (i & d & -> & Hd).
    unfold make_piece. rewrite blen_app. unfold blen at 1. rewrite length_encode_piece_header.
    rewrite Forall_forall in HF. unfold blen at 1. rewrite (HF d) by by eapply list_elem_of_lookup_2.
    destruct Hf as [? ? ? Hl]. unfold blen in *. rewrite stripe_len_exact by lia. done.
  - intros slots Her Hhave. split; [by apply (ps_decode _ _ _ _ Hps) | by apply (ps_repair _ _ _ _ Hps)].
Qed.

(** A decode that succeeds has checked its input: there are [k + m] slots
    and at least [k] pieces, every piece carries a valid header with the
    index of its slot, and the body is no longer than the length one of the
    headers gives. *)
Theorem ec_decode_checks slots k m body :
  ec_decode slots k m = Ok body →
  length slots = (k + m)%nat ∧ (k ≤ have slots)%nat ∧
  (∀ i p, slots !! i = Some (Some p) →
     ∃ h, parse_piece_header p = Some h ∧ Z.to_nat (ph_piece_idx h) = i) ∧
  ∃ i p h, slots !! i = Some (Some p) ∧ parse_piece_header p = Some h ∧ (blen body <= ph_logical_len h)%Z.
Proof.
  unfold ec_decode. destruct (Nat.eqb_spec (length slots) (k + m)) as [Hlen |]; [| done]. simpl.
  destruct (ec_slots 0 slots None) as [[[l |] st] |] eqn:Hs; [| done | done].
  apply ec_slots_sound in Hs as (HF & Hall & [| (i & p & h & Hi & Hp & [= ->])]); [done |].
  rewrite (have_fmap _ _ _ HF). destruct (Nat.ltb_spec (have slots) k) as [| Hk]; [done |].
  intros Hb. split_and!; [done | done | exact Hall |]. exists i, p, h. split_and!; [done | done |].
  assert (∃ ss, body = join_data k (ph_logical_len h) ss) as (ss & ->).
  { destruct (forallb _ _); [injection Hb as <-; eauto |]. unfold rs in Hb.
    destruct (rs_new k m); [| done]. destruct (rs_reconstruct k m st); [injection Hb as <-; eauto | done]. }
  apply parse_sound in Hp as ((_ & _ & _ & ?) & _).
  unfold join_data, blen. rewrite length_take. lia.
Qed.
End Erasure.

(** ** A concrete code: two data stripes and their exclusive or *)

Definition xor_byte (a b : byte) : byte :=
  Byte.byte.of_Z (Z.lxor (Byte.byte.unsigned a) (Byte.byte.unsigned b)).
Definition xor_bytes : bytes → bytes → bytes := zip_with xor_byte.

#[global] Instance xor_code : ReedSolomon := {|
  rs_new k m := if decide (k = 2%nat ∧ m = 1%nat) then Ok () else Err "unsupported";
  rs_encode k m shards :=
    match shards with
    | [a; b; _] => Ok [a; b; xor_bytes a b]
    | _ => Err "wrong number of shards"
    end;
  rs_reconstruct k m slots :=
    match slots with
    | [Some a; Some b; _] => Ok (map Some [a; b; xor_bytes a b])
    | [Some a; None; Some c] => Ok (map Some [a; xor_bytes a c; c])
    | [None; Some b; Some c] => Ok (map Some [xor_bytes b c; b; c])
    | _ => Err "too few shards"
    end;
|}.

Lemma unsigned_xor a b :
  Byte.byte.unsigned (xor_byte a b) = Z.lxor (Byte.byte.unsigned a) (Byte.byte.unsigned b).
Proof.
  unfold xor_byte. rewrite Byte.byte.unsigned_of_Z. apply Z.mod_small.
  pose proof (Byte.byte.unsigned_range a). pose proof (Byte.byte.unsigned_range b).
  assert (0 <= Z.lxor (Byte.byte.unsigned a) (Byte.byte.unsigned b))%Z by (apply Z.lxor_nonneg; lia).
  split; [done |]. destruct (Z.eq_dec (Z.lxor (Byte.byte.unsigned a) (Byte.byte.unsigned b)) 0) as [-> | Hne]; [lia |].
  change (2 ^ 8)%Z with (2 ^ 8)%Z. apply Z.log2_lt_pow2; [lia |].
  eapply Z.le_lt_trans; [apply Z.log2_lxor; lia |].
  apply Z.max_lub_lt.
  - destruct (Z.eq_dec (Byte.byte.unsigned a) 0) as [-> |]; [done | apply Z.log2_lt_pow2; lia].
  - destruct (Z.eq_dec (Byte.byte.unsigned b) 0) as [-> |]; [done | apply Z.log2_lt_pow2; lia].
Qed.

Lemma xor_byte_cancel a b : xor_byte a (xor_byte a b) = b.
Proof.
  rewrite <-(Byte.byte.of_Z_unsigned b) at 2. unfold xor_byte at 1. f_equal.
  by rewrite unsigned_xor, <-Z.lxor_assoc, Z.lxor_nilpotent, Z.lxor_0_l.
Qed.

Lemma xor_byte_comm a b : xor_byte a b = xor_byte b a.
Proof. unfold xor_byte. by rewrite Z.lxor_comm. Qed.

Lemma xor_bytes_cancel a b : length a = length b → xor_bytes a (xor_bytes a b) = b.
Proof.
  revert b. induction a as [| x a IH]; intros [| y b] Hl; try done.
  unfold xor_bytes in *. simpl. rewrite xor_byte_cancel. f_equal. apply IH. by injection Hl.
Qed.

Lemma xor_bytes_comm a b : xor_bytes a b = xor_bytes b a.
Proof.
  revert b. induction a as [| x a IH]; intros [| y b]; try done.
  unfold xor_bytes in *. simpl. by rewrite xor_byte_comm, IH.
Qed.

Lemma xor_code_law : rs_law 2 1.
Proof.
  split; [reflexivity |]. intros s data _ Hlen Hd.
  destruct data as [| a [| b [| ? ?]]]; try done. clear Hlen.
  apply Forall_cons in Hd as [Ha Hd]. apply Forall_cons in Hd as [Hb _].
  exists [xor_bytes a b]. split_and!; [done | | |].
  - constructor; [| done]. unfold xor_bytes. rewrite length_zip_with. lia.
  - intros [| f [| ? ?]] Hf _; done.
  - intros slots Her Hhave.
    inversion Her as [| s1 ? sl1 ? H1 Her1]; subst. inversion Her1 as [| s2 ? sl2 ? H2 Her2]; subst.
    inversion Her2 as [| s3 ? sl3 ? H3 Her3]; subst. inversion Her3; subst.
    destruct H1 as [-> | ->], H2 as [-> | ->], H3 as [-> | ->]; unfold have in Hhave; simpl in *;
      try lia; try done.
    + rewrite (xor_bytes_comm a b), xor_bytes_cancel by lia. by rewrite xor_bytes_comm.
    + by rewrite xor_bytes_cancel by lia.
Qed.

Definition xor_cfg : EcConfig := {| ec_data := 2; ec_parity := 1; ec_min_size := 0; ec_write_quorum := 2 |}.
Definition odd_body : bytes := [x68; x65; x6c; x6c; x6f].

Lemma any_k_pieces_suffice_witness :
  ∃ pieces, ec_encode odd_body xor_cfg = Ok pieces ∧
    ec_decode [None; pieces !! 1%nat; pieces !! 2%nat] 2 1 = Ok odd_body.
Proof.
  destruct (any_k_pieces_suffice xor_cfg odd_body) as (pieces & He & Hlen & _ & Hd).
  - exact xor_code_law.
  - split; try (vm_compute; lia). vm_compute. split; reflexivity.
  - exists pieces. split; [exact He |].
    destruct pieces as [| p0 [| p1 [| p2 [| ? ?]]]]; try discriminate.
    apply Hd; [| vm_compute; lia].
    repeat (apply Forall2_cons; split; [first [left; reflexivity | right; reflexivity] |]). apply Forall2_nil_2.
Defined.

Lemma ec_decode_checks_witness :
  ∃ p, length (A := byte) p = 19%nat ∧ ec_decode [Some p; Some p; None] 2 1 ≠ Ok odd_body ∧
  ∃ slots, ec_decode slots 2 1 = Ok odd_body ∧ length slots = 3%nat ∧ (2 ≤ have slots)%nat.
Proof.
  exists (make_piece 2 1 5 0 [x68; x65; x6c]). split; [reflexivity |]. split; [vm_compute; discriminate |].
  set (slots := [Some (make_piece 2 1 5 0 [x68; x65; x6c]); Some (make_piece 2 1 5 1 [x6c; x6f; x00]); None]).
  exists slots. assert (ec_decode slots 2 1 = Ok odd_body) as Hd by (vm_compute; reflexivity).
  split; [exact Hd |]. destruct (ec_decode_checks slots 2 1 odd_body Hd) as (H1 & H2 & _). split; [exact H1 | exact H2].
Defined.

(** An empty body is encoded into pieces that no parser accepts: the stripe
    has one byte, and the header's check expects none. *)
Example empty_body_is_unreadable :
  match ec_encode [] xor_cfg with
  | Ok pieces => length pieces = 3%nat ∧ Forall (λ p, parse_piece_header p = None) pieces ∧
      ec_decode (map Some pieces) 2 1 = Err (IntegrityViolation "piece 0: bad EC header")
  | Err _ => False
  end.
Proof. vm_compute. split; [reflexivity |]. split; [repeat constructor | reflexivity]. Qed.

(** With 256 pieces [k + m] wraps to zero in the parser. *)
Example pieces_of_a_full_set_are_unreadable :
  parse_piece_header (make_piece 200 56 200 0 [x00]) = None ∧
  parse_piece_header (make_piece 200 55 200 0 [x00]) ≠ None.
Proof. vm_compute. by split. Qed.
