(* ===== verification/Verified.v ===== *)
(** * Verified range reads (crates/ozd-app/src/verified.rs)

    A large body has a BLAKE3 outboard, stored under its own key; a range is
    read through a slice that is checked against the root hash taken when the
    body was written. The bao crate is a parameter, with its documented
    behaviour for a given body as [bao_law]. *)

From Stdlib Require Import ZArith Lia Strings.Byte.
From stdpp Require Import base list strings.
From S2P Require Import Prelude Domain.
Open Scope Z_scope.

(** ** The bao crate *)

(** [encode::outboard] (the outboard and the root hash), [SliceExtractor] and
    [SliceDecoder] read to the end; an error is its [Display]. *)
Class Bao := {
  bao_outboard : bytes → bytes * bytes;
  bao_extract : bytes → bytes → Z → Z → result string bytes;
  bao_decode : bytes → bytes → Z → Z → result string bytes;
}.

(** The bytes of [start .. start + len] that the body has. *)
Definition range_of (body : bytes) (start len : Z) : bytes := slice (Z.to_nat start) (Z.to_nat len) body.

(** For a body: a slice extracted from it decodes to the range, and nothing
    but the body's bytes decodes against its root. *)
Record bao_law `{Bao} (body : bytes) : Prop := {
  law_root : length (bao_outboard body).2 = 32%nat;
  law_complete : ∀ start len, 0 <= start → 0 < len → start < blen body →
    ∃ sl, bao_extract body (bao_outboard body).1 start len = Ok sl ∧
      bao_decode sl (bao_outboard body).2 start len = Ok (range_of body start len);
  law_binding : ∀ sl start len out, 0 <= start → 0 < len →
    bao_decode sl (bao_outboard body).2 start len = Ok out → out = range_of body start len;
}.

(** ** Keys and configuration *)

Definition OB_PREFIX : bytes := [x2f; x6f; x7a; x64; x2f; x6f; x62; x33]. (* b"/ozd/ob3" *)

Record ObConfig := { ob_min_size : Z }.
Definition ObConfig_default : ObConfig := {| ob_min_size := 256 * 1024 |}.

Definition ob_key (key : BlockKey) : BlockKey := OB_PREFIX ++ key.
Definition is_ob_key (key : BlockKey) : bool := bool_decide (OB_PREFIX `prefix_of` key).

Section Verified.
Context `{Bao}.

Definition make_outboard (body : bytes) : bytes :=
  let '(outboard, hash) := bao_outboard body in hash ++ outboard.

Definition verified_slice (body ob_record : bytes) (start len : Z) : DomainResult bytes :=
  if bool_decide (length ob_record < 32)%nat then Err (IntegrityViolation "ob3: record too short")
  else
    let root := take 32 ob_record in
    let outboard := drop 32 ob_record in
    match bao_extract body outboard start len with
    | Err e => Err (Io ("ob3 extract: " +:+ e))
    | Ok sl =>
        match bao_decode sl root start len with
        | Err e => Err (IntegrityViolation ("ob3 verify: " +:+ e))
        | Ok out => Ok out
        end
    end.

Definition verify_bao_slice (sl root : bytes) (start len : Z) : DomainResult bytes :=
  match bao_decode sl root start len with
  | Err e => Err (IntegrityViolation ("bao slice verify: " +:+ e))
  | Ok out => Ok out
  end.

Definition bao_slice (body ob_record : bytes) (start len : Z) : DomainResult (bytes * bytes) :=
  if bool_decide (length ob_record < 32)%nat then Err (IntegrityViolation "ob3: record too short")
  else
    let root := take 32 ob_record in
    let outboard := drop 32 ob_record in
    match bao_extract body outboard start len with
    | Err e => Err (Io ("ob3 extract: " +:+ e))
    | Ok sl =>
        match verify_bao_slice sl root start len with
        | Err e => Err e
        | Ok _ => Ok (sl, root)
        end
    end.

(** ** Properties *)

Lemma outboard_parts body : bao_law body →
  length (make_outboard body) = (32 + length (bao_outboard body).1)%nat ∧
  take 32 (make_outboard body) = (bao_outboard body).2 ∧ drop 32 (make_outboard body) = (bao_outboard body).1.
Proof.
  intros [Hr _ _]. unfold make_outboard. destruct (bao_outboard body) as [ob h]. simpl in *.
  rewrite length_app, Hr, take_app_length', drop_app_length' by done. done.
Qed.

(** Range reads against the record made when the body was written: a
    range of the intact body is read, and whatever the bytes on disk have
    become, bytes that are returned are those of the original body; the same
    holds for a slice handed out to be checked by the client. *)
Theorem range_reads_are_verified body start len :
  bao_law body → 0 <= start → 0 < len → start < blen body →
  let ob := make_outboard body in
  verified_slice body ob start len = Ok (range_of body start len) ∧
  (∀ disk out, verified_slice disk ob start len = Ok out → out = range_of body start len) ∧
  (∀ disk sl root, bao_slice disk ob start len = Ok (sl, root) →
     verify_bao_slice sl root start len = Ok (range_of body start len)).
Proof.
  intros Hlaw Hs Hl Hb ob. destruct (outboard_parts body Hlaw) as (Hlen & Ht & Hd). fold ob in Hlen, Ht, Hd.
  destruct Hlaw as [_ Hc Hbind].
  assert (bool_decide (length ob < 32)%nat = false) as Hge by (apply bool_decide_eq_false; lia).
  unfold verified_slice, bao_slice, verify_bao_slice. rewrite Hge, Ht, Hd. split_and!.
  - destruct (Hc start len Hs Hl Hb) as (sl & -> & ->). done.
  - intros disk out. destruct (bao_extract disk _ _ _) as [sl |]; [| done].
    destruct (bao_decode sl _ _ _) as [o |] eqn:Ho; [| done]. intros [= <-]. by eapply Hbind.
  - intros disk sl root. destruct (bao_extract disk _ _ _) as [sl' |]; [| done].
    destruct (bao_decode sl' _ _ _) as [o |] eqn:Ho; [| done]. intros [= <- <-]. rewrite Ho.
    f_equal. by eapply Hbind.
Qed.
End Verified.

(** A key that is an outboard's is not taken for a body's. *)
Lemma is_ob_key_ob_key k : is_ob_key (ob_key k) = true.
Proof. apply bool_decide_eq_true. by exists k. Qed.

(** ** A concrete instance for short bodies *)

(** The slice is the body; the hash of at most 31 bytes is the bytes padded
    and their number. *)
Definition pad_hash (b : bytes) : bytes :=
  if bool_decide (length b ≤ 31)%nat then b ++ replicate (31 - length b) x00 ++ le_split 1 (blen b)
  else replicate 32 xff.

#[global] Instance pad_bao : Bao := {|
  bao_outboard body := ([], pad_hash body);
  bao_extract body _ _ _ := Ok body;
  bao_decode sl root start len :=
    if bool_decide (pad_hash sl = root) then Ok (range_of sl start len) else Err "hash mismatch";
|}.

Definition short_body : bytes := [x68; x65; x6c; x6c; x6f].

Lemma pad_hash_short sl : pad_hash sl = pad_hash short_body → sl = short_body.
Proof.
  unfold pad_hash at 1. case_bool_decide as Hl.
  - do 32 (destruct sl as [| ? sl]; [vm_compute; intros; congruence |]). simpl in Hl. lia.
  - vm_compute. done.
Qed.

Lemma pad_bao_law : bao_law short_body.
Proof.
  split; [reflexivity | |].
  - intros start len _ _ _. exists short_body. split; [done |]. cbn [bao_decode bao_outboard pad_bao snd]. by rewrite bool_decide_eq_true_2.
  - intros sl start len out _ _. cbn [bao_decode bao_outboard pad_bao snd]. case_bool_decide as Hh; [| done].
    apply pad_hash_short in Hh as ->. by intros [= <-].
Qed.

Lemma range_reads_are_verified_witness :
  verified_slice short_body (make_outboard short_body) 1 3 = Ok [x65; x6c; x6c] ∧
  verified_slice [x68; x65; x6c; x78; x6f] (make_outboard short_body) 1 3 ≠ Ok [x65; x6c; x78].
Proof.
  destruct (range_reads_are_verified short_body 1 3 pad_bao_law ltac:(lia) ltac:(lia) ltac:(vm_compute; reflexivity))
    as (H1 & H2 & _).
  split; [exact H1 |]. intros Hx. apply H2 in Hx. discriminate.
Defined.
