(* ===== verification/Metrics.v ===== *)
(** * Operation counters and latency histograms (crates/ozd-app/src/metrics.rs)

    The counters are 64-bit atomics that wrap; a histogram keeps twelve
    buckets, which the Prometheus text shows cumulatively. The text itself is in
    Exposition.v. *)

From Stdlib Require Import ZArith Lia.
From stdpp Require Import base list.
From S2P Require Import Prelude Domain.
Open Scope Z_scope.

(** ** Histograms *)

Definition HIST_BUCKETS_US : list Z :=
  [1000; 5000; 10000; 25000; 50000; 100000; 250000; 500000; 1000000; 2500000; 5000000; 10000000].

Record Histogram := { h_buckets : list Z; h_count : Z; h_sum_us : Z }.
Definition Histogram_default : Histogram :=
  {| h_buckets := replicate 12 0; h_count := 0; h_sum_us := 0 |}.

(** [fetch_add] wraps. *)
Definition fetch_add (n m : Z) : Z := wrap 64 (n + m).

(** The first bound that is not below the value, else the last bucket. *)
Fixpoint hist_slot (us : Z) (i : nat) (bounds : list Z) : nat :=
  match bounds with
  | [] => length HIST_BUCKETS_US - 1
  | b :: bounds => if us <=? b then i else hist_slot us (S i) bounds
  end.

Definition hist_observe (h : Histogram) (us : Z) : Histogram :=
  {| h_buckets := alter (λ n, fetch_add n 1) (hist_slot us 0 HIST_BUCKETS_US) (h_buckets h);
     h_count := fetch_add (h_count h) 1;
     h_sum_us := fetch_add (h_sum_us h) us |}.

(** The numbers of the [_bucket] lines. *)
Fixpoint hist_cumulative (cum : Z) (buckets : list Z) : list Z :=
  match buckets with
  | [] => []
  | b :: buckets => let cum := wrap 64 (cum + b) in cum :: hist_cumulative cum buckets
  end.

(** ** Counters *)

Inductive counter :=
| puts | put_errors | put_micros | gets | get_not_found | get_errors | get_micros | deletes
| inflight_puts | inflight_gets | bytes_written | hedged_reads | handoff_writes | mrf_enqueued
| mrf_healed | scrub_checked | scrub_corrupt | scrub_repaired | scrub_unrepairable
| resilver_repaired | resilver_errors | gc_victims | gc_moved | gc_reclaimed_bytes | gc_orphans
| gc_orphan_bytes | ec_puts | ec_reconstructs | ec_pieces_repaired | migrate_migrated
| migrate_canary_failed | migrate_errors | migrate_era_backfilled | cache_hits | cache_misses
| cache_coalesced | cache_self_heals | cache_populated_bytes | cache_evicted_segments
| cache_evicted_bytes | bg_throttle_waits | bg_throttle_bytes | bg_rate_bps | hedge_threshold_ms.
#[global] Instance counter_eq_dec : EqDecision counter.
Proof. solve_decision. Defined.

Record OpsMetrics := {
  mt_count : counter → Z;
  put_hist : Histogram;
  get_hist : Histogram;
}.
Definition OpsMetrics_default : OpsMetrics :=
  {| mt_count := λ _, 0; put_hist := Histogram_default; get_hist := Histogram_default |}.

(** [self.c.store(v)], [self.c.fetch_add(n)], [self.c.fetch_sub(n)] *)
Definition mt_store (c : counter) (v : Z) (m : OpsMetrics) : OpsMetrics :=
  {| mt_count := λ c', if decide (c = c') then v else mt_count m c';
     put_hist := put_hist m; get_hist := get_hist m |}.
Definition mt_add (c : counter) (n : Z) (m : OpsMetrics) : OpsMetrics :=
  mt_store c (fetch_add (mt_count m c) n) m.
Definition mt_sub (c : counter) (n : Z) (m : OpsMetrics) : OpsMetrics :=
  mt_store c (wrap 64 (mt_count m c - n)) m.
Definition mt_observe_put (us : Z) (m : OpsMetrics) : OpsMetrics :=
  {| mt_count := mt_count m; put_hist := hist_observe (put_hist m) us; get_hist := get_hist m |}.
Definition mt_observe_get (us : Z) (m : OpsMetrics) : OpsMetrics :=
  {| mt_count := mt_count m; put_hist := put_hist m; get_hist := hist_observe (get_hist m) us |}.

Definition record_gc (r : GcReport) (m : OpsMetrics) : OpsMetrics :=
  let m := match victim_seg r with Some _ => mt_add gc_victims 1 m | None => m end in
  let m := mt_add gc_moved (Z.of_nat (live_moved r)) m in
  let m := mt_add gc_reclaimed_bytes (reclaimed_bytes r) m in
  let m := mt_add gc_orphans (Z.of_nat (orphans_removed r)) m in
  mt_add gc_orphan_bytes (orphan_bytes r) m.

(** ** What a histogram shows *)

Definition hist_of (l : list Z) : Histogram := foldl hist_observe Histogram_default l.

(** The samples that bucket [i] counts: the last one takes everything above. *)
Definition in_bucket (i : nat) (us : Z) : bool := (hist_slot us 0 HIST_BUCKETS_US =? i)%nat.

Definition countb (f : Z → bool) (l : list Z) : Z := Z.of_nat (length (filter f l)).

Lemma countb_snoc f l x : countb f (l ++ [x]) = countb f l + if f x then 1 else 0.
Proof.
  unfold countb. rewrite filter_app, length_app, filter_cons, filter_nil.
  destruct (f x), (decide _) as [H | H]; try done; try (by destruct H); simpl; lia.
Qed.

Lemma countb_le f l : 0 <= countb f l <= Z.of_nat (length l).
Proof. unfold countb. pose proof (length_filter (λ x, f x) l). lia. Qed.

Lemma hist_slot_bound us i bounds : (i + length bounds ≤ 12)%nat → (hist_slot us i bounds < 12)%nat.
Proof.
  revert i. induction bounds as [| b bounds IH]; intros i Hi; simpl; [lia |].
  simpl in Hi. destruct (us <=? b); [lia | apply IH; lia].
Qed.

Lemma hist_of_buckets l i : Z.of_nat (length l) < 2 ^ 64 → (i < 12)%nat →
  h_buckets (hist_of l) !! i = Some (countb (in_bucket i) l).
Proof.
  revert i. induction l as [| x l IH] using rev_ind; intros i Hl Hi.
  { unfold hist_of. simpl. do 12 (destruct i as [| i]; [done |]). lia. }
  rewrite length_app in Hl. simpl in Hl. unfold hist_of. rewrite foldl_app. cbn [foldl hist_observe h_buckets].
  rewrite countb_snoc. unfold in_bucket at 2. pose proof (countb_le (in_bucket i) l).
  destruct (Nat.eqb_spec (hist_slot x 0 HIST_BUCKETS_US) i) as [<- | Hne].
  - rewrite list_lookup_alter_eq. fold (hist_of l). rewrite IH by (lia || done). cbn [fmap option_fmap option_map].
    unfold fetch_add. rewrite wrap_small by lia. done.
  - rewrite list_lookup_alter_ne by done. fold (hist_of l). rewrite IH by (lia || done). f_equal. lia.
Qed.

Lemma hist_count_sum l : Z.of_nat (length l) < 2 ^ 64 →
  h_count (hist_of l) = Z.of_nat (length l).
Proof.
  induction l as [| x l IH] using rev_ind; intros Hl; [done |].
  rewrite length_app in *. simpl in *. unfold hist_of. rewrite foldl_app. simpl. fold (hist_of l).
  rewrite IH by lia. unfold fetch_add. rewrite wrap_small; lia.
Qed.

(** A value falls into the buckets up to [i] exactly when it is not above
    their last bound; the last bucket takes the values above every bound. *)
Lemma hist_slot_spec us i : (i < 11)%nat →
  (hist_slot us 0 HIST_BUCKETS_US ≤ i)%nat ↔ us <= nth i HIST_BUCKETS_US 0.
Proof.
  intros Hi. simpl.
  repeat match goal with |- context [us <=? ?b] => destruct (Z.leb_spec us b) end;
    do 11 (destruct i as [| i]; [simpl; lia |]); lia.
Qed.

(** How many samples the buckets up to [i] took. *)
Definition upto (i : nat) (l : list Z) : Z := countb (λ x, hist_slot x 0 HIST_BUCKETS_US <=? i)%nat l.

Lemma upto_0 l : upto 0 l = countb (in_bucket 0) l.
Proof.
  induction l as [| x l IH] using rev_ind; [done |]. unfold upto in *. rewrite !countb_snoc, IH.
  unfold in_bucket. by destruct (hist_slot x 0 HIST_BUCKETS_US).
Qed.

Lemma upto_S i l : upto (S i) l = upto i l + countb (in_bucket (S i)) l.
Proof.
  induction l as [| x l IH] using rev_ind; [done |]. unfold upto in *. rewrite !countb_snoc, IH.
  change (in_bucket (S i) x) with (hist_slot x 0 HIST_BUCKETS_US =? S i)%nat.
  destruct (Nat.leb_spec (hist_slot x 0 HIST_BUCKETS_US) (S i)), (Nat.leb_spec (hist_slot x 0 HIST_BUCKETS_US) i),
    (Nat.eqb_spec (hist_slot x 0 HIST_BUCKETS_US) (S i)); lia.
Qed.

Lemma upto_all l : upto 11 l = Z.of_nat (length l).
Proof.
  induction l as [| x l IH] using rev_ind; [done |]. unfold upto in *.
  rewrite countb_snoc, IH, length_app. simpl (length [x]).
  pose proof (hist_slot_bound x 0 HIST_BUCKETS_US ltac:(simpl; lia)).
  destruct (Nat.leb_spec (hist_slot x 0 HIST_BUCKETS_US) 11); lia.
Qed.

Lemma upto_le i l : 0 <= upto i l <= Z.of_nat (length l).
Proof. apply countb_le. Qed.

Lemma hist_cumulative_from l n i cum bs :
  Z.of_nat (length l) < 2 ^ 64 → (n ≤ i)%nat →
  (∀ j, (n ≤ j)%nat → (j ≤ i)%nat → bs !! (j - n)%nat = Some (countb (in_bucket j) l)) →
  cum = (match n with O => 0 | S n => upto n l end) →
  hist_cumulative cum bs !! (i - n)%nat = Some (upto i l).
Proof.
  intros Hl. remember (i - n)%nat as d eqn:Hd. revert n cum bs Hd. induction d as [| d IH]; intros n cum bs Hd Hn Hb Hc.
  all: destruct bs as [| b bs]; [specialize (Hb n ltac:(lia) ltac:(lia)); by rewrite Nat.sub_diag in Hb |].
  all: assert (b = countb (in_bucket n) l) as ->
    by (specialize (Hb n ltac:(lia) ltac:(lia)); rewrite Nat.sub_diag in Hb; by injection Hb).
  all: assert (wrap 64 (cum + countb (in_bucket n) l) = upto n l) as Hw;
    [ rewrite Hc; pose proof (upto_le n l); destruct n; [rewrite <-upto_0 | rewrite <-upto_S]; apply wrap_small; lia |].
  all: simpl; rewrite Hw.
  - replace i with n by lia. done.
  - apply (IH (S n)); [lia | lia | | done]. intros j Hj Hji. specialize (Hb j ltac:(lia) Hji).
    replace (j - n)%nat with (S (j - S n)) in Hb by lia. done.
Qed.

(** After any fewer than 2^64 observations, the cumulative bucket lines of
    the text are right for every bound but the last: the number of
    observations at or below the bound; the last line, like the count,
    has all of them, also those above its ten seconds. *)
Theorem cumulative_buckets_count l : Z.of_nat (length l) < 2 ^ 64 →
  let lines := hist_cumulative 0 (h_buckets (hist_of l)) in
  (∀ i, (i < 11)%nat → lines !! i = Some (countb (λ us, us <=? nth i HIST_BUCKETS_US 0) l)) ∧
  lines !! 11%nat = Some (Z.of_nat (length l)) ∧ h_count (hist_of l) = Z.of_nat (length l).
Proof.
  intros Hl lines.
  assert (∀ i, (i < 12)%nat → lines !! i = Some (upto i l)) as H.
  { intros i Hi. rewrite <-(Nat.sub_0_r i) at 1. apply hist_cumulative_from; [done | lia | | done].
    intros j _ Hj. rewrite Nat.sub_0_r. apply hist_of_buckets; [done | lia]. }
  split_and!.
  - intros i Hi. rewrite H by lia. f_equal. unfold upto, countb. do 2 f_equal.
    apply list_filter_iff. intros x.
    destruct (Nat.leb_spec (hist_slot x 0 HIST_BUCKETS_US) i), (Z.leb_spec x (nth i HIST_BUCKETS_US 0)); try done;
      pose proof (hist_slot_spec x i Hi); lia.
  - rewrite H by lia. by rewrite upto_all.
  - by apply hist_count_sum.
Qed.

Lemma cumulative_buckets_count_witness :
  let lines := hist_cumulative 0 (h_buckets (hist_of [700; 40000; 11000000])) in
  lines !! 4%nat = Some 2 ∧ lines !! 11%nat = Some 3.
Proof.
  destruct (cumulative_buckets_count [700; 40000; 11000000] eq_refl) as (H1 & H2 & _).
  split; [| exact H2]. rewrite (H1 4%nat ltac:(lia)). vm_compute. reflexivity.
Defined.
