(* ===== verification/Throttle.v ===== *)
(** * The byte budget of background work (crates/ozd-app/src/throttle.rs)

    A leaky bucket paid in advance, whose rate follows the foreground load:
    halved after a busy window, raised by a tenth of the ceiling after a quiet
    one. Instants and durations are nanoseconds; the sleep itself is not
    modelled, [acquire] returns its length. *)

From Stdlib Require Import ZArith Lia SpecFloat.
From stdpp Require Import base list.
From S2P Require Import Prelude F64 Metrics.
Open Scope Z_scope.

(** ** Durations *)

(** [Duration::as_secs_f64] *)
Definition as_secs_f64 (ns : Z) : f64 :=
  f64_add (f64_of_Z (ns / 1000000000)) (f64_div (f64_of_Z (ns mod 1000000000)) (f64_of_Z 1000000000)).

(** [a / b] rounded to nearest, ties to even, for [0 < b]. *)
Definition div_half_even (a b : Z) : Z :=
  let q := a / b in
  match 2 * (a mod b) ?= b with
  | Lt => q
  | Gt => q + 1
  | Eq => if Z.even q then q else q + 1
  end.

(** [Duration::from_secs_f64]; [None] where it panics: a negative number, no
    number, or a length that does not fit. *)
Definition from_secs_f64 (x : f64) : option Z :=
  let fit ns := if ns <? 2 ^ 64 * 1000000000 then Some ns else None in
  match x with
  | S754_zero _ => Some 0
  | S754_finite false m e =>
      if 0 <=? e then fit (Z.shiftl (Z.pos m) e * 1000000000)
      else fit (div_half_even (Z.pos m * 1000000000) (Z.shiftl 1 (- e)))
  | _ => None
  end.

(** ** State *)

Record BgThrottleConfig := {
  max_bytes_per_sec : Z;
  min_bytes_per_sec : Z;
  fg_busy_ops_per_sec : f64;
}.
Definition BgThrottleConfig_default : BgThrottleConfig :=
  {| max_bytes_per_sec := 64 * 1024 * 1024; min_bytes_per_sec := 4 * 1024 * 1024;
     fg_busy_ops_per_sec := f64_of_Z 50 |}.

Record BgThrottle := {
  bg_cfg : BgThrottleConfig;
  bg_rate : f64;
  bg_tokens : f64;
  last_refill : Z;
  last_obs : Z;
  last_fg_ops : Z;
}.

Definition fg_total_of (m : OpsMetrics) : Z := wrap 64 (mt_count m puts + mt_count m gets).

Definition throttle_new (cfg : BgThrottleConfig) (now : Z) (m : OpsMetrics) : BgThrottle * OpsMetrics :=
  ({| bg_cfg := cfg; bg_rate := f64_of_Z (max_bytes_per_sec cfg); bg_tokens := f64_of_Z (max_bytes_per_sec cfg);
      last_refill := now; last_obs := now; last_fg_ops := fg_total_of m |},
   mt_store bg_rate_bps (max_bytes_per_sec cfg) m).

(** ** Operations *)

(** The rate after a window, from the load seen in it. *)
Definition next_rate (cfg : BgThrottleConfig) (rate fg_rate : f64) : f64 :=
  if f64_lt (fg_busy_ops_per_sec cfg) fg_rate then
    f64_max (f64_mul rate (f64_ratio 1 2)) (f64_of_Z (min_bytes_per_sec cfg))
  else
    f64_min (f64_add rate (f64_mul (f64_ratio 1 10) (f64_of_Z (max_bytes_per_sec cfg))))
            (f64_of_Z (max_bytes_per_sec cfg)).

(** The once-a-second look at the foreground load. *)
Definition observe_fg (t : BgThrottle) (now fg_total_ops : Z) (m : OpsMetrics) : BgThrottle * OpsMetrics :=
  let win := as_secs_f64 (sat_sub now (last_obs t)) in
  if f64_le (f64_of_Z 1) win then
    let fg_rate := f64_div (f64_of_Z (sat_sub fg_total_ops (last_fg_ops t))) win in
    let rate := next_rate (bg_cfg t) (bg_rate t) fg_rate in
    ({| bg_cfg := bg_cfg t; bg_rate := rate; bg_tokens := bg_tokens t; last_refill := last_refill t;
        last_obs := now; last_fg_ops := fg_total_ops |},
     mt_store bg_rate_bps (f64_to_u64 rate) m)
  else (t, m).

(** The tokens before the charge: refilled, at most one second's budget. *)
Definition refill (t : BgThrottle) (now : Z) : f64 :=
  let dt := as_secs_f64 (sat_sub now (last_refill t)) in
  f64_min (f64_add (bg_tokens t) (f64_mul (bg_rate t) dt)) (bg_rate t).

(** [None]: the conversion to a [Duration] panics. *)
Definition acquire_delay (t : BgThrottle) (n now fg_total_ops : Z) (m : OpsMetrics) :
    option Z * BgThrottle * OpsMetrics :=
  let '(t, m) := observe_fg t now fg_total_ops m in
  let tokens := f64_sub (refill t now) (f64_of_Z n) in
  let t := {| bg_cfg := bg_cfg t; bg_rate := bg_rate t; bg_tokens := tokens; last_refill := now;
              last_obs := last_obs t; last_fg_ops := last_fg_ops t |} in
  let m := mt_add bg_throttle_bytes n m in
  (if f64_le (f64_of_Z 0) tokens then Some 0 else from_secs_f64 (f64_div (f64_opp tokens) (bg_rate t)), t, m).

Definition acquire (t : BgThrottle) (n now : Z) (m : OpsMetrics) : option Z * BgThrottle * OpsMetrics :=
  if (max_bytes_per_sec (bg_cfg t) =? 0) || (n =? 0) then (Some 0, t, m)
  else
    let '(d, t, m) := acquire_delay t n now (fg_total_of m) m in
    (d, t, if bool_decide (d = Some 0) then m else mt_add bg_throttle_waits 1 m).

Definition rate_bps (t : BgThrottle) : Z := f64_to_u64 (bg_rate t).

(** [f64::clamp], which panics unless [lo <= hi]. *)
Definition f64_clamp (x lo hi : f64) : option f64 :=
  if f64_le lo hi then
    Some (let x := if f64_lt x lo then lo else x in if f64_lt hi x then hi else x)
  else None.

(** The configuration itself is left as it was. *)
Definition update_config (t : BgThrottle) (new : BgThrottleConfig) (m : OpsMetrics) :
    option (BgThrottle * OpsMetrics) :=
  match f64_clamp (bg_rate t) (f64_of_Z (min_bytes_per_sec new)) (f64_of_Z (max_bytes_per_sec new)) with
  | Some rate =>
      Some ({| bg_cfg := bg_cfg t; bg_rate := rate; bg_tokens := bg_tokens t; last_refill := last_refill t;
               last_obs := last_obs t; last_fg_ops := last_fg_ops t |},
            mt_store bg_rate_bps (f64_to_u64 rate) m)
  | None => None
  end.

(** ** What a charge does *)

(** The rate has a number, and the look at the load keeps it within the bound
    that applies: the floor when it is lowered, the ceiling when raised. *)
Record paced (t t' : BgThrottle) : Prop := {
  pc_cfg : bg_cfg t' = bg_cfg t;
  pc_num : is_num (bg_rate t) → is_num (bg_rate t');
  pc_rate : bg_rate t' = bg_rate t ∨
    f64_le (f64_of_Z (min_bytes_per_sec (bg_cfg t))) (bg_rate t') = true ∨
    f64_le (bg_rate t') (f64_of_Z (max_bytes_per_sec (bg_cfg t))) = true;
  pc_tokens : bg_tokens t' = bg_tokens t ∧ last_refill t' = last_refill t;
}.

Lemma observe_fg_paced t now fg m : paced t (observe_fg t now fg m).1.
Proof.
  unfold observe_fg. destruct (f64_le (f64_of_Z 1) _); [| by split; [.. | split]; auto].
  cbn [fst]. set (rate := next_rate _ _ _).
  assert (is_num rate ∧ (f64_le (f64_of_Z (min_bytes_per_sec (bg_cfg t))) rate = true ∨
    f64_le rate (f64_of_Z (max_bytes_per_sec (bg_cfg t))) = true)) as [Hn Hb].
  { unfold rate, next_rate. destruct (f64_lt _ _).
    - destruct (f64_max_ge (f64_mul (bg_rate t) (f64_ratio 1 2)) _ (f64_of_Z_num (min_bytes_per_sec (bg_cfg t)))). auto.
    - destruct (f64_min_le (f64_add (bg_rate t) (f64_mul (f64_ratio 1 10) (f64_of_Z (max_bytes_per_sec (bg_cfg t)))))
        _ (f64_of_Z_num (max_bytes_per_sec (bg_cfg t)))). auto. }
  split; [done | done | by right | done].
Qed.

Lemma observe_fg_bytes t now fg m :
  mt_count (observe_fg t now fg m).2 bg_throttle_bytes = mt_count m bg_throttle_bytes.
Proof. unfold observe_fg. by destruct (f64_le (f64_of_Z 1) _). Qed.

(** A charge for background work: the configuration stays, a rate that
    changes is at least the floor or at most the ceiling, the bucket holds at
    most one second's budget before the charge, the bytes are counted, and
    the caller sleeps exactly when the bucket is in debt, for the debt
    divided by the rate. *)
Theorem acquire_delay_paces t n now fg m :
  is_num (bg_rate t) →
  let '(d, t', m') := acquire_delay t n now fg m in
  bg_cfg t' = bg_cfg t ∧ is_num (bg_rate t') ∧
  (bg_rate t' = bg_rate t ∨
   f64_le (f64_of_Z (min_bytes_per_sec (bg_cfg t))) (bg_rate t') = true ∨
   f64_le (bg_rate t') (f64_of_Z (max_bytes_per_sec (bg_cfg t))) = true) ∧
  (∃ full, f64_le full (bg_rate t') = true ∧ bg_tokens t' = f64_sub full (f64_of_Z n)) ∧
  mt_count m' bg_throttle_bytes = fetch_add (mt_count m bg_throttle_bytes) n ∧
  d = (if f64_le (f64_of_Z 0) (bg_tokens t') then Some 0
       else from_secs_f64 (f64_div (f64_opp (bg_tokens t')) (bg_rate t'))).
Proof.
  intros Hn. unfold acquire_delay. pose proof (observe_fg_paced t now fg m) as [Hc Hnum Hr Ht].
  pose proof (observe_fg_bytes t now fg m) as Hm.
  destruct (observe_fg t now fg m) as [t1 m1]. cbn [fst snd] in *. specialize (Hnum Hn).
  cbn [bg_cfg bg_rate bg_tokens]. split_and!; [done | done | done | | | done].
  - exists (refill t1 now). split; [| done]. by apply f64_min_le.
  - unfold mt_add, mt_store. simpl. by rewrite Hm.
Qed.

Definition demo_throttle : BgThrottle :=
  (throttle_new {| max_bytes_per_sec := 1000; min_bytes_per_sec := 100; fg_busy_ops_per_sec := f64_of_Z 50 |}
     0 OpsMetrics_default).1.

Lemma acquire_delay_paces_witness :
  let r := acquire_delay demo_throttle 1500 1100000000 200 OpsMetrics_default in
  rate_bps r.1.2 = 500 ∧ r.1.1 = Some 2000000000 ∧ is_num (bg_rate r.1.2).
Proof.
  split; [vm_compute; reflexivity |]. split; [vm_compute; reflexivity |].
  pose proof (acquire_delay_paces demo_throttle 1500 1100000000 200 OpsMetrics_default (f64_of_Z_num 1000)) as H.
  destruct (acquire_delay _ _ _ _ _) as [[d t'] m']. exact (proj1 (proj2 H)).
Defined.

(** After an update to a ceiling of 200 bytes per second, a quiet window
    raises the rate back above it: the limits in use are the old ones. *)
Example update_keeps_the_old_limits :
  match update_config demo_throttle
    {| max_bytes_per_sec := 200; min_bytes_per_sec := 10; fg_busy_ops_per_sec := f64_of_Z 50 |} OpsMetrics_default with
  | Some (t, m) => rate_bps t = 200 ∧
      rate_bps (acquire_delay t 1 1100000000 0 m).1.2 = 300
  | None => False
  end.
Proof. vm_compute. by split. Qed.
