(* ===== verification/HealQueue.v ===== *)
(** * The priority queue of heal requests (crates/ozd-app/src/pool.rs)

    [HealQueue]: a binary heap of requests and a map from key to the priority
    that counts. An upgrade leaves the old request in the heap; [pop] skips
    requests that the map no longer backs. *)

From Stdlib Require Import ZArith Lia.
From stdpp Require Import base list gmap.
From S2P Require Import Prelude Domain.

(** ** Data *)

Inductive HealPriority := Low | Normal | High | Urgent.
#[global] Instance HealPriority_eq_dec : EqDecision HealPriority.
Proof. solve_decision. Defined.

Definition prio_rank (p : HealPriority) : Z :=
  match p with Low => 0 | Normal => 1 | High => 2 | Urgent => 3 end.

Record HealItem := { hi_prio : HealPriority; hi_seq : Z; hi_key : BlockKey }.

(** The higher priority is greater, and within a priority the earlier one. *)
Definition item_cmp (a b : HealItem) : comparison :=
  match (prio_rank (hi_prio a) ?= prio_rank (hi_prio b))%Z with
  | Eq => (hi_seq b ?= hi_seq a)%Z
  | c => c
  end.

Record HealQueue := {
  hq_heap : list HealItem;
  hq_dedup : gmap BlockKey HealPriority;
  hq_seq : Z;
}.
Definition HealQueue_default : HealQueue := {| hq_heap := []; hq_dedup := ∅; hq_seq := 0 |}.

Definition CAP : Z := 100000.

(** ** Operations *)

(** [Some(cur) if *cur >= prio] *)
Definition hq_dup (key : BlockKey) (prio : HealPriority) (q : HealQueue) : bool :=
  match hq_dedup q !! key with Some cur => (prio_rank prio <=? prio_rank cur)%Z | None => false end.

Definition hq_push (key : BlockKey) (prio : HealPriority) (q : HealQueue) : HealQueue :=
  if hq_dup key prio q then q
  else if (CAP <=? Z.of_nat (size (hq_dedup q)))%Z && bool_decide (hq_dedup q !! key = None) then q
  else
    let seq := wrap 64 (hq_seq q + 1) in
    {| hq_heap := {| hi_prio := prio; hi_seq := seq; hi_key := key |} :: hq_heap q;
       hq_dedup := <[key := prio]> (hq_dedup q);
       hq_seq := seq |}.

(** [BinaryHeap::pop]: the greatest item and the rest. *)
Fixpoint heap_pop (h : list HealItem) : option (HealItem * list HealItem) :=
  match h with
  | [] => None
  | x :: h =>
      match heap_pop h with
      | None => Some (x, [])
      | Some (y, r) => match item_cmp x y with Lt => Some (y, x :: r) | _ => Some (x, y :: r) end
      end
  end.

Definition set_heap (h : list HealItem) (q : HealQueue) : HealQueue :=
  {| hq_heap := h; hq_dedup := hq_dedup q; hq_seq := hq_seq q |}.

(** The loop of [pop]: every round takes an item out of the heap. *)
Fixpoint hq_pop_loop (n : nat) (q : HealQueue) : option (BlockKey * HealPriority) * HealQueue :=
  match n with
  | O => (None, q)
  | S n =>
      match heap_pop (hq_heap q) with
      | None => (None, q)
      | Some (item, h) =>
          if decide (hq_dedup q !! hi_key item = Some (hi_prio item)) then
            (Some (hi_key item, hi_prio item),
             {| hq_heap := h; hq_dedup := delete (hi_key item) (hq_dedup q); hq_seq := hq_seq q |})
          else hq_pop_loop n (set_heap h q)
      end
  end.

Definition hq_pop (q : HealQueue) : option (BlockKey * HealPriority) * HealQueue :=
  hq_pop_loop (S (length (hq_heap q))) q.

Definition hq_len (q : HealQueue) : nat := size (hq_dedup q).

(** ** Invariant *)

(** Every key that is waiting has its request in the heap, and the map keeps
    within its capacity. *)
Record hq_inv (q : HealQueue) : Prop := {
  hq_backed : ∀ k p, hq_dedup q !! k = Some p → ∃ i, i ∈ hq_heap q ∧ hi_key i = k ∧ hi_prio i = p;
  hq_cap : (Z.of_nat (size (hq_dedup q)) <= CAP)%Z;
}.

Lemma heap_pop_spec h :
  match heap_pop h with
  | None => h = []
  | Some (x, r) => h ≡ₚ x :: r ∧ ∀ y, y ∈ r → (prio_rank (hi_prio y) <= prio_rank (hi_prio x))%Z
  end.
Proof.
  induction h as [| x h IH]; simpl; [done |].
  destruct (heap_pop h) as [[y r] |].
  - destruct IH as [Hp Hle]. unfold item_cmp.
    destruct (Z.compare_spec (prio_rank (hi_prio x)) (prio_rank (hi_prio y))) as [He | Hl | Hg];
      [destruct (hi_seq y ?= hi_seq x)%Z | |].
    all: split;
      [ first [ apply perm_skip, Hp
              | (etransitivity; [apply perm_skip, Hp | apply perm_swap]) ]
      | intros z [-> | Hz]%elem_of_cons; [lia | specialize (Hle z Hz); lia]].
  - subst h. split; [done |]. intros y Hy. by apply not_elem_of_nil in Hy.
Qed.

Lemma hq_inv_default : hq_inv HealQueue_default.
Proof. split; [done | done]. Qed.

Lemma hq_push_inv k p q : hq_inv q → hq_inv (hq_push k p q).
Proof.
  intros HI. unfold hq_push. destruct (hq_dup k p q); [done |].
  destruct (_ && _) eqn:Hc; [done |]. destruct HI as [Hb Hs]. split; simpl.
  - intros k' p' H. destruct (decide (k = k')) as [<- | Hne].
    + rewrite lookup_insert_eq in H. injection H as <-. eexists. split; [left | done].
    + rewrite lookup_insert_ne in H by done. destruct (Hb k' p' H) as (i & ? & ? & ?). exists i. split; [by right | done].
  - rewrite map_size_insert. destruct (hq_dedup q !! k) eqn:Hk; [done |].
    apply andb_false_iff in Hc as [Hc | Hc].
    + apply Z.leb_gt in Hc. lia.
    + by apply bool_decide_eq_false in Hc.
Qed.

Lemma hq_backed_nonempty q : hq_inv q → hq_heap q = [] → hq_dedup q = ∅.
Proof.
  intros [Hb _] Hh. apply map_empty. intros k. destruct (hq_dedup q !! k) as [p |] eqn:Hk; [| done].
  destruct (Hb k p Hk) as (i & Hi & _). rewrite Hh in Hi. by apply not_elem_of_nil in Hi.
Qed.

Lemma hq_pop_loop_spec n q :
  hq_inv q → (length (hq_heap q) < n)%nat →
  let '(r, q') := hq_pop_loop n q in
  hq_inv q' ∧
  match r with
  | None => hq_dedup q = ∅ ∧ hq_dedup q' = ∅
  | Some (k, p) => hq_dedup q !! k = Some p ∧ hq_dedup q' = delete k (hq_dedup q) ∧
      ∀ k' p', hq_dedup q !! k' = Some p' → (prio_rank p' <= prio_rank p)%Z
  end.
Proof.
  revert q. induction n as [| n IH]; intros q HI Hn; [lia |]. simpl.
  pose proof (heap_pop_spec (hq_heap q)) as Hp. destruct (heap_pop (hq_heap q)) as [[x h] |].
  2: { pose proof (hq_backed_nonempty q HI Hp). done. }
  destruct Hp as [Hp Hle]. destruct (decide _) as [Hd | Hd].
  - split_and!; [| done | done |].
    + destruct HI as [Hb Hs]. split; simpl.
      * intros k p [Hne Hk]%lookup_delete_Some. destruct (Hb k p Hk) as (i & Hi & <- & <-).
        rewrite Hp in Hi. apply elem_of_cons in Hi as [-> | Hi]; [done | eauto].
      * rewrite map_size_delete, Hd. simpl. lia.
    + intros k p Hk. destruct (hq_backed q HI k p Hk) as (i & Hi & _ & <-).
      rewrite Hp in Hi. apply elem_of_cons in Hi as [-> | Hi]; [lia | by apply Hle].
  - apply Permutation_length in Hp as Hl. simpl in Hl.
    assert (hq_inv (set_heap h q)) as HI'.
    { destruct HI as [Hb Hs]. split; simpl; [| done].
      intros k p Hk. destruct (Hb k p Hk) as (i & Hi & <- & <-).
      rewrite Hp in Hi. apply elem_of_cons in Hi as [-> | Hi]; [done | eauto]. }
    specialize (IH (set_heap h q) HI' ltac:(simpl; lia)). exact IH.
Qed.

(** The heal queue hands out the most urgent request that is waiting,
    exactly once: [pop] returns a waiting key with its latest priority, no
    waiting key has a higher one, and afterwards that key alone is no longer
    waiting; it returns nothing only when nothing waits. *)
Theorem pop_is_most_urgent q r q' :
  hq_inv q → hq_pop q = (r, q') →
  hq_inv q' ∧
  match r with
  | None => hq_dedup q = ∅
  | Some (k, p) => hq_dedup q !! k = Some p ∧ hq_dedup q' = delete k (hq_dedup q) ∧
      ∀ k' p', hq_dedup q !! k' = Some p' → (prio_rank p' <= prio_rank p)%Z
  end.
Proof.
  intros HI Hpop. pose proof (hq_pop_loop_spec (S (length (hq_heap q))) q HI ltac:(lia)) as H.
  unfold hq_pop in Hpop. rewrite Hpop in H. destruct H as [HI' H]. split; [done |].
  destruct r as [[k p] |]; [done | by destruct H].
Qed.

(** A request is kept at the highest priority it was pushed with, other
    requests are not touched, and a new key is turned away only by a full
    queue. *)
Theorem push_keeps_the_highest k p q :
  hq_inv q →
  let q' := hq_push k p q in
  hq_inv q' ∧ (∀ k', k' ≠ k → hq_dedup q' !! k' = hq_dedup q !! k') ∧
  match hq_dedup q' !! k with
  | Some p' => (prio_rank p <= prio_rank p')%Z ∧ (p' = p ∨ hq_dedup q !! k = Some p')
  | None => hq_dedup q !! k = None ∧ Z.of_nat (hq_len q) = CAP
  end.
Proof.
  intros HI q'. split; [by apply hq_push_inv |]. unfold q', hq_push, hq_dup.
  destruct (hq_dedup q !! k) as [cur |] eqn:Hk.
  - destruct (Z.leb_spec (prio_rank p) (prio_rank cur)).
    + rewrite Hk. by split; [| split; [lia | right]].
    + rewrite bool_decide_eq_false_2, andb_false_r by done. simpl. split.
      * intros k' Hne. by rewrite lookup_insert_ne.
      * rewrite lookup_insert_eq. by split; [lia | left].
  - rewrite bool_decide_eq_true_2, andb_true_r by done.
    destruct (Z.leb_spec CAP (Z.of_nat (size (hq_dedup q)))).
    + rewrite Hk. split; [done |]. split; [done |]. pose proof (hq_cap q HI). unfold hq_len. lia.
    + simpl. split.
      * intros k' Hne. by rewrite lookup_insert_ne.
      * rewrite lookup_insert_eq. by split; [lia | left].
Qed.

(** ** A run: an upgraded request is handed out once, before the others *)

Definition hk (n : nat) : BlockKey := replicate n Byte.x61.
Definition demo_queue : HealQueue :=
  hq_push (hk 1) Urgent (hq_push (hk 3) High (hq_push (hk 2) Normal (hq_push (hk 1) Low HealQueue_default))).

Lemma demo_queue_inv : hq_inv demo_queue.
Proof. unfold demo_queue. repeat apply hq_push_inv. apply hq_inv_default. Qed.

Lemma pop_is_most_urgent_witness :
  (hq_pop demo_queue).1 = Some (hk 1, Urgent) ∧ hq_dedup (hq_pop demo_queue).2 !! hk 1 = None.
Proof.
  split; [vm_compute; reflexivity |].
  destruct (pop_is_most_urgent demo_queue (Some (hk 1, Urgent)) (hq_pop demo_queue).2 demo_queue_inv) as (_ & _ & H & _).
  - vm_compute. reflexivity.
  - rewrite H. apply lookup_delete_eq.
Defined.

Lemma push_keeps_the_highest_witness :
  hq_dedup demo_queue !! hk 3 = Some High ∧ hq_dedup (hq_push (hk 3) Low demo_queue) !! hk 3 = Some High ∧
  hq_dedup (hq_push (hk 3) Low demo_queue) !! hk 2 = hq_dedup demo_queue !! hk 2.
Proof.
  split; [vm_compute; reflexivity |]. split; [vm_compute; reflexivity |].
  pose proof (push_keeps_the_highest (hk 3) Low demo_queue demo_queue_inv) as H. cbv zeta in H.
  exact (proj1 (proj2 H) (hk 2) ltac:(discriminate)).
Defined.
