(* ===== verification/PoolState.v ===== *)
(** * The pool's state (crates/ozd-app/src/pool.rs)

    [Pool]: the shards with their latency meter, statuses, capacities and
    slow flags, the cached topology, the heal queue and the counters. Time
    and the order in which parallel legs answer are inputs: [p_clock] holds
    the next readings of the clock, [p_sched] the next scheduling choices. An
    index of a shard that does not exist panics in the code; here it is an
    error, which no placement policy that keeps its contract leads to. *)

From Stdlib Require Import ZArith Lia.
From stdpp Require Import base list strings.
From S2P Require Import Prelude F64 Domain Metrics Throttle HealQueue Latency DiskSlow Erasure Verified.
Open Scope Z_scope.

(** ** Configuration *)

(** Durations are nanoseconds. *)
Record PoolConfig := {
  replicas : nat;
  write_quorum : nat;
  free_space_cache_ttl : Z;
  speculative_retry_after : option Z;
  heal_parallelism : nat;
  heal_max_per_shard : nat;
  bg_throttle : BgThrottleConfig;
  pc_ec : option EcConfig;
  pc_outboard : option ObConfig;
  adaptive_hedge : bool;
  disk_slow : DiskSlowConfig;
}.
Definition PoolConfig_default : PoolConfig :=
  {| replicas := 2; write_quorum := 2; free_space_cache_ttl := 5 * 10 ^ 9;
     speculative_retry_after := Some (100 * 10 ^ 6); heal_parallelism := 4; heal_max_per_shard := 2;
     bg_throttle := BgThrottleConfig_default; pc_ec := None; pc_outboard := None;
     adaptive_hedge := true; disk_slow := DiskSlowConfig_default |}.

Abbreviation topology := (list (ShardId * Capacity * ShardStatus)%type).

Record TopoCache := { tc_at : Z; tc_topo : topology }.

(** What measures and times the operations, and no operation's result depends
    on but through the clock and the schedule: counters, the background
    budget, the latency histories, and the inputs to come. *)
Record meters := {
  m_metrics : OpsMetrics;
  m_bg : BgThrottle;
  m_read_lat : RollingP99;
  m_slow_mon : DiskSlowMonitor;
  m_clock : list Z;
  m_sched : list nat;
}.

Record pool (E : Type) := {
  p_cfg : PoolConfig;
  p_shards : list E;
  p_statuses : list ShardStatus;
  p_cap_overrides : list (option Capacity);
  p_slow_flags : list bool;
  p_topo : option TopoCache;
  p_mrf : HealQueue;
  p_shutting_down : bool;
  p_meters : meters;
}.
Arguments p_cfg {E} p : rename.
Arguments p_shards {E} p : rename.
Arguments p_statuses {E} p : rename.
Arguments p_cap_overrides {E} p : rename.
Arguments p_slow_flags {E} p : rename.
Arguments p_topo {E} p : rename.
Arguments p_mrf {E} p : rename.
Arguments p_shutting_down {E} p : rename.
Arguments p_meters {E} p : rename.

Section PoolState.
Context {E : Type} `{SE : !ShardEngine E} `{PP : !PlacementPolicy}.
Local Open Scope rust_scope.
Implicit Types (p : pool E).

Definition set_shards (l : list E) p : pool E :=
  {| p_cfg := p_cfg p; p_shards := l; p_statuses := p_statuses p; p_cap_overrides := p_cap_overrides p;
     p_slow_flags := p_slow_flags p; p_topo := p_topo p; p_mrf := p_mrf p;
     p_shutting_down := p_shutting_down p; p_meters := p_meters p |}.
Definition set_statuses (l : list ShardStatus) p : pool E :=
  {| p_cfg := p_cfg p; p_shards := p_shards p; p_statuses := l; p_cap_overrides := p_cap_overrides p;
     p_slow_flags := p_slow_flags p; p_topo := p_topo p; p_mrf := p_mrf p;
     p_shutting_down := p_shutting_down p; p_meters := p_meters p |}.
Definition set_cap_overrides (l : list (option Capacity)) p : pool E :=
  {| p_cfg := p_cfg p; p_shards := p_shards p; p_statuses := p_statuses p; p_cap_overrides := l;
     p_slow_flags := p_slow_flags p; p_topo := p_topo p; p_mrf := p_mrf p;
     p_shutting_down := p_shutting_down p; p_meters := p_meters p |}.
Definition set_slow_flags (l : list bool) p : pool E :=
  {| p_cfg := p_cfg p; p_shards := p_shards p; p_statuses := p_statuses p;
     p_cap_overrides := p_cap_overrides p; p_slow_flags := l; p_topo := p_topo p; p_mrf := p_mrf p;
     p_shutting_down := p_shutting_down p; p_meters := p_meters p |}.
Definition set_topo (t : option TopoCache) p : pool E :=
  {| p_cfg := p_cfg p; p_shards := p_shards p; p_statuses := p_statuses p;
     p_cap_overrides := p_cap_overrides p; p_slow_flags := p_slow_flags p; p_topo := t; p_mrf := p_mrf p;
     p_shutting_down := p_shutting_down p; p_meters := p_meters p |}.
Definition set_mrf (q : HealQueue) p : pool E :=
  {| p_cfg := p_cfg p; p_shards := p_shards p; p_statuses := p_statuses p;
     p_cap_overrides := p_cap_overrides p; p_slow_flags := p_slow_flags p; p_topo := p_topo p; p_mrf := q;
     p_shutting_down := p_shutting_down p; p_meters := p_meters p |}.
Definition set_shutting_down (b : bool) p : pool E :=
  {| p_cfg := p_cfg p; p_shards := p_shards p; p_statuses := p_statuses p;
     p_cap_overrides := p_cap_overrides p; p_slow_flags := p_slow_flags p; p_topo := p_topo p;
     p_mrf := p_mrf p; p_shutting_down := b; p_meters := p_meters p |}.
Definition set_meters (m : meters) p : pool E :=
  {| p_cfg := p_cfg p; p_shards := p_shards p; p_statuses := p_statuses p;
     p_cap_overrides := p_cap_overrides p; p_slow_flags := p_slow_flags p; p_topo := p_topo p;
     p_mrf := p_mrf p; p_shutting_down := p_shutting_down p; p_meters := m |}.

(** ** Meters *)

Definition meter {A} (f : meters → A * meters) : M (pool E) DomainError A := λ p,
  let '(a, m) := f (p_meters p) in (Ok a, set_meters m p).

Definition with_metrics (f : OpsMetrics → OpsMetrics) (m : meters) : meters :=
  {| m_metrics := f (m_metrics m); m_bg := m_bg m; m_read_lat := m_read_lat m;
     m_slow_mon := m_slow_mon m; m_clock := m_clock m; m_sched := m_sched m |}.
Definition count (f : OpsMetrics → OpsMetrics) : M (pool E) DomainError unit :=
  meter (λ m, (tt, with_metrics f m)).

(** [Instant::now()], in nanoseconds from the pool's creation. *)
Definition now : M (pool E) DomainError Z := meter (λ m,
  (hd 0 (m_clock m),
   {| m_metrics := m_metrics m; m_bg := m_bg m; m_read_lat := m_read_lat m; m_slow_mon := m_slow_mon m;
      m_clock := tl (m_clock m); m_sched := m_sched m |})).

(** One of [n] ways the scheduler may go. *)
Definition choose (n : nat) : M (pool E) DomainError nat := meter (λ m,
  (hd 0%nat (m_sched m) mod n,
   {| m_metrics := m_metrics m; m_bg := m_bg m; m_read_lat := m_read_lat m; m_slow_mon := m_slow_mon m;
      m_clock := m_clock m; m_sched := tl (m_sched m) |})%nat).

(** The order in which the elements of [l] arrive. *)
Fixpoint arrivals_loop {A} (n : nat) (l : list A) : M (pool E) DomainError (list A) :=
  match n with
  | O => mret l
  | S n =>
      let! i := choose (length l) in
      match l !! i with
      | Some a => let! rest := arrivals_loop n (take i l ++ drop (S i) l) in mret (a :: rest)
      | None => mret l
      end
  end.
Definition arrivals {A} (l : list A) : M (pool E) DomainError (list A) := arrivals_loop (length l) l.

(** [self.bg.acquire(n)]: the sleep is not modelled. *)
Definition bg_acquire (n : Z) : M (pool E) DomainError unit :=
  let! t := now in
  meter (λ m,
    let '(_, bg, mt) := acquire (m_bg m) n t (m_metrics m) in
    (tt, {| m_metrics := mt; m_bg := bg; m_read_lat := m_read_lat m; m_slow_mon := m_slow_mon m;
            m_clock := m_clock m; m_sched := m_sched m |})).

(** [self.read_lat.record(el)] and [self.read_lat.p99()] *)
Definition read_lat_record (el : Z) : M (pool E) DomainError unit :=
  let! t := now in
  meter (λ m, (tt,
    {| m_metrics := m_metrics m; m_bg := m_bg m; m_read_lat := record_at (m_read_lat m) (el / 1000) (t / 1000);
       m_slow_mon := m_slow_mon m; m_clock := m_clock m; m_sched := m_sched m |})).
Definition read_lat_p99 : M (pool E) DomainError (option Z) :=
  let! t := now in
  meter (λ m,
    let '(r, lat) := p99_at (m_read_lat m) (t / 1000) in
    (option_map (Z.mul 1000) r,
     {| m_metrics := m_metrics m; m_bg := m_bg m; m_read_lat := lat; m_slow_mon := m_slow_mon m;
        m_clock := m_clock m; m_sched := m_sched m |})).

(** ** Calls of a shard *)

Definition no_shard : DomainError := Io "index out of bounds".

Definition on_shard {A} (i : ShardId) (c : M E DomainError A) : M (pool E) DomainError A := λ p,
  match p_shards p !! i with
  | Some s => let '(r, s') := c s in (r, set_shards (<[i := s']> (p_shards p)) p)
  | None => (Err no_shard, p)
  end.
Definition look_shard {A} (i : ShardId) (f : E → DomainResult A) : M (pool E) DomainError A := λ p,
  match p_shards p !! i with
  | Some s => (f s, p)
  | None => (Err no_shard, p)
  end.

(** [MeteredShard]: the time of the call goes to the disk-slow monitor. *)
Definition metered {A} (i : ShardId) (c : M (pool E) DomainError A) : M (pool E) DomainError A :=
  let! t0 := now in
  match! c with! r =>
  let! t1 := now in
  do! meter (λ m, (tt,
    {| m_metrics := m_metrics m; m_bg := m_bg m; m_read_lat := m_read_lat m;
       m_slow_mon := slow_record (m_slow_mon m) i (sat_sub t1 t0 / 1000);
       m_clock := m_clock m; m_sched := m_sched m |}));
  mlift r.

Definition shard_put (i : ShardId) (key : BlockKey) (data : bytes) := metered i (on_shard i (se_put key data)).
Definition shard_put_meta (i : ShardId) (key : BlockKey) (data : bytes) (obj : option Z) :=
  metered i (on_shard i (se_put_meta key data obj)).
Definition shard_get (i : ShardId) (key : BlockKey) := metered i (look_shard i (λ s, se_get s key)).
Definition shard_has (i : ShardId) (key : BlockKey) := look_shard i (λ s, se_has s key).
Definition shard_delete (i : ShardId) (key : BlockKey) := on_shard i (se_delete key).
End PoolState.
