(* ===== verification/Pool.v ===== *)
(** * The pool's operations (crates/ozd-app/src/pool.rs)

    Topology and placement, writes with a quorum and handoff, reads with
    hedging and fallback, stat, delete, and the merged listing, for mirrored
    and for erasure-coded bodies. Parallel legs touch different shards; they
    run in the order in which their answers arrive. *)

From Stdlib Require Import ZArith Lia.
From stdpp Require Import base list gmap strings.
From S2P Require Import Prelude F64 Domain Metrics Throttle HealQueue Latency DiskSlow Piece Erasure Verified PoolState.
Open Scope Z_scope.

Section Pool.
Context {E : Type} `{SE : !ShardEngine E} `{PP : !PlacementPolicy} `{RS : !ReedSolomon} `{BO : !Bao}.
Local Open Scope rust_scope.
Implicit Types (p : pool E).
Local Abbreviation PM := (M (pool E) DomainError).

(** ** Statuses and topology *)

Definition set_shard_capacity (idx : nat) (cap : Capacity) : PM unit :=
  mmodify (λ p, set_cap_overrides (<[idx := Some cap]> (p_cap_overrides p)) p).

Definition set_shard_status (idx : nat) (st : ShardStatus) : PM unit :=
  mmodify (λ p, match p_statuses p !! idx with
                | Some cur => if decide (cur = st) then p
                              else set_topo None (set_statuses (<[idx := st]> (p_statuses p)) p)
                | None => p
                end).

Definition set_shard_slow (idx : nat) (slow : bool) : PM unit :=
  mmodify (λ p, match p_slow_flags p !! idx with
                | Some cur => if Bool.eqb cur slow then p
                              else set_topo None (set_slow_flags (<[idx := slow]> (p_slow_flags p)) p)
                | None => p
                end).

Definition shard_status p (idx : nat) : option ShardStatus := p_statuses p !! idx.
Definition shard_slow p (idx : nat) : bool := default false (p_slow_flags p !! idx).
Definition shard_count p : nat := length (p_shards p).
Definition disk_slow_verdicts p : list bool := verdicts (disk_slow (p_cfg p)) (m_slow_mon (p_meters p)).

(** A slow disk that is [Online] counts as [Suspect]. *)
Definition shown_status (st : ShardStatus) (slow : bool) : ShardStatus :=
  match st, slow with Online, true => Suspect | st, _ => st end.

Definition topo_entry p (i : nat) (s : E) : ShardId * Capacity * ShardStatus :=
  let cap := match mjoin (p_cap_overrides p !! i) with
             | Some c => c
             | None => match se_usage s with Ok c => c | Err _ => Capacity_default end
             end in
  (i, cap, shown_status (default Online (p_statuses p !! i)) (default false (p_slow_flags p !! i))).

Definition fresh_topology p : topology := imap (topo_entry p) (p_shards p).

(** The cached topology while it is young, else a new one. *)
Definition pool_topology : PM topology :=
  let! p := mget in
  let! fresh := match p_topo p with
    | Some c => let! t := now in
                mret (if sat_sub t (tc_at c) <? free_space_cache_ttl (p_cfg p) then Some (tc_topo c) else None)
    | None => mret None
    end in
  match fresh with
  | Some topo => mret topo
  | None =>
      let topo := fresh_topology p in
      let! t := now in
      do! mmodify (set_topo (Some {| tc_at := t; tc_topo := topo |}));
      mret topo
  end.

(** [ranking_for]: the first [n] shards for the key. *)
Definition ranking_for (key : BlockKey) (n : nat) : PM (list ShardId) :=
  let! topo := pool_topology in mret (pp_select key topo n).

Definition replicas_for (key : BlockKey) : PM (list ShardId) :=
  let! p := mget in ranking_for key (replicas (p_cfg p)).

Definition flush_all : PM unit :=
  let! p := mget in miter (λ i, on_shard i se_flush) (seq 0 (length (p_shards p))).

Definition shutdown : PM unit := mmodify (set_shutting_down true).
Definition is_shutting_down p : bool := p_shutting_down p.
Definition inflight_count p : Z :=
  wrap 64 (mt_count (m_metrics (p_meters p)) inflight_puts + mt_count (m_metrics (p_meters p)) inflight_gets).

(** ** Heal requests *)

(** [self.mrf.lock().push(key, prio)] *)
Definition mrf_push (key : BlockKey) (prio : HealPriority) : PM unit :=
  mmodify (λ p, set_mrf (hq_push key prio (p_mrf p)) p).
Definition mrf_len p : nat := hq_len (p_mrf p).
Definition enqueue_heal (key : BlockKey) (prio : HealPriority) : PM unit :=
  do! count (mt_add mrf_enqueued 1); mrf_push key prio.

(** The shards of a pool, by index, that are not among [ids]. *)
Definition others p (ids : list ShardId) : list ShardId :=
  filter (λ i, i ∉ ids) (seq 0 (length (p_shards p))).

(** ** Writes *)

(** The outcome of the legs: successes, failed legs, the last error. *)
Record legs (A : Type) := { lg_ok : nat; lg_failed : list A; lg_err : option DomainError }.
Arguments lg_ok {A} l : rename.
Arguments lg_failed {A} l : rename.
Arguments lg_err {A} l : rename.

(** The answer of one leg. *)
Definition leg_step {A} (f : A → PM unit) (lg : legs A) (a : A) : PM (legs A) :=
  match! f a with! r =>
  mret (match r with
        | Ok _ => {| lg_ok := S (lg_ok lg); lg_failed := lg_failed lg; lg_err := lg_err lg |}
        | Err e => {| lg_ok := lg_ok lg; lg_failed := lg_failed lg ++ [a]; lg_err := Some e |}
        end).

(** Run [f] on every leg; the answers are taken in the order of arrival. *)
Definition run_legs {A} (f : A → PM unit) (l : list A) : PM (legs A) :=
  let! l := arrivals l in
  mfold (leg_step f) {| lg_ok := 0; lg_failed := []; lg_err := None |} l.

(** One failed leg: the next spare shard that takes the write. *)
Fixpoint handoff_one (write : ShardId → PM unit) (spares : list ShardId) (err : option DomainError)
    : PM (bool * list ShardId * option DomainError) :=
  match spares with
  | [] => mret (false, [], err)
  | sp :: spares =>
      match! write sp with! r =>
      match r with
      | Ok _ => do! count (mt_add handoff_writes 1); mret (true, spares, err)
      | Err e => handoff_one write spares (Some e)
      end
  end.

(** As many handoffs as legs failed, until the spares run out. *)
Fixpoint handoff (n : nat) (write : ShardId → PM unit) (spares : list ShardId) (ok : nat)
    (err : option DomainError) : PM (nat * option DomainError) :=
  match n with
  | O => mret (ok, err)
  | S n =>
      let! r := handoff_one write spares err in
      let '(placed, spares, err) := r in
      if placed then handoff n write spares (S ok) err else mret (ok, err)
  end.

Definition put_mirror (key : BlockKey) (data : bytes) : PM unit :=
  let! p := mget in
  let W := write_quorum (p_cfg p) in
  let! reps := replicas_for key in
  if bool_decide (reps = []) then mthrow (QuorumNotReached 0 W)
  else
    let! lg := run_legs (λ sid, shard_put sid key data) reps in
    let! r :=
      (if bool_decide (lg_failed lg = []) then mret (lg_ok lg, lg_err lg)
       else
         let! topo := pool_topology in
         let spares := filter (λ s, s ∉ reps) (pp_select key topo (length (p_shards p))) in
         let! r := handoff (length (lg_failed lg)) (λ sp, shard_put sp key data) spares (lg_ok lg) (lg_err lg) in
         do! enqueue_heal key Normal;
         mret r) in
    let '(ok, err) := r in
    if (Nat.min W (length reps) <=? ok)%nat then mret tt
    else mthrow (default (QuorumNotReached ok W) err).

(** Pieces on the first [k + m] shards; a failed piece goes to a spare. *)
Definition ec_handoff (key : BlockKey) (pieces : list bytes) (obj : Z)
    (acc : list ShardId * nat * option DomainError) (i : nat)
    : PM (list ShardId * nat * option DomainError) :=
  let '(spares, ok, err) := acc in
  let! r := handoff_one (λ sp, shard_put_meta sp key (nth i pieces []) (Some obj)) spares err in
  let '(placed, spares, err) := r in
  mret (spares, if (placed : bool) then S ok else ok, err).

Definition put_ec (key : BlockKey) (data : bytes) (ec : EcConfig) : PM unit :=
  let! targets := ranking_for key (ec_total ec) in
  if (length targets <? ec_write_quorum ec)%nat then mthrow (QuorumNotReached 0 (ec_write_quorum ec))
  else
    let! pieces := mlift (ec_encode data ec) in
    let obj := blen data in
    let! lg := run_legs (λ leg, shard_put_meta leg.2 key (nth leg.1 pieces []) (Some obj)) (imap pair targets) in
    let! r :=
      (if bool_decide (lg_failed lg = []) then mret (lg_ok lg, lg_err lg)
       else
         let! p := mget in
         let! ranking := ranking_for key (length (p_shards p)) in
         let spares := filter (λ s, s ∉ targets) ranking in
         let! r := mfold (ec_handoff key pieces obj) (spares, lg_ok lg, lg_err lg) (map fst (lg_failed lg)) in
         do! enqueue_heal key Normal;
         mret (r.1.2, r.2)) in
    do! count (mt_add ec_puts 1);
    let '(ok, err) := r in
    if (ec_write_quorum ec <=? ok)%nat then mret tt
    else mthrow (default (QuorumNotReached ok (ec_write_quorum ec)) err).

Definition put_body (key : BlockKey) (data : bytes) : PM unit :=
  let! p := mget in
  match pc_ec (p_cfg p) with
  | Some ec => if ec_min_size ec <=? blen data then put_ec key data ec else put_mirror key data
  | None => put_mirror key data
  end.

(** A large body also gets an outboard, after it is written; a failure to
    write that is not one of the put. *)
Definition put_inner (key : BlockKey) (data : bytes) : PM unit :=
  let! p := mget in
  match pc_outboard (p_cfg p) with
  | Some ob =>
      if (ob_min_size ob <=? blen data) && negb (is_ob_key key) then
        do! put_body key data;
        match! put_body (ob_key key) (make_outboard data) with! _ => mret tt
      else put_body key data
  | None => put_body key data
  end.

Definition pool_put (key : BlockKey) (data : bytes) : PM unit :=
  let! p := mget in
  if is_shutting_down p then mthrow Shutdown
  else
    let! t0 := now in
    do! count (mt_add inflight_puts 1);
    match! put_inner key data with! r =>
    do! count (mt_sub inflight_puts 1);
    let! t1 := now in
    let us := sat_sub t1 t0 / 1000 in
    do! count (mt_add put_micros us);
    do! count (mt_observe_put us);
    do! count (match r with
               | Ok _ => λ m, mt_add bytes_written (blen data) (mt_add puts 1 m)
               | Err _ => mt_add put_errors 1
               end);
    mlift r.

(** ** Reads *)

Definition HEDGE_MIN : Z := 10 * 10 ^ 6.
Definition HEDGE_MAX : Z := 2000 * 10 ^ 6.

Definition hedge_threshold : PM (option Z) :=
  let! p := mget in
  let fixed := speculative_retry_after (p_cfg p) in
  let! chosen :=
    (if adaptive_hedge (p_cfg p) then
       let! q99 := read_lat_p99 in
       mret (match q99 with Some t => Some (Z.min HEDGE_MAX (Z.max HEDGE_MIN t)) | None => fixed end)
     else mret fixed) in
  do! count (mt_store hedge_threshold_ms (match chosen with Some d => d / 10 ^ 6 | None => 0 end));
  mret chosen.

(** A read over several sources ends with a body, or with the last error that
    is not [NotFound]. *)
Definition note_err (e last : DomainError) : DomainError := match e with NotFound => last | _ => e end.

Fixpoint get_seq (key : BlockKey) (ids : list ShardId) (last : DomainError) : PM (option bytes * DomainError) :=
  match ids with
  | [] => mret (None, last)
  | i :: ids =>
      match! shard_get i key with! r =>
      match r with
      | Ok v => mret (Some v, last)
      | Err e => get_seq key ids (note_err e last)
      end
  end.

(** The first body among the shards, whatever the errors. *)
Fixpoint get_any (key : BlockKey) (ids : list ShardId) : PM (option bytes) :=
  match ids with
  | [] => mret None
  | i :: ids => match! shard_get i key with! r =>
                match r with Ok v => mret (Some v) | Err _ => get_any key ids end
  end.

(** The first success among the answers that arrive. *)
Fixpoint first_answer (rs : list (DomainResult bytes)) (last : DomainError) : option bytes * DomainError :=
  match rs with
  | [] => (None, last)
  | Ok v :: _ => (Some v, last)
  | Err e :: rs => first_answer rs (note_err e last)
  end.

(** The hedged start: the read leg in time, or both legs in either order.
    Returns the body, the last error and the number of legs tried. *)
Definition get_hedged (key : BlockKey) (r0 r1 : ShardId) (last : DomainError)
    : PM (option bytes * DomainError * nat) :=
  let! late := choose 2 in
  match! shard_get r0 key with! a0 =>
  if (late =? 0)%nat then
    let '(v, last) := first_answer [a0] last in mret (v, last, 1%nat)
  else
    do! count (mt_add hedged_reads 1);
    match! shard_get r1 key with! a1 =>
    let! rs := arrivals [a0; a1] in
    let '(v, last) := first_answer rs last in mret (v, last, 2%nat).

Definition get_mirror (key : BlockKey) : PM bytes :=
  let! reps := replicas_for key in
  let! hedge := hedge_threshold in
  let! r := match hedge, reps with
            | Some _, r0 :: r1 :: _ => get_hedged key r0 r1 NotFound
            | _, _ => mret (None, NotFound, 0%nat)
            end in
  let '(v, last, tried) := r in
  match v with
  | Some v => mret v
  | None =>
      let! r := get_seq key (drop tried reps) last in
      match r with
      | (Some v, _) => mret v
      | (None, last) =>
          let! p := mget in
          let! v := get_any key (others p reps) in
          match v with Some v => mret v | None => mthrow last end
      end
  end.

(** ** Reads of erasure-coded bodies *)

(** Put a piece into its slot, unless that is taken or does not exist. *)
Definition fill_slot (total : nat) (slots : list (option bytes)) (h : PieceHeader) (b : bytes) : list (option bytes) :=
  let idx := Z.to_nat (ph_piece_idx h) in
  match slots !! idx with
  | Some None => if (idx <? total)%nat then <[idx := Some b]> slots else slots
  | _ => slots
  end.

(** [read_ranks]: pieces from the shards at these ranks, in arrival order. *)
Definition read_ranks (key : BlockKey) (targets : list ShardId) (ranks : list nat)
    (slots : list (option bytes)) : PM (list (option bytes)) :=
  let! ids := arrivals (omap (λ r, targets !! r) ranks) in
  mfold (λ slots i,
    match! shard_get i key with! r =>
    mret (match r with
          | Ok b => match parse_piece_header b with
                    | Some h => fill_slot (length slots) slots h b
                    | None => slots
                    end
          | Err _ => slots
          end)) slots ids.

(** Pieces from the shards that are no targets. *)
Definition scan_strays (key : BlockKey) (targets : list ShardId) (total : nat)
    (slots : list (option bytes)) : PM (list (option bytes)) :=
  let! p := mget in
  mfold (λ slots i,
    match! shard_get i key with! r =>
    mret (match r with
          | Ok b => match parse_piece_header b with
                    | Some h => fill_slot total slots h b
                    | None => slots
                    end
          | Err _ => slots
          end)) slots (others p targets).

(** The ranks of [lo .. lo + n) whose slot is empty and that were not probed. *)
Definition want_ranks (lo n probe : nat) (slots : list (option bytes)) : list nat :=
  filter (λ r, r ≠ probe ∧ slots !! r = Some None) (seq lo n).

Definition gather_ec (key : BlockKey) (targets : list ShardId) (probe : nat) (first : bytes) (h : PieceHeader)
    : PM bytes :=
  let k := Z.to_nat (ph_k h) in
  let m := Z.to_nat (ph_m h) in
  let slots := <[Z.to_nat (ph_piece_idx h) := Some first]> (replicate (k + m) None) in
  let! slots := read_ranks key targets (want_ranks 0 k probe slots) slots in
  if forallb (λ s, bool_decide (is_Some s)) (take k slots) then mlift (ec_decode slots k m)
  else
    let! slots := read_ranks key targets (want_ranks k m probe slots) slots in
    let! slots := (if (have slots <? k)%nat then scan_strays key targets (k + m) slots else mret slots) in
    do! count (mt_add ec_reconstructs 1);
    mlift (ec_decode slots k m).

(** The probe by rank: the first body or piece that is there. *)
Fixpoint probe_ranks (key : BlockKey) (rank : nat) (ids : list ShardId) (last : DomainError)
    : PM (option (nat * bytes) * DomainError) :=
  match ids with
  | [] => mret (None, last)
  | i :: ids =>
      match! shard_get i key with! r =>
      match r with
      | Ok b => mret (Some (rank, b), last)
      | Err e => probe_ranks key (S rank) ids (note_err e last)
      end
  end.

(** The scan of the other shards: a plain body, or the pieces found and the
    last header. A set of another size starts the slots anew. *)
Fixpoint scan_others (key : BlockKey) (ids : list ShardId) (slots : list (option bytes)) (hdr : option PieceHeader)
    : PM (bytes + (list (option bytes) * option PieceHeader)) :=
  match ids with
  | [] => mret (inr (slots, hdr))
  | i :: ids =>
      match! shard_get i key with! r =>
      match r with
      | Ok b =>
          match parse_piece_header b with
          | None => mret (inl b)
          | Some h =>
              let t := Z.to_nat (wrap 8 (ph_k h + ph_m h)) in
              let slots := if (length slots =? t)%nat then slots else replicate t None in
              scan_others key ids (fill_slot t slots h b) (Some h)
          end
      | Err _ => scan_others key ids slots hdr
      end
  end.

Definition get_ec_aware (key : BlockKey) (ec : EcConfig) : PM bytes :=
  let! p := mget in
  let! targets := ranking_for key (Nat.max (ec_total ec) (replicas (p_cfg p))) in
  let! r := probe_ranks key 0 targets NotFound in
  match r with
  | (Some (rank, b), _) =>
      match parse_piece_header b with
      | None => mret b
      | Some h => gather_ec key targets rank b h
      end
  | (None, last) =>
      let! p := mget in
      let! r := scan_others key (others p targets) [] None in
      match r with
      | inl b => mret b
      | inr (slots, Some h) =>
          if (Z.to_nat (ph_k h) <=? have slots)%nat then
            do! count (mt_add ec_reconstructs 1);
            mlift (ec_decode slots (Z.to_nat (ph_k h)) (Z.to_nat (ph_m h)))
          else mthrow last
      | inr (_, None) => mthrow last
      end
  end.

Definition get_inner (key : BlockKey) : PM bytes :=
  let! p := mget in
  match pc_ec (p_cfg p) with
  | Some ec => get_ec_aware key ec
  | None => get_mirror key
  end.

Definition pool_get (key : BlockKey) : PM bytes :=
  let! t0 := now in
  do! count (mt_add inflight_gets 1);
  match! get_inner key with! r =>
  do! count (mt_sub inflight_gets 1);
  let! t1 := now in
  let el := sat_sub t1 t0 in
  do! count (mt_add get_micros (el / 1000));
  do! count (mt_observe_get (el / 1000));
  do! match r with
      | Ok _ => do! read_lat_record el; count (mt_add gets 1)
      | Err NotFound => count (mt_add get_not_found 1)
      | Err _ => count (mt_add get_errors 1)
      end;
  mlift r.

(** ** stat, has, delete, list *)

Definition shard_stat (i : ShardId) (key : BlockKey) := look_shard (E := E) i (λ s, se_stat s key).
Definition shard_stat_obj (i : ShardId) (key : BlockKey) := look_shard (E := E) i (λ s, se_stat_obj s key).

(** The first answer that is not an error. *)
Fixpoint first_ok {A} (f : ShardId → PM A) (ids : list ShardId) : PM A :=
  match ids with
  | [] => mthrow NotFound
  | i :: ids => match! f i with! r => match r with Ok a => mret a | Err _ => first_ok f ids end
  end.

Definition pool_stat (key : BlockKey) : PM Z :=
  let! p := mget in
  match pc_ec (p_cfg p) with
  | Some _ =>
      let! targets := ranking_for key (length (p_shards p)) in
      first_ok (λ i, let! r := shard_stat_obj i key in mret (default r.1 r.2)) targets
  | None =>
      let! reps := replicas_for key in
      let! p := mget in
      first_ok (λ i, shard_stat i key) (reps ++ others p reps)
  end.

Fixpoint any_has (key : BlockKey) (ids : list ShardId) : PM bool :=
  match ids with
  | [] => mret false
  | i :: ids => let! h := shard_has i key in if (h : bool) then mret true else any_has key ids
  end.

Definition pool_has (key : BlockKey) : PM bool :=
  let! reps := replicas_for key in
  let! p := mget in
  any_has key (reps ++ others p reps).

(** [let _ = s.delete(key)] on every shard. *)
Definition delete_all (key : BlockKey) : PM unit :=
  let! p := mget in
  miter (λ i, match! shard_delete i key with! _ => mret tt) (seq 0 (length (p_shards p))).

Definition pool_delete (key : BlockKey) : PM unit :=
  let! p := mget in
  do! delete_all key;
  match pc_outboard (p_cfg p) with
  | Some _ => if is_ob_key key then mret tt else delete_all (ob_key key)
  | None => mret tt
  end.

(** [merged.entry(k).or_insert(sz)]: a map in key order. *)
Fixpoint or_insert (k : BlockKey) (sz : Z) (l : list (BlockKey * Z)) : list (BlockKey * Z) :=
  match l with
  | [] => [(k, sz)]
  | e :: l => match bytes_cmp k e.1 with
              | Lt => (k, sz) :: e :: l
              | Eq => e :: l
              | Gt => e :: or_insert k sz l
              end
  end.

Fixpoint list_shards (shards : list E) (prefix : bytes) (after : option BlockKey) (limit : nat)
    (merged : list (BlockKey * Z)) : DomainResult (list (BlockKey * Z)) :=
  match shards with
  | [] => Ok merged
  | s :: shards =>
      match se_list s prefix after limit with
      | Err e => Err e
      | Ok page => list_shards shards prefix after limit (foldl (λ m e, or_insert e.1 e.2 m) merged page)
      end
  end.

Definition pool_list p (prefix : bytes) (after : option BlockKey) (limit : nat)
    : DomainResult (list (BlockKey * Z)) :=
  match list_shards (p_shards p) prefix after limit [] with
  | Ok merged => Ok (take limit merged)
  | Err e => Err e
  end.
End Pool.

Arguments lg_ok {A} l : rename.
Arguments lg_failed {A} l : rename.
Arguments lg_err {A} l : rename.
