(* ===== verification/PoolFacts.v ===== *)
(** * Facts about the pool's steps

    What the clock, the counters, the cached topology and the calls of a
    shard leave as it was; the state in the middle of a write over several
    shards. *)

From Stdlib Require Import ZArith Lia.
From stdpp Require Import base list gmap strings.
From S2P Require Import Prelude Domain Metrics Throttle HealQueue Latency DiskSlow Piece Erasure Verified PoolState Pool.

Section PoolFacts.
Context {E : Type} `{SE : !ShardEngine E} `{PP : !PlacementPolicy} `{PPS : !PlacementSpec}
  `{RS : !ReedSolomon} `{BO : !Bao}.
Implicit Types (p : pool E).

(** ** What stays *)

(** All but the topology cache and the meters. *)
Record alike p p' : Prop := {
  al_cfg : p_cfg p' = p_cfg p;
  al_shards : p_shards p' = p_shards p;
  al_statuses : p_statuses p' = p_statuses p;
  al_caps : p_cap_overrides p' = p_cap_overrides p;
  al_slow : p_slow_flags p' = p_slow_flags p;
  al_mrf : p_mrf p' = p_mrf p;
  al_down : p_shutting_down p' = p_shutting_down p;
}.

#[global] Instance alike_preorder : PreOrder alike.
Proof.
  split; [by intros p |]. intros p1 p2 p3 [] []. split; congruence.
Qed.

(** The cached topology names every shard once. *)
Definition pool_wf p : Prop :=
  ∀ c, p_topo p = Some c → map (λ e, e.1.1) (tc_topo c) = seq 0 (length (p_shards p)).

(** The topology in use is [t] and stays it as long as the clock runs on: the
    cached one, too young to expire. *)
Definition steady (t : topology) p : Prop :=
  ∃ c, p_topo p = Some c ∧ tc_topo c = t ∧
    Forall (λ n, (sat_sub n (tc_at c) < free_space_cache_ttl (p_cfg p))%Z) (0%Z :: m_clock (p_meters p)).

(** A topology that the pool may go by: the one it has cached, or the one its
    shards show now. *)
Definition in_use p (t : topology) : Prop :=
  t = fresh_topology p ∨ ∃ c, p_topo p = Some c ∧ tc_topo c = t.

Lemma alike_fresh p p' : alike p p' → fresh_topology p' = fresh_topology p.
Proof.
  intros [_ Hs Hst Hc Hf _ _]. unfold fresh_topology. rewrite Hs. apply imap_ext. intros i s _. unfold topo_entry.
  by rewrite Hst, Hc, Hf.
Qed.

(** Everything a step that is no write keeps; it puts no topology to use but
    that of the pool. *)
Definition still p p' : Prop :=
  alike p p' ∧ (pool_wf p → pool_wf p') ∧ (∀ t, steady t p → steady t p') ∧ ∀ t, in_use p' t → in_use p t.

#[global] Instance still_preorder : PreOrder still.
Proof.
  split; [by intros p |]. intros p1 p2 p3 (A1 & W1 & T1 & U1) (A2 & W2 & T2 & U2). split; [by etransitivity | auto].
Qed.

Lemma still_meters p m : m_clock m `suffix_of` m_clock (p_meters p) → still p (set_meters m p).
Proof.
  intros [l Hl]. split; [by split |]. split; [done |]. split; [| done]. intros t (c & Hc & Ht & Hall).
  exists c. split_and!; [done | done |]. simpl in *. rewrite Hl in Hall.
  apply Forall_cons in Hall as [H0 Hall]. apply Forall_app in Hall as [_ Hall]. by constructor.
Qed.

Lemma still_shards p p' : still p p' → p_shards p' = p_shards p.
Proof. by intros [[] _]. Qed.
Lemma still_cfg p p' : still p p' → p_cfg p' = p_cfg p.
Proof. by intros [[] _]. Qed.
Lemma still_mrf p p' : still p p' → p_mrf p' = p_mrf p.
Proof. by intros [[] _]. Qed.
Lemma still_wf p p' : still p p' → pool_wf p → pool_wf p'.
Proof. by intros (_ & ? & _). Qed.
Lemma still_steady p p' t : still p p' → steady t p → steady t p'.
Proof. intros (_ & _ & H & _). apply H. Qed.
Lemma still_in_use p p' t : still p p' → in_use p' t → in_use p t.
Proof. intros (_ & _ & _ & H). apply H. Qed.

(** [c] always succeeds, with [P], and is no write. *)
Definition calm_call {A} (c : M (pool E) DomainError A) (P : pool E → A → Prop) : Prop :=
  ∀ p, wp c (λ r p', ∃ a, r = Ok a ∧ P p a ∧ still p p') p.

Lemma calm_ret {A} (a : A) (P : pool E → A → Prop) : (∀ p, P p a) → calm_call (mret a) P.
Proof. intros HP p. apply wp_ret. by exists a. Qed.

Lemma calm_meter {A} (f : meters → A * meters) :
  (∀ m, m_clock (f m).2 `suffix_of` m_clock m) → calm_call (meter f) (λ _ _, True).
Proof.
  intros Hf p. unfold wp, meter. specialize (Hf (p_meters p)). destruct (f (p_meters p)) as [a m]. simpl in *.
  exists a. split; [done |]. split; [done | by apply still_meters].
Qed.

Lemma tl_suffix {A} (l : list A) : tl l `suffix_of` l.
Proof. destruct l as [| a l]; [done | by exists [a]]. Qed.

Lemma calm_bind {A B} (c : M (pool E) DomainError A) (k : A → M (pool E) DomainError B) P Q :
  calm_call c P → (∀ a, calm_call (k a) (λ p b, ∀ p0, still p0 p → P p0 a → Q p0 b)) →
  calm_call (mthen c k) Q.
Proof.
  intros Hc Hk p. apply wp_bind. eapply wp_mono; [apply Hc |].
  intros r p1 (a & -> & HP & S1). eapply wp_mono; [apply Hk |].
  intros r p2 (b & -> & HQ & S2). exists b. split; [done |]. split; [by apply HQ | by etransitivity].
Qed.

Lemma wp_calm {A} (c : M (pool E) DomainError A) P (Q : result DomainError A → pool E → Prop) p :
  calm_call c P → (∀ a p', P p a → still p p' → Q (Ok a) p') → wp c Q p.
Proof. intros Hc HQ. eapply wp_mono; [apply Hc |]. intros r p' (a & -> & HP & S). by apply HQ. Qed.

Lemma calm_mono {A} (c : M (pool E) DomainError A) (P Q : pool E → A → Prop) :
  calm_call c P → (∀ p a, P p a → Q p a) → calm_call c Q.
Proof.
  intros Hc HPQ p. eapply wp_mono; [apply Hc |]. intros r p' (a & -> & HP & S). exists a. auto.
Qed.

Lemma calm_now : calm_call now (λ _ _, True).
Proof. apply calm_meter. intros m. apply tl_suffix. Qed.
Lemma calm_count f : calm_call (count f) (λ _ _, True).
Proof. by apply calm_meter. Qed.
Lemma calm_choose n : calm_call (choose n) (λ _ _, True).
Proof. by apply calm_meter. Qed.

Lemma calm_bg_acquire n : calm_call (bg_acquire n) (λ _ _, True).
Proof.
  eapply calm_bind; [apply calm_now |]. intros t. eapply calm_mono; [apply calm_meter | done].
  intros m. by destruct (acquire _ _ _ _) as [[? ?] ?].
Qed.
Lemma calm_read_lat_record n : calm_call (read_lat_record n) (λ _ _, True).
Proof. eapply calm_bind; [apply calm_now |]. intros t. eapply calm_mono; [by apply calm_meter | done]. Qed.
Lemma calm_read_lat_p99 : calm_call read_lat_p99 (λ _ _, True).
Proof.
  eapply calm_bind; [apply calm_now |]. intros t. eapply calm_mono; [apply calm_meter | done].
  intros m. by destruct (p99_at _ _).
Qed.

Lemma calm_arrivals_loop {A} n (l : list A) : calm_call (arrivals_loop n l) (λ _ l', l' ≡ₚ l).
Proof.
  revert l. induction n as [| n IH]; intros l; simpl; [by apply calm_ret |].
  eapply calm_bind; [apply calm_choose |]. intros i. destruct (l !! i) as [a |] eqn:Ha.
  - eapply calm_bind; [apply IH |]. intros rest. apply calm_ret. intros p p0 _ Hr p1 _ _.
    etransitivity; [apply perm_skip, Hr |].
    rewrite <-(take_drop_middle l i a Ha) at 3. apply Permutation_middle.
  - apply calm_ret. by intros.
Qed.
Lemma calm_arrivals {A} (l : list A) : calm_call (arrivals l) (λ _ l', l' ≡ₚ l).
Proof. apply calm_arrivals_loop. Qed.

(** ** Topology and placement *)

Lemma fresh_topology_ids p : map (λ e, e.1.1) (fresh_topology p) = seq 0 (length (p_shards p)).
Proof.
  unfold fresh_topology. apply list_eq. intros i.
  change (map (λ e, e.1.1) ?l) with ((λ e, e.1.1) <$> l). rewrite list_lookup_fmap, list_lookup_imap.
  destruct (decide (i < length (p_shards p))%nat) as [Hi | Hi].
  - destruct (lookup_lt_is_Some_2 _ _ Hi) as [s ->]. simpl. by rewrite lookup_seq_lt.
  - rewrite (proj2 (lookup_ge_None (p_shards p) i)) by lia. by rewrite lookup_seq_ge by lia.
Qed.

(** The cached topology while it is young. *)
Lemma wp_cached p (Q : result DomainError (option topology) → pool E → Prop) :
  pool_wf p →
  (∀ o p', still p p' → (∀ t, o = Some t → in_use p t ∧ map (λ e, e.1.1) t = seq 0 (length (p_shards p))) →
     (∀ t, steady t p → o = Some t) → Q (Ok o) p') →
  wp (match p_topo p with
      | Some c => mthen now (λ t, mret (if (sat_sub t (tc_at c) <? free_space_cache_ttl (p_cfg p))%Z
                                        then Some (tc_topo c) else None))
      | None => mret None
      end) Q p.
Proof.
  intros Hwf HQ. destruct (p_topo p) as [c |] eqn:Hc.
  - wp_step. unfold wp, now, meter. simpl. apply HQ.
    + apply still_meters, tl_suffix.
    + intros t. destruct (_ <? _)%Z; [| done]. intros [= <-]. split; [right; by exists c | by apply Hwf].
    + intros t (c' & Hc' & <- & Hall). rewrite Hc in Hc'. injection Hc' as <-.
      rewrite (proj2 (Z.ltb_lt _ _)); [done |]. apply Forall_cons in Hall as [H0 Hall].
      destruct (m_clock (p_meters p)); [done |]. by apply Forall_cons in Hall as [? _].
  - apply wp_ret. apply HQ; [done | done |]. intros t (c & Hc' & _). congruence.
Qed.

(** The topology in use names every shard once. *)
Lemma wp_topology p (Q : result DomainError topology → pool E → Prop) :
  pool_wf p →
  (∀ t p', in_use p t → map (λ e, e.1.1) t = seq 0 (length (p_shards p)) → still p p' →
     (∀ t0, steady t0 p → t = t0) → Q (Ok t) p') →
  wp pool_topology Q p.
Proof.
  intros Hwf HQ. unfold pool_topology. do 3 wp_step. apply wp_cached; [done |]. intros [t |] p1 S1 Ht Hst.
  - apply wp_ret. destruct (Ht t eq_refl) as [Hu Hn]. apply HQ; [done | done | done |]. intros t0 H0. by injection (Hst t0 H0).
  - wp_step. eapply wp_calm; [apply calm_now |]. intros t p2 _ S2. do 3 wp_step.
    assert (alike p p2) as A by (etransitivity; [apply S1 | apply S2]).
    apply HQ; [by left | apply fresh_topology_ids | | intros t0 H0; by specialize (Hst t0 H0)].
    split; [by destruct A; split |]. split; [| split].
    + intros _ c. simpl. intros [= <-]. simpl. by rewrite fresh_topology_ids, (al_shards _ _ A).
    + intros t0 H0. by specialize (Hst t0 H0).
    + intros t0 [-> | (c & [= <-] & <-)]; left; [| done].
      change (fresh_topology (set_topo ?c p2)) with (fresh_topology p2). by apply alike_fresh.
Qed.

Lemma calm_topology p :
  pool_wf p →
  wp pool_topology (λ r p', ∃ t, r = Ok t ∧ map (λ e, e.1.1) t = seq 0 (length (p_shards p)) ∧ still p p') p.
Proof. intros Hwf. apply wp_topology; [done |]. eauto. Qed.

(** Targets: different shards that exist. *)
Definition targets_ok p (ids : list ShardId) : Prop :=
  NoDup ids ∧ ∀ i, i ∈ ids → (i < length (p_shards p))%nat.

Lemma select_targets p key t n :
  map (λ e, e.1.1) t = seq 0 (length (p_shards p)) → targets_ok p (pp_select key t n).
Proof.
  intros Ht. split.
  - apply pp_nodup. rewrite Ht. apply NoDup_seq.
  - intros i Hi. destruct (pp_alive _ _ _ _ Hi) as (cap & st & Hin & _).
    assert (i ∈ map (λ e : nat * Capacity * ShardStatus, e.1.1) t) as Hi'.
    { apply list_elem_of_fmap. by exists (i, cap, st). }
    rewrite Ht in Hi'. apply elem_of_seq in Hi'. lia.
Qed.

(** The first [n] shards that the policy picks for the key in a topology that
    the pool goes by and that names each of its shards: all [n], unless fewer
    are eligible. *)
Definition placed p key n (ids : list ShardId) : Prop :=
  ∃ t, in_use p t ∧ map (λ e, e.1.1) t = seq 0 (length (p_shards p)) ∧ ids = pp_select key t n.

Lemma placed_targets p key n ids : placed p key n ids → targets_ok p ids ∧ (length ids ≤ n)%nat.
Proof. intros (t & _ & Ht & ->). split; [by apply select_targets | apply pp_length]. Qed.

Lemma placed_still p p' key n ids : still p p' → placed p' key n ids → placed p key n ids.
Proof. intros S (t & Hu & Ht & ->). exists t. rewrite (still_shards _ _ S) in Ht. split; [by eapply still_in_use | done]. Qed.

Lemma wp_ranking_steady p key n (Q : result DomainError (list ShardId) → pool E → Prop) :
  pool_wf p →
  (∀ ids p', placed p key n ids → still p p' → (∀ t, steady t p → ids = pp_select key t n) → Q (Ok ids) p') →
  wp (ranking_for key n) Q p.
Proof.
  intros Hwf HQ. unfold ranking_for. wp_step. apply wp_topology; [done |]. intros t p' Hu Ht S Hst.
  apply wp_ret. apply HQ; [by exists t | done |]. intros t0 H0. by rewrite (Hst t0 H0).
Qed.

Lemma wp_ranking p key n (Q : result DomainError (list ShardId) → pool E → Prop) :
  pool_wf p → (∀ ids p', placed p key n ids → still p p' → Q (Ok ids) p') → wp (ranking_for key n) Q p.
Proof. intros Hwf HQ. apply wp_ranking_steady; auto. Qed.

Lemma wp_replicas_steady p key (Q : result DomainError (list ShardId) → pool E → Prop) :
  pool_wf p →
  (∀ ids p', placed p key (replicas (p_cfg p)) ids → still p p' →
     (∀ t, steady t p → ids = pp_select key t (replicas (p_cfg p))) → Q (Ok ids) p') →
  wp (replicas_for key) Q p.
Proof. intros Hwf HQ. unfold replicas_for. do 2 wp_step. by apply wp_ranking_steady. Qed.

Lemma wp_replicas p key (Q : result DomainError (list ShardId) → pool E → Prop) :
  pool_wf p → (∀ ids p', placed p key (replicas (p_cfg p)) ids → still p p' → Q (Ok ids) p') →
  wp (replicas_for key) Q p.
Proof. intros Hwf HQ. apply wp_replicas_steady; auto. Qed.

Lemma elem_of_others p ids i : i ∈ others p ids ↔ i ∉ ids ∧ (i < length (p_shards p))%nat.
Proof. unfold others. rewrite list_elem_of_filter, elem_of_seq. split; intros []; split; (done || lia). Qed.

(** ** Calls of a shard *)

Definition read_at p (i : ShardId) (key : BlockKey) : DomainResult bytes :=
  match p_shards p !! i with Some s => se_get s key | None => Err no_shard end.

Lemma wp_metered {A} i (c : M (pool E) DomainError A) (Q : result DomainError A → pool E → Prop) p :
  (∀ p1, still p p1 → wp c (λ r p2, ∀ p3, still p2 p3 → Q r p3) p1) → wp (metered i c) Q p.
Proof.
  intros Hc. unfold metered. wp_step. eapply wp_calm; [apply calm_now |]. intros t0 p1 _ S1.
  wp_step. eapply wp_mono; [by apply Hc |]. intros r p2 H2. wp_step.
  eapply wp_calm; [apply calm_now |]. intros t1 p3 _ S3. wp_step.
  eapply wp_calm; [by apply calm_meter |]. intros _ p4 _ S4. apply wp_lift. apply H2. by etransitivity.
Qed.

Lemma wp_shard_get i key (Q : DomainResult bytes → pool E → Prop) p :
  (∀ p', still p p' → Q (read_at p i key) p') → wp (shard_get i key) Q p.
Proof.
  intros HQ. apply wp_metered. intros p1 S1. unfold wp, look_shard, read_at in *.
  rewrite (still_shards _ _ S1). destruct (p_shards p !! i) as [s |]; simpl; intros p3 S3; apply HQ; by etransitivity.
Qed.
End PoolFacts.
