(* ===== verification/PoolRead.v ===== *)
(** * Reads of the pool

    A mirrored read finds a copy whenever some shard can read one, whatever
    the timing, the order of the answers and the errors of the others. *)

From Stdlib Require Import ZArith Lia.
From stdpp Require Import base list gmap strings sorting.
From S2P Require Import Prelude Domain Metrics Throttle HealQueue Latency DiskSlow Piece Erasure Verified PoolState Pool PoolFacts.

Section PoolRead.
Context {E : Type} `{SE : !ShardEngine E} `{PP : !PlacementPolicy} `{PPS : !PlacementSpec}
  `{RS : !ReedSolomon} `{BO : !Bao}.
Implicit Types (p : pool E).

Lemma read_at_still p p' i key : still p p' → read_at p' i key = read_at p i key.
Proof. intros S. unfold read_at. by rewrite (still_shards _ _ S). Qed.

(** ** Looking for a copy *)

(** Nothing among [ids] can be read; the error kept is [NotFound] or an
    answer of one of them. *)
Definition no_copy p key (ids : list ShardId) : Prop := ∀ i v, i ∈ ids → read_at p i key ≠ Ok v.
Definition from_shard p key (e : DomainError) : Prop := e = NotFound ∨ ∃ i, read_at p i key = Err e.

(** [o] is a copy from a shard, or there is none among [ids]. *)
Definition looked p key (ids : list ShardId) (o : option bytes) (last : DomainError) : Prop :=
  match o with
  | Some v => ∃ i, read_at p i key = Ok v
  | None => no_copy p key ids ∧ from_shard p key last
  end.

Lemma note_err_from p key i e last :
  read_at p i key = Err e → from_shard p key last → from_shard p key (note_err e last).
Proof. intros Hr Hl. unfold note_err. destruct e; try done; right; by exists i. Qed.

Lemma no_copy_cons p key i e ids : read_at p i key = Err e → no_copy p key ids → no_copy p key (i :: ids).
Proof. intros Hr Hn j v [-> | Hj]%elem_of_cons; [congruence | by apply Hn]. Qed.

Lemma no_copy_app p key l1 l2 : no_copy p key l1 → no_copy p key l2 → no_copy p key (l1 ++ l2).
Proof. intros H1 H2 i v [Hi | Hi]%elem_of_app; eauto. Qed.

Lemma wp_get_seq key ids last p p0 :
  still p0 p → from_shard p0 key last →
  wp (get_seq key ids last) (λ r p', ∃ o last', r = Ok (o, last') ∧ still p0 p' ∧ looked p0 key ids o last') p.
Proof.
  revert last p. induction ids as [| i ids IH]; intros last p S Hl; simpl.
  { apply wp_ret. exists None, last. split; [done |]. split; [done |]. split; [| done].
    intros i v Hi. by apply not_elem_of_nil in Hi. }
  wp_step. apply wp_shard_get. intros p1 S1. rewrite (read_at_still _ _ _ _ S).
  destruct (read_at p0 i key) as [v | e] eqn:Hr.
  - apply wp_ret. exists (Some v), last. split; [done |]. split; [by etransitivity |]. by exists i.
  - eapply wp_mono; [apply IH; [by etransitivity | by eapply note_err_from] |].
    intros r p2 (o & last' & -> & S2 & Hlk). exists o, last'. split; [done |]. split; [done |].
    destruct o; [done |]. destruct Hlk as [Hn Hf]. split; [by eapply no_copy_cons | done].
Qed.

Lemma wp_get_any key ids p p0 :
  still p0 p →
  wp (get_any key ids) (λ r p', ∃ o, r = Ok o ∧ still p0 p' ∧ looked p0 key ids o NotFound) p.
Proof.
  revert p. induction ids as [| i ids IH]; intros p S; simpl.
  { apply wp_ret. exists None. split; [done |]. split; [done |]. split; [| by left].
    intros i v Hi. by apply not_elem_of_nil in Hi. }
  wp_step. apply wp_shard_get. intros p1 S1. rewrite (read_at_still _ _ _ _ S).
  destruct (read_at p0 i key) as [v | e] eqn:Hr.
  - apply wp_ret. exists (Some v). split; [done |]. split; [by etransitivity |]. by exists i.
  - eapply wp_mono; [apply IH; by etransitivity |].
    intros r p2 (o & -> & S2 & Hlk). exists o. split; [done |]. split; [done |].
    destruct o; [done |]. destruct Hlk as [Hn Hf]. split; [by eapply no_copy_cons | done].
Qed.

(** The first answer among those of [ids]. *)
Lemma first_answer_looked p key ids last :
  from_shard p key last →
  ∀ o last', first_answer (map (λ i, read_at p i key) ids) last = (o, last') → looked p key ids o last'.
Proof.
  revert last. induction ids as [| i ids IH]; intros last Hl o last'; simpl.
  { intros [= <- <-]. split; [| done]. intros i v Hi. by apply not_elem_of_nil in Hi. }
  destruct (read_at p i key) as [v | e] eqn:Hr.
  - intros [= <- <-]. by exists i.
  - intros Hf. apply IH in Hf; [| by eapply note_err_from]. destruct o; [done |]. destruct Hf as [Hn Hf].
    split; [by eapply no_copy_cons | done].
Qed.

Lemma looked_perm p key ids ids' o last : ids ≡ₚ ids' → looked p key ids o last → looked p key ids' o last.
Proof.
  intros Hp. destruct o; [done |]. intros [Hn Hf]. split; [| done]. intros i v Hi. apply Hn. by rewrite Hp.
Qed.

Lemma wp_get_hedged key r0 r1 p p0 :
  still p0 p →
  wp (get_hedged key r0 r1 NotFound) (λ r p', ∃ o last tried, r = Ok (o, last, tried) ∧ still p0 p' ∧
    (tried ≤ 2)%nat ∧ looked p0 key (take tried [r0; r1]) o last) p.
Proof.
  intros S. unfold get_hedged. wp_step. eapply wp_calm; [apply calm_choose |]. intros late p1 _ S1.
  wp_step. apply wp_shard_get. intros p2 S2.
  assert (still p0 p1) as S01 by (by etransitivity). assert (still p0 p2) as S02 by (by etransitivity).
  rewrite (read_at_still _ _ _ _ S01). destruct (late =? 0)%nat.
  - destruct (first_answer [read_at p0 r0 key] NotFound) as [o last] eqn:Hf. apply wp_ret.
    exists o, last, 1%nat. split; [done |]. split; [done |]. split; [lia |].
    by apply (first_answer_looked p0 key [r0] NotFound); [left |].
  - wp_step. eapply wp_calm; [apply calm_count |]. intros _ p3 _ S3. wp_step.
    apply wp_shard_get. intros p4 S4. assert (still p0 p3) as S03 by (by etransitivity).
    rewrite (read_at_still _ _ _ _ S03). wp_step. eapply wp_calm; [apply calm_arrivals |].
    intros rs p5 Hrs S5. destruct (first_answer rs NotFound) as [o last] eqn:Hf. apply wp_ret.
    exists o, last, 2%nat. split; [done |]. split; [by do 2 (etransitivity; [done |]) |]. split; [done |].
    change [read_at p0 r0 key; read_at p0 r1 key] with (map (λ i, read_at p0 i key) [r0; r1]) in Hrs.
    cbv beta in Hrs. apply Permutation_map_inv in Hrs as (ids & -> & Hp).
    apply (looked_perm _ _ ids); [by symmetry |]. apply (first_answer_looked p0 key ids NotFound); [by left | done].
Qed.

(** A mirrored read: a copy that some shard holds, or none does. *)
Lemma wp_get_mirror key p :
  pool_wf p →
  wp (get_mirror key) (λ r p', still p p' ∧
    match r with
    | Ok v => ∃ i, read_at p i key = Ok v
    | Err e => (∀ i v, read_at p i key ≠ Ok v) ∧ from_shard p key e
    end) p.
Proof.
  intros Hwf. unfold get_mirror. wp_step. apply wp_replicas; [done |].
  intros reps p1 [[Hnd Hin] _]%placed_targets S1.
  wp_step. assert (wp hedge_threshold (λ r p', ∃ h, r = Ok h ∧ still p1 p') p1) as Hh.
  { unfold hedge_threshold. do 3 wp_step. destruct (adaptive_hedge _).
    - wp_step. eapply wp_calm; [apply calm_read_lat_p99 |]. intros q p2 _ S2. wp_step. wp_step.
      eapply wp_calm; [apply calm_count |]. intros _ p3 _ S3. apply wp_ret. eexists. split; [done |]. by etransitivity.
    - wp_step. wp_step. eapply wp_calm; [apply calm_count |]. intros _ p2 _ S2. apply wp_ret. by eexists. }
  eapply wp_mono; [exact Hh |]. clear Hh. intros r p2 (hedge & -> & S2).
  assert (still p p2) as S02 by (by etransitivity). wp_step.
  assert (wp match hedge, reps with
    | Some _, r0 :: r1 :: _ => get_hedged key r0 r1 NotFound
    | _, _ => mret (None, NotFound, 0%nat)
    end (λ r p', ∃ o last tried, r = Ok (o, last, tried) ∧ still p p' ∧ looked p key (take tried reps) o last) p2) as Hg.
  { assert (looked p key (take 0 reps) None NotFound) as H0.
    { split; [| by left]. intros i v Hi. by apply not_elem_of_nil in Hi. }
    destruct hedge as [h |], reps as [| r0 [| r1 reps]];
      try (apply wp_ret; exists None, NotFound, 0%nat; split; [done | by split]).
    eapply wp_mono; [by apply wp_get_hedged |]. intros r p3 (o & last & tried & -> & S3 & Ht & Hl).
    exists o, last, tried. split; [done |]. split; [done |].
    replace (take tried (r0 :: r1 :: reps)) with (take tried [r0; r1]); [done |].
    destruct tried as [| [| [|]]]; [done | done | done | lia]. }
  eapply wp_mono; [exact Hg |]. intros r p3 (o & last & tried & -> & S3 & Hl). destruct o as [v |].
  { apply wp_ret. by split. }
  destruct Hl as [Hn Hf]. wp_step. eapply wp_mono; [by apply (wp_get_seq _ _ _ _ p) |].
  intros r p4 (o & last' & -> & S4 & Hl). destruct o as [v |].
  { apply wp_ret. by split. }
  destruct Hl as [Hn' Hf']. do 3 wp_step. eapply wp_mono; [by apply (wp_get_any _ _ _ p) |].
  intros r p5 (o & -> & S5 & Hl). destruct o as [v |].
  { apply wp_ret. by split. }
  destruct Hl as [Hn'' _]. apply wp_throw. split; [done |]. split; [| done].
  intros i v Hr. destruct (decide (i < length (p_shards p))%nat) as [Hi | Hi].
  2: { unfold read_at in Hr. by rewrite (proj2 (lookup_ge_None (p_shards p) i)) in Hr by lia. }
  destruct (decide (i ∈ reps)) as [Hr' | Hr'].
  - apply (no_copy_app p key _ _ Hn Hn' i v); [by rewrite take_drop | done].
  - apply (Hn'' i v); [| done]. apply elem_of_others. by rewrite (still_shards _ _ S4).
Qed.

(** The counting around a read changes nothing else. *)
Lemma wp_pool_get key p (Q : result DomainError bytes → pool E → Prop) :
  (∀ p0, still p p0 → wp (get_inner key) (λ r p1, ∀ p2, still p1 p2 → Q r p2) p0) → wp (pool_get key) Q p.
Proof.
  intros HQ. unfold pool_get. wp_step. eapply wp_calm; [apply calm_now |]. intros t0 p1 _ S1.
  wp_step. eapply wp_calm; [apply calm_count |]. intros _ p2 _ S2. wp_step.
  eapply wp_mono; [apply HQ; by etransitivity |]. intros r p3 H3.
  wp_step. eapply wp_calm; [apply calm_count |]. intros _ p4 _ S4.
  wp_step. eapply wp_calm; [apply calm_now |]. intros t1 p5 _ S5.
  wp_step. eapply wp_calm; [apply calm_count |]. intros _ p6 _ S6.
  wp_step. eapply wp_calm; [apply calm_count |]. intros _ p7 _ S7.
  wp_step. apply (wp_calm _ (λ _ _, True)).
  { destruct r as [v | []]; try apply calm_count.
    eapply calm_bind; [apply calm_read_lat_record |]. intros ?. eapply calm_mono; [apply calm_count | done]. }
  intros _ p8 _ S8. apply wp_lift. apply H3. by do 4 (etransitivity; [done |]).
Qed.

Lemma wp_get_mirrored key p :
  pool_wf p → pc_ec (p_cfg p) = None →
  wp (pool_get key) (λ r p', p_shards p' = p_shards p ∧ match r with
    | Ok v => ∃ i, read_at p i key = Ok v
    | Err e => (∀ i v, read_at p i key ≠ Ok v) ∧ from_shard p key e
    end) p.
Proof.
  intros Hwf Hec. apply wp_pool_get. intros p0 S0. unfold get_inner. do 2 wp_step. rewrite (still_cfg _ _ S0), Hec.
  eapply wp_mono; [apply wp_get_mirror; by eapply still_wf |]. intros q p1 [S1 Hq] p2 S2.
  split; [by rewrite (still_shards _ _ S2), (still_shards _ _ S1), (still_shards _ _ S0) |].
  destruct q as [v | e].
  - destruct Hq as [i Hi]. exists i. by rewrite <-(read_at_still _ _ _ _ S0).
  - destruct Hq as [Hn Hf]. split.
    + intros i v. rewrite <-(read_at_still _ _ _ _ S0). apply Hn.
    + destruct Hf as [-> | [i Hi]]; [by left |]. right. exists i. by rewrite <-(read_at_still _ _ _ _ S0).
Qed.

(** C5. A read of a mirrored pool, whatever the clock, the order of the
    answers, the hedging and the placement: it returns what some shard holds,
    and it fails only when no shard at all can read the key; the error is
    [NotFound] or the answer of a shard. No shard is changed. *)
Theorem get_finds_a_copy key p r p' :
  pool_wf p → pc_ec (p_cfg p) = None → pool_get key p = (r, p') →
  p_shards p' = p_shards p ∧
  match r with
  | Ok v => ∃ i, read_at p i key = Ok v
  | Err e => (∀ i v, read_at p i key ≠ Ok v) ∧ (e = NotFound ∨ ∃ i, read_at p i key = Err e)
  end.
Proof. intros Hwf Hec Hrun. exact (wp_run _ _ _ _ _ (wp_get_mirrored key p Hwf Hec) Hrun). Qed.

(** ** The merged listing *)

Lemma elem_of_or_insert k sz l k' sz' :
  StronglySorted bytes_lt l.*1 →
  (k', sz') ∈ or_insert k sz l ↔ (k', sz') ∈ l ∨ (k' = k ∧ sz' = sz ∧ k ∉ l.*1).
Proof.
  induction l as [| [k1 s1] l IH]; simpl; intros Hs.
  { rewrite elem_of_cons. split; [intros [[= -> ->] | H]; [right; split_and!; [done | done | by apply not_elem_of_nil] |
      by apply not_elem_of_nil in H] | intros [H | (-> & -> & _)]; [by apply not_elem_of_nil in H | by left]]. }
  apply StronglySorted_inv in Hs as [Hs Hall]. rewrite Forall_forall in Hall.
  destruct (bytes_cmp k k1) eqn:Hc; simpl.
  - apply bytes_cmp_eq in Hc as ->. rewrite !elem_of_cons. naive_solver.
  - assert (k ∉ l.*1) by (intros Hk; apply (bytes_lt_irrefl k); etransitivity; [exact Hc | by apply Hall]).
    assert (k ≠ k1) by (intros ->; by apply (bytes_lt_irrefl k1)).
    rewrite !elem_of_cons. naive_solver.
  - rewrite !elem_of_cons, (IH Hs).
    assert (k ≠ k1) by (intros ->; by rewrite bytes_cmp_refl in Hc). naive_solver.
Qed.

Lemma or_insert_keys k sz l : ∀ k', k' ∈ (or_insert k sz l).*1 → k' = k ∨ k' ∈ l.*1.
Proof.
  induction l as [| [k1 s1] l IH]; simpl; intros k'; [rewrite elem_of_cons; naive_solver |].
  destruct (bytes_cmp k k1); simpl; rewrite ?elem_of_cons; naive_solver.
Qed.

Lemma or_insert_sorted k sz l : StronglySorted bytes_lt l.*1 → StronglySorted bytes_lt (or_insert k sz l).*1.
Proof.
  induction l as [| [k1 s1] l IH]; simpl; intros Hs; [by repeat constructor |].
  destruct (bytes_cmp k k1) eqn:Hc; simpl; [done | |]; apply StronglySorted_inv in Hs as [Hs Hall].
  - constructor; [by constructor |]. constructor; [done |]. eapply Forall_impl; [exact Hall |].
    intros k'. apply transitivity. exact Hc.
  - constructor; [by apply IH |]. rewrite Forall_forall in *. intros k' [-> | Hk]%or_insert_keys; [| by apply Hall].
    unfold bytes_lt. by rewrite bytes_cmp_antisym, Hc.
Qed.

Definition merge_page (m page : list (BlockKey * Z)) : list (BlockKey * Z) :=
  foldl (λ m e, or_insert e.1 e.2 m) m page.

Lemma merge_page_spec m page :
  StronglySorted bytes_lt m.*1 → NoDup page.*1 →
  StronglySorted bytes_lt (merge_page m page).*1 ∧
  ∀ k sz, (k, sz) ∈ merge_page m page ↔ (k, sz) ∈ m ∨ ((k, sz) ∈ page ∧ k ∉ m.*1).
Proof.
  revert m. induction page as [| [k1 s1] page IH]; intros m Hm Hnd; simpl.
  { split; [done |]. intros k sz. pose proof (not_elem_of_nil (k, sz)). naive_solver. }
  apply NoDup_cons in Hnd as [Hk1 Hnd].
  destruct (IH (or_insert k1 s1 m)) as [Hs Hin]; [by apply or_insert_sorted | done |].
  split; [done |]. intros k sz. rewrite Hin, (elem_of_or_insert _ _ _ _ _ Hm), elem_of_cons.
  assert (k ∉ (or_insert k1 s1 m).*1 ↔ k ∉ m.*1 ∧ ¬ (k = k1 ∧ k1 ∉ m.*1)) as ->.
  { split.
    - intros Hn. split; [intros Hk | intros [-> Hk]]; apply Hn.
      + apply list_elem_of_fmap in Hk as ([k2 s2] & -> & Hk). apply list_elem_of_fmap. exists (k2, s2).
        split; [done |]. apply elem_of_or_insert; auto.
      + apply list_elem_of_fmap. exists (k1, s1). split; [done |]. apply elem_of_or_insert; auto.
    - intros [Hn1 Hn2] Hk. apply list_elem_of_fmap in Hk as ([k2 s2] & -> & Hk).
      apply elem_of_or_insert in Hk; [| done]. destruct Hk as [Hk | (-> & -> & Hk)]; [| by apply Hn2].
      apply Hn1. apply list_elem_of_fmap. by exists (k2, s2). }
  assert ((k, sz) ∈ page → k ≠ k1).
  { intros Hp ->. apply Hk1. apply list_elem_of_fmap. by exists (k1, sz). }
  destruct (decide (k = k1)) as [-> |]; naive_solver.
Qed.

(** The entry of a key is the one of the first page that has it. *)
Definition first_page (pages : list (list (BlockKey * Z))) (k : BlockKey) (sz : Z) : Prop :=
  ∃ i page, pages !! i = Some page ∧ (k, sz) ∈ page ∧
    ∀ j page', (j < i)%nat → pages !! j = Some page' → k ∉ page'.*1.

Lemma first_page_nil k sz : ¬ first_page [] k sz.
Proof. intros (i & page & Hi & _). by rewrite lookup_nil in Hi. Qed.

Lemma first_page_cons page pages k sz :
  first_page (page :: pages) k sz ↔ (k, sz) ∈ page ∨ (k ∉ page.*1 ∧ first_page pages k sz).
Proof.
  split.
  - intros ([| i] & pg & Hi & Hin & Hn); [injection Hi as ->; by left |]. right.
    split; [by apply (Hn 0%nat); [lia |] |]. exists i, pg. split_and!; [done | done |].
    intros j pg' Hj Hpg'. apply (Hn (S j)); [lia | done].
  - intros [Hin | (Hk & i & pg & Hi & Hin & Hn)].
    + exists 0%nat, page. split_and!; [done | done |]. intros j ? Hj. lia.
    + exists (S i), pg. split_and!; [done | done |]. intros [| j] pg' Hj Hpg'; [by injection Hpg' as <- |].
      apply (Hn j); [lia | done].
Qed.

Lemma first_page_exists pages page k : page ∈ pages → k ∈ page.*1 → ∃ sz, first_page pages k sz.
Proof.
  induction pages as [| pg pages IH]; intros Hp Hk; [by apply not_elem_of_nil in Hp |].
  destruct (decide (k ∈ pg.*1)) as [Hin | Hn].
  - apply list_elem_of_fmap in Hin as ([k' sz] & -> & Hin). exists sz. apply first_page_cons. by left.
  - apply elem_of_cons in Hp as [-> | Hp]; [done |]. destruct (IH Hp Hk) as [sz H]. exists sz.
    apply first_page_cons. by right.
Qed.

Lemma foldl_pages pages m :
  StronglySorted bytes_lt m.*1 → Forall (λ page, NoDup page.*1) pages →
  StronglySorted bytes_lt (foldl merge_page m pages).*1 ∧
  ∀ k sz, (k, sz) ∈ foldl merge_page m pages ↔ (k, sz) ∈ m ∨ (k ∉ m.*1 ∧ first_page pages k sz).
Proof.
  revert m. induction pages as [| page pages IH]; intros m Hm HP; simpl.
  { split; [done |]. intros k sz. pose proof (first_page_nil k sz). naive_solver. }
  apply Forall_cons in HP as [Hnd HP]. destruct (merge_page_spec m page Hm Hnd) as [Hs Hin].
  destruct (IH (merge_page m page) Hs HP) as [Hs' Hin']. split; [done |]. intros k sz.
  rewrite Hin', Hin, first_page_cons.
  assert (k ∉ (merge_page m page).*1 ↔ k ∉ m.*1 ∧ k ∉ page.*1) as ->; [| tauto].
  split.
  - intros Hn. split; intros ([k' s'] & -> & Hk)%list_elem_of_fmap; apply Hn; apply list_elem_of_fmap.
    + exists (k', s'). split; [done |]. apply Hin. by left.
    + simpl in *. destruct (decide (k' ∈ m.*1)) as [([k2 s2] & Heq & Hk2)%list_elem_of_fmap |].
      * exists (k2, s2). split; [done |]. apply Hin. by left.
      * exists (k', s'). split; [done |]. apply Hin. by right.
  - intros [H1 H2] ([k' s'] & -> & Hk)%list_elem_of_fmap. apply Hin in Hk as [Hk | [Hk _]].
    + apply H1, list_elem_of_fmap. by exists (k', s').
    + apply H2, list_elem_of_fmap. by exists (k', s').
Qed.

Lemma list_shards_pages shards prefix after limit m pages :
  Forall2 (λ s page, se_list s prefix after limit = Ok page) shards pages →
  list_shards shards prefix after limit m = Ok (foldl merge_page m pages).
Proof.
  intros HF. revert m. induction HF as [| s page shards pages Hp _ IH]; intros m; simpl; [done |].
  rewrite Hp. apply IH.
Qed.
End PoolRead.

(** ** The listing of the pool is a page of the union *)

Section PoolList.
Context {E : Type} `{SES : ShardEngineSpec E}.
Implicit Types (p : pool E).

(** A key is shown with the size that the first shard that has it shows. *)
Definition pool_shown p (k : BlockKey) (sz : Z) : Prop :=
  ∃ i s, p_shards p !! i = Some s ∧ se_shown s k sz ∧
    ∀ j s' sz', (j < i)%nat → p_shards p !! j = Some s' → ¬ se_shown s' k sz'.

Lemma list_page_in (here : BlockKey → Z → Prop) prefix after limit out k sz (m : list (BlockKey * Z)) :
  list_page here prefix after limit out → here k sz → prefix `prefix_of` k →
  match after with Some a => bytes_lt a k | None => True end →
  StronglySorted bytes_lt m.*1 → (∀ k', k' ∈ out.*1 → k' ∈ m.*1) → k ∈ (take limit m).*1 →
  k ∈ out.*1.
Proof.
  intros [Hs Hso Hl Hc] Hh Hp Ha Hm Hsub Hk.
  destruct (Hc k sz) as [| [Hlen Hlt]]; [by split_and! | done |]. exfalso.
  destruct (sorted_take_below limit m out.*1 k) as [_ Hb]; [done | by apply sorted_NoDup | by rewrite length_fmap; lia | |].
  - intros k0 Hk0. split; [by apply Hsub | by apply Hlt].
  - apply (bytes_lt_irrefl k). by apply Hb.
Qed.

Definition shard_page prefix after limit (s : E) (page : list (BlockKey * Z)) : Prop :=
  se_list s prefix after limit = Ok page ∧ list_page (se_shown s) prefix after limit page.

Lemma merged_page p prefix after limit pages :
  Forall2 (shard_page prefix after limit) (p_shards p) pages →
  list_page (pool_shown p) prefix after limit (take limit (foldl merge_page [] pages)).
Proof.
  intros HF. set (m := foldl merge_page [] pages).
  assert (∀ i page, pages !! i = Some page → ∃ s, p_shards p !! i = Some s ∧ list_page (se_shown s) prefix after limit page) as HP.
  { intros i page Hi. destruct (Forall2_lookup_r _ _ _ _ _ HF Hi) as (s & ? & _ & ?). eauto. }
  destruct (foldl_pages pages []) as [Hm Hin]; [constructor | |].
  { apply Forall_forall. intros page (i & Hi)%list_elem_of_lookup. destruct (HP i page Hi) as (s & _ & []).
    by apply sorted_NoDup. }
  fold m in Hm, Hin.
  assert (∀ page k, page ∈ pages → k ∈ page.*1 → k ∈ m.*1) as Hsub.
  { intros page k Hp Hk. destruct (first_page_exists pages page k Hp Hk) as [sz Hf].
    apply list_elem_of_fmap. exists (k, sz). split; [done |]. apply Hin. right. split; [apply not_elem_of_nil | done]. }
  split; [by apply sorted_take | | rewrite length_take; lia |].
  - intros k sz Hk. assert (k ∈ (take limit m).*1) as Hkt by (apply list_elem_of_fmap; by exists (k, sz)).
    apply elem_of_take_in, Hin in Hk as [Hk | (_ & i & page & Hi & Hk & Hn)]; [by apply not_elem_of_nil in Hk |].
    destruct (HP i page Hi) as (s & Hs & Hpg). destruct (lp_sound _ _ _ _ _ Hpg k sz Hk) as (Hsh & Hpre & Haft).
    split; [| by split]. exists i, s. split_and!; [done | done |]. intros j s' sz' Hj Hs' Hsh'.
    destruct (Forall2_lookup_l _ _ _ _ _ HF Hs') as (page' & Hj' & _ & Hpg').
    apply (Hn j page' Hj Hj'). eapply (list_page_in _ prefix after limit page' k sz' m); try done.
    intros k' Hk'. apply (Hsub page'); [by eapply list_elem_of_lookup_2 | done].
  - intros k sz ((i & s & Hs & Hsh & _) & Hpre & Haft).
    destruct (Forall2_lookup_l _ _ _ _ _ HF Hs) as (page & Hi & _ & Hpg). pose proof (list_elem_of_lookup_2 _ _ _ Hi) as Hip.
    destruct (lp_complete _ _ _ _ _ Hpg k sz) as [Hk | [Hlen Hlt]]; [by split_and! | |].
    + apply sorted_take_complete; [done |]. by apply (Hsub page).
    + right. apply (sorted_take_below limit m page.*1 k); [done | | by rewrite length_fmap; lia |].
      * apply sorted_NoDup, (lp_sorted _ _ _ _ _ Hpg).
      * intros k0 Hk0. split; [by apply (Hsub page) | by apply Hlt].
Qed.

(** C21. The pool's listing: when every shard keeps its contract, the merged
    page is sorted without duplicates, at most [limit] long, and exactly the
    first keys after the cursor with the prefix that any shard holds; the
    size of a key with several copies is that of the first shard. *)
Theorem pool_list_is_a_page p prefix after limit :
  Forall se_ok (p_shards p) →
  match after with Some a => bytes_le prefix (a ++ [Byte.x00]) | None => True end →
  ∃ out, pool_list p prefix after limit = Ok out ∧ list_page (pool_shown p) prefix after limit out.
Proof.
  intros Hok Ha.
  assert (∃ pages, Forall2 (shard_page prefix after limit) (p_shards p) pages) as (pages & HF).
  { induction Hok as [| s shards Hs _ (pages & IH)]; [exists []; constructor |].
    destruct (se_list_spec s prefix after limit Hs Ha) as (page & ? & ?). exists (page :: pages). by constructor. }
  assert (Forall2 (λ s page, se_list s prefix after limit = Ok page) (p_shards p) pages) as HF1
    by (eapply Forall2_impl; [exact HF | by intros ? ? []]).
  unfold pool_list. rewrite (list_shards_pages _ _ _ _ _ _ HF1). eexists. split; [done |].
  by apply merged_page.
Qed.
End PoolList.
