(* ===== verification/PoolEcRead.v ===== *)
(** * Reads of erasure-coded bodies

    The gathering of pieces finds every piece that some shard holds, whatever
    the order of the answers, and a read decodes the body as soon as [k]
    different pieces can be read; mirrored copies may lie among the pieces. *)

From Stdlib Require Import ZArith Lia.
From stdpp Require Import base list gmap sets strings.
From S2P Require Import Prelude Domain Metrics Throttle HealQueue Latency DiskSlow Piece Erasure Verified PoolState Pool PoolFacts PoolRead.

(** ** Slots *)

Lemma have_size (A : gset nat) (slots : list (option bytes)) :
  (∀ j, j ∈ A → ∃ b, slots !! j = Some (Some b)) → (size A ≤ have slots)%nat.
Proof.
  revert A. induction slots as [| x slots IH] using rev_ind; intros A HA.
  { assert (A = ∅) as ->; [| by rewrite size_empty]. apply elem_of_equiv_empty_L. intros j Hj. by destruct (HA j Hj). }
  unfold have in *. rewrite omap_app, length_app.
  assert (size (A ∖ {[length slots]}) ≤ length (omap id slots))%nat as Hle.
  { apply IH. intros j [Hj Hne]%elem_of_difference. destruct (HA j Hj) as [b Hb]. exists b.
    rewrite not_elem_of_singleton in Hne. apply lookup_app_Some in Hb as [Hb | [Hge Hb]]; [done |].
    destruct (j - length slots)%nat eqn:Hd; [lia | done]. }
  destruct (decide (length slots ∈ A)) as [Hin | Hnin].
  - destruct (HA _ Hin) as [b Hb]. rewrite lookup_app_r, Nat.sub_diag in Hb by lia. injection Hb as ->. simpl.
    assert (A = {[length slots]} ∪ (A ∖ {[length slots]})) as -> by (apply union_difference_L; set_solver).
    rewrite size_union, size_singleton by set_solver. lia.
  - replace (A ∖ {[length slots]}) with A in Hle by set_solver. lia.
Qed.

(** Filled slots stay filled. *)
Definition grown (slots slots' : list (option bytes)) : Prop :=
  ∀ j b, slots !! j = Some (Some b) → slots' !! j = Some (Some b).

#[global] Instance grown_preorder : PreOrder grown.
Proof. split; [by intros s j b | intros s1 s2 s3 H1 H2 j b Hj; by apply H2, H1]. Qed.

Lemma erased_length {A} slots (full : list A) : erased slots full → length slots = length full.
Proof. apply Forall2_length. Qed.

Lemma erased_lookup {A} slots (full : list A) j x : erased slots full → slots !! j = Some (Some x) → full !! j = Some x.
Proof.
  intros He Hj. destruct (Forall2_lookup_l _ _ _ _ _ He Hj) as (y & Hy & [? | [= ->]]); done.
Qed.

Lemma erased_none {A} (full : list A) n : n = length full → erased (replicate n None) full.
Proof.
  intros ->. induction full as [| x full IH]; simpl; constructor; [by left | exact IH].
Qed.

Lemma erased_insert {A} slots (full : list A) j x : erased slots full → full !! j = Some x → erased (<[j := Some x]> slots) full.
Proof.
  intros He Hj. rewrite <-(list_insert_id full j x Hj). apply Forall2_insert; [done | by right].
Qed.

Section EcRead.
Context {E : Type} `{SE : !ShardEngine E} `{PP : !PlacementPolicy} `{PPS : !PlacementSpec}
  `{RS : !ReedSolomon} `{BO : !Bao}.
Context (key : BlockKey) (k m : nat) (body : bytes) (pieces : list bytes).
Implicit Types (p : pool E).

(** Every shard that reads the key reads the body itself or one of its
    pieces. *)
Definition mixed p : Prop := ∀ i b, read_at p i key = Ok b →
  (b = body ∧ parse_piece_header body = None) ∨ ∃ j, pieces !! j = Some b.

(** The shard at rank [r] of the targets holds no piece but the [r]-th. *)
Definition ranked p (targets : list ShardId) : Prop := ∀ r i b j,
  targets !! r = Some i → read_at p i key = Ok b → pieces !! j = Some b → r = j.

(** The pieces that some shard can read. *)
Definition available p (A : gset nat) : Prop := ∀ j, j ∈ A → ∃ i b, read_at p i key = Ok b ∧ pieces !! j = Some b.

Lemma mixed_still p p' : still p p' → mixed p → mixed p'.
Proof. intros S Hm i b. rewrite (read_at_still _ _ _ _ S). apply Hm. Qed.

Context (Hps : piece_set k m body pieces).

Lemma piece_index j j' b : pieces !! j = Some b → pieces !! j' = Some b → j = j'.
Proof.
  intros H H'. apply (ps_header _ _ _ _ Hps) in H, H'. rewrite H in H'. injection H' as H'. lia.
Qed.

Lemma fill_piece slots j b h :
  erased slots pieces → pieces !! j = Some b → parse_piece_header b = Some h →
  let slots' := fill_slot (k + m) slots h b in
  erased slots' pieces ∧ grown slots slots' ∧ slots' !! j = Some (Some b).
Proof.
  intros He Hj Hh. rewrite (ps_header _ _ _ _ Hps j b Hj) in Hh. injection Hh as <-. unfold fill_slot. simpl.
  rewrite Nat2Z.id. assert (j < k + m)%nat as Hlt by (rewrite <-(ps_len _ _ _ _ Hps); by eapply lookup_lt_Some).
  assert (j < length slots)%nat as Hls by (rewrite (erased_length _ _ He); by eapply lookup_lt_Some).
  destruct (lookup_lt_is_Some_2 _ _ Hls) as [x Hx]. rewrite Hx. destruct x as [b' |].
  - pose proof (erased_lookup _ _ _ _ He Hx). split_and!; [done | done | congruence].
  - rewrite (proj2 (Nat.ltb_lt _ _)) by done. split_and!; [by apply erased_insert | | by apply list_lookup_insert_eq].
    intros j' b' Hj'. destruct (decide (j' = j)) as [-> | Hne]; [congruence | by rewrite list_lookup_insert_ne].
Qed.

(** ** Collecting pieces *)

(** The loop that [read_ranks] and [scan_strays] share. *)
Lemma wp_collect (tot : list (option bytes) → nat) ids slots p0 p :
  (∀ s, length s = (k + m)%nat → tot s = (k + m)%nat) → still p0 p → mixed p0 → erased slots pieces →
  wp (mfold (λ slots i, mcatch (shard_get i key) (λ r,
        mret (match r with
              | Ok b => match parse_piece_header b with Some h => fill_slot (tot slots) slots h b | None => slots end
              | Err _ => slots
              end))) slots ids : M (pool E) DomainError (list (option bytes)))
    (λ r p', ∃ slots', r = Ok slots' ∧ still p0 p' ∧ erased slots' pieces ∧ grown slots slots' ∧
      ∀ i j b, i ∈ ids → read_at p0 i key = Ok b → pieces !! j = Some b → slots' !! j = Some (Some b)) p.
Proof.
  intros Htot S Hm. revert slots p S. induction ids as [| i ids IH]; intros slots p S He; simpl.
  { apply wp_ret. exists slots. split_and!; [done | done | done | done |]. intros i j b Hi. by apply not_elem_of_nil in Hi. }
  do 2 wp_step. apply wp_shard_get. intros p1 S1. apply wp_ret. rewrite (read_at_still _ _ _ _ S).
  assert (still p0 p1) as S01 by (by etransitivity).
  set (slots1 := match read_at p0 i key with Ok b => match parse_piece_header b with Some h => _ | None => slots end | Err _ => slots end).
  assert (erased slots1 pieces ∧ grown slots slots1 ∧
    ∀ j b, read_at p0 i key = Ok b → pieces !! j = Some b → slots1 !! j = Some (Some b)) as (He1 & Hg1 & Hin1).
  { unfold slots1. destruct (read_at p0 i key) as [b | e] eqn:Hr; [| by split_and!].
    destruct (Hm i b Hr) as [[-> Hb] | [j Hj]].
    - rewrite Hb. split_and!; [done | done |]. intros j b [= <-] Hj. by rewrite (ps_header _ _ _ _ Hps _ _ Hj) in Hb.
    - pose proof (ps_header _ _ _ _ Hps _ _ Hj) as Hh. rewrite Hh, Htot
        by (rewrite (erased_length _ _ He); apply (ps_len _ _ _ _ Hps)).
      destruct (fill_piece slots j b _ He Hj Hh) as (? & ? & ?). split_and!; [done | done |].
      intros j' b' [= <-] Hj'. by rewrite <-(piece_index _ _ _ Hj Hj'). }
  eapply wp_mono; [by apply IH |]. intros r p2 (slots2 & -> & S2 & He2 & Hg2 & Hin2). exists slots2.
  split_and!; [done | done | done | by etransitivity |].
  intros i' j b [-> | Hi']%elem_of_cons Hr Hj; [by apply Hg2, Hin1 | by eapply Hin2].
Qed.

(** The slots hold what the targets of the given ranks have. *)
Definition filled p (targets : list ShardId) (lo n : nat) (slots : list (option bytes)) : Prop :=
  ∀ r i b, (lo ≤ r < lo + n)%nat → targets !! r = Some i → read_at p i key = Ok b → pieces !! r = Some b →
    slots !! r = Some (Some b).

Lemma filled_grown p targets lo n slots slots' : filled p targets lo n slots → grown slots slots' → filled p targets lo n slots'.
Proof. intros Hf Hg r i b ? ? ? ?. apply Hg. by eapply Hf. Qed.

Lemma wp_read_ranks targets lo n probe slots p0 p :
  still p0 p → mixed p0 → erased slots pieces → (lo + n ≤ k + m)%nat →
  (∀ b, pieces !! probe = Some b → slots !! probe = Some (Some b)) →
  wp (read_ranks key targets (want_ranks lo n probe slots) slots)
    (λ r p', ∃ slots', r = Ok slots' ∧ still p0 p' ∧ erased slots' pieces ∧ grown slots slots' ∧
      filled p0 targets lo n slots') p.
Proof.
  intros S Hm He Hle Hprobe. unfold read_ranks. wp_step. eapply wp_calm; [apply calm_arrivals |].
  intros ids p1 Hids S1. cbv beta in Hids. eapply wp_mono.
  { apply (wp_collect length ids slots p0 p1); [done | by etransitivity | done | done]. }
  intros r p2 (slots' & -> & S2 & He' & Hg & Hin). exists slots'. split_and!; [done | done | done | done |].
  intros r i b Hr Hi Hrd Hb. destruct (decide (r = probe)) as [-> | Hne]; [by apply Hg, Hprobe |].
  assert (r < length slots)%nat as Hlt by (rewrite (erased_length _ _ He); by eapply lookup_lt_Some).
  destruct (lookup_lt_is_Some_2 _ _ Hlt) as [[b' |] Hs].
  - apply Hg. rewrite Hs. pose proof (erased_lookup _ _ _ _ He Hs). congruence.
  - apply (Hin i r b); [| done | done]. rewrite Hids. apply list_elem_of_omap. exists r. split; [| done].
    apply list_elem_of_filter. split; [done |]. apply elem_of_seq. lia.
Qed.

Lemma all_data_have slots :
  erased slots pieces → forallb (λ s, bool_decide (is_Some s)) (take k slots) = true → (k ≤ have slots)%nat.
Proof.
  intros He Hall. rewrite <-(size_set_seq (C := gset nat) 0 k). apply have_size. intros j Hj%elem_of_set_seq.
  assert (j < length slots)%nat as Hlt by (rewrite (erased_length _ _ He), (ps_len _ _ _ _ Hps); lia).
  destruct (lookup_lt_is_Some_2 _ _ Hlt) as [s Hs]. rewrite forallb_forall in Hall.
  assert (bool_decide (is_Some s) = true) as Hb.
  { apply Hall, list_elem_of_In, (list_elem_of_lookup_2 _ j). rewrite lookup_take_lt by lia. done. }
  apply bool_decide_eq_true in Hb as [b ->]. by exists b.
Qed.

(** ** Gathering *)

Lemma wp_gather targets probe i b p0 p A :
  still p0 p → mixed p0 → ranked p0 targets → available p0 A → (k ≤ size A)%nat → (length targets ≤ k + m)%nat →
  targets !! probe = Some i → read_at p0 i key = Ok b → pieces !! probe = Some b →
  ∀ h, parse_piece_header b = Some h →
  wp (gather_ec key targets probe b h) (λ r p', r = Ok body ∧ still p0 p') p.
Proof.
  intros S Hm Hrk HA Hk Htl Hi Hrd Hb h Hh. rewrite (ps_header _ _ _ _ Hps _ _ Hb) in Hh. injection Hh as <-.
  unfold gather_ec. simpl. rewrite !Nat2Z.id. set (slots0 := <[probe := Some b]> _).
  assert (probe < k + m)%nat as Hpr by (rewrite <-(ps_len _ _ _ _ Hps); by eapply lookup_lt_Some).
  assert (erased slots0 pieces) as He0 by (apply erased_insert, Hb; apply erased_none; symmetry; apply (ps_len _ _ _ _ Hps)).
  assert (slots0 !! probe = Some (Some b)) as Hp0 by (apply list_lookup_insert_eq; by rewrite length_replicate).
  assert (∀ b', pieces !! probe = Some b' → slots0 !! probe = Some (Some b')) as Hprobe by (intros b' Hb'; congruence).
  wp_step. eapply wp_mono; [apply (wp_read_ranks targets 0 k probe slots0 p0 p); try done; lia |].
  intros r p1 (slots1 & -> & S1 & He1 & Hg1 & Hf1). destruct (forallb _ _) eqn:Hall.
  { apply wp_lift. split; [| done]. apply (ps_decode _ _ _ _ Hps); [done |]. by apply all_data_have. }
  wp_step. eapply wp_mono.
  { apply (wp_read_ranks targets k m probe slots1 p0 p1); try done. intros b' Hb'. by apply Hg1, Hprobe. }
  intros r p2 (slots2 & -> & S2 & He2 & Hg2 & Hf2).
  pose proof (filled_grown _ _ _ _ _ _ Hf1 Hg2) as Hf1'. wp_step.
  assert (∀ j i b, targets !! j = Some i → read_at p0 i key = Ok b → pieces !! j = Some b → slots2 !! j = Some (Some b)) as Hfilled.
  { intros j i' b' Hj Hr Hb'. pose proof (lookup_lt_Some _ _ _ Hj). destruct (decide (j < k)%nat).
    - apply (Hf1' j i' b'); [lia | done | done | done].
    - apply (Hf2 j i' b'); [lia | done | done | done]. }
  assert (wp (if (have slots2 <? k)%nat then scan_strays key targets (k + m) slots2 else mret slots2 : M (pool E) DomainError (list (option bytes)))
    (λ r p', ∃ slots3, r = Ok slots3 ∧ still p0 p' ∧ erased slots3 pieces ∧ (k ≤ have slots3)%nat) p2) as Hstray.
  { destruct (Nat.ltb_spec (have slots2) k) as [Hlt | Hge]; [| apply wp_ret; by exists slots2].
    unfold scan_strays. do 2 wp_step. eapply wp_mono.
    { apply (wp_collect (λ _, (k + m)%nat) _ slots2 p0 p2); done. }
    intros r p3 (slots3 & -> & S3 & He3 & Hg3 & Hin3). exists slots3. split_and!; [done | done | done |].
    etransitivity; [exact Hk |]. apply have_size. intros j Hj. destruct (HA j Hj) as (i' & b' & Hr' & Hb'). exists b'.
    destruct (decide (i' ∈ targets)) as [Hit | Hit].
    - apply list_elem_of_lookup in Hit as [r Hr]. pose proof (Hrk _ _ _ _ Hr Hr' Hb') as ->. apply Hg3. by eapply Hfilled.
    - apply (Hin3 i' j b'); [| done | done]. apply elem_of_others. split; [done |].
      rewrite (still_shards _ _ S2). unfold read_at in Hr'. destruct (p_shards p0 !! i') eqn:Hi'; [| done].
      by eapply lookup_lt_Some. }
  eapply wp_mono; [exact Hstray |]. intros r p3 (slots3 & -> & S3 & He3 & Hh3). wp_step.
  eapply wp_calm; [apply calm_count |]. intros [] p4 _ S4. apply wp_lift.
  split; [by apply (ps_decode _ _ _ _ Hps) | by etransitivity].
Qed.

(** ** The whole read *)

(** The first readable target, or none of them can be read. *)
Lemma wp_probe rank ids last p0 p :
  still p0 p →
  wp (probe_ranks key rank ids last) (λ r p', still p0 p' ∧
    match r with
    | Ok (Some (n, b), _) => ∃ j i, n = (rank + j)%nat ∧ ids !! j = Some i ∧ read_at p0 i key = Ok b ∧
        ∀ j' i' b', (j' < j)%nat → ids !! j' = Some i' → read_at p0 i' key ≠ Ok b'
    | Ok (None, _) => ∀ i b, i ∈ ids → read_at p0 i key ≠ Ok b
    | Err _ => False
    end) p.
Proof.
  revert rank last p. induction ids as [| i ids IH]; intros rank last p S; simpl.
  { apply wp_ret. split; [done |]. intros i b Hi. by apply not_elem_of_nil in Hi. }
  wp_step. apply wp_shard_get. intros p1 S1. rewrite (read_at_still _ _ _ _ S).
  assert (still p0 p1) as S01 by (by etransitivity). destruct (read_at p0 i key) as [b | e] eqn:Hr.
  - apply wp_ret. split; [done |]. exists 0%nat, i. split_and!; [lia | done | done |]. intros; lia.
  - eapply wp_mono; [by apply IH |]. intros [[[[n b] |] last'] | e'] p2 [S2 H]; [| | done].
    + split; [done |]. destruct H as (j & i' & -> & Hj & Hb & Hmin). exists (1 + j)%nat, i'.
      split_and!; [lia | done | done |]. intros [| j'] i2 b2 Hlt Hj2; [simpl in Hj2; congruence |].
      apply (Hmin j'); [lia | done].
    + split; [done |]. intros i' b [-> | Hi']%elem_of_cons; [congruence | by apply H].
Qed.

(** Without readable targets: the scan of the others. *)
Lemma wp_scan_others ids slots hdr p0 p :
  still p0 p → mixed p0 → slots = [] ∨ erased slots pieces →
  (hdr = None ∨ ∃ j b, pieces !! j = Some b ∧ hdr = parse_piece_header b) →
  wp (scan_others key ids slots hdr) (λ r p', still p0 p' ∧
    match r with
    | Ok (inl b) => b = body
    | Ok (inr (slots', hdr')) => (slots' = [] ∨ erased slots' pieces) ∧ grown slots slots' ∧
        (hdr' = None ∨ ∃ j b, pieces !! j = Some b ∧ hdr' = parse_piece_header b) ∧
        (∀ i j b, i ∈ ids → read_at p0 i key = Ok b → pieces !! j = Some b → slots' !! j = Some (Some b) ∧ is_Some hdr') ∧
        (is_Some hdr → is_Some hdr')
    | Err _ => False
    end) p.
Proof.
  intros S Hm. revert slots hdr p S. induction ids as [| i ids IH]; intros slots hdr p S He Hh; simpl.
  { apply wp_ret. split_and!; [done | done | done | done | | done]. intros i j b Hi. by apply not_elem_of_nil in Hi. }
  wp_step. apply wp_shard_get. intros p1 S1. rewrite (read_at_still _ _ _ _ S).
  assert (still p0 p1) as S01 by (by etransitivity). destruct (read_at p0 i key) as [b | e] eqn:Hr.
  2: { eapply wp_mono; [by apply IH |]. intros [[b' | [slots' hdr']] | e'] p2 [S2 H]; [done | | done].
       destruct H as (? & ? & ? & Hin & ?). split_and!; [done | done | done | done | | done].
       intros i' j b [-> | Hi']%elem_of_cons Hr' Hj; [congruence | by eapply Hin]. }
  destruct (Hm i b Hr) as [[-> Hb] | [j Hj]].
  { rewrite Hb. apply wp_ret. done. }
  pose proof (ps_header _ _ _ _ Hps _ _ Hj) as Hhd. rewrite Hhd. simpl.
  pose proof (ps_fits _ _ _ _ Hps) as [Hk0 Hm0 Hkm _]. rewrite wrap_small by lia.
  replace (Z.to_nat (Z.of_nat k + Z.of_nat m)) with (k + m)%nat by lia.
  set (slots1 := if (length slots =? k + m)%nat then slots else _).
  assert (erased slots1 pieces ∧ grown slots slots1) as [He1 Hg1].
  { unfold slots1. pose proof (ps_len _ _ _ _ Hps) as Hl. destruct He as [-> | He].
    - destruct (Nat.eqb_spec (length (@nil (option bytes))) (k + m)) as [Hl0 | _]; [simpl in Hl0; lia |]. split; [by apply erased_none | by intros j' b' ?].
    - rewrite (erased_length _ _ He), Hl, Nat.eqb_refl. done. }
  destruct (fill_piece slots1 j b _ He1 Hj Hhd) as (He2 & Hg2 & Hin2). eapply wp_mono.
  { apply (IH _ (Some _) p1); [done | by right |]. right. exists j, b. by rewrite Hhd. }
  intros [[b' | [slots' hdr']] | e'] p2 [S2 H]; [done | | done]. destruct H as (Hs' & Hg' & Hh' & Hin & Hsome).
  split_and!; [done | done | | done | | by intros _; apply Hsome].
  { etransitivity; [exact Hg1 |]. etransitivity; [exact Hg2 | exact Hg']. }
  intros i' j' b' [-> | Hi']%elem_of_cons Hr' Hj'; [| by eapply Hin].
  rewrite Hr in Hr'. injection Hr' as <-. rewrite <-(piece_index _ _ _ Hj Hj'). split; [by apply Hg' | by apply Hsome].
Qed.

(** The first readable target reads the body, or [k] pieces can be read. *)
Definition readable p (targets : list ShardId) : Prop :=
  (∃ A, available p A ∧ (k ≤ size A)%nat) ∨
  parse_piece_header body = None ∧ ∃ r i, targets !! r = Some i ∧ read_at p i key = Ok body ∧
    ∀ r' i' b, (r' < r)%nat → targets !! r' = Some i' → read_at p i' key ≠ Ok b.

Lemma wp_get_ec_aware ec p :
  pool_wf p → k = ec_data ec → m = ec_parity ec → (replicas (p_cfg p) ≤ k + m)%nat →
  mixed p →
  (∀ ids, placed p key (k + m) ids → (∀ t, steady t p → ids = pp_select key t (k + m)) → ranked p ids ∧ readable p ids) →
  wp (get_ec_aware key ec) (λ r p', r = Ok body ∧ still p p') p.
Proof.
  intros Hwf Hk Hmm Hrep Hm Hplace. unfold get_ec_aware, ec_total. do 2 wp_step. rewrite <-Hk, <-Hmm, Nat.max_l by done.
  wp_step. apply wp_ranking_steady; [done |]. intros targets p1 Hpl S1 Hst.
  destruct (Hplace targets Hpl Hst) as [Hrk Hrd]. apply placed_targets in Hpl as [_ Hlen].
  wp_step. eapply wp_mono; [by apply (wp_probe 0 targets NotFound p p1) |].
  intros [[[[rank b] |] last] | e] p2 [S2 H]; [| | done].
  - destruct H as (j & i & -> & Hj & Hb & Hmin). simpl. destruct (Hm i b Hb) as [[-> Hbd] | [j' Hj']].
    + rewrite Hbd. by apply wp_ret.
    + pose proof (Hrk _ _ _ _ Hj Hb Hj') as <-. pose proof (ps_header _ _ _ _ Hps _ _ Hj') as Hh.
      rewrite Hh. destruct Hrd as [(A & HA & HkA) | (Hbd & r & i' & Hr & Hb' & Hmin')].
      * eapply wp_mono; [by apply (wp_gather targets j i b p p2 A) |]. by intros r p3 [-> S3].
      * exfalso. destruct (Nat.lt_trichotomy j r) as [Hlt | [-> | Hlt]].
        -- by apply (Hmin' j i b).
        -- congruence.
        -- by apply (Hmin r i' body).
  - destruct Hrd as [(A & HA & HkA) | (_ & r & i' & Hr & Hb' & _)].
    2: { exfalso. by apply (H i' body); [eapply list_elem_of_lookup_2 |]. }
    do 3 wp_step. eapply wp_mono; [apply (wp_scan_others _ [] None p p2); try done; by left |].
    intros [[b | [slots hdr]] | e] p3 [S3 H3]; [subst b; by apply wp_ret | | done].
    destruct H3 as (Hs & _ & Hh & Hin & _). pose proof (ps_fits _ _ _ _ Hps) as [Hk0 _ _ _].
    assert (∀ j, j ∈ A → ∃ b, slots !! j = Some (Some b) ∧ is_Some hdr) as HAs.
    { intros j Hj. destruct (HA j Hj) as (i & b & Hr & Hb). exists b. apply (Hin i j b); [| done | done].
      apply elem_of_others. split; [intros Hi; by apply (H i b) |]. rewrite (still_shards _ _ S2).
      unfold read_at in Hr. destruct (p_shards p !! i) eqn:Hi'; [by eapply lookup_lt_Some | done]. }
    assert (A ≠ ∅) as HAne by (intros ->; rewrite size_empty in HkA; lia).
    apply set_choose_L in HAne as [j0 Hj0]. destruct (HAs j0 Hj0) as (b0 & Hb0 & [h Hhs]).
    destruct Hh as [-> | (j & b & Hb & ->)]; [done |]. rewrite (ps_header _ _ _ _ Hps _ _ Hb). simpl. rewrite !Nat2Z.id.
    assert (k ≤ have slots)%nat as Hhave.
    { etransitivity; [exact HkA |]. apply have_size. intros j1 Hj1. destruct (HAs j1 Hj1) as (b1 & ? & _). by exists b1. }
    rewrite (proj2 (Nat.leb_le _ _)) by done. wp_step. eapply wp_calm; [apply calm_count |]. intros [] p4 _ S4.
    apply wp_lift. split; [| by etransitivity]. apply (ps_decode _ _ _ _ Hps); [| done].
    destruct Hs as [-> | Hs]; [done | exact Hs].
Qed.
End EcRead.
