(* ===== verification/PoolWrite.v ===== *)
(** * Writes of the pool

    The state in the middle of a write over several shards, and what a put of
    a mirrored body leaves behind: enough copies for the quorum, nothing else
    changed, and a heal request when a copy is missing. *)

From Stdlib Require Import ZArith Lia.
From stdpp Require Import base list gmap sets strings.
From S2P Require Import Prelude Domain Metrics Throttle HealQueue Latency DiskSlow Piece Erasure Verified PoolState Pool PoolFacts PoolRead.

Section PoolWrite.
Context {E : Type} `{SE : !ShardEngine E, DS : !DiskSpec E} `{PP : !PlacementPolicy} `{PPS : !PlacementSpec}
  `{RS : !ReedSolomon} `{BO : !Bao}.
Implicit Types (p : pool E) (W : gmap nat (DomainResult bytes)) (T : gset nat).
Local Abbreviation PM := (M (pool E) DomainError).

(** ** In the middle of a write *)

(** Shard [s] became [s']: the key now reads [w], or it refused the write, or
    it was not asked. *)
Definition shard_step key (w : option (DomainResult bytes)) (refused : bool) (s s' : E) : Prop :=
  match w with
  | Some r => se_ok s' ∧ reads_update s key r s'
  | None => if refused then se_ok s' ∧ reads_same s s' else s' = s
  end.

(** Since [p0], the shards of [W] came to read the key as it gives, those of
    [T] refused a write, the others are as they were; the heal queue is [q]. *)
Record wrote p0 key W T (q : HealQueue) p : Prop := {
  wt_cfg : p_cfg p = p_cfg p0;
  wt_len : length (p_shards p) = length (p_shards p0);
  wt_wf : pool_wf p;
  wt_steady : ∀ t, steady t p0 → steady t p;
  wt_mrf : p_mrf p = q;
  wt_range : ∀ i r, W !! i = Some r → (i < length (p_shards p0))%nat;
  wt_shards : ∀ i s, p_shards p0 !! i = Some s →
    ∃ s', p_shards p !! i = Some s' ∧ shard_step key (W !! i) (bool_decide (i ∈ T)) s s';
}.
Local Abbreviation writing p0 key W T := (wrote p0 key W T (p_mrf p0)).

Lemma writing_start p key : pool_wf p → writing p key ∅ ∅ p.
Proof.
  intros Hwf. split; try done. intros i s Hs. exists s. split; [done |]. unfold shard_step.
  by rewrite lookup_empty, bool_decide_eq_false_2 by set_solver.
Qed.

Lemma wrote_still p0 key W T q p p' : wrote p0 key W T q p → still p p' → wrote p0 key W T q p'.
Proof.
  intros [Hc Hl Hw Ht Hm Hg Hs] S. split.
  - by rewrite (still_cfg _ _ S).
  - by rewrite (still_shards _ _ S).
  - by apply (still_wf _ _ S).
  - intros t H0. by apply (still_steady _ _ _ S), Ht.
  - by rewrite (still_mrf _ _ S).
  - done.
  - by rewrite (still_shards _ _ S).
Qed.

(** ** One leg *)

(** [f] writes a body to one shard, and touches nothing but that shard. *)
Definition leg_spec {A} key (f : A → PM unit) (idx : A → nat) (body : A → bytes) : Prop :=
  ∀ a p s, p_shards p !! idx a = Some s → se_ready s → se_fits key (body a) →
    wp (f a) (λ r p', ∃ p1 s', still p p1 ∧ still (set_shards (<[idx a := s']> (p_shards p1)) p1) p' ∧ se_ok s' ∧
      match r with Ok _ => reads_update s key (Ok (body a)) s' | Err _ => reads_same s s' end) p.

Lemma leg_on_shard {A} key (c : A → M E DomainError unit) (idx : A → nat) body :
  (∀ a s, se_ready s → se_fits key (body a) → wp (c a) (λ r s', se_ok s' ∧
    match r with Ok _ => reads_update s key (Ok (body a)) s' | Err _ => reads_same s s' end) s) →
  leg_spec key (λ a, metered (idx a) (on_shard (idx a) (c a))) idx body.
Proof.
  intros Hc a p s Hs Hr Hf. apply wp_metered. intros p1 S1. specialize (Hc a s Hr Hf).
  unfold wp, on_shard in *. rewrite (still_shards _ _ S1), Hs. destruct (c a s) as [r s']. simpl in *.
  intros p3 S3. exists p1, s'. by rewrite (still_shards _ _ S1).
Qed.

Lemma leg_put key d : leg_spec key (λ sid, shard_put sid key d) id (λ _, d).
Proof. apply (leg_on_shard key (λ _, se_put key d) id). intros _ s. by apply se_put_spec. Qed.

Lemma leg_put_meta {A} key (idx : A → nat) (body : A → bytes) obj :
  (0 <= obj < 2 ^ 64)%Z → leg_spec key (λ a, shard_put_meta (idx a) key (body a) (Some obj)) idx body.
Proof.
  intros Ho. apply (leg_on_shard key (λ a, se_put_meta key (body a) (Some obj)) idx).
  intros a s ? ?. by apply se_put_meta_spec.
Qed.

(** What one shard does to the state of a write. *)
Lemma wrote_set p0 key W T q p i s s' r p1 p' :
  wrote p0 key W T q p → p_shards p0 !! i = Some s → still p p1 → still (set_shards (<[i := s']> (p_shards p1)) p1) p' →
  (∀ W' T', (∀ j, j ≠ i → W' !! j = W !! j ∧ (j ∈ T' ↔ j ∈ T)) → W' !! i = r →
     shard_step key r (bool_decide (i ∈ T')) s s' → wrote p0 key W' T' q p').
Proof.
  intros HW Hs S1 S2 W' T' Hsame Hr Hstep. eapply wrote_still; [| exact S2].
  destruct (wrote_still _ _ _ _ _ _ _ HW S1) as [Hc Hl Hwf Ht Hm Hg Hsh].
  assert (i < length (p_shards p0))%nat as Hi by (by eapply lookup_lt_Some).
  split; simpl; [done | by rewrite length_insert | | done | done | |].
  - intros c Hc'. simpl in *. rewrite length_insert. by apply Hwf.
  - intros j rj Hj. destruct (decide (j = i)) as [-> | Hne]; [done |]. destruct (Hsame j Hne) as [Hj' _].
    rewrite Hj' in Hj. by eapply Hg.
  - intros j sj Hj. destruct (decide (j = i)) as [-> | Hne].
    + rewrite Hs in Hj. injection Hj as <-. exists s'. split; [apply list_lookup_insert_eq; by rewrite Hl | by rewrite Hr].
    + rewrite list_lookup_insert_ne by done. destruct (Hsh j sj Hj) as (sj' & Hj' & Hst). exists sj'. split; [done |].
      destruct (Hsame j Hne) as [-> HT]. by rewrite (bool_decide_ext _ _ HT).
Qed.

Lemma wp_leg {A} key f (idx : A → nat) body a p0 W T q p :
  leg_spec key f idx body → wrote p0 key W T q p →
  W !! idx a = None → idx a ∉ T → (idx a < length (p_shards p0))%nat →
  Forall se_ready (p_shards p0) → se_fits key (body a) →
  wp (f a) (λ r p', match r with
    | Ok _ => wrote p0 key (<[idx a := Ok (body a)]> W) T q p'
    | Err _ => wrote p0 key W ({[idx a]} ∪ T) q p'
    end) p.
Proof.
  intros Hleg HW Hw Ht Hi Hr Hf. destruct (lookup_lt_is_Some_2 _ _ Hi) as [s Hs].
  destruct (wt_shards _ _ _ _ _ _ HW _ _ Hs) as (s1 & Hs1 & Hst). unfold shard_step in Hst.
  rewrite Hw, bool_decide_eq_false_2 in Hst by done. subst s1.
  assert (se_ready s) as Hrs by (rewrite Forall_forall in Hr; by eapply Hr, list_elem_of_lookup_2).
  eapply wp_mono; [by apply (Hleg a p s) |]. intros r p' (p1 & s' & S1 & S2 & Hok & Hres).
  destruct r; eapply (wrote_set _ _ _ _ _ _ _ _ _ _ _ _ HW Hs S1 S2).
  - intros j Hne. by rewrite lookup_insert_ne.
  - apply lookup_insert_eq.
  - by split.
  - intros j Hne. split; [done | set_solver].
  - exact Hw.
  - unfold shard_step. by rewrite bool_decide_eq_true_2 by set_solver.
Qed.

(** ** The parallel legs *)

(** After the legs of [done]: how many took the write, which failed. *)
Record legs_done {A} p0 key (idx : A → nat) (body : A → bytes) (done : list A) (lg : legs A) W T p : Prop := {
  ld_writing : writing p0 key W T p;
  ld_ok : size W = lg_ok lg;
  ld_refused : T = list_to_set (map idx (lg_failed lg));
  ld_count : length done = (lg_ok lg + length (lg_failed lg))%nat;
  ld_bodies : ∀ i d, W !! i = Some d → ∃ a, a ∈ done ∧ idx a = i ∧ d = Ok (body a);
  ld_failed : ∀ a, a ∈ lg_failed lg → a ∈ done;
  ld_sub : lg_failed lg `sublist_of` done;
  ld_all : ∀ a, a ∈ done → a ∈ lg_failed lg ∨ W !! idx a = Some (Ok (body a));
}.

Lemma legs_next {A} p0 key (f : A → PM unit) idx body a done lg W T p :
  leg_spec key f idx body → legs_done p0 key idx body done lg W T p →
  NoDup (map idx (done ++ [a])) → (idx a < length (p_shards p0))%nat →
  Forall se_ready (p_shards p0) → se_fits key (body a) →
  wp (f a) (λ r p', match r with
    | Ok _ => legs_done p0 key idx body (done ++ [a])
        {| lg_ok := S (lg_ok lg); lg_failed := lg_failed lg; lg_err := lg_err lg |} (<[idx a := Ok (body a)]> W) T p'
    | Err e => legs_done p0 key idx body (done ++ [a])
        {| lg_ok := lg_ok lg; lg_failed := lg_failed lg ++ [a]; lg_err := Some e |} W ({[idx a]} ∪ T) p'
    end) p.
Proof.
  intros Hleg [HW Hok HT Hcnt Hb Hf Hsub Hall] Hnd Hi Hr Hfit.
  rewrite map_app in Hnd. apply NoDup_app in Hnd as (_ & Hnd & _).
  assert (∀ b, b ∈ done → idx b ≠ idx a) as Hne.
  { intros b Hb' Heq. apply (Hnd (idx b)); [by apply list_elem_of_fmap_2 | simpl; rewrite Heq; left]. }
  assert (W !! idx a = None) as HWa.
  { destruct (W !! idx a) as [d |] eqn:Hd; [| done]. destruct (Hb _ _ Hd) as (b & Hb' & He & _). by destruct (Hne b Hb'). }
  assert (idx a ∉ T) as HTa.
  { rewrite HT, elem_of_list_to_set. intros (b & He & Hb')%list_elem_of_fmap. by apply (Hne b); [apply Hf |]. }
  eapply wp_mono; [by apply (wp_leg key f idx body a p0 W T (p_mrf p0)) |]. intros [[] | e] p' HW'.
  - split; simpl; [done | by rewrite map_size_insert_None, Hok | done | rewrite length_app; simpl; lia | | | |].
    + intros i d. destruct (decide (i = idx a)) as [-> | Hn].
      * rewrite lookup_insert_eq. intros [= <-]. exists a. split_and!; [| done | done]. apply elem_of_app. right. by left.
      * rewrite lookup_insert_ne by done. intros Hd. destruct (Hb _ _ Hd) as (b & ? & ? & ?). exists b.
        split_and!; [| done | done]. apply elem_of_app. by left.
    + intros b Hb'. apply elem_of_app. left. by apply Hf.
    + by apply sublist_inserts_r.
    + intros b [Hb' | ->%list_elem_of_singleton]%elem_of_app; [| right; apply lookup_insert_eq].
      destruct (Hall b Hb') as [? | HWb]; [by left | right]. rewrite lookup_insert_ne; [done |].
      intros Heq. by apply (Hne b Hb').
  - split; simpl; [done | done | | rewrite !length_app; simpl; lia | | | |].
    + rewrite HT, map_app, list_to_set_app_L. simpl. set_solver.
    + intros i d Hd. destruct (Hb _ _ Hd) as (b & ? & ? & ?). exists b. split_and!; [| done | done].
      apply elem_of_app. by left.
    + intros b [Hb' | Hb']%elem_of_app; apply elem_of_app; [left; by apply Hf | by right].
    + by apply sublist_app.
    + intros b [Hb' | Hb']%elem_of_app; [| by left; apply elem_of_app; right].
      destruct (Hall b Hb') as [? | HWb]; [left; apply elem_of_app; by left | by right].
Qed.

Definition legs0 {A} : legs A := {| lg_ok := 0; lg_failed := []; lg_err := None |}.

Lemma wp_legs_fold {A} p0 key (f : A → PM unit) idx body l done lg W T p :
  leg_spec key f idx body → legs_done p0 key idx body done lg W T p →
  NoDup (map idx (done ++ l)) → (∀ a, a ∈ l → (idx a < length (p_shards p0))%nat ∧ se_fits key (body a)) →
  Forall se_ready (p_shards p0) →
  wp (mfold (leg_step f) lg l)
    (λ r p', ∃ lg' W' T', r = Ok lg' ∧ legs_done p0 key idx body (done ++ l) lg' W' T' p') p.
Proof.
  revert done lg W T p. induction l as [| a l IH]; intros done lg W T p Hleg HL Hnd Hl Hr; simpl.
  { apply wp_ret. rewrite app_nil_r. eauto 10. }
  destruct (Hl a) as [Hi Hfit]; [left |].
  assert (done ++ a :: l = (done ++ [a]) ++ l) as Heq by (by rewrite <-app_assoc).
  rewrite Heq in Hnd |- *. clear Heq. wp_step. unfold leg_step at 1. wp_step. eapply wp_mono.
  { apply (legs_next p0 key f idx body a done lg W T); try done. rewrite map_app in Hnd.
    by apply NoDup_app in Hnd as [Hnd _]. }
  intros r p1 H1. apply wp_ret.
  destruct r; (eapply IH; [done | exact H1 | done | | done]); intros b Hb; apply Hl; by right.
Qed.

Lemma wp_run_legs {A} p0 key (f : A → PM unit) idx body l p :
  leg_spec key f idx body → pool_wf p0 → still p0 p →
  NoDup (map idx l) → (∀ a, a ∈ l → (idx a < length (p_shards p0))%nat ∧ se_fits key (body a)) →
  Forall se_ready (p_shards p0) →
  wp (run_legs f l) (λ r p', ∃ lg W T l', r = Ok lg ∧ l' ≡ₚ l ∧ legs_done p0 key idx body l' lg W T p') p.
Proof.
  intros Hleg Hwf S Hnd Hl Hr. unfold run_legs. wp_step. eapply wp_calm; [apply calm_arrivals |].
  intros l' p1 Hp S1. cbv beta in Hp. eapply wp_mono.
  { apply (wp_legs_fold p0 key f idx body l' [] legs0 ∅ ∅); [done | | | | done].
    - split; try done; [eapply wrote_still; [by apply writing_start | by etransitivity] |].
      intros a Ha. by apply not_elem_of_nil in Ha.
    - simpl. assert (map idx l' ≡ₚ map idx l) as -> by (by apply Permutation_map). done.
    - intros a Ha. apply Hl. by rewrite <-Hp. }
  intros r p2 (lg & W & T & -> & HL). exists lg, W, T, l'. done.
Qed.

(** ** Handoff *)

(** [ids] are shards that have not been asked. *)
Definition unasked p0 W T (ids : list nat) : Prop :=
  NoDup ids ∧ ∀ i, i ∈ ids → (i < length (p_shards p0))%nat ∧ W !! i = None ∧ i ∉ T.

Lemma wp_handoff_one p0 key write d spares err W T p :
  leg_spec key write id (λ _, d) → Forall se_ready (p_shards p0) → se_fits key d →
  writing p0 key W T p → unasked p0 W T spares →
  wp (handoff_one write spares err) (λ r p', ∃ placed rest err' W' T', r = Ok (placed, rest, err') ∧
    writing p0 key W' T' p' ∧ unasked p0 W' T' rest ∧ T ⊆ T' ∧ rest ⊆ spares ∧
    if placed : bool then ∃ i, i ∈ spares ∧ W !! i = None ∧ W' = <[i := Ok d]> W else W' = W) p.
Proof.
  intros Hleg Hr Hfit. revert err T p. induction spares as [| i spares IH]; intros err T p HW [Hnd Hun]; simpl.
  { apply wp_ret. exists false, [], err, W, T. done. }
  apply NoDup_cons in Hnd as [Hi Hnd]. destruct (Hun i) as (Hlt & HWi & HTi); [left |].
  wp_step. eapply wp_mono; [by apply (wp_leg key write id (λ _, d) i p0 W T (p_mrf p0)) |]. intros [[] | e] p1 HW1.
  - wp_step. eapply wp_calm; [apply calm_count |]. intros [] p2 _ S2. apply wp_ret.
    exists true, spares, err, (<[i := Ok d]> W), T. split; [done |]. split; [by eapply wrote_still |].
    split; [| split; [done |]; split; [by intros j ?; right | exists i; by split; [left |]]]. split; [done |]. intros j Hj. destruct (Hun j) as (? & ? & ?); [by right |].
    split_and!; [done | | done]. rewrite lookup_insert_ne; [done |]. by intros ->.
  - eapply wp_mono; [apply (IH (Some e) ({[i]} ∪ T)); [done |] |].
    + split; [done |]. intros j Hj. destruct (Hun j) as (? & ? & ?); [by right |]. split_and!; [done | done |].
      intros [->%elem_of_singleton | ?]%elem_of_union; done.
    + intros r p2 (placed & rest & err' & W' & T' & -> & HW' & Hun' & HT' & Hsub & Hpl).
      exists placed, rest, err', W', T'. split_and!; try done.
      * etransitivity; [| done]. apply union_subseteq_r.
      * intros j Hj. right. by apply Hsub.
      * destruct placed; [| done]. destruct Hpl as (j & Hj & ?). exists j. split; [by right | done].
Qed.

Lemma wp_handoff p0 key write d n spares ok err W T p :
  leg_spec key write id (λ _, d) → Forall se_ready (p_shards p0) → se_fits key d →
  writing p0 key W T p → unasked p0 W T spares → size W = ok →
  wp (handoff n write spares ok err) (λ r p', ∃ ok' err' W' T', r = Ok (ok', err') ∧
    writing p0 key W' T' p' ∧ size W' = ok' ∧ T ⊆ T' ∧
    ∀ i d', W' !! i = Some d' → W !! i = Some d' ∨ d' = Ok d) p.
Proof.
  intros Hleg Hr Hfit. revert spares ok err W T p. induction n as [| n IH]; intros spares ok err W T p HW Hun Hok; simpl.
  { apply wp_ret. exists ok, err, W, T. split_and!; [done | done | done | done | auto]. }
  wp_step. eapply wp_mono; [by eapply wp_handoff_one |].
  intros r p1 (placed & rest & err' & W' & T' & -> & HW' & Hun' & HT' & _ & Hpl). destruct placed.
  - destruct Hpl as (i & _ & Hi & ->). eapply wp_mono.
    { apply (IH rest (S ok) err' (<[i := Ok d]> W) T'); [done | done |]. rewrite map_size_insert_None by done. lia. }
    intros r p2 (ok' & err2 & W2 & T2 & -> & HW2 & Hs2 & HT2 & Hb2). exists ok', err2, W2, T2.
    split_and!; [done | done | done | by etransitivity |]. intros j d' Hj. destruct (Hb2 j d' Hj) as [Hj' | ->]; [| by right].
    destruct (decide (j = i)) as [-> | Hne]; [rewrite lookup_insert_eq in Hj'; injection Hj' as <-; by right |].
    rewrite lookup_insert_ne in Hj' by done. by left.
  - subst W'. apply wp_ret. exists ok, err', W, T'. split_and!; [done | done | done | done | auto].
Qed.

(** ** put of a mirrored body *)

Lemma wp_enqueue_heal p0 key W T q p k prio :
  wrote p0 key W T q p →
  wp (enqueue_heal k prio) (λ r p', r = Ok tt ∧ wrote p0 key W T (hq_push k prio q) p') p.
Proof.
  intros HW. unfold enqueue_heal, mrf_push. wp_step. eapply wp_calm; [apply calm_count |]. intros [] p1 _ S1.
  wp_step. split; [done |]. destruct (wrote_still _ _ _ _ _ _ _ HW S1) as [? ? ? ? Hm ? ?]. split; simpl; try done. by rewrite Hm.
Qed.

(** The outcome of a put: with [Ok], at least the quorum of copies, or as many
    as there are targets, and either the copies are those of the targets or the
    key waits for healing; with [Err], fewer copies than the quorum. *)
Definition put_outcome p0 key d quorum (r : result DomainError unit) p' : Prop :=
  ∃ W T q, wrote p0 key W T q p' ∧ (∀ i d', W !! i = Some d' → d' = Ok d) ∧
  match r with
  | Ok _ => ∃ reps, placed p0 key (replicas (p_cfg p0)) reps ∧ reps ≠ [] ∧ (Nat.min quorum (length reps) ≤ size W)%nat ∧
      ((q = p_mrf p0 ∧ ∀ i, i ∈ dom W ↔ i ∈ reps) ∨ q = hq_push key Normal (p_mrf p0))
  | Err _ => (size W < quorum)%nat ∧ (q = p_mrf p0 ∨ q = hq_push key Normal (p_mrf p0))
  end.

Lemma wp_put_mirror key d p :
  pool_wf p → Forall se_ready (p_shards p) → se_fits key d → (1 ≤ write_quorum (p_cfg p))%nat →
  wp (put_mirror key d) (put_outcome p key d (write_quorum (p_cfg p))) p.
Proof.
  intros Hwf Hr Hfit Hq. unfold put_mirror. do 3 wp_step. apply wp_replicas; [done |].
  intros reps p1 Hpl0 S1. destruct (placed_targets _ _ _ _ Hpl0) as [[Hnd Hin] _]. case_bool_decide as Hre.
  { apply wp_throw. exists ∅, ∅, (p_mrf p). split; [by eapply wrote_still; [apply writing_start |] |].
    split; [done |]. rewrite map_size_empty. split; [lia | by left]. }
  wp_step. eapply wp_mono.
  { apply (wp_run_legs p key (λ sid, shard_put sid key d) id (λ _, d) reps); try done; [apply leg_put | by rewrite map_id |].
    intros i Hi. split; [by apply Hin | done]. }
  intros r p2 (lg & W & T & l' & -> & Hp & [HW Hok HT Hcnt Hb Hf _ Hall]). apply Permutation_length in Hp as Hpl.
  assert (∀ i d', W !! i = Some d' → d' = Ok d) as Hd by (intros i d' Hi; by destruct (Hb _ _ Hi) as (? & _ & _ & ->)).
  wp_step. case_bool_decide as Hfl.
  - apply wp_ret. rewrite Hfl in Hcnt. simpl in Hcnt.
    rewrite (proj2 (Nat.leb_le _ _)) by lia. apply wp_ret. exists W, T, (p_mrf p).
    split; [by eapply wrote_still |]. split; [done |]. exists reps. split_and!; [done | done | lia |]. left. split; [done |]. intros i. rewrite elem_of_dom, <-Hp. split.
    + intros [d' Hi]. by destruct (Hb _ _ Hi) as (a & Ha & <- & _).
    + intros Hi. destruct (Hall i Hi) as [Hx | Hx]; [rewrite Hfl in Hx; by apply not_elem_of_nil in Hx | eauto].
  - wp_step. eapply wp_mono; [apply calm_topology, (wt_wf _ _ _ _ _ _ HW) |].
    intros r p3 (t & -> & Ht & S3). rewrite (wt_len _ _ _ _ _ _ HW) in Ht.
    pose proof (select_targets p key t (length (p_shards p)) Ht) as [Hnd' Hin'].
    assert (∀ i, i ∈ dom W ∨ i ∈ T → i ∈ reps) as Hdone.
    { intros i [Hi | Hi]; rewrite <-Hp.
      - apply elem_of_dom in Hi as [d' Hi]. by destruct (Hb _ _ Hi) as (a & Ha & <- & _).
      - rewrite HT, elem_of_list_to_set, map_id in Hi. by apply Hf. }
    wp_step. eapply wp_mono.
    { eapply (wp_handoff p key (λ sp, shard_put sp key d) d _ _ _ _ W T); try done; [apply leg_put | by eapply wrote_still | ].
      split; [by apply NoDup_filter |]. intros i (Hi & Hi')%list_elem_of_filter. split_and!; [by apply Hin' | |].
      - apply not_elem_of_dom. intros Hd'. apply Hi. apply Hdone. by left.
      - intros HiT. apply Hi. apply Hdone. by right. }
    intros r p4 (ok' & err' & W' & T' & -> & HW' & Hs' & _ & Hb').
    wp_step. eapply wp_mono; [by eapply wp_enqueue_heal |]. intros r p5 [-> HW5]. apply wp_ret. simpl.
    assert (∀ i d', W' !! i = Some d' → d' = Ok d) as Hd' by (intros i d' Hi; destruct (Hb' _ _ Hi); eauto).
    destruct (Nat.leb_spec (Nat.min (write_quorum (p_cfg p)) (length reps)) ok') as [Hle | Hgt].
    + apply wp_ret. exists W', T', (hq_push key Normal (p_mrf p)). split; [done |]. split; [done |].
      exists reps. split_and!; [done | done | lia | by right].
    + apply wp_throw. exists W', T', (hq_push key Normal (p_mrf p)). split; [done |]. split; [done |].
      split; [lia | by right].
Qed.

(** ** put *)

(** A pool that mirrors: no erasure coding, no outboards. *)
Definition mirrored p : Prop :=
  pc_ec (p_cfg p) = None ∧ pc_outboard (p_cfg p) = None ∧ (1 ≤ write_quorum (p_cfg p))%nat.

Lemma still_wrote p0 p1 key W T q p : still p0 p1 → wrote p1 key W T q p → wrote p0 key W T q p.
Proof.
  intros S [Hc Hl Hw Ht Hm Hg Hs]. split; [| | done | | done | |].
  - by rewrite <-(still_cfg _ _ S).
  - by rewrite Hl, (still_shards _ _ S).
  - intros t H0. by apply Ht, (still_steady _ _ _ S).
  - by rewrite <-(still_shards _ _ S).
  - by rewrite <-(still_shards _ _ S).
Qed.

Lemma put_outcome_still p0 p1 key d n r p : still p0 p1 → put_outcome p1 key d n r p → put_outcome p0 key d n r p.
Proof.
  intros S (W & T & q & HW & Hd & Hr). exists W, T, q. split; [by eapply still_wrote |].
  split; [done |]. rewrite (still_mrf _ _ S) in Hr. destruct r; [| done]. destruct Hr as (reps & Hpl & Hr). exists reps.
  rewrite (still_cfg _ _ S) in Hpl. split; [by eapply placed_still | done].
Qed.

Lemma put_outcome_after p0 key d n r p p' : put_outcome p0 key d n r p → still p p' → put_outcome p0 key d n r p'.
Proof. intros (W & T & q & HW & Hr) S. exists W, T, q. split; [by eapply wrote_still | done]. Qed.

(** The counting around a put without an outboard changes nothing else. *)
Lemma wp_put_around key d p (Q : result DomainError unit → pool E → Prop) :
  pc_outboard (p_cfg p) = None → (p_shutting_down p = true → Q (Err Shutdown) p) →
  (∀ p0, still p p0 → wp (put_body key d) (λ r p1, ∀ p2, still p1 p2 → Q r p2) p0) → wp (pool_put key d) Q p.
Proof.
  intros Hob Hdown HQ. unfold pool_put, is_shutting_down. do 2 wp_step.
  destruct (p_shutting_down p); [by apply wp_throw, Hdown |].
  wp_step. eapply wp_calm; [apply calm_now |]. intros t0 p1 _ S1.
  wp_step. eapply wp_calm; [apply calm_count |]. intros _ p2 _ S2. wp_step.
  assert (still p p2) as S by (by etransitivity). unfold put_inner. do 2 wp_step. rewrite (still_cfg _ _ S), Hob.
  eapply wp_mono; [by apply HQ |]. intros r p3 Hout.
  wp_step. eapply wp_calm; [apply calm_count |]. intros ? p4 _ S4.
  wp_step. eapply wp_calm; [apply calm_now |]. intros t1 p5 _ S5.
  wp_step. eapply wp_calm; [apply calm_count |]. intros ? p6 _ S6.
  wp_step. eapply wp_calm; [apply calm_count |]. intros ? p7 _ S7.
  wp_step. eapply wp_calm; [apply calm_count |]. intros ? p8 _ S8. apply wp_lift.
  apply Hout. by do 4 (etransitivity; [done |]).
Qed.

Lemma wp_pool_put key d p :
  pool_wf p → Forall se_ready (p_shards p) → se_fits key d → mirrored p →
  wp (pool_put key d) (put_outcome p key d (write_quorum (p_cfg p))) p.
Proof.
  intros Hwf Hr Hfit (Hec & Hob & Hq). apply wp_put_around; [done | |].
  { intros _. exists ∅, ∅, (p_mrf p). split; [eapply wrote_still; [by apply writing_start | done] |].
    split; [done |]. rewrite map_size_empty. split; [lia | by left]. }
  intros p0 S. unfold put_body. do 2 wp_step. rewrite (still_cfg _ _ S), Hec. eapply wp_mono.
  { apply wp_put_mirror; [by eapply still_wf | by rewrite (still_shards _ _ S) | done | by rewrite (still_cfg _ _ S)]. }
  intros r p3 Hout p4 S4. rewrite (still_cfg _ _ S) in Hout. apply (put_outcome_still _ _ _ _ _ _ _ S) in Hout.
  by eapply put_outcome_after.
Qed.

(** What the shards of a written pool read. *)
Lemma wrote_read p0 key W T q p i k :
  wrote p0 key W T q p →
  read_at p i k = match W !! i with Some r => if decide (key = k) then r else read_at p0 i k | None => read_at p0 i k end.
Proof.
  intros [_ Hl _ _ _ Hg Hs]. unfold read_at. destruct (W !! i) as [r |] eqn:Hi.
  - destruct (lookup_lt_is_Some_2 _ _ (Hg i _ Hi)) as [s Hs0].
    destruct (Hs i s Hs0) as (s' & -> & Hst). rewrite Hs0, Hi in *. destruct Hst as [_ Hu]. by rewrite (Hu k).
  - destruct (p_shards p0 !! i) as [s |] eqn:Hs0.
    + destruct (Hs i s Hs0) as (s' & -> & Hst). rewrite Hi in Hst. unfold shard_step in Hst.
      case_bool_decide; [by destruct Hst as [_ ->] | by subst].
    + apply lookup_ge_None in Hs0. by rewrite (proj2 (lookup_ge_None (p_shards p) i)) by lia.
Qed.

Lemma wrote_reads p0 key d W T q p i k :
  wrote p0 key W T q p → (∀ i d', W !! i = Some d' → d' = Ok d) →
  read_at p i k = if decide (i ∈ dom W ∧ k = key) then Ok d else read_at p0 i k.
Proof.
  intros HW Hd. rewrite (wrote_read _ _ _ _ _ _ _ _ HW). destruct (W !! i) as [r |] eqn:Hi.
  - pose proof (Hd i r Hi) as ->. assert (i ∈ dom W) as HiW by (apply elem_of_dom; eauto).
    destruct (decide (key = k)) as [-> | Hne]; [by rewrite decide_True | rewrite decide_False; [done |]].
    by intros [_ ->].
  - rewrite decide_False; [done |]. intros [HiW _]. by apply not_elem_of_dom in Hi.
Qed.

Lemma wrote_ok p0 key W T q p : wrote p0 key W T q p → Forall se_ready (p_shards p0) → Forall se_ok (p_shards p).
Proof.
  intros [_ Hl _ _ _ _ Hs] Hr. rewrite Forall_forall in Hr. apply Forall_forall. intros s' (i & Hi)%list_elem_of_lookup.
  assert (i < length (p_shards p0))%nat as Hlt by (rewrite <-Hl; by eapply lookup_lt_Some).
  destruct (lookup_lt_is_Some_2 _ _ Hlt) as [s Hs0]. destruct (Hs i s Hs0) as (s1 & Hi' & Hst).
  rewrite Hi in Hi'. injection Hi' as <-. unfold shard_step in Hst.
  pose proof (se_ready_ok s (Hr s (list_elem_of_lookup_2 _ _ _ Hs0))) as Hok.
  destruct (W !! i); [by destruct Hst | case_bool_decide; [by destruct Hst | by subst]].
Qed.

(** C2. The write quorum of a mirrored pool: a put touches at most the shards
    of [copies], which afterwards read the body, and nothing else reads
    differently. An [Ok] has at least as many copies as the quorum asks for, or
    as there are targets: the targets are the first R disks for the key in the
    topology that the pool goes by (its cached one, or the one its disks show),
    as many as R unless fewer are eligible. Either they all have a copy and
    nothing else has, or the key is in line for healing. An [Err] has fewer
    copies than the quorum. *)
Theorem put_reaches_the_quorum key d p r p' :
  pool_wf p → Forall se_ready (p_shards p) → se_fits key d → mirrored p → pool_put key d p = (r, p') →
  pool_wf p' ∧ Forall se_ok (p_shards p') ∧
  ∃ copies : gset nat,
    (∀ i k, read_at p' i k = if decide (i ∈ copies ∧ k = key) then Ok d else read_at p i k) ∧
    match r with
    | Ok _ => ∃ t, in_use p t ∧ map (λ e, e.1.1) t = seq 0 (length (p_shards p)) ∧
        let targets := pp_select key t (replicas (p_cfg p)) in
        targets ≠ [] ∧ length targets = Nat.min (replicas (p_cfg p)) (length (filter pp_eligible t)) ∧
        (Nat.min (write_quorum (p_cfg p)) (length targets) ≤ size copies)%nat ∧
        ((p_mrf p' = p_mrf p ∧ ∀ i, i ∈ copies ↔ i ∈ targets) ∨ p_mrf p' = hq_push key Normal (p_mrf p))
    | Err _ => (size copies < write_quorum (p_cfg p))%nat
    end.
Proof.
  intros Hwf Hr Hfit Hm Hrun. pose proof (wp_run _ _ _ _ _ (wp_pool_put key d p Hwf Hr Hfit Hm) Hrun) as Hout.
  destruct Hout as (W & T & q & HW & Hd & Hres). split; [apply (wt_wf _ _ _ _ _ _ HW) |].
  split; [by eapply wrote_ok |]. exists (dom W). split.
  - intros i k. by apply (wrote_reads p key d W T q).
  - rewrite size_dom. rewrite (wt_mrf _ _ _ _ _ _ HW). destruct r as [[] |]; [| by destruct Hres].
    destruct Hres as (reps & (t & Hu & Ht & ->) & Hne & Hq & Hmrf). exists t. cbv zeta. split_and!; [done | done | done | apply pp_count | done | done].
Qed.

(** C3. Read your writes: after an acknowledged put to a mirrored pool, where
    no shard held another body under the key, every read of the key returns
    the body, whatever the timing, the hedging and the placement then. *)
Theorem put_is_read_back key d p p1 r p2 :
  pool_wf p → Forall se_ready (p_shards p) → se_fits key d → mirrored p →
  (∀ i v, read_at p i key = Ok v → v = d) →
  pool_put key d p = (Ok tt, p1) → pool_get key p1 = (r, p2) → r = Ok d.
Proof.
  intros Hwf Hr Hfit Hm Hold Hput Hget.
  pose proof (wp_run _ _ _ _ _ (wp_pool_put key d p Hwf Hr Hfit Hm) Hput) as (W & T & q & HW & Hd & Hres).
  destruct Hres as (reps & _ & Hne & Hq & _). destruct Hm as (Hec & _ & Hq1).
  assert (pc_ec (p_cfg p1) = None) as Hec1 by (by rewrite (wt_cfg _ _ _ _ _ _ HW)).
  pose proof (wp_run _ _ _ _ _ (wp_get_mirrored key p1 (wt_wf _ _ _ _ _ _ HW) Hec1) Hget) as [_ Hg].
  assert (∀ i v, read_at p1 i key = Ok v → v = d) as Hnew.
  { intros i v. rewrite (wrote_reads p key d W T q p1 i key HW Hd). case_decide; [by intros [= <-] | apply Hold]. }
  destruct r as [v | e]; [destruct Hg as [i Hi]; by rewrite (Hnew i v Hi) |].
  destruct Hg as [Hnone _]. exfalso. assert (W ≠ ∅) as HWne.
  { intros ->. rewrite map_size_empty in Hq. destruct reps; [done |]. simpl in Hq. lia. }
  apply map_choose in HWne as (i & d' & Hi). apply (Hnone i d).
  rewrite (wrote_reads p key d W T q p1 i key HW Hd), decide_True; [done |]. split; [apply elem_of_dom; eauto | done].
Qed.
End PoolWrite.
