(* ===== verification/PoolEcWrite.v ===== *)
(** * Writes of erasure-coded bodies

    What a put of pieces leaves behind, with the handoff of pieces whose shard
    refused them, and that the body is read back afterwards. *)

From Stdlib Require Import ZArith Lia.
From stdpp Require Import base list gmap sets strings.
From S2P Require Import Prelude Domain Metrics Throttle HealQueue Latency DiskSlow Piece Erasure Verified PoolState Pool PoolFacts PoolRead PoolEcRead PoolWrite.

Section EcWrite.
Context {E : Type} `{SE : !ShardEngine E, DS : !DiskSpec E} `{PP : !PlacementPolicy} `{PPS : !PlacementSpec}
  `{RS : !ReedSolomon} `{BO : !Bao}.
Context (key : BlockKey) (k m : nat) (body : bytes) (pieces : list bytes) (Hps : piece_set k m body pieces).
Implicit Types (p : pool E) (W : gmap nat (DomainResult bytes)) (T A : gset nat).
Local Abbreviation PM := (M (pool E) DomainError).

(** The shards of [W] hold the pieces of [A], each on its rank or outside the
    targets. *)
Record coded (targets : list ShardId) W A : Prop := {
  cd_held : ∀ j, j ∈ A → ∃ i b, W !! i = Some (Ok b) ∧ pieces !! j = Some b;
  cd_only : ∀ i r, W !! i = Some r → ∃ j b, r = Ok b ∧ pieces !! j = Some b ∧ ∀ n, targets !! n = Some i → n = j;
}.

Lemma coded_insert targets W A i j b :
  coded targets W A → W !! i = None → i ∉ targets → pieces !! j = Some b →
  coded targets (<[i := Ok b]> W) ({[j]} ∪ A).
Proof.
  intros [Hh Ho] Hi Hit Hj. split.
  - intros j' [->%elem_of_singleton | Hj']%elem_of_union; [exists i, b; by rewrite lookup_insert_eq |].
    destruct (Hh j' Hj') as (i' & b' & Hi' & Hb'). exists i', b'. split; [| done].
    rewrite lookup_insert_ne; [done |]. intros ->. congruence.
  - intros i' r. destruct (decide (i' = i)) as [-> | Hne].
    + rewrite lookup_insert_eq. intros [= <-]. exists j, b. split_and!; [done | done |].
      intros n Hn. destruct Hit. by eapply list_elem_of_lookup_2.
    + rewrite lookup_insert_ne by done. apply Ho.
Qed.

(** ** The legs *)

Lemma elem_of_imap_pair (targets : list ShardId) r i :
  (r, i) ∈ imap pair targets ↔ targets !! r = Some i.
Proof.
  rewrite elem_of_lookup_imap. split.
  - by intros (j & x & [= -> ->] & ?).
  - intros Hr. by exists r, i.
Qed.

Lemma imap_pair_fst (targets : list ShardId) : map fst (imap pair targets) = seq 0 (length targets).
Proof.
  change (fst <$> imap pair targets = seq 0 (length targets)). rewrite fmap_imap.
  change (imap (λ n (_ : ShardId), id n) targets = seq 0 (length targets)). by rewrite imap_seq_0, list_fmap_id.
Qed.
Lemma imap_pair_snd (targets : list ShardId) : map snd (imap pair targets) = targets.
Proof.
  change (snd <$> imap pair targets = targets). rewrite fmap_imap.
  change (imap (const id) targets = targets). by rewrite imap_const, list_fmap_id.
Qed.

Lemma nth_piece r : (r < k + m)%nat → pieces !! r = Some (nth r pieces []).
Proof.
  intros Hr. rewrite <-(ps_len _ _ _ _ Hps) in Hr. destruct (lookup_lt_is_Some_2 _ _ Hr) as [b Hb].
  by rewrite Hb, (nth_lookup_Some _ _ _ _ Hb).
Qed.

Lemma legs_coded p0 targets l lg W T p :
  NoDup targets → (length targets ≤ k + m)%nat → l ≡ₚ imap pair targets →
  legs_done p0 key snd (λ leg, nth leg.1 pieces []) l lg W T p →
  NoDup (map fst (lg_failed lg)) ∧
  coded targets W (list_to_set (seq 0 (length targets)) ∖ list_to_set (map fst (lg_failed lg))) ∧
  size (list_to_set (seq 0 (length targets)) ∖ list_to_set (map fst (lg_failed lg)) : gset nat) = lg_ok lg.
Proof.
  intros Hnd Hlen Hl [HW Hok HT Hcnt Hb Hf Hsub Hall].
  assert (NoDup (map fst (lg_failed lg))) as Hndf.
  { eapply sublist_NoDup; [| apply (fmap_sublist fst), Hsub]. rewrite Hl.
    change (fst <$> imap pair targets) with (map fst (imap pair targets)). rewrite imap_pair_fst. apply NoDup_seq. }
  split; [done |].
  assert (∀ r i, (r, i) ∈ l ↔ targets !! r = Some i) as Hin by (intros; by rewrite Hl, elem_of_imap_pair).
  split; [split |].
  - intros j [Hj Hnf]%elem_of_difference. rewrite elem_of_list_to_set in Hj, Hnf.
    apply elem_of_seq in Hj as [_ Hj]. destruct (lookup_lt_is_Some_2 targets j) as [i Hi]; [lia |].
    destruct (Hall (j, i)) as [Hfail | HWi]; [by apply Hin | |].
    + destruct Hnf. by apply (list_elem_of_fmap_2 fst _ (j, i)).
    + exists i, (nth j pieces []). split; [done |]. apply nth_piece. lia.
  - intros i r Hi. destruct (Hb i r Hi) as ([j i'] & Ha & Heq & ->). simpl in *. subst i'.
    apply Hin in Ha. exists j, (nth j pieces []). split_and!; [done | |].
    + apply nth_piece. apply lookup_lt_Some in Ha. lia.
    + intros n Hn. by apply (NoDup_lookup targets n j i).
  - apply Permutation_length in Hl as Hll. rewrite length_imap in Hll.
    assert (list_to_set (map fst (lg_failed lg)) ⊆ (list_to_set (seq 0 (length targets)) : gset nat)) as Hss.
    { intros j. rewrite !elem_of_list_to_set. intros ([j' i] & -> & Hfi)%list_elem_of_fmap. simpl.
      apply Hf, Hin, lookup_lt_Some in Hfi. apply elem_of_seq. lia. }
    rewrite size_difference, !size_list_to_set by (done || apply NoDup_seq). rewrite length_seq, length_map. lia.
Qed.

(** ** The handoff *)

Lemma wp_ec_handoff p0 targets obj js spares ok err W T A p :
  Forall se_ready (p_shards p0) → (∀ b, b ∈ pieces → se_fits key b) → (0 <= obj < 2 ^ 64)%Z →
  wrote p0 key W T (p_mrf p0) p → unasked p0 W T spares → (∀ i, i ∈ spares → i ∉ targets) →
  coded targets W A → size A = ok → NoDup js → (∀ j, j ∈ js → j ∉ A ∧ (j < k + m)%nat) →
  wp (mfold (ec_handoff key pieces obj) (spares, ok, err) js) (λ r p', ∃ spares' ok' err' W' T' A', r = Ok (spares', ok', err') ∧
    wrote p0 key W' T' (p_mrf p0) p' ∧ coded targets W' A' ∧ size A' = ok') p.
Proof.
  intros Hr Hfit Hobj. revert spares ok err W T A p.
  induction js as [| j js IH]; intros spares ok err W T A p HW Hun Hsp Hcd Hok Hnd Hjs; simpl.
  { apply wp_ret. exists spares, ok, err, W, T, A. done. }
  apply NoDup_cons in Hnd as [Hj Hnd]. destruct (Hjs j ltac:(left)) as [HjA Hjk]. pose proof (nth_piece j Hjk) as Hpj.
  wp_step. unfold ec_handoff at 1. wp_step. eapply wp_mono.
  { apply (wp_handoff_one p0 key _ (nth j pieces []) spares err W T p); [| done | | done | done].
    - apply (leg_put_meta key id (λ _, nth j pieces []) obj Hobj).
    - by eapply Hfit, list_elem_of_lookup_2. }
  intros r p1 (placed & rest & err' & W' & T' & -> & HW' & Hun' & _ & Hsub & Hpl).
  assert (∀ i, i ∈ rest → i ∉ targets) as Hsp' by (intros i Hi; by apply Hsp, Hsub).
  destruct placed; apply wp_ret.
  - destruct Hpl as (i & Hi & HWi & ->). apply (IH rest (S ok) err' (<[i := Ok (nth j pieces [])]> W) T' ({[j]} ∪ A)); try done.
    + by apply coded_insert; [| | apply Hsp |].
    + rewrite size_union, size_singleton by set_solver. lia.
    + intros j' Hj'. destruct (Hjs j' ltac:(by right)). split; [| done].
      intros [->%elem_of_singleton | ?]%elem_of_union; done.
  - subst W'. apply (IH rest ok err' W T' A); try done. intros j' Hj'. apply Hjs. by right.
Qed.

(** ** The put *)

(** What a put of pieces left: with [Ok], at least the quorum of different
    pieces. *)
Definition ec_outcome p0 (quorum : nat) (r : result DomainError unit) p' : Prop :=
  ∃ targets W T A q, wrote p0 key W T q p' ∧ coded targets W A ∧ targets_ok p0 targets ∧
    (length targets ≤ k + m)%nat ∧ (∀ t, steady t p0 → targets = pp_select key t (k + m)) ∧
    (r = Ok tt → (quorum ≤ size A)%nat).

Lemma wp_put_ec ec p :
  k = ec_data ec → m = ec_parity ec → ec_encode body ec = Ok pieces →
  pool_wf p → Forall se_ready (p_shards p) → (∀ b, b ∈ pieces → se_fits key b) →
  wp (put_ec key body ec) (ec_outcome p (ec_write_quorum ec)) p.
Proof.
  intros Hk Hm Henc Hwf Hr Hfit. unfold put_ec. rewrite Henc. unfold ec_total. rewrite <-Hk, <-Hm.
  wp_step. apply wp_ranking_steady; [done |]. intros targets p1 Hpl S1 Hst.
  apply placed_targets in Hpl as [[Hnd Hin] Hlen]. destruct (_ <? _)%nat.
  { apply wp_throw. exists targets, ∅, ∅, ∅, (p_mrf p). split; [by eapply wrote_still; [apply writing_start |] |].
    split_and!; try done; split; intros ?; set_solver. }
  do 2 wp_step. pose proof (ps_fits _ _ _ _ Hps) as [_ _ _ Hobj]. wp_step. eapply wp_mono.
  { apply (wp_run_legs p key _ snd (λ leg, nth leg.1 pieces []) (imap pair targets)); try done.
    - apply leg_put_meta. lia.
    - by rewrite imap_pair_snd.
    - intros [r i] Hri. apply elem_of_imap_pair in Hri. simpl. split; [apply Hin; by eapply list_elem_of_lookup_2 |].
      eapply Hfit, list_elem_of_lookup_2, nth_piece. apply lookup_lt_Some in Hri. lia. }
  intros r p2 (lg & W & T & l & -> & Hl & HL).
  destruct (legs_coded p targets l lg W T p2 Hnd Hlen Hl HL) as (Hndf & Hcd & HsA).
  set (A := _ ∖ _) in Hcd, HsA. pose proof HL as [HW _ HT _ Hb Hf _ _]. wp_step.
  assert (∀ r p3, (∃ W T A q ok err, r = Ok (ok, err) ∧ wrote p key W T q p3 ∧ coded targets W A ∧ size A = ok) →
    match r with
    | Ok a => wp (mthen (count (mt_add ec_puts 1)) (λ _, let '(ok, err) := a in
        if (ec_write_quorum ec <=? ok)%nat then mret tt
        else mthrow (default (QuorumNotReached ok (ec_write_quorum ec)) err))) (ec_outcome p (ec_write_quorum ec)) p3
    | Err e => ec_outcome p (ec_write_quorum ec) (Err e) p3
    end) as Hend.
  { intros r p3 (W' & T' & A' & q & ok & err & -> & HW' & Hcd' & HsA'). wp_step.
    eapply wp_calm; [apply calm_count |]. intros [] p4 _ S4. pose proof (wrote_still _ _ _ _ _ _ _ HW' S4) as HW4.
    destruct (Nat.leb_spec (ec_write_quorum ec) ok); [apply wp_ret | apply wp_throw]; exists targets, W', T', A', q;
      split_and!; try done; lia. }
  case_bool_decide as Hfl.
  { apply wp_ret. apply (Hend (Ok (lg_ok lg, lg_err lg)) p2). by exists W, T, A, (p_mrf p), (lg_ok lg), (lg_err lg). }
  do 2 wp_step. wp_step. apply wp_ranking; [apply (wt_wf _ _ _ _ _ _ HW) |]. intros ids p3 Hids S3.
  apply placed_targets in Hids as [[Hnd' Hin'] _]. rewrite (wt_len _ _ _ _ _ _ HW) in Hin'.
  assert (∀ i, i ∈ dom W ∨ i ∈ T → i ∈ targets) as Hasked.
  { intros i Hi. rewrite <-(imap_pair_snd targets). change (map snd) with (fmap (M := list) (@snd nat ShardId)). rewrite <-Hl.
    destruct Hi as [Hi | Hi].
    - apply elem_of_dom in Hi as [d' Hi]. destruct (Hb _ _ Hi) as (a & Ha & <- & _). by apply list_elem_of_fmap_2.
    - rewrite HT, elem_of_list_to_set in Hi. apply list_elem_of_fmap in Hi as (a & -> & Ha). by apply list_elem_of_fmap_2, Hf. }
  wp_step. eapply wp_mono.
  { apply (wp_ec_handoff p targets (blen body) (map fst (lg_failed lg)) _ _ _ W T A p3); try done; try lia.
    - by eapply wrote_still.
    - split; [by apply NoDup_filter |]. intros i (Hi & Hi')%list_elem_of_filter. split_and!; [by apply Hin' | |].
      + apply not_elem_of_dom. intros Hd. apply Hi, Hasked. by left.
      + intros HiT. apply Hi, Hasked. by right.
    - intros i (Hi & _)%list_elem_of_filter. done.
    - intros j Hj. split.
      + unfold A. rewrite elem_of_difference, !elem_of_list_to_set. tauto.
      + apply list_elem_of_fmap in Hj as ([j' i] & -> & Hj). apply Hf in Hj. rewrite Hl, elem_of_imap_pair in Hj.
        apply lookup_lt_Some in Hj. simpl. lia. }
  intros r p4 (spares' & ok' & err' & W' & T' & A' & -> & HW' & Hcd' & HsA'). wp_step.
  eapply wp_mono; [by eapply wp_enqueue_heal |]. intros r p5 [-> HW5]. apply wp_ret. apply (Hend (Ok (ok', err')) p5).
  by exists W', T', A', (hq_push key Normal (p_mrf p)), ok', err'.
Qed.

Lemma ec_outcome_still p0 p1 quorum r p2 p3 :
  still p0 p1 → ec_outcome p1 quorum r p2 → still p2 p3 → ec_outcome p0 quorum r p3.
Proof.
  intros S (targets & W & T & A & q & HW & Hcd & [Hnd Hin] & Hlen & Hst & Hq) S'. exists targets, W, T, A, q.
  split_and!; [| done | | done | | done].
  - eapply wrote_still; [by eapply still_wrote | done].
  - split; [done |]. by rewrite (still_shards _ _ S) in Hin.
  - intros t Ht. by apply Hst, (still_steady _ _ _ S).
Qed.

(** ** Reading it back *)

(** [p'] is [p] with the shards of [L] gone for the key: they do not read it,
    the others read it as before. *)
Record lost (L : gset nat) p p' : Prop := {
  lo_cfg : p_cfg p' = p_cfg p;
  lo_wf : pool_wf p → pool_wf p';
  lo_steady : ∀ t, steady t p → steady t p';
  lo_gone : ∀ i b, i ∈ L → read_at p' i key ≠ Ok b;
  lo_kept : ∀ i, i ∉ L → read_at p' i key = read_at p i key;
}.

Lemma lost_none p : lost ∅ p p.
Proof. split; [done | done | done | set_solver | done]. Qed.

Lemma size_list_to_set_le (l : list nat) : (size (list_to_set l : gset nat) ≤ length l)%nat.
Proof.
  induction l as [| x l IH]; simpl; [done |].
  rewrite size_union_alt, size_singleton.
  assert (size (list_to_set l ∖ {[x]} : gset nat) ≤ size (list_to_set l : gset nat))%nat by (apply subseteq_size; set_solver). lia.
Qed.

(** The index of the piece that a shard holds. *)
Definition held_index W (i : nat) : nat :=
  match W !! i with
  | Some (Ok b) => match parse_piece_header b with Some h => Z.to_nat (ph_piece_idx h) | None => 0%nat end
  | _ => 0%nat
  end.

(** Each lost shard costs at most one piece. *)
Lemma lost_available p0 p1 p2 targets W T A q L :
  wrote p0 key W T q p1 → coded targets W A → lost L p1 p2 →
  ∃ A', available key pieces p2 A' ∧ (size A ≤ size A' + size L)%nat.
Proof.
  intros HW Hcd HL. set (G := list_to_set (map (held_index W) (elements L)) : gset nat). exists (A ∖ G). split.
  - intros j [Hj Hnj]%elem_of_difference. destruct (cd_held _ _ _ Hcd j Hj) as (i & b & Hi & Hb). exists i, b.
    split; [| done]. rewrite (lo_kept _ _ _ HL); [by rewrite (wrote_read _ _ _ _ _ _ _ _ HW), Hi, decide_True |].
    intros HiL. apply Hnj. unfold G. rewrite elem_of_list_to_set. apply list_elem_of_fmap. exists i.
    split; [| by apply elem_of_elements]. unfold held_index. rewrite Hi, (ps_header _ _ _ _ Hps _ _ Hb). simpl. lia.
  - assert (size A ≤ size (A ∖ G) + size G)%nat as Hle.
    { rewrite <-size_union by set_solver. apply subseteq_size. intros j Hj. destruct (decide (j ∈ G)); set_solver. }
    pose proof (size_list_to_set_le (map (held_index W) (elements L))) as HG. rewrite length_map in HG.
    change (length (elements L)) with (size L) in HG. fold G in HG. lia.
Qed.

Lemma coded_mixed p0 p1 p2 targets W T A q L :
  wrote p0 key W T q p1 → coded targets W A → lost L p1 p2 → (∀ i v, read_at p0 i key ≠ Ok v) →
  mixed key body pieces p2 ∧ ranked key pieces p2 targets.
Proof.
  intros HW Hcd HL Hfresh.
  assert (∀ i b, read_at p2 i key = Ok b → ∃ j, pieces !! j = Some b ∧ ∀ n, targets !! n = Some i → n = j) as Hall.
  { intros i b Hr. destruct (decide (i ∈ L)) as [Hi | Hi]; [by apply (lo_gone _ _ _ HL) in Hr |].
    rewrite (lo_kept _ _ _ HL) in Hr by done. rewrite (wrote_read _ _ _ _ _ _ _ _ HW) in Hr.
    destruct (W !! i) as [r |] eqn:HWi; [| by apply Hfresh in Hr]. rewrite decide_True in Hr by done. subst r.
    destruct (cd_only _ _ _ Hcd i _ HWi) as (j & b' & [= <-] & Hb & Hn). by exists j. }
  split.
  - intros i b Hr. right. destruct (Hall i b Hr) as (j & ? & _). by exists j.
  - intros n i b j Hn Hr Hb. destruct (Hall i b Hr) as (j' & Hb' & Hj').
    rewrite (Hj' n Hn). by apply (piece_index k m body pieces Hps j' j b).
Qed.
End EcWrite.

Section EcRoundTrip.
Context {E : Type} `{SE : !ShardEngine E, DS : !DiskSpec E} `{PP : !PlacementPolicy} `{PPS : !PlacementSpec}
  `{RS : !ReedSolomon} `{BO : !Bao}.
Implicit Types (p : pool E).

(** C4. Erasure-coded writes are durable, in a pool without outboards whose
    topology does not expire: an acknowledged put of a key that no shard held
    is read back by every get, also after the loss of as many shards as the
    quorum exceeds [k], whatever the order of the answers and wherever refused
    pieces were handed off. (When the topology is built anew the ranks may
    change, and a coded body may become unreadable: fuller_disk_hides_pieces
    in WalkDemo.) *)
Theorem ec_put_is_read_back ec key d p p1 t L p2 r p3 :
  pool_wf p → Forall se_ready (p_shards p) → pc_ec (p_cfg p) = Some ec → pc_outboard (p_cfg p) = None →
  rs_law (ec_data ec) (ec_parity ec) → ec_fits (ec_data ec) (ec_parity ec) d → (ec_min_size ec <= blen d)%Z →
  (replicas (p_cfg p) ≤ ec_total ec)%nat →
  (∀ pieces b, ec_encode d ec = Ok pieces → b ∈ pieces → se_fits key b) →
  (∀ i v, read_at p i key ≠ Ok v) → steady t p →
  pool_put key d p = (Ok tt, p1) →
  lost key L p1 p2 → (ec_data ec + size L ≤ ec_write_quorum ec)%nat →
  pool_get key p2 = (r, p3) → r = Ok d.
Proof.
  intros Hwf Hr Hec Hob Hlaw Hf Hmin Hrep Hfit Hfresh Ht Hput HL Hq Hget.
  destruct (encode_piece_set ec d Hlaw Hf) as (pieces & Henc & Hps).
  assert (wp (pool_put key d) (λ r p1, r = Ok tt →
    ec_outcome key (ec_data ec) (ec_parity ec) pieces p (ec_write_quorum ec) r p1) p) as Hw.
  { apply wp_put_around; [done | done |]. intros p0 S0. unfold put_body. do 2 wp_step.
    rewrite (still_cfg _ _ S0), Hec, (proj2 (Z.leb_le _ _)) by done. eapply wp_mono.
    { apply (wp_put_ec key (ec_data ec) (ec_parity ec) d pieces Hps ec p0); try done;
        [by eapply still_wf | by rewrite (still_shards _ _ S0) | intros b; by apply Hfit]. }
    intros r0 p4 Hout p5 S5 _. by eapply ec_outcome_still. }
  destruct (wp_run _ _ _ _ _ Hw Hput eq_refl) as (targets & W & T & A & q & HW & Hcd & _ & _ & Hst & HqA).
  destruct (lost_available key _ _ d pieces Hps _ _ _ _ _ _ _ _ _ HW Hcd HL) as (A' & HA' & HsA).
  destruct (coded_mixed key _ _ d pieces Hps _ _ _ _ _ _ _ _ _ HW Hcd HL Hfresh) as [Hmix Hrk].
  assert (wp (pool_get key) (λ r _, r = Ok d) p2) as Hg.
  { apply wp_pool_get. intros p4 S4. unfold get_inner. do 2 wp_step.
    rewrite (still_cfg _ _ S4), (lo_cfg _ _ _ _ HL), (wt_cfg _ _ _ _ _ _ HW), Hec. eapply wp_mono.
    { apply (wp_get_ec_aware key (ec_data ec) (ec_parity ec) d pieces Hps ec p4); try done.
      - apply (still_wf _ _ S4), (lo_wf _ _ _ _ HL), (wt_wf _ _ _ _ _ _ HW).
      - by rewrite (still_cfg _ _ S4), (lo_cfg _ _ _ _ HL), (wt_cfg _ _ _ _ _ _ HW).
      - by eapply mixed_still.
      - intros ids _ Hids. rewrite (Hids t) by apply (still_steady _ _ _ S4), (lo_steady _ _ _ _ HL), (wt_steady _ _ _ _ _ _ HW), Ht.
        rewrite <-(Hst t Ht). split.
        + intros n i b j Hn Hrd. rewrite (read_at_still _ _ _ _ S4) in Hrd. by apply (Hrk n i b j).
        + left. exists A'. split; [| specialize (HqA eq_refl); lia].
          intros j Hj. destruct (HA' j Hj) as (i & b & ? & ?). exists i, b. by rewrite (read_at_still _ _ _ _ S4). }
    by intros r0 p5 [-> _]. }
  exact (wp_run _ _ _ _ _ Hg Hget).
Qed.
End EcRoundTrip.
