(* ===== verification/Repair.v ===== *)
(** * Repair of the pool (crates/ozd-app/src/pool.rs)

    The creation of a pool, the repair of one key in either era, the scrub of
    a shard and the walk that repairs every key. *)

From Stdlib Require Import ZArith Lia.
From stdpp Require Import base list gmap strings pretty.
From S2P Require Import Prelude Domain Metrics Throttle HealQueue Latency DiskSlow Piece Erasure Verified PoolState Pool.
Open Scope Z_scope.

(** ** Reports *)

Record ScrubReport := {
  sr_checked : Z;
  sr_corrupt : Z;
  sr_repaired : Z;
  sr_unrepairable : Z;
  sr_last_key : option BlockKey;
  sr_done : bool;
}.

Record ResilverReport := {
  rr_scanned : nat;
  rr_repaired : nat;
  rr_errors : nat;
  rr_last_key : option BlockKey;
  rr_done : bool;
}.
Definition ResilverReport_default : ResilverReport :=
  {| rr_scanned := 0; rr_repaired := 0; rr_errors := 0; rr_last_key := None; rr_done := false |}.

Section Repair.
Context {E : Type} `{SE : !ShardEngine E} `{PP : !PlacementPolicy} `{RS : !ReedSolomon}.
Local Open Scope rust_scope.
Implicit Types (p : pool E).
Local Abbreviation PM := (M (pool E) DomainError).

(** ** Creation *)

(** [Pool::new] at time [t], with the clock readings and the scheduling that
    follow; [None] is a failed assertion. *)
Definition pool_new (shards : list E) (c : PoolConfig) (t : Z) (clock : list Z) (sched : list nat)
    : option (pool E) :=
  if bool_decide (1 ≤ replicas c ∧ 1 ≤ write_quorum c)%nat
     && (write_quorum c <=? replicas c)%nat && (replicas c <=? length shards)%nat
  then
    let n := length shards in
    let '(bg, m) := throttle_new (bg_throttle c) t OpsMetrics_default in
    Some {| p_cfg := c; p_shards := shards; p_statuses := replicate n Online;
            p_cap_overrides := replicate n None; p_slow_flags := replicate n false; p_topo := None;
            p_mrf := HealQueue_default; p_shutting_down := false;
            p_meters := {| m_metrics := m; m_bg := bg; m_read_lat := p99_new (60 * 10 ^ 6) 64;
                           m_slow_mon := slow_new n; m_clock := clock; m_sched := sched |} |}
  else None.

(** ** Repair of one key *)

(** [self.shards[i].has(key).unwrap_or(false)] *)
Definition has_or_false (i : ShardId) (key : BlockKey) : PM bool :=
  match! shard_has i key with! r => mret (match r with Ok b => b | Err _ => false end).

(** The ranks among [targets] whose shard does not have the key. *)
Definition missing_ranks (key : BlockKey) (targets : list ShardId) : PM (list nat) :=
  mfold (λ acc e,
    let! h := has_or_false e.2 key in
    mret (if (h : bool) then acc else acc ++ [e.1])) [] (imap pair targets).

Definition read_for_repair (key : BlockKey) (holders : list ShardId) : PM bytes :=
  let! v := get_any key holders in
  match v with
  | Some d => mret d
  | None =>
      let! p := mget in
      let! v := get_any key (seq 0 (length (p_shards p))) in
      match v with Some d => mret d | None => mthrow NotFound end
  end.

(** Writes to the [missing] shards, one after the other: how many took it and
    how many refused. *)
Definition fill_missing {A} (write : A → PM unit) (missing : list A) : PM (nat * nat) :=
  mfold (λ acc a,
    match! write a with! r =>
    mret (match r with Ok _ => (S acc.1, acc.2) | Err _ => (acc.1, S acc.2) end)) (0, 0)%nat missing.

(** The shards of [ids] that have the key, and those that do not. *)
Definition split_holders (key : BlockKey) (ids : list ShardId) : PM (list ShardId * list ShardId) :=
  mfold (λ acc i,
    let! h := has_or_false i key in
    mret (if (h : bool) then (acc.1 ++ [i], acc.2) else (acc.1, acc.2 ++ [i]))) ([], []) ids.

Definition repair_key_mirror (key : BlockKey) (probe : option bytes) : PM (nat * nat) :=
  let! desired := replicas_for key in
  let! r := split_holders key desired in
  let '(holders, missing) := r in
  if bool_decide (missing = []) then mret (0, 0)%nat
  else
    let! data := match probe with Some d => mret d | None => read_for_repair key holders end in
    let! r := fill_missing (λ i, shard_put i key data) missing in
    do! bg_acquire (blen data * (1 + Z.of_nat r.1));
    mret r.

(** The pieces on the canonical shards, and the ranks whose piece is not
    there with their shards. *)
Definition canonical_pieces (key : BlockKey) (total : nat) (targets : list ShardId)
    : PM (list (option bytes) * list (nat * ShardId)) :=
  mfold (λ acc e,
    match! shard_get e.2 key with! r =>
    mret (match r with
          | Ok b =>
              match parse_piece_header b with
              | Some h =>
                  (fill_slot total acc.1 h b,
                   if (Z.to_nat (ph_piece_idx h) =? e.1)%nat then acc.2 else acc.2 ++ [e])
              | None => (acc.1, acc.2 ++ [e])
              end
          | Err _ => (acc.1, acc.2 ++ [e])
          end)) (replicate total None, []) (take total (imap pair targets)).

Definition repair_key_ec (key : BlockKey) (h : PieceHeader) (targets : list ShardId) : PM (nat * nat) :=
  let k := Z.to_nat (ph_k h) in
  let m := Z.to_nat (ph_m h) in
  let! r := canonical_pieces key (k + m) targets in
  let '(slots, missing) := r in
  let! slots := (if (have slots <? k)%nat then scan_strays key targets (k + m) slots else mret slots) in
  if (have slots <? k)%nat then mthrow (Io ("ec repair: fewer than " +:+ pretty k +:+ " pieces"))
  else if bool_decide (missing = []) then mret (0, 0)%nat
  else
    let! rebuilt := mlift (ec_repair_pieces slots k m) in
    let piece_len := blen (nth 0 rebuilt []) in
    let! r := fill_missing (λ e, shard_put_meta e.2 key (nth e.1 rebuilt []) (Some (ph_logical_len h))) missing in
    do! count (mt_add ec_pieces_repaired (Z.of_nat r.1));
    do! bg_acquire (piece_len * (ph_k h + Z.of_nat r.1));
    mret r.

(** The era of the body or piece that was found decides. *)
Definition repair_found (key : BlockKey) (targets : list ShardId) (b : bytes) : PM (nat * nat) :=
  match parse_piece_header b with
  | Some h => repair_key_ec key h targets
  | None => repair_key_mirror key (Some b)
  end.

Definition repair_key (key : BlockKey) : PM (nat * nat) :=
  let! p := mget in
  match pc_ec (p_cfg p) with
  | None => repair_key_mirror key None
  | Some ec =>
      let total := ec_total ec in
      let! targets := ranking_for key (Nat.max total (replicas (p_cfg p))) in
      let! missing := missing_ranks key (take total targets) in
      let r_legs := Nat.min (replicas (p_cfg p)) (length targets) in
      if bool_decide (missing = []) then mret (0, 0)%nat
      else if forallb (λ r, r_legs <=? r)%nat missing && (length missing =? total - r_legs)%nat
      then mret (0, 0)%nat
      else
        let! v := get_any key targets in
        match v with
        | Some b => repair_found key targets b
        | None =>
            let! v := get_any key (others p targets) in
            match v with
            | Some b => repair_found key targets b
            | None => mthrow (Io "repair: no readable source")
            end
        end
  end.

(** ** The walks *)

(** One corrupt key: drop the local record, repair, or ask for an urgent heal. *)
Definition scrub_corrupt_key (shard : ShardId) (acc : Z * Z) (key : BlockKey) : PM (Z * Z) :=
  match! shard_delete shard key with! _ =>
  match! repair_key key with! r =>
  match r with
  | Ok (S _, 0%nat) => mret (acc.1 + 1, acc.2)
  | _ => do! mrf_push key Urgent; mret (acc.1, acc.2 + 1)
  end.

Definition scrub_shard_step (shard : ShardId) (after : option BlockKey) (limit : nat) : PM ScrubReport :=
  let! step := look_shard shard (λ s, se_scrub_step s after limit) in
  do! bg_acquire (ss_bytes step);
  let! r := mfold (scrub_corrupt_key shard) (0, 0) (ss_corrupt step) in
  let rep := {| sr_checked := ss_checked step; sr_corrupt := Z.of_nat (length (ss_corrupt step));
                sr_repaired := r.1; sr_unrepairable := r.2;
                sr_last_key := ss_last_key step; sr_done := ss_done step |} in
  do! count (mt_add scrub_checked (sr_checked rep));
  do! count (mt_add scrub_corrupt (sr_corrupt rep));
  do! count (mt_add scrub_repaired (sr_repaired rep));
  do! count (mt_add scrub_unrepairable (sr_unrepairable rep));
  mret rep.

(** [repaired] and [errors] of one key. *)
Definition resilver_key (acc : nat * nat) (key : BlockKey) : PM (nat * nat) :=
  match! repair_key key with! r =>
  mret (match r with
        | Ok (n, fails) => (acc.1 + n, acc.2 + fails)
        | Err _ => (acc.1, S acc.2)
        end)%nat.

Definition resilver_step (after : option BlockKey) (batch : nat) : PM ResilverReport :=
  let! p := mget in
  let! page := mlift (pool_list p [] after batch) in
  let keys := map fst page in
  let! r := mfold resilver_key (0, 0)%nat keys in
  do! count (mt_add resilver_repaired (Z.of_nat r.1));
  do! count (mt_add resilver_errors (Z.of_nat r.2));
  mret {| rr_scanned := length keys; rr_repaired := r.1; rr_errors := r.2;
          rr_last_key := last keys; rr_done := (length keys <? batch)%nat |}.

Definition resilver_sum (t r : ResilverReport) (fin : bool) : ResilverReport :=
  {| rr_scanned := rr_scanned t + rr_scanned r; rr_repaired := rr_repaired t + rr_repaired r;
     rr_errors := rr_errors t + rr_errors r; rr_last_key := rr_last_key r; rr_done := fin |}.

(** [let _ = self.shards[0].save_cursor(name, pos)] *)
Definition keep_cursor (name : string) (pos : option BlockKey) : PM unit :=
  match! on_shard 0%nat (se_save_cursor name pos) with! _ => mret tt.

(** The loop over the pages; [None] is a loop that has not ended. *)
Fixpoint resilver_loop (fuel : nat) (batch : nat) (after : option BlockKey) (total : ResilverReport)
    : PM (option ResilverReport) :=
  match fuel with
  | O => mret None
  | S fuel =>
      let! r := resilver_step after batch in
      if rr_done r || bool_decide (rr_last_key r = None) then
        do! keep_cursor "resilver" None;
        mret (Some (resilver_sum total r true))
      else
        do! keep_cursor "resilver" (rr_last_key r);
        resilver_loop fuel batch (rr_last_key r) (resilver_sum total r false)
  end.

Definition resilver_full (fuel : nat) (batch : nat) : PM (option ResilverReport) :=
  let! after := look_shard 0%nat (λ s, se_load_cursor s "resilver") in
  let! total := resilver_loop fuel batch after ResilverReport_default in
  do! flush_all;
  mret total.
End Repair.
