(* ===== verification/RepairFacts.v ===== *)
(** * Repair restores the copies

    The repair of a mirrored key gives every replica a copy and changes
    nothing else; a second repair has nothing to do.

    Second part: Repair restores the pieces. *)

From Stdlib Require Import ZArith Lia.
From stdpp Require Import base list gmap sets strings.
From S2P Require Import Prelude Domain Piece Latency DiskSlow Erasure Verified Metrics Throttle HealQueue PoolState Pool PoolFacts PoolRead PoolEcRead PoolWrite PoolEcWrite Repair.

Section RepairFacts.
Context {E : Type} `{SE : !ShardEngine E, DS : !DiskSpec E} `{PP : !PlacementPolicy} `{PPS : !PlacementSpec}
  `{RS : !ReedSolomon} `{BO : !Bao}.
Implicit Types (p : pool E) (W : gmap nat (DomainResult bytes)) (T : gset nat).
Local Abbreviation PM := (M (pool E) DomainError).

(** ** Looking *)

Definition reads p (i : ShardId) (key : BlockKey) : bool :=
  match read_at p i key with Ok _ => true | Err _ => false end.

Lemma reads_true p i key : reads p i key = true ↔ ∃ v, read_at p i key = Ok v.
Proof. unfold reads. destruct (read_at p i key); naive_solver. Qed.
Lemma reads_false p i key : reads p i key = false ↔ ∀ v, read_at p i key ≠ Ok v.
Proof. unfold reads. destruct (read_at p i key); naive_solver. Qed.
Lemma reads_still p p' i key : still p p' → reads p' i key = reads p i key.
Proof. intros S. unfold reads. by rewrite (read_at_still _ _ _ _ S). Qed.

(** The shard says that it has the key; its body may be unreadable. *)
Definition holds p (i : ShardId) (key : BlockKey) : bool :=
  match p_shards p !! i with
  | Some s => match se_has s key with Ok b => b | Err _ => false end
  | None => false
  end.

Lemma holds_still p p' i key : still p p' → holds p' i key = holds p i key.
Proof. intros S. unfold holds. by rewrite (still_shards _ _ S). Qed.

Lemma reads_holds p i key : Forall se_ok (p_shards p) → reads p i key = true → holds p i key = true.
Proof.
  intros Hok. unfold reads, holds, read_at. destruct (p_shards p !! i) as [s |] eqn:Hs; [| done].
  destruct (se_get s key) as [d |] eqn:Hd; [| done]. intros _. rewrite (se_held_spec s key d); [done | | done].
  rewrite Forall_forall in Hok. by eapply Hok, list_elem_of_lookup_2.
Qed.
Lemma holds_unread p i key : Forall se_ok (p_shards p) → holds p i key = false → reads p i key = false.
Proof. intros Hok Hh. apply not_true_is_false. intros Hr. by rewrite (reads_holds _ _ _ Hok Hr) in Hh. Qed.

Lemma wp_has_or_false i key p (Q : DomainResult bool → pool E → Prop) :
  Q (Ok (holds p i key)) p → wp (has_or_false i key) Q p.
Proof.
  intros HQ. unfold has_or_false, shard_has. wp_step. unfold wp, look_shard. unfold holds in HQ.
  destruct (p_shards p !! i) as [s |]; simpl; [by destruct (se_has s key) | done].
Qed.

Lemma wp_split_holders_from key ids acc p :
  wp (mfold (λ acc i, mthen (has_or_false i key) (λ h,
        mret (if (h : bool) then (acc.1 ++ [i], acc.2) else (acc.1, acc.2 ++ [i])))) acc ids : PM (list nat * list nat))
    (λ r p', r = Ok (acc.1 ++ filter (λ i, holds p i key = true) ids, acc.2 ++ filter (λ i, holds p i key = false) ids) ∧
      p' = p) p.
Proof.
  revert acc. induction ids as [| i ids IH]; intros acc; simpl.
  { apply wp_ret. rewrite !filter_nil, !app_nil_r. by destruct acc. }
  do 2 wp_step. apply wp_has_or_false. apply wp_ret. eapply wp_mono; [apply IH |].
  intros r p' [-> ->]. split; [| done]. rewrite !filter_cons.
  destruct (holds p i key); simpl; by rewrite <-?app_assoc.
Qed.

Lemma wp_split_holders key ids p :
  wp (split_holders key ids)
    (λ r p', r = Ok (filter (λ i, holds p i key = true) ids, filter (λ i, holds p i key = false) ids) ∧ p' = p) p.
Proof. by apply (wp_split_holders_from key ids ([], [])). Qed.

Lemma wp_missing_ranks key targets p :
  wp (missing_ranks key targets) (λ r p', p' = p ∧
    r = Ok (map fst (filter (λ e, holds p e.2 key = false) (imap pair targets)))) p.
Proof.
  unfold missing_ranks. generalize (imap pair targets) as l.
  assert (∀ l acc, wp (mfold (λ acc e, mthen (has_or_false e.2 key) (λ h, mret (if (h : bool) then acc else acc ++ [e.1]))) acc l : PM (list nat))
    (λ r p', p' = p ∧ r = Ok (acc ++ map fst (filter (λ e : nat * ShardId, holds p e.2 key = false) l))) p) as Hgo.
  { induction l as [| e l IH]; intros acc; simpl; [apply wp_ret; by rewrite app_nil_r |].
    do 2 wp_step. apply wp_has_or_false. apply wp_ret. eapply wp_mono; [apply IH |]. intros r p' [-> ->].
    split; [done |]. rewrite filter_cons. destruct (holds p e.2 key); simpl; by rewrite <-?app_assoc. }
  intros l. apply (Hgo l []).
Qed.

(** A body that some shard reads, or none does. *)
Lemma wp_read_for_repair key holders p0 p :
  still p0 p →
  wp (read_for_repair key holders) (λ r p', still p0 p' ∧
    match r with
    | Ok v => ∃ i, read_at p0 i key = Ok v
    | Err e => e = NotFound ∧ ∀ i v, read_at p0 i key ≠ Ok v
    end) p.
Proof.
  intros S. unfold read_for_repair. wp_step. eapply wp_mono; [by apply (wp_get_any key holders p p0) |].
  intros r p1 (o & -> & S1 & Hl). destruct o as [v |]; [by apply wp_ret |].
  do 3 wp_step. eapply wp_mono; [by apply (wp_get_any key _ p1 p0) |].
  intros r p2 (o & -> & S2 & Hl2). destruct o as [v |]; [by apply wp_ret |]. apply wp_throw. split; [done |].
  split; [done |]. destruct Hl2 as [Hn _]. intros i v Hr. apply (Hn i v); [| done]. apply elem_of_seq.
  rewrite (still_shards _ _ S1). unfold read_at in Hr. destruct (p_shards p0 !! i) eqn:Hi; [| done].
  apply lookup_lt_Some in Hi. lia.
Qed.

(** ** Filling the missing places *)

Lemma wp_fill_missing {A} p0 key (f : A → PM unit) idx body l p :
  leg_spec key f idx body → pool_wf p0 → still p0 p →
  NoDup (map idx l) → (∀ a, a ∈ l → (idx a < length (p_shards p0))%nat ∧ se_fits key (body a)) →
  Forall se_ready (p_shards p0) →
  wp (fill_missing f l) (λ r p', ∃ lg W T, r = Ok (lg_ok lg, length (lg_failed lg)) ∧
    legs_done p0 key idx body l lg W T p') p.
Proof.
  intros Hleg Hwf S0 Hnd Hl Hr. unfold fill_missing.
  assert (∀ l' done acc lg W T p, legs_done p0 key idx body done lg W T p → done ++ l' = l →
    acc = (lg_ok lg, length (lg_failed lg)) →
    wp (mfold (λ acc a, mcatch (f a) (λ r, mret (match r with Ok _ => (S acc.1, acc.2) | Err _ => (acc.1, S acc.2) end)))
          acc l' : PM (nat * nat))
      (λ r p', ∃ lg W T, r = Ok (lg_ok lg, length (lg_failed lg)) ∧ legs_done p0 key idx body l lg W T p') p) as Hgo.
  { clear p S0. induction l' as [| a l' IH]; intros done acc lg W T p HL <- ->; simpl.
    { apply wp_ret. rewrite app_nil_r in *. by exists lg, W, T. }
    destruct (Hl a) as [Hi Hfit]; [apply elem_of_app; right; left |].
    assert (done ++ a :: l' = (done ++ [a]) ++ l') as Heq by (by rewrite <-app_assoc).
    do 2 wp_step. eapply wp_mono.
    { apply (legs_next p0 key f idx body a done lg W T p); try done. rewrite Heq, map_app in Hnd.
      by apply NoDup_app in Hnd as [Hnd _]. }
    intros [[] | e] p1 H1; apply wp_ret; (eapply IH; [exact H1 | by rewrite Heq |]); [done |].
    simpl. rewrite length_app. simpl. f_equal. lia. }
  apply (Hgo l [] _ {| lg_ok := 0; lg_failed := []; lg_err := None |} ∅ ∅ p); [| done | done].
  split; try done; [eapply wrote_still; [by apply writing_start | done] |]. intros a Ha. by apply not_elem_of_nil in Ha.
Qed.

(** ** Repair of a mirrored key *)

(** A body that some shard reads. *)
Definition found p0 key (v : bytes) : Prop := ∃ i, read_at p0 i key = Ok v.

(** What a repair left: replicas of [W], which held no record, took a body,
    one of [source]; it counts those that took it and those that refused. *)
Record repaired p0 key (source : bytes → Prop) (desired : list ShardId) W (n failed : nat) p : Prop := {
  rp_wrote : ∃ T, wrote p0 key W T (p_mrf p0) p;
  rp_source : W = ∅ ∨ ∃ v, source v ∧ ∀ i' r, W !! i' = Some r → r = Ok v;
  rp_missing : ∀ i r, W !! i = Some r → i ∈ desired ∧ holds p0 i key = false ∧ reads p0 i key = false;
  rp_count : size W = n;
  rp_both : (n + failed)%nat = length (filter (λ i, holds p0 i key = false) desired);
  rp_all : failed = 0%nat → ∀ i, i ∈ desired → holds p0 i key = true ∨ reads p i key = true;
}.

Definition repair_outcome p0 key (source : bytes → Prop) (r : DomainResult (nat * nat)) p : Prop :=
  match r with
  | Ok (n, failed) => ∃ desired W, placed p0 key (replicas (p_cfg p0)) desired ∧
      (∀ t, steady t p0 → desired = pp_select key t (replicas (p_cfg p0))) ∧ repaired p0 key source desired W n failed p
  | Err e => still p0 p ∧ e = NotFound ∧ ∀ i v, read_at p0 i key ≠ Ok v
  end.

Lemma repair_outcome_from p0 key (P Q : bytes → Prop) r p :
  (∀ v, P v → Q v) → repair_outcome p0 key P r p → repair_outcome p0 key Q r p.
Proof.
  intros HPQ. destruct r as [[n failed] | e]; [| done]. intros (desired & W & ? & ? & [? Hsrc ? ? ? ?]). exists desired, W.
  split_and!; [done | done |]. split; [done | | done ..]. destruct Hsrc as [? | (v & ? & ?)]; [by left | right; exists v; auto].
Qed.

Lemma wp_repair_mirror key probe p :
  pool_wf p → Forall se_ready (p_shards p) → (∀ i v, read_at p i key = Ok v → se_fits key v) →
  (∀ v, probe = Some v → found p key v) →
  wp (repair_key_mirror key probe) (repair_outcome p key (λ v, found p key v ∧ ∀ d, probe = Some d → v = d)) p.
Proof.
  intros Hwf Hr Hfit Hprobe. unfold repair_key_mirror. wp_step. apply wp_replicas_steady; [done |].
  intros desired p1 Hpl S1 Hst. destruct (placed_targets _ _ _ _ Hpl) as [[Hnd Hin] _].
  assert (Forall se_ok (p_shards p)) as Hok by (eapply Forall_impl; [exact Hr | apply se_ready_ok]).
  wp_step. eapply wp_mono; [by apply wp_split_holders |]. intros r p2 [-> ->].
  rewrite (list_filter_iff (λ i, holds p1 i key = false) (λ i, holds p i key = false)) by (intros; by rewrite (holds_still _ _ _ _ S1)).
  set (missing := filter (λ i, holds p i key = false) desired). case_bool_decide as Hmiss.
  { apply wp_ret. exists desired, ∅. split; [done |]. split; [done |]. split; [| by left | | done | |].
    - exists ∅. eapply wrote_still; [by apply writing_start | done].
    - intros i r. by rewrite lookup_empty.
    - fold missing. by rewrite Hmiss.
    - intros _ i Hi. left. destruct (holds p i key) eqn:Hri; [done |].
      assert (i ∈ missing) as Hm by (by apply list_elem_of_filter). rewrite Hmiss in Hm. by apply not_elem_of_nil in Hm. }
  wp_step.
  assert (wp (match probe with Some d => mret d | None => read_for_repair key (filter (λ i, holds p1 i key = true) desired) end)
    (λ r p', still p p' ∧ match r with Ok v => found p key v ∧ ∀ d, probe = Some d → v = d
      | Err e => e = NotFound ∧ ∀ i v, read_at p i key ≠ Ok v end) p1) as Hsrc.
  { destruct probe as [v |]; [apply wp_ret; split; [done | split; [by apply Hprobe | congruence]] |].
    eapply wp_mono; [by apply wp_read_for_repair |]. intros [v | e] p' [? Hv]; (split; [done |]); [by split | done]. }
  eapply wp_mono; [exact Hsrc |]. intros [v | e] p3 [S3 Hv]; [| by destruct Hv]. destruct Hv as [[src Hv] Hpr]. wp_step.
  eapply wp_mono.
  { apply (wp_fill_missing p key (λ i, shard_put i key v) id (λ _, v) missing p3); try done.
    - apply leg_put.
    - rewrite map_id. by apply NoDup_filter.
    - intros i [_ Hi]%list_elem_of_filter. split; [by apply Hin | by eapply Hfit]. }
  intros r p4 (lg & W & T & -> & HL). wp_step. eapply wp_calm; [apply calm_bg_acquire |]. intros [] p5 _ S5.
  apply wp_ret. exists desired, W. split; [done |]. split; [done |].
  destruct HL as [HW Hcnt HT Hboth Hb Hf _ Hall]. assert (wrote p key W T (p_mrf p) p5) as HW5 by (by eapply wrote_still).
  split.
  - by exists T.
  - right. exists v. split; [split; [by exists src | done] |]. intros i' r Hi'. by destruct (Hb i' r Hi') as (? & _ & _ & ->).
  - intros i r Hi. destruct (Hb i r Hi) as (a & Ha & <- & _). apply list_elem_of_filter in Ha as [Ha ?].
    split_and!; [done | done | by apply holds_unread].
  - exact Hcnt.
  - symmetry. exact Hboth.
  - intros Hz i Hi. apply nil_length_inv in Hz. rewrite Hz in Hall. destruct (holds p i key) eqn:Hri; [by left | right].
    unfold reads. rewrite (wrote_read _ _ _ _ _ _ _ _ HW5).
    destruct (Hall i) as [Hn | HWi]; [by apply list_elem_of_filter | by apply not_elem_of_nil in Hn |].
    change (id i) with i in HWi. by rewrite HWi, decide_True.
Qed.
End RepairFacts.

(** ** Disks on which every record can be read *)

Section RepairClean.
Context {E : Type} `{SE : !ShardEngine E, SES : !ShardEngineSpec E} `{PP : !PlacementPolicy} `{PPS : !PlacementSpec}
  `{RS : !ReedSolomon} `{BO : !Bao}.
Implicit Types (p : pool E) (W : gmap nat (DomainResult bytes)).

Lemma holds_reads p i key : Forall se_ok (p_shards p) → holds p i key = reads p i key.
Proof.
  intros Hok. unfold reads, holds, read_at. destruct (p_shards p !! i) as [s |] eqn:Hs; [| done].
  rewrite (se_has_spec s key); [by destruct (se_get s key) |]. rewrite Forall_forall in Hok.
  by eapply Hok, list_elem_of_lookup_2.
Qed.

Lemma wrote_kept p0 key W T q p i : wrote p0 key W T q p → (∀ i r, W !! i = Some r → reads p0 i key = false) →
  reads p0 i key = true → reads p i key = true.
Proof.
  intros HW Hmiss Hr. unfold reads. rewrite (wrote_read _ _ _ _ _ _ _ _ HW). destruct (W !! i) as [r |] eqn:Hi.
  - by rewrite (Hmiss i r Hi) in Hr.
  - exact Hr.
Qed.

(** When none refused, every replica reads the key. *)
Lemma repaired_all p0 key source desired W n p : Forall se_ok (p_shards p0) → repaired p0 key source desired W n 0 p →
  ∀ i, i ∈ desired → reads p i key = true.
Proof.
  intros Hok [[T HW] _ Hmiss _ _ Hall] i Hi. destruct (Hall eq_refl i Hi) as [Hh | ?]; [| done].
  rewrite holds_reads in Hh by done. eapply wrote_kept; [exact HW | | exact Hh]. intros j r Hj. by apply (Hmiss j r).
Qed.

(** C6. Repair of a mirrored key: the replicas are the first R disks for the key
    in the topology that the pool goes by, as many as R unless fewer are
    eligible. An [Ok] counts those that took a copy, of a body that some shard
    read, and those that refused it: together all that did not read the key.
    With no refusals every replica reads it now. No other key and no other
    shard reads differently. An [Err] is [NotFound], changes nothing, and
    means that no shard reads the key. *)
Theorem repair_restores_copies key p r p' :
  pool_wf p → Forall se_ready (p_shards p) → pc_ec (p_cfg p) = None →
  (∀ i v, read_at p i key = Ok v → se_fits key v) → repair_key key p = (r, p') →
  match r with
  | Ok (n, failed) => ∃ t (copies : gset nat) v, in_use p t ∧ map (λ e, e.1.1) t = seq 0 (length (p_shards p)) ∧
      let desired := pp_select key t (replicas (p_cfg p)) in
      length desired = Nat.min (replicas (p_cfg p)) (length (filter pp_eligible t)) ∧ size copies = n ∧
      (n + failed)%nat = length (filter (λ i, reads p i key = false) desired) ∧
      (copies = ∅ ∨ ∃ i, read_at p i key = Ok v) ∧
      (∀ i, i ∈ copies → i ∈ desired ∧ ∀ v', read_at p i key ≠ Ok v') ∧
      (∀ i k, read_at p' i k = if decide (i ∈ copies ∧ k = key) then Ok v else read_at p i k) ∧
      (failed = 0%nat → ∀ i, i ∈ desired → ∃ v', read_at p' i key = Ok v')
  | Err e => e = NotFound ∧ p_shards p' = p_shards p ∧ ∀ i v, read_at p i key ≠ Ok v
  end.
Proof.
  intros Hwf Hr Hec Hfit Hrun. unfold repair_key in Hrun. unfold mthen, mget in Hrun. rewrite Hec in Hrun.
  assert (Forall se_ok (p_shards p)) as Hok by (eapply Forall_impl; [exact Hr | apply se_ready_ok]).
  pose proof (wp_run _ _ _ _ _ (wp_repair_mirror key None p Hwf Hr Hfit ltac:(done)) Hrun) as Hout.
  destruct r as [[n failed] | e]; simpl in Hout.
  2: { destruct Hout as (S0 & -> & Hn). split_and!; [done | by rewrite (still_shards _ _ S0) | done]. }
  destruct Hout as (desired & W & (t & Hu & Ht & Hdes) & _ & Hrep). pose proof Hrep as [[T HW] Hsrc Hmiss Hcnt Hboth _].
  assert (∃ v, (W = ∅ ∨ ∃ i, read_at p i key = Ok v) ∧ ∀ i r, W !! i = Some r → r = Ok v) as (v & Hv & Hd).
  { destruct Hsrc as [-> | (v & [Hv _] & Hd)]; [exists []; split; [by left |]; intros i r; by rewrite lookup_empty |].
    exists v. split; [by right | done]. }
  exists t, (dom W), v. cbv zeta. rewrite <-Hdes. split_and!; [done | done | rewrite Hdes; apply pp_count | by rewrite size_dom | | | | |].
  - rewrite Hboth. f_equal. apply list_filter_iff. intros i. by rewrite holds_reads.
  - destruct Hv as [-> | Hv]; [left; by rewrite dom_empty_L | by right].
  - intros i Hi. apply elem_of_dom in Hi as [r Hi]. destruct (Hmiss i r Hi) as (? & _ & Hf). split; [done |]. by apply reads_false.
  - intros i k. by apply (wrote_reads p key v W T (p_mrf p)).
  - intros -> i Hi. apply reads_true. by eapply repaired_all.
Qed.

(** Repair is idempotent: after a repair that left no copy missing, and
    while the placement is steady, a second repair of the key finds nothing to
    do and changes no shard. *)
Theorem repair_is_idempotent key p t n p1 r p2 :
  pool_wf p → Forall se_ready (p_shards p) → pc_ec (p_cfg p) = None →
  (∀ i v, read_at p i key = Ok v → se_fits key v) → steady t p →
  repair_key key p = (Ok (n, 0%nat), p1) → repair_key key p1 = (r, p2) →
  r = Ok (0, 0)%nat ∧ p_shards p2 = p_shards p1.
Proof.
  intros Hwf Hr Hec Hfit Ht Hrun Hrun2. unfold repair_key in Hrun. unfold mthen, mget in Hrun. rewrite Hec in Hrun.
  pose proof (wp_run _ _ _ _ _ (wp_repair_mirror key None p Hwf Hr Hfit ltac:(done)) Hrun) as Hout. simpl in Hout.
  assert (Forall se_ok (p_shards p)) as Hok by (eapply Forall_impl; [exact Hr | apply se_ready_ok]).
  destruct Hout as (desired & W & _ & Hst & Hrep). pose proof (repaired_all _ _ _ _ _ _ _ Hok Hrep) as Hall.
  destruct Hrep as [[T HW] _ _ _ _ _]. specialize (Hst t Ht).
  assert (wp (repair_key key) (λ r p2, r = Ok (0, 0)%nat ∧ p_shards p2 = p_shards p1) p1) as Hw.
  { unfold repair_key. do 2 wp_step. rewrite (wt_cfg _ _ _ _ _ _ HW), Hec. unfold repair_key_mirror. wp_step.
    apply wp_replicas_steady; [apply (wt_wf _ _ _ _ _ _ HW) |]. intros ids p3 _ S3 Hids.
    rewrite (Hids t (wt_steady _ _ _ _ _ _ HW t Ht)), (wt_cfg _ _ _ _ _ _ HW), <-Hst.
    wp_step. eapply wp_mono; [apply wp_split_holders |].
    intros r0 p4 [-> ->]. rewrite bool_decide_eq_true_2; [apply wp_ret; split; [done | by rewrite (still_shards _ _ S3)] |].
    apply elem_of_nil_inv. intros i [Hf Hi]%list_elem_of_filter.
    rewrite (holds_still _ _ _ _ S3), holds_reads, Hall in Hf; [done | done |]. by eapply wrote_ok. }
  exact (wp_run _ _ _ _ _ Hw Hrun2).
Qed.
End RepairClean.

(** * Repair restores the pieces

    The repair of an erasure-coded key gathers [k] pieces wherever they are,
    and writes every piece that is not on its shard. *)

Section RepairEc.
Context {E : Type} `{SE : !ShardEngine E, SES : !ShardEngineSpec E} `{PP : !PlacementPolicy} `{PPS : !PlacementSpec}
  `{RS : !ReedSolomon} `{BO : !Bao}.
Context (key : BlockKey) (k m : nat) (body : bytes) (pieces : list bytes) (Hps : piece_set k m body pieces).
Implicit Types (p : pool E) (A : gset nat).
Local Abbreviation PM := (M (pool E) DomainError).
Local Abbreviation piece r := (nth r pieces []).

(** The shard of a rank reads the piece of the rank. *)
Definition in_place p (e : nat * ShardId) : Prop := read_at p e.2 key = Ok (piece e.1).
#[global] Instance in_place_dec p e : Decision (in_place p e).
Proof. unfold in_place. apply _. Defined.

(** Whoever reads the key reads a piece. *)
Definition all_pieces p : Prop := ∀ i b, read_at p i key = Ok b → ∃ j, pieces !! j = Some b.

Lemma all_pieces_mixed p : all_pieces p → mixed key body pieces p.
Proof. intros Hp i b Hb. right. by eapply Hp. Qed.

Lemma wp_canonical targets l slots miss p0 p :
  still p0 p → all_pieces p0 → ranked key pieces p0 targets → (∀ e, e ∈ l → targets !! e.1 = Some e.2) → erased slots pieces →
  wp (mfold (λ acc e,
        mcatch (shard_get e.2 key) (λ r,
        mret (match r with
              | Ok b =>
                  match parse_piece_header b with
                  | Some h =>
                      (fill_slot (k + m) acc.1 h b,
                       if (Z.to_nat (ph_piece_idx h) =? e.1)%nat then acc.2 else acc.2 ++ [e])
                  | None => (acc.1, acc.2 ++ [e])
                  end
              | Err _ => (acc.1, acc.2 ++ [e])
              end))) (slots, miss) l : PM (list (option bytes) * list (nat * ShardId)))
    (λ r p', ∃ slots', r = Ok (slots', miss ++ filter (λ e, ¬ in_place p0 e) l) ∧ still p0 p' ∧ erased slots' pieces ∧
      grown slots slots' ∧ ∀ e, e ∈ l → in_place p0 e → slots' !! e.1 = Some (Some (piece e.1))) p.
Proof.
  intros S Hp Hrk. revert slots miss p S. induction l as [| e l IH]; intros slots miss p S Hl He; simpl.
  { apply wp_ret. exists slots. rewrite app_nil_r. split_and!; try done. intros e Hin. by apply not_elem_of_nil in Hin. }
  do 2 wp_step. apply wp_shard_get. intros p1 S1. apply wp_ret. rewrite (read_at_still _ _ _ _ S).
  assert (still p0 p1) as S01 by (by etransitivity). pose proof (Hl e ltac:(left)) as Hte.
  assert (∀ e', e' ∈ l → targets !! e'.1 = Some e'.2) as Hl' by (intros e' ?; apply Hl; by right).
  rewrite filter_cons. destruct (read_at p0 e.2 key) as [b | err] eqn:Hb.
  - destruct (Hp _ _ Hb) as [j Hj]. pose proof (Hrk _ _ _ _ Hte Hb Hj) as <-.
    assert (in_place p0 e) as Hin by (unfold in_place; by rewrite Hb, (nth_lookup_Some _ _ _ _ Hj)).
    pose proof (ps_header _ _ _ _ Hps _ _ Hj) as Hh. rewrite Hh. cbn [fst snd ph_piece_idx]. rewrite Nat2Z.id, Nat.eqb_refl.
    rewrite decide_False by tauto. destruct (fill_piece k m body pieces Hps slots e.1 b _ He Hj Hh) as (He2 & Hg2 & Hs2).
    eapply wp_mono; [by apply IH |]. intros r p2 (slots' & -> & S2 & He' & Hg' & Hall). exists slots'.
    split_and!; [done | done | done | by etransitivity |]. intros e' [-> | He'']%elem_of_cons; [| by apply Hall].
    intros _. rewrite (nth_lookup_Some _ _ _ _ Hj). by apply Hg'.
  - assert (¬ in_place p0 e) as Hin by (unfold in_place; by rewrite Hb). rewrite decide_True by done.
    eapply wp_mono; [by apply IH |]. intros r p2 (slots' & -> & S2 & He' & Hg' & Hall). exists slots'.
    rewrite <-app_assoc. split_and!; try done. intros e' [-> | He'']%elem_of_cons; [done | by apply Hall].
Qed.

(** What a repair did: the shards of [W] took the piece of their rank. *)
Definition pieced p0 (targets : list ShardId) (r : DomainResult (nat * nat)) p : Prop :=
  ∃ n failed W T, r = Ok (n, failed) ∧ wrote p0 key W T (p_mrf p0) p ∧
    (∀ i d, W !! i = Some d → ∃ rank, targets !! rank = Some i ∧ d = Ok (piece rank)) ∧
    (failed = 0%nat → ∀ rank i, targets !! rank = Some i → read_at p i key = Ok (piece rank)).

Lemma pieced_still p0 targets p p' :
  pool_wf p0 → still p0 p → (∀ rank i, targets !! rank = Some i → read_at p0 i key = Ok (piece rank)) →
  still p p' → pieced p0 targets (Ok (0, 0)%nat) p'.
Proof.
  intros Hwf S Hall S'. exists 0%nat, 0%nat, ∅, ∅. assert (still p0 p') as S2 by (by etransitivity).
  split_and!; [done | eapply wrote_still; [by apply writing_start | done] | by intros i d; rewrite lookup_empty |].
  intros _ rank i Hi. rewrite (read_at_still _ _ _ _ S2). by apply Hall.
Qed.

Context (p0 : pool E) (targets : list ShardId) (A : gset nat).
Context (Hwf : pool_wf p0) (Hready : Forall se_ready (p_shards p0)) (Hp : all_pieces p0) (Hrk : ranked key pieces p0 targets)
  (HA : available key pieces p0 A) (HkA : (k ≤ size A)%nat) (Hlen : length targets = (k + m)%nat)
  (Htok : targets_ok p0 targets) (Hfit : ∀ b, b ∈ pieces → se_fits key b).

(** Enough pieces, on the targets or among the strays. *)
Lemma wp_enough slots p :
  still p0 p → erased slots pieces →
  (∀ e, e ∈ imap pair targets → in_place p0 e → slots !! e.1 = Some (Some (piece e.1))) →
  wp (if (have slots <? k)%nat then scan_strays key targets (k + m) slots else mret slots : PM (list (option bytes)))
    (λ r p', ∃ slots', r = Ok slots' ∧ still p0 p' ∧ erased slots' pieces ∧ (k ≤ have slots')%nat) p.
Proof.
  intros S He Hin. destruct (Nat.ltb_spec (have slots) k) as [_ | Hge]; [| apply wp_ret; by exists slots].
  unfold scan_strays. do 2 wp_step. eapply wp_mono.
  { apply (wp_collect key k m body pieces Hps (λ _, (k + m)%nat) _ slots p0 p); try done. by apply all_pieces_mixed. }
  intros r p1 (slots' & -> & S1 & He' & Hg & Hstray). exists slots'. split_and!; [done | done | done |].
  etransitivity; [exact HkA |]. apply have_size. intros j Hj. destruct (HA j Hj) as (i & b & Hb & Hpj). exists b.
  destruct (decide (i ∈ targets)) as [Hit | Hit].
  - apply list_elem_of_lookup in Hit as [r Hr]. pose proof (Hrk _ _ _ _ Hr Hb Hpj) as ->. apply Hg.
    specialize (Hin (j, i)). simpl in Hin. rewrite (nth_lookup_Some _ _ _ _ Hpj) in Hin. apply Hin; [by apply elem_of_imap_pair |].
    unfold in_place. simpl. by rewrite (nth_lookup_Some _ _ _ _ Hpj).
  - apply (Hstray i j b); [| done | done]. apply elem_of_others. split; [done |]. rewrite (still_shards _ _ S).
    unfold read_at in Hb. destruct (p_shards p0 !! i) eqn:Hi; [| done]. by eapply lookup_lt_Some.
Qed.

Lemma wp_repair_ec h b p :
  still p0 p → (∃ j, pieces !! j = Some b) → parse_piece_header b = Some h →
  wp (repair_key_ec key h targets) (pieced p0 targets) p.
Proof.
  intros S [j0 Hj0] Hh. rewrite (ps_header _ _ _ _ Hps _ _ Hj0) in Hh. injection Hh as <-.
  unfold repair_key_ec. cbn [ph_k ph_m ph_logical_len]. rewrite !Nat2Z.id. cbv zeta. wp_step. unfold canonical_pieces.
  rewrite firstn_all2 by (rewrite length_imap; lia). eapply wp_mono.
  { apply (wp_canonical targets (imap pair targets) (replicate (k + m) None) [] p0 p); try done.
    - intros [r i] Hri. by apply elem_of_imap_pair.
    - apply erased_none. symmetry. apply (ps_len _ _ _ _ Hps). }
  intros r p1 (slots & -> & S1 & He & _ & Hin). cbv iota. set (missing := _ ++ filter _ _). wp_step.
  eapply wp_mono; [by apply wp_enough |]. intros r p2 (slots2 & -> & S2 & He2 & Hk2).
  rewrite (proj2 (Nat.ltb_ge _ _)) by done. case_bool_decide as Hmiss.
  { apply wp_ret. apply (pieced_still p0 targets p2); [done | done | | done]. intros rank i Hi.
    destruct (decide (in_place p0 (rank, i))) as [Hpl | Hn]; [exact Hpl |].
    assert ((rank, i) ∈ missing) as Hm by (apply list_elem_of_filter; split; [done | by apply elem_of_imap_pair]).
    rewrite Hmiss in Hm. by apply not_elem_of_nil in Hm. }
  wp_step. apply wp_lift. rewrite (ps_repair _ _ _ _ Hps slots2 He2 Hk2). cbv zeta. wp_step.
  pose proof (ps_fits _ _ _ _ Hps) as [_ _ _ Hobj].
  assert (∀ e, e ∈ missing → targets !! e.1 = Some e.2) as Hmt.
  { intros [r i] [_ Hri]%list_elem_of_filter. by apply elem_of_imap_pair. }
  eapply wp_mono.
  { apply (wp_fill_missing p0 key _ snd (λ e, piece e.1) missing p2); try done.
    - apply leg_put_meta. lia.
    - eapply sublist_NoDup; [| apply (fmap_sublist snd), sublist_filter].
      change (NoDup (map snd (imap pair targets))). rewrite imap_pair_snd. apply Htok.
    - intros e Hm. pose proof (Hmt e Hm) as Hi. split; [by eapply Htok, list_elem_of_lookup_2 |].
      eapply Hfit, list_elem_of_lookup_2, (nth_piece k m body pieces Hps). rewrite <-Hlen. by eapply lookup_lt_Some. }
  intros r p3 (lg & W & T & -> & [HW Hok HT Hcnt Hb Hf _ Hall]). wp_step.
  eapply wp_calm; [apply calm_count |]. intros [] p4 _ S4. wp_step. eapply wp_calm; [apply calm_bg_acquire |].
  intros [] p5 _ S5. apply wp_ret. assert (wrote p0 key W T (p_mrf p0) p5) as HW5 by (do 2 (eapply wrote_still; [| done]); done).
  assert (∀ i d, W !! i = Some d → ∃ rank, targets !! rank = Some i ∧ d = Ok (piece rank)) as Hd.
  { intros i d Hi. destruct (Hb i d Hi) as (e & He' & <- & ->). exists e.1. split; [by apply Hmt | done]. }
  eexists _, _, W, T. split; [by destruct lg |]. split; [exact HW5 |]. split; [exact Hd |].
  intros Hz rank i Hi. rewrite (wrote_read _ _ _ _ _ _ _ _ HW5). destruct (W !! i) as [d |] eqn:HWi.
  - destruct (Hd i d HWi) as (rank' & Hr' & ->). rewrite decide_True by done.
    by rewrite (NoDup_lookup _ _ _ _ (proj1 Htok) Hr' Hi).
  - destruct (decide (in_place p0 (rank, i))) as [Hpl | Hn]; [exact Hpl |]. apply nil_length_inv in Hz.
    destruct (Hall (rank, i)) as [Hfl | HWe].
    + apply list_elem_of_filter. split; [done | by apply elem_of_imap_pair].
    + rewrite Hz in Hfl. by apply not_elem_of_nil in Hfl.
    + simpl in HWe. congruence.
Qed.

(** *** The decision *)

(** The ranks whose shard does not read the key. *)
Definition unread_ranks : list nat := map fst (filter (λ e : nat * ShardId, reads p0 e.2 key = false) (imap pair targets)).

Lemma elem_of_unread rank : rank ∈ unread_ranks ↔ ∃ i, targets !! rank = Some i ∧ reads p0 i key = false.
Proof.
  unfold unread_ranks. change (map fst) with (fmap (M := list) (@fst nat ShardId)). rewrite list_elem_of_fmap. split.
  - intros ([r i] & -> & [Hr Hi]%list_elem_of_filter). exists i. split; [by apply elem_of_imap_pair | done].
  - intros (i & Hi & Hr). exists (rank, i). split; [done |]. apply list_elem_of_filter. split; [done | by apply elem_of_imap_pair].
Qed.
Lemma unread_nodup : NoDup unread_ranks.
Proof.
  eapply sublist_NoDup; [| apply (fmap_sublist fst), sublist_filter].
  change (NoDup (map fst (imap pair targets))). rewrite imap_pair_fst. apply NoDup_seq.
Qed.

(** Nothing from rank [n] on, and all before. *)
Definition head_only (n : nat) : Prop := ∀ rank i, targets !! rank = Some i → (reads p0 i key = true ↔ (rank < n)%nat).

Lemma unread_tail n :
  (n ≤ k + m)%nat → forallb (λ r, n <=? r)%nat unread_ranks = true → length unread_ranks = (k + m - n)%nat → head_only n.
Proof.
  intros Hn Hall Hl. rewrite forallb_forall in Hall.
  assert (∀ r, r ∈ unread_ranks → (n ≤ r)%nat) as Hge by (intros r Hr; apply Nat.leb_le, Hall, list_elem_of_In, Hr).
  assert (unread_ranks ≡ₚ seq n (k + m - n)) as Hperm.
  { apply submseteq_length_Permutation; [| by rewrite length_seq, Hl]. apply NoDup_submseteq; [apply unread_nodup |].
    intros r Hr. apply elem_of_seq. specialize (Hge r Hr). apply elem_of_unread in Hr as (i & Hi & _).
    apply lookup_lt_Some in Hi. lia. }
  intros rank i Hi. pose proof (lookup_lt_Some _ _ _ Hi) as Hlt. split; intros Hr.
  - destruct (Nat.lt_ge_cases rank n) as [| Hle]; [done |].
    assert (rank ∈ unread_ranks) as Hin by (rewrite Hperm; apply elem_of_seq; lia).
    apply elem_of_unread in Hin as (i' & Hi' & Hf). congruence.
  - destruct (reads p0 i key) eqn:Hrd; [done |]. assert (rank ∈ unread_ranks) as Hin by (apply elem_of_unread; eauto).
    apply Hge in Hin. lia.
Qed.

Lemma all_read_in_place : unread_ranks = [] → ∀ rank i, targets !! rank = Some i → read_at p0 i key = Ok (piece rank).
Proof.
  intros Hnil rank i Hi. destruct (reads p0 i key) eqn:Hrd.
  - apply reads_true in Hrd as [b Hb]. destruct (Hp _ _ Hb) as [j Hj]. pose proof (Hrk _ _ _ _ Hi Hb Hj) as <-.
    by rewrite Hb, (nth_lookup_Some _ _ _ _ Hj).
  - assert (rank ∈ unread_ranks) as Hin by (apply elem_of_unread; eauto). rewrite Hnil in Hin. by apply not_elem_of_nil in Hin.
Qed.

Lemma wp_repair_coded ec t :
  k = ec_data ec → m = ec_parity ec → pc_ec (p_cfg p0) = Some ec → (replicas (p_cfg p0) ≤ k + m)%nat →
  steady t p0 → targets = pp_select key t (k + m) →
  wp (repair_key key) (λ r p, r = Ok (0, 0)%nat ∧ still p0 p ∧ head_only (replicas (p_cfg p0)) ∨ pieced p0 targets r p) p0.
Proof.
  intros Hk Hm Hec Hrep Ht Htg. unfold repair_key, ec_total. do 2 wp_step. rewrite Hec, <-Hk, <-Hm, Nat.max_l by done. cbv zeta.
  wp_step. apply wp_ranking_steady; [done |]. intros ids p1 _ S1 Hids. rewrite (Hids t Ht), <-Htg. clear ids Hids.
  rewrite firstn_all2 by lia. wp_step. eapply wp_mono.
  { apply wp_missing_ranks. }
  intros r p2 [-> ->].
  assert (Forall se_ok (p_shards p0)) as Hok0 by (eapply Forall_impl; [exact Hready | apply se_ready_ok]).
  assert (filter (λ e : nat * ShardId, holds p1 e.2 key = false) (imap pair targets) = filter (λ e : nat * ShardId, reads p0 e.2 key = false) (imap pair targets)) as ->
    by (apply list_filter_iff; intros e; by rewrite (holds_still _ _ _ _ S1), holds_reads).
  fold unread_ranks. rewrite Hlen, Nat.min_l by done. case_bool_decide as Hnil.
  { apply wp_ret. right. apply (pieced_still p0 targets p1); try done. by apply all_read_in_place. }
  destruct (forallb _ _ && _) eqn:Htail.
  { apply andb_prop in Htail as [Hall Hl%Nat.eqb_eq]. apply wp_ret. left. split_and!; [done | done |]. by apply unread_tail. }
  assert (∀ p b, still p0 p → (∃ i, read_at p0 i key = Ok b) →
    wp (repair_found key targets b) (λ r p, r = Ok (0, 0)%nat ∧ still p0 p ∧ head_only (replicas (p_cfg p0)) ∨ pieced p0 targets r p) p) as Hfound.
  { intros p b S [i Hb]. destruct (Hp _ _ Hb) as [j Hj]. unfold repair_found. pose proof (ps_header _ _ _ _ Hps _ _ Hj) as Hh.
    rewrite Hh. eapply wp_mono; [eapply wp_repair_ec; [done | by exists j | exact Hh] |]. intros r p' ?. by right. }
  wp_step. eapply wp_mono; [by apply (wp_get_any key targets p1 p0) |]. intros r p3 (o & -> & S3 & Hlk).
  destruct o as [b |]; [by apply Hfound |]. destruct Hlk as [Hno _]. wp_step.
  eapply wp_mono; [by apply (wp_get_any key (others p0 targets) p3 p0) |]. intros r p4 (o & -> & S4 & Hlk).
  destruct o as [b |]; [by apply Hfound |]. destruct Hlk as [Hno' _]. exfalso.
  pose proof (ps_fits _ _ _ _ Hps) as [Hk0 _ _ _].
  assert (A ≠ ∅) as HAne by (intros ->; rewrite size_empty in HkA; lia).
  apply set_choose_L in HAne as [j Hj]. destruct (HA j Hj) as (i & b & Hb & _).
  destruct (decide (i ∈ targets)) as [Hit | Hit]; [by apply (Hno i b) |]. apply (Hno' i b); [| done].
  apply elem_of_others. split; [done |].
  unfold read_at in Hb. destruct (p_shards p0 !! i) eqn:Hi; [| done]. by eapply lookup_lt_Some.
Qed.
End RepairEc.

Section RepairPieces.
Context {E : Type} `{SE : !ShardEngine E, SES : !ShardEngineSpec E} `{PP : !PlacementPolicy} `{PPS : !PlacementSpec}
  `{RS : !ReedSolomon} `{BO : !Bao}.
Implicit Types (p : pool E) (A : gset nat).

(** C8. Repair of an erasure-coded key of which [k] pieces are somewhere, when
    the topology does not expire and no shard that is a target holds the piece of another
    rank: it succeeds, no shard that read a piece reads another or none, no
    other key and no shard but the targets changes, and when no write was
    refused every rank has its piece. The one exception is a key whose pieces
    are exactly those of the first R ranks: that one is left as it is, as if it
    were a small body stored as copies. (A shard that holds the piece of
    another rank has it overwritten: repair_overwrites_the_last_piece in
    WalkDemo.) *)
Theorem repair_restores_pieces ec key body pieces A t p r p1 :
  pool_wf p → Forall se_ready (p_shards p) → pc_ec (p_cfg p) = Some ec → (replicas (p_cfg p) ≤ ec_total ec)%nat →
  rs_law (ec_data ec) (ec_parity ec) → ec_fits (ec_data ec) (ec_parity ec) body → ec_encode body ec = Ok pieces →
  (∀ b, b ∈ pieces → se_fits key b) → steady t p → length (pp_select key t (ec_total ec)) = ec_total ec →
  all_pieces key pieces p → ranked key pieces p (pp_select key t (ec_total ec)) →
  available key pieces p A → (ec_data ec ≤ size A)%nat →
  repair_key key p = (r, p1) →
  ∃ n failed, r = Ok (n, failed) ∧
    (∀ i k', k' ≠ key ∨ i ∉ pp_select key t (ec_total ec) → read_at p1 i k' = read_at p i k') ∧
    (∀ i b, read_at p i key = Ok b → read_at p1 i key = Ok b) ∧
    (head_only key p (pp_select key t (ec_total ec)) (replicas (p_cfg p)) ∨
     (failed = 0%nat → ∀ rank i, pp_select key t (ec_total ec) !! rank = Some i → read_at p1 i key = Ok (nth rank pieces []))).
Proof.
  intros Hwf Hr Hec Hrep Hlaw Hf Henc Hfit Ht Hlen Hp Hrk HA HkA Hrun. set (targets := pp_select key t (ec_total ec)) in *.
  destruct (encode_piece_set ec body Hlaw Hf) as (pieces' & Henc' & Hps). rewrite Henc in Henc'. injection Henc' as <-.
  assert (∃ cap, map (λ e : nat * Capacity * ShardStatus, e.1.1) (tc_topo cap) = seq 0 (length (p_shards p)) ∧ tc_topo cap = t) as (c & Hc & <-).
  { destruct Ht as (c & Hc & <- & _). exists c. split; [by apply Hwf | done]. }
  assert (targets_ok p targets) as Htok by (by apply select_targets).
  destruct (wp_run _ _ _ _ _ (wp_repair_coded key _ _ body pieces Hps p targets A Hwf Hr Hp Hrk HA HkA Hlen Htok Hfit
    ec (tc_topo c) eq_refl eq_refl Hec Hrep Ht eq_refl) Hrun) as [(-> & S & Hhead) | (n & failed & W & T & -> & HW & Hd & Hall)].
  - exists 0%nat, 0%nat. split_and!; [done | intros i k' _; by apply read_at_still | | by left].
    intros i b. by rewrite (read_at_still _ _ _ _ S).
  - exists n, failed. split_and!; [done | | | by right].
    + intros i k' Hk. rewrite (wrote_read _ _ _ _ _ _ _ _ HW). destruct (W !! i) as [d |] eqn:Hi; [| done].
      destruct (Hd i d Hi) as (rank & Hrank & ->). destruct Hk as [Hk | Hk]; [by rewrite decide_False |].
      destruct Hk. by eapply list_elem_of_lookup_2.
    + intros i b Hb. rewrite (wrote_read _ _ _ _ _ _ _ _ HW). destruct (W !! i) as [d |] eqn:Hi; [| done].
      destruct (Hd i d Hi) as (rank & Hrank & ->). rewrite decide_True by done.
      destruct (Hp _ _ Hb) as [j Hj]. pose proof (Hrk _ _ _ _ Hrank Hb Hj) as <-. by rewrite (nth_lookup_Some _ _ _ _ Hj).
Qed.
End RepairPieces.
