(* ===== verification/Migrate.v ===== *)
(** * Migration from mirrors to erasure coding (crates/ozd-app/src/pool.rs)

    One key goes through three phases: the pieces of the tail on shards that
    hold nothing, read back; the head pieces over the mirrored copies; the
    removal of stray copies. A failure in the first phase rolls the tail back. *)

From Stdlib Require Import ZArith Lia.
From stdpp Require Import base list gmap strings pretty.
From S2P Require Import Prelude Domain Metrics Throttle HealQueue Latency DiskSlow Piece Erasure Verified PoolState Pool Repair.
Open Scope Z_scope.

Record MigrateReport := {
  mr_scanned : nat;
  mr_migrated : nat;
  mr_skipped_small : nat;
  mr_skipped_ec : nat;
  mr_canary_failed : nat;
  mr_errors : nat;
  mr_last_key : option BlockKey;
  mr_done : bool;
}.
Definition MigrateReport_default : MigrateReport :=
  {| mr_scanned := 0; mr_migrated := 0; mr_skipped_small := 0; mr_skipped_ec := 0;
     mr_canary_failed := 0; mr_errors := 0; mr_last_key := None; mr_done := false |}.

Inductive MigrateOutcome := Migrated | SkippedSmall | SkippedEc | CanaryFailed.
#[global] Instance MigrateOutcome_eq_dec : EqDecision MigrateOutcome.
Proof. solve_decision. Defined.

Section Migrate.
Context {E : Type} `{SE : !ShardEngine E} `{PP : !PlacementPolicy} `{RS : !ReedSolomon}.
Local Open Scope rust_scope.
Implicit Types (p : pool E).
Local Abbreviation PM := (M (pool E) DomainError).

(** ** One key *)

(** [any(has)]: stops at the first shard that has the key. *)
Fixpoint any_holds (key : BlockKey) (ids : list ShardId) : PM bool :=
  match ids with
  | [] => mret false
  | i :: ids =>
      let! h := has_or_false i key in
      if (h : bool) then mret true else any_holds key ids
  end.

(** The era bit of a piece that was written before there was one; the bytes
    read so far. *)
Definition backfill (key : BlockKey) (acc : Z) (i : ShardId) : PM Z :=
  match! shard_stat_obj i key with! st =>
  match st with
  | Ok (_, None) =>
      match! shard_get i key with! r =>
      match r with
      | Ok b =>
          do! match parse_piece_header b with
              | Some h =>
                  match! on_shard i (se_set_obj_logical key (ph_logical_len h)) with! s =>
                  match s with
                  | Ok true => count (mt_add migrate_era_backfilled 1)
                  | _ => mret tt
                  end
              | None => mret tt
              end;
          mret (acc + blen b)
      | Err _ => mret acc
      end
  | _ => mret acc
  end.

(** Phase 1: each piece of the tail is written and read back. [false] is a
    mismatch. *)
Fixpoint write_tail (key : BlockKey) (pieces : list bytes) (obj : Z) (legs : list (nat * ShardId)) : PM bool :=
  match legs with
  | [] => mret true
  | (r, i) :: legs =>
      do! shard_put_meta i key (nth r pieces []) (Some obj);
      let! back := shard_get i key in
      if bool_decide (back = nth r pieces []) then write_tail key pieces obj legs else mret false
  end.

(** [let _ = self.shards[..].delete(key)] for each shard. *)
Definition drop_at (key : BlockKey) (ids : list ShardId) : PM unit :=
  miter (λ i, match! shard_delete i key with! _ => mret tt) ids.

(** Phase 2: one head piece over a mirrored copy. *)
Definition write_head (key : BlockKey) (pieces : list bytes) (obj : Z) (leg : nat * ShardId) : PM unit :=
  match! shard_put_meta leg.2 key (nth leg.1 pieces []) (Some obj) with! r =>
  match r with
  | Ok _ =>
      match! shard_get leg.2 key with! back =>
      match back with
      | Ok b => if bool_decide (b = nth leg.1 pieces []) then mret tt else enqueue_heal key High
      | Err _ => mret tt
      end
  | Err _ => enqueue_heal key High
  end.

(** The three phases for a body that was read. *)
Definition migrate_body (key : BlockKey) (ec : EcConfig) (targets : list ShardId) (r_legs : nat) (body : bytes)
    : PM MigrateOutcome :=
  let! pieces := mlift (ec_encode body ec) in
  let legs := imap pair targets in
  let tail := drop r_legs legs in
  match! write_tail key pieces (blen body) tail with! phase1 =>
  match phase1 with
  | Err e => do! drop_at key (map snd tail); mthrow e
  | Ok false => do! drop_at key (map snd tail); mret CanaryFailed
  | Ok true =>
      do! miter (write_head key pieces (blen body)) (take r_legs legs);
      let! p := mget in
      do! drop_at key (others p targets);
      do! bg_acquire (blen body * 4);
      mret Migrated
  end.

Definition migrate_key (key : BlockKey) (ec : EcConfig) : PM MigrateOutcome :=
  let! p := mget in
  let total := ec_total ec in
  let! targets := ranking_for key total in
  if (length targets <? total)%nat then
    mthrow (Io ("migrate: alive disks " +:+ pretty (length targets) +:+ " < K+M " +:+ pretty total))
  else
    let r_legs := Nat.min (replicas (p_cfg p)) total in
    let! coded := any_holds key (drop r_legs targets) in
    if (coded : bool) then
      let! read := mfold (backfill key) 0 targets in
      do! (if 0 <? read then bg_acquire read else mret tt);
      mret SkippedEc
    else
      let! r := split_holders key (take r_legs targets) in
      match r.1 with
      | [] => mthrow (Io "migrate: no mirror source on top-R")
      | h :: _ =>
          let! small := (match! shard_stat h key with! sz =>
                         mret (match sz with Ok sz => sz <? ec_min_size ec | Err _ => false end)) in
          if (small : bool) then mret SkippedSmall
          else
            let! body := get_any key r.1 in
            match body with
            | None => mthrow (Io "migrate: mirror body unreadable")
            | Some body =>
                match parse_piece_header body with
                | Some _ => mret SkippedEc
                | None =>
                    if blen body <? ec_min_size ec then mret SkippedSmall
                    else migrate_body key ec targets r_legs body
                end
            end
      end.

(** ** The walk *)

Definition count_outcome (r : MigrateReport) (o : DomainResult MigrateOutcome) : MigrateReport :=
  {| mr_scanned := mr_scanned r;
     mr_migrated := if decide (o = Ok Migrated) then S (mr_migrated r) else mr_migrated r;
     mr_skipped_small := if decide (o = Ok SkippedSmall) then S (mr_skipped_small r) else mr_skipped_small r;
     mr_skipped_ec := if decide (o = Ok SkippedEc) then S (mr_skipped_ec r) else mr_skipped_ec r;
     mr_canary_failed := if decide (o = Ok CanaryFailed) then S (mr_canary_failed r) else mr_canary_failed r;
     mr_errors := match o with Err _ => S (mr_errors r) | Ok _ => mr_errors r end;
     mr_last_key := mr_last_key r; mr_done := mr_done r |}.

Definition migrate_step (after : option BlockKey) (batch : nat) : PM MigrateReport :=
  let! p := mget in
  match pc_ec (p_cfg p) with
  | None => mthrow (Io "migrate: redundancy=erasure не включён")
  | Some ec =>
      let! page := mlift (pool_list p [] after batch) in
      let keys := map fst page in
      let! r := mfold (λ rep key,
          match! migrate_key key ec with! o => mret (count_outcome rep o))
        {| mr_scanned := length keys; mr_migrated := 0; mr_skipped_small := 0; mr_skipped_ec := 0;
           mr_canary_failed := 0; mr_errors := 0; mr_last_key := last keys;
           mr_done := (length keys <? batch)%nat |} keys in
      do! count (mt_add migrate_migrated (Z.of_nat (mr_migrated r)));
      do! count (mt_add migrate_canary_failed (Z.of_nat (mr_canary_failed r)));
      do! count (mt_add migrate_errors (Z.of_nat (mr_errors r)));
      mret r
  end.

Definition migrate_sum (t r : MigrateReport) (fin : bool) : MigrateReport :=
  {| mr_scanned := mr_scanned t + mr_scanned r; mr_migrated := mr_migrated t + mr_migrated r;
     mr_skipped_small := mr_skipped_small t + mr_skipped_small r;
     mr_skipped_ec := mr_skipped_ec t + mr_skipped_ec r;
     mr_canary_failed := mr_canary_failed t + mr_canary_failed r; mr_errors := mr_errors t + mr_errors r;
     mr_last_key := mr_last_key r; mr_done := fin |}.

(** The loop over the pages; [None] is a loop that has not ended. *)
Fixpoint migrate_loop (fuel : nat) (batch : nat) (after : option BlockKey) (total : MigrateReport)
    : PM (option MigrateReport) :=
  match fuel with
  | O => mret None
  | S fuel =>
      let! r := migrate_step after batch in
      if mr_done r || bool_decide (mr_last_key r = None) then
        do! keep_cursor "migrate" None;
        mret (Some (migrate_sum total r true))
      else
        do! keep_cursor "migrate" (mr_last_key r);
        migrate_loop fuel batch (mr_last_key r) (migrate_sum total r false)
  end.

Definition migrate_full (fuel : nat) (batch : nat) : PM (option MigrateReport) :=
  let! after := look_shard 0%nat (λ s, se_load_cursor s "migrate") in
  let! total := migrate_loop fuel batch after MigrateReport_default in
  do! flush_all;
  mret total.
End Migrate.
