(* ===== verification/PoolKeep.v ===== *)
(** * What every operation of the pool keeps

    The configuration, the number of shards, the heal queue, the shape of the
    cached topology, and a topology that does not expire: through any
    operation that asks for no healing, whatever its result. *)

From Stdlib Require Import ZArith Lia.
From stdpp Require Import base list gmap strings.
From S2P Require Import Prelude Domain Metrics Throttle HealQueue Latency DiskSlow Piece Erasure Verified PoolState Pool PoolFacts Repair.

Section PoolKeep.
Context {E : Type} `{SE : !ShardEngine E} `{PP : !PlacementPolicy} `{PPS : !PlacementSpec} `{RS : !ReedSolomon}.
Implicit Types (p : pool E).
Local Abbreviation PM := (M (pool E) DomainError).

Record frame p p' : Prop := {
  fr_cfg : p_cfg p' = p_cfg p;
  fr_len : length (p_shards p') = length (p_shards p);
  fr_mrf : p_mrf p' = p_mrf p;
  fr_wf : pool_wf p → pool_wf p';
  fr_steady : ∀ t, steady t p → steady t p';
}.

#[global] Instance frame_preorder : PreOrder frame.
Proof.
  split; [by intros p |]. intros p1 p2 p3 [] []. split; [congruence | congruence | congruence | auto | auto].
Qed.

Lemma still_frame p p' : still p p' → frame p p'.
Proof. intros ([] & ? & ? & ?). split; [done | congruence | done | done | done]. Qed.

(** [c] keeps the frame of a pool whose cached topology is in shape. *)
Definition keeps {A} (c : PM A) : Prop := ∀ p, pool_wf p → wp c (λ _ p', frame p p') p.

Lemma keeps_wp {A} (c : PM A) (Q : result DomainError A → pool E → Prop) p :
  keeps c → pool_wf p → (∀ r p', frame p p' → pool_wf p' → Q r p') → wp c Q p.
Proof. intros Hc Hwf HQ. eapply wp_mono; [by apply Hc |]. intros r p' F. apply HQ; [done | by apply F]. Qed.

Lemma keeps_ret {A} (a : A) : keeps (mret a).
Proof. intros p _. by apply wp_ret. Qed.
Lemma keeps_throw {A} e : keeps (mthrow (A := A) e).
Proof. intros p _. by apply wp_throw. Qed.
Lemma keeps_lift {A} (r : DomainResult A) : keeps (mlift r).
Proof. intros p _. by apply wp_lift. Qed.
Lemma keeps_get : keeps mget.
Proof. intros p _. by apply wp_get. Qed.
Lemma keeps_modify f : (∀ p, frame p (f p)) → keeps (mmodify f).
Proof. intros Hf p _. apply wp_modify. apply Hf. Qed.
Lemma keeps_calm {A} (c : PM A) P : calm_call c P → keeps c.
Proof. intros Hc p _. eapply wp_calm; [done |]. intros a p' _ S. by apply still_frame. Qed.

Lemma keeps_bind {A B} (c : PM A) (k : A → PM B) : keeps c → (∀ a, keeps (k a)) → keeps (mthen c k).
Proof.
  intros Hc Hk p Hwf. apply wp_bind. eapply keeps_wp; [done | done |]. intros [a | e] p1 F1 Hwf1; [| done].
  eapply keeps_wp; [apply Hk | done |]. intros r p2 F2 _. by etransitivity.
Qed.
Lemma keeps_catch {A B} (c : PM A) (k : DomainResult A → PM B) : keeps c → (∀ r, keeps (k r)) → keeps (mcatch c k).
Proof.
  intros Hc Hk p Hwf. apply wp_catch. eapply keeps_wp; [done | done |]. intros r p1 F1 Hwf1.
  eapply keeps_wp; [apply Hk | done |]. intros r' p2 F2 _. by etransitivity.
Qed.
Lemma keeps_fold {A B} (f : B → A → PM B) acc l : (∀ acc a, keeps (f acc a)) → keeps (mfold f acc l).
Proof.
  intros Hf. revert acc. induction l as [| a l IH]; intros acc; simpl; [apply keeps_ret |].
  by apply keeps_bind.
Qed.
Lemma keeps_iter {A} (f : A → PM unit) l : (∀ a, keeps (f a)) → keeps (miter f l).
Proof. intros Hf. induction l as [| a l IH]; simpl; [apply keeps_ret |]. by apply keeps_bind. Qed.

Lemma keeps_ranking key n : keeps (ranking_for key n).
Proof. intros p Hwf. apply wp_ranking; [done |]. intros ids p' _ S. by apply still_frame. Qed.
Lemma keeps_replicas key : keeps (replicas_for key).
Proof. apply keeps_bind; [apply keeps_get |]. intros p. apply keeps_ranking. Qed.
Lemma keeps_topology : keeps pool_topology.
Proof. intros p Hwf. apply wp_topology; [done |]. intros t p' _ _ S _. by apply still_frame. Qed.

Lemma keeps_on_shard {A} i (c : M E DomainError A) : keeps (on_shard i c).
Proof.
  intros p _. unfold wp, on_shard. destruct (p_shards p !! i) as [s |]; [| done].
  destruct (c s) as [r s']. simpl. split; simpl; [done | apply length_insert | done | | done].
  intros Hwf c' Hc. simpl in *. rewrite length_insert. by apply Hwf.
Qed.
Lemma keeps_look_shard {A} i (f : E → DomainResult A) : keeps (look_shard i f).
Proof. intros p _. unfold wp, look_shard. by destruct (p_shards p !! i). Qed.
Lemma keeps_metered {A} i (c : PM A) : keeps c → keeps (metered i c).
Proof.
  intros Hc. apply keeps_bind; [eapply keeps_calm, calm_now |]. intros t0. apply keeps_catch; [done |]. intros r.
  apply keeps_bind; [eapply keeps_calm, calm_now |]. intros t1.
  apply keeps_bind; [eapply keeps_calm; by apply calm_meter |]. intros _. apply keeps_lift.
Qed.
Lemma keeps_count f : keeps (count f).
Proof. eapply keeps_calm, calm_count. Qed.
Lemma keeps_bg_acquire n : keeps (bg_acquire n).
Proof. eapply keeps_calm, calm_bg_acquire. Qed.
Lemma keeps_choose n : keeps (choose n).
Proof. eapply keeps_calm, calm_choose. Qed.
Lemma keeps_arrivals {A} (l : list A) : keeps (arrivals l).
Proof. eapply keeps_calm, calm_arrivals. Qed.
End PoolKeep.

Create HintDb keeps.
#[export] Hint Resolve keeps_ret keeps_throw keeps_lift keeps_get keeps_bind keeps_catch keeps_fold keeps_iter
  keeps_ranking keeps_replicas keeps_topology keeps_on_shard keeps_look_shard keeps_metered : keeps.
#[export] Hint Extern 0 (keeps (count _)) => apply keeps_count : keeps.
#[export] Hint Extern 0 (keeps (bg_acquire _)) => apply keeps_bg_acquire : keeps.
#[export] Hint Extern 0 (keeps (choose _)) => apply keeps_choose : keeps.
#[export] Hint Extern 0 (keeps (arrivals _)) => apply keeps_arrivals : keeps.

(** Follows the program; case distinctions of the program become cases. *)
Ltac keeps_step :=
  match goal with
  | |- ∀ _, _ => intro
  | |- keeps (if ?b then _ else _) => destruct b
  | |- keeps (match ?x with _ => _ end) => destruct x
  | |- keeps _ => solve [auto 1 with keeps nocore]
  | |- keeps (mthen _ _) => apply keeps_bind
  | |- keeps (mcatch _ _) => apply keeps_catch
  | |- keeps (mfold _ _ _) => apply keeps_fold
  | |- keeps (miter _ _) => apply keeps_iter
  | |- keeps (metered _ _) => apply keeps_metered
  end.
Ltac keeps_auto := repeat (keeps_step; cbv beta zeta).

Section KeepRepair.
Context {E : Type} `{SE : !ShardEngine E} `{PP : !PlacementPolicy} `{PPS : !PlacementSpec} `{RS : !ReedSolomon}.

Lemma keeps_shard_get i key : keeps (E := E) (shard_get i key).
Proof. unfold shard_get. keeps_auto. Qed.
#[local] Hint Resolve keeps_shard_get : keeps.
Lemma keeps_shard_put i key d : keeps (E := E) (shard_put i key d).
Proof. unfold shard_put. keeps_auto. Qed.
Lemma keeps_shard_put_meta i key d o : keeps (E := E) (shard_put_meta i key d o).
Proof. unfold shard_put_meta. keeps_auto. Qed.
Lemma keeps_shard_delete i key : keeps (E := E) (shard_delete i key).
Proof. unfold shard_delete. keeps_auto. Qed.
Lemma keeps_has_or_false i key : keeps (E := E) (has_or_false i key).
Proof. unfold has_or_false, shard_has. keeps_auto. Qed.
#[local] Hint Resolve keeps_shard_put keeps_shard_put_meta keeps_shard_delete keeps_has_or_false : keeps.

Lemma keeps_get_any key ids : keeps (E := E) (get_any key ids).
Proof. induction ids as [| i ids IH]; simpl; [auto with keeps |]. keeps_auto. Qed.
Lemma keeps_fill_missing {A} (write : A → M (pool E) DomainError unit) l :
  (∀ a, keeps (write a)) → keeps (fill_missing write l).
Proof. intros Hw. unfold fill_missing. keeps_auto. Qed.
#[local] Hint Resolve keeps_get_any : keeps.

Lemma keeps_repair_mirror key probe : keeps (E := E) (repair_key_mirror key probe).
Proof.
  unfold repair_key_mirror, split_holders, read_for_repair. keeps_auto. apply keeps_fill_missing. keeps_auto.
Qed.
Lemma keeps_repair_ec key h targets : keeps (E := E) (repair_key_ec key h targets).
Proof.
  unfold repair_key_ec, canonical_pieces, scan_strays. cbv zeta. keeps_auto. apply keeps_fill_missing. keeps_auto.
Qed.
#[local] Hint Resolve keeps_repair_mirror keeps_repair_ec : keeps.

Lemma keeps_repair_key key : keeps (E := E) (repair_key key).
Proof. unfold repair_key, repair_found, missing_ranks. cbv zeta. keeps_auto. Qed.
End KeepRepair.
#[export] Hint Resolve keeps_shard_get keeps_shard_put keeps_shard_put_meta keeps_shard_delete
  keeps_has_or_false keeps_get_any keeps_repair_key : keeps.
