(* ===== verification/ResilverFacts.v ===== *)
(** * A resilver repairs every key

    The walk over the pages of the pool's listing ends, repairs each key once
    and, when it reports no errors, leaves every key with all its copies. *)

From Stdlib Require Import ZArith Lia Sorting.Sorted.
From stdpp Require Import base list gmap sets sorting strings.
From S2P Require Import Prelude Domain Paging Metrics Throttle HealQueue Latency DiskSlow Piece Erasure Verified PoolState Pool PoolFacts PoolRead PoolWrite Repair RepairFacts PoolKeep.

Section Walked.
Context {E : Type} `{SE : !ShardEngine E, DS : !DiskSpec E, WES : !WalkEngineSpec E, SD : !SturdyDisk E}
  `{PP : !PlacementPolicy} `{PPS : !PlacementSpec} `{RS : !ReedSolomon}.
Implicit Types (p : pool E).

(** ** What a walk keeps *)

(** Some shard reads the key. *)
Definition readable_key p (k : BlockKey) : Prop := ∃ i v, read_at p i k = Ok v.

(** No copy is lost or changed, and every new one is of a body that was there. *)
Record walked p p' : Prop := {
  wk_frame : frame p p';
  wk_ok : Forall se_ok (p_shards p) → Forall se_ok (p_shards p');
  wk_kept : ∀ i k v, read_at p i k = Ok v → read_at p' i k = Ok v;
  wk_from : ∀ i k v, read_at p' i k = Ok v → ∃ j, read_at p j k = Ok v;
}.

#[global] Instance walked_preorder : PreOrder walked.
Proof.
  split; [by intros p; split; eauto |]. intros p1 p2 p3 [F1 O1 K1 B1] [F2 O2 K2 B2]. split; [by etransitivity | auto | auto |].
  intros i k v Hv. destruct (B2 _ _ _ Hv) as [j Hj]. by apply (B1 j).
Qed.

Lemma still_walked p p' : still p p' → walked p p'.
Proof.
  intros S. split; [by apply still_frame | by rewrite (still_shards _ _ S) | |]; intros i k v; rewrite (read_at_still _ _ _ _ S); eauto.
Qed.

Lemma walked_readable p p' k : walked p p' → readable_key p' k ↔ readable_key p k.
Proof.
  intros W. split; intros (i & v & Hv).
  - destruct (wk_from _ _ W _ _ _ Hv) as [j Hj]. by exists j, v.
  - exists i, v. by apply (wk_kept _ _ W).
Qed.

(** A call of a shard that changes no body. *)
Lemma wp_on_shard_reads {A} i (c : M E DomainError A) p (Q : DomainResult A → pool E → Prop) :
  Forall se_ok (p_shards p) → (∀ s, se_ok s → wp c (λ _ s', se_ok s' ∧ reads_same s s') s) →
  (∀ r p', frame p p' → Forall se_ok (p_shards p') → (∀ j k, read_at p' j k = read_at p j k) → Q r p') →
  wp (on_shard i c) Q p.
Proof.
  intros Hok Hc HQ. unfold wp, on_shard. destruct (p_shards p !! i) as [s |] eqn:Hs; [| by apply HQ].
  rewrite Forall_lookup in Hok. specialize (Hc s (Hok i s Hs)). unfold wp in Hc. destruct (c s) as [r s']. simpl in *.
  destruct Hc as [Hok' Hsame]. apply HQ.
  - split; simpl; try done; [by rewrite length_insert |]. intros Hwf c' Hc'. simpl. rewrite length_insert. by apply Hwf.
  - simpl. by apply Forall_insert; [apply Forall_lookup |].
  - intros j k. unfold read_at. simpl. destruct (decide (i = j)) as [<- | Hij].
    + rewrite list_lookup_insert_eq by (by eapply lookup_lt_Some). rewrite Hs. apply Hsame.
    + by rewrite list_lookup_insert_ne.
Qed.
Lemma wp_on_shard_same {A} i (c : M E DomainError A) p (Q : DomainResult A → pool E → Prop) :
  Forall se_ok (p_shards p) → (∀ s, se_ok s → wp c (λ _ s', se_ok s' ∧ reads_same s s') s) →
  (∀ r p', walked p p' → Q r p') → wp (on_shard i c) Q p.
Proof.
  intros Hok Hc HQ. apply wp_on_shard_reads; [done | done |]. intros r p' F Hok' Hr. apply HQ.
  split; [done | done | |]; intros j k v; rewrite Hr; [done | by exists j].
Qed.

(** ** One key *)

(** A repair of a key writes copies of a body that was there, where none was. *)
Lemma repaired_walked p k (source : bytes → Prop) r p' : (∀ v, source v → found p k v) →
  Forall se_ok (p_shards p) → repair_outcome p k source r p' → walked p p'.
Proof.
  intros Hfrom Hok Hout. destruct r as [[n fails] | e]; simpl in Hout; [| apply still_walked, Hout].
  destruct Hout as (desired & W & _ & _ & [[T HW] Hsrc Hmiss _ _ _]).
  assert (∀ i k', read_at p' i k' = read_at p i k' ∨
    k' = k ∧ reads p i k = false ∧ ∃ v j, read_at p' i k' = Ok v ∧ read_at p j k = Ok v) as Hread.
  { intros i k'. rewrite (wrote_read _ _ _ _ _ _ _ _ HW). destruct (W !! i) as [r |] eqn:HWi; [| by left].
    case_decide as Hk; [| by left]. right. split; [done |]. destruct (Hmiss i r HWi) as (_ & _ & Hf). split; [done |].
    destruct Hsrc as [-> | (v & [j Hv]%Hfrom & Hd)]; [by rewrite lookup_empty in HWi |]. exists v, j. split; [by eapply Hd | done]. }
  split.
  - split; [apply HW | apply HW | apply HW | intros _; apply HW | apply HW].
  - intros _. eapply wrote_ok; [exact HW |]. eapply Forall_impl; [exact Hok | apply sturdy_ready].
  - intros i k' v Hv. destruct (Hread i k') as [-> | (-> & Hf & _)]; [done |].
    apply reads_false with (v := v) in Hf. done.
  - intros i k' v Hv. destruct (Hread i k') as [Heq | (-> & _ & v' & j & Hv' & Hj)]; [exists i; congruence | exists j; congruence].
Qed.

Lemma wp_repair_key k p : pool_wf p → Forall se_ok (p_shards p) → pc_ec (p_cfg p) = None →
  wp (repair_key k) (repair_outcome p k (found p k)) p.
Proof.
  intros Hwf Hok Hec. unfold repair_key. do 2 wp_step. rewrite Hec.
  eapply wp_mono.
  { apply wp_repair_mirror; [done | | by intros; apply sturdy_fits | done]. eapply Forall_impl; [exact Hok | apply sturdy_ready]. }
  intros r p'. apply repair_outcome_from. by intros v [? _].
Qed.

(** ** The cursor and the flush *)

Lemma wp_keep_cursor name pos p (Q : DomainResult unit → pool E → Prop) :
  Forall se_ok (p_shards p) → (∀ p', walked p p' → Q (Ok tt) p') → wp (keep_cursor name pos) Q p.
Proof.
  intros Hok HQ. unfold keep_cursor. wp_step. apply wp_on_shard_same; [done | |].
  - intros s Hs. eapply wp_mono; [by apply se_save_cursor_spec |]. intros r s' (? & ? & _). by split.
  - intros r p' W. apply wp_ret. by apply HQ.
Qed.

Lemma wp_flush_all p : Forall se_ok (p_shards p) → wp flush_all (λ _ p', walked p p') p.
Proof.
  intros Hok. unfold flush_all. wp_step. apply wp_get.
  apply (wp_iter (λ p', walked p p')); [done |]. intros i p1 _ W1. apply wp_on_shard_same; [by apply W1 | |].
  - intros s Hs. eapply wp_mono; [by apply se_flush_spec |]. intros r s' (? & ? & _). by split.
  - intros r p2 W2. by etransitivity.
Qed.

End Walked.

Section ResilverFacts.
Context {E : Type} `{SE : !ShardEngine E, SES : !ShardEngineSpec E, WES : !WalkEngineSpec E, SD : !SturdyDisk E}
  `{PP : !PlacementPolicy} `{PPS : !PlacementSpec} `{RS : !ReedSolomon}.
Implicit Types (p : pool E).
Local Abbreviation PM := (M (pool E) DomainError).

(** The topology that the pool goes by, and keeps. *)
Context (t : list (ShardId * Capacity * ShardStatus)).

(** Every replica of the key reads it. *)
Definition fully_copied p k : Prop :=
  ∀ i, i ∈ pp_select k t (replicas (p_cfg p)) → ∃ v, read_at p i k = Ok v.

Lemma fully_copied_kept k p1 p2 : walked p1 p2 → fully_copied p1 k → fully_copied p2 k.
Proof.
  intros W Hall i Hi. rewrite (fr_cfg _ _ (wk_frame _ _ W)) in Hi. destruct (Hall i Hi) as [v Hv]. exists v.
  by apply (wk_kept _ _ W).
Qed.

(** The repair of one key that some shard reads. *)
Lemma wp_resilver_key acc k p :
  pool_wf p → Forall se_ok (p_shards p) → pc_ec (p_cfg p) = None → steady t p → readable_key p k →
  wp (resilver_key acc k) (λ r p', ∃ n fails, r = Ok (acc.1 + n, acc.2 + fails)%nat ∧ walked p p' ∧
    (fails = 0%nat → fully_copied p' k)) p.
Proof.
  intros Hwf Hok Hec Ht (i0 & v0 & Hv0). unfold resilver_key. wp_step.
  eapply wp_mono; [by apply wp_repair_key |]. intros r p' Hout. pose proof (repaired_walked _ _ _ _ _ (λ _ H, H) Hok Hout) as W.
  wp_step. destruct r as [[n fails] | e]; simpl in Hout; [| by destruct Hout as (_ & _ & Hn); destruct (Hn i0 v0)].
  exists n, fails. split; [done |]. split; [done |]. intros Hz.
  destruct Hout as (desired & W' & _ & Hst & Hrep). subst fails. intros i Hi. apply reads_true.
  eapply repaired_all; [exact Hok | exact Hrep |]. by rewrite (Hst t Ht), <-(fr_cfg _ _ (wk_frame _ _ W)).
Qed.

Lemma wp_resilver_keys keys acc p :
  pool_wf p → Forall se_ok (p_shards p) → pc_ec (p_cfg p) = None → steady t p → Forall (readable_key p) keys →
  wp (mfold resilver_key acc keys) (λ r p', ∃ n fails, r = Ok (acc.1 + n, acc.2 + fails)%nat ∧ walked p p' ∧
    (fails = 0%nat → Forall (fully_copied p') keys)) p.
Proof.
  revert acc p. induction keys as [| k keys IH]; intros acc p Hwf Hok Hec Ht Hk; simpl.
  { apply wp_ret. exists 0%nat, 0%nat. rewrite !Nat.add_0_r. destruct acc. by split. }
  apply Forall_cons in Hk as [Hk Hks]. wp_step. eapply wp_mono; [by apply wp_resilver_key |].
  intros r p1 (n1 & f1 & -> & W1 & M1). pose proof (wk_frame _ _ W1) as F1.
  eapply wp_mono.
  { apply IH; [by apply F1 | by apply W1 | by rewrite (fr_cfg _ _ F1) | by apply F1 |].
    eapply Forall_impl; [exact Hks |]. intros k'. by apply walked_readable. }
  intros r p2 (n2 & f2 & -> & W2 & M2). exists (n1 + n2)%nat, (f1 + f2)%nat. simpl. rewrite !Nat.add_assoc.
  split; [done |]. split; [by etransitivity |]. intros Hz. constructor.
  - eapply fully_copied_kept; [exact W2 |]. apply M1. lia.
  - apply M2. lia.
Qed.

(** ** One page *)

(** What the pool lists is what some shard reads. *)
Lemma shown_readable p k : Forall se_ok (p_shards p) → readable_key p k ↔ ∃ sz, pool_shown p k sz.
Proof.
  intros Hok. rewrite Forall_lookup in Hok. split.
  - intros (i & v & Hv). revert v Hv. induction (lt_wf i) as [i _ IH]. intros v Hv.
    destruct (decide (Exists (λ j, reads p j k = true) (seq 0 i))) as [Hex | Hnex].
    { apply Exists_exists in Hex as (j & Hj%elem_of_seq & [v' Hv']%reads_true). apply (IH j ltac:(lia) v' Hv'). }
    unfold read_at in Hv. destruct (p_shards p !! i) as [s |] eqn:Hs; [| done].
    destruct (proj2 (se_shown_spec s k (Hok i s Hs))) as [sz Hsz]; [eauto |].
    exists sz, i, s. split_and!; [done | done |]. intros j s' sz' Hj Hs' Hsh. apply Hnex, Exists_exists.
    exists j. split; [apply elem_of_seq; lia |]. apply reads_true. unfold read_at. rewrite Hs'.
    apply (se_shown_spec s' k (Hok j s' Hs')). eauto.
  - intros (sz & i & s & Hs & Hsh & _). destruct (proj1 (se_shown_spec s k (Hok i s Hs))) as [v Hv]; [eauto |].
    exists i, v. unfold read_at. by rewrite Hs.
Qed.

Lemma wp_resilver_step after batch p :
  pool_wf p → Forall se_ok (p_shards p) → pc_ec (p_cfg p) = None → steady t p →
  wp (resilver_step after batch) (λ r p', ∃ page n fails, list_page (pool_shown p) [] after batch page ∧ walked p p' ∧
    r = Ok {| rr_scanned := length page; rr_repaired := n; rr_errors := fails; rr_last_key := last page.*1;
              rr_done := (length page <? batch)%nat |} ∧
    (fails = 0%nat → Forall (fully_copied p') page.*1)) p.
Proof.
  intros Hwf Hok Hec Ht. unfold resilver_step. do 2 wp_step.
  destruct (pool_list_is_a_page p [] after batch Hok) as (page & Hl & Hpage).
  { destruct after; [apply prefix_bytes_le, prefix_nil | done]. }
  rewrite Hl. do 2 wp_step. change (map fst page) with (page.*1). wp_step.
  eapply wp_mono.
  { apply wp_resilver_keys; [done | done | done | done |]. apply Forall_forall. intros k ([k' sz] & -> & Hin)%list_elem_of_fmap.
    apply shown_readable; [done |]. exists sz. by apply (lp_sound _ _ _ _ _ Hpage). }
  intros r p1 (n & fails & -> & W1 & M1). wp_step. eapply wp_calm; [apply calm_count |]. intros [] p2 _ S2.
  wp_step. eapply wp_calm; [apply calm_count |]. intros [] p3 _ S3. apply wp_ret. simpl.
  assert (walked p1 p3) as W13 by (by apply still_walked; etransitivity).
  exists page, n, fails. rewrite length_fmap. split_and!; [done | by etransitivity | done |].
  intros Hz. eapply Forall_impl; [by apply M1 |]. intros k. by apply fully_copied_kept.
Qed.

(** ** The walk *)

(** A walk of [p0] that starts at the cursor [c]. *)
Section Walk.
Context (p0 : pool E) (c : option BlockKey) (all : list BlockKey).
Context (Hwf : pool_wf p0) (Hok : Forall se_ok (p_shards p0)) (Hec : pc_ec (p_cfg p0) = None) (Ht : steady t p0).

Definition to_repair (k : BlockKey) : Prop :=
  readable_key p0 k ∧ match c with Some a => bytes_lt a k | None => True end.
Context (finite : ∀ k, to_repair k → k ∈ all).

Definition behind (after : option BlockKey) : Prop :=
  match c with Some a => match after with Some b => bytes_le a b | None => False end | None => True end.

Lemma to_repair_page p after batch page :
  walked p0 p → behind after → list_page (pool_shown p) [] after batch page →
  list_page (λ k sz, pool_shown p k sz ∧ to_repair k) [] after batch page ∧
  ∀ k, to_repair k ↔ ∃ sz, pool_shown p k sz ∧ to_repair k.
Proof.
  intros W Hb Hpage. assert (∀ k, readable_key p0 k ↔ ∃ sz, pool_shown p k sz) as Hsh.
  { intros k. rewrite <-(walked_readable p0 p) by done. apply shown_readable. by apply W. }
  split.
  - eapply list_page_after; [| exact Hpage]. intros k sz Hk. split; [| by intros []]. intros Hs. split; [done |].
    split; [apply Hsh; eauto |]. unfold behind in Hb. destruct c as [a |]; [| done]. destruct after as [b |]; [| done].
    by eapply bytes_le_lt_trans.
  - intros k. split; [| by intros (sz & _ & ?)]. intros Hk. destruct (proj1 (Hsh k) (proj1 Hk)) as [sz Hsz]. by exists sz.
Qed.

Lemma wp_resilver_loop fuel batch after total keys p :
  (0 < batch)%nat → walked p0 p → behind after → seen [] to_repair after keys →
  rr_scanned total = length keys → (rr_errors total = 0%nat → Forall (fully_copied p) keys) →
  (length all < fuel + length keys)%nat →
  wp (resilver_loop fuel batch after total) (λ r p', walked p0 p' ∧ ∃ rep keys', r = Ok (Some rep) ∧
    complete [] to_repair keys' ∧ rr_scanned rep = length keys' ∧ rr_done rep = true ∧
    (rr_errors rep = 0%nat → Forall (fully_copied p') keys')) p.
Proof.
  intros Hbatch. revert after total keys p. induction fuel as [| fuel IH]; intros after total keys p W Hb Hseen Hn Hm Hf.
  { pose proof (seen_bounded _ _ all after keys (λ k Hk, finite k (proj2 Hk)) Hseen). lia. }
  cbn [resilver_loop]. wp_step. pose proof (wk_frame _ _ W) as F.
  eapply wp_mono; [apply wp_resilver_step; [by apply F | by apply W | by rewrite (fr_cfg _ _ F) | by apply F] |].
  intros r p1 (page & n & fails & Hpage & W1 & -> & M1). cbn [rr_done rr_last_key rr_errors rr_scanned].
  destruct (to_repair_page p after batch page W Hb Hpage) as [Hpage' Hh].
  destruct (seen_page _ _ _ after keys batch page Hh Hseen Hpage') as (Hdue & _ & Hend & Hnext).
  assert (walked p0 p1) as W01 by (by etransitivity).
  assert (rr_errors total + fails = 0 → Forall (fully_copied p1) (keys ++ page.*1))%nat as Hm1.
  { intros Hz. apply Forall_app. split.
    - eapply Forall_impl; [apply Hm; lia |]. intros k. by apply fully_copied_kept.
    - apply M1. lia. }
  assert (rr_scanned total + length page = length (keys ++ page.*1))%nat as Hn1 by (rewrite length_app, length_fmap; lia).
  assert ((length page < batch)%nat ∨ ∃ a, last page.*1 = Some a ∧ (length page <? batch)%nat = false ∧ 0 < length page)%nat
    as [Hlt | (a & Hlast & Hfull & Hlen)].
  { destruct (Nat.ltb_spec (length page) batch); [by left | right]. destruct (last page.*1) as [a |] eqn:Hl; [eauto with lia |].
    apply last_None, (f_equal length) in Hl. rewrite length_fmap in Hl. simpl in Hl. lia. }
  - rewrite (proj2 (Nat.ltb_lt _ _) Hlt). cbn [orb]. wp_step. apply wp_keep_cursor; [by apply W01 |]. intros p2 W2.
    apply wp_ret. split; [by etransitivity |]. eexists _, (keys ++ page.*1). split; [done |].
    split_and!; [by apply Hend | done | done |]. intros Hz. eapply Forall_impl; [by apply Hm1 |]. intros k. by apply fully_copied_kept.
  - rewrite Hfull, Hlast, bool_decide_eq_false_2 by done. cbn [orb]. wp_step. apply wp_keep_cursor; [by apply W01 |].
    intros p2 W2. assert (to_repair a) as [_ Hca].
    { rewrite Forall_forall in Hdue. apply Hdue. by apply last_Some_elem_of. }
    eapply IH; [by etransitivity | | by apply Hnext | done | |].
    + unfold behind. destruct c; [by apply bytes_lt_le | done].
    + intros Hz. eapply Forall_impl; [by apply Hm1 |]. intros k. by apply fully_copied_kept.
    + rewrite length_app, length_fmap. lia.
Qed.
End Walk.

(** C9. A resilver of a mirrored pool whose topology does not expire ends, and
    repairs every key behind the cursor it resumes from: its report counts each
    of these keys once, and when it reports no errors every one of them has a
    copy on each of its replicas: R distinct shards, or all the eligible ones
    if they are fewer. Every copy that was there still is, and no other body
    has appeared. *)
Theorem resilver_restores_every_copy c all fuel batch p r p' :
  pool_wf p → Forall se_ok (p_shards p) → pc_ec (p_cfg p) = None → steady t p → (0 < batch)%nat →
  (∀ s, p_shards p !! 0%nat = Some s → se_load_cursor s "resilver" = Ok c) →
  (∀ k, readable_key p k → k ∈ all) → (length all < fuel)%nat →
  resilver_full fuel batch p = (r, p') →
  walked p p' ∧
  ∀ o, r = Ok o → ∃ rep keys, o = Some rep ∧ rr_done rep = true ∧ rr_scanned rep = length keys ∧ NoDup keys ∧
    (∀ k, k ∈ keys ↔ readable_key p k ∧ match c with Some a => bytes_lt a k | None => True end) ∧
    (rr_errors rep = 0%nat → ∀ k, k ∈ keys → ∃ copies, copies = pp_select k t (replicas (p_cfg p)) ∧ NoDup copies ∧
       length copies = Nat.min (replicas (p_cfg p)) (length (filter pp_eligible t)) ∧
       ∀ i, i ∈ copies → ∃ v, read_at p' i k = Ok v).
Proof.
  intros Hwf Hok Hec Ht Hbatch Hcur Hfin Hfuel. revert r p'.
  enough (wp (resilver_full fuel batch) (λ r p', walked p p' ∧ ∀ o, r = Ok o → ∃ rep keys, o = Some rep ∧
    complete [] (to_repair p c) keys ∧ rr_scanned rep = length keys ∧ rr_done rep = true ∧
    (rr_errors rep = 0%nat → Forall (fully_copied p') keys)) p) as Hw.
  { intros r p' Hrun. destruct (wp_run _ _ _ _ _ Hw Hrun) as [W Hr]. split; [done |]. intros o Ho.
    destruct (Hr o Ho) as (rep & keys & -> & [Hs Hd] & Hn & Hdn & Hm). exists rep, keys. split_and!; try done.
    - by apply sorted_keys_NoDup.
    - intros k. rewrite (Hd k). unfold due. split; [by intros [_ ?] |]. split; [apply prefix_nil | done].
    - intros Hz k Hk. specialize (Hm Hz). rewrite Forall_forall in Hm. specialize (Hm k Hk).
      unfold fully_copied in Hm. rewrite (fr_cfg _ _ (wk_frame _ _ W)) in Hm. eexists. split; [done |].
      split_and!; [| apply pp_count | exact Hm].
      destruct Ht as (tc & Htc & <- & _). apply pp_nodup. rewrite (Hwf tc Htc). apply NoDup_seq. }
  unfold resilver_full. wp_step. unfold wp at 1, look_shard. destruct (p_shards p !! 0%nat) as [s |] eqn:Hs.
  2: { simpl. split; [done |]. by intros o [=]. }
  rewrite (Hcur s eq_refl). cbn [fst snd]. wp_step. eapply wp_mono.
  { eapply (wp_resilver_loop p c all Hwf Hok Hec Ht (λ k Hk, Hfin k (proj1 Hk)) fuel batch c ResilverReport_default []);
      [done | done | | | done | done | simpl; lia].
    - unfold behind. by destruct c.
    - split; [apply SSorted_nil | apply Forall_nil_2 | |].
      + intros k [_ [_ Hk]]. right. by destruct c.
      + destruct c; [| done]. split; [apply prefix_nil |]. intros k Hk. by apply not_elem_of_nil in Hk. }
  intros r1 p1 [W1 (rep & keys & -> & Hc & Hn & Hdn & Hm)]. wp_step.
  eapply wp_mono; [apply wp_flush_all; by apply W1 |]. intros r2 p2 W2. destruct r2 as [[] | e].
  - apply wp_ret. split; [by etransitivity |]. intros o [= <-]. exists rep, keys. split_and!; try done.
    intros Hz. eapply Forall_impl; [by apply Hm |]. intros k. by apply fully_copied_kept.
  - split; [by etransitivity |]. by intros o [=].
Qed.
End ResilverFacts.
