(* ===== verification/Drain.v ===== *)
(** * The heal workers (crates/ozd-app/src/pool.rs, mrf_drain)

    A batch of heal requests is worked off by several threads. Each thread is
    a little state machine whose steps are the atomic accesses of the code:
    the shared cursor, the slot counters of the shards, the repair of a key
    (taken as one step), the counters and the list of deferred requests. The
    scheduler picks which thread moves. [drain_run] is the run of the threads
    with the log of their repairs.

    Second part: Facts about the heal workers. *)

From Stdlib Require Import ZArith Lia.
From stdpp Require Import base list gmap strings relations.
From S2P Require Import Prelude Domain Piece Latency DiskSlow Erasure Verified Metrics Throttle HealQueue PoolState Pool PoolFacts Repair RepairFacts PoolKeep.

(** A heal request. *)
Abbreviation ticket := (BlockKey * HealPriority)%type.

(** Where a thread is; [got] are the shards whose slots it has taken. *)
Inductive worker :=
| Idle
| Claiming (it : ticket) (todo got : list ShardId)
| Overshot (it : ticket) (t : ShardId) (got : list ShardId)
| Backing (it : ticket) (got : list ShardId)
| Repairing (it : ticket) (got : list ShardId)
| Releasing (it : ticket) (ok : bool) (got : list ShardId)
| Stopped.

(** What the threads share, and where they are. *)
Record drain := {
  dr_batch : list ticket;
  dr_next : nat;
  dr_inflight : list nat;
  dr_healed : nat;
  dr_deferred : list ticket;
  dr_workers : list worker;
}.

Definition dr_move (w : nat) (s : worker) (d : drain) : drain :=
  {| dr_batch := dr_batch d; dr_next := dr_next d; dr_inflight := dr_inflight d; dr_healed := dr_healed d;
     dr_deferred := dr_deferred d; dr_workers := <[w := s]> (dr_workers d) |}.
Definition dr_slot (f : nat → nat) (t : ShardId) (d : drain) : drain :=
  {| dr_batch := dr_batch d; dr_next := dr_next d; dr_inflight := alter f t (dr_inflight d);
     dr_healed := dr_healed d; dr_deferred := dr_deferred d; dr_workers := dr_workers d |}.
Definition dr_advance (d : drain) : drain :=
  {| dr_batch := dr_batch d; dr_next := S (dr_next d); dr_inflight := dr_inflight d; dr_healed := dr_healed d;
     dr_deferred := dr_deferred d; dr_workers := dr_workers d |}.
Definition dr_defer (it : ticket) (d : drain) : drain :=
  {| dr_batch := dr_batch d; dr_next := dr_next d; dr_inflight := dr_inflight d; dr_healed := dr_healed d;
     dr_deferred := dr_deferred d ++ [it]; dr_workers := dr_workers d |}.
Definition dr_heal (d : drain) : drain :=
  {| dr_batch := dr_batch d; dr_next := dr_next d; dr_inflight := dr_inflight d;
     dr_healed := S (dr_healed d); dr_deferred := dr_deferred d; dr_workers := dr_workers d |}.

Definition stopped (s : worker) : bool := match s with Stopped => true | _ => false end.

Section Drain.
Context {E : Type} `{SE : !ShardEngine E} `{PP : !PlacementPolicy} `{RS : !ReedSolomon}.
Local Open Scope rust_scope.
Implicit Types (p : pool E).
Local Abbreviation PM := (M (pool E) DomainError).

(** One step of thread [w]. *)
Definition worker_step (cap : nat) (w : nat) (d : drain) : PM drain :=
  match dr_workers d !! w with
  | Some Idle =>
      match dr_batch d !! dr_next d with
      | None => mret (dr_move w Stopped (dr_advance d))
      | Some it =>
          let! targets := replicas_for it.1 in
          mret (dr_move w (Claiming it targets []) (dr_advance d))
      end
  | Some (Claiming it (t :: todo) got) =>
      let old := default 0%nat (dr_inflight d !! t) in
      mret (dr_move w (if (cap <=? old)%nat then Overshot it t got else Claiming it todo (got ++ [t]))
              (dr_slot S t d))
  | Some (Claiming it [] got) => mret (dr_move w (Repairing it got) d)
  | Some (Overshot it t got) => mret (dr_move w (Backing it got) (dr_slot pred t d))
  | Some (Backing it (t :: got)) => mret (dr_move w (Backing it got) (dr_slot pred t d))
  | Some (Backing it []) => mret (dr_move w Idle (dr_defer it d))
  | Some (Repairing it got) =>
      match! repair_key it.1 with! r =>
      mret (dr_move w (Releasing it (match r with Ok (_, 0%nat) => true | _ => false end) got) d)
  | Some (Releasing it ok (t :: got)) => mret (dr_move w (Releasing it ok got) (dr_slot pred t d))
  | Some (Releasing it true []) =>
      do! count (mt_add mrf_healed 1);
      mret (dr_move w Idle (dr_heal d))
  | Some (Releasing it false []) => mret (dr_move w Idle (dr_defer it d))
  | Some Stopped | None => mret d
  end.

(** The threads that have not stopped. *)
Definition live (d : drain) : list nat :=
  filter (λ w, stopped (default Stopped (dr_workers d !! w)) = false) (seq 0 (length (dr_workers d))).

(** [thread::scope]: until all threads have stopped. *)
Fixpoint run_workers (fuel : nat) (cap : nat) (d : drain) : PM (option drain) :=
  match fuel with
  | O => mret None
  | S fuel =>
      match live d with
      | [] => mret (Some d)
      | ws =>
          let! i := choose (length ws) in
          let! d := worker_step cap (nth i ws 0%nat) d in
          run_workers fuel cap d
      end
  end.

(** The batch: up to [max] requests, the most urgent first. *)
Fixpoint take_batch (max : nat) : PM (list ticket) :=
  match max with
  | O => mret []
  | S max =>
      let! p := mget in
      let '(r, q) := hq_pop (p_mrf p) in
      do! mmodify (set_mrf q);
      match r with
      | Some it => let! rest := take_batch max in mret (it :: rest)
      | None => mret []
      end
  end.

Definition drain_start (n workers : nat) (batch : list ticket) : drain :=
  {| dr_batch := batch; dr_next := 0; dr_inflight := replicate n 0%nat; dr_healed := 0; dr_deferred := [];
     dr_workers := replicate workers Idle |}.

(** Enough steps for every thread to stop. *)
Definition drain_fuel (replicas : nat) (d : drain) : nat :=
  S (length (dr_batch d) * (2 * replicas + 4) + length (dr_workers d)).

Definition mrf_drain (max : nat) : PM (nat * nat) :=
  let! batch := take_batch max in
  if bool_decide (batch = []) then mret (0, 0)%nat
  else
    let! p := mget in
    let cap := Nat.max (heal_max_per_shard (p_cfg p)) 1 in
    let workers := Nat.min (Nat.max (heal_parallelism (p_cfg p)) 1) (length batch) in
    let d := drain_start (length (p_shards p)) workers batch in
    let! d := run_workers (drain_fuel (replicas (p_cfg p)) d) cap d in
    match d with
    | None => mthrow (Io "drain: out of fuel")
    | Some d =>
        do! miter (λ it, mrf_push it.1 it.2) (dr_deferred d);
        mret (dr_healed d, length (dr_deferred d))
    end.
End Drain.

(** * Facts about the heal workers

    The atomic steps of the threads as a relation, its invariants, and a
    measure that every step decreases. *)

(** ** What a thread holds *)

Definition occ (t : nat) (l : list nat) : nat := length (filter (λ x, x = t) l).

Lemma occ_cons t x l : occ t (x :: l) = ((if decide (x = t) then 1 else 0) + occ t l)%nat.
Proof. unfold occ. rewrite filter_cons. by destruct (decide (x = t)). Qed.
Lemma occ_snoc t x l : occ t (l ++ [x]) = ((if decide (x = t) then 1 else 0) + occ t l)%nat.
Proof.
  unfold occ. rewrite filter_app, length_app, filter_cons, filter_nil. destruct (decide (x = t)); simpl; lia.
Qed.

Lemma occ_elem_of t l : (0 < occ t l)%nat → t ∈ l.
Proof.
  unfold occ. intros Hl. destruct (filter (λ x, x = t) l) as [| x r] eqn:Hf; [simpl in Hl; lia |].
  assert (x ∈ filter (λ x, x = t) l) as Hx by (rewrite Hf; left). apply list_elem_of_filter in Hx as [-> ?]. done.
Qed.

(** The shards whose slots the thread has. *)
Definition held (s : worker) : list ShardId :=
  match s with
  | Claiming _ _ got | Overshot _ _ got | Backing _ got | Repairing _ got | Releasing _ _ got => got
  | Idle | Stopped => []
  end.
(** The shards whose counter it has raised. *)
Definition raised (s : worker) : list ShardId :=
  match s with Overshot _ t got => t :: got | _ => held s end.
Definition todo_of (s : worker) : list ShardId := match s with Claiming _ todo _ => todo | _ => [] end.
(** The request it works on. *)
Definition ticket_of (s : worker) : list ticket :=
  match s with
  | Claiming it _ _ | Overshot it _ _ | Backing it _ | Repairing it _ | Releasing it _ _ => [it]
  | Idle | Stopped => []
  end.

Lemma occ_held_raised t s : (occ t (held s) ≤ occ t (raised s))%nat.
Proof. destruct s; simpl; rewrite ?occ_cons; lia. Qed.

Lemma sum_held_raised t ws :
  (sum_list_with (λ s, occ t (held s)) ws ≤ sum_list_with (λ s, occ t (raised s)) ws)%nat.
Proof. induction ws as [| s ws IH]; simpl; [lia |]. pose proof (occ_held_raised t s). lia. Qed.

(** ** Steps *)

Section Steps.
Context (n most cap : nat) (mended : ticket → Prop) (aimed : ticket → list ShardId → Prop).
Implicit Types (d : drain) (s : worker).

(** What thread [w] may do: its state, the next one, and what happens to the
    shared data. *)
Inductive move d : worker → worker → drain → Prop :=
| mv_stop : dr_batch d !! dr_next d = None → move d Idle Stopped (dr_advance d)
| mv_take it targets :
    dr_batch d !! dr_next d = Some it → (length targets ≤ most)%nat → Forall (λ t, t < n)%nat targets → aimed it targets →
    move d Idle (Claiming it targets []) (dr_advance d)
| mv_claim it t todo got :
    (default 0 (dr_inflight d !! t) < cap)%nat →
    move d (Claiming it (t :: todo) got) (Claiming it todo (got ++ [t])) (dr_slot S t d)
| mv_full it t todo got :
    (cap ≤ default 0 (dr_inflight d !! t))%nat →
    move d (Claiming it (t :: todo) got) (Overshot it t got) (dr_slot S t d)
| mv_repair it got : move d (Claiming it [] got) (Repairing it got) d
| mv_undo it t got : move d (Overshot it t got) (Backing it got) (dr_slot pred t d)
| mv_back it t got : move d (Backing it (t :: got)) (Backing it got) (dr_slot pred t d)
| mv_busy it : move d (Backing it []) Idle (dr_defer it d)
| mv_mended it got : mended it → move d (Repairing it got) (Releasing it true got) d
| mv_failed it got : move d (Repairing it got) (Releasing it false got) d
| mv_release it ok t got : move d (Releasing it ok (t :: got)) (Releasing it ok got) (dr_slot pred t d)
| mv_healed it : move d (Releasing it true []) Idle (dr_heal d)
| mv_defer it : move d (Releasing it false []) Idle (dr_defer it d).

Definition dstep d d' : Prop :=
  ∃ w s s' e, dr_workers d !! w = Some s ∧ move d s s' e ∧ d' = dr_move w s' e.

Lemma move_frame d s s' e : move d s s' e →
  dr_batch e = dr_batch d ∧ dr_workers e = dr_workers d ∧ length (dr_inflight e) = length (dr_inflight d).
Proof. destruct 1; simpl; by rewrite ?length_alter. Qed.

Lemma step_frame d d' : dstep d d' →
  dr_batch d' = dr_batch d ∧ length (dr_workers d') = length (dr_workers d).
Proof.
  intros (w & s & s' & e & _ & Hm & ->). destruct (move_frame _ _ _ _ Hm) as (Hb & Hws & _).
  simpl. by rewrite length_insert, Hb, Hws.
Qed.

(** *** The measure *)

Definition weight s : nat :=
  match s with
  | Stopped => 0
  | Idle => 1
  | Claiming _ todo got => 2 * length todo + length got + 4
  | Overshot _ _ got | Repairing _ got => length got + 3
  | Backing _ got | Releasing _ _ got => length got + 2
  end.

Definition measure d : nat :=
  (length (dr_batch d) - dr_next d) * (2 * most + 4) + sum_list_with weight (dr_workers d).

Lemma step_decreases d d' : dstep d d' → (measure d' < measure d)%nat.
Proof.
  intros (w & s & s' & e & Hw & Hm & ->). destruct (move_frame _ _ _ _ Hm) as (Hb & Hws & _).
  unfold measure. simpl. rewrite Hb, Hws. pose proof (sum_insert weight _ _ _ s' Hw) as Hs.
  destruct Hm; simpl in *; rewrite ?length_app in *; simpl in *; try lia.
  - apply lookup_ge_None in H. lia.
  - apply lookup_lt_Some in H. replace (length (dr_batch d) - dr_next d)%nat
      with (S (length (dr_batch d) - S (dr_next d)))%nat by lia. nia.
Qed.

(** *** The invariant *)

(** What a thread that has its slots is about to repair is what it claimed. *)
Definition well_aimed s : Prop :=
  match s with
  | Claiming it todo got => aimed it (got ++ todo)
  | Repairing it got => aimed it got
  | _ => True
  end.

Lemma move_aimed d s s' e : move d s s' e → well_aimed s → well_aimed s'.
Proof. destruct 1; simpl; rewrite ?app_nil_r; [done | done | | done ..]. by rewrite <-app_assoc. Qed.

(** The counters count the threads that raised them; no shard is held more
    than [cap] times; requests are neither lost nor doubled. *)
Record dinv (hs : list ticket) d : Prop := {
  di_len : length (dr_inflight d) = n;
  di_range : Forall (λ s, Forall (λ t, t < n)%nat (todo_of s) ∧ Forall (λ t, t < n)%nat (raised s)) (dr_workers d);
  di_slots : ∀ t, (t < n)%nat → dr_inflight d !! t = Some (sum_list_with (λ s, occ t (raised s)) (dr_workers d));
  di_cap : ∀ t, (sum_list_with (λ s, occ t (held s)) (dr_workers d) ≤ cap)%nat;
  di_healed : length hs = dr_healed d;
  di_mended : Forall mended hs;
  di_stop : Stopped ∈ dr_workers d → (length (dr_batch d) ≤ dr_next d)%nat;
  di_aimed : Forall well_aimed (dr_workers d);
  di_sure : Forall (λ s, ∀ it got, s = Releasing it true got → mended it) (dr_workers d);
  di_tickets : hs ++ dr_deferred d ++ (dr_workers d ≫= ticket_of) ≡ₚ take (dr_next d) (dr_batch d);
}.

(** What a move does to the counter of one shard, against what the thread
    raised. *)
Lemma move_slots d s s' e t : move d s s' e → (t < n)%nat → Forall (λ t, t < n)%nat (raised s) → ∀ c,
  dr_inflight d !! t = Some c → (occ t (raised s) ≤ c)%nat →
  ∃ c', dr_inflight e !! t = Some c' ∧ (c' + occ t (raised s) = c + occ t (raised s'))%nat.
Proof.
  intros Hm Ht _ c Hc Hle. destruct Hm; simpl in *; try (eexists; split; [done | lia]).
  all: destruct (decide (t0 = t)) as [-> | Hne];
    [ rewrite list_lookup_alter_eq, Hc | rewrite list_lookup_alter_ne, Hc by done ]; simpl; eexists; (split; [done |]);
    rewrite ?occ_snoc, ?occ_cons in *; case_decide; try done; lia.
Qed.

Lemma move_raised d s s' e :
  move d s s' e → Forall (λ t, t < n)%nat (todo_of s) ∧ Forall (λ t, t < n)%nat (raised s) →
  Forall (λ t, t < n)%nat (todo_of s') ∧ Forall (λ t, t < n)%nat (raised s').
Proof.
  destruct 1; simpl; rewrite ?Forall_app, ?Forall_cons, ?Forall_nil; intuition.
Qed.

(** A thread takes a slot only below the cap. *)
Lemma move_held d s s' e t :
  move d s s' e →
  (occ t (held s') ≤ occ t (held s))%nat ∨
  (occ t (held s') = S (occ t (held s)) ∧ (default 0 (dr_inflight d !! t) < cap)%nat).
Proof.
  destruct 1; simpl; rewrite ?occ_snoc, ?occ_cons; try (left; lia); try (case_decide; left; lia).
  case_decide; [subst; by right | left; lia].
Qed.

Lemma move_tickets hs d s s' e rest :
  move d s s' e → Forall mended hs → (∀ it got, s = Releasing it true got → mended it) → length hs = dr_healed d →
  hs ++ dr_deferred d ++ rest ++ ticket_of s ≡ₚ take (dr_next d) (dr_batch d) →
  ∃ hs', Forall mended hs' ∧ length hs' = dr_healed e ∧
    hs' ++ dr_deferred e ++ rest ++ ticket_of s' ≡ₚ take (dr_next e) (dr_batch d).
Proof.
  intros Hm Hh Hs Hl Hp. destruct Hm as [Hb | it targets Hb ? ? ? | | | | | | it | | | | it | it]; simpl in *;
    try (exists hs; split_and!; done).
  - exists hs. split_and!; [done | done |]. rewrite Hp. rewrite (take_ge _ (S _)), take_ge; [done | |];
      apply lookup_ge_None in Hb; lia.
  - exists hs. split_and!; [done | done |]. rewrite (take_S_r _ _ it) by done.
    etransitivity; [| by apply Permutation_app_tail, Hp]. rewrite app_nil_r, <-!app_assoc. done.
  - exists hs. split_and!; [done | done |]. rewrite <-Hp, app_nil_r, <-!app_assoc.
    do 2 apply Permutation_app_head. apply Permutation_app_comm.
  - exists (hs ++ [it]). split_and!; [| by rewrite length_app, Hl, Nat.add_comm |].
    + apply Forall_app. split; [done |]. constructor; [by apply (Hs it []) | done].
    + rewrite <-Hp, app_nil_r, <-!app_assoc. apply Permutation_app_head.
      by rewrite (Permutation_app_comm [it]), <-app_assoc.
  - exists hs. split_and!; [done | done |]. rewrite <-Hp, app_nil_r, <-!app_assoc.
    do 2 apply Permutation_app_head. apply Permutation_app_comm.
Qed.

Lemma step_inv hs d d' : dinv hs d → dstep d d' → ∃ hs', dinv hs' d'.
Proof.
  intros [Hn Hr Hsl Hc Hh Hm Hstop Haim Hsure Ht] (w & s & s' & e & Hw & Hmv & ->).
  destruct (move_frame _ _ _ _ Hmv) as (Hb & Hws & Hlen).
  pose proof (Forall_lookup_1 _ _ _ _ Hr Hw) as Hrs. pose proof (Forall_lookup_1 _ _ _ _ Hsure Hw) as Hss. simpl in *.
  assert (dr_next d ≤ dr_next e)%nat as Hnext by (destruct Hmv; simpl; lia).
  destruct (bind_insert ticket_of _ _ _ s' Hw) as (rest & Hold & Hnew).
  destruct (move_tickets hs d s s' e rest Hmv Hm Hss Hh) as (hs' & Hm' & Hh' & Ht').
  { etransitivity; [| exact Ht]. do 2 apply Permutation_app_head. by symmetry. }
  assert (∀ t, (t < n)%nat → ∃ c', dr_inflight e !! t = Some c' ∧
    c' = sum_list_with (λ s, occ t (raised s)) (<[w := s']> (dr_workers d))) as Hsl'.
  { intros t Hlt. pose proof (sum_insert (λ s, occ t (raised s)) _ _ _ s' Hw) as Hsum.
    pose proof (sum_above (λ s, occ t (raised s)) _ _ _ Hw) as Hab. simpl in *.
    destruct (move_slots d s s' e t Hmv Hlt (proj2 Hrs) _ (Hsl t Hlt) Hab) as (c' & Hc' & Heq). exists c'. split; [done | lia]. }
  exists hs'. split; simpl; rewrite ?Hb, ?Hws, ?Hlen; try done.
  - apply Forall_insert; [done |]. by eapply move_raised.
  - intros t Hlt. by destruct (Hsl' t Hlt) as (c' & ? & ->).
  - intros t. pose proof (sum_insert (λ s, occ t (held s)) _ _ _ s' Hw) as Hsum. simpl in Hsum.
    destruct (move_held d s s' e t Hmv) as [Hle | [Heq Hlt]]; [specialize (Hc t); lia |].
    destruct (decide (t < n)%nat) as [Htn | Htn].
    + rewrite (Hsl t Htn) in Hlt. simpl in Hlt.
      assert (sum_list_with (λ s, occ t (held s)) (dr_workers d) ≤ sum_list_with (λ s, occ t (raised s)) (dr_workers d))%nat
        by apply sum_held_raised. lia.
    + exfalso. destruct (move_raised _ _ _ _ Hmv Hrs) as [_ Hr']. rewrite Forall_forall in Hr'.
      apply Htn, Hr', occ_elem_of. pose proof (occ_held_raised t s'). lia.
  - intros [Hs | Hs]%elem_of_insert_inv; [| etransitivity; [by apply Hstop | done]].
    subst s'. inversion Hmv; subst. simpl. apply lookup_ge_None in H. lia.
  - apply Forall_insert; [done |]. eapply move_aimed; [exact Hmv |]. exact (Forall_lookup_1 _ _ _ _ Haim Hw).
  - apply Forall_insert; [done |]. intros it got ->. inversion Hmv; subst; [done |]. by eapply Hss.
  - etransitivity; [| exact Ht']. by do 2 apply Permutation_app_head.
Qed.
End Steps.

Lemma dinv_mono n cap (m1 m2 : ticket → Prop) (a1 a2 : ticket → list ShardId → Prop) hs d :
  (∀ it, m1 it → m2 it) → (∀ it ids, a1 it ids → a2 it ids) → dinv n cap m1 a1 hs d → dinv n cap m2 a2 hs d.
Proof.
  intros Hm Ha [? ? ? ? ? Hh ? Haim Hsure ?]. split; try done.
  - by eapply Forall_impl.
  - eapply Forall_impl; [exact Haim |]. intros []; simpl; auto.
  - eapply Forall_impl; [exact Hsure |]. intros s Hs it got ->. by eapply Hm, Hs.
Qed.

(** ** The threads take these steps *)

Section DrainRun.
Context {E : Type} `{SE : !ShardEngine E} `{PP : !PlacementPolicy} `{PPS : !PlacementSpec} `{RS : !ReedSolomon}.
Implicit Types (p : pool E) (d : drain).

(** What a step of thread [w] repairs, and how that ends. *)
Definition repair_of (w : nat) d p : list (ticket * DomainResult (nat * nat)) :=
  match dr_workers d !! w with
  | Some (Repairing it _) => [(it, (repair_key it.1 p).1)]
  | _ => []
  end.

(** A repair in the log after which no copy was missing. *)
Definition mended_in (log : list (ticket * DomainResult (nat * nat))) (it : ticket) : Prop :=
  ∃ n, (it, Ok (n, 0%nat)) ∈ log.

(** The shards of [ids] are where the key's copies belong. *)
Definition aimed_at p (it : ticket) (ids : list ShardId) : Prop :=
  ∀ t, steady t p → ids = pp_select it.1 t (replicas (p_cfg p)).

Lemma aimed_frame p p' it ids : frame p p' → aimed_at p' it ids → aimed_at p it ids.
Proof. intros F Ha t Ht. rewrite <-(fr_cfg _ _ F). by apply Ha, (fr_steady _ _ F). Qed.

(** The steps of thread [w] in the pool [p]. *)
Local Abbreviation steps_in p w cap d :=
  (dstep (length (p_shards p)) (replicas (p_cfg p)) cap (mended_in (repair_of w d p)) (aimed_at p) d).

Lemma wp_worker_step cap w d s p :
  pool_wf p → dr_workers d !! w = Some s → s ≠ Stopped →
  wp (worker_step cap w d) (λ r p', ∃ d', r = Ok d' ∧ frame p p' ∧ steps_in p w cap d d') p.
Proof.
  intros Hwf Hw Hs. unfold worker_step. rewrite Hw.
  assert (∀ s' e, move (length (p_shards p)) (replicas (p_cfg p)) cap (mended_in (repair_of w d p)) (aimed_at p) d s s' e →
    steps_in p w cap d (dr_move w s' e)) as Hmv by (intros; by exists w, s, s', e).
  destruct s as [| it [| t todo] got | it t got | it [| t got] | it got | it [] [| t got] |]; try done.
  - destruct (dr_batch d !! dr_next d) as [it |] eqn:Hb.
    + wp_step. apply wp_replicas_steady; [done |]. intros ids p1 [[_ Hin] Hlen]%placed_targets S1 Hids. apply wp_ret.
      eexists. split; [done |]. split; [by apply still_frame |]. apply Hmv. constructor; [done | done | | exact Hids].
      apply Forall_forall. exact Hin.
    + apply wp_ret. eexists. split; [done |]. split; [done |]. apply Hmv. by constructor.
  - apply wp_ret. eexists. split; [done |]. split; [done |]. apply Hmv. constructor.
  - apply wp_ret. eexists. split; [done |]. split; [done |].
    destruct (Nat.leb_spec cap (default 0 (dr_inflight d !! t)))%nat; apply Hmv; by constructor.
  - apply wp_ret. eexists. split; [done |]. split; [done |]. apply Hmv. constructor.
  - apply wp_ret. eexists. split; [done |]. split; [done |]. apply Hmv. constructor.
  - apply wp_ret. eexists. split; [done |]. split; [done |]. apply Hmv. constructor.
  - wp_step. pose proof (keeps_repair_key it.1 p Hwf) as Hk. unfold wp in *. 
    destruct (repair_key it.1 p) as [r p1] eqn:Hr. simpl in *. eexists. split; [done |]. split; [done |].
    destruct r as [[n [| m]] | e]; apply Hmv; try apply mv_failed. apply mv_mended. exists n. unfold repair_of.
    rewrite Hw, Hr. left.
  - wp_step. eapply wp_calm; [apply calm_count |]. intros [] p1 _ S1. apply wp_ret.
    eexists. split; [done |]. split; [by apply still_frame |]. apply Hmv. constructor.
  - apply wp_ret. eexists. split; [done |]. split; [done |]. apply Hmv. constructor.
  - apply wp_ret. eexists. split; [done |]. split; [done |]. apply Hmv. constructor.
  - apply wp_ret. eexists. split; [done |]. split; [done |]. apply Hmv. constructor.
Qed.

Lemma wp_choose n (Q : result DomainError nat → pool E → Prop) p :
  (∀ i p', (0 < n → i < n)%nat → still p p' → Q (Ok i) p') → wp (choose n) Q p.
Proof.
  intros HQ. unfold wp, choose, meter. simpl. apply HQ; [| by apply still_meters].
  intros Hn. apply Nat.mod_upper_bound. lia.
Qed.

Lemma elem_of_live d w : w ∈ live d → ∃ s, dr_workers d !! w = Some s ∧ s ≠ Stopped.
Proof.
  unfold live. intros [Hs Hw]%list_elem_of_filter. destruct (dr_workers d !! w) as [s |]; [| done].
  exists s. split; [done |]. by intros ->.
Qed.

Lemma live_nil d : live d = [] → Forall (λ s, s = Stopped) (dr_workers d).
Proof.
  intros Hl. apply Forall_lookup_2. intros w s Hw. destruct (decide (stopped s = true)) as [Hs | Hs]; [by destruct s |].
  assert (w ∈ live d) as Hin; [| rewrite Hl in Hin; by apply not_elem_of_nil in Hin].
  apply list_elem_of_filter. rewrite Hw. split; [by destruct s |]. apply elem_of_seq.
  apply lookup_lt_Some in Hw. lia.
Qed.

(** *** The run *)

(** The run of the threads to their end as the scheduler chooses, with the
    repairs that it made. *)
Inductive drain_run (cap : nat) : pool E * drain → list (ticket * DomainResult (nat * nat)) → pool E * drain → Prop :=
| run_end p d : live d = [] → drain_run cap (p, d) [] (p, d)
| run_step p d i p1 w d1 p2 log st :
    choose (length (live d)) p = (Ok i, p1) → live d !! i = Some w → worker_step cap w d p1 = (Ok d1, p2) →
    drain_run cap (p2, d1) log st → drain_run cap (p, d) (repair_of w d p1 ++ log) st.

Lemma dstep_inv_in cap p0 log w hs d d' p : frame p0 p →
  dinv (length (p_shards p0)) cap (mended_in log) (aimed_at p0) hs d → steps_in p w cap d d' →
  (∃ hs', dinv (length (p_shards p0)) cap (mended_in (log ++ repair_of w d p)) (aimed_at p0) hs' d') ∧
  (measure (replicas (p_cfg p0)) d' < measure (replicas (p_cfg p0)) d)%nat.
Proof.
  intros F Hd Hstep. rewrite (fr_len _ _ F), (fr_cfg _ _ F) in Hstep. split; [| by eapply step_decreases].
  eapply (dinv_mono _ _ _ (mended_in (log ++ repair_of w d p)) _ (aimed_at p0)) in Hd; [| | done].
  - eapply step_inv; [exact Hd |]. destruct Hstep as (w' & s & s' & e & Hw & Hm & ->). exists w', s, s', e.
    split; [done |]. split; [| done]. destruct Hm; constructor; try done.
    + by eapply aimed_frame.
    + destruct H as [k Hk]. exists k. apply elem_of_app. by right.
  - intros it [k Hk]. exists k. apply elem_of_app. by left.
Qed.

(** Whatever the scheduler does, the threads stop within the measure. *)
Lemma wp_run_workers cap fuel p0 log d p hs :
  pool_wf p0 → frame p0 p → dinv (length (p_shards p0)) cap (mended_in log) (aimed_at p0) hs d →
  (measure (replicas (p_cfg p0)) d < fuel)%nat →
  wp (run_workers fuel cap d) (λ r p', ∃ log' hs' d', r = Ok (Some d') ∧ drain_run cap (p, d) log' (p', d') ∧
    frame p0 p' ∧ dinv (length (p_shards p0)) cap (mended_in (log ++ log')) (aimed_at p0) hs' d' ∧
    dr_batch d' = dr_batch d ∧ length (dr_workers d') = length (dr_workers d) ∧ live d' = []) p.
Proof.
  intros Hwf. revert log d p hs. induction fuel as [| fuel IH]; intros log d p hs F0 Hd Hfuel; [lia |]. cbn [run_workers].
  destruct (live d) as [| w0 ws] eqn:Hl.
  { apply wp_ret. exists [], hs, d. rewrite app_nil_r. split_and!; try done. by constructor. }
  wp_step. destruct (choose (length (w0 :: ws)) p) as [rc p1] eqn:Hch.
  assert (wp (choose (length (w0 :: ws))) (λ r p1, ∃ i, r = Ok i ∧ (i < length (w0 :: ws))%nat ∧ still p p1) p) as Hc.
  { apply wp_choose. intros i p' Hi S. exists i. split_and!; [done | apply Hi; simpl; lia | done]. }
  destruct (wp_run _ _ _ _ _ Hc Hch) as (i & -> & Hi & S1). unfold wp at 1. rewrite Hch. cbn [fst snd].
  assert (frame p0 p1) as F1 by (etransitivity; [exact F0 | by apply still_frame]).
  destruct (lookup_lt_is_Some_2 _ _ Hi) as [w Hw]. rewrite (nth_lookup_Some _ _ _ _ Hw).
  assert (∃ s, dr_workers d !! w = Some s ∧ s ≠ Stopped) as (s & Hs & Hne).
  { apply elem_of_live. rewrite Hl. by eapply list_elem_of_lookup_2. }
  wp_step. pose proof (wp_worker_step cap w d s p1 (fr_wf _ _ F1 Hwf) Hs Hne) as Hstep. unfold wp at 1.
  unfold wp in Hstep. destruct (worker_step cap w d p1) as [rw p2] eqn:Hrun. destruct Hstep as (d1 & Hr & F2 & Hstep).
  simpl in Hr, F2. subst rw. cbn [fst snd]. destruct (dstep_inv_in _ _ _ _ _ _ _ _ F1 Hd Hstep) as [[hs1 Hd1] Hm].
  destruct (step_frame _ _ _ _ _ _ _ Hstep) as [Hb Hlen].
  eapply wp_mono; [apply (IH (log ++ repair_of w d p1) d1 p2 hs1); [by etransitivity | done | lia] |].
  intros r p3 (log' & hs2 & d2 & -> & Hrun2 & F3 & Hd2 & Hb2 & Hl2 & Hst). exists (repair_of w d p1 ++ log'), hs2, d2.
  rewrite app_assoc. split_and!; [done | | done | done | congruence | congruence | done].
  eapply run_step; [by rewrite Hl | by rewrite Hl | exact Hrun | exact Hrun2].
Qed.

Lemma drain_start_inv n cap mended aimed workers batch : dinv n cap mended aimed [] (drain_start n workers batch).
Proof.
  split; simpl; try done.
  - by rewrite length_replicate.
  - apply Forall_replicate. simpl. by split.
  - intros t Ht. rewrite lookup_replicate_2, sum_repeat by done. simpl. by rewrite Nat.mul_0_r.
  - intros t. rewrite sum_repeat. simpl. change (occ t []) with 0%nat. lia.
  - intros (i & Hi)%list_elem_of_lookup. by apply lookup_replicate in Hi as [? _].
  - by apply Forall_replicate.
  - by apply Forall_replicate.
  - rewrite take_0. induction workers as [| n' IH]; [done | exact IH].
Qed.

Lemma drain_fuel_enough most n workers batch :
  let d := drain_start n workers batch in (measure most d < drain_fuel most d)%nat.
Proof. simpl. unfold measure, drain_fuel. simpl. rewrite sum_repeat, length_replicate. simpl. lia. Qed.

(** A state in which every thread has stopped has dealt with the whole batch. *)
Lemma stopped_tickets ws : Forall (λ s, s = Stopped) ws → ws ≫= ticket_of = [].
Proof. induction 1 as [| s ws -> _ IH]; [done | exact IH]. Qed.

Lemma drain_done n cap mnd aim hs d :
  dinv n cap mnd aim hs d → dr_workers d ≠ [] → Forall (λ s, s = Stopped) (dr_workers d) →
  hs ++ dr_deferred d ≡ₚ dr_batch d.
Proof.
  intros [_ _ _ _ _ _ Hstop _ _ Ht] Hne Hst. rewrite (stopped_tickets _ Hst), app_nil_r in Ht.
  rewrite take_ge in Ht; [done |]. apply Hstop. destruct (dr_workers d) as [| s ws]; [done |].
  apply Forall_cons in Hst as [-> _]. left.
Qed.

(** ** The batch and the queue *)

Definition without (ks : list BlockKey) (m : gmap BlockKey HealPriority) (k : BlockKey) : option HealPriority :=
  if decide (k ∈ ks) then None else m !! k.

(** [batch] are waiting requests, each once; [q'] is the queue without them. *)
Record taken_from (q : HealQueue) (batch : list ticket) (q' : HealQueue) : Prop := {
  tf_inv : hq_inv q';
  tf_nodup : NoDup batch.*1;
  tf_waiting : ∀ k pr, (k, pr) ∈ batch → hq_dedup q !! k = Some pr;
  tf_rest : ∀ k, hq_dedup q' !! k = without batch.*1 (hq_dedup q) k;
  tf_size : (size (hq_dedup q') + length batch = size (hq_dedup q))%nat;
  tf_urgent : ∀ k pr k' pr', (k, pr) ∈ batch → hq_dedup q' !! k' = Some pr' → (prio_rank pr' <= prio_rank pr)%Z;
}.

Lemma taken_nothing q q' : hq_inv q' → hq_dedup q' = hq_dedup q → taken_from q [] q'.
Proof.
  intros HI Hd. split; simpl; [done | by apply NoDup_nil | | by rewrite Hd | rewrite Hd; lia |];
    intros k pr; [| intros k' pr']; intros H; by apply not_elem_of_nil in H.
Qed.

Lemma wp_take_batch max p :
  hq_inv (p_mrf p) →
  wp (take_batch max) (λ r p', ∃ batch q, r = Ok batch ∧ p' = set_mrf q p ∧ taken_from (p_mrf p) batch q ∧
    length batch = Nat.min max (hq_len (p_mrf p))) p.
Proof.
  revert p. induction max as [| max IH]; intros p HI; simpl.
  { apply wp_ret. exists [], (p_mrf p). split; [done |]. split; [by destruct p |]. split; [by apply taken_nothing | done]. }
  do 2 wp_step. pose proof (hq_pop_loop_spec (S (length (hq_heap (p_mrf p)))) _ HI ltac:(lia)) as Hpop.
  fold (hq_pop (p_mrf p)) in Hpop. destruct (hq_pop (p_mrf p)) as [[[k pr] |] q] eqn:Hq.
  - destruct Hpop as (HIq & Hk & Hd & Hu). do 2 wp_step. wp_step. eapply wp_mono; [apply IH; exact HIq |].
    intros r p' (batch & q' & -> & -> & [HI' Hnd Hw Hr Hs Hur] & Hlen). apply wp_ret. simpl in *.
    assert (S (size (hq_dedup q)) = size (hq_dedup (p_mrf p))) as Hsz.
    { rewrite Hd, map_size_delete, Hk. simpl.
      assert (size (hq_dedup (p_mrf p)) ≠ 0%nat) by (apply map_size_ne_0_lookup; eauto). lia. }
    exists ((k, pr) :: batch), q'. split; [done |]. split; [done |]. split.
    + split; simpl; [done | | | | lia |].
      * constructor; [| done]. intros ([k' pr'] & -> & Hin)%list_elem_of_fmap. simpl in *.
        specialize (Hw _ _ Hin). by rewrite Hd, lookup_delete_eq in Hw.
      * intros k' pr' [[= -> ->] | Hin]%elem_of_cons; [done |]. specialize (Hw _ _ Hin). rewrite Hd in Hw.
        by apply lookup_delete_Some in Hw as [_ ?].
      * intros k'. rewrite Hr. unfold without. rewrite Hd. destruct (decide (k' = k)) as [-> | Hne].
        -- rewrite lookup_delete_eq. rewrite (decide_True (P := k ∈ k :: _)) by left. by destruct (decide _).
        -- rewrite lookup_delete_ne by done. apply decide_ext. rewrite elem_of_cons. naive_solver.
      * intros k1 pr1 k' pr' [[= -> ->] | Hin]%elem_of_cons Hk'; [| by eapply Hur].
        rewrite Hr in Hk'. unfold without in Hk'. destruct (decide _); [done |]. rewrite Hd in Hk'.
        apply lookup_delete_Some in Hk' as [_ Hk']. by eapply Hu.
    + unfold hq_len in *. simpl in *. rewrite Hlen, <-Hsz. done.
  - destruct Hpop as (HIq & Hemp & Hd). do 2 wp_step. exists [], q. split; [done |]. split; [done |].
    split; [apply taken_nothing; [done | by rewrite Hemp] |]. unfold hq_len. by rewrite Hemp, map_size_empty.
Qed.

(** Pushing back what was taken restores it. *)
Lemma push_back q l : NoDup l.*1 → hq_inv q → (∀ k pr, (k, pr) ∈ l → hq_dedup q !! k = None) →
  (Z.of_nat (size (hq_dedup q) + length l) <= CAP)%Z →
  let q' := foldl (λ q it, hq_push it.1 it.2 q) q l in
  hq_inv q' ∧ (∀ k pr, (k, pr) ∈ l → hq_dedup q' !! k = Some pr) ∧
  (∀ k, k ∉ l.*1 → hq_dedup q' !! k = hq_dedup q !! k).
Proof.
  revert q. induction l as [| [k pr] l IH]; intros q Hnd HI Hnone Hcap; simpl.
  { split_and!; [done | intros k pr H; by apply not_elem_of_nil in H | done]. }
  apply NoDup_cons in Hnd as [Hk Hnd]. pose proof (Hnone k pr ltac:(left)) as Hkq.
  assert (hq_dedup (hq_push k pr q) = <[k := pr]> (hq_dedup q)) as Hpush.
  { unfold hq_push, hq_dup. rewrite Hkq, (proj2 (Z.leb_gt _ _)); [done |]. simpl in Hcap. lia. }
  destruct (IH (hq_push k pr q)) as (HI' & Hin & Hout); [done | by apply hq_push_inv | | |].
  - intros k' pr' Hin. rewrite Hpush, lookup_insert_ne; [by apply (Hnone k' pr'); right |].
    intros ->. by apply Hk, (list_elem_of_fmap_2 fst _ (k', pr')).
  - rewrite Hpush, map_size_insert_None by done. simpl in Hcap. lia.
  - split_and!; [done | |].
    + intros k' pr' [[= -> ->] | Hin']%elem_of_cons; [| by apply Hin]. rewrite Hout by done. by rewrite Hpush, lookup_insert_eq.
    + intros k' [Hne Hout']%not_elem_of_cons. rewrite Hout by done. by rewrite Hpush, lookup_insert_ne.
Qed.

Lemma wp_push_back l p :
  wp (miter (λ it, mrf_push it.1 it.2) l)
    (λ r p', r = Ok tt ∧ p' = set_mrf (foldl (λ q it, hq_push it.1 it.2 q) (p_mrf p) l) p) p.
Proof.
  revert p. induction l as [| it l IH]; intros p; simpl.
  { apply wp_ret. split; [done |]. by destruct p. }
  unfold mrf_push at 1. do 2 wp_step. eapply wp_mono; [apply IH |]. intros r p' [-> ->]. split; [done |].
  by destruct p.
Qed.

(** [healed] and [deferred] are the batch; the healed ones are gone. *)
Lemma drained_queue q batch q' healed deferred :
  hq_inv q → taken_from q batch q' → healed ++ deferred ≡ₚ batch →
  let q2 := foldl (λ q it, hq_push it.1 it.2 q) q' deferred in
  hq_inv q2 ∧ ∀ k, hq_dedup q2 !! k = without healed.*1 (hq_dedup q) k.
Proof.
  intros HI [HI' Hnd Hw Hr Hs _] Hp. pose proof (fmap_Permutation fst _ _ Hp) as Hpk.
  rewrite fmap_app in Hpk. rewrite <-Hpk in Hnd. apply NoDup_app in Hnd as (_ & Hdis & Hnd).
  assert (∀ k, k ∈ batch.*1 ↔ k ∈ healed.*1 ∨ k ∈ deferred.*1) as Hin by (intros k; by rewrite <-Hpk, elem_of_app).
  destruct (push_back q' deferred) as (HI2 & Hd & Ho); [done | done | | |].
  - intros k pr H. rewrite Hr. unfold without. rewrite decide_True; [done |]. apply Hin. right.
    by apply (list_elem_of_fmap_2 fst _ (k, pr)).
  - pose proof (hq_cap _ HI). apply Permutation_length in Hp. rewrite length_app in Hp. lia.
  - split; [done |]. intros k. unfold without. destruct (decide (k ∈ deferred.*1)) as [Hk | Hk].
    + apply list_elem_of_fmap in Hk as ([k' pr] & -> & Hk). simpl. rewrite (Hd _ _ Hk), decide_False.
      * symmetry. apply Hw. rewrite <-Hp. apply elem_of_app. by right.
      * intros Hh. apply (Hdis k' Hh). by apply (list_elem_of_fmap_2 fst _ (k', pr)).
    + rewrite Ho, Hr by done. unfold without. apply decide_ext. rewrite Hin. tauto.
Qed.

(** The threads that the drain starts, and their cap per shard. *)
Definition drain_threads p (batch : list ticket) : nat :=
  Nat.min (Nat.max (heal_parallelism (p_cfg p)) 1) (length batch).
Definition drain_cap p : nat := Nat.max (heal_max_per_shard (p_cfg p)) 1.

(** C15. Draining the heal queue takes the most urgent requests, as many as are
    asked for or wait, and always comes to an end, whatever the scheduler does
    with the threads. The run of the threads that it made repaired, without
    a failure, every request that it reports as healed; those it defers are
    back in the queue; no other request is lost or changed. *)
Theorem drain_heals_or_keeps max p r p' :
  pool_wf p → hq_inv (p_mrf p) → mrf_drain max p = (r, p') →
  ∃ batch p1 log p2 d (healed : list ticket),
    take_batch max p = (Ok batch, p1) ∧ length batch = Nat.min max (hq_len (p_mrf p)) ∧
    drain_run (drain_cap p) (p1, drain_start (length (p_shards p)) (drain_threads p batch) batch) log (p2, d) ∧
    r = Ok (length healed, length (dr_deferred d)) ∧ healed ++ dr_deferred d ≡ₚ batch ∧
    (∀ it, it ∈ healed → ∃ n, (it, Ok (n, 0%nat)) ∈ log) ∧
    p_shards p' = p_shards p2 ∧ hq_inv (p_mrf p') ∧
    (∀ k, hq_dedup (p_mrf p') !! k = without healed.*1 (hq_dedup (p_mrf p)) k) ∧
    (∀ k pr k' pr', (k, pr) ∈ batch → k' ∉ batch.*1 → hq_dedup (p_mrf p) !! k' = Some pr' →
       (prio_rank pr' <= prio_rank pr)%Z).
Proof.
  intros Hwf HI Hrun. destruct (take_batch max p) as [rb p1] eqn:Htake.
  destruct (wp_run _ _ _ _ _ (wp_take_batch max p HI) Htake) as (batch & q & -> & -> & Htf & Hlen).
  unfold mrf_drain in Hrun. unfold mthen at 1 in Hrun. rewrite Htake in Hrun. exists batch, (set_mrf q p).
  assert (∀ k pr k' pr', (k, pr) ∈ batch → k' ∉ batch.*1 → hq_dedup (p_mrf p) !! k' = Some pr' →
       (prio_rank pr' <= prio_rank pr)%Z) as Hur.
  { intros k pr k' pr' Hk Hk' Hw'. apply (tf_urgent _ _ _ Htf k pr k' pr'); [done |].
    rewrite (tf_rest _ _ _ Htf). unfold without. by rewrite decide_False. }
  case_bool_decide as Hb.
  { subst batch. injection Hrun as <- <-. destruct (drained_queue _ _ _ [] [] HI Htf) as [HI2 Hq]; [done |].
    exists [], (set_mrf q p), (drain_start (length (p_shards p)) (drain_threads p []) []), [].
    assert (drain_threads p [] = 0%nat) as Hz by (unfold drain_threads; simpl; lia). rewrite Hz.
    split_and!; try done; [by constructor | intros it H; by apply not_elem_of_nil in H]. }
  refine (wp_run _ (λ r p', _) _ _ _ _ Hrun). clear Hrun. do 3 wp_step. cbn [p_cfg set_mrf p_shards].
  change (Nat.max (heal_max_per_shard _) 1) with (drain_cap p). change (Nat.min _ (length batch)) with (drain_threads p batch).
  set (d0 := drain_start _ _ _). eapply wp_mono.
  { apply (wp_run_workers (drain_cap p) _ (set_mrf q p) [] d0 (set_mrf q p) []);
      [done | done | apply drain_start_inv | apply drain_fuel_enough]. }
  intros r2 p2 (log & healed & d & -> & Hrun & F & Hd & Hbd & Hne & Hst%live_nil). wp_step.
  eapply wp_mono; [apply wp_push_back |]. intros r3 p3 [-> ->]. apply wp_ret.
  assert (dr_workers d ≠ []) as Hne'.
  { intros Hnil. rewrite Hnil in Hne. simpl in Hne. rewrite length_replicate in Hne. unfold drain_threads in Hne.
    destruct batch; simpl in Hne; [done | lia]. }
  pose proof (drain_done _ _ _ _ _ _ Hd Hne' Hst) as Hp. rewrite Hbd in Hp.
  destruct (drained_queue _ _ _ _ _ HI Htf Hp) as [HI2 Hq]. exists log, p2, d, healed. simpl.
  rewrite (fr_mrf _ _ F). simpl. split_and!; try done.
  - by rewrite (di_healed _ _ _ _ _ _ Hd).
  - pose proof (di_mended _ _ _ _ _ _ Hd) as Hm. by rewrite Forall_forall in Hm.
Qed.

(** ** Any interleaving *)

(** A thread that has not stopped takes a step. *)
Definition thread_step (cap : nat) (st st' : pool E * drain) : Prop :=
  ∃ w, w ∈ live st.2 ∧ worker_step cap w st.2 st.1 = (Ok st'.2, st'.1).

(** Since [p0]: the invariant, without a log of the repairs. *)
Definition in_order cap p0 d : Prop :=
  ∃ hs, dinv (length (p_shards p0)) cap (λ _, True) (aimed_at p0) hs d.

Lemma thread_step_inv cap p0 p d p' d' :
  pool_wf p0 → frame p0 p → in_order cap p0 d → thread_step cap (p, d) (p', d') →
  frame p0 p' ∧ in_order cap p0 d' ∧ dr_batch d' = dr_batch d ∧ length (dr_workers d') = length (dr_workers d) ∧
  (measure (replicas (p_cfg p0)) d' < measure (replicas (p_cfg p0)) d)%nat.
Proof.
  intros Hwf F [hs Hd] (w & Hw & Hrun). simpl in *. apply elem_of_live in Hw as (s & Hs & Hne).
  destruct (wp_run _ _ _ _ _ (wp_worker_step cap w d s p (fr_wf _ _ F Hwf) Hs Hne) Hrun) as (d1 & [= <-] & F' & Hstep).
  split; [by etransitivity |]. destruct (step_frame _ _ _ _ _ _ _ Hstep) as [? ?]. split; [| split_and!; try done].
  - rewrite (fr_len _ _ F), (fr_cfg _ _ F) in Hstep. eapply step_inv; [exact Hd |].
    destruct Hstep as (w' & s1 & s' & e & Hw' & Hm & ->). exists w', s1, s', e. split_and!; [done | | done].
    destruct Hm; constructor; try done. by eapply aimed_frame.
  - rewrite (fr_len _ _ F), (fr_cfg _ _ F) in Hstep. by eapply step_decreases.
Qed.

Lemma threads_inv cap p0 n batch workers k st :
  pool_wf p0 → n = length (p_shards p0) → nsteps (thread_step cap) k (p0, drain_start n workers batch) st →
  frame p0 st.1 ∧ in_order cap p0 st.2 ∧ dr_batch st.2 = batch ∧ length (dr_workers st.2) = workers ∧
  (k + measure (replicas (p_cfg p0)) st.2 ≤ measure (replicas (p_cfg p0)) (drain_start n workers batch))%nat.
Proof.
  intros Hwf ->. remember (p0, drain_start _ workers batch) as st0 eqn:Hst0. intros Hsteps.
  assert (frame p0 st0.1) as F0 by by subst. assert (in_order cap p0 st0.2) as H0.
  { exists []. subst. apply drain_start_inv. }
  assert (dr_batch st0.2 = batch ∧ length (dr_workers st0.2) = workers) as B0.
  { subst. simpl. by rewrite length_replicate. }
  replace (drain_start (length (p_shards p0)) workers batch) with st0.2 by by subst. clear Hst0.
  revert F0 H0 B0. induction Hsteps as [[p d] | k [p d] [p1 d1] [p2 d2] Hst Hsteps IH]; intros F0 H0 B0; simpl in *.
  { destruct B0. split_and!; [done | done | done | done | lia]. }
  destruct (thread_step_inv _ _ _ _ _ _ Hwf F0 H0 Hst) as (F1 & H1 & Hb & Hl & Hm).
  rewrite <-Hb, <-Hl in B0. destruct (IH F1 H1 B0) as (? & ? & ? & ? & ?). split_and!; [done | done | done | done |]. lia.
Qed.

(** *** The shards that repairs write to *)

(** The thread repairs a key that has [i] among its [r] replicas. *)
Definition repairing_on (t : topology) (r : nat) (i : ShardId) (s : worker) : bool :=
  match s with Repairing it _ => bool_decide (i ∈ pp_select it.1 t r) | _ => false end.

Lemma repairing_occ p t i ws : steady t p → Forall (well_aimed (aimed_at p)) ws →
  (length (filter (λ s, repairing_on t (replicas (p_cfg p)) i s = true) ws) ≤ sum_list_with (λ s, occ i (held s)) ws)%nat.
Proof.
  intros Ht. induction 1 as [| s ws Ha _ IH]; simpl; [lia |]. rewrite filter_cons. case_decide as Hs; simpl; [| lia].
  assert (0 < occ i (held s))%nat; [| lia]. destruct s; try done. simpl in *. apply bool_decide_eq_true in Hs.
  rewrite <-(Ha t Ht) in Hs. unfold occ. assert (i ∈ filter (λ x, x = i) got) as Hin by (by apply list_elem_of_filter).
  destruct (filter _ got); [by apply not_elem_of_nil in Hin | simpl; lia].
Qed.

(** No shard but those of [ids] changed. *)
Definition spared (ids : list ShardId) p p' : Prop := ∀ i, i ∉ ids → p_shards p' !! i = p_shards p !! i.

Lemma spared_still ids p p' : still p p' → spared ids p p'.
Proof. intros S i _. by rewrite (still_shards _ _ S). Qed.
Lemma spared_trans ids p1 p2 p3 : spared ids p1 p2 → spared ids p2 p3 → spared ids p1 p3.
Proof. intros H1 H2 i Hi. by rewrite H2, H1. Qed.

Lemma spared_shard_put i key v ids p : i ∈ ids → wp (shard_put i key v) (λ _ p', spared ids p p') p.
Proof.
  intros Hi. unfold shard_put, metered. wp_step. eapply wp_calm; [apply calm_now |]. intros t0 p1 _ S1. wp_step.
  unfold wp at 1, on_shard. destruct (p_shards p1 !! i) as [s |] eqn:Hs.
  - destruct (se_put key v s) as [r s']. cbn [fst snd]. wp_step. eapply wp_calm; [apply calm_now |]. intros t1 p2 _ S2.
    wp_step. eapply wp_calm; [by apply calm_meter |]. intros [] p3 _ S3. apply wp_lift. intros j Hj.
    rewrite (still_shards _ _ S3), (still_shards _ _ S2). simpl. rewrite list_lookup_insert_ne by (intros ->; done).
    by rewrite (still_shards _ _ S1).
  - cbn [fst snd]. wp_step. eapply wp_calm; [apply calm_now |]. intros t1 p2 _ S2.
    wp_step. eapply wp_calm; [by apply calm_meter |]. intros [] p3 _ S3. apply wp_lift. apply spared_still.
    etransitivity; [exact S1 |]. by etransitivity.
Qed.

Lemma spared_fill key v l ids acc p : (∀ i, i ∈ l → i ∈ ids) →
  wp (mfold (λ acc a, mcatch (shard_put a key v) (λ r, mret (match r with Ok _ => (S acc.1, acc.2) | Err _ => (acc.1, S acc.2) end)))
        acc l : M (pool E) DomainError (nat * nat)) (λ r p', (∃ n, r = Ok n) ∧ spared ids p p') p.
Proof.
  revert acc p. induction l as [| i l IH]; intros acc p Hl; simpl; [apply wp_ret; split; [by eexists | done] |].
  do 2 wp_step. eapply wp_mono; [apply (spared_shard_put i key v ids); apply Hl; left |]. intros r p1 H1. apply wp_ret.
  eapply wp_mono; [apply IH; intros j Hj; apply Hl; by right |]. intros r2 p2 [? H2]. split; [done | exact (spared_trans _ _ _ _ H1 H2)].
Qed.
End DrainRun.

(** *** The bulkhead *)

Section Bulkhead.
Context {E : Type} `{SE : !ShardEngine E, DS : !DiskSpec E} `{PP : !PlacementPolicy} `{PPS : !PlacementSpec} `{RS : !ReedSolomon}.
Implicit Types (p : pool E) (d : drain).

(** The repair of a mirrored key writes to no shard but the key's replicas. *)
Lemma spared_repair key t p : pool_wf p → pc_ec (p_cfg p) = None → steady t p →
  wp (repair_key key) (λ _ p', spared (pp_select key t (replicas (p_cfg p))) p p') p.
Proof.
  intros Hwf Hec Ht. unfold repair_key. do 2 wp_step. rewrite Hec. unfold repair_key_mirror. wp_step.
  apply wp_replicas_steady; [done |]. intros ids p1 _ S1 Hids. rewrite (Hids t Ht). set (targets := pp_select _ _ _).
  wp_step. eapply wp_mono; [apply wp_split_holders |]. intros r p2 [-> ->].
  case_bool_decide; [apply wp_ret; by apply spared_still |]. wp_step.
  eapply wp_mono; [by apply (wp_read_for_repair key _ p p1) |]. intros [v | e] p3 [S3 _]; [| by apply spared_still].
  wp_step. unfold fill_missing. eapply wp_mono; [apply (spared_fill key v _ targets) |].
  { by intros i [_ Hi]%list_elem_of_filter. }
  intros r p4 [[n ->] H4]. wp_step. eapply wp_calm; [apply calm_bg_acquire |]. intros [] p5 _ S5. apply wp_ret.
  eapply spared_trans; [by apply spared_still |]. eapply spared_trans; [exact H4 | by apply spared_still].
Qed.

(** C16. The bulkhead: while the topology in use does not expire, at every moment
    of every interleaving of the threads no shard is among the R replicas of
    more than [cap] keys that are being repaired; and the repair of a
    mirrored key writes to its replicas only. (The repair of an erasure-coded
    key may write beyond the first R ranks, where no slot is taken.) *)
Theorem bulkhead_holds cap p0 t batch workers p d :
  pool_wf p0 → steady t p0 →
  rtc (thread_step cap) (p0, drain_start (length (p_shards p0)) workers batch) (p, d) →
  (∀ i, length (filter (λ s, repairing_on t (replicas (p_cfg p)) i s = true) (dr_workers d)) ≤ cap)%nat ∧
  (pc_ec (p_cfg p0) = None → ∀ key i, i ∉ pp_select key t (replicas (p_cfg p)) →
     p_shards (repair_key key p).2 !! i = p_shards p !! i).
Proof.
  intros Hwf Ht [k Hsteps]%rtc_nsteps. destruct (threads_inv _ _ _ _ _ _ _ Hwf eq_refl Hsteps) as (F & (hs & Hd) & _ & _ & _).
  simpl in *. rewrite (fr_cfg _ _ F). split.
  - intros i. etransitivity; [| exact (di_cap _ _ _ _ _ _ Hd i)]. apply (repairing_occ p0); [done |].
    exact (di_aimed _ _ _ _ _ _ Hd).
  - intros Hec key i Hi. rewrite <-(fr_cfg _ _ F) in *. destruct (repair_key key p) as [r p'] eqn:Hrun.
    exact (wp_run _ _ _ _ _ (spared_repair key t p (fr_wf _ _ F Hwf) Hec (fr_steady _ _ F t Ht)) Hrun i Hi).
Qed.
End Bulkhead.

Section DrainEnds.
Context {E : Type} `{SE : !ShardEngine E} `{PP : !PlacementPolicy} `{PPS : !PlacementSpec} `{RS : !ReedSolomon}.
Implicit Types (p : pool E) (d : drain).

(** Every interleaving of the threads is finite, with at most a fixed
    number of steps per request; a thread that has not stopped can always
    move; and when none can, every request of the batch has been healed or
    deferred. *)
Theorem threads_finish cap p0 batch workers k p d :
  pool_wf p0 → (0 < workers)%nat →
  nsteps (thread_step cap) k (p0, drain_start (length (p_shards p0)) workers batch) (p, d) →
  (k ≤ length batch * (2 * replicas (p_cfg p0) + 4) + workers)%nat ∧
  (∀ w, w ∈ live d → ∃ st, worker_step cap w d p = (Ok st.2, st.1)) ∧
  (live d = [] → (dr_healed d + length (dr_deferred d) = length batch)%nat).
Proof.
  intros Hwf Hw Hsteps. destruct (threads_inv _ _ _ _ _ _ _ Hwf eq_refl Hsteps) as (F & (hs & Hd) & Hb & Hl & Hk).
  simpl in *. split_and!.
  - unfold measure at 2 in Hk. simpl in Hk. rewrite sum_repeat in Hk. simpl in Hk. lia.
  - intros w Hlive. apply elem_of_live in Hlive as (s & Hs & Hne).
    pose proof (wp_worker_step cap w d s p (fr_wf _ _ F Hwf) Hs Hne) as Hstep. unfold wp in Hstep.
    destruct (worker_step cap w d p) as [r p'] eqn:Hrun. destruct Hstep as (d' & Hr & _). simpl in Hr. subst r.
    by exists (p', d').
  - intros Hnil%live_nil. assert (dr_workers d ≠ []) as Hne by (intros Hnil'; rewrite Hnil' in Hl; simpl in Hl; lia).
    pose proof (drain_done _ _ _ _ _ _ Hd Hne Hnil) as Hp%Permutation_length.
    by rewrite length_app, Hb, (di_healed _ _ _ _ _ _ Hd) in Hp.
Qed.
End DrainEnds.
