(* ===== verification/PoolDemo.v ===== *)
(** * Runs of a pool of engines

    A pool of three disk engines under rendezvous placement, and the
    properties of the pool at concrete inputs. *)

From Stdlib Require Import ZArith Lia Strings.Byte.
From stdpp Require Import base list gmap strings.
From S2P Require Import Prelude F64 Domain Table Piece Segment SegmentFacts Writer Engine EngineGc EngineInv EngineOps EngineGcFacts Instances EngineProps Latency DiskSlow Placement Shard Erasure Verified Metrics Throttle HealQueue PoolState Pool PoolFacts PoolRead PoolWrite.
Open Scope Z_scope.

#[global] Instance demo_shard : ShardEngine (engine MapTable) := disk_engine (Some (10, 100, 50)).
#[global] Instance demo_shard_spec : ShardEngineSpec (engine MapTable) := disk_engine_spec (Some (10, 100, 50)).
#[global] Instance demo_shard_era : EraEngineSpec (engine MapTable) := engine_era_spec (Some (10, 100, 50)).
#[global] Instance demo_placement : PlacementPolicy := rendezvous toy_xxh3 toy_ln (f64_ratio 95 100).
#[global] Instance demo_placement_spec : PlacementSpec := rendezvous_spec toy_xxh3 toy_ln (f64_ratio 95 100).

Definition pool_of {E} (c : PoolConfig) (shards : list E) (sched : list nat) : pool E :=
  {| p_cfg := c; p_shards := shards; p_statuses := replicate (length shards) Online;
     p_cap_overrides := replicate (length shards) None; p_slow_flags := replicate (length shards) false;
     p_topo := None; p_mrf := HealQueue_default; p_shutting_down := false;
     p_meters := {| m_metrics := OpsMetrics_default;
                    m_bg := (throttle_new (bg_throttle c) 0 OpsMetrics_default).1;
                    m_read_lat := p99_new 60000000 64; m_slow_mon := slow_new (length shards);
                    m_clock := [1000000; 2000000; 3000000]; m_sched := sched |} |}.

Definition mirror_cfg (w : nat) : PoolConfig :=
  {| replicas := 2; write_quorum := w; free_space_cache_ttl := 5000000000;
     speculative_retry_after := Some 100000000; heal_parallelism := 4; heal_max_per_shard := 2;
     bg_throttle := BgThrottleConfig_default; pc_ec := None; pc_outboard := None; adaptive_hedge := true;
     disk_slow := DiskSlowConfig_default |}.

Definition three : list (engine MapTable) := replicate 3 (fresh small_cfg).
Definition pool0 : pool (engine MapTable) := pool_of (mirror_cfg 2) three [1%nat; 0%nat; 1%nat].
Definition pool1 : pool (engine MapTable) := (pool_put k1 d1 pool0).2.

Lemma pool_of_wf {E} `{!ShardEngine E} c (shards : list E) sched : pool_wf (pool_of c shards sched).
Proof. done. Qed.

Lemma three_ready : Forall se_ready (p_shards pool0).
Proof. repeat (constructor; [exact fresh_small_ready |]). constructor. Qed.

Lemma pool0_put : pool_put k1 d1 pool0 = (Ok tt, pool1).
Proof. unfold pool1. apply run_fst. vm_compute. reflexivity. Qed.

Lemma k1_d1_fits : se_fits k1 d1.
Proof. split; vm_compute; reflexivity. Qed.

Lemma mirror_mirrored : mirrored pool0.
Proof. split_and!; [reflexivity | reflexivity | vm_compute; lia]. Qed.

Lemma pool1_ok : Forall se_ok (p_shards pool1).
Proof.
  destruct (wp_run _ _ _ _ _ (wp_pool_put k1 d1 pool0 (pool_of_wf _ _ _) three_ready k1_d1_fits mirror_mirrored) pool0_put)
    as (W & T & q & HW & _).
  exact (wrote_ok _ _ _ _ _ _ HW three_ready).
Qed.

(** All three disks are eligible: the two copies of R = W = 2 are there. *)
Lemma put_reaches_the_quorum_witness :
  ∃ copies : gset nat, (2 ≤ size copies)%nat ∧ ∀ i, i ∈ copies → read_at pool1 i k1 = Ok d1.
Proof.
  destruct (put_reaches_the_quorum k1 d1 pool0 (Ok tt) pool1 (pool_of_wf _ _ _) three_ready k1_d1_fits
    mirror_mirrored pool0_put) as (_ & _ & copies & Hr & t & Hu & _ & _ & Hlen & Hq & _).
  exists copies. split.
  - destruct Hu as [-> | (c & Hc & _)]; [| discriminate].
    assert (length (filter pp_eligible (fresh_topology pool0)) = 3%nat) as H3 by (vm_compute; reflexivity).
    rewrite H3 in Hlen. rewrite Hlen in Hq. exact Hq.
  - intros i Hi. rewrite Hr, decide_True by done. reflexivity.
Defined.

(** The read leg is late and the other answers first. *)
Definition pool2 : pool (engine MapTable) := (pool_get k1 pool1).2.

Lemma put_is_read_back_witness : pool_get k1 pool1 = (Ok d1, pool2).
Proof.
  destruct (pool_get k1 pool1) as [r p2] eqn:Hget.
  assert (p2 = pool2) as -> by (unfold pool2; rewrite Hget; reflexivity).
  rewrite (put_is_read_back k1 d1 pool0 pool1 r pool2 (pool_of_wf _ _ _) three_ready k1_d1_fits mirror_mirrored); [reflexivity | | exact pool0_put | exact Hget].
  intros i v. unfold read_at. do 3 (destruct i as [| i]; [vm_compute; discriminate |]). vm_compute. discriminate.
Defined.

Lemma get_finds_a_copy_witness : ∃ i, read_at pool1 i k1 = Ok d1.
Proof.
  assert (pool_get k1 pool1 = (Ok d1, pool2)) as Hget by (unfold pool2; apply run_fst; vm_compute; reflexivity).
  refine (proj2 (get_finds_a_copy k1 pool1 (Ok d1) pool2 _ _ Hget)).
  - intros c Hc. vm_compute in Hc. injection Hc as <-. vm_compute. reflexivity.
  - vm_compute. reflexivity.
Defined.

Lemma pool_list_is_a_page_witness :
  pool_list pool1 [x01] None 5 = Ok [(k1, 30)] ∧
  list_page (pool_shown pool1) [x01] None 5 [(k1, 30)].
Proof.
  destruct (pool_list_is_a_page pool1 [x01] None 5) as (out & Hl & Hp).
  - exact pool1_ok.
  - exact I.
  - assert (pool_list pool1 [x01] None 5 = Ok [(k1, 30)]) as Hr by (vm_compute; reflexivity).
    rewrite Hr in Hl. injection Hl as <-. split; [exact Hr | exact Hp].
Defined.

(** ** Runs that the code's comments rule out *)

(** With a quorum of one, an overwrite whose first leg fails is acknowledged,
    and the read leg goes on answering the old body. *)
Definition pool3 : pool (engine MapTable) := (pool_put k1 d1 (pool_of (mirror_cfg 1) (take 2 three) [])).2.
Definition first_target : ShardId :=
  match (replicas_for k1 pool3).1 with Ok (i :: _) => i | _ => 0%nat end.
Definition failing (e : engine MapTable) : engine MapTable := set_db_faults [Some "disk error"%string] e.
Definition pool4 : pool (engine MapTable) :=
  (pool_put k1 d2 (set_shards (alter failing first_target (p_shards pool3)) pool3)).2.

Example overwrite_is_acknowledged_and_not_read :
  (pool_put k1 d2 (set_shards (alter failing first_target (p_shards pool3)) pool3)).1 = Ok tt ∧
  (pool_get k1 pool4).1 = Ok d1.
Proof. vm_compute. split; reflexivity. Qed.

(** A delete that every shard refuses is acknowledged; the key is still read. *)
Example refused_delete_is_acknowledged :
  let p := set_shards (map failing (p_shards pool3)) pool3 in
  (pool_delete k1 p).1 = Ok tt ∧ (pool_get k1 (pool_delete k1 p).2).1 = Ok d1.
Proof. vm_compute. split; reflexivity. Qed.
