(* ===== verification/HealDemo.v ===== *)
(** * Runs of repair, draining and erasure coding

    The properties of repair, of the heal workers and of erasure-coded bodies
    at concrete inputs: pools of disk engines with the exclusive-or code. *)

From Stdlib Require Import ZArith Lia Strings.Byte.
From stdpp Require Import base list gmap sets strings.
From S2P Require Import Prelude F64 Domain Table Piece Segment SegmentFacts Writer Engine EngineGc EngineInv EngineOps EngineGcFacts Instances EngineProps Latency DiskSlow Placement Shard Erasure Verified Metrics Throttle HealQueue PoolState Pool PoolFacts PoolRead PoolEcRead PoolWrite PoolEcWrite Repair RepairFacts Migrate PoolKeep Drain PoolDemo.
Open Scope Z_scope.

(** ** Repair *)

Definition filled : engine MapTable := (put_impl k1 d1 None (fresh small_cfg)).2.

Lemma filled_ready : ready filled.
Proof. apply ready_put; [exact fresh_small_ready | vm_compute; reflexivity]. Qed.

Lemma steady_check {E} t (p : pool E) c :
  p_topo p = Some c → tc_topo c = t →
  forallb (λ n, sat_sub n (tc_at c) <? free_space_cache_ttl (p_cfg p)) (0 :: m_clock (p_meters p)) = true →
  steady t p.
Proof.
  intros Hc Ht Hall. exists c. split_and!; [done | done |]. rewrite forallb_forall in Hall. apply Forall_forall.
  intros n Hn. apply Z.ltb_lt. by apply Hall, list_elem_of_In.
Qed.

(** One shard of three has the key, and the topology is cached. *)
Definition cached (p : pool (engine MapTable)) : pool (engine MapTable) := (pool_topology p).2.
Definition pool5 : pool (engine MapTable) :=
  cached (pool_of (mirror_cfg 2) [fresh small_cfg; filled; fresh small_cfg] [1%nat; 0%nat; 1%nat]).
Definition pool6 : pool (engine MapTable) := (repair_key k1 pool5).2.

Lemma pool5_wf : pool_wf pool5.
Proof. intros c. vm_compute. intros [= <-]. reflexivity. Qed.

Lemma pool5_ready : Forall se_ready (p_shards pool5).
Proof.
  constructor; [exact fresh_small_ready |]. constructor; [exact filled_ready |].
  constructor; [exact fresh_small_ready | constructor].
Qed.

Lemma pool5_steady : steady (fresh_topology pool5) pool5.
Proof.
  eapply steady_check; [vm_compute; reflexivity | reflexivity |]. vm_compute. reflexivity.
Qed.

Lemma filled_only v i :
  read_at pool5 i k1 = Ok v → v = d1.
Proof.
  assert (∀ i, match read_at pool5 i k1 with Ok v => v = d1 | Err _ => True end) as H.
  { intros j. unfold read_at. do 3 (destruct j as [| j]; [vm_compute; exact eq_refl || exact I |]). exact I. }
  intros Hv. specialize (H i). by rewrite Hv in H.
Qed.

Lemma pool5_fits i v : read_at pool5 i k1 = Ok v → se_fits k1 v.
Proof. intros ->%filled_only. exact k1_d1_fits. Qed.

Lemma pool5_repair : repair_key k1 pool5 = (Ok (2, 0)%nat, pool6).
Proof. unfold pool6. apply run_fst. vm_compute. reflexivity. Qed.

Lemma repair_restores_copies_witness :
  ∃ copies : gset nat, size copies = 2%nat ∧ ∀ i, i ∈ copies → read_at pool6 i k1 = Ok d1.
Proof.
  destruct (repair_restores_copies k1 pool5 (Ok (2, 0)%nat) pool6 pool5_wf pool5_ready eq_refl pool5_fits pool5_repair)
    as (t & copies & v & _ & _ & _ & Hsize & _ & Hv & _ & Hr & _).
  exists copies. split; [exact Hsize |]. intros i Hi. rewrite Hr, decide_True by done.
  destruct Hv as [-> | [j Hj]]; [discriminate |]. by rewrite (filled_only v j Hj).
Defined.

Definition pool7 : pool (engine MapTable) := (repair_key k1 pool6).2.

Lemma repair_is_idempotent_witness : repair_key k1 pool6 = (Ok (0, 0)%nat, pool7) ∧ p_shards pool7 = p_shards pool6.
Proof.
  assert (repair_key k1 pool6 = (Ok (0, 0)%nat, pool7)) as H by (unfold pool7; apply run_fst; vm_compute; reflexivity).
  split; [exact H |].
  refine (proj2 (repair_is_idempotent k1 pool5 _ 2 pool6 (Ok (0, 0)%nat) pool7 pool5_wf pool5_ready eq_refl pool5_fits
    pool5_steady pool5_repair H)).
Defined.

(** ** Draining the heal queue *)

Definition pool8 : pool (engine MapTable) := set_mrf (hq_push k1 High HealQueue_default) pool5.
Definition pool9 : pool (engine MapTable) := (mrf_drain 5 pool8).2.

Lemma pool8_drain : mrf_drain 5 pool8 = (Ok (1, 0)%nat, pool9).
Proof. unfold pool9. apply run_fst. vm_compute. reflexivity. Qed.

Lemma drain_heals_or_keeps_witness :
  hq_dedup (p_mrf pool8) !! k1 = Some High ∧ hq_dedup (p_mrf pool9) !! k1 = None ∧
  ∃ p1 log p2 d, drain_run (drain_cap pool8) (p1, drain_start 3 1 [(k1, High)]) log (p2, d) ∧
    p_shards pool9 = p_shards p2 ∧ ∃ n, ((k1, High), Ok (n, 0%nat)) ∈ log.
Proof.
  split; [reflexivity |]. split; [vm_compute; reflexivity |].
  destruct (drain_heals_or_keeps 5 pool8 (Ok (1, 0)%nat) pool9 pool5_wf (hq_push_inv _ _ _ hq_inv_default) pool8_drain)
    as (batch & p1 & log & p2 & d & healed & Ht & _ & Hrun & Hr & Hp & Hlog & Hs & _).
  exists p1, log, p2, d. assert ((take_batch 5 pool8).1 = Ok [(k1, High)]) as Hb by (vm_compute; reflexivity).
  rewrite Ht in Hb. injection Hb as ->. split; [exact Hrun |]. split; [exact Hs |]. apply Hlog.
  injection Hr as _ Hd. symmetry in Hd. apply nil_length_inv in Hd. rewrite Hd, app_nil_r in Hp. rewrite Hp. left.
Defined.

(** Of two threads the first takes the request and the slots, and repairs. *)
Definition one_request : list (BlockKey * HealPriority) := [(k1, High)].
Definition drain0 : drain := drain_start 3 2 one_request.
Definition next (st : pool (engine MapTable) * drain) : pool (engine MapTable) * drain :=
  match worker_step 1 0 st.2 st.1 with (Ok d, p) => (p, d) | (Err _, p) => (p, st.2) end.
Definition after_steps (n : nat) : pool (engine MapTable) * drain := Nat.iter n next (pool5, drain0).

Lemma next_step st :
  match (worker_step 1 0 st.2 st.1).1 with Ok _ => existsb (Nat.eqb 0) (live st.2) | Err _ => false end = true →
  thread_step 1 st (next st).
Proof.
  unfold next. intros H. exists 0%nat. destruct (worker_step 1 0 st.2 st.1) as [[d |] p]; [| done]. split; [| done].
  simpl in H. apply existsb_exists in H as ([| w] & Hw & ?); [by apply list_elem_of_In | done].
Qed.

Lemma four_steps : nsteps (thread_step 1) 4 (pool5, drain0) (after_steps 4).
Proof.
  do 4 (eapply nsteps_l; [apply next_step; vm_compute; reflexivity |]). apply nsteps_O.
Qed.

(** The thread is at the repair; its key's two replicas are taken. *)
Lemma bulkhead_holds_witness :
  (∃ i, repairing_on (fresh_topology pool5) 2 i <$> dr_workers (after_steps 4).2 = [true; false]) ∧
  ∀ i, (length (filter (λ s, repairing_on (fresh_topology pool5) 2 i s = true) (dr_workers (after_steps 4).2)) ≤ 1)%nat.
Proof.
  split; [exists (nth 0 (pp_select k1 (fresh_topology pool5) 2) 0%nat); vm_compute; reflexivity |].
  exact (proj1 (bulkhead_holds 1 pool5 _ one_request 2 (after_steps 4).1 (after_steps 4).2 pool5_wf pool5_steady
    (rtc_nsteps_2 _ _ _ four_steps))).
Defined.

Lemma threads_finish_witness : ∃ st, worker_step 1 0 (after_steps 4).2 (after_steps 4).1 = (Ok st.2, st.1).
Proof.
  destruct (threads_finish 1 pool5 one_request 2 4 (after_steps 4).1 (after_steps 4).2 pool5_wf) as (_ & Hlive & _).
  - lia.
  - exact four_steps.
  - apply (Hlive 0%nat). vm_compute. left.
Defined.

(** ** Erasure coding *)

Definition ec3 : EcConfig := {| ec_data := 2; ec_parity := 1; ec_min_size := 16; ec_write_quorum := 3 |}.
Definition coded_cfg : PoolConfig :=
  {| replicas := 2; write_quorum := 2; free_space_cache_ttl := 5000000000;
     speculative_retry_after := Some 100000000; heal_parallelism := 4; heal_max_per_shard := 2;
     bg_throttle := BgThrottleConfig_default; pc_ec := Some ec3; pc_outboard := None; adaptive_hedge := true;
     disk_slow := DiskSlowConfig_default |}.

Definition pool10 : pool (engine MapTable) :=
  cached (pool_of coded_cfg (replicate 4 (fresh small_cfg)) [2%nat; 0%nat; 1%nat]).
Definition pool11 : pool (engine MapTable) := (pool_put k1 d1 pool10).2.
(** The shard that the placement ranks first is replaced. *)
Definition first_rank : ShardId :=
  match (replicas_for k1 pool11).1 with Ok (i :: _) => i | _ => 0%nat end.
Definition pool12 : pool (engine MapTable) :=
  set_shards (<[first_rank := fresh small_cfg]> (p_shards pool11)) pool11.
Definition pool13 : pool (engine MapTable) := (pool_get k1 pool12).2.

Lemma pool10_ready : Forall se_ready (p_shards pool10).
Proof. repeat (constructor; [exact fresh_small_ready |]). constructor. Qed.

Lemma pool10_steady : steady (fresh_topology pool10) pool10.
Proof. eapply steady_check; [vm_compute; reflexivity | reflexivity |]. vm_compute. reflexivity. Qed.
Lemma pool10_wf : pool_wf pool10.
Proof. intros c. vm_compute. intros [= <-]. reflexivity. Qed.

Lemma pool10_put : pool_put k1 d1 pool10 = (Ok tt, pool11).
Proof. unfold pool11. apply run_fst. vm_compute. reflexivity. Qed.
Lemma lost_replaced {E} `{SE : !ShardEngine E} key i s (p : pool E) :
  (∀ b, se_get s key ≠ Ok b) → lost key {[ i ]} p (set_shards (<[i := s]> (p_shards p)) p).
Proof.
  intros Hs. split; simpl.
  - done.
  - intros Hwf c Hc. simpl. rewrite length_insert. by apply Hwf.
  - intros t (c & Hc & Ht & Hall). by exists c.
  - intros j b ->%elem_of_singleton. unfold read_at. simpl.
    destruct (<[i := s]> (p_shards p) !! i) as [s' |] eqn:Hi; [| done].
    apply list_lookup_insert_Some in Hi as [(_ & <- & _) | [? _]]; [apply Hs | done].
  - intros j Hj%not_elem_of_singleton. unfold read_at. simpl. by rewrite list_lookup_insert_ne.
Qed.

Lemma pool12_lost : lost k1 {[ first_rank ]} pool11 pool12.
Proof. apply lost_replaced. intros b. vm_compute. discriminate. Qed.

Lemma d1_fits_code : ec_fits 2 1 d1.
Proof. split; [lia | lia | lia |]. split; vm_compute; reflexivity. Qed.

Lemma d1_pieces_fit pieces b : ec_encode d1 ec3 = Ok pieces → b ∈ pieces → se_fits k1 b.
Proof.
  intros H Hb.
  assert (match ec_encode d1 ec3 with Ok l => forallb (λ b, blen b <? 2 ^ 32) l | Err _ => false end = true) as Hall
    by (vm_compute; reflexivity).
  rewrite H, forallb_forall in Hall. split; [reflexivity |]. by apply Z.ltb_lt, Hall, list_elem_of_In.
Qed.

Lemma d1_min_size : ec_min_size ec3 <= blen d1.
Proof. vm_compute. discriminate. Qed.
Lemma ec3_total : (replicas coded_cfg <= ec_total ec3)%nat.
Proof. apply Nat.leb_le. reflexivity. Qed.
Lemma one_lost : (ec_data ec3 + size ({[ first_rank ]} : gset nat) <= ec_write_quorum ec3)%nat.
Proof. rewrite size_singleton. apply Nat.leb_le. reflexivity. Qed.
Lemma pool10_fresh i v : read_at pool10 i k1 ≠ Ok v.
Proof. unfold read_at. do 4 (destruct i as [| i]; [vm_compute; discriminate |]). vm_compute. discriminate. Qed.

Lemma ec_put_is_read_back_witness : pool_get k1 pool12 = (Ok d1, pool13).
Proof.
  destruct (pool_get k1 pool12) as [r p] eqn:Hget.
  pose proof (ec_put_is_read_back ec3 k1 d1 pool10 pool11 (fresh_topology pool10) {[ first_rank ]} pool12 r p
    pool10_wf pool10_ready eq_refl eq_refl xor_code_law d1_fits_code d1_min_size ec3_total d1_pieces_fit pool10_fresh
    pool10_steady pool10_put pool12_lost one_lost Hget) as ->.
  unfold pool13. by rewrite Hget.
Defined.
