(* ===== verification/Store.v ===== *)
(** * Two stores

    The pool is a block store; a map in memory is one that meets the whole
    contract, and that the examples use. *)

From Stdlib Require Import ZArith Lia Sorting.Sorted.
From stdpp Require Import base list gmap strings.
From S2P Require Import Prelude Domain Table Metrics Throttle HealQueue Latency DiskSlow Piece Erasure Verified PoolState Pool.
Open Scope Z_scope.

(** [impl BlockStore for Pool] *)
Definition pool_store {E : Type} `{SE : !ShardEngine E} `{PP : !PlacementPolicy} `{RS : !ReedSolomon} `{BO : !Bao}
    : BlockStore (pool E) := {|
  bs_put := pool_put;
  bs_get := pool_get;
  bs_stat := pool_stat;
  bs_has := pool_has;
  bs_delete := pool_delete;
  bs_list prefix after limit := λ p, (pool_list p prefix after limit, p);
|}.

(** ** A map as a store *)

Abbreviation mem := (gmap bytes bytes).

Section MemStore.
Implicit Types (m : mem) (k : BlockKey).

Definition mem_matches (prefix : bytes) (after : option BlockKey) (e : bytes * bytes) : Prop :=
  prefix `prefix_of` e.1 ∧ match after with Some a => bytes_lt a e.1 | None => True end.
#[global] Instance mem_matches_dec prefix after e : Decision (mem_matches prefix after e).
Proof. unfold mem_matches. destruct after; apply _. Defined.

Definition mem_page m (prefix : bytes) (after : option BlockKey) (limit : nat) : list (BlockKey * Z) :=
  (λ e, (e.1, blen e.2)) <$> take limit (filter (mem_matches prefix after) (map_iter m)).

#[global] Instance mem_store : BlockStore mem := {|
  bs_put k d := λ m, (Ok tt, <[k := d]> m);
  bs_get k := λ m, (match m !! k with Some d => Ok d | None => Err NotFound end, m);
  bs_stat k := λ m, (match m !! k with Some d => Ok (blen d) | None => Err NotFound end, m);
  bs_has k := λ m, (Ok (bool_decide (is_Some (m !! k))), m);
  bs_delete k := λ m, (Ok tt, delete k m);
  bs_list prefix after limit := λ m, (Ok (mem_page m prefix after limit), m);
|}.

Lemma mem_page_fst m prefix after limit :
  (mem_page m prefix after limit).*1 = (take limit (filter (mem_matches prefix after) (map_iter m))).*1.
Proof. unfold mem_page. by rewrite <-list_fmap_compose. Qed.

Lemma mem_page_ok m prefix after limit :
  list_page (λ k sz, ∃ v, m !! k = Some v ∧ sz = blen v) prefix after limit (mem_page m prefix after limit).
Proof.
  set (l := filter (mem_matches prefix after) (map_iter m)).
  assert (StronglySorted bytes_lt l.*1) as Hs by apply sorted_fst_filter, map_iter_sorted.
  split; rewrite ?mem_page_fst; fold l.
  - by apply sorted_take.
  - intros k sz ([k' v] & [= -> ->] & Hin%elem_of_take_in)%list_elem_of_fmap. unfold l in Hin.
    apply list_elem_of_filter in Hin as [[Hp Ha] Hin%elem_of_map_iter]. split_and!; [by exists v | done | done].
  - unfold mem_page. rewrite length_fmap. fold l. rewrite length_take. lia.
  - intros k sz ((v & Hv & _) & Hp & Ha). unfold mem_page. rewrite length_fmap. fold l. apply sorted_take_complete; [done |].
    apply list_elem_of_fmap. exists (k, v). split; [done |]. apply list_elem_of_filter.
    by rewrite elem_of_map_iter.
Qed.

#[global, program] Instance mem_store_spec : BlockStoreSpec mem := {|
  bs_ok _ := True;
  bs_ready _ := True;
  bs_val m k := m !! k;
  bs_takes _ _ _ := True;
  bs_drops _ _ := True;
|}.
Next Obligation. done. Qed.
Next Obligation. intros m k _. unfold wp. simpl. by destruct (m !! k). Qed.
Next Obligation. intros m k _. unfold wp. simpl. split_and!; [done | done |]. by destruct (m !! k); [eexists |]. Qed.
Next Obligation. done. Qed.
Next Obligation. intros m k d _ _. split; [done |]. intros k'. apply lookup_insert. Qed.
Next Obligation. intros m k _ _. split; [done |]. intros k'. apply lookup_delete. Qed.
Next Obligation. intros m prefix after limit _ _. split_and!; [done | done |]. apply mem_page_ok. Qed.
End MemStore.

(** The memory store is always ready. *)
Lemma mem_ready (m : mem) : bs_ok m → bs_ready m.
Proof. done. Qed.
Lemma mem_ok (m : mem) : bs_ok m.
Proof. exact I. Qed.
Lemma mem_takes (m : mem) k d : bs_takes m k d.
Proof. exact I. Qed.
Lemma mem_drops (m : mem) k : bs_drops m k.
Proof. exact I. Qed.
