(* ===== verification/MigrateFacts.v ===== *)
(** * Migration keeps every body

    Through all three phases of the migration of a key, whatever fails and
    wherever it stops, the body stays readable: the head ranks keep their
    copies until the tail has its pieces, and one head piece makes up [k] of
    them. *)

From Stdlib Require Import ZArith Lia.
From stdpp Require Import base list gmap sets strings.
From S2P Require Import Prelude Domain Metrics Throttle HealQueue Latency DiskSlow Piece Erasure Verified PoolState Pool PoolFacts PoolRead PoolEcRead PoolWrite PoolEcWrite Shard Repair RepairFacts Migrate.

(** The first element with a property. *)
Lemma least_index {A} (P : A → bool) (l : list A) :
  (∃ x, x ∈ l ∧ P x = true) →
  ∃ r x, l !! r = Some x ∧ P x = true ∧ ∀ r' x', (r' < r)%nat → l !! r' = Some x' → P x' = false.
Proof.
  intros (x & Hx & HP). destruct (list_find (λ x, P x = true) l) as [[r y] |] eqn:Hf.
  - apply list_find_Some in Hf as (Hr & HPy & Hmin). exists r, y. split_and!; [done | done |].
    intros r' x' Hlt Hx'. apply not_true_is_false. by eapply Hmin.
  - apply list_find_None in Hf. rewrite Forall_forall in Hf. by apply Hf in Hx.
Qed.

Section Migrated.
Context {E : Type} `{SE : !ShardEngine E, DS : !DiskSpec E} `{PP : !PlacementPolicy} `{PPS : !PlacementSpec}
  `{RS : !ReedSolomon} `{BO : !Bao}.
Context (key : BlockKey).
Implicit Types (p : pool E) (D : gset nat).
Local Abbreviation PM := (M (pool E) DomainError).

(** ** Steps on one key *)

(** Since [p0], the shards of [D] were written to, at [key] only. *)
Record moved p0 D p : Prop := {
  mv_cfg : p_cfg p = p_cfg p0;
  mv_len : length (p_shards p) = length (p_shards p0);
  mv_wf : pool_wf p;
  mv_steady : ∀ t, steady t p0 → steady t p;
  mv_ok : Forall se_ok (p_shards p);
  mv_clean : ∀ i, i ∉ D → p_shards p !! i = p_shards p0 !! i;
  mv_other : ∀ i k', k' ≠ key → read_at p i k' = read_at p0 i k';
}.

Lemma moved_start p : pool_wf p → Forall se_ready (p_shards p) → moved p ∅ p.
Proof. intros Hwf Hr. split; try done. eapply Forall_impl; [exact Hr | apply se_ready_ok]. Qed.

Lemma moved_still p0 D p p' : moved p0 D p → still p p' → moved p0 D p'.
Proof.
  intros [Hc Hl Hw Ht Ho Hcl Hot] S. pose proof (still_shards _ _ S) as Hs. split.
  - by rewrite (still_cfg _ _ S).
  - by rewrite Hs.
  - by apply (still_wf _ _ S).
  - intros t H0. by apply (still_steady _ _ _ S), Ht.
  - by rewrite Hs.
  - by rewrite Hs.
  - intros i k' Hk. rewrite (read_at_still _ _ _ _ S). by apply Hot.
Qed.

Lemma moved_mrf p0 D p q : moved p0 D p → moved p0 D (set_mrf q p).
Proof. intros []. by split. Qed.

(** One shard changes at [key] only. *)
Lemma moved_set p0 D p i s s' p1 p' :
  moved p0 D p → p_shards p !! i = Some s → still p p1 → still (set_shards (<[i := s']> (p_shards p1)) p1) p' →
  se_ok s' → (∀ k', k' ≠ key → se_get s' k' = se_get s k') →
  moved p0 ({[i]} ∪ D) p' ∧ (∀ j, j ≠ i → read_at p' j key = read_at p j key) ∧ read_at p' i key = se_get s' key.
Proof.
  intros HM Hs S1 S2 Hok Hk. pose proof (still_shards _ _ S1) as Hs1. pose proof (still_shards _ _ S2) as Hs2. simpl in Hs2. rewrite Hs1 in Hs2.
  assert (i < length (p_shards p))%nat as Hi by (by eapply lookup_lt_Some).
  assert (∀ j k', read_at p' j k' = if decide (j = i) then se_get s' k' else read_at p j k') as Hread.
  { intros j k'. unfold read_at. rewrite Hs2. destruct (decide (j = i)) as [-> | Hne].
    - by rewrite list_lookup_insert_eq.
    - by rewrite list_lookup_insert_ne. }
  split; [| split; [intros j Hne; by rewrite Hread, decide_False | by rewrite Hread, decide_True]].
  destruct (moved_still _ _ _ _ HM S1) as [Hc Hl Hw Ht Ho Hcl Hot]. eapply moved_still; [| exact S2].
  split; simpl; rewrite ?Hs1.
  - done.
  - rewrite length_insert. apply (mv_len _ _ _ HM).
  - intros c Hc'. simpl in *. rewrite length_insert, <-Hs1. by apply Hw.
  - done.
  - apply Forall_insert; [apply (mv_ok _ _ _ HM) | done].
  - intros j [Hj1 Hj]%not_elem_of_union. rewrite list_lookup_insert_ne by set_solver. by apply (mv_clean _ _ _ HM).
  - intros j k' Hne. rewrite <-(mv_other _ _ _ HM) by done. unfold read_at. simpl.
    destruct (decide (j = i)) as [-> | Hji]; [rewrite list_lookup_insert_eq, Hs by done; by apply Hk | by rewrite list_lookup_insert_ne].
Qed.

(** A piece for a shard that was not yet written to. *)
Lemma wp_put_piece p0 D p i b obj :
  moved p0 D p → i ∉ D → (i < length (p_shards p0))%nat → Forall se_ready (p_shards p0) → se_fits key b →
  (0 <= obj < 2 ^ 64)%Z →
  wp (shard_put_meta i key b (Some obj)) (λ r p', moved p0 ({[i]} ∪ D) p' ∧
    (∀ j, j ≠ i → read_at p' j key = read_at p j key) ∧
    read_at p' i key = match r with Ok _ => Ok b | Err _ => read_at p i key end) p.
Proof.
  intros HM Hi Hlt Hr Hfit Hobj. destruct (lookup_lt_is_Some_2 (p_shards p) i) as [s Hs]; [by rewrite (mv_len _ _ _ HM) |].
  assert (se_ready s) as Hrs.
  { rewrite Forall_forall in Hr. apply Hr, (list_elem_of_lookup_2 _ i). by rewrite <-(mv_clean _ _ _ HM). }
  eapply wp_mono; [by apply (leg_put_meta key id (λ _, b) obj Hobj i p s) |].
  intros r p' (p1 & s' & S1 & S2 & Hok & Hres).
  assert ((∀ k', k' ≠ key → se_get s' k' = se_get s k') ∧
    se_get s' key = match r with Ok _ => Ok b | Err _ => se_get s key end) as [Hk Hg].
  { destruct r; [| split; intros; apply Hres]. split; [intros k' Hne |]; rewrite Hres; by case_decide. }
  destruct (moved_set _ _ _ _ _ _ _ _ HM Hs S1 S2 Hok Hk) as (HM' & Hj & ->). split; [done |]. split; [done |].
  rewrite Hg. unfold read_at. by rewrite Hs.
Qed.

(** What a list of shards became: each reads as before or as [now] says. *)
Definition became (now : ShardId → DomainResult bytes → Prop) (ids : list ShardId) p p' : Prop :=
  (∀ i, i ∉ ids → read_at p' i key = read_at p i key) ∧
  ∀ i, i ∈ ids → read_at p' i key = read_at p i key ∨ now i (read_at p' i key).

Lemma became_nil now p : became now [] p p.
Proof. split; [done |]. intros i Hi. by apply not_elem_of_nil in Hi. Qed.

Lemma became_cons now i ids p p1 p2 :
  i ∉ ids → (∀ j, j ≠ i → read_at p1 j key = read_at p j key) →
  (read_at p1 i key = read_at p i key ∨ now i (read_at p1 i key)) →
  became now ids p1 p2 → became now (i :: ids) p p2.
Proof.
  intros Hi Hj H1 [Ho Hn]. split.
  - intros j [Hji Hjids]%not_elem_of_cons. by rewrite Ho, Hj.
  - intros j [-> | Hjids]%elem_of_cons; [by rewrite Ho |].
    destruct (decide (j = i)) as [-> |]; [done |]. destruct (Hn j Hjids) as [Heq | ?]; [left | by right]. by rewrite Heq, Hj.
Qed.

(** Removal: a shard reads as before, or nothing. *)
Definition gone (_ : ShardId) (r : DomainResult bytes) : Prop := r = Err NotFound.

Lemma wp_drop_one p0 D p i :
  moved p0 D p →
  wp (shard_delete i key) (λ _ p', ∃ D', moved p0 D' p' ∧ (∀ j, j ≠ i → read_at p' j key = read_at p j key) ∧
    (read_at p' i key = read_at p i key ∨ gone i (read_at p' i key))) p.
Proof.
  intros HM. unfold shard_delete, wp, on_shard. destruct (p_shards p !! i) as [s |] eqn:Hs; [| exists D; auto].
  assert (se_ok s) as Hok.
  { pose proof (mv_ok _ _ _ HM) as Ho. rewrite Forall_forall in Ho. by eapply Ho, list_elem_of_lookup_2. }
  pose proof (se_delete_spec s key Hok) as Hdel. unfold wp in Hdel. destruct (se_delete key s) as [r s']. simpl in *.
  destruct Hdel as (Hok' & _ & Hr).
  destruct (moved_set p0 D p i s s' p (set_shards (<[i := s']> (p_shards p)) p) HM Hs) as (HM' & Hj & Hi); try done.
  { intros k' Hne. destruct r; rewrite Hr; [by case_decide | done]. }
  eexists. split; [exact HM' |]. split; [done |]. rewrite Hi. unfold gone, read_at. rewrite Hs.
  destruct r; rewrite Hr; [right; by rewrite decide_True | by left].
Qed.

Lemma wp_drop_at p0 D ids p :
  moved p0 D p → NoDup ids →
  wp (drop_at key ids) (λ r p', r = Ok tt ∧ (∃ D', moved p0 D' p') ∧ became gone ids p p') p.
Proof.
  unfold drop_at. revert D p. induction ids as [| i ids IH]; intros D p HM Hnd; simpl.
  { apply wp_ret. split; [done |]. split; [by exists D | apply became_nil]. }
  apply NoDup_cons in Hnd as [Hi Hnd]. do 2 wp_step. eapply wp_mono; [by apply (wp_drop_one p0 D) |].
  intros r p1 (D1 & HM1 & Hj & H1). apply wp_ret. eapply wp_mono; [by apply (IH D1 p1) |].
  intros r2 p2 (-> & HM2 & Hb). split; [done |]. split; [done |]. by eapply became_cons.
Qed.

(** ** The legs *)

Context (k m : nat) (body : bytes) (pieces : list bytes) (Hps : piece_set k m body pieces).
Local Abbreviation piece r := (nth r pieces []).

(** A leg's shard reads its piece. *)
Definition its_piece (legs : list (nat * ShardId)) (i : ShardId) (r : DomainResult bytes) : Prop :=
  ∃ n, (n, i) ∈ legs ∧ r = Ok (piece n).
Definition fresh_legs p0 D (legs : list (nat * ShardId)) : Prop :=
  NoDup (map snd legs) ∧ ∀ n i, (n, i) ∈ legs → (i ∉ D) ∧ (i < length (p_shards p0))%nat ∧ (n < k + m)%nat.

Lemma fresh_next p0 D n i legs :
  fresh_legs p0 D ((n, i) :: legs) →
  (i ∉ D) ∧ (i < length (p_shards p0))%nat ∧ (n < k + m)%nat ∧ (i ∉ map snd legs) ∧ fresh_legs p0 ({[i]} ∪ D) legs.
Proof.
  intros [Hnd Hl]. simpl in Hnd. apply NoDup_cons in Hnd as [Hi Hnd]. destruct (Hl n i ltac:(left)) as (? & ? & ?). split_and!; try done.
  split; [done |]. intros n' i' Hin. destruct (Hl n' i' ltac:(by right)) as (? & ? & ?). split_and!; try done.
  apply not_elem_of_union. split; [| done]. intros ->%elem_of_singleton. apply Hi.
  by apply (list_elem_of_fmap_2 snd _ (n', i)).
Qed.

Lemma its_piece_cons n i legs ids p p' :
  became (its_piece legs) ids p p' → became (its_piece ((n, i) :: legs)) ids p p'.
Proof.
  intros [Ho Hn]. split; [done |]. intros j Hj. destruct (Hn j Hj) as [? | (n' & ? & ?)]; [by left | right].
  exists n'. split; [by right | done].
Qed.

Lemma piece_fits n : (∀ b, b ∈ pieces → se_fits key b) → (n < k + m)%nat → se_fits key (piece n).
Proof. intros Hfit Hn. by eapply Hfit, list_elem_of_lookup_2, (nth_piece k m body pieces Hps). Qed.

(** The tail: with [true] every leg has its piece. *)
Lemma wp_write_tail p0 D legs obj p :
  moved p0 D p → fresh_legs p0 D legs → Forall se_ready (p_shards p0) → (∀ b, b ∈ pieces → se_fits key b) →
  (0 <= obj < 2 ^ 64)%Z →
  wp (write_tail key pieces obj legs) (λ r p', ∃ D', moved p0 D' p' ∧ (∀ i, i ∈ D' → i ∈ D ∨ i ∈ map snd legs) ∧
    became (its_piece legs) (map snd legs) p p' ∧
    (r = Ok true → ∀ n i, (n, i) ∈ legs → read_at p' i key = Ok (piece n))) p.
Proof.
  intros HM Hl Hr Hfit Hobj. revert D p HM Hl. induction legs as [| [n i] legs IH]; intros D p HM Hl; simpl.
  { apply wp_ret. exists D. split_and!; [done | by left | apply became_nil |]. intros _ n i Hi. by apply not_elem_of_nil in Hi. }
  destruct (fresh_next _ _ _ _ _ Hl) as (HiD & Hlt & Hn & Hil & Hl'). wp_step. eapply wp_mono.
  { apply (wp_put_piece p0 D p i (piece n) obj); try done. by apply piece_fits. }
  intros r p1 (HM1 & Hj & Hi).
  assert (∀ D' p2, moved p0 D' p2 → (∀ j, j ∈ D' → j ∈ {[i]} ∪ D ∨ j ∈ map snd legs) → became (its_piece legs) (map snd legs) p1 p2 →
    ∃ D', moved p0 D' p2 ∧ (∀ j, j ∈ D' → j ∈ D ∨ j ∈ i :: map snd legs) ∧ became (its_piece ((n, i) :: legs)) (i :: map snd legs) p p2) as Hwrap.
  { intros D' p2 HM2 HD' Hb. exists D'. split; [done |]. split.
    - intros j Hj'. rewrite elem_of_cons. destruct (HD' j Hj') as [[->%elem_of_singleton | ?]%elem_of_union | ?]; auto.
    - apply (became_cons _ i _ p p1 p2); [done | done | | by apply its_piece_cons].
      rewrite Hi. destruct r; [right; exists n; split; [left | done] | by left]. }
  assert (became (its_piece legs) (map snd legs) p1 p1) as Hsame by (split; [done | by left]).
  destruct r as [[] | e].
  2: { destruct (Hwrap _ _ HM1 ltac:(by left) Hsame) as (D' & ? & ? & ?). exists D'. split_and!; done. }
  wp_step. apply wp_shard_get. intros p2 S2. rewrite Hi. cbv iota. rewrite bool_decide_eq_true_2 by done.
  pose proof (moved_still _ _ _ _ HM1 S2) as HM2. eapply wp_mono; [by apply (IH ({[i]} ∪ D) p2) |].
  intros r p3 (D3 & HM3 & HD3 & [Hb3 Hn3] & Hall).
  assert (became (its_piece legs) (map snd legs) p1 p3) as Hb13.
  { split; [intros j Hj'; by rewrite Hb3, (read_at_still _ _ _ _ S2) |]. intros j Hj'.
    destruct (Hn3 j Hj') as [-> | ?]; [left; apply (read_at_still _ _ _ _ S2) | by right]. }
  destruct (Hwrap _ _ HM3 HD3 Hb13) as (D' & ? & ? & ?). exists D'. split_and!; try done.
  intros Hok n' i' [[= -> ->] | Hin]%elem_of_cons; [| by apply Hall].
  rewrite Hb3, (read_at_still _ _ _ _ S2), Hi by done. done.
Qed.

(** The head: a leg has its piece, or reads as before. *)
Lemma wp_write_head p0 D legs obj p :
  moved p0 D p → fresh_legs p0 D legs → Forall se_ready (p_shards p0) → (∀ b, b ∈ pieces → se_fits key b) →
  (0 <= obj < 2 ^ 64)%Z →
  wp (miter (write_head key pieces obj) legs) (λ r p', r = Ok tt ∧ (∃ D', moved p0 D' p') ∧
    became (its_piece legs) (map snd legs) p p') p.
Proof.
  intros HM Hl Hr Hfit Hobj. revert D p HM Hl. induction legs as [| [n i] legs IH]; intros D p HM Hl; simpl.
  { apply wp_ret. split; [done |]. split; [by exists D | apply became_nil]. }
  destruct (fresh_next _ _ _ _ _ Hl) as (HiD & Hlt & Hn & Hil & Hl'). wp_step. unfold write_head at 1. wp_step. simpl. eapply wp_mono.
  { apply (wp_put_piece p0 D p i (piece n) obj); try done. by apply piece_fits. }
  intros r p1 (HM1 & Hj & Hi).
  assert (∀ q p2, still p1 p2 → wp (miter (write_head key pieces obj) legs) (λ r p', r = Ok tt ∧ (∃ D', moved p0 D' p') ∧
    became (its_piece ((n, i) :: legs)) (i :: map snd legs) p p') (set_mrf q p2)) as Hrest.
  { intros q p2 S2. eapply wp_mono; [apply (IH ({[i]} ∪ D)); [by apply moved_mrf; eapply moved_still | done] |].
    intros r2 p3 (-> & HM3 & [Hb3 Hn3]). split; [done |]. split; [done |].
    apply (became_cons _ i _ p p1 p3); [done | done | |].
    - rewrite Hi. destruct r; [right; exists n; split; [left | done] | by left].
    - apply its_piece_cons. split; [intros j Hj'; rewrite Hb3 by done; by apply (read_at_still p1 p2) |].
      intros j Hj'. destruct (Hn3 j Hj') as [-> | ?]; [left; by apply (read_at_still p1 p2) | by right]. }
  destruct r as [[] | e].
  - wp_step. apply wp_shard_get. intros p2 S2. rewrite Hi. cbv iota. rewrite bool_decide_eq_true_2 by done. apply wp_ret.
    replace p2 with (set_mrf (p_mrf p2) p2) by (by destruct p2). by apply Hrest.
  - unfold enqueue_heal, mrf_push. wp_step. eapply wp_calm; [apply calm_count |]. intros [] p2 _ S2. wp_step. by apply Hrest.
Qed.

(** ** Readable all the way *)

Context (p0 : pool E) (targets : list ShardId) (heads : nat).

(** What a reader needs to get the body from [p]. *)
Definition settled p : Prop :=
  mixed key body pieces p ∧ ranked key pieces p targets ∧ readable key k body pieces p targets.

(** Only what can be read counts. *)
Lemma settled_oks p p' : settled p → (∀ i b, read_at p' i key = Ok b ↔ read_at p i key = Ok b) → settled p'.
Proof.
  intros (Hm & Hr & Hd) Hs. split_and!.
  - intros i b ?%Hs. by apply (Hm i).
  - intros r i b j Hi ?%Hs. by apply (Hr r i b).
  - destruct Hd as [(A & HA & ?) | (? & r & i & Hi & Hb & Hn)]; [left | right].
    + exists A. split; [| done]. intros j Hj. destruct (HA j Hj) as (i & b & ? & ?). exists i, b. by rewrite Hs.
    + split; [done |]. exists r, i. rewrite Hs. split_and!; [done | done |]. intros r' i' b ? ?. rewrite Hs. by apply (Hn r').
Qed.
Lemma settled_still p p' : still p p' → settled p → settled p'.
Proof. intros S Hset. apply (settled_oks p); [done |]. intros i b. by rewrite (read_at_still p p'). Qed.

Context (Hset : settled p0) (Hplain : parse_piece_header body = None).
Context (Hnd : NoDup targets) (Hlen : length targets = (k + m)%nat).

(** Every shard reads as before, or nothing, or the piece of its rank. *)
Definition scattered p : Prop :=
  (∀ i, i ∉ targets → read_at p i key = read_at p0 i key ∨ read_at p i key = Err NotFound) ∧
  ∀ r i, targets !! r = Some i →
    read_at p i key = read_at p0 i key ∨ read_at p i key = Err NotFound ∨ read_at p i key = Ok (piece r).

Lemma rank_piece r i : targets !! r = Some i → pieces !! r = Some (piece r).
Proof. intros Hi. apply (nth_piece k m body pieces Hps). rewrite <-Hlen. by eapply lookup_lt_Some. Qed.

Lemma scattered_ranked p : scattered p → mixed key body pieces p ∧ ranked key pieces p targets.
Proof.
  destruct Hset as (Hmix & Hrk & _). intros [Hfar Hnear]. split.
  - intros i b Hb. destruct (decide (i ∈ targets)) as [Hin | Hout].
    + apply list_elem_of_lookup in Hin as [r Hi]. destruct (Hnear r i Hi) as [Heq | [Heq | Heq]]; rewrite Heq in Hb.
      * by apply (Hmix i).
      * done.
      * injection Hb as <-. right. exists r. by eapply rank_piece.
    + destruct (Hfar i Hout) as [Heq | Heq]; rewrite Heq in Hb; [by apply (Hmix i) | done].
  - intros r i b j Hi Hb Hj. destruct (Hnear r i Hi) as [Heq | [Heq | Heq]]; rewrite Heq in Hb.
    + by apply (Hrk r i b j).
    + done.
    + injection Hb as <-. eapply (piece_index k m body pieces Hps); [by eapply rank_piece | done].
Qed.

(** Copies, and nothing else, among the first [n] ranks. *)
Lemma readable_copy n p :
  (∃ i, i ∈ take n targets ∧ reads p i key = true) →
  (∀ i v, i ∈ take n targets → read_at p i key = Ok v → v = body) → readable key k body pieces p targets.
Proof.
  clear Hlen Hnd Hps Hset. intros Hex Hcopies. right. split; [done |].
  destruct (least_index (λ i, reads p i key) _ Hex) as (r & i & Hi & Hr & Hmin). exists r, i.
  pose proof (list_elem_of_lookup_2 _ _ _ Hi) as Hin. apply lookup_take_Some in Hi as [Hi Hrn]. split; [done |].
  apply reads_true in Hr as [v Hv]. split; [by rewrite <-(Hcopies i v Hin Hv) |].
  intros r' i' b Hlt Hi' Hb. assert (take n targets !! r' = Some i') as Ht by (apply lookup_take_Some; split; [done | lia]).
  pose proof (Hmin r' i' Hlt Ht) as Hf. by eapply reads_false in Hf.
Qed.

(** All pieces of the tail and one of the head are [k] pieces. *)
Lemma readable_pieces p r0 i0 :
  (heads ≤ S m)%nat → (∀ r i, (heads ≤ r)%nat → targets !! r = Some i → read_at p i key = Ok (piece r)) →
  (r0 < heads)%nat → targets !! r0 = Some i0 → read_at p i0 key = Ok (piece r0) →
  readable key k body pieces p targets.
Proof.
  intros Hm Htail Hr0 Hi0 Hb0. left. exists ({[r0]} ∪ set_seq heads (k + m - heads)). split.
  - intros j [->%elem_of_singleton | Hj%elem_of_set_seq]%elem_of_union.
    + exists i0, (piece r0). split; [done | by eapply rank_piece].
    + destruct (lookup_lt_is_Some_2 targets j) as [i Hi]; [lia |]. exists i, (piece j).
      split; [apply Htail; [lia | done] | by eapply rank_piece].
  - rewrite size_union, size_singleton, size_set_seq; [lia |]. apply disjoint_singleton_l. rewrite elem_of_set_seq. lia.
Qed.

Lemma elem_of_tail n i : (n, i) ∈ drop heads (imap pair targets) ↔ targets !! n = Some i ∧ (heads ≤ n)%nat.
Proof.
  rewrite list_elem_of_lookup. setoid_rewrite lookup_drop. setoid_rewrite list_lookup_imap. split.
  - intros [j Hj]. apply fmap_Some in Hj as (x & Hx & [= -> ->]). split; [done | lia].
  - intros [Hn Hle]. exists (n - heads)%nat. replace (heads + (n - heads))%nat with n by lia. by rewrite Hn.
Qed.
Lemma elem_of_head n i : (n, i) ∈ take heads (imap pair targets) ↔ targets !! n = Some i ∧ (n < heads)%nat.
Proof.
  rewrite list_elem_of_lookup. setoid_rewrite lookup_take_Some. setoid_rewrite list_lookup_imap. split.
  - intros (j & Hj & Hlt). by apply fmap_Some in Hj as (x & Hx & [= -> ->]).
  - intros [Hn Hle]. exists n. by rewrite Hn.
Qed.
Lemma tail_shards : map snd (drop heads (imap pair targets)) = drop heads targets.
Proof. rewrite <-skipn_map. by rewrite imap_pair_snd. Qed.
Lemma head_shards : map snd (take heads (imap pair targets)) = take heads targets.
Proof. rewrite <-firstn_map. by rewrite imap_pair_snd. Qed.

Lemma rank_unique n r i : targets !! n = Some i → targets !! r = Some i → n = r.
Proof. intros Hn Hr. by eapply NoDup_lookup. Qed.
Lemma head_or_tail r i : targets !! r = Some i →
  ((r < heads)%nat ∧ i ∈ take heads targets ∧ (i ∉ drop heads targets)) ∨
  ((heads ≤ r)%nat ∧ (i ∉ take heads targets) ∧ i ∈ drop heads targets).
Proof.
  intros Hi. assert (∀ j, take heads targets !! j = Some i → j = r ∧ (j < heads)%nat) as Ht.
  { intros j [Hj ?]%lookup_take_Some. split; [by eapply rank_unique | done]. }
  assert (∀ j, drop heads targets !! j = Some i → heads + j = r)%nat as Hd.
  { intros j. rewrite lookup_drop. intros Hj. by eapply rank_unique. }
  destruct (decide (r < heads)%nat); [left | right]; (split; [lia |]); split.
  - apply (list_elem_of_lookup_2 _ r). by apply lookup_take_Some.
  - intros [j Hj]%list_elem_of_lookup. apply Hd in Hj. lia.
  - intros [j Hj]%list_elem_of_lookup. apply Ht in Hj. lia.
  - apply (list_elem_of_lookup_2 _ (r - heads)). rewrite lookup_drop. by replace (heads + (r - heads))%nat with r by lia.
Qed.

(** ** The three phases *)

(** A copy is on a head rank, and the tail has nothing. *)
Context (Hcopy : ∃ i, i ∈ take heads targets ∧ read_at p0 i key = Ok body).
Context (Htail0 : ∀ i, i ∈ drop heads targets → reads p0 i key = false).

Lemma tail_unread i v : i ∈ drop heads targets → read_at p0 i key ≠ Ok v.
Proof. intros Hi. by apply reads_false, Htail0. Qed.

(** The tail refused a piece, and was cleared. *)
Lemma settled_rollback p p1 p2 :
  still p0 p → became (its_piece (drop heads (imap pair targets))) (drop heads targets) p p1 →
  became gone (drop heads targets) p1 p2 → settled p2.
Proof.
  intros S [Ho1 Hn1] [Ho2 Hn2]. pose proof (λ i, read_at_still _ _ i key S) as Hs.
  assert (∀ i, i ∉ drop heads targets → read_at p2 i key = read_at p0 i key) as Hout by (intros i Hi; by rewrite Ho2, Ho1, Hs).
  assert (scattered p2) as Hsc.
  { split.
    - intros i Hi. left. apply Hout. intros Hin. apply Hi. rewrite <-(take_drop heads targets). apply elem_of_app. by right.
    - intros r i Hi. destruct (head_or_tail r i Hi) as [(_ & _ & Hi') | (_ & _ & Hi')]; [left; by apply Hout |].
      destruct (Hn2 i Hi') as [-> | Hg]; [| by right; left].
      destruct (Hn1 i Hi') as [-> | (n & [Hn _]%elem_of_tail & Hp)]; [left; by rewrite Hs |].
      right. right. by rewrite Hp, (rank_unique n r i). }
  destruct (scattered_ranked p2 Hsc) as [? ?]. split_and!; [done | done |].
  destruct Hset as (_ & _ & [(A & HA & HkA) | (_ & r & i & Hi & Hb & Hmin)]); [left | right; split; [done |]].
  - exists A. split; [| done]. intros j Hj. destruct (HA j Hj) as (i & b & Hb & Hpj). exists i, b. split; [| done].
    rewrite Hout; [done |]. intros Hin. by apply (tail_unread i b Hin).
  - assert (∀ r' i', (r' ≤ r)%nat → targets !! r' = Some i' → read_at p2 i' key = read_at p0 i' key) as Hsame.
    { intros r' i' Hle Hi'. apply Hout. intros Hin. destruct (head_or_tail r i Hi) as [(? & _) | (_ & _ & Hin')].
      - by destruct (head_or_tail r' i' Hi') as [(_ & _ & ?) | (? & _)]; [| lia].
      - by apply (tail_unread i body Hin'). }
    exists r, i. split_and!; [done | by rewrite (Hsame r i) |]. intros r' i' b Hlt Hi'. rewrite (Hsame r' i') by (done || lia).
    by apply (Hmin r' i' b).
Qed.

(** The tail has its pieces, the head its pieces or copies; the other shards
    were cleared. *)
Lemma settled_done p p1 p2 p3 ids :
  (heads ≤ S m)%nat → (∀ i, i ∈ ids → i ∉ targets) →
  still p0 p → became (its_piece (drop heads (imap pair targets))) (drop heads targets) p p1 →
  (∀ n i, (n, i) ∈ drop heads (imap pair targets) → read_at p1 i key = Ok (piece n)) →
  became (its_piece (take heads (imap pair targets))) (take heads targets) p1 p2 →
  became gone ids p2 p3 → settled p3.
Proof.
  intros Hm Hids S [Ho1 _] Htail [Ho2 Hn2] [Ho3 Hn3]. pose proof (λ i, read_at_still _ _ i key S) as Hs.
  assert (∀ r i, targets !! r = Some i → read_at p3 i key = read_at p2 i key) as H3.
  { intros r i Hi. apply Ho3. intros Hin. apply (Hids i Hin). by eapply list_elem_of_lookup_2. }
  assert (∀ r i, (heads ≤ r)%nat → targets !! r = Some i → read_at p3 i key = Ok (piece r)) as Ht.
  { intros r i Hr Hi. destruct (head_or_tail r i Hi) as [[? _] | (_ & Hi' & _)]; [lia |].
    rewrite (H3 r i Hi), Ho2 by done. by apply Htail, elem_of_tail. }
  assert (∀ r i, (r < heads)%nat → targets !! r = Some i →
    read_at p3 i key = read_at p0 i key ∨ read_at p3 i key = Ok (piece r)) as Hh.
  { intros r i Hr Hi. destruct (head_or_tail r i Hi) as [(_ & Hi' & Hnt) | [? _]]; [| lia]. rewrite (H3 r i Hi).
    destruct (Hn2 i Hi') as [-> | (n & [Hn _]%elem_of_head & Hp)]; [left; by rewrite Ho1, Hs |].
    right. by rewrite Hp, (rank_unique n r i). }
  assert (scattered p3) as Hsc.
  { split.
    - intros i Hi. assert (read_at p2 i key = read_at p0 i key) as H2.
      { rewrite Ho2, Ho1, Hs; [done | |]; intros Hin; apply Hi; rewrite <-(take_drop heads targets); apply elem_of_app; auto. }
      destruct (decide (i ∈ ids)) as [Hin | Hin]; [| left; by rewrite Ho3].
      destruct (Hn3 i Hin) as [-> | Hg]; [by left | by right].
    - intros r i Hi. destruct (Nat.lt_ge_cases r heads) as [Hr | Hr]; [| right; right; by apply Ht].
      destruct (Hh r i Hr Hi) as [? | ?]; [by left | by right; right]. }
  destruct (scattered_ranked p3 Hsc) as [Hmix Hrk]. split_and!; [done | done |].
  destruct (list_find (λ e, read_at p3 e.2 key = Ok (piece e.1)) (take heads (imap pair targets))) as [[j [r i]] |] eqn:Hf.
  - apply list_find_Some in Hf as (Hj & Hb & _). apply list_elem_of_lookup_2, elem_of_head in Hj as [Hi Hr].
    by apply (readable_pieces p3 r i).
  - apply list_find_None in Hf. rewrite Forall_forall in Hf.
    assert (∀ i, i ∈ take heads targets → ∃ r, targets !! r = Some i ∧ (r < heads)%nat ∧
      read_at p3 i key = read_at p0 i key ∧ read_at p3 i key ≠ Ok (piece r)) as Hheads.
    { intros i Hi. apply list_elem_of_lookup in Hi as [r [Hi Hr]%lookup_take_Some]. exists r. split_and!; [done | done | |].
      - destruct (Hh r i Hr Hi) as [? | Hb]; [done |]. by destruct (Hf (r, i)); [apply elem_of_head |].
      - apply (Hf (r, i)). by apply elem_of_head. }
    apply (readable_copy heads).
    + destruct Hcopy as (i & Hi & Hb). exists i. split; [done |]. destruct (Hheads i Hi) as (r & _ & _ & Hs3 & _).
      apply reads_true. exists body. by rewrite Hs3.
    + intros i v Hi Hb. destruct (Hheads i Hi) as (r & Hr & _ & _ & Hno). destruct (Hmix i v Hb) as [[-> _] | [j Hj]]; [done |].
      pose proof (Hrk r i v j Hr Hb Hj) as <-. destruct Hno. by rewrite Hb, (nth_lookup_Some _ _ _ _ Hj).
Qed.

Lemma tail_nodup : NoDup (drop heads targets).
Proof. rewrite <-(take_drop heads targets) in Hnd. by apply NoDup_app in Hnd as (_ & _ & ?). Qed.
Lemma head_nodup : NoDup (take heads targets).
Proof. rewrite <-(take_drop heads targets) in Hnd. by apply NoDup_app in Hnd as (? & _). Qed.

Lemma fresh_tail : targets_ok p0 targets → fresh_legs p0 ∅ (drop heads (imap pair targets)).
Proof.
  intros [_ Hin]. split; [rewrite tail_shards; apply tail_nodup |]. intros n i [Hn _]%elem_of_tail.
  split_and!; [set_solver | by eapply Hin, list_elem_of_lookup_2 | rewrite <-Hlen; by eapply lookup_lt_Some].
Qed.
Lemma fresh_head D : targets_ok p0 targets → (∀ i, i ∈ D → i ∈ drop heads targets) → fresh_legs p0 D (take heads (imap pair targets)).
Proof.
  intros [_ Hin] HD. split; [rewrite head_shards; apply head_nodup |]. intros n i [Hn Hlt]%elem_of_head.
  split_and!; [| by eapply Hin, list_elem_of_lookup_2 | rewrite <-Hlen; by eapply lookup_lt_Some].
  intros Hi. by destruct (head_or_tail n i Hn) as [(_ & _ & []) | (? & _)]; [apply HD | lia].
Qed.

Lemma wp_migrate_body ec p :
  k = ec_data ec → m = ec_parity ec → ec_encode body ec = Ok pieces → (heads ≤ S m)%nat →
  pool_wf p0 → Forall se_ready (p_shards p0) → targets_ok p0 targets → (∀ b, b ∈ pieces → se_fits key b) → still p0 p →
  wp (migrate_body key ec targets heads body) (λ _ p', (∃ D, moved p0 D p') ∧ settled p') p.
Proof.
  intros Hk Hm Henc Hle Hwf Hr Htok Hfit S. unfold migrate_body. wp_step. wp_step. rewrite Henc.
  pose proof (ps_fits _ _ _ _ Hps) as [_ _ _ Hobj]. assert (0 <= blen body < 2 ^ 64)%Z as Ho by lia.
  wp_step. eapply wp_mono.
  { apply (wp_write_tail p0 ∅ (drop heads (imap pair targets)) (blen body) p); try done.
    - eapply moved_still; [by apply moved_start | done].
    - by apply fresh_tail. }
  intros r p1 (D1 & HM1 & HD1 & Hb1 & Htail). rewrite tail_shards in Hb1, HD1.
  assert (∀ A (c : PM A), (∀ p2, wp c (λ _ p', p' = p2) p2) →
    wp (mthen (drop_at key (map snd (drop heads (imap pair targets)))) (λ _, c)) (λ _ p', (∃ D, moved p0 D p') ∧ settled p') p1) as Hback.
  { intros A c Hc. wp_step. rewrite tail_shards. eapply wp_mono; [apply (wp_drop_at p0 D1); [done | apply tail_nodup] |].
    intros r2 p2 (-> & HM2 & Hb2). eapply wp_mono; [apply Hc |]. intros r3 p3 ->. split; [done |].
    by apply (settled_rollback p p1 p2). }
  destruct r as [[] | e]; [| apply Hback; intros p2; by apply wp_ret | apply Hback; intros p2; by apply wp_throw].
  wp_step. eapply wp_mono.
  { apply (wp_write_head p0 D1 (take heads (imap pair targets)) (blen body) p1); try done. apply fresh_head; [done |].
    intros i Hi. destruct (HD1 i Hi) as [? | ?]; [set_solver | done]. }
  intros r p2 (-> & [D2 HM2] & Hb2). rewrite head_shards in Hb2. do 2 wp_step. wp_step. eapply wp_mono.
  { apply (wp_drop_at p0 D2); [done |]. unfold others. apply NoDup_filter, NoDup_seq. }
  intros r p3 (-> & [D3 HM3] & Hb3). wp_step. eapply wp_calm; [apply calm_bg_acquire |]. intros [] p4 _ S4. apply wp_ret.
  split; [exists D3; by eapply moved_still |]. apply (settled_still p3); [done |].
  apply (settled_done p p1 p2 p3 (others p2 targets)); try done; [by intros i [? _]%elem_of_others |]. by apply Htail.
Qed.
End Migrated.

Lemma header_len b h : parse_piece_header b = Some h → (0 <= ph_logical_len h < 2 ^ 64)%Z.
Proof.
  unfold parse_piece_header. repeat (case_match; try done). intros [= <-]. simpl. apply (le_at_bound _ 8).
Qed.

Section Migration.
Context {E : Type} `{SE : !ShardEngine E, DS : !DiskSpec E, ERS : !EraEngineSpec E} `{PP : !PlacementPolicy} `{PPS : !PlacementSpec}
  `{RS : !ReedSolomon} `{BO : !Bao}.
Implicit Types (p : pool E).
Local Abbreviation PM := (M (pool E) DomainError).

(** ** The decision *)

Lemma wp_look_shard {A} i (f : E → DomainResult A) (Q : DomainResult A → pool E → Prop) p :
  (∀ r, Q r p) → wp (look_shard i f) Q p.
Proof. intros HQ. unfold wp, look_shard. by destruct (p_shards p !! i). Qed.

Lemma wp_any_holds key ids p :
  wp (any_holds key ids) (λ r p', p' = p ∧ r = Ok (existsb (λ i, holds p i key) ids)) p.
Proof.
  induction ids as [| i ids IH]; simpl; [by apply wp_ret |]. wp_step. apply wp_has_or_false.
  destruct (holds p i key); [by apply wp_ret | exact IH].
Qed.

(** The body that one of the shards reads. *)
Lemma wp_get_among key ids p p0 :
  still p0 p →
  wp (get_any key ids : PM _) (λ r p', ∃ o, r = Ok o ∧ still p0 p' ∧
    ∀ v, o = Some v → ∃ i, i ∈ ids ∧ read_at p0 i key = Ok v) p.
Proof.
  revert p. induction ids as [| i ids IH]; intros p S; simpl; [apply wp_ret; by exists None |].
  wp_step. apply wp_shard_get. intros p1 S1. rewrite (read_at_still _ _ _ _ S).
  destruct (read_at p0 i key) as [v | e] eqn:Hr.
  - apply wp_ret. exists (Some v). split_and!; [done | by etransitivity |]. intros v' [= <-]. exists i. split; [left | done].
  - eapply wp_mono; [apply IH; by etransitivity |]. intros r p2 (o & -> & S2 & Ho). exists o. split_and!; [done | done |].
    intros v Hv. destruct (Ho v Hv) as (j & Hj & ?). exists j. split; [by right | done].
Qed.

(** The shards changed, and what they read did not. *)
Definition same_reads key p0 p : Prop := (∃ D, moved key p0 D p) ∧ ∀ i, read_at p i key = read_at p0 i key.

Lemma same_reads_still key p0 p p' : same_reads key p0 p → still p p' → same_reads key p0 p'.
Proof.
  intros [[D HM] Hs] S. split; [exists D; by eapply moved_still |]. intros i. by rewrite (read_at_still _ _ _ _ S).
Qed.

Lemma wp_set_era key p0 i o p : same_reads key p0 p → (0 <= o < 2 ^ 64)%Z →
  wp (on_shard i (se_set_obj_logical key o)) (λ _ p', same_reads key p0 p') p.
Proof.
  intros [[D HM] Hs] Ho. unfold wp, on_shard. destruct (p_shards p !! i) as [s |] eqn:Hi; [| split; eauto].
  assert (se_ok s) as Hok.
  { pose proof (mv_ok _ _ _ _ HM) as H. rewrite Forall_forall in H. by eapply H, list_elem_of_lookup_2. }
  pose proof (se_set_obj_spec s key o Hok Ho) as Hset. unfold wp in Hset. destruct (se_set_obj_logical key o s) as [r s'].
  destruct Hset as [Hok' Hsame].
  destruct (moved_set key p0 D p i s s' p (set_shards (<[i := s']> (p_shards p)) p) HM Hi) as (HM' & Hj & Hi'); try done.
  split; [by eexists |]. intros j. destruct (decide (j = i)) as [-> | Hne]; [| by rewrite Hj].
  rewrite <-Hs. etransitivity; [exact Hi' |]. etransitivity; [exact (Hsame key) |]. unfold read_at. by rewrite Hi.
Qed.

Lemma wp_backfill key ids acc p0 p :
  same_reads key p0 p →
  wp (mfold (backfill key) acc ids : PM Z) (λ r p', same_reads key p0 p' ∧ ∃ n, r = Ok n) p.
Proof.
  revert acc p. induction ids as [| i ids IH]; intros acc p S; simpl; [apply wp_ret; eauto |].
  wp_step. unfold backfill at 1. wp_step. apply wp_look_shard. intros st.
  destruct st as [[sz [n |]] | e]; [apply wp_ret; by apply IH | | apply wp_ret; by apply IH].
  wp_step. apply wp_shard_get. intros p1 S1. pose proof (same_reads_still _ _ _ _ S S1) as S01.
  destruct (read_at p i key) as [v | e]; [| apply wp_ret; by apply IH].
  wp_step. destruct (parse_piece_header v) as [h |] eqn:Hh; [| do 2 wp_step; by apply IH].
  wp_step. eapply wp_mono; [apply wp_set_era; [done | by eapply header_len] |]. intros r p2 S2.
  destruct r as [[] | e]; [| do 2 wp_step; by apply IH ..].
  eapply wp_calm; [apply calm_count |]. intros [] p3 _ S3. apply wp_ret. apply IH. by eapply same_reads_still.
Qed.

(** Copies alone are as readable as can be. *)
Lemma settled_copies key k m body pieces (Hps : piece_set k m body pieces) targets p :
  (∀ i v, read_at p i key = Ok v → v = body) → parse_piece_header body = None →
  (∃ i, i ∈ targets ∧ read_at p i key = Ok body) → settled key k body pieces targets p.
Proof.
  intros Hmirror Hplain (i & Hi & Hb). split_and!.
  - intros j b Hj. left. by apply Hmirror in Hj as ->.
  - intros r j b n _ ->%Hmirror Hn. by rewrite (ps_header _ _ _ _ Hps _ _ Hn) in Hplain.
  - apply (readable_copy key k body pieces targets Hplain (length targets)); rewrite firstn_all; [| by eauto].
    exists i. split; [done |]. apply reads_true. eauto.
Qed.

(** A body that can be read before the migration can be read after it. *)
Lemma wp_migrate_key ec key k m body pieces t p :
  k = ec_data ec → m = ec_parity ec → piece_set k m body pieces → ec_encode body ec = Ok pieces →
  pool_wf p → Forall se_ready (p_shards p) → parse_piece_header body = None →
  (replicas (p_cfg p) ≤ S m)%nat → (∀ b, b ∈ pieces → se_fits key b) → steady t p →
  settled key k body pieces (pp_select key t (k + m)) p →
  wp (migrate_key key ec) (λ _ p', (∃ D, moved key p D p') ∧ settled key k body pieces (pp_select key t (k + m)) p') p.
Proof.
  intros Hk Hm Hps Henc Hwf Hr Hplain Hrep Hfit Ht Hset. unfold migrate_key, ec_total. rewrite <-Hk, <-Hm.
  set (targets := pp_select key t (k + m)) in *.
  assert (∀ p', same_reads key p p' → (∃ D, moved key p D p') ∧ settled key k body pieces targets p') as Hsame.
  { intros p' [HM Hs]. split; [done |]. apply (settled_oks _ _ _ _ _ p); [done |]. intros i b. by rewrite Hs. }
  assert (same_reads key p p) as S0 by (split; [exists ∅; by apply moved_start | done]).
  do 2 wp_step. wp_step. apply wp_ranking_steady; [done |]. intros ids p1 Hpl S1 Hids. rewrite (Hids t Ht) in *. fold targets in Hpl |- *.
  destruct (placed_targets _ _ _ _ Hpl) as [Htok Hle]. pose proof (same_reads_still _ _ _ _ S0 S1) as S01.
  destruct (Nat.ltb_spec (length targets) (k + m)) as [_ | Hge]; [apply wp_throw; by apply Hsame |].
  assert (Forall se_ok (p_shards p1)) as Hok1.
  { rewrite (still_shards _ _ S1). eapply Forall_impl; [exact Hr | apply se_ready_ok]. }
  cbv zeta. set (heads := Nat.min (replicas (p_cfg p)) (k + m)).
  wp_step. eapply wp_mono; [by apply wp_any_holds |]. intros r p2 (-> & ->). destruct (existsb _ _) eqn:Hcoded.
  { wp_step. eapply wp_mono; [by apply (wp_backfill key targets 0 p) |].
    intros r p3 (S3 & n & ->). wp_step. destruct (0 <? n)%Z; [| do 2 wp_step; by apply Hsame].
    eapply wp_calm; [apply calm_bg_acquire |]. intros [] p4 _ S4. apply wp_ret. apply Hsame. by eapply same_reads_still. }
  wp_step. eapply wp_mono; [by apply wp_split_holders |].
  intros r p2 [-> ->]. simpl. destruct (filter _ (take heads targets)) as [| h holders] eqn:Hh; [apply wp_throw; by apply Hsame |].
  do 2 wp_step. apply wp_look_shard. intros sz. apply wp_ret.
  destruct (match sz with Ok sz => (sz <? ec_min_size ec)%Z | Err _ => false end); [apply wp_ret; by apply Hsame |].
  wp_step. eapply wp_mono; [apply (wp_get_among key (h :: holders) p1 p S1) |].
  intros r p3 (o & -> & S3 & Hlk). pose proof (same_reads_still _ _ _ _ S0 S3) as S03.
  destruct o as [v |]; [| apply wp_throw; by apply Hsame]. destruct (Hlk v eq_refl) as (i & Hi & Hv).
  rewrite <-Hh in Hi. apply list_elem_of_filter in Hi as [_ Hi].
  destruct (proj1 Hset i v Hv) as [[-> _] | [j Hj]]; [| by rewrite (ps_header _ _ _ _ Hps _ _ Hj); apply wp_ret, Hsame].
  rewrite Hplain. destruct (blen body <? ec_min_size ec)%Z; [apply wp_ret; by apply Hsame |].
  apply (wp_migrate_body key k m body pieces Hps p targets heads); try done.
  - apply Htok.
  - lia.
  - by exists i.
  - intros j Hj. rewrite <-(reads_still _ _ _ _ S1). apply not_true_is_false. intros Hrd%reads_holds; [| done].
    assert (existsb (λ i, holds p1 i key) (drop heads targets) = true) as Hex; [| congruence].
    apply existsb_exists. exists j. split; [by apply list_elem_of_In | done].
  - unfold heads. lia.
Qed.

(** A body that is settled is read. *)
Lemma wp_get_settled ec key k m body pieces t p :
  k = ec_data ec → m = ec_parity ec → piece_set k m body pieces → pool_wf p → pc_ec (p_cfg p) = Some ec →
  (replicas (p_cfg p) ≤ S m)%nat → steady t p → settled key k body pieces (pp_select key t (k + m)) p →
  wp (pool_get key) (λ r _, r = Ok body) p.
Proof.
  intros Hk Hm Hps Hwf Hec Hrep Ht Hset. apply wp_pool_get. intros p3 S3. unfold get_inner. do 2 wp_step.
  rewrite (still_cfg _ _ S3), Hec. destruct (settled_still _ _ _ _ _ _ _ S3 Hset) as (Hmix & Hrk & Hrd).
  pose proof (ps_fits _ _ _ _ Hps) as [Hk0 _ _ _]. eapply wp_mono.
  { apply (wp_get_ec_aware key k m body pieces Hps ec p3); try done.
    - by apply (still_wf _ _ S3).
    - rewrite (still_cfg _ _ S3). lia.
    - intros ids _ Hids. by rewrite (Hids t) by apply (still_steady _ _ _ S3), Ht. }
  by intros r0 p5 [-> _].
Qed.

(** C7. Migration loses no body, as long as a pool keeps no more copies than the
    parity plus one and its topology does not expire: a body that is stored as
    copies is read by every get after its migration, whatever that ended with
    and whichever writes and removals the shards refused. No other key is
    touched. (With more copies it may be lost to the gets:
    copies_are_shadowed_by_a_piece in WalkDemo.) *)
Theorem migration_keeps_the_body ec key body t p o p1 :
  pool_wf p → Forall se_ready (p_shards p) → pc_ec (p_cfg p) = Some ec →
  rs_law (ec_data ec) (ec_parity ec) → ec_fits (ec_data ec) (ec_parity ec) body →
  parse_piece_header body = None → (replicas (p_cfg p) ≤ S (ec_parity ec))%nat →
  (∀ pieces b, ec_encode body ec = Ok pieces → b ∈ pieces → se_fits key b) →
  (∀ i v, read_at p i key = Ok v → v = body) → steady t p →
  (∃ i, i ∈ pp_select key t (ec_total ec) ∧ read_at p i key = Ok body) →
  migrate_key key ec p = (o, p1) →
  (∀ i k', k' ≠ key → read_at p1 i k' = read_at p i k') ∧ ∀ r p2, pool_get key p1 = (r, p2) → r = Ok body.
Proof.
  intros Hwf Hr Hec Hlaw Hf Hplain Hrep Hfit Hmirror Ht Hsrc Hrun.
  destruct (encode_piece_set ec body Hlaw Hf) as (pieces & Henc & Hps).
  assert (∀ b, b ∈ pieces → se_fits key b) as Hfit' by (intros b; by apply Hfit).
  pose proof (settled_copies key _ _ body pieces Hps _ p Hmirror Hplain Hsrc) as Hset0.
  destruct (wp_run _ _ _ _ _ (wp_migrate_key ec key _ _ body pieces t p eq_refl eq_refl Hps Henc Hwf Hr Hplain Hrep Hfit' Ht Hset0) Hrun)
    as ([D HM] & Hset).
  split; [apply (mv_other _ _ _ _ HM) |]. intros r p2 Hget.
  assert (wp (pool_get key) (λ r _, r = Ok body) p1) as Hg; [| exact (wp_run _ _ _ _ _ Hg Hget)].
  apply (wp_get_settled ec key _ _ body pieces t p1 eq_refl eq_refl Hps); rewrite ?(mv_cfg _ _ _ _ HM); try done.
  - apply (mv_wf _ _ _ _ HM).
  - by apply (mv_steady _ _ _ _ HM).
Qed.
End Migration.
