(* ===== verification/MemShard.v ===== *)
(** * A disk in memory

    The abstract disk: a map of bodies with cursors, always ready and with
    room for anything. It keeps the contract of a shard and that of the walks;
    the runs of the walks and of the background loops use it.

    Second part: A worn disk, on which the records of a set of keys are there
    and cannot be read. *)

From Stdlib Require Import ZArith Lia.
From stdpp Require Import base list gmap strings.
From S2P Require Import Prelude Domain Table Piece Latency DiskSlow Shard Erasure Verified Metrics Throttle HealQueue PoolState Pool Store.
Open Scope Z_scope.

Record mem_disk := { md_bodies : gmap bytes bytes; md_cursors : gmap string BlockKey }.
Definition mem_disk_of (m : gmap bytes bytes) : mem_disk := {| md_bodies := m; md_cursors := ∅ |}.

Definition md_write (f : gmap bytes bytes → gmap bytes bytes) : M mem_disk DomainError unit := λ s,
  (Ok tt, {| md_bodies := f (md_bodies s); md_cursors := md_cursors s |}).

#[global] Instance mem_shard : ShardEngine mem_disk := {|
  se_put k d := md_write (insert k d);
  se_get s k := match md_bodies s !! k with Some d => Ok d | None => Err NotFound end;
  se_has s k := Ok (bool_decide (is_Some (md_bodies s !! k)));
  se_delete k := md_write (delete k);
  se_list s prefix after limit := Ok (mem_page (md_bodies s) prefix after limit);
  se_usage _ := Ok {| total_bytes := 100; free_bytes := 50 |};
  se_flush := mret tt;
  se_scrub_step s after limit :=
    let keys := (mem_page (md_bodies s) [] after limit).*1 in
    Ok {| ss_checked := Z.of_nat (length keys); ss_bytes := 0; ss_corrupt := []; ss_last_key := last keys;
          ss_done := (length keys <? limit)%nat |};
  se_stat s k := match md_bodies s !! k with Some d => Ok (blen d) | None => Err NotFound end;
  se_save_cursor n pos := λ s,
    (Ok tt, {| md_bodies := md_bodies s;
               md_cursors := match pos with Some k => <[n := k]> (md_cursors s) | None => delete n (md_cursors s) end |});
  se_load_cursor s n := Ok (md_cursors s !! n);
  se_put_meta k d _ := md_write (insert k d);
  se_stat_obj s k := match md_bodies s !! k with Some d => Ok (blen d, None) | None => Err NotFound end;
  se_set_obj_logical _ _ := mret false;
|}.

#[program] Definition mem_disk_spec : DiskSpec mem_disk := {|
  se_ok _ := True;
  se_ready _ := True;
  se_fits _ _ := True;
|}.
Next Obligation. done. Qed.
Next Obligation.
  intros s k d _ _. split; [done |]. intros k'. simpl. rewrite lookup_insert. by case_decide.
Qed.
Next Obligation.
  intros s k d o _ _ _. split; [done |]. intros k'. simpl. rewrite lookup_insert. by case_decide.
Qed.
Next Obligation.
  intros s k _. split; [done |]. split; [done |]. intros k'. simpl. rewrite lookup_delete. by case_decide.
Qed.
Next Obligation. intros s k d _. simpl. by destruct (md_bodies s !! k). Qed.

#[global, program] Instance mem_shard_spec : ShardEngineSpec mem_disk := {|
  se_disk := mem_disk_spec;
  se_shown s k sz := ∃ v, md_bodies s !! k = Some v ∧ sz = blen v;
|}.
Next Obligation. intros s k _. simpl. destruct (md_bodies s !! k); eauto. Qed.
Next Obligation. intros s k _. simpl. by destruct (md_bodies s !! k). Qed.
Next Obligation. intros s k _. simpl. by destruct (md_bodies s !! k). Qed.
Next Obligation. intros s prefix after limit _ _. eexists. split; [done |]. apply mem_page_ok. Qed.
Next Obligation.
  intros s k _. simpl. split.
  - intros (sz & v & -> & _). eauto.
  - intros (d & Hd). destruct (md_bodies s !! k) as [v |]; [| done]. by exists (blen v), v.
Qed.

#[global] Instance mem_walk_spec : WalkEngineSpec mem_disk.
Proof.
  split.
  - intros s _. done.
  - intros s n pos _. split; [done |]. split; [done |]. simpl. split; [| intros n' Hn]; destruct pos.
    + by rewrite lookup_insert_eq.
    + by rewrite lookup_delete_eq.
    + by rewrite lookup_insert_ne.
    + by rewrite lookup_delete_ne.
Qed.

#[global] Instance mem_era_spec : EraEngineSpec mem_disk.
Proof. split. by intros s k o _ _. Qed.

#[global] Instance mem_sturdy : SturdyDisk mem_disk.
Proof. by split. Qed.
Lemma mem_disks_ok (l : list mem_disk) : Forall se_ok l.
Proof. by apply Forall_true. Qed.

(** It needs no maintenance, and calls no key corrupt. *)
#[global] Instance mem_maint : MaintEngine mem_disk := maint_default mem_disk.
#[global] Instance mem_maint_spec : MaintEngineSpec mem_disk.
Proof. apply (Build_MaintEngineSpec _ _ _ _ (λ _, True)); [by intros s ratio _ _ | by intros s _]. Defined.
#[global] Instance mem_sturdy_maint : SturdyMaint mem_disk.
Proof. by split. Qed.
#[global] Instance mem_scrub_spec : ScrubEngineSpec mem_disk.
Proof. split. intros s after limit st _ [= <-]. split; [constructor |]. by intros k ?%not_elem_of_nil. Qed.

(** ** A disk that rots

    The same disk with some records that cannot be read any more: they are
    listed and counted, the scrub finds them, and a write replaces them. *)

Record worn_disk := { wn_disk : mem_disk; wn_rotten : gset bytes }.
Definition worn (m : gmap bytes bytes) (rotten : gset bytes) : worn_disk := {| wn_disk := mem_disk_of m; wn_rotten := rotten |}.

Definition wn_run {A} (key : option BlockKey) (c : M mem_disk DomainError A) : M worn_disk DomainError A := λ s,
  let r := c (wn_disk s) in
  (r.1, {| wn_disk := r.2; wn_rotten := match key with Some k => wn_rotten s ∖ {[k]} | None => wn_rotten s end |}).
Definition wn_get (s : worn_disk) (k : BlockKey) : DomainResult bytes :=
  if decide (k ∈ wn_rotten s) then
    match se_get (wn_disk s) k with Ok _ => Err (Corrupt "crc mismatch") | Err e => Err e end
  else se_get (wn_disk s) k.

#[global] Instance worn_shard : ShardEngine worn_disk := {|
  se_put k d := wn_run (Some k) (se_put k d);
  se_get := wn_get;
  se_has s := se_has (wn_disk s);
  se_delete k := wn_run (Some k) (se_delete k);
  se_list s := se_list (wn_disk s);
  se_usage s := se_usage (wn_disk s);
  se_flush := wn_run None se_flush;
  se_scrub_step s after limit :=
    let keys := (mem_page (md_bodies (wn_disk s)) [] after limit).*1 in
    Ok {| ss_checked := Z.of_nat (length keys); ss_bytes := 0; ss_corrupt := filter (λ k, k ∈ wn_rotten s) keys;
          ss_last_key := last keys; ss_done := (length keys <? limit)%nat |};
  se_stat s := se_stat (wn_disk s);
  se_save_cursor n pos := wn_run None (se_save_cursor n pos);
  se_load_cursor s := se_load_cursor (wn_disk s);
  se_put_meta k d o := wn_run (Some k) (se_put_meta k d o);
  se_stat_obj s := se_stat_obj (wn_disk s);
  se_set_obj_logical k o := wn_run None (se_set_obj_logical k o);
|}.

Lemma wn_get_ok s k d : wn_get s k = Ok d ↔ k ∉ wn_rotten s ∧ se_get (wn_disk s) k = Ok d.
Proof. unfold wn_get. case_decide; [| naive_solver]. destruct (se_get _ k); naive_solver. Qed.

(** A write to [key] that the inner disk makes. *)
Lemma wn_reads (s : worn_disk) k (r : DomainResult bytes) m :
  reads_update (wn_disk s) k r m →
  reads_update s k r {| wn_disk := m; wn_rotten := wn_rotten s ∖ {[k]} |}.
Proof.
  intros Hu k'. simpl. unfold wn_get. cbn [wn_disk wn_rotten]. rewrite (Hu k'). destruct (decide (k = k')) as [<- | Hne].
  - rewrite decide_False by set_solver. done.
  - by rewrite (decide_ext (k' ∈ wn_rotten s ∖ {[k]}) (k' ∈ wn_rotten s)) by set_solver.
Qed.

#[global, program] Instance worn_spec : DiskSpec worn_disk := {|
  se_ok _ := True;
  se_ready _ := True;
  se_fits _ _ := True;
|}.
Next Obligation. done. Qed.
Next Obligation. intros s k d _ _. split; [done |]. apply wn_reads. by apply (se_put_spec (DiskSpec := mem_disk_spec) (wn_disk s) k d). Qed.
Next Obligation. intros s k d o _ _ Ho. split; [done |]. apply wn_reads. by apply (se_put_meta_spec (DiskSpec := mem_disk_spec) (wn_disk s) k d o). Qed.
Next Obligation. intros s k _. split; [done |]. split; [done |]. apply wn_reads. by apply (se_delete_spec (DiskSpec := mem_disk_spec) (wn_disk s) k). Qed.
Next Obligation. intros s k d _ [_ Hd]%wn_get_ok. exact (se_held_spec (wn_disk s) k d I Hd). Qed.

#[global] Instance worn_sturdy : SturdyDisk worn_disk.
Proof. by split. Qed.
#[global] Instance worn_walk_spec : WalkEngineSpec worn_disk.
Proof.
  split.
  - intros s _. done.
  - intros s n pos _. split; [done |]. split; [done |]. by apply (se_save_cursor_spec (wn_disk s) n pos).
Qed.
#[global] Instance worn_era_spec : EraEngineSpec worn_disk.
Proof. split. by intros s k o _ _. Qed.
#[global] Instance worn_maint : MaintEngine worn_disk := maint_default worn_disk.
#[global] Instance worn_maint_spec : MaintEngineSpec worn_disk.
Proof. apply (Build_MaintEngineSpec _ _ _ _ (λ _, True)); [by intros s ratio _ _ | by intros s _]. Defined.
#[global] Instance worn_sturdy_maint : SturdyMaint worn_disk.
Proof. by split. Qed.
#[global] Instance worn_scrub_spec : ScrubEngineSpec worn_disk.
Proof.
  split. intros s after limit st _ [= <-]. cbn [ss_corrupt]. split.
  - apply NoDup_filter, sorted_keys_NoDup. by apply (lp_sorted _ _ _ _ _ (mem_page_ok (md_bodies (wn_disk s)) [] after limit)).
  - intros k [Hk _]%list_elem_of_filter d [Hno _]%wn_get_ok. done.
Qed.
