(* ===== verification/WalkDemo.v ===== *)
(** * Runs of the walks

    A resilver of disks in memory, and what a batch of zero does.

    Second part: Runs of the migration and of the repair of pieces. *)

From Stdlib Require Import ZArith Lia Strings.Byte.
From stdpp Require Import base list gmap strings sets.
From S2P Require Import Prelude F64 Domain Table Piece Segment SegmentFacts Writer Engine EngineGc EngineInv EngineOps EngineGcFacts Instances EngineProps Latency DiskSlow Placement Shard Erasure Verified Metrics Throttle HealQueue PoolState Pool PoolFacts PoolRead PoolEcRead PoolWrite PoolEcWrite Repair RepairFacts Migrate PoolKeep ResilverFacts PoolDemo HealDemo Store MigrateFacts MemShard.
Open Scope Z_scope.

(** Two keys with one copy each, on the first disk. *)
Definition key_a : BlockKey := [x61].
Definition key_b : BlockKey := [x62].
Definition first_disk : mem_disk := mem_disk_of (<[key_a := [x01]]> {[key_b := [x02; x03]]}).
Definition thin_pool : pool mem_disk :=
  (pool_topology (pool_of (mirror_cfg 2) [first_disk; mem_disk_of ∅; mem_disk_of ∅] [])).2.

Lemma thin_wf : pool_wf thin_pool.
Proof. intros c. vm_compute. intros [= <-]. reflexivity. Qed.
Lemma thin_steady : steady (fresh_topology thin_pool) thin_pool.
Proof. eapply steady_check; [vm_compute; reflexivity | reflexivity |]. vm_compute. reflexivity. Qed.

Lemma thin_keys k : readable_key thin_pool k → k ∈ [key_a; key_b].
Proof.
  intros (i & v & Hv). unfold read_at in Hv. destruct i as [| [| [| i]]]; try done.
  change (match md_bodies first_disk !! k with Some d => Ok d | None => Err NotFound end = Ok v) in Hv.
  unfold first_disk in Hv. cbn [mem_disk_of md_bodies] in Hv. destruct (decide (k = key_a)) as [-> |]; [left |].
  destruct (decide (k = key_b)) as [-> |]; [right; left |].
  by rewrite lookup_insert_ne, lookup_singleton_ne in Hv.
Qed.

Definition thin_run := resilver_full 3 1 thin_pool.

Lemma thin_resilver : thin_run = (thin_run.1, thin_run.2).
Proof. apply surjective_pairing. Qed.

(** Both keys have two copies afterwards. *)
Lemma resilver_restores_every_copy_witness :
  (∃ copies, NoDup copies ∧ length copies = 2%nat ∧ ∀ i, i ∈ copies → ∃ v, read_at thin_run.2 i key_a = Ok v) ∧
  (∃ copies, NoDup copies ∧ length copies = 2%nat ∧ ∀ i, i ∈ copies → ∃ v, read_at thin_run.2 i key_b = Ok v).
Proof.
  assert (thin_run.1 = Ok (Some {| rr_scanned := 2; rr_repaired := 2; rr_errors := 0; rr_last_key := None; rr_done := true |}))
    as Hrun by (vm_compute; reflexivity).
  assert (∀ s, p_shards thin_pool !! 0%nat = Some s → se_load_cursor s "resilver" = Ok None) as Hcur by (intros s [= <-]; reflexivity).
  assert (Nat.lt 0 1) as H01 by lia. assert (Nat.lt (length [key_a; key_b]) 3) as Hf by (simpl; lia).
  destruct (resilver_restores_every_copy (fresh_topology thin_pool) None [key_a; key_b] 3 1 thin_pool _ _
    thin_wf (mem_disks_ok _) eq_refl thin_steady H01 Hcur thin_keys Hf thin_resilver) as [_ Hr].
  destruct (Hr _ Hrun) as (rep & keys & [= <-] & _ & _ & _ & Hk & Hall).
  assert (∀ k, readable_key thin_pool k →
    ∃ copies, NoDup copies ∧ length copies = 2%nat ∧ ∀ i, i ∈ copies → ∃ v, read_at thin_run.2 i k = Ok v) as Hboth.
  { intros k Hkey. destruct (Hall eq_refl k (proj2 (Hk k) (conj Hkey I))) as (copies & _ & Hnd & Hl & Hc).
    exists copies. split_and!; [exact Hnd | | exact Hc]. rewrite Hl. vm_compute. reflexivity. }
  split; apply Hboth.
  - exists 0%nat, [x01]. reflexivity.
  - exists 0%nat, [x02; x03]. reflexivity.
Defined.

(** A batch of zero reports that it is done and has looked at nothing. *)
Example empty_batch_is_done :
  (resilver_full 3 0 thin_pool).1 =
  Ok (Some {| rr_scanned := 0; rr_repaired := 0; rr_errors := 0; rr_last_key := None; rr_done := true |}).
Proof. vm_compute. reflexivity. Qed.

(** * Runs of the migration and of the repair of pieces

    A migration during which a disk refuses the write of a head piece, one with
    more copies than the code has spare pieces; a repair of a lost piece, and
    the two lost pieces that no repair sees. *)

(** Copies on the two first ranks, shards 2 and 0; the index of shard 0 fails. *)
Definition copied : pool (engine MapTable) :=
  cached (pool_of coded_cfg [failing filled; fresh small_cfg; filled; fresh small_cfg] []).
Definition migrated : pool (engine MapTable) := (migrate_key k1 ec3 copied).2.

Lemma ready_failing e : ready e → ready (failing e).
Proof. intros [Hi Hw Hc Hf Hm Hb]. split; try done. by destruct Hi; split. Qed.

Lemma copied_wf : pool_wf copied.
Proof. intros c. vm_compute. intros [= <-]. reflexivity. Qed.
Lemma copied_ready : Forall se_ready (p_shards copied).
Proof.
  constructor; [apply ready_failing, filled_ready |]. constructor; [exact fresh_small_ready |].
  constructor; [exact filled_ready |]. constructor; [exact fresh_small_ready | constructor].
Qed.
Lemma copied_steady : steady (fresh_topology copied) copied.
Proof. eapply steady_check; [vm_compute; reflexivity | reflexivity |]. vm_compute. reflexivity. Qed.
Lemma copied_only i v : read_at copied i k1 = Ok v → v = d1.
Proof.
  assert (∀ i, match read_at copied i k1 with Ok v => v = d1 | Err _ => True end) as H.
  { intros j. unfold read_at. do 4 (destruct j as [| j]; [vm_compute; exact eq_refl || exact I |]). exact I. }
  intros Hv. specialize (H i). by rewrite Hv in H.
Qed.

Lemma migration_keeps_the_body_witness :
  read_at migrated 2 k1 ≠ Ok d1 ∧ (pool_get k1 migrated).1 = Ok d1.
Proof.
  split; [vm_compute; discriminate |].
  assert (replicas (p_cfg copied) <= S (ec_parity ec3))%nat as Hrep by (apply Nat.leb_le; reflexivity).
  assert (parse_piece_header d1 = None) as Hplain by (vm_compute; reflexivity).
  assert (∃ i, i ∈ pp_select k1 (fresh_topology copied) (ec_total ec3) ∧ read_at copied i k1 = Ok d1) as Hsrc.
  { exists 2%nat. split; [vm_compute; left | vm_compute; reflexivity]. }
  exact (proj2 (migration_keeps_the_body ec3 k1 d1 (fresh_topology copied) copied _ migrated copied_wf copied_ready eq_refl
    xor_code_law d1_fits_code Hplain Hrep d1_pieces_fit copied_only copied_steady Hsrc (surjective_pairing _)) _ _ (surjective_pairing _)).
Defined.

(** The disk refused its piece and keeps its copy; the key counts as migrated
    and waits for healing. *)
Example refused_head_is_counted :
  (migrate_key k1 ec3 copied).1 = Ok Migrated ∧ read_at migrated 0 k1 = Ok d1 ∧ mrf_len migrated = 1%nat.
Proof. vm_compute. done. Qed.

(** Three copies and a code with one spare piece: all ranks are head ranks.
    When only the first of them takes its piece, the two copies that are left
    are not read any more, and no repair finds its pieces. *)
Definition three_copies : PoolConfig :=
  {| replicas := 3; write_quorum := 2; free_space_cache_ttl := 5000000000;
     speculative_retry_after := Some 100000000; heal_parallelism := 4; heal_max_per_shard := 2;
     bg_throttle := BgThrottleConfig_default; pc_ec := Some ec3; pc_outboard := None; adaptive_hedge := true;
     disk_slow := DiskSlowConfig_default |}.
Definition all_copied : pool (engine MapTable) := cached (pool_of three_copies [failing filled; failing filled; filled] []).
Example copies_are_shadowed_by_a_piece :
  let p := (migrate_key k1 ec3 all_copied).2 in
  (pool_get k1 all_copied).1 = Ok d1 ∧ (migrate_key k1 ec3 all_copied).1 = Ok Migrated ∧
  read_at p 0 k1 = Ok d1 ∧ read_at p 1 k1 = Ok d1 ∧
  match (pool_get k1 p).1 with Err _ => True | Ok _ => False end ∧
  match (repair_key k1 p).1 with Err _ | Ok (0%nat, 0%nat) => True | Ok _ => False end.
Proof. vm_compute. done. Qed.

(** The key waits for healing in vain: the shard with the copy has the key. *)
Example refused_head_is_not_healed :
  (repair_key k1 migrated).1 = Ok (0, 0)%nat ∧ read_at (repair_key k1 migrated).2 0 k1 = Ok d1.
Proof. vm_compute. done. Qed.

(** ** Repair of pieces *)

Definition d1_pieces : list bytes := match ec_encode d1 ec3 with Ok l => l | Err _ => [] end.
Definition holding (o : option bytes) : mem_disk := mem_disk_of (match o with Some b => {[k1 := b]} | None => ∅ end).
(** The ranks are shards 2, 0 and 3. *)
Definition pieces_at (r0 r1 r2 : option nat) : pool mem_disk :=
  let at_ r := holding (r ≫= λ r, d1_pieces !! r) in
  (pool_topology (pool_of coded_cfg [at_ r1; at_ None; at_ r0; at_ r2] [])).2.
Definition one_piece_lost : pool mem_disk := pieces_at None (Some 1%nat) (Some 2%nat).

Lemma one_lost_wf : pool_wf one_piece_lost.
Proof. intros c. vm_compute. intros [= <-]. reflexivity. Qed.
Lemma one_lost_steady : steady (fresh_topology one_piece_lost) one_piece_lost.
Proof. eapply steady_check; [vm_compute; reflexivity | reflexivity |]. vm_compute. reflexivity. Qed.
Lemma one_lost_shards i b : read_at one_piece_lost i k1 = Ok b → (i = 0%nat ∧ Some b = d1_pieces !! 1%nat) ∨ (i = 3%nat ∧ Some b = d1_pieces !! 2%nat).
Proof.
  unfold read_at. do 4 (destruct i as [| i]; [vm_compute; intros H; try discriminate H; injection H as <-; auto |]).
  vm_compute. discriminate.
Qed.
Lemma d1_encoded : ec_encode d1 ec3 = Ok d1_pieces.
Proof. vm_compute. reflexivity. Qed.

Lemma repair_restores_pieces_witness :
  read_at (repair_key k1 one_piece_lost).2 2 k1 = Ok (nth 0 d1_pieces []).
Proof.
  assert (Forall se_ready (p_shards one_piece_lost)) as Hready by (by apply Forall_true).
  assert (replicas (p_cfg one_piece_lost) <= ec_total ec3)%nat as Hrep by (apply Nat.leb_le; reflexivity).
  assert (length (pp_select k1 (fresh_topology one_piece_lost) (ec_total ec3)) = ec_total ec3) as Hlen by (vm_compute; reflexivity).
  assert (pp_select k1 (fresh_topology one_piece_lost) (ec_total ec3) = [2; 0; 3]%nat) as Htg by (vm_compute; reflexivity).
  assert (all_pieces k1 d1_pieces one_piece_lost) as Hall.
  { intros i c [[_ Hc] | [_ Hc]]%one_lost_shards; by eexists. }
  assert (ranked k1 d1_pieces one_piece_lost (pp_select k1 (fresh_topology one_piece_lost) (ec_total ec3))) as Hrk.
  { rewrite Htg. assert (NoDup d1_pieces) as Hnd by (apply NoDup_ListNoDup; vm_compute; repeat constructor; simpl; intuition discriminate).
    intros r i c j Hr [[-> Hc] | [-> Hc]]%one_lost_shards Hj; symmetry in Hc; pose proof (NoDup_lookup _ _ _ _ Hnd Hc Hj) as <-;
      (do 3 (destruct r as [| r]; [done || (injection Hr as ?; done) |]); done). }
  assert (available k1 d1_pieces one_piece_lost {[1%nat; 2%nat]}) as HA.
  { intros j [->%elem_of_singleton | ->%elem_of_singleton]%elem_of_union; [exists 0%nat | exists 3%nat]; eexists; split; vm_compute; reflexivity. }
  assert (ec_data ec3 <= size ({[1%nat; 2%nat]} : gset nat))%nat as HkA by (apply Nat.leb_le; vm_compute; reflexivity).
  destruct (repair_restores_pieces ec3 k1 d1 d1_pieces {[1%nat; 2%nat]} (fresh_topology one_piece_lost) one_piece_lost _ _
    one_lost_wf Hready eq_refl Hrep xor_code_law d1_fits_code d1_encoded (λ b _, I) one_lost_steady Hlen
    Hall Hrk HA HkA (surjective_pairing _)) as (n & failed & Hr & _ & _ & [Hhead | Hdone]).
  - exfalso. specialize (Hhead 0%nat 2%nat). rewrite Htg in Hhead. destruct (Hhead eq_refl) as [_ Hlt]. vm_compute in Hlt.
    assert (false = true) as [=]. apply Hlt. lia.
  - assert (failed = 0%nat) as Hz by (vm_compute in Hr; by injection Hr as _ <-).
    rewrite Htg in Hdone. exact (Hdone Hz 0%nat 2%nat eq_refl).
Defined.

(** With two pieces needed and kept by the first two ranks, the third is not
    restored. *)
Example tail_piece_is_not_restored :
  let p := pieces_at (Some 0%nat) (Some 1%nat) None in
  (pool_get k1 p).1 = Ok d1 ∧ (repair_key k1 p).1 = Ok (0, 0)%nat ∧
  match read_at (repair_key k1 p).2 3 k1 with Ok _ => False | Err _ => True end.
Proof. vm_compute. done. Qed.

(** ** Ranks that change

    The weight of a disk is its free space, so that the ranks of a key change
    as the disks fill. *)

(** The body was put on disks of one size; then the disk of the third piece
    was lost, and the first disk filled up: its rank is the second one. The
    read finds the piece of rank 1 on rank 0, takes it for the one that rank 1
    has, and never asks that disk: both pieces that are needed are there. *)
Definition put_evenly : list mem_disk := p_shards (pool_put k1 d1 (pool_of coded_cfg (replicate 4 (mem_disk_of ∅)) [])).2.
Definition with_free (free : Z) {E} (shards : list E) : pool E :=
  (set_shard_capacity 2 {| total_bytes := 100; free_bytes := free |} (pool_of coded_cfg shards [])).2.
Example fuller_disk_hides_pieces :
  let left := <[3%nat := mem_disk_of ∅]> put_evenly in
  (ranking_for k1 3 (with_free 50 left)).1 = Ok [2; 0; 3]%nat ∧ (pool_get k1 (with_free 50 left)).1 = Ok d1 ∧
  (ranking_for k1 3 (with_free 15 left)).1 = Ok [0; 2; 3]%nat ∧
  match (pool_get k1 (with_free 15 left)).1 with Err (Io _) => True | _ => False end ∧
  (repair_key k1 (with_free 15 left)).1 = Ok (0, 0)%nat.
Proof. vm_compute. done. Qed.

(** Rank 0 has piece 1 and rank 2 has piece 0. The repair puts piece 0 over
    the only piece 1 before rank 1 has it; when the next writes are refused, or
    the machine stops, the body is gone. *)
Definition with_piece (r : nat) : engine MapTable := (put_impl k1 (nth r d1_pieces []) None (fresh small_cfg)).2.
Definition displaced : pool (engine MapTable) :=
  cached (pool_of coded_cfg [failing (fresh small_cfg); fresh small_cfg; with_piece 1; failing (with_piece 0)] []).
Example repair_overwrites_the_last_piece :
  (pool_get k1 displaced).1 = Ok d1 ∧
  let p := (repair_key k1 displaced).2 in
  (repair_key k1 displaced).1 = Ok (1, 2)%nat ∧ read_at p 2 k1 = Ok (nth 0 d1_pieces []) ∧ read_at p 3 k1 = Ok (nth 0 d1_pieces []) ∧
  match (pool_get k1 p).1 with Err (Io _) => True | _ => False end.
Proof. vm_compute. done. Qed.
