(* ===== verification/Cache.v ===== *)
(** * The read cache (crates/ozd-app/src/cache.rs)

    [CacheTier]: a disk engine on a fast device in front of a durable store.
    A read tries the cache, then the store, and fills the cache; concurrent
    reads of one key are merged into one flight. The threads that call the
    tier are state machines whose steps are the calls of the cache, of the
    store, and the accesses to the table of flights under its lock. *)

From Stdlib Require Import ZArith Lia.
From stdpp Require Import base list gmap strings.
From S2P Require Import Prelude Domain Metrics.
Open Scope Z_scope.

Record CacheConfig := { max_bytes : Z; min_size : Z }.
Definition CacheConfig_default : CacheConfig := {| max_bytes := 0; min_size := 4096 |}.

(** [Flight]: the leader's result, once it is there. Errors travel as text. *)
Definition flight : Type := option (result string bytes).

(** The tier. [ct_flights] are the flights ever made, [ct_inflight] names the
    one that a reader of the key joins. *)
Record CacheTier (B E : Type) := {
  ct_inner : B;
  ct_cache : E;
  ct_cfg : CacheConfig;
  ct_bytes : Z;
  ct_metrics : OpsMetrics;
  ct_flights : list flight;
  ct_inflight : gmap BlockKey nat;
}.
Arguments ct_inner {B E} _.
Arguments ct_cache {B E} _.
Arguments ct_cfg {B E} _.
Arguments ct_bytes {B E} _.
Arguments ct_metrics {B E} _.
Arguments ct_flights {B E} _.
Arguments ct_inflight {B E} _.

Section Cache.
Context {B E : Type} `{BS : !BlockStore B, SE : !ShardEngine E, CE : !CacheEngine E}.
Local Open Scope rust_scope.
Implicit Types (t : CacheTier B E).
Local Abbreviation CM := (M (CacheTier B E) DomainError).

Definition set_inner (b : B) t : CacheTier B E :=
  {| ct_inner := b; ct_cache := ct_cache t; ct_cfg := ct_cfg t; ct_bytes := ct_bytes t;
     ct_metrics := ct_metrics t; ct_flights := ct_flights t; ct_inflight := ct_inflight t |}.
Definition set_cache (e : E) t : CacheTier B E :=
  {| ct_inner := ct_inner t; ct_cache := e; ct_cfg := ct_cfg t; ct_bytes := ct_bytes t;
     ct_metrics := ct_metrics t; ct_flights := ct_flights t; ct_inflight := ct_inflight t |}.
Definition set_bytes (n : Z) t : CacheTier B E :=
  {| ct_inner := ct_inner t; ct_cache := ct_cache t; ct_cfg := ct_cfg t; ct_bytes := n;
     ct_metrics := ct_metrics t; ct_flights := ct_flights t; ct_inflight := ct_inflight t |}.
Definition tally (f : OpsMetrics → OpsMetrics) t : CacheTier B E :=
  {| ct_inner := ct_inner t; ct_cache := ct_cache t; ct_cfg := ct_cfg t; ct_bytes := ct_bytes t;
     ct_metrics := f (ct_metrics t); ct_flights := ct_flights t; ct_inflight := ct_inflight t |}.
Definition set_flights (l : list flight) t : CacheTier B E :=
  {| ct_inner := ct_inner t; ct_cache := ct_cache t; ct_cfg := ct_cfg t; ct_bytes := ct_bytes t;
     ct_metrics := ct_metrics t; ct_flights := l; ct_inflight := ct_inflight t |}.
Definition set_inflight (m : gmap BlockKey nat) t : CacheTier B E :=
  {| ct_inner := ct_inner t; ct_cache := ct_cache t; ct_cfg := ct_cfg t; ct_bytes := ct_bytes t;
     ct_metrics := ct_metrics t; ct_flights := ct_flights t; ct_inflight := m |}.

(** A call of the durable store, and one of the cache's engine. *)
Definition on_inner {A} (c : M B DomainError A) : CM A := λ t,
  let '(r, b) := c (ct_inner t) in (r, set_inner b t).
Definition on_cache {A} (c : M E DomainError A) : CM A := λ t,
  let '(r, e) := c (ct_cache t) in (r, set_cache e t).
Definition tick (c : counter) (n : Z) : CM unit := mmodify (tally (mt_add c n)).

(** [CacheTier::new] *)
Definition cache_new (inner : B) (cache : E) (cfg : CacheConfig) (m : OpsMetrics) : CacheTier B E :=
  {| ct_inner := inner; ct_cache := cache; ct_cfg := cfg;
     ct_bytes := match se_data_bytes cache with Ok n => n | Err _ => 0 end;
     ct_metrics := m; ct_flights := []; ct_inflight := ∅ |}.

(** ** Eviction *)

(** [max_bytes - max_bytes / 10] *)
Definition low_mark (c : CacheConfig) : Z := max_bytes c - max_bytes c / 10.

(** The loop; [None] is a loop that has not ended. *)
Fixpoint evict_loop (fuel : nat) : CM (option unit) :=
  match fuel with
  | O => mret None
  | S fuel =>
      let! t := mget in
      if max_bytes (ct_cfg t) <? ct_bytes t then
        match! on_cache se_evict with! r =>
        match r with
        | Err _ => mret (Some tt)
        | Ok (freed, _) =>
            if freed =? 0 then mret (Some tt)
            else
              do! mmodify (λ t, set_bytes (sat_sub (ct_bytes t) freed) t);
              do! tick cache_evicted_segments 1;
              do! tick cache_evicted_bytes freed;
              let! t := mget in
              if ct_bytes t <=? low_mark (ct_cfg t) then mret (Some tt) else evict_loop fuel
        end
      else mret (Some tt)
  end.

Definition maybe_evict : CM unit :=
  let! t := mget in
  if max_bytes (ct_cfg t) =? 0 then mret tt
  else
    let! r := evict_loop (S (Z.to_nat (ct_bytes t))) in
    match r with Some _ => mret tt | None => mthrow (Io "evict: out of fuel") end.

(** ** Filling and reading *)

Definition populate (key : BlockKey) (body : bytes) : CM unit :=
  let! t := mget in
  if blen body <? min_size (ct_cfg t) then mret tt
  else
    match! on_cache (se_put key body) with! r =>
    match r with
    | Ok _ =>
        do! mmodify (λ t, set_bytes (fetch_add (ct_bytes t) (blen body)) t);
        do! tick cache_populated_bytes (blen body);
        maybe_evict
    | Err _ => mret tt
    end.

(** The three stages of [read_through]: the cache, the store, the filling. *)
Definition look (key : BlockKey) : CM (option bytes) :=
  let! t := mget in
  match se_get (ct_cache t) key with
  | Ok v => do! tick cache_hits 1; mret (Some v)
  | Err NotFound => do! tick cache_misses 1; mret None
  | Err _ =>
      match! on_cache (se_delete key) with! _ =>
      do! tick cache_self_heals 1;
      do! tick cache_misses 1;
      mret None
  end.
Definition fetch (key : BlockKey) : CM bytes := on_inner (bs_get key).

Definition read_through (key : BlockKey) : CM bytes :=
  let! v := look key in
  match v with
  | Some v => mret v
  | None =>
      let! v := fetch key in
      do! populate key v;
      mret v
  end.

(** ** The store's operations, but for the merging of reads *)

Definition cache_put (key : BlockKey) (data : bytes) : CM unit :=
  do! on_inner (bs_put key data);
  populate key data.
Definition cache_stat (key : BlockKey) : CM Z := on_inner (bs_stat key).
Definition cache_has (key : BlockKey) : CM bool := on_inner (bs_has key).
Definition cache_delete (key : BlockKey) : CM unit :=
  do! on_inner (bs_delete key);
  match! on_cache (se_delete key) with! _ => mret tt.
Definition cache_list (prefix : bytes) (after : option BlockKey) (limit : nat) : CM (list (BlockKey * Z)) :=
  on_inner (bs_list prefix after limit).

(** ** Merging of reads *)

(** [self.inflight.lock()]: join the flight of the key, or start one. *)
Definition board (key : BlockKey) : CM (nat * bool) :=
  let! t := mget in
  match ct_inflight t !! key with
  | Some f => mret (f, false)
  | None =>
      let f := length (ct_flights t) in
      do! mmodify (λ t, set_inflight (<[key := f]> (ct_inflight t)) (set_flights (ct_flights t ++ [None]) t));
      mret (f, true)
  end.

(** [*d = Some(...)], and [self.inflight.lock().remove(key)] *)
Definition land (f : nat) (res : DomainResult bytes) : CM unit :=
  mmodify (λ t, set_flights (<[f := Some (match res with Ok v => Ok v | Err e => Err (error_to_string e) end)]>
    (ct_flights t)) t).
Definition clear_flight (key : BlockKey) : CM unit :=
  mmodify (λ t, set_inflight (delete key (ct_inflight t)) t).

(** What a reader that joined makes of the leader's result. *)
Definition unpack (r : result string bytes) : DomainResult bytes :=
  match r with
  | Ok v => Ok v
  | Err s =>
      if bool_decide (s = error_to_string NotFound) then Err NotFound
      else Err (Io ("coalesced read failed: " +:+ s))
  end.

(** [get] of a thread that nothing disturbs. *)
Definition cache_get (key : BlockKey) : CM bytes :=
  let! b := board key in
  let '(f, leader) := b in
  if (leader : bool) then
    match! read_through key with! res =>
    do! land f res;
    do! clear_flight key;
    mlift res
  else
    do! tick cache_coalesced 1;
    let! t := mget in
    match ct_flights t !! f with
    | Some (Some r) => mlift (unpack r)
    | _ => mthrow (Io "get: waits")
    end.

Definition cache_store : BlockStore (CacheTier B E) := {|
  bs_put := cache_put;
  bs_get := cache_get;
  bs_stat := cache_stat;
  bs_has := cache_has;
  bs_delete := cache_delete;
  bs_list := cache_list;
|}.

(** ** Threads *)

(** Where a thread is in its operation. *)
Inductive caller :=
| Reading (key : BlockKey)
| Looking (key : BlockKey) (f : nat)
| Fetching (key : BlockKey) (f : nat)
| Filling (key : BlockKey) (f : nat) (v : bytes)
| Landing (key : BlockKey) (f : nat) (res : DomainResult bytes)
| Clearing (key : BlockKey) (f : nat) (res : DomainResult bytes)
| Waiting (key : BlockKey) (f : nat)
| Putting (key : BlockKey) (d : bytes)
| PutFilling (key : BlockKey) (d : bytes)
| Deleting (key : BlockKey)
| Dropping (key : BlockKey)
| Returned (res : DomainResult bytes).

(** The next step of a caller; a waiting one stays where it is. *)
Definition caller_step (c : caller) : CM caller :=
  match c with
  | Reading key =>
      let! b := board key in
      if (b.2 : bool) then mret (Looking key b.1)
      else do! tick cache_coalesced 1; mret (Waiting key b.1)
  | Looking key f =>
      let! v := look key in
      mret (match v with Some v => Landing key f (Ok v) | None => Fetching key f end)
  | Fetching key f =>
      match! fetch key with! r =>
      mret (match r with Ok v => Filling key f v | Err e => Landing key f (Err e) end)
  | Filling key f v => do! populate key v; mret (Landing key f (Ok v))
  | Landing key f res => do! land f res; mret (Clearing key f res)
  | Clearing key _ res => do! clear_flight key; mret (Returned res)
  | Waiting key f =>
      let! t := mget in
      mret (match ct_flights t !! f with Some (Some r) => Returned (unpack r) | _ => Waiting key f end)
  | Putting key d =>
      match! on_inner (bs_put key d) with! r =>
      mret (match r with Ok _ => PutFilling key d | Err e => Returned (Err e) end)
  | PutFilling key d => do! populate key d; mret (Returned (Ok []))
  | Deleting key =>
      match! on_inner (bs_delete key) with! r =>
      mret (match r with Ok _ => Dropping key | Err e => Returned (Err e) end)
  | Dropping key =>
      match! on_cache (se_delete key) with! _ => mret (Returned (Ok []))
  | Returned res => mret (Returned res)
  end.

(** Thread [w] of the callers [cs] moves. *)
Definition callers_step (w : nat) (cs : list caller) : CM (list caller) :=
  match cs !! w with
  | Some c => let! c := caller_step c in mret (<[w := c]> cs)
  | None => mret cs
  end.
End Cache.
