(* ===== verification/CacheFacts.v ===== *)
(** * The read cache is transparent

    Eviction ends and keeps to the budget; a read answers what the store
    answers unless the cache has the key; in a coherent tier the two agree,
    and every operation keeps the tier coherent. The tier is itself a store
    with the contract of the store behind it. *)

From Stdlib Require Import ZArith Lia.
From stdpp Require Import base list gmap strings.
From S2P Require Import Prelude Domain Metrics Cache.
Open Scope Z_scope.

Section Evict.
Context {B E : Type} `{BS : !BlockStore B} `{SE : !ShardEngine E, SES : !ShardEngineSpec E}
  `{CE : !CacheEngine E, CES : !CacheEngineSpec E}.
Implicit Types (t : CacheTier B E).
Local Abbreviation CM := (M (CacheTier B E) DomainError).

(** What concerns neither the cache's engine nor the books. *)
Record beside t t' : Prop := {
  bd_inner : ct_inner t' = ct_inner t;
  bd_cfg : ct_cfg t' = ct_cfg t;
  bd_flights : ct_flights t' = ct_flights t;
  bd_inflight : ct_inflight t' = ct_inflight t;
}.
#[global] Instance beside_preorder : PreOrder beside.
Proof. split; [by intros t |]. intros t1 t2 t3 [] []. split; congruence. Qed.

(** The last eviction freed nothing: only the active segment is left, or the
    engine failed. *)
Definition stuck t : Prop :=
  ∃ c r, se_evict c = (r, ct_cache t) ∧ match r with Ok (freed, _) => freed = 0 | Err _ => True end.

(** An invariant of the cache's engine that eviction keeps. *)
Context (I : E → Prop) (HI : ∀ c, I c → wp se_evict (λ _ c', I c') c).

Lemma wp_on_cache {A} (c : M E DomainError A) (Q : DomainResult A → CacheTier B E → Prop) t :
  wp c (λ r e, Q r (set_cache e t)) (ct_cache t) → wp (on_cache c) Q t.
Proof. unfold wp, on_cache. by destruct (c (ct_cache t)). Qed.
Lemma wp_on_inner {A} (c : M B DomainError A) (Q : DomainResult A → CacheTier B E → Prop) t :
  wp c (λ r b, Q r (set_inner b t)) (ct_inner t) → wp (on_inner c) Q t.
Proof. unfold wp, on_inner. by destruct (c (ct_inner t)). Qed.

Lemma wp_evict_call c :
  I c → wp se_evict (λ r c', I c' ∧ (∀ freed n, r = Ok (freed, n) → 0 <= freed) ∧
    (match r with Ok (freed, _) => freed = 0 | Err _ => True end → ∀ t, ct_cache t = c' → stuck t)) c.
Proof.
  intros HIc. pose proof (HI c HIc) as Hev. pose proof (se_evict_size c) as Hsz. unfold wp in *.
  destruct (se_evict c) as [r c'] eqn:Hrun. simpl in *. split_and!; [done .. |].
  intros Hr t Hc. exists c, r. by rewrite Hc.
Qed.

(** Enough fuel: each round frees at least one byte of the books. *)
Lemma wp_evict_loop fuel t :
  I (ct_cache t) → 0 <= max_bytes (ct_cfg t) → 0 <= ct_bytes t < Z.of_nat fuel →
  wp (evict_loop fuel : CM _) (λ r t', r = Ok (Some tt) ∧ beside t t' ∧ I (ct_cache t') ∧ 0 <= ct_bytes t' ∧
    (ct_bytes t' <= max_bytes (ct_cfg t) ∨ stuck t')) t.
Proof.
  revert t. induction fuel as [| fuel IH]; intros t HIc Hmax Hb; [lia |]. simpl. do 2 wp_step.
  destruct (Z.ltb_spec (max_bytes (ct_cfg t)) (ct_bytes t)) as [Hgt | Hle].
  2: { apply wp_ret. split_and!; [done .. | lia | by left]. }
  wp_step. apply wp_on_cache. eapply wp_mono; [by apply wp_evict_call |]. intros r c (HIc' & Hsz & Hstuck).
  destruct r as [[freed n] | e].
  2: { apply wp_ret. split_and!; [done .. | simpl; lia | right; by apply Hstuck]. }
  specialize (Hsz freed n eq_refl). destruct (Z.eqb_spec freed 0) as [-> | Hne].
  { apply wp_ret. split_and!; [done .. | simpl; lia | right; by apply Hstuck]. }
  unfold tick. wp_steps.
  match goal with |- wp _ _ ?t2 => set (t' := t2) end.
  assert (0 <= ct_bytes t' < ct_bytes t) as Hb' by (simpl; unfold sat_sub; lia).
  destruct (Z.leb_spec (ct_bytes t') (low_mark (ct_cfg t'))) as [Hlow | Hlow].
  - apply wp_ret. split_and!; [done .. | lia |]. left. change (ct_cfg t') with (ct_cfg t) in Hlow.
    unfold low_mark in Hlow. assert (0 <= max_bytes (ct_cfg t) / 10) by (apply Z.div_pos; lia). lia.
  - eapply wp_mono; [apply (IH t'); [done | done | lia] |]. intros r t'' (-> & [] & ? & ? & ?). by split_and!.
Qed.

(** Eviction always ends, with the books in the budget unless the engine has
    nothing more to give. *)
Lemma wp_maybe_evict t :
  I (ct_cache t) → 0 <= max_bytes (ct_cfg t) → 0 <= ct_bytes t →
  wp (maybe_evict : CM _) (λ r t', r = Ok tt ∧ beside t t' ∧ I (ct_cache t') ∧ 0 <= ct_bytes t' ∧
    (max_bytes (ct_cfg t) = 0 ∨ ct_bytes t' <= max_bytes (ct_cfg t) ∨ stuck t')) t.
Proof.
  intros HIc Hmax Hb. unfold maybe_evict. do 2 wp_step.
  destruct (Z.eqb_spec (max_bytes (ct_cfg t)) 0) as [Hz | Hz]; [apply wp_ret; by split_and!; try left |].
  wp_step. eapply wp_mono; [apply wp_evict_loop; [done | done | lia] |]. intros r t' (-> & ? & ? & ? & ?).
  apply wp_ret. split_and!; [done .. | by right].
Qed.

(** ** Filling and reading *)

(** The books: sizes are [u64]. *)
Record books t : Prop := { bk_max : 0 <= max_bytes (ct_cfg t); bk_bytes : 0 <= ct_bytes t }.

Lemma books_same t t' : beside t t' → ct_bytes t' = ct_bytes t → books t → books t'.
Proof. intros [_ Hc _ _] Hb []. split; by rewrite ?Hc, ?Hb. Qed.

Lemma wp_populate key body t :
  books t → (blen body < min_size (ct_cfg t) → I (ct_cache t)) → wp (se_put key body) (λ _ c', I c') (ct_cache t) →
  wp (populate key body : CM _) (λ r t', r = Ok tt ∧ beside t t' ∧ books t' ∧ I (ct_cache t')) t.
Proof.
  intros [Hmax Hb] HIc Hput. unfold populate. do 2 wp_step.
  destruct (Z.ltb_spec (blen body) (min_size (ct_cfg t))); [apply wp_ret; split_and!; auto; done |].
  wp_step. apply wp_on_cache. eapply wp_mono; [exact Hput |]. intros [[] | e] c HIc'; [| by apply wp_ret].
  unfold tick. wp_steps. eapply wp_mono; [apply wp_maybe_evict; simpl; [done | done |] |].
  { apply wrap_bound. lia. }
  intros r t' (-> & Hbs & ? & ? & _). split_and!; [done | by destruct Hbs | | done].
  split; [| done]. by rewrite (bd_cfg _ _ Hbs).
Qed.

(** The cache answers, or its engine has at most lost the key. *)
Lemma wp_look key t :
  I (ct_cache t) → wp (se_delete key) (λ _ c', I c') (ct_cache t) →
  wp (look key : CM _) (λ r t', beside t t' ∧ ct_bytes t' = ct_bytes t ∧ I (ct_cache t') ∧
    r = Ok (match se_get (ct_cache t) key with Ok v => Some v | Err _ => None end) ∧
    match se_get (ct_cache t) key with
    | Ok _ | Err NotFound => ct_cache t' = ct_cache t
    | Err _ => ct_cache t' = (se_delete key (ct_cache t)).2
    end) t.
Proof.
  intros HIc Hdel. unfold look. do 2 wp_step.
  destruct (se_get (ct_cache t) key) as [v | e]; [unfold tick; wp_steps; by split_and! |].
  destruct e; [unfold tick; wp_steps; by split_and! |..].
  all: wp_step; apply wp_on_cache; unfold wp in Hdel |- *; destruct (se_delete key (ct_cache t)) as [r c];
    simpl in *; by split_and!.
Qed.
End Evict.

Section Through.
Context {B E : Type} `{BS : !BlockStore B} `{SE : !ShardEngine E, SES : !ShardEngineSpec E}
  `{CE : !CacheEngine E, CES : !CacheEngineSpec E}.
Implicit Types (t : CacheTier B E).
Local Abbreviation CM := (M (CacheTier B E) DomainError).

(** What a read returns and what it asks of the store. *)
Definition through key t (r : DomainResult bytes) t' : Prop :=
  match se_get (ct_cache t) key with
  | Ok v => r = Ok v ∧ ct_inner t' = ct_inner t
  | Err _ => bs_get key (ct_inner t) = (r, ct_inner t')
  end.

(** [I'] holds of the engine once it is filled. *)
Lemma wp_read_through (I I' : E → Prop) key t :
  (∀ c, I c → I' c) → (∀ c, I' c → wp se_evict (λ _ c', I' c') c) →
  books t → I (ct_cache t) → wp (se_delete key) (λ _ c', I c') (ct_cache t) →
  (∀ c v b, I c → bs_get key (ct_inner t) = (Ok v, b) → wp (se_put key v) (λ _ c', I' c') c) →
  wp (read_through key : CM _) (λ r t', through key t r t' ∧ books t' ∧ I' (ct_cache t') ∧
    ct_flights t' = ct_flights t ∧ ct_inflight t' = ct_inflight t ∧ ct_cfg t' = ct_cfg t) t.
Proof.
  intros HII HI' Hbk HIc Hdel Hput. unfold read_through. wp_step. eapply wp_mono; [by apply (wp_look I) |].
  intros r t1 (Hbs1 & Hb1 & HI1 & -> & _). pose proof (books_same _ _ Hbs1 Hb1 Hbk) as Hbk1. destruct Hbs1 as [Hi1 Hc1 ? ?].
  unfold through. destruct (se_get (ct_cache t) key) as [v | e].
  { apply wp_ret. split_and!; [done | done | done | by apply HII | done ..]. }
  wp_step. unfold fetch. apply wp_on_inner. rewrite Hi1.
  unfold wp at 1. destruct (bs_get key (ct_inner t)) as [[v | e'] b] eqn:Hget; cbn [fst snd].
  2: { destruct Hbk1. split_and!; [done | done | by apply HII | done ..]. }
  wp_step. eapply wp_mono.
  { apply (wp_populate I' HI'); simpl; [by destruct Hbk1 | intros _; by apply HII |].
    by eapply Hput. }
  intros r t2 (-> & Hbs2 & Hbk2 & HI2). apply wp_ret. destruct Hbs2. simpl in *.
  split_and!; [congruence | done | done | congruence ..].
Qed.

Lemma wp_cache_get (I I' : E → Prop) key t :
  ct_inflight t !! key = None →
  (∀ c, I c → I' c) → (∀ c, I' c → wp se_evict (λ _ c', I' c') c) →
  books t → I (ct_cache t) → wp (se_delete key) (λ _ c', I c') (ct_cache t) →
  (∀ c v b, I c → bs_get key (ct_inner t) = (Ok v, b) → wp (se_put key v) (λ _ c', I' c') c) →
  wp (cache_get key : CM _) (λ r t', through key t r t' ∧ books t' ∧ I' (ct_cache t') ∧
    ct_inflight t' = ct_inflight t ∧ ct_cfg t' = ct_cfg t) t.
Proof.
  intros Hfl HII HI' Hbk HIc Hdel Hput. unfold cache_get, board. do 3 wp_step. rewrite Hfl. wp_steps.
  eapply wp_mono; [apply (wp_read_through I I'); simpl; try done; by destruct Hbk |].
  intros r t' (Hth & [] & ? & _ & Hin & ?). unfold land, clear_flight. wp_steps. split_and!; [done | done | done | | done].
  simpl in *. by rewrite Hin, delete_insert_id.
Qed.

(** The cache cannot break a read: whatever its engine answers and
    whatever of it is damaged, a read that no other read of the key runs
    beside returns the cached body, or exactly what the durable store
    returns. *)
Theorem cache_cannot_break_reads key t r t' :
  books t → ct_inflight t !! key = None → cache_get key t = (r, t') →
  match se_get (ct_cache t) key with
  | Ok v => r = Ok v ∧ ct_inner t' = ct_inner t
  | Err _ => bs_get key (ct_inner t) = (r, ct_inner t')
  end.
Proof.
  intros Hbk Hfl Hrun.
  by destruct (wp_run _ _ _ _ _ (wp_cache_get (λ _, True) (λ _, True) key t Hfl ltac:(done) ltac:(done) Hbk I ltac:(done)
    ltac:(done)) Hrun) as [? _].
Qed.
End Through.

(** ** Coherence *)

Section Coherent.
Context {B E : Type} `{BS : !BlockStore B, BSS : !BlockStoreSpec B} `{SE : !ShardEngine E, SES : !ShardEngineSpec E}
  `{CE : !CacheEngine E, CES : !CacheEngineSpec E}.
Implicit Types (t : CacheTier B E).
Local Abbreviation CM := (M (CacheTier B E) DomainError).

(** What the cache reads, the store holds. *)
Definition agrees (val : BlockKey → option bytes) (c : E) : Prop := ∀ k v, se_get c k = Ok v → val k = Some v.

(** The tier between two operations; and when it can take one more. *)
Record tier_ok t : Prop := {
  to_inner : bs_ok (ct_inner t);
  to_cache : se_ok (ct_cache t);
  to_agrees : agrees (bs_val (ct_inner t)) (ct_cache t);
  to_books : books t;
  to_alone : ct_inflight t = ∅;
}.
Record tier_ready t : Prop := {
  tr_ok : tier_ok t;
  tr_inner : bs_ready (ct_inner t);
  tr_cache : se_ready (ct_cache t);
  tr_fits : ∀ k v, bs_val (ct_inner t) k = Some v → se_fits k v;
}.

(** A put that the cache keeps up with: it reads no other body of the key, or
    the store has made the write and the cache takes the new body in. It does
    not keep up with an overwrite that fails in the store or in the cache, or
    whose body is too small for it. *)
Definition put_keeps t key d : Prop :=
  (∀ v, se_get (ct_cache t) key = Ok v → v = d) ∨
  ((bs_put key d (ct_inner t)).1 = Ok tt ∧ min_size (ct_cfg t) <= blen d ∧ (se_put key d (ct_cache t)).1 = Ok tt).
(** A delete that it keeps up with: the key is not cached, or the store and
    the cache's engine both drop it. *)
Definition delete_keeps t key : Prop :=
  (∀ v, se_get (ct_cache t) key ≠ Ok v) ∨
  ((bs_delete key (ct_inner t)).1 = Ok tt ∧ (se_delete key (ct_cache t)).1 = Ok tt).

Definition tier_takes t key d : Prop := (bs_takes (ct_inner t) key d ∧ se_fits key d) ∧ put_keeps t key d.
Definition tier_drops t key : Prop := bs_drops (ct_inner t) key ∧ delete_keeps t key.

(** The cache reads, of every key but [key], what the store holds; of [key]
    that or what it read in [t]. *)
Definition near t key (b : B) (c : E) : Prop :=
  ∀ k v, se_get c k = Ok v → bs_val b k = Some v ∨ (k = key ∧ se_get (ct_cache t) key = Ok v).

(** The tier after an operation on [key], coherent or not. *)
Record tier_near t key t' : Prop := {
  tn_inner : bs_ok (ct_inner t');
  tn_cache : se_ok (ct_cache t');
  tn_near : near t key (ct_inner t') (ct_cache t');
  tn_books : books t';
  tn_alone : ct_inflight t' = ∅;
}.

Lemma tier_ok_near t key t' : tier_ok t' → tier_near t key t'.
Proof. intros []. split; try done. intros k v Hk. left. auto. Qed.

Lemma agrees_same val val' c : (∀ k, val' k = val k) → agrees val c → agrees val' c.
Proof. intros Hv H k v Hr. rewrite Hv. by apply H. Qed.

Lemma agrees_evict val c : se_ok c ∧ agrees val c → wp se_evict (λ _ c', se_ok c' ∧ agrees val c') c.
Proof.
  intros [Hok Ha]. eapply wp_mono; [by apply se_evict_spec |]. intros _ c' [Hok' Hr]. split; [done |].
  intros k v Hk. destruct (Hr k) as [Hs | Hs]; rewrite Hs in Hk; [by apply Ha | done].
Qed.

Lemma agrees_put val c key d :
  se_ready c → se_fits key d → agrees val c → val key = Some d →
  wp (se_put key d) (λ _ c', se_ok c' ∧ agrees val c') c.
Proof.
  intros Hr Hf Ha Hv. eapply wp_mono; [by apply se_put_spec |]. intros r c' [Hok Hres]. split; [done |].
  intros k v Hk. destruct r; rewrite (Hres k) in Hk; [| by apply Ha].
  case_decide as Heq; [| by apply Ha]. subst k. by injection Hk as <-.
Qed.

Lemma agrees_delete val c key :
  se_ready c ∧ agrees val c → wp (se_delete key) (λ _ c', se_ready c' ∧ agrees val c') c.
Proof.
  intros [Hr Ha]. eapply wp_mono; [by apply se_delete_spec, se_ready_ok |]. intros r c' (_ & Hr' & Hres).
  split; [by apply Hr' |]. intros k v Hk. destruct r; rewrite (Hres k) in Hk; [| by apply Ha].
  case_decide; [done | by apply Ha].
Qed.

(** A write of [o] to [key] that the store may have made. *)
Lemma agrees_maybe (val : B → BlockKey → option bytes) b b' c key o :
  agrees (val b) c → vals_maybe val b key o b' → (∀ v, se_get c key = Ok v → o = Some v) → agrees (val b') c.
Proof.
  intros Ha Hm Ho k v Hk. destruct (Hm k) as [-> | [-> ->]]; [by apply Ha | by apply Ho].
Qed.

Lemma vals_same_agrees (val : B → BlockKey → option bytes) b b' : vals_same val b b' → ∀ c, agrees (val b) c → agrees (val b') c.
Proof. intros H c. apply agrees_same, H. Qed.

Lemma wp_tier_get t key :
  tier_ready t →
  wp (cache_get key : CM _) (λ r t', tier_ok t' ∧ vals_same bs_val (ct_inner t) (ct_inner t') ∧
    match r with
    | Ok v => bs_val (ct_inner t) key = Some v
    | Err NotFound => bs_val (ct_inner t) key = None
    | Err _ => True
    end) t.
Proof.
  intros [[Hio Hco Ha Hbk Hal] Hi Hc Hf]. set (val := bs_val (ct_inner t)).
  eapply wp_mono.
  { apply (wp_cache_get (λ c, se_ready c ∧ agrees val c) (λ c, se_ok c ∧ agrees val c)); try done.
    - by rewrite Hal.
    - intros c [? ?]. split; [by apply se_ready_ok | done].
    - apply agrees_evict.
    - by apply agrees_delete.
    - intros c v b [? ?] Hg. assert (val key = Some v) as Hv.
      { by destruct (wp_run _ _ _ _ _ (bs_get_spec _ key Hi) Hg) as (_ & _ & ?). }
      apply agrees_put; [done | by apply Hf | done | done]. }
  intros r t' (Hth & Hbk' & [Hok' Ha'] & Hal' & _). unfold through in Hth.
  destruct (se_get (ct_cache t) key) as [v | e] eqn:Hg.
  - destruct Hth as [-> Hin]. split_and!; [| by rewrite Hin | by apply Ha].
    split; [by rewrite Hin | done | by rewrite Hin | done | by rewrite Hal'].
  - destruct (wp_run _ _ _ _ _ (bs_get_spec _ key Hi) Hth) as (Hok & Hs & Hr). split_and!; [| done | done].
    split; [done | done | by apply (vals_same_agrees bs_val _ _ Hs) | done | by rewrite Hal'].
Qed.

Lemma near_evict t key b c : se_ok c ∧ near t key b c → wp se_evict (λ _ c', se_ok c' ∧ near t key b c') c.
Proof.
  intros [Hok Ha]. eapply wp_mono; [by apply se_evict_spec |]. intros _ c' [Hok' Hr]. split; [done |].
  intros k v Hk. destruct (Hr k) as [Hs | Hs]; rewrite Hs in Hk; [by apply Ha | done].
Qed.

Lemma wp_tier_put_any t key d :
  tier_ready t → bs_takes (ct_inner t) key d → se_fits key d →
  wp (cache_put key d : CM _) (λ r t', tier_near t key t' ∧ (put_keeps t key d → tier_ok t') ∧
    match r with
    | Ok _ => vals_update bs_val (ct_inner t) key (Some d) (ct_inner t')
    | Err _ => vals_maybe bs_val (ct_inner t) key (Some d) (ct_inner t')
    end) t.
Proof.
  intros [[Hio Hco Ha Hbk Hal] Hi Hc Hf] Ht Hfit. unfold cache_put. wp_step. apply wp_on_inner.
  pose proof (bs_put_spec _ key d Hi Ht) as Hspec. unfold wp at 1. unfold wp in Hspec.
  destruct (bs_put key d (ct_inner t)) as [r b] eqn:Hput. cbn [fst snd] in *. destruct Hspec as [Hok Hr].
  assert (vals_maybe bs_val (ct_inner t) key (Some d) b) as Hm by (destruct r; [by apply vals_update_maybe | done]).
  assert (near t key b (ct_cache t)) as Hn.
  { intros k v Hk. destruct (Hm k) as [-> | [-> _]]; [left; by apply Ha | right; by split]. }
  assert ((∀ v, se_get (ct_cache t) key = Ok v → v = d) → agrees (bs_val b) (ct_cache t)) as Hsame.
  { intros Hd. apply (agrees_maybe _ _ _ _ _ _ Ha Hm). intros v Hv. by rewrite (Hd v Hv). }
  destruct Hbk. destruct r as [[] | e].
  2: { split_and!; [by split | | done]. intros [Hd | (Hx & _)]; [split; simpl; auto; by split | by rewrite Hput in Hx]. }
  assert (bs_val b key = Some d) as Hval by (rewrite (Hr key); by rewrite decide_True).
  eapply wp_mono; [apply (wp_populate (λ c, (se_ok c ∧ near t key b c) ∧ (put_keeps t key d → se_ok c ∧ agrees (bs_val b) c))) |]; simpl.
  - intros c [Hc1 Hc2]. pose proof (near_evict _ _ _ _ Hc1) as H1. unfold wp in *. split; [done |].
    intros Hk. exact (agrees_evict _ _ (Hc2 Hk)).
  - done.
  - intros Hsmall. split; [done |]. intros [Hd | (_ & Hx & _)]; [auto | lia].
  - pose proof (se_put_spec _ key d Hc Hfit) as Hs. unfold wp in *. destruct (se_put key d (ct_cache t)) as [r c] eqn:Hcp.
    cbn [fst snd] in *. destruct Hs as [Hok' Hres].
    assert (∀ k v, se_get c k = Ok v → (k = key ∧ v = d) ∨ se_get (ct_cache t) k = Ok v ∧ (r = Ok tt → k ≠ key)) as Hget.
    { intros k v Hk. destruct r as [[] |]; rewrite (Hres k) in Hk; [| by right]. case_decide; [left; split; congruence | by right]. }
    split.
    + split; [done |]. intros k v [[-> ->] | [Hk _]]%Hget; [by left | by apply Hn].
    + intros Hkeep. split; [done |]. intros k v [[-> ->] | [Hk Hne]]%Hget; [done |].
      destruct Hkeep as [Hd | (_ & _ & Hx)]; [by apply (Hsame Hd) |]. rewrite Hcp in Hx. specialize (Hne Hx).
      destruct (Hn _ _ Hk) as [? | [-> _]]; done.
  - intros r t' (-> & [Hin _ _ Hfl] & ? & [[? ?] Hkeep]). simpl in *. split_and!; [| | by rewrite Hin].
    + split; [by rewrite Hin | done | by rewrite Hin | done | by rewrite Hfl].
    + intros [? ?]%Hkeep. split; [by rewrite Hin | done | by rewrite Hin | done | by rewrite Hfl].
Qed.

Lemma wp_tier_put t key d :
  tier_ready t → tier_takes t key d →
  wp (cache_put key d : CM _) (λ r t', tier_ok t' ∧
    match r with
    | Ok _ => vals_update bs_val (ct_inner t) key (Some d) (ct_inner t')
    | Err _ => vals_maybe bs_val (ct_inner t) key (Some d) (ct_inner t')
    end) t.
Proof.
  intros Hr [[Ht Hf] Hk]. eapply wp_mono; [by apply wp_tier_put_any |]. intros r t' (_ & Hok & Hv). split; [by apply Hok | done].
Qed.

Lemma wp_tier_delete_any t key :
  tier_ready t → bs_drops (ct_inner t) key →
  wp (cache_delete key : CM _) (λ r t', tier_near t key t' ∧ (delete_keeps t key → tier_ok t') ∧
    match r with
    | Ok _ => vals_update bs_val (ct_inner t) key None (ct_inner t')
    | Err _ => vals_maybe bs_val (ct_inner t) key None (ct_inner t')
    end) t.
Proof.
  intros [[Hio Hco Ha Hbk Hal] Hi Hc Hf] Ht. unfold cache_delete. wp_step. apply wp_on_inner.
  pose proof (bs_delete_spec _ key Hi Ht) as Hspec. unfold wp at 1. unfold wp in Hspec.
  destruct (bs_delete key (ct_inner t)) as [r b] eqn:Hdel. cbn [fst snd] in *. destruct Hspec as [Hok Hr].
  assert (vals_maybe bs_val (ct_inner t) key None b) as Hm by (destruct r; [by apply vals_update_maybe | done]).
  assert (near t key b (ct_cache t)) as Hn.
  { intros k v Hk. destruct (Hm k) as [-> | [-> _]]; [left; by apply Ha | right; by split]. }
  destruct Hbk. destruct r as [[] | e].
  2: { split_and!; [by split | | done]. intros [Hno | [Hx _]]; [| by rewrite Hdel in Hx]. split; simpl; try done.
    apply (agrees_maybe bs_val (ct_inner t) b (ct_cache t) key None); [done | done |]. intros v Hv. by apply Hno in Hv. }
  wp_step. apply wp_on_cache. pose proof (se_delete_spec (ct_cache t) key Hco) as Hs. unfold wp in Hs |- *. simpl.
  destruct (se_delete key (ct_cache t)) as [r c] eqn:Hrun. cbn [fst snd] in *. destruct Hs as (Hco' & _ & Hrd).
  assert (∀ k v, se_get c k = Ok v → se_get (ct_cache t) k = Ok v ∧ (r = Ok tt → k ≠ key)) as Hget.
  { intros k v Hk. destruct r as [[] |]; rewrite (Hrd k) in Hk; [| by split]. by case_decide. }
  split_and!; [| | done].
  - split; simpl; try done. intros k v [Hk _]%Hget. by apply Hn.
  - intros Hkeep. split; simpl; try done. intros k v [Hk Hne]%Hget. destruct (Hn _ _ Hk) as [? | [-> Hv]]; [done |].
    destruct Hkeep as [Hno | [_ Hx]]; [by apply Hno in Hv |]. rewrite Hrun in Hx. by destruct (Hne Hx).
Qed.

Lemma wp_tier_delete t key :
  tier_ready t → tier_drops t key →
  wp (cache_delete key : CM _) (λ r t', tier_ok t' ∧
    match r with
    | Ok _ => vals_update bs_val (ct_inner t) key None (ct_inner t')
    | Err _ => vals_maybe bs_val (ct_inner t) key None (ct_inner t')
    end) t.
Proof.
  intros Hr [Ht Hk]. eapply wp_mono; [by apply wp_tier_delete_any |]. intros r t' (_ & Hok & Hv). split; [by apply Hok | done].
Qed.

Lemma wp_tier_inner {A} (c : M B DomainError A) (P : DomainResult A → Prop) t :
  tier_ready t → wp c (λ r b, bs_ok b ∧ vals_same bs_val (ct_inner t) b ∧ P r) (ct_inner t) →
  wp (on_inner c) (λ r t', tier_ok t' ∧ vals_same bs_val (ct_inner t) (ct_inner t') ∧ P r) t.
Proof.
  intros [[Hio Hco Ha Hbk Hal] Hi Hc Hf] Hwp. apply wp_on_inner. eapply wp_mono; [exact Hwp |].
  intros r b (Hok & Hs & HP). destruct Hbk. split_and!; [| done | done].
  split; simpl; try done. by apply (vals_same_agrees bs_val _ _ Hs).
Qed.

(** The tier is a store, with the contract of the store behind it. *)
#[program] Definition cache_store_spec : @BlockStoreSpec (CacheTier B E) cache_store := {|
  bs_ok := tier_ok;
  bs_ready := tier_ready;
  bs_val t := bs_val (ct_inner t);
  bs_takes := tier_takes;
  bs_drops := tier_drops;
|}.
Next Obligation. intros t. apply tr_ok. Qed.
Next Obligation. apply wp_tier_get. Qed.
Next Obligation. intros t k Hr. apply wp_tier_inner; [done |]. apply bs_stat_spec, Hr. Qed.
Next Obligation. intros t k Hr. apply wp_tier_inner; [done |]. apply bs_has_spec, Hr. Qed.
Next Obligation. apply wp_tier_put. Qed.
Next Obligation. apply wp_tier_delete. Qed.
Next Obligation. intros t p a n Hr Ha. apply wp_tier_inner; [done |]. apply bs_list_spec; [apply Hr | done]. Qed.

(** An operation of a store, with its result left out. *)
Inductive store_op :=
| OpPut (key : BlockKey) (d : bytes)
| OpGet (key : BlockKey)
| OpStat (key : BlockKey)
| OpHas (key : BlockKey)
| OpDelete (key : BlockKey)
| OpList (prefix : bytes) (after : option BlockKey) (limit : nat).

Definition tier_run (op : store_op) t : CacheTier B E :=
  match op with
  | OpPut key d => (cache_put key d t).2
  | OpGet key => (cache_get key t).2
  | OpStat key => (cache_stat key t).2
  | OpHas key => (cache_has key t).2
  | OpDelete key => (cache_delete key t).2
  | OpList prefix after limit => (cache_list prefix after limit t).2
  end.

(** What the store and the cache's engine ask of an operation. *)
Definition tier_allows t (op : store_op) : Prop :=
  match op with
  | OpPut key d => bs_takes (ct_inner t) key d ∧ se_fits key d
  | OpDelete key => bs_drops (ct_inner t) key
  | OpList prefix (Some a) _ => bytes_le prefix a
  | _ => True
  end.
(** The operations that the cache keeps up with. *)
Definition keeps_up t (op : store_op) : Prop :=
  match op with OpPut key d => put_keeps t key d | OpDelete key => delete_keeps t key | _ => True end.

(** The body that a put or a delete leaves under its key. *)
Definition op_writes (op : store_op) (key : BlockKey) : option (option bytes) :=
  match op with
  | OpPut k d => if decide (k = key) then Some (Some d) else None
  | OpDelete k => if decide (k = key) then Some None else None
  | _ => None
  end.

(** C23. What the cache can read after an operation on a coherent tier, failed
    or not: of every key the body that the durable store holds, or, of the
    key that the operation writes or deletes, the body the cache had before.
    It reads no such stale body, and the tier is coherent again, after every
    read and listing, after a put unless it overwrites another cached body
    and the store or the cache fails to take the new one (or it is too small
    to be cached), and after a delete unless the key is cached and one of the
    two fails to drop it. The store holds what it held before or what the
    operation wrote, and no flight is left behind. *)
Theorem cache_stays_coherent op t :
  tier_ready t → tier_allows t op →
  (∀ k v, se_get (ct_cache (tier_run op t)) k = Ok v →
    bs_val (ct_inner (tier_run op t)) k = Some v ∨ is_Some (op_writes op k) ∧ se_get (ct_cache t) k = Ok v) ∧
  (keeps_up t op → tier_ok (tier_run op t)) ∧
  (∀ k, bs_val (ct_inner (tier_run op t)) k = bs_val (ct_inner t) k ∨
    op_writes op k = Some (bs_val (ct_inner (tier_run op t)) k)) ∧
  books (tier_run op t) ∧ ct_inflight (tier_run op t) = ∅.
Proof.
  intros Hr Hal.
  assert (∀ t' k, near t k (ct_inner t') (ct_cache t') → is_Some (op_writes op k) →
    ∀ k v, se_get (ct_cache t') k = Ok v → bs_val (ct_inner t') k = Some v ∨ is_Some (op_writes op k) ∧ se_get (ct_cache t) k = Ok v) as Hnear.
  { intros t' k Hn Hw k' v Hv. destruct (Hn k' v Hv) as [? | [-> ?]]; auto. }
  assert (∀ t', tier_ok t' → vals_same bs_val (ct_inner t) (ct_inner t') →
    (∀ k v, se_get (ct_cache t') k = Ok v → bs_val (ct_inner t') k = Some v ∨ is_Some (op_writes op k) ∧ se_get (ct_cache t) k = Ok v) ∧
    (keeps_up t op → tier_ok t') ∧
    (∀ k, bs_val (ct_inner t') k = bs_val (ct_inner t) k ∨ op_writes op k = Some (bs_val (ct_inner t') k)) ∧
    books t' ∧ ct_inflight t' = ∅) as Hsame.
  { intros t' Hok Hs. pose proof Hok as []. split_and!; auto. }
  assert (∀ b key o, vals_maybe bs_val (ct_inner t) key o b → (op_writes op key = Some o) →
    ∀ k, bs_val b k = bs_val (ct_inner t) k ∨ op_writes op k = Some (bs_val b k)) as Hmaybe.
  { intros b key o Hm Ho k. destruct (Hm k) as [? | [-> ->]]; auto. }
  destruct op as [key d | key | key | key | key | prefix after limit]; simpl.
  - destruct Hal as [Ht Hf]. destruct (wp_tier_put_any t key d Hr Ht Hf) as ([? ? Hn ? ?] & Hok & Hv).
    assert (op_writes (OpPut key d) key = Some (Some d)) as Hw by (simpl; by rewrite decide_True).
    split_and!; [apply (Hnear _ key Hn); by rewrite Hw | done | | done | done].
    apply (Hmaybe _ key (Some d)); [| done]. destruct (cache_put key d t) as [[] t']; [by apply vals_update_maybe | done].
  - destruct (wp_tier_get t key Hr) as (Hok & Hv & _). by apply Hsame.
  - destruct (wp_tier_inner _ _ t Hr (bs_stat_spec _ key (tr_inner _ Hr))) as (Hok & Hv & _). by apply Hsame.
  - destruct (wp_tier_inner _ _ t Hr (bs_has_spec _ key (tr_inner _ Hr))) as (Hok & Hv & _). by apply Hsame.
  - destruct (wp_tier_delete_any t key Hr Hal) as ([? ? Hn ? ?] & Hok & Hv).
    assert (op_writes (OpDelete key) key = Some None) as Hw by (simpl; by rewrite decide_True).
    split_and!; [apply (Hnear _ key Hn); by rewrite Hw | done | | done | done].
    apply (Hmaybe _ key None); [| done]. destruct (cache_delete key t) as [[] t']; [by apply vals_update_maybe | done].
  - destruct (wp_tier_inner _ _ t Hr (bs_list_spec _ prefix after limit (tr_inner _ Hr) Hal)) as (Hok & Hv & _). by apply Hsame.
Qed.
End Coherent.
