(* ===== verification/CacheThreads.v ===== *)
(** * Concurrent reads through the cache

    Any interleaving of callers: at most one of them reads a key from the
    store at a time, the others wait for its flight; every flight lands, and
    every caller returns. *)

From Stdlib Require Import ZArith Lia.
From stdpp Require Import base list gmap relations strings.
From S2P Require Import Prelude Domain Metrics Cache CacheFacts.

Section CacheThreads.
Context {B E : Type} `{BS : !BlockStore B} `{SE : !ShardEngine E, SES : !ShardEngineSpec E}
  `{CE : !CacheEngine E, CES : !CacheEngineSpec E}.
Implicit Types (t : CacheTier B E) (cs : list caller).

(** ** One step *)

(** The flight a caller leads, and for which key. *)
Definition leads (c : caller) : option (BlockKey * nat) :=
  match c with
  | Looking key f | Fetching key f | Filling key f _ | Landing key f _ | Clearing key f _ => Some (key, f)
  | _ => None
  end.

Definition packed (res : DomainResult bytes) : result string bytes :=
  match res with Ok v => Ok v | Err e => Err (error_to_string e) end.

(** What a step does to the flights and their table. *)
Inductive moves : caller → list flight → gmap BlockKey nat → caller → list flight → gmap BlockKey nat → Prop :=
| mv_join key f fl m : m !! key = Some f → moves (Reading key) fl m (Waiting key f) fl m
| mv_start key fl m : m !! key = None →
    moves (Reading key) fl m (Looking key (length fl)) (fl ++ [None]) (<[key := length fl]> m)
| mv_lead c c' key f fl m : leads c = Some (key, f) → leads c' = Some (key, f) →
    (∀ res, c ≠ Landing key f res ∧ c ≠ Clearing key f res ∧ c' ≠ Clearing key f res) → moves c fl m c' fl m
| mv_land key f res fl m : moves (Landing key f res) fl m (Clearing key f res) (<[f := Some (packed res)]> fl) m
| mv_clear key f res fl m : moves (Clearing key f res) fl m (Returned res) fl (delete key m)
| mv_arrive key f r fl m : fl !! f = Some (Some r) → moves (Waiting key f) fl m (Returned (unpack r)) fl m
| mv_other c c' fl m : leads c = None → leads c' = None → (∀ key f, c ≠ Waiting key f ∧ c' ≠ Waiting key f) →
    moves c fl m c' fl m.

(** A caller that can go on. *)
Definition can_move (fl : list flight) (c : caller) : bool :=
  match c with
  | Returned _ => false
  | Waiting _ f => match fl !! f with Some (Some _) => true | _ => false end
  | _ => true
  end.

(** Steps a caller has left. *)
Definition steps_left (c : caller) : nat :=
  match c with
  | Reading _ => 6 | Looking _ _ => 5 | Fetching _ _ => 4 | Filling _ _ _ => 3 | Landing _ _ _ => 2
  | Clearing _ _ _ => 1 | Waiting _ _ => 1 | Putting _ _ => 2 | PutFilling _ _ => 1 | Deleting _ => 2
  | Dropping _ => 1 | Returned _ => 0
  end.

(** A step of a caller that can go on succeeds. *)
Definition steps_to (c : caller) t (c' : caller) t' : Prop :=
  moves c (ct_flights t) (ct_inflight t) c' (ct_flights t') (ct_inflight t') ∧
  (steps_left c' < steps_left c)%nat ∧ books t'.

Lemma same_flights_step c c' t t' :
  ct_flights t' = ct_flights t → ct_inflight t' = ct_inflight t → books t' → (steps_left c' < steps_left c)%nat →
  moves c (ct_flights t) (ct_inflight t) c' (ct_flights t) (ct_inflight t) → steps_to c t c' t'.
Proof. intros Hf Hi ? ? ?. split; [by rewrite Hf, Hi | done]. Qed.

Ltac lead_move := eapply mv_lead; [reflexivity | reflexivity | intros ?; split_and!; discriminate].
Ltac other_move := apply mv_other; [reflexivity | reflexivity | intros ? ?; split; discriminate].

Lemma wp_caller_step c t :
  books t → can_move (ct_flights t) c = true →
  wp (caller_step c : M (CacheTier B E) DomainError caller) (λ r t', ∃ c', r = Ok c' ∧ steps_to c t c' t') t.
Proof.
  intros Hb Hm. pose proof Hb as [Hb1 Hb2].
  assert (∀ c, (λ _, True) c → wp se_evict (λ _ (c' : E), (λ _ : E, True) c') c) as Hev by done.
  destruct c as [key | key f | key f | key f v | key f res | key f res | key f | key d | key d | key | key | res]; simpl.
  - unfold board. do 3 wp_step. destruct (ct_inflight t !! key) as [f |] eqn:Hk; unfold tick; wp_steps; simpl.
    + eexists. split; [done |]. split; [by constructor |]. split; [simpl; lia | by split].
    + eexists. split; [done |]. split; [by constructor |]. split; [simpl; lia | by split].
  - wp_step. eapply wp_mono; [by apply (wp_look (λ _, True)) |]. intros r t' (Hbs & Hby & _ & -> & _).
    apply wp_ret. eexists. split; [done |].
    apply same_flights_step; [apply Hbs | apply Hbs | by eapply books_same | by destruct (se_get (ct_cache t) key); simpl; lia |].
    destruct (se_get (ct_cache t) key); lead_move.
  - wp_step. unfold fetch. apply wp_on_inner. unfold wp. destruct (bs_get key (ct_inner t)) as [r b]. simpl.
    eexists. split; [done |]. apply same_flights_step; [done | done | by split | by destruct r; simpl; lia |].
    destruct r; lead_move.
  - wp_step. eapply wp_mono; [by apply (wp_populate (λ _, True)) |]. intros r t' (-> & Hbs & Hbk & _).
    apply wp_ret. eexists. split; [done |]. apply same_flights_step; [apply Hbs | apply Hbs | done | simpl; lia |]. lead_move.
  - unfold land. wp_steps. eexists. split; [done |]. split; [constructor |]. split; [simpl; lia | by split].
  - unfold clear_flight. wp_steps. eexists. split; [done |]. split; [constructor |]. split; [simpl; lia | by split].
  - wp_steps. simpl in Hm. destruct (ct_flights t !! f) as [[r |] |] eqn:Hf; [| done ..].
    eexists. split; [done |]. split; [by constructor |]. split; [simpl; lia | by split].
  - wp_step. apply wp_on_inner. unfold wp. destruct (bs_put key d (ct_inner t)) as [r b]. simpl.
    eexists. split; [done |]. apply same_flights_step; [done | done | by split | by destruct r; simpl; lia |].
    destruct r; other_move.
  - wp_step. eapply wp_mono; [by apply (wp_populate (λ _, True)) |]. intros r t' (-> & Hbs & Hbk & _).
    apply wp_ret. eexists. split; [done |]. apply same_flights_step; [apply Hbs | apply Hbs | done | simpl; lia |]. other_move.
  - wp_step. apply wp_on_inner. unfold wp. destruct (bs_delete key (ct_inner t)) as [r b]. simpl.
    eexists. split; [done |]. apply same_flights_step; [done | done | by split | by destruct r; simpl; lia |].
    destruct r; other_move.
  - wp_step. apply wp_on_cache. unfold wp. destruct (se_delete key (ct_cache t)) as [r e]. simpl.
    eexists. split; [done |]. apply same_flights_step; [done | done | by split | simpl; lia |]. other_move.
  - done.
Qed.

(** ** The invariant of the flights *)

(** Each flight in the table has its one leader; a caller that waits has a
    flight that has landed, or that somebody leads. *)
Record flights_ok (fl : list flight) (m : gmap BlockKey nat) cs : Prop := {
  fo_leader : ∀ w c key f, cs !! w = Some c → leads c = Some (key, f) → m !! key = Some f;
  fo_unique : ∀ w1 w2 c1 c2 key f1 f2, cs !! w1 = Some c1 → cs !! w2 = Some c2 →
    leads c1 = Some (key, f1) → leads c2 = Some (key, f2) → w1 = w2;
  fo_led : ∀ key f, m !! key = Some f → ∃ w c, cs !! w = Some c ∧ leads c = Some (key, f);
  fo_made : ∀ key f, m !! key = Some f → (f < length fl)%nat;
  fo_apart : ∀ k1 k2 f, m !! k1 = Some f → m !! k2 = Some f → k1 = k2;
  fo_landed : ∀ w key f res, cs !! w = Some (Clearing key f res) → fl !! f = Some (Some (packed res));
  fo_waits : ∀ w key f, cs !! w = Some (Waiting key f) → (∃ r, fl !! f = Some (Some r)) ∨ m !! key = Some f;
}.

Lemma lookup_insert_cases cs w c w' c' :
  <[w := c]> cs !! w' = Some c' → (w' = w ∧ c' = c) ∨ (w' ≠ w ∧ cs !! w' = Some c').
Proof. intros [(-> & <- & _) | [? ?]]%list_lookup_insert_Some; auto. Qed.

(** Only the leader's steps matter: a caller that leads on as before. *)
Lemma flights_ok_lead fl m cs w c c' :
  flights_ok fl m cs → cs !! w = Some c → leads c' = leads c →
  (∀ key f res, c' = Clearing key f res → fl !! f = Some (Some (packed res))) →
  (∀ key f, c' = Waiting key f → (∃ r, fl !! f = Some (Some r)) ∨ m !! key = Some f) →
  flights_ok fl m (<[w := c']> cs).
Proof.
  intros [Hl Hu Hd Hm Ha Hc Hw] Hcs Heq Hc' Hw'. split; [| | | done | done | |].
  - intros w0 c0 key f H0 Hlead. apply lookup_insert_cases in H0 as [[-> ->] | [_ H0]]; [| by eapply Hl].
    rewrite Heq in Hlead. by eapply Hl.
  - intros w1 w2 c1 c2 key f1 f2 H1 H2 Hl1 Hl2.
    apply lookup_insert_cases in H1 as [[-> ->] | [_ H1]], H2 as [[-> ->] | [_ H2]]; rewrite ?Heq in *; [done | | |];
      by eapply Hu.
  - intros key f Hk. destruct (Hd key f Hk) as (w0 & c0 & H0 & Hlead).
    destruct (decide (w0 = w)) as [-> | Hne].
    + exists w, c'. rewrite Hcs in H0. injection H0 as ->. rewrite Heq. split; [| done].
      apply list_lookup_insert_eq. by eapply lookup_lt_Some.
    + exists w0, c0. by rewrite list_lookup_insert_ne.
  - intros w0 key f res H0. apply lookup_insert_cases in H0 as [[-> <-] | [_ H0]]; [by eapply Hc' | by eapply Hc].
  - intros w0 key f H0. apply lookup_insert_cases in H0 as [[-> <-] | [_ H0]]; [by apply Hw' | by eapply Hw].
Qed.

Lemma flights_ok_start fl m cs w key :
  flights_ok fl m cs → cs !! w = Some (Reading key) → m !! key = None →
  flights_ok (fl ++ [None]) (<[key := length fl]> m) (<[w := Looking key (length fl)]> cs).
Proof.
  intros [Hl Hu Hd Hm Ha Hc Hw] Hcs Hk. assert (∀ k f, m !! k = Some f → k ≠ key) as Hne by (intros k f ? ->; congruence).
  split.
  - intros w0 c0 k f H0 Hlead. apply lookup_insert_cases in H0 as [[-> ->] | [_ H0]].
    + injection Hlead as <- <-. apply lookup_insert_eq.
    + pose proof (Hl _ _ _ _ H0 Hlead) as Hf. rewrite lookup_insert_ne; [done |]. intros <-. by apply Hne in Hf.
  - intros w1 w2 c1 c2 k f1 f2 H1 H2 Hl1 Hl2.
    apply lookup_insert_cases in H1 as [[-> ->] | [_ H1]], H2 as [[-> ->] | [_ H2]]; [done | | | by eapply Hu].
    + injection Hl1 as <- <-. pose proof (Hl _ _ _ _ H2 Hl2). congruence.
    + injection Hl2 as <- <-. pose proof (Hl _ _ _ _ H1 Hl1). congruence.
  - intros k f [[<- <-] | [Hne' Hf]]%lookup_insert_Some.
    + exists w, (Looking key (length fl)). split; [| done]. apply list_lookup_insert_eq. by eapply lookup_lt_Some.
    + destruct (Hd k f Hf) as (w0 & c0 & H0 & Hlead). exists w0, c0. split; [| done].
      rewrite list_lookup_insert_ne; [done |]. intros <-. rewrite Hcs in H0. by injection H0 as <-.
  - intros k f [[<- <-] | [_ Hf]]%lookup_insert_Some; rewrite length_app; simpl; [lia |]. apply Hm in Hf. lia.
  - intros k1 k2 f [[<- <-] | [_ H1]]%lookup_insert_Some [[<- Hf] | [_ H2]]%lookup_insert_Some; [done | | | by eapply Ha].
    + apply Hm in H2. lia.
    + apply Hm in H1. lia.
  - intros w0 k f res H0. apply lookup_insert_cases in H0 as [[_ [=]] | [_ H0]]. by apply lookup_app_l_Some, (Hc w0 k).
  - intros w0 k f H0. apply lookup_insert_cases in H0 as [[_ [=]] | [_ H0]]. destruct (Hw _ _ _ H0) as [[r Hr] | Hf].
    + left. exists r. by apply lookup_app_l_Some.
    + right. rewrite lookup_insert_ne; [done |]. intros <-. by apply Hne in Hf.
Qed.

Lemma flights_ok_land fl m cs w key f res :
  flights_ok fl m cs → cs !! w = Some (Landing key f res) →
  flights_ok (<[f := Some (packed res)]> fl) m (<[w := Clearing key f res]> cs).
Proof.
  intros Hok Hcs. pose proof Hok as [Hl Hu Hd Hm Ha Hc Hw].
  assert (m !! key = Some f) as Hk by (by eapply Hl). pose proof (Hm _ _ Hk) as Hf.
  apply (flights_ok_lead _ _ _ _ (Landing key f res)); [| done | done | | done].
  - split; [done | done | done | | done | |].
    + intros k f0 H0. rewrite length_insert. by eapply Hm.
    + intros w0 k f0 res0 H0. rewrite list_lookup_insert_ne; [by eapply Hc |]. intros <-.
      assert (k = key) as -> by (eapply Ha; [by eapply Hl | done]).
      assert (w0 = w) as -> by (by eapply Hu). congruence.
    + intros w0 k f0 H0. destruct (Hw _ _ _ H0) as [[r Hr] | ?]; [left | by right].
      destruct (decide (f0 = f)) as [-> | Hne]; [exists (packed res); by apply list_lookup_insert_eq |].
      exists r. by rewrite list_lookup_insert_ne.
  - intros k f0 res0 [= <- <- <-]. by apply list_lookup_insert_eq.
Qed.

Lemma flights_ok_clear fl m cs w key f res :
  flights_ok fl m cs → cs !! w = Some (Clearing key f res) →
  flights_ok fl (delete key m) (<[w := Returned res]> cs).
Proof.
  intros [Hl Hu Hd Hm Ha Hc Hw] Hcs.
  assert (∀ w0 c0 k f0, <[w := Returned res]> cs !! w0 = Some c0 → leads c0 = Some (k, f0) →
    cs !! w0 = Some c0 ∧ k ≠ key) as Hold.
  { intros w0 c0 k f0 H0 Hlead. apply lookup_insert_cases in H0 as [[_ ->] | [Hne H0]]; [done |].
    split; [done |]. intros ->. by eapply Hne, Hu. }
  split.
  - intros w0 c0 k f0 H0 Hlead. destruct (Hold _ _ _ _ H0 Hlead) as [H1 Hne].
    rewrite lookup_delete_ne by done. by eapply Hl.
  - intros w1 w2 c1 c2 k f1 f2 H1 H2 Hl1 Hl2. destruct (Hold _ _ _ _ H1 Hl1), (Hold _ _ _ _ H2 Hl2). by eapply Hu.
  - intros k f0 [Hne Hf]%lookup_delete_Some. destruct (Hd k f0 Hf) as (w0 & c0 & H0 & Hlead). exists w0, c0.
    split; [| done]. rewrite list_lookup_insert_ne; [done |]. intros <-. rewrite Hcs in H0. injection H0 as <-.
    by injection Hlead as <- <-.
  - intros k f0 [_ Hf]%lookup_delete_Some. by eapply Hm.
  - intros k1 k2 f0 [_ H1]%lookup_delete_Some [_ H2]%lookup_delete_Some. by eapply Ha.
  - intros w0 k f0 res0 H0. apply lookup_insert_cases in H0 as [[_ [=]] | [_ H0]]. by eapply Hc.
  - intros w0 k f0 H0. apply lookup_insert_cases in H0 as [[_ [=]] | [_ H0]].
    destruct (Hw _ _ _ H0) as [? | Hf]; [by left |]. destruct (decide (k = key)) as [-> | Hne].
    + left. assert (m !! key = Some f) as Hk by exact (Hl _ _ _ _ Hcs eq_refl). rewrite Hk in Hf. injection Hf as <-.
      exists (packed res). by eapply Hc.
    + right. by rewrite lookup_delete_ne.
Qed.

Lemma flights_ok_moves fl m cs w c c' fl' m' :
  flights_ok fl m cs → cs !! w = Some c → moves c fl m c' fl' m' → flights_ok fl' m' (<[w := c']> cs).
Proof.
  intros Hok Hcs Hmv. destruct Hmv as [key f fl m Hk | key fl m Hk | c c' key f fl m Hc Hc' Hne | key f res fl m
    | key f res fl m | key f r fl m Hf | c c' fl m Hc Hc' Hne].
  - eapply flights_ok_lead; [done | exact Hcs | done | done |]. intros ? ? [= <- <-]. by right.
  - by apply flights_ok_start.
  - eapply flights_ok_lead; [done | exact Hcs | congruence | |].
    + intros k f0 res ->. injection Hc' as -> ->. by destruct (Hne res) as (_ & _ & ?).
    + intros k f0 ->. done.
  - by apply flights_ok_land.
  - by eapply flights_ok_clear.
  - by eapply flights_ok_lead; [done | exact Hcs | done | done | done].
  - eapply flights_ok_lead; [done | exact Hcs | congruence | |].
    + intros k f0 res ->. done.
    + intros k f0 ->. by destruct (Hne k f0).
Qed.

(** ** Any interleaving *)

(** A caller that can go on takes a step. *)
Definition calls_step (st st' : CacheTier B E * list caller) : Prop :=
  ∃ w c, st.2 !! w = Some c ∧ can_move (ct_flights st.1) c = true ∧ callers_step w st.2 st.1 = (Ok st'.2, st'.1).

Lemma wp_callers_step w c t cs :
  books t → cs !! w = Some c → can_move (ct_flights t) c = true →
  wp (callers_step w cs : M (CacheTier B E) DomainError (list caller))
    (λ r t', ∃ c', r = Ok (<[w := c']> cs) ∧ steps_to c t c' t') t.
Proof.
  intros Hb Hc Hm. unfold callers_step. rewrite Hc. wp_step. eapply wp_mono; [by apply wp_caller_step |].
  intros r t' (c' & -> & Hst). apply wp_ret. by exists c'.
Qed.

(** Before its first step. *)
Definition unstarted (c : caller) : Prop :=
  match c with Reading _ | Putting _ _ | Deleting _ => True | _ => False end.

Lemma flights_ok_unstarted fl cs : Forall unstarted cs → flights_ok fl ∅ cs.
Proof.
  intros Hall. assert (∀ w c, cs !! w = Some c → unstarted c) as Hu by (intros w c; by apply Forall_lookup_1).
  split.
  - intros w c key f Hc Hl. apply Hu in Hc. by destruct c.
  - intros w1 w2 c1 c2 key f1 f2 Hc _ Hl. apply Hu in Hc. by destruct c1.
  - intros key f. by rewrite lookup_empty.
  - intros key f. by rewrite lookup_empty.
  - intros k1 k2 f. by rewrite lookup_empty.
  - intros w key f res Hc. by apply Hu in Hc.
  - intros w key f Hc. by apply Hu in Hc.
Qed.

Lemma callers_inv n st st' :
  nsteps calls_step n st st' → books st.1 → flights_ok (ct_flights st.1) (ct_inflight st.1) st.2 →
  books st'.1 ∧ flights_ok (ct_flights st'.1) (ct_inflight st'.1) st'.2 ∧
  (n + sum_list_with steps_left st'.2 ≤ sum_list_with steps_left st.2)%nat.
Proof.
  induction 1 as [[t cs] | n [t1 cs1] [t2 cs2] [t3 cs3] Hst Hsteps IH]; intros Hb Hok; [done |].
  destruct Hst as (w & c & Hc & Hm & Hrun). simpl in *.
  destruct (wp_run _ _ _ _ _ (wp_callers_step w c t1 cs1 Hb Hc Hm) Hrun) as (c' & [= ->] & Hmv & Hlt & Hb2).
  destruct (IH Hb2) as (? & ? & Hle); [by eapply flights_ok_moves |].
  pose proof (sum_insert steps_left cs1 w c c' Hc). split_and!; [done | done | lia].
Qed.

Lemma leader_can_move fl c key f : leads c = Some (key, f) → can_move fl c = true.
Proof. by destruct c. Qed.

(** C24. Single flight: in any interleaving of readers, writers and deleters,
    at most one caller at a time reads a key through to the store, every
    caller that waits has a flight that has landed or that such a caller
    leads, and what a flight carries is its leader's result. *)
Theorem single_flight t cs t' cs' :
  books t → ct_inflight t = ∅ → Forall unstarted cs → rtc calls_step (t, cs) (t', cs') →
  (∀ key w1 w2 c1 c2 f1 f2, cs' !! w1 = Some c1 → cs' !! w2 = Some c2 →
     leads c1 = Some (key, f1) → leads c2 = Some (key, f2) → w1 = w2) ∧
  (∀ w key f, cs' !! w = Some (Waiting key f) →
     (∃ r, ct_flights t' !! f = Some (Some r)) ∨ ∃ w' c, cs' !! w' = Some c ∧ leads c = Some (key, f)) ∧
  (∀ w key f res, cs' !! w = Some (Clearing key f res) → ct_flights t' !! f = Some (Some (packed res))).
Proof.
  intros Hb Hi Hcs [n Hsteps]%rtc_nsteps.
  destruct (callers_inv _ _ _ Hsteps Hb) as (_ & [Hl Hu Hd Hm Ha Hc Hw] & _).
  { simpl. rewrite Hi. by apply flights_ok_unstarted. }
  simpl in *. split_and!; [by intros; eapply Hu | | exact Hc].
  intros w key f Hwait. destruct (Hw _ _ _ Hwait) as [? | Hf]; [by left | right]. by apply Hd.
Qed.

(** C30. No caller waits for ever: every interleaving is finite, with at most
    six steps per caller; a caller that can go on makes its step; and when
    none can, all have returned. *)
Theorem callers_return t cs n t' cs' :
  books t → ct_inflight t = ∅ → Forall unstarted cs → nsteps calls_step n (t, cs) (t', cs') →
  (n ≤ 6 * length cs)%nat ∧
  (∀ w c, cs' !! w = Some c → can_move (ct_flights t') c = true → ∃ st, calls_step (t', cs') st) ∧
  (Forall (λ c, can_move (ct_flights t') c = false) cs' → Forall (λ c, ∃ res, c = Returned res) cs').
Proof.
  intros Hb Hi Hcs Hsteps. destruct (callers_inv _ _ _ Hsteps Hb) as (Hb' & Hok & Hle).
  { simpl. rewrite Hi. by apply flights_ok_unstarted. }
  simpl in *. split_and!.
  - assert (sum_list_with steps_left cs ≤ 6 * length cs)%nat; [| lia]. clear -Hcs.
    induction cs as [| c cs IH]; simpl; [done |]. apply Forall_cons in Hcs as [Hc Hcs]. specialize (IH Hcs).
    destruct c; simpl in *; lia.
  - intros w c Hc Hm. pose proof (wp_callers_step w c t' cs' Hb' Hc Hm) as Hstep. unfold wp in Hstep.
    destruct (callers_step w cs' t') as [r t2] eqn:Hrun. destruct Hstep as (c' & Hr & _). simpl in Hr. subst r.
    exists (t2, <[w := c']> cs'), w, c. split_and!; done.
  - rewrite !Forall_lookup. intros Hstuck w c Hc. pose proof (Hstuck w c Hc) as Hm.
    destruct c as [key | key f | key f | key f v | key f res | key f res | key f | key d | key d | key | key | res];
      try done; [| by exists res].
    exfalso. destruct (fo_waits _ _ _ Hok _ _ _ Hc) as [[r Hr] | Hf]; [simpl in Hm; by rewrite Hr in Hm |].
    destruct (fo_led _ _ _ Hok _ _ Hf) as (w' & c' & Hc' & Hlead).
    pose proof (Hstuck w' c' Hc') as Hm'. by rewrite (leader_can_move _ _ _ _ Hlead) in Hm'.
Qed.
End CacheThreads.
