(* ===== verification/CacheDemo.v ===== *)
(** * Runs of the read cache

    A disk engine in front of a map: the properties of the cache at concrete
    inputs, and three runs that the code's comments rule out. *)

From Stdlib Require Import ZArith Lia Strings.Byte.
From stdpp Require Import base list gmap relations strings.
From S2P Require Import Prelude F64 Domain Table Piece Segment SegmentFacts Writer Engine EngineGc EngineInv EngineOps EngineGcFacts Instances EngineProps EngineMore Latency DiskSlow Placement Shard Erasure Verified Metrics Throttle HealQueue PoolState Pool PoolFacts PoolRead PoolWrite PoolDemo Store Cache CacheFacts CacheThreads.
Open Scope Z_scope.

#[global] Instance demo_cache_spec : CacheEngineSpec (engine MapTable) := engine_cache_spec (Some (10, 100, 50)).

Abbreviation tier := (CacheTier (gmap bytes bytes) (engine MapTable)).

Definition cache_cfg : CacheConfig := {| max_bytes := 100; min_size := 10 |}.
Definition tier0 : tier := cache_new {[k1 := d1]} (fresh small_cfg) cache_cfg OpsMetrics_default.

Lemma tier0_books : books tier0.
Proof. split; vm_compute; discriminate. Qed.

Lemma tier0_ready : tier_ready tier0.
Proof.
  split; [split | done | exact fresh_small_ready |].
  - done.
  - exact (rd_inv _ fresh_small_ready).
  - intros k v Hk. exfalso. revert Hk. simpl. unfold engine_get. vm_compute. discriminate.
  - exact tier0_books.
  - reflexivity.
  - intros k v Hk. change (({[k1 := d1]} : gmap bytes bytes) !! k = Some v) in Hk. apply lookup_singleton_Some in Hk as [<- <-]. exact k1_d1_fits.
Qed.

Definition tier1 : tier := (cache_get k1 tier0).2.

Lemma cache_cannot_break_reads_witness : cache_get k1 tier0 = (Ok d1, tier1) ∧ ct_inner tier1 = {[k1 := d1]}.
Proof.
  destruct (cache_get k1 tier0) as [r t] eqn:Hrun.
  assert (t = tier1) as -> by (unfold tier1; by rewrite Hrun).
  pose proof (cache_cannot_break_reads k1 tier0 r tier1 tier0_books eq_refl Hrun) as H.
  assert (se_get (ct_cache tier0) k1 = Err NotFound) as Hg by (vm_compute; reflexivity).
  rewrite Hg in H.
  assert (bs_get k1 (ct_inner tier0) = (Ok d1, {[k1 := d1]} : gmap bytes bytes)) as Hget by (vm_compute; reflexivity).
  rewrite Hget in H. apply pair_equal_spec in H as [Hr Hin]. rewrite <-Hr, <-Hin. split; reflexivity.
Defined.

Lemma cache_stays_coherent_witness : tier_ok (tier_run (OpPut k2 d2) tier0).
Proof.
  destruct (cache_stays_coherent (OpPut k2 d2) tier0 tier0_ready) as (_ & Hok & _).
  - split; [exact I |]. split; vm_compute; reflexivity.
  - apply Hok. right. split_and!; vm_compute; done.
Defined.

(** ** Two readers of one key *)

Definition two_readers : list caller := [Reading k1; Reading k1].
Definition go (w : nat) (st : tier * list caller) : tier * list caller :=
  match callers_step w st.2 st.1 with (Ok cs, t) => (t, cs) | (Err _, t) => (t, st.2) end.
Definition both_in : tier * list caller := go 1 (go 0 (tier0, two_readers)).

Lemma go_step w st :
  match st.2 !! w with
  | Some c => can_move (ct_flights st.1) c && match (callers_step w st.2 st.1).1 with Ok _ => true | Err _ => false end
  | None => false
  end = true → calls_step st (go w st).
Proof.
  unfold go. intros H. exists w. destruct (st.2 !! w) as [c |] eqn:Hc; [| done]. exists c. apply andb_true_iff in H as [Hm H].
  split_and!; [done | done |]. by destruct (callers_step w st.2 st.1) as [[cs |] t].
Qed.

Lemma both_in_steps : nsteps calls_step 2 (tier0, two_readers) (both_in.1, both_in.2).
Proof.
  change (both_in.1, both_in.2) with both_in.
  eapply nsteps_l; [apply (go_step 0); vm_compute; reflexivity |].
  eapply nsteps_l; [apply (go_step 1); vm_compute; reflexivity |]. apply nsteps_O.
Qed.

Lemma two_unstarted : Forall unstarted two_readers.
Proof. by repeat constructor. Qed.

Lemma single_flight_witness : ∃ w c, both_in.2 !! w = Some c ∧ leads c = Some (k1, 0%nat).
Proof.
  destruct (single_flight tier0 two_readers both_in.1 both_in.2 tier0_books eq_refl two_unstarted) as (_ & Hw & _).
  - apply rtc_nsteps. exists 2%nat. exact both_in_steps.
  - destruct (Hw 1%nat k1 0%nat) as [[r Hr] | H]; [vm_compute; reflexivity | | exact H].
    exfalso. revert Hr. vm_compute. discriminate.
Defined.

Lemma callers_return_witness : ∃ st, calls_step (both_in.1, both_in.2) st.
Proof.
  destruct (callers_return tier0 two_readers 2 both_in.1 both_in.2 tier0_books eq_refl two_unstarted both_in_steps)
    as (_ & Hgo & _).
  apply (Hgo 0%nat (Looking k1 0)); vm_compute; reflexivity.
Defined.

(** ** Runs that the code's comments rule out *)

(** A read that filled the cache after a delete brings the key back. *)
Example deleted_key_is_read_again :
  let st := foldl (λ st w, go w st) (tier0, [Reading k1; Deleting k1]) [0; 0; 0; 1; 1; 0; 0; 0]%nat in
  st.2 = [Returned (Ok d1); Returned (Ok [])] ∧ (cache_get k1 st.1).1 = Ok d1 ∧ ct_inner st.1 !! k1 = None.
Proof. vm_compute. split_and!; reflexivity. Qed.

(** An overwrite with a small body leaves the old one in the cache. *)
Example small_overwrite_is_not_read :
  let t := (cache_put k1 [x07] (cache_put k1 d1 tier0).2).2 in
  ct_inner t !! k1 = Some [x07] ∧ (cache_get k1 t).1 = Ok d1.
Proof. vm_compute. split_and!; reflexivity. Qed.

(** Eviction stops as soon as the books are in the budget, not at its low
    mark. *)
Definition large_cfg : CacheConfig := {| max_bytes := 1000; min_size := 10 |}.
Definition filled_tier : tier :=
  foldl (λ t n, (cache_put [Byte.byte.of_Z (Z.of_nat n)] d1 t).2)
    (cache_new ∅ (fresh small_cfg) large_cfg OpsMetrics_default) (seq 0 34).

Example eviction_stops_above_the_low_mark :
  mt_count (ct_metrics filled_tier) cache_evicted_segments = 1 ∧ low_mark large_cfg = 900 ∧ ct_bytes filled_tier = 954.
Proof. vm_compute. split_and!; reflexivity. Qed.
