(* ===== verification/Car.v ===== *)
(** * Bulk import and export (crates/ozd-app/src/car.rs)

    CARv1: a framed header, then frames [varint(len) | CID | body]. The key of
    a block is the prefix and the base32 of its multihash, as Kubo's. The
    import is a reader and several workers around a bounded channel: threads
    whose steps are the calls of the store and the accesses to the channel.
    The reader's stream and the writer are byte lists, whose only failure is
    the end of the stream. SHA-256 is a parameter.

    Second part: The encodings of the bulk loader. *)

From Stdlib Require Import ZArith Lia Strings.Byte.
From stdpp Require Import base list gmap strings pretty.
From S2P Require Import Prelude Domain.
Open Scope Z_scope.

(** ** Base 32 *)

Definition B32 : bytes := String.list_byte_of_string "ABCDEFGHIJKLMNOPQRSTUVWXYZ234567".

(** [while bits >= 5]: the symbols that are complete, and the bits left. *)
Fixpoint b32_emit (fuel : nat) (buf bits : Z) (out : bytes) : Z * bytes :=
  match fuel with
  | O => (bits, out)
  | S fuel =>
      if 5 <=? bits then
        let bits := bits - 5 in
        b32_emit fuel buf bits (out ++ [nth (Z.to_nat (Z.land (Z.shiftr buf bits) 31)) B32 x00])
      else (bits, out)
  end.

(** One byte of the input; a round of the inner loop per bit is enough. *)
Definition b32_byte (st : Z * Z * bytes) (b : byte) : Z * Z * bytes :=
  let '(buf, bits, out) := st in
  let buf := Z.lor (wrap 64 (Z.shiftl buf 8)) (Byte.byte.unsigned b) in
  let '(bits, out) := b32_emit (Z.to_nat (bits + 8)) buf (bits + 8) out in
  (buf, bits, out).

Definition base32_nopad (data : bytes) : bytes :=
  let '(buf, bits, out) := foldl b32_byte (0, 0, []) data in
  if 0 <? bits then out ++ [nth (Z.to_nat (Z.land (wrap 64 (Z.shiftl buf (5 - bits))) 31)) B32 x00] else out.

Definition b32_value (c : byte) : option Z :=
  let c := Byte.byte.unsigned c in
  if (65 <=? c) && (c <=? 90) then Some (c - 65)
  else if (50 <=? c) && (c <=? 55) then Some (c - 50 + 26)
  else None.

Definition b32_symbol (st : Z * Z * bytes) (v : Z) : Z * Z * bytes :=
  let '(buf, bits, out) := st in
  let buf := Z.lor (wrap 64 (Z.shiftl buf 5)) v in
  let bits := bits + 5 in
  if 8 <=? bits then
    (buf, bits - 8, out ++ [Byte.byte.of_Z (Z.land (Z.shiftr buf (bits - 8)) 255)])
  else (buf, bits, out).

Fixpoint b32_decode_loop (s : bytes) (st : Z * Z * bytes) : option bytes :=
  match s with
  | [] => Some st.2
  | c :: s =>
      match b32_value c with
      | Some v => b32_decode_loop s (b32_symbol st v)
      | None => None
      end
  end.

(** On a text that is no UTF-8 the code answers [None] before it decodes; so
    does a byte above 127 here. *)
Definition base32_decode (s : bytes) : option bytes := b32_decode_loop s (0, 0, []).

(** ** Varints *)

(** [read_varint]: the value, and the rest of the stream; no value at the
    stream's end. *)
Fixpoint read_varint_loop (x shift : Z) (first : bool) (r : bytes) : DomainResult (option Z) * bytes :=
  match r with
  | [] => (if first then Ok None else Err (Io "car varint: failed to fill whole buffer"), [])
  | b :: r =>
      if 63 <=? shift then (Err (Io "car varint overflow"), r)
      else
        let x := Z.lor x (Z.shiftl (Z.land (Byte.byte.unsigned b) 127) shift) in
        if Z.land (Byte.byte.unsigned b) 128 =? 0 then (Ok (Some x), r)
        else read_varint_loop x (shift + 7) false r
  end.
Definition read_varint (r : bytes) : DomainResult (option Z) * bytes := read_varint_loop 0 0 true r.

(** A [u64] has at most ten groups of seven bits. *)
Fixpoint write_varint_loop (fuel : nat) (x : Z) : bytes :=
  match fuel with
  | O => []
  | S fuel =>
      let b := Z.land x 127 in
      let x := Z.shiftr x 7 in
      let byte := Byte.byte.of_Z (if 0 <? x then Z.lor b 128 else b) in
      byte :: (if x =? 0 then [] else write_varint_loop fuel x)
  end.
Definition write_varint (x : Z) : bytes := write_varint_loop 10 x.

(** [slice_varint]: the value, and the rest of the slice. *)
Fixpoint slice_varint_loop (x shift : Z) (buf : bytes) : option (Z * bytes) :=
  match buf with
  | [] => None
  | b :: buf =>
      if shift <? 63 then
        let x := Z.lor x (Z.shiftl (Z.land (Byte.byte.unsigned b) 127) shift) in
        if Z.land (Byte.byte.unsigned b) 128 =? 0 then Some (x, buf)
        else slice_varint_loop x (shift + 7) buf
      else None
  end.
Definition slice_varint (buf : bytes) : option (Z * bytes) := slice_varint_loop 0 0 buf.

(** ** Content identifiers *)

(** The version, the codec, then the multihash: its code, the length of the
    digest, the digest. The positions are those of the rests in [buf]. *)
Definition parse_cid_v1 (buf : bytes) : option (nat * bytes) :=
  match slice_varint buf with
  | Some (ver, rest) =>
      if negb (ver =? 1) then None
      else
        match slice_varint rest with
        | Some (_, mh_rest) =>
            match slice_varint mh_rest with
            | Some (_, rest) =>
                match slice_varint rest with
                | Some (dlen, rest) =>
                    let mh_start := blen buf - blen mh_rest in
                    let fin := blen buf - blen rest + dlen in
                    if (2 ^ 64 <=? fin) || (blen buf <? fin) then None
                    else Some (Z.to_nat fin, slice (Z.to_nat mh_start) (Z.to_nat (fin - mh_start)) buf)
                | None => None
                end
            | None => None
            end
        | None => None
        end
  | None => None
  end.

(** The length of the CID and the bytes of its multihash; a CIDv0 is the bare
    SHA-256 multihash. *)
Definition parse_cid (buf : bytes) : option (nat * bytes) :=
  if (34 <=? blen buf) && (u8_at 0 buf =? 0x12) && (u8_at 1 buf =? 0x20) then Some (34%nat, take 34 buf)
  else parse_cid_v1 buf.

Definition key_for_multihash (prefix mh : bytes) : BlockKey := prefix ++ base32_nopad mh.

(** ** Reports *)

Record CarImportReport := {
  ci_blocks : nat;
  ci_bytes : Z;
  ci_skipped : nat;
  ci_corrupt : nat;
  ci_errors : nat;
}.
Definition CarImportReport_default : CarImportReport :=
  {| ci_blocks := 0; ci_bytes := 0; ci_skipped := 0; ci_corrupt := 0; ci_errors := 0 |}.

Record CarExportReport := { ce_blocks : nat; ce_bytes : Z }.
Definition CarExportReport_default : CarExportReport := {| ce_blocks := 0; ce_bytes := 0 |}.

(** ** The frames of a stream *)

Definition CARV2_PRAGMA : bytes := [xa1; x67; x76; x65; x72; x73; x69; x6f; x6e; x02].

(** [r.read_exact] of [n] bytes. *)
Definition read_exact (what : string) (n : nat) (r : bytes) : DomainResult bytes * bytes :=
  if (length r <? n)%nat then (Err (Io (what +:+ "failed to fill whole buffer")), [])
  else (Ok (take n r), drop n r).

(** The header, before the workers start: the rest of the stream. *)
Definition read_header (r : bytes) : DomainResult bytes :=
  match read_varint r with
  | (Err e, _) => Err e
  | (Ok None, _) => Err (Io "car: empty file")
  | (Ok (Some hlen), r) =>
      if 2 ^ 20 <? hlen then Err (Io "car: header too large")
      else
        match read_exact "car header: " (Z.to_nat hlen) r with
        | (Err e, _) => Err e
        | (Ok hdr, r) =>
            if bool_decide (hdr = CARV2_PRAGMA) then Err (Io "car: CARv2 не поддерживается (ждали CARv1)") else Ok r
        end
  end.

(** What the reader makes of the next frame. *)
Inductive frame :=
| StreamEnd
| StreamError (e : DomainError)
| Dropped
| Block (key : BlockKey) (body : bytes).

Section Car.
Context (sha256 : bytes → bytes) (key_prefix : bytes) (verify : bool).

(** The CID and, for SHA-256 multihashes, the hash of the body. *)
Definition check_frame (fr : bytes) : frame :=
  match parse_cid fr with
  | None => Dropped
  | Some (cid_len, mh) =>
      let body := drop cid_len fr in
      if verify && (2 <=? blen mh) && (u8_at 0 mh =? 0x12) && (u8_at 1 mh =? 0x20)
         && negb (bool_decide (sha256 body = slice 2 32 mh))
      then Dropped
      else Block (key_for_multihash key_prefix mh) body
  end.

Definition next_frame (r : bytes) : frame * bytes :=
  match read_varint r with
  | (Err e, r) => (StreamError e, r)
  | (Ok None, r) => (StreamEnd, r)
  | (Ok (Some flen), r) =>
      if (flen =? 0) || (2 ^ 30 <? flen) then (StreamError (Io ("car: bad frame len " +:+ pretty flen)), r)
      else
        match read_exact "car frame: " (Z.to_nat flen) r with
        | (Err e, r) => (StreamError e, r)
        | (Ok fr, r) => (check_frame fr, r)
        end
  end.
End Car.

(** ** Import *)

(** Where a worker is. *)
Inductive importer :=
| Receiving
| Asking (key : BlockKey) (body : bytes)
| Storing (key : BlockKey) (body : bytes)
| Gone.

(** The reader's stream, the channel, the workers, and the counters. *)
Record import := {
  im_rest : bytes;
  im_queue : list (BlockKey * bytes);
  im_open : bool;
  im_result : DomainResult unit;
  im_workers : list importer;
  im_report : CarImportReport;
}.

Definition im_worker (w : nat) (s : importer) (im : import) : import :=
  {| im_rest := im_rest im; im_queue := im_queue im; im_open := im_open im; im_result := im_result im;
     im_workers := <[w := s]> (im_workers im); im_report := im_report im |}.
Definition im_count (f : CarImportReport → CarImportReport) (im : import) : import :=
  {| im_rest := im_rest im; im_queue := im_queue im; im_open := im_open im; im_result := im_result im;
     im_workers := im_workers im; im_report := f (im_report im) |}.
Definition im_send (q : list (BlockKey * bytes)) (im : import) : import :=
  {| im_rest := im_rest im; im_queue := q; im_open := im_open im; im_result := im_result im;
     im_workers := im_workers im; im_report := im_report im |}.
Definition im_read (rest : bytes) (im : import) : import :=
  {| im_rest := rest; im_queue := im_queue im; im_open := im_open im; im_result := im_result im;
     im_workers := im_workers im; im_report := im_report im |}.
(** The reader returns; the channel has no sender any more. *)
Definition im_close (r : DomainResult unit) (im : import) : import :=
  {| im_rest := im_rest im; im_queue := im_queue im; im_open := false; im_result := r;
     im_workers := im_workers im; im_report := im_report im |}.

Definition ci_block (body : bytes) (r : CarImportReport) : CarImportReport :=
  {| ci_blocks := S (ci_blocks r); ci_bytes := wrap 64 (ci_bytes r + blen body); ci_skipped := ci_skipped r;
     ci_corrupt := ci_corrupt r; ci_errors := ci_errors r |}.
Definition ci_skip (r : CarImportReport) : CarImportReport :=
  {| ci_blocks := ci_blocks r; ci_bytes := ci_bytes r; ci_skipped := S (ci_skipped r);
     ci_corrupt := ci_corrupt r; ci_errors := ci_errors r |}.
Definition ci_drop (r : CarImportReport) : CarImportReport :=
  {| ci_blocks := ci_blocks r; ci_bytes := ci_bytes r; ci_skipped := ci_skipped r;
     ci_corrupt := S (ci_corrupt r); ci_errors := ci_errors r |}.
Definition ci_fail (r : CarImportReport) : CarImportReport :=
  {| ci_blocks := ci_blocks r; ci_bytes := ci_bytes r; ci_skipped := ci_skipped r;
     ci_corrupt := ci_corrupt r; ci_errors := S (ci_errors r) |}.

(** [parallelism.clamp(1, 64)], and the channel's bound. *)
Definition import_workers (parallelism : nat) : nat := Nat.min (Nat.max parallelism 1) 64.
Definition channel_bound (im : import) : nat := length (im_workers im) * 8.

Definition import_start (workers : nat) (rest : bytes) : import :=
  {| im_rest := rest; im_queue := []; im_open := true; im_result := Ok tt;
     im_workers := replicate workers Receiving; im_report := CarImportReport_default |}.

Section Importing.
Context (sha256 : bytes → bytes) (key_prefix : bytes) (verify : bool).
Context {B : Type} `{BS : !BlockStore B}.
Local Open Scope rust_scope.
Local Abbreviation BM := (M B DomainError).

(** One frame, once the channel has room for what it sends. *)
Definition reader_step (im : import) : import :=
  let '(fr, rest) := next_frame sha256 key_prefix verify (im_rest im) in
  match fr with
  | StreamEnd => im_close (Ok tt) (im_read rest im)
  | StreamError e => im_close (Err e) (im_read rest im)
  | Dropped => im_count ci_drop (im_read rest im)
  | Block key body => im_send (im_queue im ++ [(key, body)]) (im_read rest im)
  end.

Definition reader_can (im : import) : bool := im_open im && (length (im_queue im) <? channel_bound im)%nat.

(** One step of worker [w]; one that waits for a message stays. *)
Definition importer_step (w : nat) (im : import) : BM import :=
  match im_workers im !! w with
  | Some Receiving =>
      match im_queue im with
      | (key, body) :: q => mret (im_worker w (Asking key body) (im_send q im))
      | [] => mret (if im_open im then im else im_worker w Gone im)
      end
  | Some (Asking key body) =>
      match! bs_has key with! r =>
      mret (match r with
            | Ok true => im_worker w Receiving (im_count ci_skip im)
            | _ => im_worker w (Storing key body) im
            end)
  | Some (Storing key body) =>
      match! bs_put key body with! r =>
      mret (im_worker w Receiving (im_count (match r with Ok _ => ci_block body | Err _ => ci_fail end) im))
  | Some Gone | None => mret im
  end.

Definition importer_can (im : import) (w : nat) : bool :=
  match im_workers im !! w with
  | Some Receiving => negb (bool_decide (im_queue im = [])) || negb (im_open im)
  | Some Gone | None => false
  | _ => true
  end.

(** The threads that can go on: worker [w] is [S w], the reader is 0. *)
Definition import_ready (im : import) : list nat :=
  (if reader_can im then [0%nat] else []) ++ map S (filter (λ w, importer_can im w = true) (seq 0 (length (im_workers im)))).
Definition import_step (who : nat) (im : import) : BM import :=
  match who with O => mret (reader_step im) | S w => importer_step w im end.

(** [thread::scope], under the scheduling [sched]; [None] is an import that
    has not ended. *)
Fixpoint run_import (fuel : nat) (sched : list nat) (im : import) : BM (option import) :=
  match fuel with
  | O => mret None
  | S fuel =>
      match import_ready im with
      | [] => mret (Some im)
      | ts =>
          let! im := import_step (nth (hd 0 sched mod length ts) ts 0)%nat im in
          run_import fuel (tl sched) im
      end
  end.

(** A byte of the stream pays for the steps of a message. *)
Definition import_fuel (workers : nat) (rest : bytes) : nat := S (4 * length rest + workers + 1).

Definition car_import (r : bytes) (parallelism : nat) (sched : list nat) : BM CarImportReport :=
  let! rest := mlift (read_header r) in
  let workers := import_workers parallelism in
  let! im := run_import (import_fuel workers rest) sched (import_start workers rest) in
  match im with
  | None => mthrow (Io "import: out of fuel")
  | Some im => do! mlift (im_result im); mret (im_report im)
  end.

(** ** Export *)

Definition CAR_HEADER : bytes :=
  [xa2; x65; x72; x6f; x6f; x74; x73; x80; x67; x76; x65; x72; x73; x69; x6f; x6e; x01].

(** The frame of one block: the CIDv1 with the raw codec, then the body. *)
Definition block_frame (mh body : bytes) : bytes :=
  let cid := [x01; x55] ++ mh in
  write_varint (blen cid + blen body) ++ cid ++ body.

(** The text of the error has the key as well. *)
Definition export_key (acc : bytes * CarExportReport) (key : BlockKey) : BM (bytes * CarExportReport) :=
  match! bs_get key with! r =>
  match r with
  | Ok body =>
      match base32_decode (drop (length key_prefix) key) with
      | None => mthrow (Io "car export: ключ не base32-multihash")
      | Some mh =>
          mret (acc.1 ++ block_frame mh body,
                {| ce_blocks := S (ce_blocks acc.2); ce_bytes := wrap 64 (ce_bytes acc.2 + blen body) |})
      end
  | Err NotFound => mret acc
  | Err e => mthrow e
  end.

(** The pages; [None] is an export that has not ended. *)
Fixpoint export_loop (fuel : nat) (after : option BlockKey) (acc : bytes * CarExportReport)
    : BM (option (bytes * CarExportReport)) :=
  match fuel with
  | O => mret None
  | S fuel =>
      let! page := bs_list key_prefix after 1024 in
      let keys := map fst page in
      let! acc := mfold export_key acc keys in
      if (length page <? 1024)%nat || bool_decide (last keys = None) then mret (Some acc)
      else export_loop fuel (last keys) acc
  end.

Definition car_export (fuel : nat) : BM (option (bytes * CarExportReport)) :=
  export_loop fuel None (write_varint (blen CAR_HEADER) ++ CAR_HEADER, CarExportReport_default).
End Importing.

(** * The encodings of the bulk loader

    Base 32 and varints are read back as they were written, a multihash is
    found in its CID, and a frame in its stream. *)

(** ** Bit strings, the most significant bit first *)

Abbreviation bits := (list bool).

Definition val (p : bits) : Z := foldl (λ a (b : bool), 2 * a + Z.b2z b) 0 p.
Fixpoint bits_of (w : nat) (v : Z) : bits :=
  match w with O => [] | S w => Z.testbit v (Z.of_nat w) :: bits_of w v end.

Lemma val_foldl a p : foldl (λ a (b : bool), 2 * a + Z.b2z b) a p = a * 2 ^ Z.of_nat (length p) + val p.
Proof.
  unfold val. revert a. induction p as [| b p IH]; intros a; cbn [foldl length]; [simpl; lia |].
  rewrite (IH (2 * a + _)), (IH (2 * 0 + _)). rewrite Nat2Z.inj_succ, Z.pow_succ_r by lia. ring.
Qed.

Lemma val_app p q : val (p ++ q) = val p * 2 ^ Z.of_nat (length q) + val q.
Proof. unfold val at 1. by rewrite foldl_app, val_foldl. Qed.

Lemma val_cons b p : val (b :: p) = Z.b2z b * 2 ^ Z.of_nat (length p) + val p.
Proof. change (b :: p) with ([b] ++ p). rewrite val_app. f_equal. Qed.

Lemma val_bound p : 0 <= val p < 2 ^ Z.of_nat (length p).
Proof.
  induction p as [| b p IH]; [by split |]. rewrite val_cons. cbn [length]. rewrite Nat2Z.inj_succ, Z.pow_succ_r by lia.
  unfold Z.b2z. destruct b; lia.
Qed.

Lemma length_bits_of w v : length (bits_of w v) = w.
Proof. induction w as [| w IH]; simpl; [done |]. by rewrite IH. Qed.

Lemma val_bits_of w v : val (bits_of w v) = v mod 2 ^ Z.of_nat w.
Proof.
  induction w as [| w IH]; [simpl; by rewrite Z.mod_1_r |]. cbn [bits_of]. rewrite val_cons, length_bits_of, IH.
  rewrite Nat2Z.inj_succ, Z.pow_succ_r by lia. rewrite Z.testbit_spec' by lia.
  assert (0 < 2 ^ Z.of_nat w) by (apply Z.pow_pos_nonneg; lia).
  rewrite (Z.mul_comm 2), Z.rem_mul_r by lia. lia.
Qed.

Lemma val_inj p q : length p = length q → val p = val q → p = q.
Proof.
  revert q. induction p as [| b p IH]; intros [| c q] Hl Hv; try done. injection Hl as Hl. rewrite !val_cons, Hl in Hv.
  pose proof (val_bound p) as Hp. pose proof (val_bound q) as Hq. rewrite Hl in Hp.
  assert (b = c) as -> by (destruct b, c; simpl in Hv; try done; lia). f_equal. apply IH; [done | lia].
Qed.

Lemma bits_of_val p : bits_of (length p) (val p) = p.
Proof.
  apply val_inj; [apply length_bits_of |]. rewrite val_bits_of. apply Z.mod_small, val_bound.
Qed.

Lemma bits_of_0 w : bits_of w 0 = replicate w false.
Proof. induction w as [| w IH]; simpl; [done |]. by rewrite Z.bits_0, IH. Qed.

#[local] Arguments bits_of : simpl never.

(** ** The buffer of pending bits *)

(** The low bits of [buf] are [p]. *)
Definition pending (buf : Z) (p : bits) : Prop := 0 <= buf ∧ buf mod 2 ^ Z.of_nat (length p) = val p.

Lemma lor_low x w v : 0 <= w → 0 <= v < 2 ^ w → Z.lor (x * 2 ^ w) v = x * 2 ^ w + v.
Proof.
  intros Hw Hv. assert (Z.land (x * 2 ^ w) v = 0) as H0.
  { apply Z.bits_inj'. intros n Hn. rewrite Z.land_spec, Z.bits_0. destruct (Z.lt_ge_cases n w) as [Hlt | Hge].
    - by rewrite Z.mul_pow2_bits_low.
    - rewrite <-(Z.mod_small v (2 ^ w)) by done. by rewrite Z.mod_pow2_bits_high, andb_false_r by lia. }
  by rewrite <-Z.lxor_lor, <-Z.add_nocarry_lxor.
Qed.

Lemma pending_push buf p w v :
  pending buf p → 0 <= v < 2 ^ Z.of_nat w → (length p + w ≤ 64)%nat →
  pending (Z.lor (wrap 64 (Z.shiftl buf (Z.of_nat w))) v) (p ++ bits_of w v).
Proof.
  intros [Hbuf Hp] Hv Hlen. set (W := 2 ^ Z.of_nat w) in *. assert (0 < W) by (apply Z.pow_pos_nonneg; lia).
  assert (∃ x, 0 <= x ∧ wrap 64 (Z.shiftl buf (Z.of_nat w)) = x * W ∧ x mod 2 ^ Z.of_nat (length p) = val p) as (x & Hx & Hs & Hm).
  { exists (buf mod 2 ^ (64 - Z.of_nat w)). split; [apply Z.mod_pos_bound, Z.pow_pos_nonneg; lia |]. split.
    - unfold wrap. rewrite Z.shiftl_mul_pow2 by lia. fold W.
      replace 64 with (64 - Z.of_nat w + Z.of_nat w) at 1 by lia. rewrite Z.pow_add_r by lia. fold W.
      rewrite Z.mul_mod_distr_r; [done | apply Z.pow_nonzero; lia | lia].
    - rewrite <-Hp. apply Z.mod_mod_divide.
      exists (2 ^ (64 - Z.of_nat w - Z.of_nat (length p))). rewrite <-Z.pow_add_r by lia. f_equal. lia. }
  rewrite Hs. unfold W at 1. rewrite lor_low by (fold W; lia). fold W. split; [nia |].
  rewrite length_app, length_bits_of, val_app, length_bits_of, val_bits_of. fold W.
  rewrite (Z.mod_small v) by lia. rewrite Nat2Z.inj_add, Z.pow_add_r by lia. fold W.
  rewrite <-Hm. set (P := 2 ^ Z.of_nat (length p)). assert (0 < P) by (apply Z.pow_pos_nonneg; lia).
  rewrite (Z.div_mod x P) at 1 by lia.
  replace ((P * (x / P) + x mod P) * W + v) with (x mod P * W + v + x / P * (P * W)) by ring.
  rewrite Z.mod_add by nia. apply Z.mod_small. pose proof (Z.mod_pos_bound x P). nia.
Qed.

Lemma pending_emit buf p u :
  pending buf p → (u ≤ length p)%nat →
  Z.land (Z.shiftr buf (Z.of_nat (length p) - Z.of_nat u)) (Z.ones (Z.of_nat u)) = val (take u p) ∧
  pending buf (drop u p).
Proof.
  intros [Hbuf Hp] Hu. set (k := (length p - u)%nat). replace (Z.of_nat (length p) - Z.of_nat u) with (Z.of_nat k) by lia.
  assert (0 < 2 ^ Z.of_nat k ∧ 0 < 2 ^ Z.of_nat u) as [Hk HU] by (split; apply Z.pow_pos_nonneg; lia).
  assert (val p = val (take u p) * 2 ^ Z.of_nat k + val (drop u p)) as Hval.
  { rewrite <-(take_drop u p) at 1. by rewrite val_app, length_drop. }
  pose proof (val_bound (drop u p)) as Hd. rewrite length_drop in Hd. fold k in Hd.
  pose proof (val_bound (take u p)) as Ht. rewrite length_take_le in Ht by done.
  assert (2 ^ Z.of_nat (length p) = 2 ^ Z.of_nat u * 2 ^ Z.of_nat k) as Hpow.
  { rewrite <-Z.pow_add_r by lia. f_equal. lia. }
  pose proof (Z.div_mod buf (2 ^ Z.of_nat (length p)) ltac:(lia)) as Hdm. rewrite Hp, Hval, Hpow in Hdm.
  set (q := buf / (2 ^ Z.of_nat u * 2 ^ Z.of_nat k)) in Hdm. split; [| split; [done |]].
  - rewrite Z.land_ones, Z.shiftr_div_pow2 by lia. symmetry. apply (Z.mod_unique _ _ q); [by left |].
    symmetry. apply (Z.div_unique _ _ _ (val (drop u p))); [by left |]. rewrite Hdm at 1. ring.
  - rewrite length_drop. fold k. symmetry. apply (Z.mod_unique _ _ (q * 2 ^ Z.of_nat u + val (take u p))); [by left |].
    rewrite Hdm at 1. ring.
Qed.

(** ** Base 32 *)

Definition byte_bits (b : byte) : bits := bits_of 8 (Byte.byte.unsigned b).
Definition sym (v : Z) : byte := nth (Z.to_nat v) B32 x00.

Lemma b32_value_sym v : 0 <= v < 32 → b32_value (sym v) = Some v.
Proof.
  intros Hv.
  assert (forallb (λ n, bool_decide (b32_value (sym (Z.of_nat n)) = Some (Z.of_nat n))) (seq 0 32) = true) as H
    by (vm_compute; reflexivity).
  rewrite forallb_forall in H. specialize (H (Z.to_nat v)). rewrite Z2Nat.id in H by lia.
  eapply bool_decide_eq_true, H, list_elem_of_In, elem_of_seq. lia.
Qed.

(** The encoder has written the symbols [vs] and has the bits [p] left. *)
Definition written (st : Z * Z * bytes) (data : bytes) (vs : list Z) (p : bits) : Prop :=
  st.2 = map sym vs ∧ st.1.2 = Z.of_nat (length p) ∧ pending st.1.1 p ∧ Forall (λ v, 0 <= v < 32) vs ∧
  concat (map (bits_of 5) vs) ++ p = concat (map byte_bits data).

Lemma val_take_bound u (p : bits) : (u ≤ length p)%nat → 0 <= val (take u p) < 2 ^ Z.of_nat u.
Proof. intros Hu. pose proof (val_bound (take u p)) as H. by rewrite length_take_le in H. Qed.

Lemma b32_emit_ok fuel buf p vs :
  pending buf p → (length p < fuel * 5 + 5)%nat → Forall (λ v, 0 <= v < 32) vs →
  ∃ vs' p', b32_emit fuel buf (Z.of_nat (length p)) (map sym vs) = (Z.of_nat (length p'), map sym vs') ∧
    pending buf p' ∧ (length p' < 5)%nat ∧ Forall (λ v, 0 <= v < 32) vs' ∧
    concat (map (bits_of 5) vs') ++ p' = concat (map (bits_of 5) vs) ++ p.
Proof.
  revert p vs. induction fuel as [| fuel IH]; intros p vs Hp Hlen Hvs; cbn [b32_emit].
  { exists vs, p. split_and!; [done | done | lia | done | done]. }
  destruct (Z.leb_spec 5 (Z.of_nat (length p))) as [Hle | Hlt]; [| exists vs, p; split_and!; [done | done | lia | done | done]].
  destruct (pending_emit buf p 5 Hp ltac:(lia)) as [Hv Hp']. change (Z.ones (Z.of_nat 5)) with 31 in Hv.
  change (Z.of_nat 5) with 5 in Hv. rewrite Hv. fold (sym (val (take 5 p))).
  pose proof (val_take_bound 5 p ltac:(lia)) as Hb.
  replace (map sym vs ++ [sym (val (take 5 p))]) with (map sym (vs ++ [val (take 5 p)])) by by rewrite map_app.
  replace (Z.of_nat (length p) - 5) with (Z.of_nat (length (drop 5 p))) by (rewrite length_drop; lia).
  destruct (IH (drop 5 p) (vs ++ [val (take 5 p)])) as (vs' & p' & He & ? & ? & ? & Hc).
  { done. } { rewrite length_drop. lia. } { apply Forall_app. split; [done |]. by constructor. }
  exists vs', p'. split_and!; [done | done | done | done |]. rewrite Hc, map_app, concat_app. cbn [map concat].
  rewrite app_nil_r, <-app_assoc. f_equal. rewrite <-(take_drop 5 p) at 3. f_equal.
  rewrite <-(bits_of_val (take 5 p)) at 2. by rewrite length_take_le by lia.
Qed.

Lemma b32_byte_ok st data vs p b :
  written st data vs p → (length p < 5)%nat →
  ∃ vs' p', written (b32_byte st b) (data ++ [b]) vs' p' ∧ (length p' < 5)%nat.
Proof.
  destruct st as [[buf n] out]. intros (Hout & Hn & Hp & Hvs & Hc) Hlen. simpl in *. subst out n. unfold b32_byte.
  pose proof (Byte.byte.unsigned_range b) as Hb.
  pose proof (pending_push buf p 8 (Byte.byte.unsigned b) Hp Hb ltac:(lia)) as Hp1.
  change (Z.of_nat 8) with 8 in Hp1. set (buf' := Z.lor _ _) in *.
  replace (Z.of_nat (length p) + 8) with (Z.of_nat (length (p ++ byte_bits b))) by (rewrite length_app; simpl; lia).
  destruct (b32_emit_ok (Z.to_nat (Z.of_nat (length (p ++ byte_bits b)))) buf' (p ++ byte_bits b) vs Hp1) as
    (vs' & p' & He & ? & ? & ? & Hc'); [lia | done |].
  rewrite He. exists vs', p'. split; [| done]. split_and!; [done | done | done | done |].
  cbn [fst snd]. rewrite Hc', app_assoc, Hc, map_app, concat_app. cbn [map concat]. by rewrite app_nil_r.
Qed.

Lemma b32_bytes_ok data :
  ∃ vs p, written (foldl b32_byte (0, 0, []) data) data vs p ∧ (length p < 5)%nat.
Proof.
  induction data as [| b data IH] using rev_ind.
  - exists [], []. split; [by split_and! | simpl; lia].
  - destruct IH as (vs & p & Hw & Hlen). rewrite foldl_app. by eapply b32_byte_ok.
Qed.

(** The text is the input's bits in groups of five, with zeros behind. *)
Lemma base32_groups data :
  ∃ vs z, base32_nopad data = map sym vs ∧ Forall (λ v, 0 <= v < 32) vs ∧ (z < 5)%nat ∧
    concat (map (bits_of 5) vs) = concat (map byte_bits data) ++ replicate z false.
Proof.
  destruct (b32_bytes_ok data) as (vs & p & (Hout & Hn & Hp & Hvs & Hc) & Hlen). unfold base32_nopad.
  destruct (foldl b32_byte (0, 0, []) data) as [[buf n] out]. simpl in *. subst out n.
  destruct (Z.ltb_spec 0 (Z.of_nat (length p))) as [Hpos | Hz].
  - set (z := (5 - length p)%nat).
    destruct (pending_push buf p z 0 Hp) as [H1 H2]; [split; [done | apply Z.pow_pos_nonneg; lia] | lia |].
    rewrite Z.lor_0_r in H1, H2. replace (5 - Z.of_nat (length p)) with (Z.of_nat z) by lia.
    rewrite length_app, length_bits_of in H2. replace (length p + z)%nat with 5%nat in H2 by lia.
    change 31 with (Z.ones 5). rewrite Z.land_ones by lia. change (Z.of_nat 5) with 5 in H2. rewrite H2.
    fold (sym (val (p ++ bits_of z 0))). exists (vs ++ [val (p ++ bits_of z 0)]), z.
    assert (length (p ++ bits_of z 0) = 5%nat) as Hl5 by (rewrite length_app, length_bits_of; lia).
    split_and!; [by rewrite map_app | | lia |].
    + apply Forall_app. split; [done |]. constructor; [| done]. pose proof (val_bound (p ++ bits_of z 0)) as Hb. by rewrite Hl5 in Hb.
    + rewrite map_app, concat_app. cbn [map concat]. rewrite app_nil_r.
      assert (bits_of 5 (val (p ++ bits_of z 0)) = p ++ bits_of z 0) as -> by (rewrite <-Hl5 at 1; apply bits_of_val).
      by rewrite bits_of_0, app_assoc, Hc.
  - destruct p; [| simpl in Hz; lia]. exists vs, 0%nat. split_and!; [done | done | lia |]. rewrite app_nil_r in *. done.
Qed.

(** The decoder has read the symbols [vs] and has the bits [p] left. *)
Definition read_off (st : Z * Z * bytes) (vs : list Z) (p : bits) : Prop :=
  st.1.2 = Z.of_nat (length p) ∧ pending st.1.1 p ∧ (length p < 8)%nat ∧
  concat (map byte_bits st.2) ++ p = concat (map (bits_of 5) vs).

Lemma b32_symbol_ok st vs p v :
  read_off st vs p → 0 <= v < 32 → ∃ p', read_off (b32_symbol st v) (vs ++ [v]) p'.
Proof.
  destruct st as [[buf n] out]. intros (Hn & Hp & Hlen & Hc) Hv. simpl in *. subst n. unfold b32_symbol.
  pose proof (pending_push buf p 5 v Hp Hv ltac:(lia)) as Hp1.
  change (Z.of_nat 5) with 5 in Hp1. set (buf' := Z.lor _ _) in *. set (q := p ++ bits_of 5 v) in *.
  assert (length q = (length p + 5)%nat) as Hq by (unfold q; by rewrite length_app, length_bits_of).
  replace (Z.of_nat (length p) + 5) with (Z.of_nat (length q)) by lia.
  assert (concat (map byte_bits out) ++ q = concat (map (bits_of 5) (vs ++ [v]))) as Hc'.
  { unfold q. rewrite app_assoc, Hc, map_app, concat_app. cbn [map concat]. by rewrite app_nil_r. }
  destruct (Z.leb_spec 8 (Z.of_nat (length q))) as [Hle | Hlt].
  - destruct (pending_emit buf' q 8 Hp1 ltac:(lia)) as [He Hp2]. change (Z.of_nat 8) with 8 in He.
    change (Z.ones 8) with 255 in He. rewrite He. exists (drop 8 q).
    assert (length (drop 8 q) = (length q - 8)%nat) as Hd by apply length_drop.
    pose proof (val_take_bound 8 q ltac:(lia)) as Hb.
    split_and!; [simpl; lia | done | lia |]. cbn [snd]. rewrite <-Hc', map_app, concat_app. cbn [map concat].
    rewrite app_nil_r, <-app_assoc. f_equal. rewrite <-(take_drop 8 q) at 3. f_equal. unfold byte_bits.
    rewrite Byte.byte.unsigned_of_Z. unfold Byte.byte.wrap. rewrite Z.mod_small by done.
    rewrite <-(bits_of_val (take 8 q)) at 2. by rewrite length_take_le by lia.
  - exists q. split_and!; [done | done | lia | done].
Qed.

Lemma b32_decode_ok st us vs p :
  read_off st us p → Forall (λ v, 0 <= v < 32) vs →
  ∃ st' p', b32_decode_loop (map sym vs) st = Some st'.2 ∧ read_off st' (us ++ vs) p'.
Proof.
  revert st us p. induction vs as [| v vs IH]; intros st us p Hr Hvs; simpl.
  { exists st, p. by rewrite app_nil_r. }
  apply Forall_cons in Hvs as [Hv Hvs]. rewrite b32_value_sym by done.
  destruct (b32_symbol_ok st us p v Hr Hv) as [p1 H1].
  destruct (IH _ _ _ H1 Hvs) as (st' & p' & ? & Hr'). exists st', p'. by rewrite <-app_assoc in Hr'.
Qed.

Lemma concat_bits_inj (a b : bytes) (p q : bits) :
  concat (map byte_bits a) ++ p = concat (map byte_bits b) ++ q → (length p < 8)%nat → (length q < 8)%nat → a = b.
Proof.
  assert (∀ c, length (concat (map byte_bits c)) = (8 * length c)%nat) as Hlen.
  { induction c as [| x c IH]; [done |]. cbn [map concat]. rewrite length_app, IH. unfold byte_bits at 1.
    rewrite length_bits_of. simpl. lia. }
  revert b. induction a as [| x a IH]; intros [| y b] Heq Hp Hq.
  - done.
  - apply (f_equal length) in Heq. rewrite !length_app, !Hlen in Heq. simpl in Heq. lia.
  - apply (f_equal length) in Heq. rewrite !length_app, !Hlen in Heq. simpl in Heq. lia.
  - cbn [map concat] in Heq. rewrite <-!app_assoc in Heq. apply app_inj_1 in Heq as [Hxy Heq].
    2: { unfold byte_bits. by rewrite !length_bits_of. }
    f_equal; [| by apply IH]. apply (f_equal val) in Hxy. unfold byte_bits in Hxy. rewrite !val_bits_of in Hxy.
    pose proof (Byte.byte.unsigned_range x). pose proof (Byte.byte.unsigned_range y).
    rewrite !Z.mod_small in Hxy by done. rewrite <-(Byte.byte.of_Z_unsigned x), <-(Byte.byte.of_Z_unsigned y). by rewrite Hxy.
Qed.

(** Base 32 is read back. *)
Lemma base32_round data : base32_decode (base32_nopad data) = Some data.
Proof.
  destruct (base32_groups data) as (vs & z & -> & Hvs & Hz & Hc). unfold base32_decode.
  destruct (b32_decode_ok (0, 0, []) [] vs []) as (st & p & -> & (_ & _ & Hp & Hr)); [split_and!; simpl; [done | done | lia | done] | done |].
  f_equal. simpl in Hr. rewrite Hc in Hr. eapply concat_bits_inj; [exact Hr | done | rewrite length_replicate; lia].
Qed.

Lemma base32_inj a b : base32_nopad a = base32_nopad b → a = b.
Proof. intros H. apply (f_equal base32_decode) in H. rewrite !base32_round in H. by injection H. Qed.

(** ** Varints *)

Lemma group_values y :
  0 <= y < 128 →
  Z.land (Byte.byte.unsigned (Byte.byte.of_Z y)) 127 = y ∧
  Z.land (Byte.byte.unsigned (Byte.byte.of_Z y)) 128 = 0 ∧
  Z.land (Byte.byte.unsigned (Byte.byte.of_Z (Z.lor y 128))) 127 = y ∧
  Z.land (Byte.byte.unsigned (Byte.byte.of_Z (Z.lor y 128))) 128 = 128.
Proof.
  intros Hy.
  assert (forallb (λ n, let y := Z.of_nat n in
    (Z.land (Byte.byte.unsigned (Byte.byte.of_Z y)) 127 =? y) &&
    (Z.land (Byte.byte.unsigned (Byte.byte.of_Z y)) 128 =? 0) &&
    (Z.land (Byte.byte.unsigned (Byte.byte.of_Z (Z.lor y 128))) 127 =? y) &&
    (Z.land (Byte.byte.unsigned (Byte.byte.of_Z (Z.lor y 128))) 128 =? 128)) (seq 0 128) = true) as H
    by (vm_compute; reflexivity).
  rewrite forallb_forall in H. specialize (H (Z.to_nat y)). cbn zeta in H. rewrite Z2Nat.id in H by lia.
  assert (In (Z.to_nat y) (seq 0 128)) as Hin by (apply list_elem_of_In, elem_of_seq; lia).
  apply H in Hin. rewrite !andb_true_iff, !Z.eqb_eq in Hin. tauto.
Qed.

Lemma write_varint_S fuel x :
  write_varint_loop (S fuel) x =
    Byte.byte.of_Z (if 0 <? Z.shiftr x 7 then Z.lor (Z.land x 127) 128 else Z.land x 127) ::
    (if Z.shiftr x 7 =? 0 then [] else write_varint_loop fuel (Z.shiftr x 7)).
Proof. done. Qed.

Lemma read_write_varint fuel x acc shift first r :
  0 <= shift < 63 → 0 <= acc < 2 ^ shift → 0 <= x → x * 2 ^ shift < 2 ^ 63 → x < 2 ^ (7 * Z.of_nat fuel) → (0 < fuel)%nat →
  read_varint_loop acc shift first (write_varint_loop fuel x ++ r) = (Ok (Some (acc + x * 2 ^ shift)), r).
Proof.
  revert x acc shift first. induction fuel as [| fuel IH]; intros x acc shift first Hs Ha Hx Hlt Hf Hpos; [lia |].
  rewrite write_varint_S. cbn [app read_varint_loop]. rewrite (proj2 (Z.leb_gt 63 shift)) by lia.
  assert (Z.land x 127 = x mod 128) as Hm by (change 127 with (Z.ones 7); by rewrite Z.land_ones).
  pose proof (Z.mod_pos_bound x 128 ltac:(lia)) as Hb. rewrite Hm.
  assert (Z.shiftr x 7 = x / 128) as Hd by (by rewrite Z.shiftr_div_pow2). rewrite Hd.
  assert (0 <= x / 128) as Hd0 by (apply Z.div_pos; lia). pose proof (Z.div_mod x 128 ltac:(lia)) as Hdm.
  destruct (group_values (x mod 128) Hb) as (H1 & H2 & H3 & H4).
  assert (0 < 2 ^ shift) as Hp by (apply Z.pow_pos_nonneg; lia).
  assert (∀ y, 0 <= y → Z.lor acc (Z.shiftl y shift) = acc + y * 2 ^ shift) as Hor.
  { intros y Hy. rewrite Z.lor_comm, Z.shiftl_mul_pow2 by lia. rewrite lor_low by lia. lia. }
  destruct (Z.eqb_spec (x / 128) 0) as [Hz | Hnz].
  - rewrite Hz. cbn [Z.ltb Z.compare]. rewrite H1, H2. cbn [Z.eqb]. rewrite Hor by lia.
    cbn [app]. repeat f_equal. lia.
  - rewrite (proj2 (Z.ltb_lt 0 (x / 128))) by lia. rewrite H3, H4. cbn [Z.eqb].
    assert (2 ^ (shift + 7) = 128 * 2 ^ shift) as Hp7 by (rewrite Z.pow_add_r by lia; change (2 ^ 7) with 128; lia).
    assert (0 < fuel)%nat as Hfp.
    { destruct fuel; [| lia]. exfalso. change (7 * Z.of_nat 1) with 7 in Hf. change (2 ^ 7) with 128 in Hf. lia. }
    rewrite Hor by lia. rewrite IH; [| | | done | | | done].
    + do 2 f_equal. f_equal. rewrite Hp7. nia.
    + split; [lia |]. destruct (Z.lt_ge_cases (shift + 7) 63) as [? | Hge]; [done | exfalso].
      assert (2 ^ 63 <= 2 ^ (shift + 7)) by (apply Z.pow_le_mono_r; lia). nia.
    + split; [nia |]. rewrite Hp7. nia.
    + rewrite Hp7. nia.
    + replace (7 * Z.of_nat (S fuel)) with (7 * Z.of_nat fuel + 7) in Hf by lia. rewrite Z.pow_add_r in Hf by lia.
      change (2 ^ 7) with 128 in Hf. apply Z.div_lt_upper_bound; lia.
Qed.

(** A length below 2^63 is read back. *)
Lemma varint_round x r : 0 <= x < 2 ^ 63 → read_varint (write_varint x ++ r) = (Ok (Some x), r).
Proof.
  intros Hx. unfold read_varint, write_varint. rewrite read_write_varint; try lia.
  do 3 f_equal. lia.
Qed.

(** What follows a value does not change it. *)
Lemma slice_varint_app buf t x rest : slice_varint buf = Some (x, rest) → slice_varint (buf ++ t) = Some (x, rest ++ t).
Proof.
  unfold slice_varint. generalize 0 at 1 3. generalize 0. intros shift acc. revert acc shift.
  induction buf as [| b buf IH]; intros acc shift; simpl; [done |]. destruct (shift <? 63); [| done].
  destruct (Z.land (Byte.byte.unsigned b) 128 =? 0); [by intros [= <- <-] |]. apply IH.
Qed.

Lemma slice_varint_suffix buf x rest : slice_varint buf = Some (x, rest) → ∃ h, buf = h ++ rest ∧ h ≠ [].
Proof.
  unfold slice_varint. generalize 0 at 1. generalize 0. intros shift acc. revert acc shift.
  induction buf as [| b buf IH]; intros acc shift; simpl; [done |]. destruct (shift <? 63); [| done].
  destruct (Z.land (Byte.byte.unsigned b) 128 =? 0); [intros [= <- <-]; by exists [b] |].
  intros (h & -> & _)%IH. by exists (b :: h).
Qed.
