(* ===== verification/CarFacts.v ===== *)
(** * What the bulk import does

    The frames of a stream, and the import under any interleaving of the
    reader and the workers: it ends, every block of the stream is accounted
    for, and the store gains blocks of the stream and nothing else.

    Second part: Export, and the way back. *)

From Stdlib Require Import ZArith Lia Strings.Byte Sorting.Permutation Sorting.Sorted.
From stdpp Require Import base list gmap strings sorting.
From S2P Require Import Prelude Domain Paging Car.
Open Scope Z_scope.

(** ** Frames *)

(** Code, digest length, and a digest of that length. *)
Definition multihash (mh : bytes) : Prop :=
  ∃ code rest digest, slice_varint mh = Some (code, rest) ∧ slice_varint rest = Some (blen digest, digest).

Lemma parse_cid_of mh body :
  multihash mh → blen mh + blen body < 2 ^ 63 →
  parse_cid (([x01; x55] ++ mh) ++ body) = Some (S (S (length mh)), mh).
Proof.
  intros (code & rest & digest & Hc & Hd) Hlen. unfold parse_cid.
  set (buf := ([x01; x55] ++ mh) ++ body).
  assert (u8_at 0 buf = 1) as -> by reflexivity. rewrite andb_false_r. cbn [andb]. unfold parse_cid_v1.
  assert (slice_varint buf = Some (1, x55 :: mh ++ body)) as -> by reflexivity. cbn [negb Z.eqb Pos.eqb].
  assert (slice_varint (x55 :: mh ++ body) = Some (0x55, mh ++ body)) as -> by reflexivity.
  rewrite (slice_varint_app mh body _ _ Hc), (slice_varint_app rest body _ _ Hd). cbn zeta.
  assert (blen buf = 2 + blen mh + blen body) as Hb by (unfold buf; rewrite !blen_app; reflexivity).
  rewrite Hb, !blen_app. pose proof (blen_nonneg mh). pose proof (blen_nonneg body).
  replace (2 + blen mh + blen body - (blen digest + blen body) + blen digest) with (2 + blen mh) by lia.
  rewrite (proj2 (Z.leb_gt _ _)), (proj2 (Z.ltb_ge _ _)) by lia. cbn [orb].
  replace (Z.to_nat (2 + blen mh)) with (S (S (length mh))) by (unfold blen; lia).
  replace (Z.to_nat (2 + blen mh + blen body - (blen mh + blen body))) with 2%nat by lia.
  replace (Z.to_nat (2 + blen mh - (2 + blen mh + blen body - (blen mh + blen body)))) with (length mh) by (unfold blen; lia).
  do 2 f_equal. unfold buf, slice. simpl. apply take_app_length.
Qed.

Lemma slice_varint_one b buf :
  Z.land (Byte.byte.unsigned b) 128 = 0 → slice_varint (b :: buf) = Some (Z.land (Byte.byte.unsigned b) 127, buf).
Proof. intros Hb. unfold slice_varint. simpl. rewrite Hb. simpl. by rewrite Z.shiftl_0_r. Qed.

Lemma slice_varint_nonneg buf x rest : slice_varint buf = Some (x, rest) → 0 <= x.
Proof.
  assert (∀ acc shift, 0 <= acc → slice_varint_loop acc shift buf = Some (x, rest) → 0 <= x) as H.
  2: { by apply H. }
  induction buf as [| b buf IH]; intros acc shift H0; simpl; [done |]. destruct (shift <? 63); [| done].
  assert (0 <= Z.lor acc (Z.shiftl (Z.land (Byte.byte.unsigned b) 127) shift)) as Hn.
  { apply Z.lor_nonneg. split; [done |]. apply Z.shiftl_nonneg, Z.land_nonneg. by right. }
  destruct (Z.land (Byte.byte.unsigned b) 128 =? 0); [by intros [= <- <-] | by apply IH].
Qed.

(** The multihash is a part of the CID, and one that begins like SHA-256 has
    its 34 bytes. *)
Lemma parse_cid_v1_inside buf n mh :
  parse_cid_v1 buf = Some (n, mh) → (n ≤ length buf)%nat ∧
  ((2 ≤ length mh)%nat → u8_at 0 mh = 0x12 → u8_at 1 mh = 0x20 → length mh = 34%nat).
Proof.
  unfold parse_cid_v1. destruct (slice_varint buf) as [[ver r1] |] eqn:H1; [| done]. destruct (negb _); [done |].
  destruct (slice_varint r1) as [[codec mr] |] eqn:H2; [| done].
  destruct (slice_varint mr) as [[code r3] |] eqn:H3; [| done].
  destruct (slice_varint r3) as [[dlen r4] |] eqn:H4; [| done].
  destruct (slice_varint_suffix _ _ _ H1) as (h1 & Hb & _). destruct (slice_varint_suffix _ _ _ H2) as (h2 & Hr1 & _).
  destruct (slice_varint_suffix _ _ _ H3) as (h3 & Hmr & Hh3). destruct (slice_varint_suffix _ _ _ H4) as (h4 & Hr3 & Hh4).
  pose proof (slice_varint_nonneg _ _ _ H4) as Hd0. cbn zeta.
  destruct (Z.leb_spec (2 ^ 64) (blen buf - blen r4 + dlen)); [done |].
  destruct (Z.ltb_spec (blen buf) (blen buf - blen r4 + dlen)) as [| Hfin]; [done |]. simpl. intros [= <- <-].
  unfold blen in *. split; [lia |].
  assert (length buf = (length h1 + length h2 + length mr)%nat) as Hlb by (subst buf r1; rewrite !length_app; lia).
  assert (length mr = (length h3 + length h4 + length r4)%nat) as Hlm by (rewrite Hmr, Hr3, !length_app; lia).
  match goal with |- context [slice ?a ?b buf] => set (n' := a); set (m' := b) end.
  assert (n' = length (h1 ++ h2)) as Hn' by (unfold n'; rewrite length_app; lia).
  assert (m' = (length h3 + length h4 + Z.to_nat dlen)%nat) as Hm' by (unfold m'; lia).
  assert (slice n' m' buf = take m' mr) as Hmh by (unfold slice; rewrite Hn', Hb, Hr1, app_assoc, drop_app_length; done).
  rewrite Hmh. intros H2' Hb0 Hb1. rewrite length_take_le by lia.
  destruct mr as [| b0 [| b1 mr]]; [rewrite length_take in H2'; simpl in H2'; lia .. |].
  destruct m' as [| [| m']]; [rewrite length_take in H2'; simpl in H2'; lia .. |].
  unfold u8_at in Hb0, Hb1. simpl in Hb0, Hb1.
  rewrite slice_varint_one in H3 by by rewrite Hb0. injection H3 as _ <-.
  rewrite slice_varint_one in H4 by by rewrite Hb1. rewrite Hb1 in H4. injection H4 as <- <-.
  assert (length h3 = 1%nat ∧ length h4 = 1%nat) as [? ?].
  { apply (f_equal length) in Hmr, Hr3. rewrite length_app in Hmr, Hr3. simpl in Hmr, Hr3. lia. }
  assert (Z.to_nat (Z.land 32 127) = 32%nat) by reflexivity. lia.
Qed.

(** ** The frames of a stream *)

Section Stream.
Context (sha256 : bytes → bytes) (key_prefix : bytes) (verify : bool).
Local Abbreviation next := (next_frame sha256 key_prefix verify).

Definition final (fr : frame) : bool := match fr with StreamEnd | StreamError _ => true | _ => false end.

Fixpoint stream (fuel : nat) (r : bytes) : list frame :=
  match fuel with
  | O => []
  | S fuel => let '(fr, rest) := next r in fr :: (if final fr then [] else stream fuel rest)
  end.
Definition frames (r : bytes) : list frame := stream (S (length r)) r.

Definition blocks_in (l : list frame) : list (BlockKey * bytes) :=
  omap (λ fr, match fr with Block key body => Some (key, body) | _ => None end) l.
Definition drops_in (l : list frame) : nat := sum_list_with (λ fr, match fr with Dropped => 1 | _ => 0 end)%nat l.

Lemma varint_loop_suffix r x shift first y rest :
  read_varint_loop x shift first r = (Ok (Some y), rest) → (length rest < length r)%nat.
Proof.
  revert x shift first. induction r as [| b r IH]; intros x shift first; simpl; [by destruct first |].
  destruct (63 <=? shift); [done |]. destruct (_ =? 0); [intros [= _ <-]; lia |]. intros H%IH. lia.
Qed.

Lemma next_shorter r fr rest : next r = (fr, rest) → final fr = false → (length rest < length r)%nat.
Proof.
  unfold next_frame, read_varint. destruct (read_varint_loop 0 0 true r) as [[[flen |] | e] r1] eqn:Hv.
  2,3: by intros [= <- <-]. apply varint_loop_suffix in Hv. destruct (_ || _); [by intros [= <- <-] |].
  unfold read_exact. destruct (_ <? _)%nat; [by intros [= <- <-] |]. intros [= _ <-] _. rewrite length_drop. lia.
Qed.

Lemma varint_loop_le r x shift first : (length (read_varint_loop x shift first r).2 <= length r)%nat.
Proof.
  revert x shift first. induction r as [| b r IH]; intros x shift first; simpl; [done |].
  destruct (63 <=? shift); [simpl; lia |]. destruct (_ =? 0); [simpl; lia |]. etransitivity; [apply IH | lia].
Qed.

Lemma next_le r : (length (next r).2 <= length r)%nat.
Proof.
  unfold next_frame, read_varint. pose proof (varint_loop_le r 0 0 true) as H.
  destruct (read_varint_loop 0 0 true r) as [[[flen |] | e] r1]; simpl in *; try done.
  destruct (_ || _); [done |]. unfold read_exact. destruct (_ <? _)%nat; simpl; [lia |]. rewrite length_drop. lia.
Qed.

Lemma stream_fuel f f' r : (length r < f)%nat → (length r < f')%nat → stream f r = stream f' r.
Proof.
  revert f' r. induction f as [| f IH]; intros [| f'] r H H'; [lia .. |]. simpl.
  destruct (next r) as [fr rest] eqn:Hn. f_equal. destruct (final fr) eqn:Hf; [done |].
  pose proof (next_shorter _ _ _ Hn Hf). apply IH; lia.
Qed.

Lemma frames_next r fr rest :
  next r = (fr, rest) → frames r = fr :: (if final fr then [] else frames rest).
Proof.
  intros Hn. unfold frames at 1. cbn [stream]. rewrite Hn. f_equal. destruct (final fr) eqn:Hf; [done |].
  pose proof (next_shorter _ _ _ Hn Hf). apply stream_fuel; lia.
Qed.
End Stream.

(** ** The import *)

Section ImportFacts.
Context (sha256 : bytes → bytes) (key_prefix : bytes) (verify : bool).
Context {B : Type} `{BS : !BlockStore B, BSS : !BlockStoreSpec B}.
(** The store takes every block at any time. *)
Context (always_ready : ∀ s, bs_ok s → bs_ready s) (takes_all : ∀ s k d, bs_takes s k d).
Local Abbreviation next := (next_frame sha256 key_prefix verify).
Local Abbreviation all_frames := (frames sha256 key_prefix verify).
Local Abbreviation BM := (M B DomainError).
Implicit Types (s : B) (im : import).

(** The block a worker has in its hands. *)
Definition in_hand (w : importer) : list (BlockKey * bytes) :=
  match w with Asking k b | Storing k b => [(k, b)] | _ => [] end.

(** How far the reader is: it has read the frames [P]. *)
Definition reading (r0 : bytes) (P : list frame) im : Prop :=
  Forall (λ fr, final fr = false) P ∧
  (if im_open im then all_frames r0 = P ++ all_frames (im_rest im) ∧ im_result im = Ok tt
   else (all_frames r0 = P ++ [StreamEnd] ∧ im_result im = Ok tt) ∨
        ∃ e, all_frames r0 = P ++ [StreamError e] ∧ im_result im = Err e).

(** The blocks [done] are dealt with, the others on their way. *)
Record importing s0 (r0 : bytes) (P : list frame) (dealt : list (BlockKey * bytes)) s im : Prop := {
  ig_ok : bs_ok s;
  ig_reading : reading r0 P im;
  ig_dropped : ci_corrupt (im_report im) = drops_in P;
  ig_blocks : dealt ++ (im_workers im ≫= in_hand) ++ im_queue im ≡ₚ blocks_in P;
  ig_count : (ci_blocks (im_report im) + ci_skipped (im_report im) + ci_errors (im_report im) = length dealt)%nat;
  ig_stored : ci_errors (im_report im) = 0%nat → ∀ k b, (k, b) ∈ dealt → is_Some (bs_val s k);
  ig_vals : ∀ k, bs_val s k = bs_val s0 k ∨ ∃ b, (k, b) ∈ blocks_in P ∧ bs_val s k = Some b;
  ig_gone : Gone ∈ im_workers im → im_open im = false ∧ im_queue im = [];
}.

Definition import_ok s0 r0 s im : Prop := ∃ P dealt, importing s0 r0 P dealt s im.

Lemma blocks_snoc P fr :
  blocks_in (P ++ [fr]) = blocks_in P ++ match fr with Block k b => [(k, b)] | _ => [] end.
Proof. unfold blocks_in. rewrite omap_app. by destruct fr. Qed.
Lemma drops_snoc P fr : drops_in (P ++ [fr]) = (drops_in P + match fr with Dropped => 1 | _ => 0 end)%nat.
Proof. unfold drops_in. rewrite sum_list_with_app. simpl. by destruct fr; rewrite ?Nat.add_0_r. Qed.

Lemma reader_step_ok s0 r0 s im :
  import_ok s0 r0 s im → reader_can im = true → import_ok s0 r0 s (reader_step sha256 key_prefix verify im).
Proof.
  intros (P & dealt & [Hok [HP Hrd] Hdr Hbl Hcnt Hst Hv Hgone]) [Hopen _]%andb_true_iff. rewrite Hopen in Hrd, Hgone.
  assert (Gone ∉ im_workers im) as Hng by (intros Hin; by destruct (Hgone Hin)). clear Hgone. destruct Hrd as [Hfr Hres].
  unfold reader_step. destruct (next (im_rest im)) as [fr rest] eqn:Hn. rewrite (frames_next _ _ _ _ _ _ Hn) in Hfr.
  assert (∀ fr', fr = fr' → final fr' = false → all_frames r0 = (P ++ [fr']) ++ all_frames rest) as Hgo.
  { intros fr' -> Hf. rewrite Hf in Hfr. by rewrite <-app_assoc. }
  assert (∀ fr', final fr' = false → Forall (λ fr, final fr = false) (P ++ [fr'])) as HP' by (intros; apply Forall_app; by repeat constructor).
  assert (∀ fr' k, bs_val s k = bs_val s0 k ∨ ∃ b, (k, b) ∈ blocks_in (P ++ [fr']) ∧ bs_val s k = Some b) as Hv'.
  { intros fr' k. destruct (Hv k) as [? | (b & ? & ?)]; [by left | right]. exists b. rewrite blocks_snoc.
    split; [apply elem_of_app; by left | done]. }
  destruct fr as [| e | | key body].
  - exists P, dealt. split; simpl; try done. split; [done |]. simpl. by left.
  - exists P, dealt. split; simpl; try done. split; [done |]. simpl. right. by exists e.
  - exists (P ++ [Dropped]), dealt. split; simpl; try done.
    + split; [by apply HP' |]. simpl. rewrite Hopen. split; [by apply Hgo | done].
    + rewrite drops_snoc. lia.
    + by rewrite blocks_snoc, app_nil_r.
  - exists (P ++ [Block key body]), dealt. split; simpl; try done.
    + split; [by apply HP' |]. simpl. rewrite Hopen. split; [by apply Hgo | done].
    + rewrite drops_snoc. lia.
    + rewrite blocks_snoc, !app_assoc. apply Permutation_app_tail. by rewrite <-app_assoc.
Qed.

(** A worker takes its next state; what it had in its hands becomes what it
    has now and what is dealt with. *)
Lemma importing_worker s0 r0 P dealt s im w c c' s' im' dealt' :
  importing s0 r0 P dealt s im → im_workers im !! w = Some c →
  im_workers im' = <[w := c']> (im_workers im) → im_open im' = im_open im → im_rest im' = im_rest im →
  im_result im' = im_result im → ci_corrupt (im_report im') = ci_corrupt (im_report im) →
  dealt' ++ in_hand c' ++ im_queue im' ≡ₚ dealt ++ in_hand c ++ im_queue im →
  bs_ok s' →
  (ci_blocks (im_report im') + ci_skipped (im_report im') + ci_errors (im_report im') = length dealt')%nat →
  (ci_errors (im_report im') = 0%nat → ∀ k b, (k, b) ∈ dealt' → is_Some (bs_val s' k)) →
  (∀ k, bs_val s' k = bs_val s k ∨ ∃ b, (k, b) ∈ in_hand c ∧ bs_val s' k = Some b) →
  (c' = Gone → im_open im = false) → (im_queue im = [] → im_queue im' = []) → (c' = Gone → im_queue im = []) →
  import_ok s0 r0 s' im'.
Proof.
  intros [Hok Hrd Hdr Hbl Hcnt Hst Hv Hgone] Hw Hws Ho Hre Hres Hco Hp Hok' Hcnt' Hst' Hv' Hg1 Hg2 Hg3.
  destruct (bind_insert in_hand (im_workers im) w c c' Hw) as (rest & H1 & H2).
  exists P, dealt'. split; try done.
  - unfold reading. by rewrite Ho, Hre, Hres.
  - by rewrite Hco.
  - etransitivity; [| exact Hbl]. rewrite Hws. exact (perm_exchange _ _ _ _ _ _ _ _ _ H1 H2 Hp).
  - intros k. destruct (Hv' k) as [-> | (b & Hb & Hs)]; [apply Hv |]. right. exists b. split; [| done].
    apply (elem_of_Permutation_proper _ _ _ Hbl). apply elem_of_app. right. apply elem_of_app. left.
    apply (elem_of_Permutation_proper _ _ _ H1), elem_of_app. by right.
  - rewrite Hws, Ho. intros [Heq | Hin]%elem_of_insert_inv; [auto |]. destruct (Hgone Hin). auto.
Qed.

Lemma elem_of_one {A} (x y : A) : x ∈ [y] ↔ x = y.
Proof. apply list_elem_of_singleton. Qed.

Lemma importer_step_ok s0 r0 w s im :
  import_ok s0 r0 s im → importer_can im w = true →
  wp (importer_step w im : BM import) (λ r s', ∃ im', r = Ok im' ∧ import_ok s0 r0 s' im') s.
Proof.
  intros (P & dealt & HI) Hcan. pose proof HI as [Hok Hrd Hdr Hbl Hcnt Hst Hv Hgone]. unfold importer_step, importer_can in *.
  assert (∀ s', vals_same bs_val s s' → ci_errors (im_report im) = 0%nat →
    ∀ k b, (k, b) ∈ dealt → is_Some (bs_val s' k)) as Hkeep.
  { intros s' Hs He k b Hin. rewrite (Hs k). by eapply Hst. }
  destruct (im_workers im !! w) as [[| key body | key body |] |] eqn:Hw; try done.
  - destruct (im_queue im) as [| [key body] q] eqn:Hq.
    + rewrite bool_decide_eq_true_2 in Hcan by done. simpl in Hcan. destruct (im_open im) eqn:Ho; [done |].
      apply wp_ret. eexists. split; [done |]. eapply (importing_worker _ _ _ _ _ _ w _ Gone _ _ dealt); try done; auto.
    + apply wp_ret. eexists. split; [done |].
      eapply (importing_worker _ _ _ _ _ _ w _ (Asking key body) _ _ dealt); try done; simpl; rewrite ?Hq; auto; done.
  - wp_step. eapply wp_mono; [apply bs_has_spec; by apply always_ready |]. intros r s' (Hok' & Hs & Hr). apply wp_ret.
    assert (∀ k, bs_val s' k = bs_val s k ∨ ∃ b, (k, b) ∈ [(key, body)] ∧ bs_val s' k = Some b) as Hv' by (intros k; left; apply Hs).
    assert (import_ok s0 r0 s' (im_worker w (Storing key body) im)) as Hnext.
    { eapply (importing_worker _ _ _ _ _ _ w _ (Storing key body) _ _ dealt); try done. by apply Hkeep. }
    eexists. split; [done |]. destruct r as [[|] | e]; [| exact Hnext ..].
    eapply (importing_worker _ _ _ _ _ _ w _ Receiving _ _ (dealt ++ [(key, body)])); try done; simpl.
    + by rewrite <-app_assoc.
    + rewrite length_app. simpl. lia.
    + intros He k b [Hin | [= -> ->]%elem_of_one]%elem_of_app; [by eapply Hkeep |]. rewrite (Hs key).
      symmetry in Hr. by apply bool_decide_eq_true in Hr.
  - wp_step. eapply wp_mono; [apply bs_put_spec; [by apply always_ready | done] |]. intros r s' [Hok' Hr]. apply wp_ret.
    eexists. split; [done |].
    eapply (importing_worker _ _ _ _ _ _ w _ Receiving _ _ (dealt ++ [(key, body)])); try done; destruct r as [[] | e]; simpl; try done.
    1,2: by rewrite <-app_assoc.
    1,2: rewrite length_app; simpl; lia.
    + intros He k b Hin. rewrite (Hr k). case_decide as Hk; [done |].
      apply elem_of_app in Hin as [Hin | [= -> ->]%elem_of_one]; [by eapply Hst | done].
    + intros k. rewrite (Hr k). case_decide as Hk; [subst k; right | by left]. exists body. split; [by left | done].
    + intros k. destruct (Hr k) as [? | [-> ?]]; [by left | right]. exists body. split; [by left | done].
Qed.

(** ** Termination *)

Definition worker_weight (w : importer) : nat :=
  match w with Receiving => 1 | Asking _ _ => 3 | Storing _ _ => 2 | Gone => 0 end.
Definition import_weight im : nat :=
  4 * length (im_rest im) + (if im_open im then 1 else 0) + 3 * length (im_queue im) +
  sum_list_with worker_weight (im_workers im).

Lemma reader_lighter im :
  reader_can im = true → (import_weight (reader_step sha256 key_prefix verify im) < import_weight im)%nat.
Proof.
  intros [Hopen _]%andb_true_iff. unfold reader_step, import_weight. destruct (next (im_rest im)) as [fr rest] eqn:Hn.
  rewrite Hopen. assert (length rest <= length (im_rest im))%nat as Hle.
  { pose proof (next_le sha256 key_prefix verify (im_rest im)) as H. by rewrite Hn in H. }
  pose proof (next_shorter _ _ _ _ _ _ Hn) as Hlt.
  destruct fr; simpl; rewrite ?Hopen, ?length_app; simpl; try (specialize (Hlt eq_refl)); lia.
Qed.

Lemma importer_lighter w im :
  importer_can im w = true →
  ∀ s, wp (importer_step w im : BM import) (λ r _, ∀ im', r = Ok im' → (import_weight im' < import_weight im)%nat) s.
Proof.
  intros Hcan s. unfold importer_step, importer_can in *.
  assert (∀ c c' q f, im_workers im !! w = Some c →
    (worker_weight c' + 3 * length q < worker_weight c + 3 * length (im_queue im))%nat →
    (import_weight (im_worker w c' (im_count f (im_send q im))) < import_weight im)%nat) as Hlight.
  { intros c c' q f Hw Hlt. unfold import_weight. simpl. pose proof (sum_insert worker_weight _ w c c' Hw). lia. }
  destruct (im_workers im !! w) as [[| key body | key body |] |] eqn:Hw; try done.
  - destruct (im_queue im) as [| [key body] q] eqn:Hq.
    + destruct (im_open im); [done |]. apply wp_ret. intros im' [= <-].
      apply (Hlight Receiving Gone (im_queue im) id); [done |]. rewrite Hq. simpl. lia.
    + apply wp_ret. intros im' [= <-]. apply (Hlight Receiving (Asking key body) q id); [done |]. simpl. lia.
  - wp_step. unfold wp. destruct (bs_has key s) as [r s']. simpl. intros im' [= <-].
    destruct r as [[|] | e].
    + apply (Hlight (Asking key body) Receiving (im_queue im) ci_skip); [done |]. simpl. lia.
    + apply (Hlight (Asking key body) (Storing key body) (im_queue im) id); [done |]. simpl. lia.
    + apply (Hlight (Asking key body) (Storing key body) (im_queue im) id); [done |]. simpl. lia.
  - wp_step. unfold wp. destruct (bs_put key body s) as [r s']. simpl. intros im' [= <-].
    apply (Hlight (Storing key body) Receiving (im_queue im)); [done |]. simpl. lia.
Qed.

Lemma elem_of_ready im who :
  who ∈ import_ready im →
  (who = 0%nat ∧ reader_can im = true) ∨ ∃ w, who = S w ∧ importer_can im w = true.
Proof.
  unfold import_ready. intros [H | H]%elem_of_app.
  - destruct (reader_can im); [apply elem_of_one in H; by left | by apply not_elem_of_nil in H].
  - right. apply list_elem_of_fmap in H as (w & -> & Hw). apply list_elem_of_filter in Hw as [Hw _]. by exists w.
Qed.

(** When no thread can go on, the reader has closed the channel, it is empty,
    and all workers are gone. *)
Lemma import_over s0 r0 s im :
  import_ok s0 r0 s im → import_ready im = [] → (0 < length (im_workers im))%nat →
  im_open im = false ∧ im_queue im = [] ∧ im_workers im ≫= in_hand = [].
Proof.
  intros (P & dealt & HI) [Hr Hw]%app_nil Hpos.
  assert (∀ w, (w < length (im_workers im))%nat → importer_can im w = false) as Hno.
  { intros w Hlt. destruct (importer_can im w) eqn:Hc; [exfalso | done]. apply map_eq_nil in Hw.
    assert (w ∈ filter (λ w, importer_can im w = true) (seq 0 (length (im_workers im)))) as Hin.
    { apply list_elem_of_filter. split; [done |]. apply elem_of_seq. lia. }
    rewrite Hw in Hin. by apply not_elem_of_nil in Hin. }
  assert (∀ w c, im_workers im !! w = Some c → (c = Receiving ∧ im_queue im = [] ∧ im_open im = true) ∨ c = Gone) as Hstuck.
  { intros w c Hc. pose proof (Hno w ltac:(by eapply lookup_lt_Some)) as Hcan. unfold importer_can in Hcan. rewrite Hc in Hcan.
    destruct c; try done; [left | by right]. apply orb_false_iff in Hcan as [H1 H2].
    split; [done |]. apply negb_false_iff in H1, H2. by apply bool_decide_eq_true in H1. }
  assert (im_workers im ≫= in_hand = []) as Hhand.
  { clear -Hstuck. induction (im_workers im) as [| c l IH]; [done |]. change (in_hand c ++ (l ≫= in_hand) = []).
    rewrite IH; [| intros w c'; apply (Hstuck (S w))]. destruct (Hstuck 0%nat c eq_refl) as [[-> _] | ->]; done. }
  assert (im_open im = false ∧ im_queue im = []) as []; [| done].
  destruct (im_workers im) as [| c l] eqn:Hl; [simpl in Hpos; lia |].
  destruct (Hstuck 0%nat c eq_refl) as [(-> & Hq & Ho) | ->].
  - exfalso. unfold reader_can, channel_bound in Hr. rewrite Ho, Hq, Hl in Hr. done.
  - apply (ig_gone _ _ _ _ _ _ HI). rewrite Hl. left.
Qed.

Lemma import_start_ok s0 r0 workers : bs_ok s0 → import_ok s0 r0 s0 (import_start workers r0).
Proof.
  intros Hok. exists [], []. split; simpl; try done.
  - induction workers as [| n IH]; simpl; [done | exact IH].
  - intros _ k b Hin. by apply not_elem_of_nil in Hin.
  - intros k. by left.
  - intros Hin. by apply elem_of_replicate in Hin as [? _].
Qed.

Lemma import_step_length im who : ∀ s,
  wp (import_step sha256 key_prefix verify who im : BM import)
    (λ r _, ∀ im', r = Ok im' → length (im_workers im') = length (im_workers im)) s.
Proof.
  intros s. destruct who as [| w]; simpl.
  { apply wp_ret. intros im' [= <-]. unfold reader_step. destruct (next (im_rest im)) as [[| e | | k b] rest]; done. }
  unfold importer_step. destruct (im_workers im !! w) as [[| key body | key body |] |]; try (apply wp_ret; by intros im' [= <-]).
  - destruct (im_queue im) as [| [key body] q]; [destruct (im_open im) |]; apply wp_ret; intros im' [= <-]; simpl; by rewrite ?length_insert.
  - wp_step. unfold wp. destruct (bs_has key s) as [r s']. simpl. intros im' [= <-]. destruct r as [[|] | e]; simpl; by rewrite length_insert.
  - wp_step. unfold wp. destruct (bs_put key body s) as [r s']. simpl. intros im' [= <-]. simpl. by rewrite length_insert.
Qed.

Lemma wp_import_step s0 r0 who s im :
  import_ok s0 r0 s im → who ∈ import_ready im →
  wp (import_step sha256 key_prefix verify who im : BM import) (λ r s', ∃ im', r = Ok im' ∧ import_ok s0 r0 s' im' ∧
    (import_weight im' < import_weight im)%nat ∧ length (im_workers im') = length (im_workers im)) s.
Proof.
  intros HI Hin. apply elem_of_ready in Hin as [[-> Hc] | (w & -> & Hc)]; pose proof (import_step_length im) as Hl.
  - specialize (Hl 0%nat s). apply wp_ret. eexists. split_and!; [done | by apply reader_step_ok | by apply reader_lighter | by apply Hl].
  - specialize (Hl (S w) s). pose proof (importer_lighter w im Hc s) as Hw. pose proof (importer_step_ok s0 r0 w s im HI Hc) as Hok.
    simpl in *. unfold wp in *. destruct (importer_step w im s) as [r s']. destruct Hok as (im' & Hr & Hok). simpl in *.
    exists im'. split_and!; [done | done | by apply Hw | by apply Hl].
Qed.

(** Any scheduling leads to the end. *)
Lemma wp_run_import s0 r0 fuel sched s im :
  import_ok s0 r0 s im → (import_weight im < fuel)%nat →
  wp (run_import sha256 key_prefix verify fuel sched im : BM _) (λ r s', ∃ im', r = Ok (Some im') ∧
    import_ok s0 r0 s' im' ∧ import_ready im' = [] ∧ length (im_workers im') = length (im_workers im)) s.
Proof.
  revert sched s im. induction fuel as [| fuel IH]; intros sched s im HI Hlt; [lia |]. simpl.
  destruct (import_ready im) as [| t ts] eqn:Hr; [apply wp_ret; by exists im |].
  wp_step. eapply wp_mono.
  { apply (wp_import_step s0 r0 (nth (hd 0 sched mod length (t :: ts)) (t :: ts) 0)%nat); [done |]. rewrite Hr.
    apply list_elem_of_In, nth_In, Nat.mod_upper_bound. done. }
  intros r s' (im' & -> & HI' & Hw & Hl). eapply wp_mono; [apply (IH _ _ im' HI'); lia |].
  intros r s'' (im2 & ? & ? & ? & ?). exists im2. split_and!; [done | done | done | congruence].
Qed.

Lemma import_workers_pos par : (0 < import_workers par)%nat.
Proof. unfold import_workers. lia. Qed.

(** What an import of the frames [rest] leaves behind. *)
Definition import_outcome (rest : bytes) s (res : DomainResult CarImportReport) (s' : B) : Prop :=
  ∃ P fin, all_frames rest = P ++ [fin] ∧ Forall (λ fr, final fr = false) P ∧
    (∀ k, bs_val s' k = bs_val s k ∨ ∃ b, (k, b) ∈ blocks_in P ∧ bs_val s' k = Some b) ∧
    match res with
    | Ok rep => fin = StreamEnd ∧ ci_corrupt rep = drops_in P ∧
        (ci_blocks rep + ci_skipped rep + ci_errors rep)%nat = length (blocks_in P) ∧
        (ci_errors rep = 0%nat → ∀ k b, (k, b) ∈ blocks_in P → is_Some (bs_val s' k))
    | Err e => fin = StreamError e
    end.

Lemma wp_car_import r par sched s rest :
  bs_ok s → read_header r = Ok rest →
  wp (car_import sha256 key_prefix verify r par sched) (import_outcome rest s) s.
Proof.
  intros Hok Hhdr.
  unfold car_import. rewrite Hhdr. do 3 wp_step. set (W := import_workers par).
  eapply wp_mono.
  { apply (wp_run_import s rest); [by apply import_start_ok |]. unfold import_weight, import_fuel. simpl. rewrite sum_repeat. simpl. lia. }
  intros r1 s1 (im & -> & HI & Hend & Hl). simpl in Hl. rewrite length_replicate in Hl.
  destruct (import_over _ _ _ _ HI Hend) as (Ho & Hq & Hh); [pose proof (import_workers_pos par); unfold W in *; lia |].
  destruct HI as (P & dealt & [_ [HP Hrd] Hdr Hbl Hcnt Hst Hv _]). rewrite Ho in Hrd. rewrite Hq, Hh, !app_nil_r in Hbl.
  destruct Hrd as [[Hfr Hres] | (e & Hfr & Hres)]; wp_step; rewrite Hres; wp_steps.
  - exists P, StreamEnd. split_and!; [done | done | done | done | done | |].
    + by rewrite Hcnt, Hbl.
    + intros He k b Hin. apply (Hst He k b). by rewrite Hbl.
  - by exists P, (StreamError e).
Qed.

(** The bulk import, for every scheduling of its reader and its workers:
    it ends; each frame of the stream is counted once, as a block, skipped, in
    error or corrupt; the store gains blocks of the stream and nothing else;
    and when no put failed it holds every key of the stream. The error of the
    import is the reader's. *)
Theorem import_accounts_for_every_frame r par sched s rest res s' :
  bs_ok s → read_header r = Ok rest →
  car_import sha256 key_prefix verify r par sched s = (res, s') →
  ∃ P fin, all_frames rest = P ++ [fin] ∧ Forall (λ fr, final fr = false) P ∧
    (∀ k, bs_val s' k = bs_val s k ∨ ∃ b, (k, b) ∈ blocks_in P ∧ bs_val s' k = Some b) ∧
    match res with
    | Ok rep => fin = StreamEnd ∧ ci_corrupt rep = drops_in P ∧
        (ci_blocks rep + ci_skipped rep + ci_errors rep)%nat = length (blocks_in P) ∧
        (ci_errors rep = 0%nat → ∀ k b, (k, b) ∈ blocks_in P → is_Some (bs_val s' k))
    | Err e => fin = StreamError e
    end.
Proof. intros Hok Hhdr Hrun. exact (wp_run _ _ _ _ _ (wp_car_import r par sched s rest Hok Hhdr) Hrun). Qed.
End ImportFacts.

(** * Export, and the way back

    The exported stream has one frame per block, in key order, whatever the
    pages; importing it into another store gives the same blocks. *)

Section Exporting.
Context (sha256 : bytes → bytes) (key_prefix : bytes) (verify : bool).

(** ** One frame *)

(** A block that the format can carry: the key is the prefix and the base 32
    of a multihash, of this body when it is SHA-256 and checked; and the frame
    is not too long. *)
Definition carried (k : BlockKey) (v : bytes) (mh : bytes) : Prop :=
  k = key_for_multihash key_prefix mh ∧ multihash mh ∧
  (verify = true → u8_at 0 mh = 0x12 → u8_at 1 mh = 0x20 → sha256 v = slice 2 32 mh) ∧
  2 + blen mh + blen v <= 2 ^ 30.

Definition frame_of (e : BlockKey * bytes) : bytes :=
  match base32_decode (drop (length key_prefix) e.1) with Some mh => block_frame mh e.2 | None => [] end.

Lemma carried_key k v mh : carried k v mh → base32_decode (drop (length key_prefix) k) = Some mh.
Proof. intros (-> & _). unfold key_for_multihash. rewrite drop_app_length. apply base32_round. Qed.

Lemma next_block k v mh r :
  carried k v mh → next_frame sha256 key_prefix verify (block_frame mh v ++ r) = (Block k v, r).
Proof.
  intros (Hk & Hmh & Hsha & Hlen). pose proof (blen_nonneg mh). pose proof (blen_nonneg v).
  unfold next_frame, block_frame. set (cid := [x01; x55] ++ mh).
  assert (blen cid = 2 + blen mh) as Hcid by (unfold cid; rewrite blen_app; reflexivity).
  rewrite <-(app_assoc (write_varint _)), varint_round by lia.
  rewrite (proj2 (Z.eqb_neq _ _)), (proj2 (Z.ltb_ge _ _)) by lia. cbn [orb].
  assert (Z.to_nat (blen cid + blen v) = length (cid ++ v)) as Hn by (rewrite length_app; unfold blen; lia).
  unfold read_exact. rewrite Hn, (proj2 (Nat.ltb_ge _ _)) by (rewrite (length_app (cid ++ v)); lia).
  rewrite take_app_length, drop_app_length. f_equal. unfold check_frame.
  unfold cid. rewrite parse_cid_of by (done || lia).
  replace (S (S (length mh))) with (length ([x01; x55] ++ mh)) by done. rewrite drop_app_length.
  rewrite Hk. destruct verify; [| done]. cbn [andb].
  destruct (2 <=? blen mh); [| done]. destruct (Z.eqb_spec (u8_at 0 mh) 0x12); [| done].
  destruct (Z.eqb_spec (u8_at 1 mh) 0x20); [| done]. cbn [andb]. rewrite bool_decide_eq_true_2; [done |]. by apply Hsha.
Qed.

(** The frames of a stream of blocks. *)
Lemma frames_of_blocks (X : list (BlockKey * bytes)) :
  (∀ k v, (k, v) ∈ X → ∃ mh, carried k v mh) →
  frames sha256 key_prefix verify (concat (map frame_of X)) = map (λ e, Block e.1 e.2) X ++ [StreamEnd].
Proof.
  induction X as [| [k v] X IH]; intros Hc; cbn [map concat].
  { done. }
  destruct (Hc k v) as [mh Hmh]; [left |].
  assert (frame_of (k, v) = block_frame mh v) as -> by (unfold frame_of; cbn [fst]; by rewrite (carried_key _ _ _ Hmh)).
  rewrite (frames_next _ _ _ _ _ _ (next_block k v mh _ Hmh)). cbn [final app]. f_equal. apply IH.
  intros k' v' Hin. apply Hc. by right.
Qed.

Lemma read_own_header r : read_header (write_varint (blen CAR_HEADER) ++ CAR_HEADER ++ r) = Ok r.
Proof.
  unfold read_header. rewrite varint_round by (split; by vm_compute). cbn [Z.ltb].
  rewrite (proj2 (Z.ltb_ge _ _)) by (by vm_compute). change (Z.to_nat (blen CAR_HEADER)) with (length CAR_HEADER).
  unfold read_exact. rewrite (proj2 (Nat.ltb_ge _ _)) by (rewrite length_app; lia).
  rewrite take_app_length, drop_app_length. by rewrite bool_decide_eq_false_2 by (by vm_compute).
Qed.
End Exporting.

(** ** The pages *)

Section ExportLoop.
Context (sha256 : bytes → bytes) (key_prefix : bytes) (verify : bool).
Context {B : Type} `{BS : !BlockStore B, BSS : !BlockStoreSpec B}.
Context (always_ready : ∀ s, bs_ok s → bs_ready s).
Local Abbreviation BM := (M B DomainError).
Implicit Types (s : B) (X : list (BlockKey * bytes)).

(** The blocks under the prefix are [good], and their keys are among [all]. *)
Context (content : BlockKey → option bytes) (all : list BlockKey).
Context (good : ∀ k v, key_prefix `prefix_of` k → content k = Some v → ∃ mh, carried sha256 key_prefix verify k v mh).
Context (finite : ∀ k, due key_prefix (held content) k → k ∈ all).

Definition holding s : Prop := bs_ok s ∧ ∀ k, bs_val s k = content k.

Definition entry (k : BlockKey) : BlockKey * bytes := (k, default [] (content k)).

Lemma wp_export_keys keys acc s :
  holding s → Forall (due key_prefix (held content)) keys →
  wp (mfold (export_key key_prefix) acc keys : BM _) (λ r s', holding s' ∧
    match r with
    | Ok acc' => acc'.1 = acc.1 ++ concat (map (frame_of key_prefix) (map entry keys))
    | Err _ => True
    end) s.
Proof.
  revert acc s. induction keys as [| k keys IH]; intros acc s [Hok Hv] Hdue; simpl.
  { apply wp_ret. by rewrite app_nil_r. }
  apply Forall_cons in Hdue as [[Hp [v Hk]] Hdue]. wp_step. unfold export_key at 1. wp_step.
  eapply wp_mono; [by apply bs_get_spec, always_ready |]. intros r s' (Hok' & Hs & Hr).
  assert (holding s') as Hh by (split; [done |]; intros k'; by rewrite (Hs k')).
  destruct r as [v' | e].
  - rewrite Hv, Hk in Hr. injection Hr as <-. destruct (good k v Hp Hk) as [mh Hmh].
    rewrite (carried_key _ _ _ _ _ _ Hmh). apply wp_ret. eapply wp_mono; [by apply IH |].
    intros r s'' [? Hr]. split; [done |]. destruct r as [acc' |]; [| done]. rewrite Hr. cbn [fst].
    rewrite <-app_assoc. do 2 f_equal. unfold frame_of, entry. cbn [fst snd].
    by rewrite (carried_key _ _ _ _ _ _ Hmh), Hk.
  - destruct e; try (by apply wp_throw). rewrite Hv, Hk in Hr. done.
Qed.

Lemma wp_export_loop fuel after acc h keys s :
  holding s → seen key_prefix (held content) after keys → acc.1 = h ++ concat (map (frame_of key_prefix) (map entry keys)) →
  (length all < fuel + length keys)%nat →
  wp (export_loop key_prefix fuel after acc : BM _) (λ r s', holding s' ∧
    match r with
    | Ok o => ∃ keys' rep, complete key_prefix (held content) keys' ∧ o = Some (h ++ concat (map (frame_of key_prefix) (map entry keys')), rep)
    | Err _ => True
    end) s.
Proof.
  revert after acc keys s. induction fuel as [| fuel IH]; intros after acc keys s Hh He Hacc Hf.
  { pose proof (seen_bounded _ _ all after keys finite He). lia. }
  cbn [export_loop]. wp_step. eapply wp_mono.
  { apply bs_list_spec; [by apply always_ready, Hh | by eapply seen_cursor]. }
  intros r s1 (Hok1 & Hs1 & Hr). destruct Hh as [Hok Hv].
  assert (holding s1) as Hh1 by (split; [done |]; intros k; by rewrite (Hs1 k)).
  destruct r as [page | e]; [| done].
  apply (list_page_ext _ (here content)) in Hr; [| intros k sz; unfold here; by rewrite Hv].
  destruct (seen_page _ _ (here content) after keys 1024 page (held_here content) He Hr) as (Hdue & Hsort & Hall & Hnext).
  change (map fst page) with (page.*1).
  wp_step. eapply wp_mono; [by apply wp_export_keys |]. intros r s2 [Hh2 Hacc2]. destruct r as [acc2 |]; [| done].
  assert (acc2.1 = h ++ concat (map (frame_of key_prefix) (map entry (keys ++ page.*1)))) as Hacc'.
  { rewrite Hacc2, Hacc, <-app_assoc, <-concat_app, <-map_app, <-map_app. done. }
  destruct (Nat.ltb_spec (length page) 1024) as [Hlt | Hge]; cbn [orb].
  - apply wp_ret. split; [done |]. exists (keys ++ page.*1), acc2.2.
    split; [by apply Hall |]. rewrite <-Hacc'. by destruct acc2.
  - destruct (last page.*1) as [a |] eqn:Hlast.
    + rewrite bool_decide_eq_false_2 by done. apply (IH (Some a) acc2 (keys ++ page.*1)); [done | by apply Hnext | done |].
      rewrite length_app, length_fmap. lia.
    + apply last_None in Hlast. apply (f_equal length) in Hlast. rewrite length_fmap in Hlast. simpl in Hlast. lia.
Qed.
End ExportLoop.

(** ** There and back *)

Section RoundTrip.
Context (sha256 : bytes → bytes) (key_prefix : bytes) (verify : bool).
Context {B C : Type} `{BS : !BlockStore B, BSS : !BlockStoreSpec B} `{CS : !BlockStore C, CSS : !BlockStoreSpec C}.

(** C25. What was exported is imported: an export of a store whose blocks the
    format can carry ends after at most as many pages as there are keys, and
    importing its output into a store without other bodies under these keys,
    with any number of workers and any scheduling, drops no frame and, when no
    put fails, leaves exactly the exported blocks under the prefix and
    everything else as it was. *)
Theorem export_then_import (s : B) all fuel o s' :
  (∀ s : B, bs_ok s → bs_ready s) → (∀ t : C, bs_ok t → bs_ready t) → (∀ (t : C) k d, bs_takes t k d) →
  bs_ok s → (∀ k, key_prefix `prefix_of` k → is_Some (bs_val s k) → k ∈ all) → (length all < fuel)%nat →
  (∀ k v, key_prefix `prefix_of` k → bs_val s k = Some v → ∃ mh, carried sha256 key_prefix verify k v mh) →
  car_export key_prefix fuel s = (Ok o, s') →
  ∃ out rep, o = Some (out, rep) ∧ ∀ par sched (t : C) res t',
    bs_ok t → (∀ k, key_prefix `prefix_of` k → bs_val t k = None ∨ bs_val t k = bs_val s k) →
    car_import sha256 key_prefix verify out par sched t = (res, t') →
    ∃ rep', res = Ok rep' ∧ ci_corrupt rep' = 0%nat ∧
      (ci_errors rep' = 0%nat → ∀ k, bs_val t' k = if decide (key_prefix `prefix_of` k) then bs_val s k else bs_val t k).
Proof.
  intros Hr1 Hr2 Ht2 Hok Hfin Hfuel Hgood Hexp. unfold car_export in Hexp.
  pose proof (wp_export_loop sha256 key_prefix verify Hr1 (bs_val s) all Hgood (λ k Hk, Hfin k (proj1 Hk) (proj2 Hk)) fuel None
    (write_varint (blen CAR_HEADER) ++ CAR_HEADER, CarExportReport_default) (write_varint (blen CAR_HEADER) ++ CAR_HEADER)
    [] s) as Hwp.
  destruct (wp_run _ _ _ _ _ (Hwp ltac:(done) (seen_start _ _)
    ltac:(by rewrite app_nil_r) ltac:(simpl; lia)) Hexp) as (_ & keys & rep & [Hsort Hdue] & ->). clear Hwp.
  eexists _, rep. split; [done |]. intros par sched t res t' Hokt Hagree Hrun.
  set (X := map (entry (bs_val s)) keys) in *.
  assert (∀ k v, (k, v) ∈ X ↔ key_prefix `prefix_of` k ∧ bs_val s k = Some v) as HX.
  { intros k v. unfold X. rewrite list_elem_of_fmap. split.
    - intros (k' & [= -> ->] & Hk). apply Hdue in Hk as [Hp [w Hw]]. split; [done |]. by rewrite Hw.
    - intros [Hp Hv]. exists k. unfold entry. rewrite Hv. split; [done |]. apply Hdue. split; [done |]. by eexists. }
  rewrite <-app_assoc in Hrun.
  destruct (wp_run _ _ _ _ _ (wp_car_import sha256 key_prefix verify Hr2 Ht2 _ par sched t _ Hokt (read_own_header _)) Hrun)
    as (P & fin & Hfr & _ & Hvals & Hres).
  rewrite (frames_of_blocks sha256 key_prefix verify X) in Hfr by (intros k v [? ?]%HX; by apply Hgood).
  apply app_inj_tail in Hfr as [<- <-].
  assert (blocks_in (map (λ e, Block e.1 e.2) X) = X) as Hblk.
  { clear. induction X as [| [k v] X IH]; [done |]. change ((k, v) :: blocks_in (map (λ e, Block e.1 e.2) X) = (k, v) :: X). by rewrite IH. }
  assert (drops_in (map (λ e, Block e.1 e.2) X) = 0%nat) as Hdrop.
  { clear. induction X as [| x X IH]; [done |]. exact IH. }
  destruct res as [rep' | e]; [| done]. destruct Hres as (_ & Hc & _ & Hst). exists rep'.
  split_and!; [done | by rewrite Hc |]. intros He k. specialize (Hst He). rewrite Hblk in Hst, Hvals. case_decide as Hp.
  - destruct (bs_val s k) as [v |] eqn:Hv.
    + destruct (Hst k v) as [v' Hv']; [by apply HX |]. rewrite Hv'.
      destruct (Hvals k) as [Hsame | (b & Hb & Hv2)].
      * destruct (Hagree k Hp) as [Hn | Heq]; [congruence |]. congruence.
      * apply HX in Hb as [_ Hb]. congruence.
    + destruct (Hvals k) as [-> | (b & Hb & _)]; [destruct (Hagree k Hp); congruence |]. apply HX in Hb as [_ Hb]. congruence.
  - destruct (Hvals k) as [-> | (b & Hb & _)]; [done |]. by apply HX in Hb as [? _].
Qed.
End RoundTrip.
