(* ===== verification/CarDemo.v ===== *)
(** * Runs of the bulk loader

    Two blocks exported from one map and imported into another, with a toy
    hash of the right length. *)

From Stdlib Require Import ZArith Lia Strings.Byte.
From stdpp Require Import base list gmap sorting strings.
From S2P Require Import Prelude Domain Table Piece Latency DiskSlow Erasure Verified Metrics Throttle HealQueue PoolState Pool Store Car CarFacts.
Open Scope Z_scope.

Definition toy_sha256 (b : bytes) : bytes := repeat (Byte.byte.of_Z (foldr Z.add 7 (map Byte.byte.unsigned b))) 32.
Definition blocks_prefix : bytes := String.list_byte_of_string "/blocks/".
Definition sha_multihash (b : bytes) : bytes := [x12; x20] ++ toy_sha256 b.
Definition key_of (b : bytes) : BlockKey := key_for_multihash blocks_prefix (sha_multihash b).

Definition body_a : bytes := repeat x41 20.
Definition body_b : bytes := [].
Definition full_store : gmap bytes bytes := <[key_of body_a := body_a]> {[key_of body_b := body_b]}.
Definition exported_car : bytes :=
  match (car_export blocks_prefix 3 full_store).1 with Ok (Some (out, _)) => out | _ => [] end.
Definition car_rest : bytes := match read_header exported_car with Ok r => r | Err _ => [] end.

Lemma demo_export :
  car_export blocks_prefix 3 full_store =
  (Ok (Some (exported_car, {| ce_blocks := 2; ce_bytes := 20 |})), (car_export blocks_prefix 3 full_store).2).
Proof. apply run_fst. vm_compute. reflexivity. Qed.

Definition imported : result DomainError CarImportReport * gmap bytes bytes :=
  car_import toy_sha256 blocks_prefix true exported_car 2 [1; 0; 2; 1; 1; 0; 3; 2]%nat ∅.

Lemma demo_import :
  car_import toy_sha256 blocks_prefix true exported_car 2 [1; 0; 2; 1; 1; 0; 3; 2]%nat ∅ =
  (Ok {| ci_blocks := 2; ci_bytes := 20; ci_skipped := 0; ci_corrupt := 0; ci_errors := 0 |}, imported.2).
Proof. unfold imported. apply run_fst. vm_compute. reflexivity. Qed.

Lemma demo_header : read_header exported_car = Ok car_rest.
Proof. vm_compute. reflexivity. Qed.


Lemma import_accounts_for_every_frame_witness :
  is_Some ((imported.2 : gmap bytes bytes) !! key_of body_a).
Proof.
  destruct (import_accounts_for_every_frame toy_sha256 blocks_prefix true mem_ready mem_takes
    exported_car 2 [1; 0; 2; 1; 1; 0; 3; 2]%nat ∅ car_rest _ _ (mem_ok _) demo_header demo_import)
    as (P & fin & Hfr & _ & _ & -> & _ & _ & Hall).
  apply (Hall eq_refl (key_of body_a) body_a).
  assert (frames toy_sha256 blocks_prefix true car_rest =
    [Block (key_of body_b) body_b; Block (key_of body_a) body_a] ++ [StreamEnd]) as H by (vm_compute; reflexivity).
  rewrite H in Hfr. apply app_inj_tail in Hfr as [<- _]. simpl. right. left.
Defined.

Lemma full_store_lookup k v :
  full_store !! k = Some v → (k = key_of body_a ∧ v = body_a) ∨ (k = key_of body_b ∧ v = body_b).
Proof. unfold full_store. intros [[<- <-] | [_ [<- <-]%lookup_singleton_Some]]%lookup_insert_Some; auto. Qed.

Lemma sha_multihash_ok b : multihash (sha_multihash b).
Proof. exists 18, (x20 :: toy_sha256 b), (toy_sha256 b). split; reflexivity. Qed.

Lemma full_store_carried k v :
  blocks_prefix `prefix_of` k → bs_val full_store k = Some v → ∃ mh, carried toy_sha256 blocks_prefix true k v mh.
Proof.
  intros _ [[-> ->] | [-> ->]]%full_store_lookup; eexists; (split; [reflexivity |]); (split; [apply sha_multihash_ok |]);
    (split; [reflexivity | vm_compute; discriminate]).
Qed.

Lemma full_store_keys k :
  blocks_prefix `prefix_of` k → is_Some (bs_val full_store k) → k ∈ [key_of body_a; key_of body_b].
Proof. intros _ [v [[-> _] | [-> _]]%full_store_lookup]; [left | right; left]. Qed.
Lemma demo_fuel : (length [key_of body_a; key_of body_b] < 3)%nat.
Proof. simpl. lia. Qed.
Lemma empty_agrees k :
  blocks_prefix `prefix_of` k → bs_val (∅ : mem) k = None ∨ bs_val (∅ : mem) k = bs_val full_store k.
Proof. left. apply lookup_empty. Qed.

Lemma some_fst {X Y} (a c : X) (b d : Y) : Some (a, b) = Some (c, d) → a = c.
Proof. by intros [= -> _]. Qed.
Lemma ok_inj {X Y} (a b : X) : (Ok a : result Y X) = Ok b → a = b.
Proof. by intros [= ->]. Qed.

Lemma export_then_import_witness :
  (imported.2 : mem) !! key_of body_b = Some body_b.
Proof.
  destruct (export_then_import toy_sha256 blocks_prefix true full_store [key_of body_a; key_of body_b] 3 _ _
    mem_ready mem_ready mem_takes (mem_ok _) full_store_keys demo_fuel full_store_carried demo_export)
    as (out & rep & Ho & Himp).
  apply some_fst in Ho. rewrite <-Ho in Himp.
  destruct (Himp 2%nat [1; 0; 2; 1; 1; 0; 3; 2]%nat ∅ _ _ (mem_ok _) empty_agrees demo_import) as (rep' & Hrep & _ & H).
  apply ok_inj in Hrep. subst rep'.
  pose proof (H eq_refl (key_of body_b)) as Hb. rewrite decide_True in Hb by apply prefix_app_r, reflexivity.
  etransitivity; [exact Hb |]. reflexivity.
Defined.
