(* ===== verification/SigV4.v ===== *)
(** * Request signatures (crates/ozd-ipfs/src/sigv4.rs)

    AWS Signature Version 4 in the Authorization header: the canonical form of
    a request, the check of a signature against it, and the signer that tests
    and clients use. SHA-256 and HMAC are parameters.

    Second part: Signatures: time, the signer, and what a signature binds. *)

From Stdlib Require Import ZArith Lia Strings.Byte.
From stdpp Require Import base list sorting strings.
From S2P Require Import Prelude Text.
Open Scope Z_scope.

(** ** Parameters *)

(** [Sha256::digest] and HMAC-SHA256, the key first. *)
Class Digests := {
  sha256 : bytes → bytes;
  hmac : bytes → bytes → bytes;
}.

(** [headers.get(name).and_then(|v| v.to_str().ok())] of the http crate's
    [HeaderMap]: the first value under a name, if it is visible ASCII. *)
Abbreviation HeaderMap := (bytes → option bytes).

(** ** Hexadecimal *)

Definition hex (b : bytes) : bytes := b ≫= hex_byte.

(** [(0..s.len() / 2).map(|i| u8::from_str_radix(&s[2 * i..2 * i + 2], 16).ok()).collect()] *)
Fixpoint hex_pairs (s : bytes) : option bytes :=
  match s with
  | a :: b :: s =>
      v ← from_str_radix 0 255 16 [a; b]; r ← hex_pairs s; Some (byte_of_Z v :: r)
  | _ => Some []
  end.
Definition hex_decode (s : bytes) : option bytes :=
  if bool_decide (length s mod 2 = 0)%nat then hex_pairs s else None.

(** ** Configuration and the Authorization header *)

Record SigV4Config := {
  access_key : bytes;
  secret_key : bytes;
  max_skew_secs : Z;
}.
Definition SigV4Config_new (ak sk : bytes) : SigV4Config :=
  {| access_key := ak; secret_key := sk; max_skew_secs := 15 * 60 |}.

Record AuthHeader := {
  ah_access_key : bytes;
  ah_date : bytes;
  ah_region : bytes;
  ah_service : bytes;
  ah_signed_headers : list bytes;
  ah_signature_hex : bytes;
}.

(** The three fields found so far; a later one replaces an earlier. *)
Definition auth_part (st : option bytes * option bytes * option bytes) (part : bytes) :
    option bytes * option bytes * option bytes :=
  let '(credential, signed_headers, signature) := st in
  let part := trim part in
  match strip_prefix (str "Credential=") part with
  | Some c => (Some c, signed_headers, signature)
  | None =>
      match strip_prefix (str "SignedHeaders=") part with
      | Some s => (credential, Some s, signature)
      | None =>
          match strip_prefix (str "Signature=") part with
          | Some s => (credential, signed_headers, Some s)
          | None => st
          end
      end
  end.

Definition parse_auth_header (v : bytes) : result bytes AuthHeader :=
  match strip_prefix (str "AWS4-HMAC-SHA256") v with
  | None => Err (str "unsupported auth scheme")
  | Some rest =>
      let '(credential, signed_headers, signature) := foldl auth_part (None, None, None) (split x2c (trim rest)) in
      match credential with
      | None => Err (str "missing Credential")
      | Some credential =>
          match split x2f credential with
          | [ak; date; region; service; term] =>
              if bool_decide (term = str "aws4_request") then
                match signed_headers, signature with
                | None, _ => Err (str "missing SignedHeaders")
                | Some _, None => Err (str "missing Signature")
                | Some sh, Some sg =>
                    Ok {| ah_access_key := ak; ah_date := date; ah_region := region; ah_service := service;
                          ah_signed_headers := map to_ascii_lowercase (split x3b sh); ah_signature_hex := sg |}
                end
              else Err (str "bad credential scope")
          | _ => Err (str "bad credential scope")
          end
      end
  end.

(** ** Time *)

(** Days from 1970-01-01 to a date of the proleptic Gregorian calendar;
    division and remainder as on [i64], truncating, but for the era. *)
Definition days_of_civil (y mo d : Z) : Z :=
  let y_adj := if mo <=? 2 then y - 1 else y in
  let era := y_adj / 400 in
  let yoe := y_adj - era * 400 in
  let mp := Z.rem (mo + 9) 12 in
  let doy := Z.quot (153 * mp + 2) 5 + d - 1 in
  let doe := yoe * 365 + Z.quot yoe 4 - Z.quot yoe 100 + doy in
  era * 146097 + doe - 719468.

(** "YYYYMMDDTHHMMSSZ" as seconds since the epoch. *)
Definition parse_amz_date (s : bytes) : option Z :=
  if negb (bool_decide (length s = 16%nat)) || negb (bool_decide (last s = Some x5a))
     || negb (bool_decide (s !! 8%nat = Some x54)) then None
  else
    let num lo n := parse_i64 (slice lo n s) in
    y ← num 0%nat 4%nat; mo ← num 4%nat 2%nat; d ← num 6%nat 2%nat;
    h ← num 9%nat 2%nat; mi ← num 11%nat 2%nat; sec ← num 13%nat 2%nat;
    Some (days_of_civil y mo d * 86400 + h * 3600 + mi * 60 + sec).

(** ** The canonical request *)

Definition header_line (name value : bytes) : bytes := name ++ x3a :: value ++ [x0a].

(** [val.split_whitespace().collect::<Vec<_>>().join(" ")], trimmed. *)
Definition collapse (val : bytes) : bytes := trim (join [x20] (split_whitespace val)).

Fixpoint canon_headers (headers : HeaderMap) (names : list bytes) : result bytes bytes :=
  match names with
  | [] => Ok []
  | name :: names =>
      match headers name with
      | None => Err (str "signed header '" ++ name ++ str "' missing")
      | Some val =>
          match canon_headers headers names with
          | Ok rest => Ok (header_line name (collapse val) ++ rest)
          | Err e => Err e
          end
      end
  end.

Definition pair_of (p : bytes) : bytes * bytes :=
  match split_once x3d p with Some kv => kv | None => (p, []) end.
Definition pair_cmp (p q : bytes * bytes) : comparison :=
  match bytes_cmp p.1 q.1 with Eq => bytes_cmp p.2 q.2 | c => c end.
(** The pairs of a query string, as they come and sorted. *)
Definition raw_pairs (raw_query : bytes) : list (bytes * bytes) :=
  map pair_of (filter (λ p, p ≠ []) (split x26 raw_query)).
Definition query_pairs (raw_query : bytes) : list (bytes * bytes) := sort_by pair_cmp (raw_pairs raw_query).
Definition canon_query (raw_query : bytes) : bytes :=
  join [x26] (map (λ p, p.1 ++ x3d :: p.2) (query_pairs raw_query)).

Definition canonical_request (meth raw_path query heads signed content_sha : bytes) : bytes :=
  meth ++ x0a :: raw_path ++ x0a :: query ++ x0a :: heads ++ x0a :: signed ++ x0a :: content_sha.

Definition UNSIGNED_PAYLOAD : bytes := str "UNSIGNED-PAYLOAD".

Section Sign.
Context `{DG : !Digests}.

Definition scope_of (date region service : bytes) : bytes :=
  date ++ x2f :: region ++ x2f :: service ++ str "/aws4_request".
Definition string_to_sign (amz_date scope request : bytes) : bytes :=
  str "AWS4-HMAC-SHA256" ++ x0a :: amz_date ++ x0a :: scope ++ x0a :: hex (sha256 request).
Definition signing_key (secret date region service : bytes) : bytes :=
  hmac (hmac (hmac (hmac (str "AWS4" ++ secret) date) region) service) (str "aws4_request").

(** ** The check *)

(** [now]: the clock, in seconds. *)
Definition check_skew (cfg : SigV4Config) (now : Z) (amz_date : bytes) : result bytes unit :=
  if 0 <? max_skew_secs cfg then
    match parse_amz_date amz_date with
    | None => Err (str "bad x-amz-date")
    | Some t => if max_skew_secs cfg <? Z.abs (now - t) then Err (str "request time too skewed") else Ok tt
    end
  else Ok tt.

(** What is signed, of the request with these headers. *)
Definition text_to_sign (auth : AuthHeader) (amz_date content_sha meth raw_path raw_query heads : bytes) : bytes :=
  string_to_sign amz_date (scope_of (ah_date auth) (ah_region auth) (ah_service auth))
    (canonical_request meth raw_path (canon_query raw_query) heads (join [x3b] (ah_signed_headers auth)) content_sha).

Definition verify (cfg : SigV4Config) (now : Z) (meth raw_path raw_query : bytes) (headers : HeaderMap)
    (body_sha256_hex : bytes) : result bytes unit :=
  match headers (str "authorization") with
  | None => Err (str "missing Authorization")
  | Some v =>
  match parse_auth_header v with
  | Err e => Err e
  | Ok auth =>
  if negb (bool_decide (ah_access_key auth = access_key cfg)) then Err (str "unknown access key") else
  match headers (str "x-amz-date") with
  | None => Err (str "missing x-amz-date")
  | Some amz_date =>
  if negb (starts_with (ah_date auth) amz_date) then Err (str "x-amz-date / credential date mismatch") else
  match check_skew cfg now amz_date with
  | Err e => Err e
  | Ok _ =>
  let content_sha := default UNSIGNED_PAYLOAD (headers (str "x-amz-content-sha256")) in
  if negb (bool_decide (content_sha = UNSIGNED_PAYLOAD)) && negb (eq_ignore_ascii_case content_sha body_sha256_hex)
  then Err (str "x-amz-content-sha256 does not match body") else
  match canon_headers headers (ah_signed_headers auth) with
  | Err e => Err e
  | Ok heads =>
  match hex_decode (ah_signature_hex auth) with
  | None => Err (str "bad signature hex")
  | Some provided =>
      let key := signing_key (secret_key cfg) (ah_date auth) (ah_region auth) (ah_service auth) in
      if bool_decide (hmac key (text_to_sign auth amz_date content_sha meth raw_path raw_query heads) = provided)
      then Ok tt else Err (str "signature mismatch")
  end end end end end end.

(** ** The signer *)

Fixpoint signer_headers (headers : HeaderMap) (names : list bytes) : bytes :=
  match names with
  | [] => []
  | name :: names =>
      header_line (to_ascii_lowercase name) (trim (default [] (headers name))) ++ signer_headers headers names
  end.

(** [amz_date] has eight bytes at least, or the slice panics. *)
Definition sign_for_test (cfg : SigV4Config) (meth raw_path raw_query : bytes) (headers : HeaderMap)
    (signed_headers : list bytes) (amz_date region : bytes) : bytes :=
  let date := take 8 amz_date in
  let content_sha := default UNSIGNED_PAYLOAD (headers (str "x-amz-content-sha256")) in
  let shj := to_ascii_lowercase (join [x3b] signed_headers) in
  let request := canonical_request meth raw_path (canon_query raw_query)
                   (signer_headers headers signed_headers) shj content_sha in
  let scope := date ++ x2f :: region ++ str "/s3/aws4_request" in
  let sig := hex (hmac (signing_key (secret_key cfg) date region (str "s3")) (string_to_sign amz_date scope request)) in
  str "AWS4-HMAC-SHA256 Credential=" ++ access_key cfg ++ x2f :: scope ++ str ", SignedHeaders=" ++ shj
    ++ str ", Signature=" ++ sig.
End Sign.

(** * Signatures: time, the signer, and what a signature binds

    The clock arithmetic against the calendar, counted day by day; the signer
    against the check; and the canonical form is unambiguous, so that two
    requests under one signature are the same request. *)

(** ** Hexadecimal *)

Lemma hex_byte_round b : (v ← from_str_radix 0 255 16 (hex_byte b); Some (byte_of_Z v)) = Some b.
Proof. destruct b; vm_compute; reflexivity. Qed.

Lemma hex_cons x b : hex (x :: b) = hex_byte x ++ hex b.
Proof. done. Qed.

Lemma hex_pairs_hex b : hex_pairs (hex b) = Some b.
Proof.
  induction b as [| x b IH]; [done |]. rewrite hex_cons.
  pose proof (hex_byte_round x) as Hx. unfold hex_byte in *. cbn [app hex_pairs].
  destruct (from_str_radix _ _ _ _) as [v |]; [| done]. cbn [mbind option_bind] in *. injection Hx as Hx.
  by rewrite IH, Hx.
Qed.

Lemma length_hex b : length (hex b) = (2 * length b)%nat.
Proof. induction b as [| x b IH]; [done |]. rewrite hex_cons, length_app, IH. cbn. lia. Qed.

Lemma hex_round b : hex_decode (hex b) = Some b.
Proof.
  unfold hex_decode. rewrite length_hex, Nat.mul_comm, Nat.Div0.mod_mul, bool_decide_eq_true_2 by done. apply hex_pairs_hex.
Qed.

Lemma hex_inj a b : hex a = hex b → a = b.
Proof. intros H. pose proof (hex_round a) as Ha. rewrite H, hex_round in Ha. by injection Ha. Qed.

Lemma elem_of_hex b c : c ∈ hex b → hexadecimal c.
Proof.
  intros (x & Hc & _)%list_elem_of_bind. pose proof (Byte.byte.unsigned_range x).
  unfold hex_byte in Hc. rewrite !elem_of_cons in Hc. destruct Hc as [-> | [-> | Hc]]; [apply hex_digit_ok .. |].
  - split; [apply Z.div_pos | apply Z.div_lt_upper_bound]; lia.
  - apply Z.mod_pos_bound. lia.
  - by apply not_elem_of_nil in Hc.
Qed.

(** ** The calendar *)

Definition leap (y : Z) : bool := (y mod 4 =? 0) && (negb (y mod 100 =? 0) || (y mod 400 =? 0)).
Definition year_days (y : Z) : Z := if leap y then 366 else 365.
Definition month_days (y : Z) : list Z :=
  [31; if leap y then 29 else 28; 31; 30; 31; 30; 31; 31; 30; 31; 30; 31].

(** Days of the years below [n]. *)
Fixpoint days_below (n : nat) : Z :=
  match n with O => 0 | S n => days_below n + year_days (Z.of_nat n) end.
Fixpoint sum (l : list Z) : Z := match l with [] => 0 | x :: l => x + sum l end.
(** Days from 1970-01-01, counted. *)
Definition calendar_days (y : nat) (mo : nat) (d : Z) : Z :=
  days_below y - days_below 1970 + sum (take (mo - 1) (month_days (Z.of_nat y))) + (d - 1).

Lemma days_below_closed n :
  days_below n = 365 * Z.of_nat n + (Z.of_nat n + 3) / 4 - (Z.of_nat n + 99) / 100 + (Z.of_nat n + 399) / 400.
Proof.
  induction n as [| n IH]; [done |]. cbn [days_below]. rewrite IH. unfold year_days, leap.
  rewrite Nat2Z.inj_succ. generalize (Z.of_nat n). clear. intros y.
  destruct (Z.eqb_spec (y mod 4) 0), (Z.eqb_spec (y mod 100) 0), (Z.eqb_spec (y mod 400) 0); cbn [andb orb negb];
    Z.to_euclidean_division_equations; lia.
Qed.

(** The days of the code's years, which begin in March. *)
Lemma era_days z :
  z / 400 * 146097 + ((z - z / 400 * 400) * 365 + Z.quot (z - z / 400 * 400) 4 - Z.quot (z - z / 400 * 400) 100)
  = 365 * z + z / 4 - z / 100 + z / 400.
Proof.
  pose proof (Z.mod_pos_bound z 400 ltac:(lia)). pose proof (Z.div_mod z 400 ltac:(lia)).
  assert (z - z / 400 * 400 = z mod 400) as -> by lia.
  rewrite !Z.quot_div_nonneg by lia.
  assert (z / 4 = z / 400 * 100 + z mod 400 / 4) as -> by (Z.to_euclidean_division_equations; lia).
  assert (z / 100 = z / 400 * 4 + z mod 400 / 100) as -> by (Z.to_euclidean_division_equations; lia).
  lia.
Qed.

Lemma div_up y k : 0 < k → (y + (k - 1)) / k = y / k + (if y mod k =? 0 then 0 else 1).
Proof.
  intros Hk. rewrite (Z.div_mod y k) at 1 by lia. pose proof (Z.mod_pos_bound y k Hk).
  rewrite <-Z.add_assoc, (Z.mul_comm k), Z.div_add_l by lia. f_equal.
  destruct (Z.eqb_spec (y mod k) 0) as [-> |]; [by apply Z.div_small; lia |].
  symmetry. apply (Z.div_unique _ _ _ (y mod k - 1)); lia.
Qed.

Lemma div_down y k : 0 < k → (y - 1) / k = y / k - (if y mod k =? 0 then 1 else 0).
Proof.
  intros Hk. pose proof (div_up (y - k) k Hk) as H. replace (y - k + (k - 1)) with (y - 1) in H by lia. rewrite H.
  replace (y - k) with (y + -1 * k) by lia. rewrite Z.div_add, Z_mod_plus_full by lia.
  destruct (y mod k =? 0); lia.
Qed.

Lemma leap_mods y :
  (y mod 400 = 0 → y mod 100 = 0) ∧ (y mod 100 = 0 → y mod 4 = 0).
Proof. Z.to_euclidean_division_equations. lia. Qed.

(** The days before a month, in a year that begins in March. *)
Definition march_days (mo : Z) : Z := Z.quot (153 * Z.rem (mo + 9) 12 + 2) 5.

Lemma days_of_civil_closed y mo d :
  days_of_civil y mo d =
  let z := if mo <=? 2 then y - 1 else y in
  365 * z + z / 4 - z / 100 + z / 400 + (march_days mo + d - 1) - 719468.
Proof.
  unfold days_of_civil. cbv zeta. set (z := if _ : bool then _ else _). rewrite <-(era_days z). fold (march_days mo). lia.
Qed.

Lemma days_of_civil_calendar y mo d : (1 ≤ mo ≤ 12)%nat → days_of_civil (Z.of_nat y) (Z.of_nat mo) d = calendar_days y mo d.
Proof.
  intros Hmo. rewrite days_of_civil_closed. unfold calendar_days.
  assert (days_below 1970 = 719528) as -> by (vm_compute; reflexivity). rewrite days_below_closed. unfold month_days, leap.
  generalize (Z.of_nat y). clear y. intros y. pose proof (leap_mods y) as [H400 H100].
  change (y + 3) with (y + (4 - 1)). change (y + 99) with (y + (100 - 1)). change (y + 399) with (y + (400 - 1)).
  rewrite !div_up by lia. cbv zeta. destruct (Z.leb_spec (Z.of_nat mo) 2) as [Hlow | Hhigh].
  all: generalize (div_down y 4 ltac:(lia)), (div_down y 100 ltac:(lia)), (div_down y 400 ltac:(lia)).
  all: destruct (Z.eqb_spec (y mod 4) 0), (Z.eqb_spec (y mod 100) 0), (Z.eqb_spec (y mod 400) 0);
    try (exfalso; tauto); cbn [andb orb negb]; intros H4 H100' H400'.
  all: assert (mo = 1 ∨ mo = 2 ∨ mo = 3 ∨ mo = 4 ∨ mo = 5 ∨ mo = 6 ∨ mo = 7 ∨ mo = 8 ∨ mo = 9 ∨ mo = 10 ∨ mo = 11 ∨ mo = 12)%nat
    as Hcases by lia.
  all: destruct_or! Hcases; subst mo; try (exfalso; clear -Hlow; lia); try (exfalso; clear -Hhigh; lia).
  all: cbn [Nat.sub sum take];
    match goal with |- context [march_days ?m] => let c := eval vm_compute in (march_days m) in change (march_days m) with c end;
    lia.
Qed.

(** ** The date of a request *)

Definition two_digits (v : Z) : bytes := [hex_digit (v / 10); hex_digit (v mod 10)].
Definition four_digits (v : Z) : bytes := two_digits (v / 100) ++ two_digits (v mod 100).
(** "YYYYMMDDTHHMMSSZ" *)
Definition amz_text (y mo d h mi s : Z) : bytes :=
  four_digits y ++ two_digits mo ++ two_digits d ++ x54 :: two_digits h ++ two_digits mi ++ two_digits s ++ [x5a].

Lemma digit_decimal v : 0 <= v < 10 → digit 10 (hex_digit v) = Some v ∧ hex_digit v ≠ x2b ∧ hex_digit v ≠ x2d.
Proof.
  intros Hv. assert (v = 0 ∨ v = 1 ∨ v = 2 ∨ v = 3 ∨ v = 4 ∨ v = 5 ∨ v = 6 ∨ v = 7 ∨ v = 8 ∨ v = 9) as Hc by lia.
  clear Hv. destruct_or! Hc; subst v; vm_compute; done.
Qed.

Lemma parse_digits a r :
  0 <= a < 10 → parse_i64 (hex_digit a :: r) =
  digits 10 a r ≫= λ z, if (- 2 ^ 63 <=? z) && (z <=? 2 ^ 63 - 1) then Some z else None.
Proof.
  intros Ha. destruct (digit_decimal a Ha) as (Hd & Hp & Hm). unfold parse_i64, from_str_radix.
  rewrite decide_False by done. rewrite decide_False by (by intros [? _]). cbn [digits]. by rewrite Hd.
Qed.

Lemma digits_decimal acc a r : 0 <= a < 10 → digits 10 acc (hex_digit a :: r) = digits 10 (acc * 10 + a) r.
Proof. intros Ha. cbn [digits]. destruct (digit_decimal a Ha) as (-> & _). done. Qed.

Lemma parse_two v : 0 <= v < 100 → parse_i64 (two_digits v) = Some v.
Proof.
  intros Hv. assert (0 <= v / 10 < 10 ∧ 0 <= v mod 10 < 10) as [Hq Hr].
  { split; [split; [apply Z.div_pos | apply Z.div_lt_upper_bound] |  apply Z.mod_pos_bound]; lia. }
  unfold two_digits. rewrite parse_digits, digits_decimal by done. cbn [digits mbind option_bind].
  replace (v / 10 * 10 + v mod 10) with v by (pose proof (Z.div_mod v 10); lia).
  rewrite (proj2 (Z.leb_le _ _)), (proj2 (Z.leb_le _ _)) by lia. done.
Qed.

Lemma parse_four v : 0 <= v < 10000 → parse_i64 (four_digits v) = Some v.
Proof.
  intros Hv. unfold four_digits, two_digits. cbn [app].
  rewrite parse_digits, !digits_decimal by (Z.to_euclidean_division_equations; lia). cbn [digits mbind option_bind].
  replace (((v / 100 / 10 * 10 + (v / 100) mod 10) * 10 + v mod 100 / 10) * 10 + (v mod 100) mod 10) with v
    by (Z.to_euclidean_division_equations; lia).
  rewrite (proj2 (Z.leb_le _ _)), (proj2 (Z.leb_le _ _)) by lia. done.
Qed.

(** The time of a request is the calendar's: the days counted one by one. *)
Theorem amz_date_is_calendar_time y mo d h mi s :
  Z.of_nat y < 10000 → (1 ≤ mo ≤ 12)%nat → 0 <= d < 100 → 0 <= h < 100 → 0 <= mi < 100 → 0 <= s < 100 →
  parse_amz_date (amz_text (Z.of_nat y) (Z.of_nat mo) d h mi s) =
  Some (calendar_days y mo d * 86400 + h * 3600 + mi * 60 + s).
Proof.
  intros Hy Hmo Hd Hh Hmi Hs. unfold parse_amz_date, amz_text, four_digits, two_digits. cbn [app length last lookup list_lookup].
  rewrite !bool_decide_eq_true_2 by done. cbn [negb orb]. unfold slice. cbn [take drop].
  pose proof (parse_four (Z.of_nat y)) as Py. unfold four_digits, two_digits in Py. cbn [app] in Py. rewrite Py by lia.
  pose proof parse_two as P. unfold two_digits in P. rewrite !P by lia. cbn [mbind option_bind].
  by rewrite days_of_civil_calendar.
Qed.

(** ** The signer is accepted *)

(** A name or a scope part, free of the separators around it. *)
Definition plain (s : bytes) : Prop := Forall (λ b, is_white b = false ∧ b ≠ x2c ∧ b ≠ x3b ∧ b ≠ x2f) s.

Lemma plain_not_elem s c : plain s → is_white c = true ∨ c = x2c ∨ c = x3b ∨ c = x2f → c ∉ s.
Proof. intros Hs Hc Hin. unfold plain in Hs. rewrite Forall_forall in Hs. destruct (Hs _ Hin) as (? & ? & ? & ?).
  destruct Hc as [Hc | [Hc | [Hc | Hc]]]; congruence. Qed.

Lemma trim_piece pre s : (∀ b, head pre = Some b → is_white b = false) → (∀ b, last pre = Some b → is_white b = false) →
  pre ≠ [] → (∀ b, last s = Some b → is_white b = false) → trim (pre ++ s) = pre ++ s.
Proof.
  intros Hh Hl Hne Hs. apply trim_id; intros b.
  - destruct pre; [done |]. apply Hh.
  - rewrite last_app. destruct (last s) eqn:Hls; [intros [= <-]; by apply Hs | apply Hl].
Qed.

Lemma parse_auth_header_of ak date region shj sig :
  x2f ∉ ak → x2c ∉ ak → x2f ∉ date → x2c ∉ date → x2f ∉ region → x2c ∉ region → x2c ∉ shj →
  (∀ b, last shj = Some b → is_white b = false) → Forall hexadecimal sig →
  parse_auth_header (str "AWS4-HMAC-SHA256 Credential=" ++ ak ++ x2f :: (date ++ x2f :: region ++ str "/s3/aws4_request") ++
    str ", SignedHeaders=" ++ shj ++ str ", Signature=" ++ sig) =
  Ok {| ah_access_key := ak; ah_date := date; ah_region := region; ah_service := str "s3";
        ah_signed_headers := map to_ascii_lowercase (split x3b shj); ah_signature_hex := sig |}.
Proof.
  intros A1 A2 D1 D2 R1 R2 S1 Sl Hsig. unfold parse_auth_header.
  set (cred := ak ++ x2f :: date ++ x2f :: region ++ str "/s3/aws4_request").
  set (p1 := str "Credential=" ++ cred). set (p2 := str "SignedHeaders=" ++ shj). set (p3 := str "Signature=" ++ sig).
  change (str "AWS4-HMAC-SHA256 Credential=" ++ _) with
    (str "AWS4-HMAC-SHA256" ++ str " Credential=" ++ ak ++ x2f :: (date ++ x2f :: region ++ str "/s3/aws4_request") ++
      str ", SignedHeaders=" ++ shj ++ str ", Signature=" ++ sig).
  rewrite strip_prefix_app.
  assert ((str " Credential=" ++ ak ++ x2f :: (date ++ x2f :: region ++ str "/s3/aws4_request") ++
    str ", SignedHeaders=" ++ shj ++ str ", Signature=" ++ sig) = (x20 :: p1 ++ x2c :: (x20 :: p2) ++ x2c :: (x20 :: p3))) as ->.
  { unfold p1, p2, p3, cred. simpl. repeat (rewrite <-app_assoc; simpl). reflexivity. }
  assert (∀ b, last sig = Some b → is_white b = false) as Hlsig.
  { intros b [s' ->]%last_Some. apply Forall_app in Hsig as [_ [H _]%Forall_cons]. apply H. }
  assert ((x2c ∉ p1) ∧ (x2c ∉ p2) ∧ (x2c ∉ p3)) as (N1 & N2 & N3).
  { unfold p1, p2, p3, cred. rewrite !not_elem_of_app, !not_elem_of_cons, !not_elem_of_app, !not_elem_of_cons, !not_elem_of_app.
    split_and!; try done; try (by vm_compute).
    all: try (apply (bool_decide_unpack _); vm_compute; exact I).
    intros Hin. rewrite Forall_forall in Hsig. by destruct (Hsig _ Hin) as (_ & Hc & _). }
  assert (trim (x20 :: p1 ++ x2c :: (x20 :: p2) ++ x2c :: x20 :: p3) = p1 ++ x2c :: (x20 :: p2) ++ x2c :: x20 :: p3) as ->.
  { rewrite trim_space. apply trim_piece; [intros b; unfold p1; cbn; by intros [= <-] | | done |].
    - intros b. unfold p1, cred. rewrite !app_comm_cons, !app_assoc, last_app. cbn. by intros [= <-].
    - intros b. rewrite app_comm_cons, last_app.
      change (x2c :: x20 :: p3) with (str ", Signature=" ++ sig). rewrite last_app.
      destruct (last sig) eqn:Hl; [intros [= <-]; by apply Hlsig | by intros [= <-]]. }
  rewrite split_app by done. rewrite split_app by (apply not_elem_of_cons; done).
  rewrite split_free by (apply not_elem_of_cons; done). cbn [foldl].
  assert (trim p1 = p1) as T1.
  { apply trim_piece; [by intros b [= <-] | by intros b [= <-] | done |]. intros b. unfold cred.
    rewrite !app_comm_cons, !app_assoc, last_app. by intros [= <-]. }
  assert (trim p2 = p2) as T2 by (apply trim_piece; [by intros b [= <-] | by intros b [= <-] | done | done]).
  assert (trim p3 = p3) as T3 by (apply trim_piece; [by intros b [= <-] | by intros b [= <-] | done | done]).
  unfold auth_part. rewrite !trim_space, T1, T2, T3. unfold p1 at 1. rewrite strip_prefix_app.
  assert (strip_prefix (str "Credential=") p2 = None) as -> by done. unfold p2 at 1. rewrite strip_prefix_app.
  assert (strip_prefix (str "Credential=") p3 = None) as -> by done.
  assert (strip_prefix (str "SignedHeaders=") p3 = None) as -> by done. unfold p3 at 1. rewrite strip_prefix_app.
  unfold cred. change (str "/s3/aws4_request") with (x2f :: str "s3" ++ x2f :: str "aws4_request").
  rewrite !split_app by (done || by apply (bool_decide_unpack _); vm_compute).
  by rewrite split_free, bool_decide_eq_true_2 by (done || by apply (bool_decide_unpack _); vm_compute).
Qed.

Lemma lower_idemp s : to_ascii_lowercase (to_ascii_lowercase s) = to_ascii_lowercase s.
Proof. unfold to_ascii_lowercase. rewrite map_map. apply map_ext. by intros []. Qed.

Lemma lower_plain s : plain s → plain (to_ascii_lowercase s).
Proof. unfold plain, to_ascii_lowercase. induction 1 as [| b s (? & ? & ? & ?)]; [constructor |]. constructor; [| done]. by destruct b. Qed.

Lemma lower_app a b : to_ascii_lowercase (a ++ b) = to_ascii_lowercase a ++ to_ascii_lowercase b.
Proof. apply map_app. Qed.

Lemma lower_join ps : to_ascii_lowercase (join [x3b] ps) = join [x3b] (map to_ascii_lowercase ps).
Proof.
  induction ps as [| p ps IH]; [done |]. destruct ps as [| q ps]; [done |].
  change (join [x3b] (p :: q :: ps)) with (p ++ [x3b] ++ join [x3b] (q :: ps)). by rewrite !lower_app, IH.
Qed.

Lemma plain_join ps b : Forall plain ps → b ∈ join [x3b] ps → is_white b = false ∧ b ≠ x2c.
Proof.
  induction ps as [| p ps IH]; [by intros _ ?%not_elem_of_nil |]. intros [Hp Hps]%Forall_cons.
  unfold plain in Hp. rewrite Forall_forall in Hp. destruct ps as [| q ps]; [intros Hb; by destruct (Hp _ Hb) as (? & ? & _) |].
  change (join [x3b] (p :: q :: ps)) with (p ++ [x3b] ++ join [x3b] (q :: ps)). rewrite !elem_of_app.
  intros [Hb | [->%list_elem_of_singleton | Hb]]; [by destruct (Hp _ Hb) as (? & ? & _) | done | by apply IH].
Qed.

Section Signer.
Context `{DG : !Digests}.
Context (cfg : SigV4Config) (now : Z) (headers : HeaderMap) (body_sha : bytes).

(** The request's headers, with the signature among them. *)
Definition with_auth (auth : bytes) : HeaderMap :=
  λ name, if decide (name = str "authorization") then Some auth else headers name.

(** A request that can be signed: the signed headers are there (under either
    case of their names), without runs of spaces inside; the date is within
    the skew; the content hash is the body's or none. *)
Record signable (names : list bytes) (amz_date region : bytes) : Prop := {
  sb_names : names ≠ [];
  sb_plain : Forall plain names;
  sb_other : str "authorization" ∉ map to_ascii_lowercase names;
  sb_values : ∀ n, n ∈ names → ∃ v, headers n = Some v ∧ headers (to_ascii_lowercase n) = Some v ∧ collapse v = trim v;
  sb_date : headers (str "x-amz-date") = Some amz_date;
  sb_date_plain : plain (take 8 amz_date);
  sb_region : plain region;
  sb_key : plain (access_key cfg);
  sb_skew : 0 < max_skew_secs cfg → ∃ t, parse_amz_date amz_date = Some t ∧ Z.abs (now - t) <= max_skew_secs cfg;
  sb_content : let c := default UNSIGNED_PAYLOAD (headers (str "x-amz-content-sha256")) in
    c = UNSIGNED_PAYLOAD ∨ eq_ignore_ascii_case c body_sha = true;
}.

Lemma canon_signer_headers auth names :
  str "authorization" ∉ map to_ascii_lowercase names →
  (∀ n, n ∈ names → ∃ v, headers n = Some v ∧ headers (to_ascii_lowercase n) = Some v ∧ collapse v = trim v) →
  canon_headers (with_auth auth) (map to_ascii_lowercase names) = Ok (signer_headers headers names).
Proof.
  induction names as [| n names IH]; [done |]. intros Ha Hv. cbn [map canon_headers signer_headers].
  apply not_elem_of_cons in Ha as [Hn Ha]. destruct (Hv n) as (v & Hn1 & Hn2 & Hc); [left |].
  unfold with_auth at 1. rewrite decide_False by done. rewrite Hn2, IH by (done || intros; apply Hv; by right).
  by rewrite Hn1, Hc.
Qed.

Lemma check_skew_ok amz_date :
  (0 < max_skew_secs cfg → ∃ t, parse_amz_date amz_date = Some t ∧ Z.abs (now - t) <= max_skew_secs cfg) →
  check_skew cfg now amz_date = Ok tt.
Proof.
  intros H. unfold check_skew. destruct (Z.ltb_spec 0 (max_skew_secs cfg)) as [Hs |]; [| done].
  destruct (H Hs) as (t & -> & Ht). by rewrite (proj2 (Z.ltb_ge _ _)).
Qed.

(** The signer and the check agree: a request that carries its own signature
    is accepted. *)
Theorem signed_request_is_accepted meth raw_path raw_query names amz_date region :
  signable names amz_date region →
  verify cfg now meth raw_path raw_query
    (with_auth (sign_for_test cfg meth raw_path raw_query headers names amz_date region)) body_sha = Ok tt.
Proof.
  intros [Hne Hpl Ho Hv Hd Hdp Hr Hk Hsk Hc]. unfold verify, sign_for_test.
  assert (∀ a, with_auth a (str "authorization") = Some a) as -> by (intros; by apply decide_True).
  set (shj := to_ascii_lowercase _). assert (shj = join [x3b] (map to_ascii_lowercase names)) as Hshj by apply lower_join.
  assert (Forall plain (map to_ascii_lowercase names)) as Hpl'.
  { apply Forall_map. eapply Forall_impl; [done |]. apply lower_plain. }
  assert (∀ b, b ∈ shj → is_white b = false ∧ b ≠ x2c) as Hshj' by (intros b; rewrite Hshj; by apply plain_join).
  rewrite parse_auth_header_of.
  2-7: by apply plain_not_elem; auto.
  2: by intros Hb; destruct (Hshj' _ Hb).
  2: by intros b (s' & Hb)%last_Some; apply Hshj'; rewrite Hb; apply elem_of_app; right; left.
  2: by apply Forall_forall; intros b; apply elem_of_hex.
  cbv zeta beta iota. cbn [ah_access_key ah_date ah_region ah_service ah_signed_headers ah_signature_hex].
  assert (map to_ascii_lowercase (split x3b shj) = map to_ascii_lowercase names) as Hnames.
  { rewrite Hshj, split_join; [| by destruct names | eapply Forall_impl; [done |]; intros s Hs; apply plain_not_elem; auto].
    rewrite map_map. apply map_ext. apply lower_idemp. }
  rewrite Hnames, bool_decide_eq_true_2 by done. cbn [negb].
  assert (∀ a n, n ≠ str "authorization" → with_auth a n = headers n) as Hother by (intros; by apply decide_False).
  rewrite !Hother, Hd by done. unfold starts_with at 1. rewrite bool_decide_eq_true_2 by (exists (drop 8 amz_date); by rewrite take_drop).
  cbn [negb]. rewrite check_skew_ok by done. set (content := default _ _) in *.
  assert (negb (bool_decide (content = UNSIGNED_PAYLOAD)) && negb (eq_ignore_ascii_case content body_sha) = false) as ->.
  { destruct Hc as [-> | ->]; [by rewrite bool_decide_eq_true_2 | by rewrite andb_false_r]. }
  rewrite canon_signer_headers, hex_round by done. rewrite bool_decide_eq_true_2; [done |].
  unfold text_to_sign. cbn [ah_date ah_region ah_service ah_signed_headers]. rewrite <-Hshj. reflexivity.
Qed.
End Signer.

(** ** What a signature binds *)

Lemma elem_of_trim b s : b ∈ trim s → b ∈ s.
Proof.
  assert (∀ f l, b ∈ trim_start_while f l → b ∈ l) as H.
  { intros f l. induction l as [| a l IH]; [done |]. cbn. destruct (f a); [intros ?; right; auto | done]. }
  unfold trim, trim_end_while. rewrite elem_of_reverse. intros Hb%H. rewrite elem_of_reverse in Hb. by eapply H.
Qed.

Lemma elem_of_split_spaces b p s : p ∈ split_spaces s → b ∈ p → b ∈ s.
Proof.
  revert p. induction s as [| a s IH]; intros p; cbn.
  { intros ->%list_elem_of_singleton. by intros ?%not_elem_of_nil. }
  destruct (is_white a).
  - intros [-> | Hp]%elem_of_cons Hb; [by apply not_elem_of_nil in Hb | right; eauto].
  - destruct (split_spaces s) as [| q qs].
    + intros ->%list_elem_of_singleton ->%list_elem_of_singleton. left.
    + intros [-> | Hp]%elem_of_cons Hb; [| right; apply (IH p); [by right | done]].
      apply elem_of_cons in Hb as [-> | Hb]; [left | right; apply (IH q); [left | done]].
Qed.

Lemma elem_of_join b c ps : b ∈ join [c] ps → b = c ∨ ∃ p, p ∈ ps ∧ b ∈ p.
Proof. intros [->%list_elem_of_singleton | ?]%elem_of_join_sep; auto. Qed.

Lemma elem_of_collapse b v : b ∈ collapse v → b = x20 ∨ b ∈ v.
Proof.
  intros [-> | (p & [_ Hp]%list_elem_of_filter & Hb)]%elem_of_trim%elem_of_join; [by left | right].
  by eapply elem_of_split_spaces.
Qed.

Lemma canon_headers_inj (H H' : HeaderMap) names h h' r r' :
  (∀ n v, H n = Some v → x0a ∉ v) → (∀ n v, H' n = Some v → x0a ∉ v) →
  canon_headers H names = Ok h → canon_headers H' names = Ok h' → h ++ r = h' ++ r' →
  r = r' ∧ ∀ n, n ∈ names → collapse <$> H n = collapse <$> H' n.
Proof.
  intros HN HN'. revert h h'. induction names as [| n names IH]; intros h h'; cbn [canon_headers].
  { intros [= <-] [= <-] Hr. split; [done |]. by intros n ?%not_elem_of_nil. }
  destruct (H n) as [v |] eqn:Hv; [| done]. destruct (canon_headers H names) as [t |]; [| done]. intros [= <-].
  destruct (H' n) as [v' |] eqn:Hv'; [| done]. destruct (canon_headers H' names) as [t' |]; [| done]. intros [= <-].
  unfold header_line. rewrite <-!app_assoc. cbn [app]. rewrite <-!app_assoc. intros Heq%app_inv_head.
  injection Heq as Heq. apply cut_inj in Heq as [Hc Hr].
  - destruct (IH t t') as [Hr' Hall]; [done | done | done |]. split; [done |].
    intros m [-> | Hm]%elem_of_cons; [| by apply Hall]. rewrite Hv, Hv'. cbn. by rewrite Hc.
  - by intros [? | Hx]%elem_of_collapse; [| eapply HN].
  - by intros [? | Hx]%elem_of_collapse; [| eapply HN'].
Qed.

Lemma raw_pairs_elem q p : p ∈ raw_pairs q → (x3d ∉ p.1) ∧ ∀ b, b ∈ p.1 ++ p.2 → b ∈ q ∧ b ≠ x26.
Proof.
  intros (w & -> & [_ Hw]%list_elem_of_filter)%list_elem_of_fmap. unfold pair_of.
  destruct (split_once x3d w) as [[k v] |] eqn:Hs; cbn [fst snd].
  - apply split_once_Some in Hs as [-> Hk]. split; [done |]. intros b Hb. eapply elem_of_split_piece; [done |].
    apply elem_of_app in Hb. apply elem_of_app. destruct Hb; [by left | right; by right].
  - apply split_once_None in Hs. split; [done |]. rewrite app_nil_r. intros b Hb. by eapply elem_of_split_piece.
Qed.

Definition pair_text (p : bytes * bytes) : bytes := p.1 ++ x3d :: p.2.

Lemma pair_texts_inj (ps qs : list (bytes * bytes)) :
  Forall (λ p, x3d ∉ p.1) ps → Forall (λ p, x3d ∉ p.1) qs → map pair_text ps = map pair_text qs → ps = qs.
Proof.
  intros Hp. revert qs. induction Hp as [| [k v] ps Hk _ IH]; intros [| [k' v'] qs]; cbn; [done | done | done |].
  intros [Hk' Hqs]%Forall_cons [= Heq Hrest]. apply cut_inj in Heq as [-> ->]; [| done | done]. f_equal. by apply IH.
Qed.

Lemma canon_query_inj q q' : canon_query q = canon_query q' → raw_pairs q ≡ₚ raw_pairs q'.
Proof.
  unfold canon_query. fold pair_text. intros H.
  assert (∀ q p, p ∈ query_pairs q → p ∈ raw_pairs q) as Hin by (intros ? ?; unfold query_pairs; by rewrite sort_by_perm).
  assert (query_pairs q = query_pairs q') as Heq; [| unfold query_pairs in Heq; by rewrite <-(sort_by_perm pair_cmp), Heq, sort_by_perm].
  assert (∀ q, Forall (λ p, x3d ∉ p.1) (query_pairs q)) as Hk.
  { intros ?. apply Forall_forall. intros p Hp. by apply raw_pairs_elem with (q := q0), Hin. }
  apply pair_texts_inj; [done | done |].
  assert (∀ q, Forall (λ p, x26 ∉ p) (map pair_text (query_pairs q))) as Hf.
  { intros q0. apply Forall_forall. intros ? (p & -> & Hp%Hin%raw_pairs_elem)%list_elem_of_fmap. destruct Hp as [_ Hp].
    unfold pair_text. rewrite elem_of_app, elem_of_cons. intros [Hb | [? | Hb]]; [| done |];
      destruct (Hp x26) as [_ ?]; try done; apply elem_of_app; auto. }
  assert (∀ p ps, join [x26] (map pair_text (p :: ps)) ≠ []) as Hne.
  { intros [k v] ps. destruct ps; cbn; unfold pair_text; cbn; by destruct k. }
  destruct (query_pairs q) as [| p ps] eqn:Hq, (query_pairs q') as [| p' ps'] eqn:Hq'; [done | | |].
  - by destruct (Hne p' ps').
  - by destruct (Hne p ps).
  - rewrite <-Hq, <-Hq' in *. by apply (join_inj x26); [rewrite Hq | rewrite Hq' | |..].
Qed.

Lemma canon_query_line q : x0a ∉ q → x0a ∉ canon_query q.
Proof.
  intros Hq [? | (w & (p & -> & Hp)%list_elem_of_fmap & Hw)]%elem_of_join; [done |].
  unfold query_pairs in Hp. rewrite sort_by_perm in Hp. apply raw_pairs_elem in Hp as [_ Hp].
  apply elem_of_app in Hw. rewrite elem_of_cons in Hw. destruct Hw as [Hw | [? | Hw]]; [| done |];
    destruct (Hp x0a); try done; apply elem_of_app; auto.
Qed.

(** The canonical forms of two requests with the same signed names. *)
Lemma canonical_request_inj (H H' : HeaderMap) names m m' p p' q q' h h' sn c c' :
  (∀ n v, H n = Some v → x0a ∉ v) → (∀ n v, H' n = Some v → x0a ∉ v) →
  x0a ∉ m → x0a ∉ m' → x0a ∉ p → x0a ∉ p' → x0a ∉ q → x0a ∉ q' →
  canon_headers H names = Ok h → canon_headers H' names = Ok h' →
  canonical_request m p (canon_query q) h sn c = canonical_request m' p' (canon_query q') h' sn c' →
  m = m' ∧ p = p' ∧ raw_pairs q ≡ₚ raw_pairs q' ∧ c = c' ∧ ∀ n, n ∈ names → collapse <$> H n = collapse <$> H' n.
Proof.
  intros HN HN' Hm Hm' Hp Hp' Hq Hq' Hh Hh'. unfold canonical_request.
  intros [-> [-> [Hqq Heq]%cut_inj]%cut_inj]%cut_inj; try done; try by apply canon_query_line.
  destruct (canon_headers_inj H H' names h h' _ _ HN HN' Hh Hh' Heq) as [Hr Hall].
  injection Hr as Hr%app_inv_head. injection Hr as ->. split_and!; try done. by apply canon_query_inj.
Qed.

Section Binding.
Context `{DG : !Digests}.

(** Two texts that the function [f] does not tell apart. *)
Definition one_digest (f : bytes → bytes) (x y : bytes) : Prop := x ≠ y ∧ f x = f y.

(** The texts that the check of one request hashes: the key of its MAC, the
    canonical request and the string to sign. *)
Record Hashed := { hs_key : bytes; hs_request : bytes; hs_text : bytes }.

Definition hashed (cfg : SigV4Config) (meth raw_path raw_query : bytes) (headers : HeaderMap) : option Hashed :=
  v ← headers (str "authorization");
  auth ← (match parse_auth_header v with Ok a => Some a | Err _ => None end);
  amz_date ← headers (str "x-amz-date");
  heads ← (match canon_headers headers (ah_signed_headers auth) with Ok h => Some h | Err _ => None end);
  let content := default UNSIGNED_PAYLOAD (headers (str "x-amz-content-sha256")) in
  Some {| hs_key := signing_key (secret_key cfg) (ah_date auth) (ah_region auth) (ah_service auth);
          hs_request := canonical_request meth raw_path (canon_query raw_query) heads
                          (join [x3b] (ah_signed_headers auth)) content;
          hs_text := text_to_sign auth amz_date content meth raw_path raw_query heads |}.

(** The digests confuse the two requests themselves: their strings to sign
    under the one key, their canonical requests, or their bodies. *)
Definition confused (d d' : Hashed) (body body' : bytes) : Prop :=
  one_digest (hmac (hs_key d)) (hs_text d) (hs_text d') ∨ one_digest sha256 (hs_request d) (hs_request d') ∨ one_digest sha256 body body'.

(** What an accepted request has passed. *)
Lemma verify_ok cfg now m p q (H : HeaderMap) b :
  verify cfg now m p q H b = Ok tt →
  ∃ v auth amz heads, H (str "authorization") = Some v ∧ parse_auth_header v = Ok auth ∧
    H (str "x-amz-date") = Some amz ∧ check_skew cfg now amz = Ok tt ∧
    ah_access_key auth = access_key cfg ∧
    let content := default UNSIGNED_PAYLOAD (H (str "x-amz-content-sha256")) in
    (content = UNSIGNED_PAYLOAD ∨ eq_ignore_ascii_case content b = true) ∧
    canon_headers H (ah_signed_headers auth) = Ok heads ∧
    hex_decode (ah_signature_hex auth) =
      Some (hmac (signing_key (secret_key cfg) (ah_date auth) (ah_region auth) (ah_service auth))
              (text_to_sign auth amz content m p q heads)).
Proof.
  unfold verify. destruct (H (str "authorization")) as [v |]; [| done].
  destruct (parse_auth_header v) as [auth |] eqn:Hp; [| done].
  case_bool_decide as Hk; [cbn [negb] | done].
  destruct (H (str "x-amz-date")) as [amz |]; [| done].
  destruct (starts_with (ah_date auth) amz); [cbn [negb] | done].
  destruct (check_skew cfg now amz) as [[] |] eqn:Hs; [| done].
  set (content := default _ _). destruct (negb _ && negb _) eqn:Hc; [done |].
  destruct (canon_headers H (ah_signed_headers auth)) as [heads |] eqn:Hh; [| done].
  destruct (hex_decode (ah_signature_hex auth)) as [provided |] eqn:Hd; [| done].
  destruct (bool_decide (hmac _ _ = provided)) eqn:Hmac; [| done]. apply bool_decide_eq_true in Hmac. intros _. exists v, auth, amz, heads. cbv zeta. fold content. split_and!; try done.
  - apply andb_false_iff in Hc as [Hc | Hc]; apply negb_false_iff in Hc; [left | by right].
    by apply bool_decide_eq_true in Hc.
  - by rewrite Hmac.
Qed.

Lemma hashed_ok cfg m p q (H : HeaderMap) v auth amz heads :
  H (str "authorization") = Some v → parse_auth_header v = Ok auth → H (str "x-amz-date") = Some amz →
  canon_headers H (ah_signed_headers auth) = Ok heads →
  let content := default UNSIGNED_PAYLOAD (H (str "x-amz-content-sha256")) in
  ∃ d, hashed cfg m p q H = Some d ∧
    hs_key d = signing_key (secret_key cfg) (ah_date auth) (ah_region auth) (ah_service auth) ∧
    hs_request d = canonical_request m p (canon_query q) heads (join [x3b] (ah_signed_headers auth)) content ∧
    hs_text d = text_to_sign auth amz content m p q heads.
Proof.
  intros Hv Ha Hd Hh content. unfold hashed. rewrite Hv. cbn [mbind option_bind]. rewrite Ha. cbn [mbind option_bind].
  rewrite Hd. cbn [mbind option_bind]. rewrite Hh. cbn [mbind option_bind]. eexists. split; [reflexivity | done].
Qed.

Lemma lower_hex b : to_ascii_lowercase (hex b) = hex b.
Proof.
  induction b as [| x b IH]; [done |]. rewrite hex_cons, lower_app, IH. f_equal. clear. destruct x; vm_compute; reflexivity.
Qed.

(** C27. One signature is good for one request: two requests accepted under the
    same Authorization header have the same method, path, query pairs, date
    and (up to spaces) signed headers, and the same body unless its hash was
    declared unsigned; or the digests confuse these very requests: their two
    strings to sign have one MAC under the secret key, their two canonical
    requests one SHA-256, or their two bodies one SHA-256, though they
    differ. Header values, paths and queries are lines of HTTP. *)
Theorem one_signature_one_request cfg now now' m m' p p' q q' (H H' : HeaderMap) body body' :
  verify cfg now m p q H (hex (sha256 body)) = Ok tt →
  verify cfg now' m' p' q' H' (hex (sha256 body')) = Ok tt →
  H (str "authorization") = H' (str "authorization") →
  (∀ n v, H n = Some v → x0a ∉ v) → (∀ n v, H' n = Some v → x0a ∉ v) →
  x0a ∉ m → x0a ∉ m' → x0a ∉ p → x0a ∉ p' → x0a ∉ q → x0a ∉ q' →
  (∃ d d', hashed cfg m p q H = Some d ∧ hashed cfg m' p' q' H' = Some d' ∧ confused d d' body body') ∨
  (m = m' ∧ p = p' ∧ raw_pairs q ≡ₚ raw_pairs q' ∧
   H (str "x-amz-date") = H' (str "x-amz-date") ∧
   (∀ v auth n, H (str "authorization") = Some v → parse_auth_header v = Ok auth → n ∈ ah_signed_headers auth →
      collapse <$> H n = collapse <$> H' n) ∧
   (default UNSIGNED_PAYLOAD (H (str "x-amz-content-sha256")) = UNSIGNED_PAYLOAD ∨ body = body')).
Proof.
  intros (v & auth & amz & heads & Hv & Ha & Hd & _ & _ & Hc & Hh & Hmac)%verify_ok
    (v' & auth' & amz' & heads' & Hv' & Ha' & Hd' & _ & _ & Hc' & Hh' & Hmac')%verify_ok Hauth HN HN' Hm Hm' Hp Hp' Hq Hq'.
  rewrite Hv, Hv' in Hauth. injection Hauth as <-. rewrite Ha in Ha'. injection Ha' as <-.
  rewrite Hmac in Hmac'. injection Hmac' as Hmac'.
  destruct (hashed_ok cfg m p q H v auth amz heads) as [d (Hd1 & Ek & Er & Et)]; [done .. |].
  destruct (hashed_ok cfg m' p' q' H' v auth amz' heads') as [d' (Hd1' & _ & Er' & Et')]; [done .. |].
  set (t := text_to_sign auth amz _ _ _ _ _) in Hmac'. set (t' := text_to_sign auth amz' _ _ _ _ _) in Hmac'.
  destruct (decide (t = t')) as [Ht |];
    [| left; exists d, d'; split_and!; [done .. |]; left; rewrite Ek, Et, Et'; by split].
  unfold t, t', text_to_sign, string_to_sign in Ht.
  apply app_inv_head in Ht. injection Ht as [-> Ht%app_inv_head]%cut_inj; [| by eapply HN | by eapply HN'].
  injection Ht as Ht%hex_inj.
  set (r := canonical_request _ _ _ _ _ _) in Ht. set (r' := canonical_request _ _ _ _ _ _) in Ht.
  destruct (decide (r = r')) as [Hr |];
    [| left; exists d, d'; split_and!; [done .. |]; right; left; rewrite Er, Er'; by split].
  destruct (canonical_request_inj H H' _ _ _ _ _ _ _ _ _ _ _ _ HN HN' Hm Hm' Hp Hp' Hq Hq' Hh Hh' Hr)
    as (-> & -> & Hqq & Hcc & Hall).
  assert (∀ c, c = UNSIGNED_PAYLOAD ∨ eq_ignore_ascii_case c (hex (sha256 body)) = true →
    c = UNSIGNED_PAYLOAD ∨ eq_ignore_ascii_case c (hex (sha256 body')) = true → c = UNSIGNED_PAYLOAD ∨ sha256 body = sha256 body')
    as Hbody.
  { intros c [? | H1] [? | H2]; [by left .. |]. right. unfold eq_ignore_ascii_case in *.
    apply bool_decide_eq_true in H1, H2. apply hex_inj. rewrite <-(lower_hex (sha256 body)), <-(lower_hex (sha256 body')). congruence. }
  assert (∀ v0 auth0 n, H (str "authorization") = Some v0 → parse_auth_header v0 = Ok auth0 → n ∈ ah_signed_headers auth0 →
    collapse <$> H n = collapse <$> H' n) as Hnames.
  { intros v0 auth0 n Hv0 Ha0. rewrite Hv in Hv0. injection Hv0 as <-. rewrite Ha in Ha0. injection Ha0 as <-. apply Hall. }
  rewrite <-Hcc in Hc'. destruct (Hbody _ Hc Hc') as [Hu | Hs].
  - right. split_and!; try done; [congruence | by left].
  - destruct (decide (body = body')); [right | left; exists d, d'; split_and!; [done .. |]; right; right; by split].
    split_and!; try done; [congruence | by right].
Qed.
End Binding.
