(* ===== verification/Gateway.v ===== *)
(** * The S3 gateway (crates/ozd-ipfs/src/lib.rs, ratelimit.rs)

    The handlers of the object routes over a block store, and the layers in
    front of them: the rate limit, then the signature, then the handler.
    Routing, the percent-decoding of paths and queries and the transport are
    the web framework's; a request comes with its path cut into bucket and
    key and its query as a map. A handler never fails: an error is a response. *)

From Stdlib Require Import ZArith Lia Strings.Byte.
From stdpp Require Import base list strings pretty gmap.
From S2P Require Import Prelude F64 Domain Text Metrics Throttle HealQueue Latency DiskSlow Piece Erasure Verified PoolState Pool SigV4.
Open Scope Z_scope.

(** ** Requests and responses *)

Record Response := {
  rs_status : Z;
  rs_headers : list (bytes * bytes);
  rs_body : bytes;
}.

Definition quote : bytes := [x22].
Definition XML_HEAD : bytes :=
  str "<?xml version=" ++ quote ++ str "1.0" ++ quote ++ str " encoding=" ++ quote ++ str "UTF-8" ++ quote ++ str "?>".

Definition s3_error (code : Z) (s3code msg : bytes) : Response := {|
  rs_status := code;
  rs_headers := [(str "content-type", str "application/xml")];
  rs_body := XML_HEAD ++ str "<Error><Code>" ++ s3code ++ str "</Code><Message>" ++ msg ++ str "</Message></Error>";
|}.

Definition map_err (e : DomainError) : Response :=
  match e with
  | NotFound => s3_error 404 (str "NoSuchKey") (str "not found")
  | IntegrityViolation m => s3_error 500 (str "InternalError") (str m)
  | Shutdown => s3_error 503 (str "ServiceUnavailable") (str "shutting down")
  | other => s3_error 500 (str "InternalError") (str (error_to_string other))
  end.

(** The key of an object: with a leading slash. *)
Definition bkey (key : bytes) : BlockKey := if starts_with [x2f] key then key else x2f :: key.

(** ** Ranges *)

Inductive RangeSpec :=
| RangeFrom (start : Z) (end_opt : option Z)
| Suffix (n : Z).

Definition parse_range (v : bytes) : option RangeSpec :=
  match strip_prefix (str "bytes=") v with
  | None => None
  | Some spec =>
      match split_once x2d spec with
      | None => None
      | Some ([], b) =>
          match parse_u64 b with
          | Some n => if n =? 0 then None else Some (Suffix n)
          | None => None
          end
      | Some (a, b) =>
          match parse_u64 a with
          | None => None
          | Some start =>
              if bool_decide (b = []) then Some (RangeFrom start None)
              else match parse_u64 b with
                   | None => None
                   | Some e => if e <? start then None else Some (RangeFrom start (Some e))
                   end
          end
      end
  end.

(** The first and the last byte asked for; [None] is the whole object. *)
Definition span_of (range : option RangeSpec) (want_bao : bool) (total : Z) : DomainResult (option (Z * Z)) :=
  match range with
  | None => if want_bao then Ok (Some (0, sat_sub total 1)) else Ok None
  | Some (RangeFrom start end_opt) =>
      if total <=? start then Err (Io "range start beyond EOF")
      else Ok (Some (start, Z.min (default (total - 1) end_opt) (total - 1)))
  | Some (Suffix n) =>
      if total =? 0 then Err (Io "range on empty body")
      else Ok (Some (sat_sub total n, total - 1))
  end.

Inductive GetOut :=
| Full (data : bytes)
| Range (data content_range : bytes) (verified : bool)
| BaoSlice (sl root content_range : bytes).

(** [format!("bytes {start}-{end}/{total}")] *)
Definition content_range_of (start end_ total : Z) : bytes :=
  str "bytes " ++ show start ++ x2d :: show end_ ++ x2f :: show total.

Section Handlers.
Context {B : Type} `{BS : !BlockStore B} `{BO : !Bao}.
Local Open Scope rust_scope.
Local Abbreviation BM := (M B DomainError).
Local Abbreviation HM := (M B Empty_set Response).

(** ** Objects *)

Definition put_object (key body : bytes) : HM :=
  match! bs_put (bkey key) body with! r =>
  match r with
  | Ok _ => mret {| rs_status := 200; rs_headers := [(str "etag", quote ++ str "ozd" ++ quote)]; rs_body := [] |}
  | Err e => mret (map_err e)
  end.

(** The blocking part of a GET. *)
Definition read_object (k : BlockKey) (range : option RangeSpec) (want_bao : bool) : BM GetOut :=
  let! data := bs_get k in
  let total := blen data in
  let! span := mlift (span_of range want_bao total) in
  match span with
  | None => mret (Full data)
  | Some (start, end_) =>
      let len := end_ - start + 1 in
      let content_range := content_range_of start end_ total in
      match! bs_get (ob_key k) with! ob =>
      match ob with
      | Ok ob =>
          if want_bao then
            let! sr := mlift (bao_slice data ob start len) in
            mret (BaoSlice sr.1 (hex sr.2) content_range)
          else
            let! v := mlift (verified_slice data ob start len) in
            mret (Range v content_range true)
      | Err NotFound =>
          if want_bao then mthrow (Io "bao requested but no outboard for key")
          else mret (Range (slice (Z.to_nat start) (Z.to_nat (end_ + 1 - start)) data) content_range false)
      | Err e => mthrow e
      end
  end.

Definition octets : bytes := str "application/octet-stream".

Definition get_response (out : GetOut) : Response :=
  match out with
  | Full data => {| rs_status := 200; rs_headers := [(str "content-type", octets)]; rs_body := data |}
  | Range data cr verified =>
      {| rs_status := 206;
         rs_headers := [(str "content-type", octets); (str "content-range", cr);
           (str "x-ozd-verified", if verified then str "blake3" else str "none")];
         rs_body := data |}
  | BaoSlice sl root cr =>
      {| rs_status := 206;
         rs_headers := [(str "content-type", str "application/vnd.ozd.bao-slice"); (str "content-range", cr);
           (str "x-ozd-bao-root", root)];
         rs_body := sl |}
  end.

Definition wants_bao (headers : HeaderMap) : bool :=
  match headers (str "x-ozd-bao") with
  | Some v => bool_decide (v = str "1") || eq_ignore_ascii_case v (str "true")
  | None => false
  end.

Definition get_object (key : bytes) (headers : HeaderMap) : HM :=
  let range := headers (str "range") ≫= parse_range in
  match! read_object (bkey key) range (wants_bao headers) with! r =>
  match r with
  | Ok out => mret (get_response out)
  | Err e => mret (map_err e)
  end.

Definition head_object (key : bytes) : HM :=
  match! bs_stat (bkey key) with! r =>
  match r with
  | Ok len => mret {| rs_status := 200; rs_headers := [(str "content-length", show len)]; rs_body := [] |}
  | Err NotFound => mret {| rs_status := 404; rs_headers := []; rs_body := [] |}
  | Err e => mret (map_err e)
  end.

Definition delete_object (key : bytes) : HM :=
  match! bs_delete (bkey key) with! r =>
  match r with
  | Ok _ => mret {| rs_status := 204; rs_headers := []; rs_body := [] |}
  | Err e => mret (map_err e)
  end.

(** ** Listing *)

Definition replace_byte (c : byte) (r s : bytes) : bytes := s ≫= λ b, if decide (b = c) then r else [b].
Definition xml_escape (s : bytes) : bytes :=
  replace_byte x3e (str "&gt;") (replace_byte x3c (str "&lt;") (replace_byte x26 (str "&amp;") s)).

(** What a listing answers, before it is XML. *)
Record ListResult := {
  lr_items : list (BlockKey * Z);
  lr_truncated : bool;
}.

(** [q.get("max-keys").and_then(|s| s.parse().ok()).unwrap_or(1000).min(10_000)] *)
Definition max_keys_of (q : bytes → option bytes) : Z :=
  Z.min (default 1000 (q (str "max-keys") ≫= parse_u64)) 10000.

(** [q.get("continuation-token").or(q.get("start-after"))] *)
Definition token_of (q : bytes → option bytes) : option bytes :=
  match q (str "continuation-token") with Some t => Some t | None => q (str "start-after") end.

Definition list_query (q : bytes → option bytes) : BM ListResult :=
  let prefix_raw := default [] (q (str "prefix")) in
  let max_keys := max_keys_of q in
  let token := token_of q in
  let! items := bs_list (bkey prefix_raw) (bkey <$> token) (Z.to_nat (max_keys + 1)) in
  mret {| lr_items := take (Z.to_nat max_keys) items; lr_truncated := max_keys <? Z.of_nat (length items) |}.

(** The continuation token of a truncated page: its last key. *)
Definition next_token (r : ListResult) : option bytes :=
  if lr_truncated r then (λ e, from_utf8_lossy e.1) <$> last (lr_items r) else None.
(** The name of an object: its key without the slash. *)
Definition object_name (k : BlockKey) : bytes :=
  let key_str := from_utf8_lossy k in default key_str (strip_prefix [x2f] key_str).

Definition tag (name body : bytes) : bytes := x3c :: name ++ x3e :: body ++ str "</" ++ name ++ [x3e].

Definition list_xml (bucket prefix_raw : bytes) (max_keys : Z) (r : ListResult) : bytes :=
  XML_HEAD ++ str "<ListBucketResult xmlns=" ++ quote ++ str "http://s3.amazonaws.com/doc/2006-03-01/" ++ quote ++ [x3e]
  ++ tag (str "Name") bucket ++ tag (str "Prefix") (xml_escape prefix_raw)
  ++ tag (str "KeyCount") (show (Z.of_nat (length (lr_items r)))) ++ tag (str "MaxKeys") (show max_keys)
  ++ tag (str "IsTruncated") (if lr_truncated r then str "true" else str "false")
  ++ (match next_token r with Some t => tag (str "NextContinuationToken") (xml_escape t) | None => [] end)
  ++ (lr_items r ≫= λ e, tag (str "Contents") (tag (str "Key") (xml_escape (object_name e.1))
        ++ tag (str "Size") (show e.2) ++ tag (str "StorageClass") (str "STANDARD")))
  ++ str "</ListBucketResult>".

Definition list_objects (bucket : bytes) (q : bytes → option bytes) : HM :=
  match! list_query q with! r =>
  match r with
  | Ok r => mret {| rs_status := 200; rs_headers := [(str "content-type", str "application/xml")];
                    rs_body := list_xml bucket (default [] (q (str "prefix"))) (max_keys_of q) r |}
  | Err e => mret (map_err e)
  end.
End Handlers.

(** ** The rate limit *)

Section RateLimit.
Context {IpAddr : Type} `{Countable IpAddr}.

Record Bucket := { tokens : f64; bk_last : Z }.
Record RateLimiter := {
  rl_max_rps : f64;
  buckets : gmap IpAddr Bucket;
  request_count : Z;
}.

Definition limiter_new (max_rps : Z) : RateLimiter :=
  {| rl_max_rps := f64_of_Z max_rps; buckets := ∅; request_count := 0 |}.

(** Every 256th request drops the buckets of the last minute's absentees. *)
Definition swept (l : RateLimiter) (now : Z) : gmap IpAddr Bucket :=
  if request_count l mod 256 =? 0 then
    filter (λ e, (sat_sub now (bk_last e.2)) / 1000000000 < 60) (buckets l)
  else buckets l.

(** [check] at [now], in nanoseconds. *)
Definition check (l : RateLimiter) (now : Z) (ip : IpAddr) : bool * RateLimiter :=
  let map := swept l now in
  let bucket := default {| tokens := rl_max_rps l; bk_last := now |} (map !! ip) in
  let elapsed := as_secs_f64 (sat_sub now (bk_last bucket)) in
  let full := f64_min (f64_add (tokens bucket) (f64_mul elapsed (rl_max_rps l))) (rl_max_rps l) in
  let grant := f64_le (f64_of_Z 1) full in
  let bucket := {| tokens := if grant then f64_sub full (f64_of_Z 1) else full; bk_last := now |} in
  (grant, {| rl_max_rps := rl_max_rps l; buckets := <[ip := bucket]> map;
             request_count := wrap 64 (request_count l + 1) |}).

(** The client's address: the first of X-Forwarded-For, else the socket's. *)
Definition extract_ip (parse_ip : bytes → option IpAddr) (localhost : IpAddr) (headers : HeaderMap)
    (connect_info : option IpAddr) : IpAddr :=
  let forwarded := headers (str "x-forwarded-for") ≫= λ val, head (split x2c val) ≫= λ first, parse_ip (trim first) in
  default (default localhost connect_info) forwarded.
End RateLimit.
Arguments RateLimiter IpAddr {_ _}.

(** ** The service: layers and handlers *)

(** The call that the router makes of a request. *)
Inductive S3Call :=
| PutObject (key : bytes)
| GetObject (key : bytes)
| HeadObject (key : bytes)
| DeleteObject (key : bytes)
| ListObjects (bucket : bytes) (query : bytes → option bytes).

Record Request (IpAddr : Type) := {
  rq_call : S3Call;
  rq_method : bytes;
  rq_path : bytes;
  rq_query : bytes;
  rq_headers : HeaderMap;
  rq_body : bytes;
  rq_peer : option IpAddr;
}.
Arguments rq_call {_} _.
Arguments rq_method {_} _.
Arguments rq_path {_} _.
Arguments rq_query {_} _.
Arguments rq_headers {_} _.
Arguments rq_body {_} _.
Arguments rq_peer {_} _.

(** What the web framework answers by itself: the [Bytes] extractor to a body
    that it refuses, and the text of [to_bytes]'s error; the parser of
    addresses. *)
Class Web (IpAddr : Type) := {
  bytes_rejection : bytes → option Response;
  limit_error : bytes;
  parse_ip : bytes → option IpAddr;
  localhost : IpAddr;
}.

Definition MAX_BODY : Z := 256 * 1024 * 1024.

Section Service.
Context {B : Type} `{BS : !BlockStore B} `{BO : !Bao} `{DG : !Digests}.
Context {IpAddr : Type} `{Countable IpAddr} `{WF : !Web IpAddr}.
Local Open Scope rust_scope.
Local Abbreviation HM := (M B Empty_set Response).

Definition dispatch (rq : Request IpAddr) : HM :=
  match rq_call rq with
  | PutObject key =>
      match bytes_rejection (rq_body rq) with
      | Some r => mret r
      | None => put_object key (rq_body rq)
      end
  | GetObject key => get_object key (rq_headers rq)
  | HeadObject key => head_object key
  | DeleteObject key => delete_object key
  | ListObjects bucket query => list_objects bucket query
  end.

(** The signature layer; [now] in seconds. *)
Definition sigv4_mw (cfg : SigV4Config) (now : Z) (rq : Request IpAddr) (next : HM) : HM :=
  if MAX_BODY <? blen (rq_body rq) then mret (s3_error 403 (str "AccessDenied") (str "body: " ++ limit_error))
  else
    match verify cfg now (rq_method rq) (rq_path rq) (rq_query rq) (rq_headers rq) (hex (sha256 (rq_body rq))) with
    | Ok _ => next
    | Err e => mret (s3_error 403 (str "SignatureDoesNotMatch") e)
    end.

Record gateway := {
  gw_store : B;
  gw_auth : option SigV4Config;
  gw_limiter : option (RateLimiter IpAddr);
}.

Definition TOO_MANY : Response :=
  {| rs_status := 429; rs_headers := [(str "retry-after", str "1")]; rs_body := str "429 Too Many Requests" |}.

(** The outermost layer is the rate limit; [now_ns] is its clock. *)
Definition rate_limit_mw (limiter : option (RateLimiter IpAddr)) (now_ns : Z) (rq : Request IpAddr) :
    bool * option (RateLimiter IpAddr) :=
  match limiter with
  | None => (true, None)
  | Some l =>
      let '(pass, l) := check l now_ns (extract_ip parse_ip localhost (rq_headers rq) (rq_peer rq)) in (pass, Some l)
  end.

(** One request through [router]. *)
Definition serve (now now_ns : Z) (rq : Request IpAddr) (gw : gateway) : Response * gateway :=
  let '(pass, limiter) := rate_limit_mw (gw_limiter gw) now_ns rq in
  let '(r, store) :=
    if pass then
      match gw_auth gw with
      | None => dispatch rq (gw_store gw)
      | Some cfg => sigv4_mw cfg now rq (dispatch rq) (gw_store gw)
      end
    else (Ok TOO_MANY, gw_store gw) in
  (match r with Ok resp => resp | Err e => match e with end end,
   {| gw_store := store; gw_auth := gw_auth gw; gw_limiter := limiter |}).
End Service.
Arguments gateway B IpAddr {_ _}.

(** ** Health *)

Section Healthz.
Context {E : Type}.

Definition healthz (po : option (pool E)) : Response :=
  let '(status_str, shards, faulted, shutting_down) :=
    match po with
    | Some p =>
        let n := shard_count p in
        let f := length (filter (λ i, shard_status p i = Some Faulted) (seq 0 n)) in
        let sd := p_shutting_down p in
        (if sd then str "shutting_down" else str "ok", n, f, sd)
    | None => (str "ok", 0%nat, 0%nat, false)
    end in
  {| rs_status := if shutting_down then 503 else 200;
     rs_headers := [(str "content-type", str "application/json")];
     rs_body := x7b :: quote ++ str "status" ++ quote ++ x3a :: quote ++ status_str ++ quote
       ++ x2c :: quote ++ str "shards" ++ quote ++ x3a :: show (Z.of_nat shards)
       ++ x2c :: quote ++ str "faulted" ++ quote ++ x3a :: show (Z.of_nat faulted)
       ++ x2c :: quote ++ str "shutting_down" ++ quote ++ x3a :: (if shutting_down then str "true" else str "false")
       ++ [x7d] |}.
End Healthz.
