(* ===== verification/GatewayFacts.v ===== *)
(** * The gateway against its store

    Every request, through all layers, is an operation on the map that the
    store holds; a range request answers exactly the bytes asked for; a client
    that follows the continuation tokens sees every object once.

    Second part: The rate limit in one instant. *)

From Stdlib Require Import ZArith Lia Strings.Byte Sorting.Sorted SpecFloat.
From stdpp Require Import base list gmap sorting strings.
From S2P Require Import Prelude F64 Text Domain Paging Verified Metrics Throttle SigV4 Gateway.
Open Scope Z_scope.

(** ** Ranges *)

(** The bytes that a range header asks for. *)
Definition asked (range : RangeSpec) (d : bytes) : bytes :=
  match range with
  | RangeFrom a (Some b) => range_of d a (b - a + 1)
  | RangeFrom a None => drop (Z.to_nat a) d
  | Suffix n => drop (length d - Z.to_nat n) d
  end.

Definition range_ok (range : RangeSpec) : Prop :=
  match range with
  | RangeFrom a o => 0 <= a ∧ match o with Some b => a <= b | None => True end
  | Suffix n => 0 < n
  end.

Lemma digits_nonneg radix acc s z : 0 <= radix → 0 <= acc → digits radix acc s = Some z → 0 <= z.
Proof.
  intros Hr. revert acc. induction s as [| b s IH]; intros acc Ha; cbn [digits]; [by intros [= <-] |].
  destruct (digit radix b) as [d |] eqn:Hd; [| done]. apply IH.
  assert (0 <= d); [| nia]. unfold digit in Hd. pose proof (Byte.byte.unsigned_range b).
  destruct ((48 <=? _) && (_ <=? 57)) eqn:H1; [| destruct ((97 <=? _) && (_ <=? 122)) eqn:H2;
    [| destruct ((65 <=? _) && (_ <=? 90)) eqn:H3]]; repeat rewrite ?andb_true_iff, ?Z.leb_le in *;
    destruct (_ <? radix) in Hd; try done; injection Hd as <-; lia.
Qed.

Lemma parse_u64_nonneg s z : parse_u64 s = Some z → 0 <= z < 2 ^ 64.
Proof.
  unfold parse_u64, from_str_radix. set (bounded := λ z, _).
  assert (∀ x, bounded x = Some z → 0 <= z < 2 ^ 64) as Hb.
  { intros x. unfold bounded. destruct (Z.leb_spec 0 x), (Z.leb_spec x (2 ^ 64 - 1)); cbn [andb]; try done. intros [= <-]. lia. }
  destruct s as [| b r]; [done |]. case_decide.
  - case_bool_decide; [done |]. destruct (digits _ _ _); [apply Hb | done].
  - rewrite decide_False by (intros [_ ?]; lia). destruct (digits _ _ _); [apply Hb | done].
Qed.

Lemma parse_range_ok v range : parse_range v = Some range → range_ok range.
Proof.
  unfold parse_range. destruct (strip_prefix _ v) as [spec |]; [| done].
  destruct (split_once x2d spec) as [[[| x a] b] |]; [| | done].
  - destruct (parse_u64 b) as [n |] eqn:Hn; [| done]. apply parse_u64_nonneg in Hn.
    destruct (Z.eqb_spec n 0); [done |]. intros [= <-]. cbn. lia.
  - destruct (parse_u64 (x :: a)) as [start |] eqn:Hs; [| done]. apply parse_u64_nonneg in Hs.
    case_bool_decide; [intros [= <-]; cbn; lia |]. destruct (parse_u64 b) as [e |]; [| done].
    destruct (Z.ltb_spec e start); [done |]. intros [= <-]. cbn. lia.
Qed.

Lemma length_range d a n : 0 <= a → 0 <= n → length (range_of d a n) = Nat.min (Z.to_nat n) (length d - Z.to_nat a).
Proof. intros ? ?. unfold range_of, slice. rewrite length_take, length_drop. lia. Qed.

(** The span read is the range asked for, and there is none exactly when no
    byte is asked for. *)
Lemma span_asked range wb d :
  range_ok range →
  match span_of (Some range) wb (blen d) with
  | Ok (Some (a, b)) => 0 <= a ∧ a <= b ∧ b < blen d ∧ range_of d a (b - a + 1) = asked range d ∧ asked range d ≠ []
  | Ok None => False
  | Err e => e ≠ NotFound ∧ asked range d = []
  end.
Proof.
  intros Hr. unfold blen. destruct range as [a [b |] | n]; cbn -[range_of] in *.
  - destruct (Z.leb_spec (Z.of_nat (length d)) a).
    + split; [done |]. apply length_zero_iff_nil. rewrite length_range by lia. lia.
    + split_and!; [lia | lia | lia | |].
      * unfold range_of, slice. destruct (Z.min_spec b (Z.of_nat (length d) - 1)) as [[? ->] | [? ->]]; [done |].
        rewrite !take_ge by (rewrite length_drop; lia). done.
      * intros H0. apply (f_equal length) in H0. rewrite length_range in H0 by lia. cbn in H0. lia.
  - destruct (Z.leb_spec (Z.of_nat (length d)) a).
    + split; [done |]. by apply drop_ge; lia.
    + rewrite Z.min_id. split_and!; [lia | lia | lia | |].
      * unfold range_of, slice. rewrite take_ge by (rewrite length_drop; lia). done.
      * intros H0. apply (f_equal length) in H0. rewrite length_drop in H0. cbn in H0. lia.
  - destruct (Z.eqb_spec (Z.of_nat (length d)) 0).
    + split; [done |]. apply drop_ge. lia.
    + unfold sat_sub. split_and!; [lia | lia | lia | |].
      * unfold range_of, slice. rewrite take_ge by (rewrite length_drop; lia). f_equal. lia.
      * intros H0. apply (f_equal length) in H0. rewrite length_drop in H0. cbn in H0. lia.
Qed.

(** ** Handlers over a store *)

Lemma verified_slice_error `{BO : !Bao} d ob a n : verified_slice d ob a n ≠ Err NotFound.
Proof. unfold verified_slice. case_bool_decide; [done |]. destruct (bao_extract _ _ _ _); [| done]. by destruct (bao_decode _ _ _ _). Qed.

Lemma bao_slice_error `{BO : !Bao} d ob a n : bao_slice d ob a n ≠ Err NotFound.
Proof.
  unfold bao_slice, verify_bao_slice. case_bool_decide; [done |]. destruct (bao_extract _ _ _ _); [| done].
  by destruct (bao_decode _ _ _ _).
Qed.

Section Store.
Context {B : Type} `{BS : !BlockStore B, BSS : !BlockStoreSpec B} `{BO : !Bao}.
Context (always_ready : ∀ s, bs_ok s → bs_ready s).
Local Abbreviation BM := (M B DomainError).
Local Abbreviation HM := (M B Empty_set).
Implicit Types (s : B) (k : BlockKey).

(** What an answer to a GET says, of the body [d] and the outboard [ob]. *)
Definition answers (range : option RangeSpec) (wb : bool) (d : bytes) (ob : option bytes) (out : GetOut) : Prop :=
  match out with
  | Full data => span_of range wb (blen d) = Ok None ∧ data = d
  | Range data cr verified => ∃ a b, span_of range wb (blen d) = Ok (Some (a, b)) ∧ wb = false ∧
      cr = content_range_of a b (blen d) ∧
      if verified then ∃ o, ob = Some o ∧ verified_slice d o a (b - a + 1) = Ok data
      else ob = None ∧ data = range_of d a (b - a + 1)
  | BaoSlice sl root cr => ∃ a b o r, span_of range wb (blen d) = Ok (Some (a, b)) ∧ wb = true ∧
      cr = content_range_of a b (blen d) ∧ ob = Some o ∧ bao_slice d o a (b - a + 1) = Ok (sl, r) ∧ root = hex r
  end.

Lemma wp_read_object k range wb s :
  bs_ok s → match range with Some r => range_ok r | None => True end →
  wp (read_object k range wb : BM _) (λ r s', bs_ok s' ∧ vals_same bs_val s s' ∧
    match r with
    | Ok out => ∃ d, bs_val s k = Some d ∧ answers range wb d (bs_val s (ob_key k)) out
    | Err NotFound => bs_val s k = None
    | Err _ => True
    end) s.
Proof.
  intros Hok Hr. unfold read_object. wp_step. eapply wp_mono; [by apply bs_get_spec, always_ready |].
  intros [d | e] s1 (Hok1 & Hs1 & Hg); [| split_and!; by destruct e].
  wp_steps. destruct (span_of range wb (blen d)) as [[[a b] |] | e] eqn:Hsp.
  - wp_step. eapply wp_mono; [by apply bs_get_spec, always_ready |]. intros ob s2 (Hok2 & Hs2 & Ho).
    assert (vals_same bs_val s s2) as Hs by (intros x; by rewrite Hs2, Hs1).
    destruct ob as [o | e].
    + rewrite Hs1 in Ho. destruct wb.
      * wp_steps. destruct (bao_slice d o a (b - a + 1)) as [[sl root] | e] eqn:Hb.
        -- apply wp_ret. split_and!; [done | done |]. exists d. split; [done |]. by exists a, b, o, root.
        -- split_and!; [done | done |]. destruct e; try done. by apply bao_slice_error in Hb.
      * wp_steps. destruct (verified_slice d o a (b - a + 1)) as [v | e] eqn:Hb.
        -- apply wp_ret. split_and!; [done | done |]. exists d. split; [done |]. exists a, b. split_and!; try done. by exists o.
        -- split_and!; [done | done |]. destruct e; try done. by apply verified_slice_error in Hb.
    + destruct e; try (apply wp_throw; by split_and!). rewrite Hs1 in Ho. destruct wb; [apply wp_throw; by split_and! |].
      apply wp_ret. split_and!; [done | done |]. exists d. split; [done |]. exists a, b. split_and!; try done.
      unfold range_of. do 2 f_equal. lia.
  - apply wp_ret. split_and!; [done | done |]. exists d. by split.
  - split_and!; [done | done |]. destruct range as [range |]; [| by destruct wb].
    pose proof (span_asked range wb d Hr) as Ha. rewrite Hsp in Ha. destruct e; try done. by destruct Ha.
Qed.

Lemma map_err_status e : rs_status (map_err e) = 404 ∧ e = NotFound ∨ 500 <= rs_status (map_err e) <= 503.
Proof. destruct e; cbn; auto with lia. Qed.

Lemma get_response_status out : rs_status (get_response out) = match out with Full _ => 200 | _ => 206 end.
Proof. by destruct out. Qed.

(** Statuses of the answers to a GET. *)
Lemma wp_get_object key headers s :
  bs_ok s →
  wp (get_object key headers : HM Response) (λ r s', bs_ok s' ∧ vals_same bs_val s s' ∧
    match r with
    | Ok resp =>
        (∃ d out, bs_val s (bkey key) = Some d ∧ resp = get_response out ∧
           answers (headers (str "range") ≫= parse_range) (wants_bao headers) d (bs_val s (ob_key (bkey key))) out)
        ∨ (rs_status resp = 404 ∧ bs_val s (bkey key) = None) ∨ 500 <= rs_status resp <= 503
    | Err e => match e with end
    end) s.
Proof.
  intros Hok. unfold get_object. wp_step. eapply wp_mono; [apply wp_read_object; [done |] |].
  - destruct (headers (str "range")) as [v |]; [| done]. cbn. destruct (parse_range v) eqn:Hp; [| done]. by eapply parse_range_ok.
  - intros r s' (Hok' & Hs & Hr). destruct r as [out | e]; apply wp_ret; (split_and!; [done | done |]).
    + destruct Hr as (d & Hd & Ha). left. by exists d, out.
    + right. destruct (map_err_status e) as [[? ->] | ?]; [by left | by right].
Qed.

(** The store's reads do not fail. *)
Definition reliable : Prop := ∀ s k e, bs_ok s → (bs_get k s).1 = Err e → e = NotFound.

Lemma wp_reliable_get k s :
  reliable → bs_ok s →
  wp (bs_get k) (λ r s', bs_ok s' ∧ vals_same bs_val s s' ∧
    r = match bs_val s k with Some v => Ok v | None => Err NotFound end) s.
Proof.
  intros Hrel Hok. pose proof (bs_get_spec s k (always_ready s Hok)) as Hg. pose proof (Hrel s k) as Hk.
  unfold wp in *. destruct (bs_get k s) as [[v | e] s']; cbn [fst snd] in *; destruct Hg as (? & ? & Hg).
  - by rewrite Hg.
  - rewrite (Hk e) in * by done. by rewrite Hg.
Qed.

(** The outboard of a body is missing, or the one made of it. *)
Definition outboard_of (d : bytes) (ob : option bytes) : Prop := ob = None ∨ (ob = Some (make_outboard d) ∧ bao_law d).

Lemma outboard_slice d o a n : outboard_of d (Some o) → 0 <= a → 0 < n →
  (∀ v, verified_slice d o a n = Ok v → v = range_of d a n) ∧
  (a < blen d → verified_slice d o a n = Ok (range_of d a n)).
Proof.
  intros [? | [[= ->] Hlaw]] Ha Hn; [done |]. destruct (outboard_parts d Hlaw) as (Hlen & Ht & Hdr).
  unfold verified_slice. rewrite bool_decide_eq_false_2, Ht, Hdr by lia. split.
  - intros v. destruct (bao_extract _ _ _ _) as [sl |]; [| done]. destruct (bao_decode _ _ _ _) as [x |] eqn:Hdec; [| done].
    intros [= <-]. by eapply (law_binding _ Hlaw).
  - intros Hlt. by destruct (law_complete _ Hlaw a n Ha Hn Hlt) as (sl & -> & ->).
Qed.

Lemma wp_reliable_range k range d a b s :
  reliable → bs_ok s → bs_val s k = Some d → outboard_of d (bs_val s (ob_key k)) →
  span_of (Some range) false (blen d) = Ok (Some (a, b)) → 0 <= a → a <= b → b < blen d →
  wp (read_object k (Some range) false : BM _) (λ r _, ∃ out, r = Ok out) s.
Proof.
  intros Hrel Hok Hd Hob Hsp H0 Hab Hb. unfold read_object. wp_step. eapply wp_mono; [by apply wp_reliable_get |].
  intros r s1 (Hok1 & Hs1 & ->). rewrite Hd. wp_steps. rewrite Hsp. wp_step. eapply wp_mono; [by apply wp_reliable_get |].
  intros r s2 (_ & _ & ->). rewrite Hs1. destruct (bs_val s (ob_key k)) as [o |]; [| apply wp_ret; by eexists].
  wp_steps. rewrite (proj2 (outboard_slice d o a (b - a + 1) Hob ltac:(lia) ltac:(lia))) by lia. apply wp_ret. by eexists.
Qed.

(** C29. A range request of an object whose outboard is intact or missing
    answers exactly the bytes asked for, and says which they are; or it fails,
    which it does only when there is no byte to answer or a read of the store
    failed. Nothing changes in the store. *)
Theorem range_request_is_exact key headers range d s resp s' :
  bs_ok s → headers (str "range") ≫= parse_range = Some range → wants_bao headers = false →
  bs_val s (bkey key) = Some d → outboard_of d (bs_val s (ob_key (bkey key))) →
  (get_object key headers : HM Response) s = (Ok resp, s') →
  vals_same bs_val s s' ∧ (reliable → asked range d ≠ [] → rs_status resp = 206) ∧
  ((rs_status resp = 206 ∧ rs_body resp = asked range d ∧ asked range d ≠ [] ∧
    ∃ a b, 0 <= a ∧ a <= b ∧ b < blen d ∧ asked range d = range_of d a (b - a + 1) ∧
      (str "content-range", content_range_of a b (blen d)) ∈ rs_headers resp)
   ∨ 500 <= rs_status resp <= 503).
Proof.
  intros Hok Hrange Hwb Hd Hob Hrun. pose proof (wp_run _ _ _ _ _ (wp_get_object key headers s Hok) Hrun) as (_ & Hs & Hr).
  split; [done |]. assert (range_ok range) as Hro.
  { destruct (headers (str "range")) as [v |]; [| done]. by eapply parse_range_ok. }
  pose proof (span_asked range false d Hro) as Hsp. split.
  { intros Hrel Hne. destruct (span_of (Some range) false (blen d)) as [[[a b] |] | e] eqn:Hspan; [| done | by destruct Hsp].
    destruct Hsp as (H1 & H2 & H3 & _). pose proof (wp_reliable_range _ _ _ _ _ _ Hrel Hok Hd Hob Hspan H1 H2 H3) as [out Hout].
    unfold get_object, mcatch in Hrun. rewrite Hrange, Hwb in Hrun. rewrite (run_fst _ _ _ Hout) in Hrun.
    injection Hrun as <- <-. rewrite get_response_status.
    pose proof (wp_run _ _ _ _ _ (wp_read_object (bkey key) (Some range) false s Hok Hro) (run_fst _ _ _ Hout)) as (_ & _ & d' & Hd' & Ha).
    rewrite Hd in Hd'. injection Hd' as <-. destruct out; [| done | done]. destruct Ha as [Ha _]. congruence. }
  rewrite Hrange, Hwb in Hr. destruct Hr as [(d' & out & Hd' & -> & Ha) | [[_ Hn] | Herr]]; [| congruence | by right]. left.
  rewrite Hd in Hd'. injection Hd' as <-.
  destruct out as [data | data cr verified | sl root cr]; cbn [answers get_response] in *.
  - destruct Ha as [Ha _]. by rewrite Ha in Hsp.
  - destruct Ha as (a & b & Ha & _ & -> & Hv). rewrite Ha in Hsp. destruct Hsp as (H1 & H2 & H3 & H4 & H5).
    assert (data = range_of d a (b - a + 1)) as ->.
    { destruct verified; [| by destruct Hv]. destruct Hv as (o & Ho & Hv). rewrite Ho in Hob.
      by apply (outboard_slice d o a (b - a + 1) Hob); [lia | lia |]. }
    cbn. split_and!; [done | by rewrite H4 | done |]. exists a, b. split_and!; try done. right. left.
  - by destruct Ha as (? & ? & ? & ? & _ & ? & _).
Qed.
End Store.

(** * The rate limit in one instant

    Tokens are binary64 numbers, but in one instant they stay integers, which
    are exact: an address gets as many requests through as the configured
    rate, and not one more, whatever other addresses do in between. *)

Section Burst.
Context {IpAddr : Type} `{Countable IpAddr}.
Implicit Types (l : RateLimiter IpAddr) (ip : IpAddr).

Lemma f64_min_num x y : is_num x → is_num y → f64_min x y = if f64_lt y x then y else x.
Proof. by destruct x, y. Qed.

Lemma f64_mul_zero n : 0 <= n < 2 ^ 53 → f64_mul (S754_zero false) (f64_of_Z n) = S754_zero false.
Proof. intros Hn. destruct n as [| p | p]; [done | | lia]. by rewrite f64_of_pos by (apply digits_small; lia). Qed.

Lemma f64_int_add_zero n : 0 <= n < 2 ^ 53 → f64_add (f64_of_Z n) (S754_zero false) = f64_of_Z n.
Proof. intros Hn. destruct n as [| p | p]; [done | | lia]. by rewrite f64_of_pos by (apply digits_small; lia). Qed.

Lemma elapsed_none now : as_secs_f64 (sat_sub now now) = S754_zero false.
Proof. unfold sat_sub. rewrite Z.sub_diag. vm_compute. reflexivity. Qed.

Context (n now : Z) (n_small : 0 <= n < 2 ^ 53).

(** [t] tokens are left to [ip]. *)
Definition left_to ip (t : Z) l : Prop :=
  rl_max_rps l = f64_of_Z n ∧ 0 <= t <= n ∧
  (buckets l !! ip = Some {| tokens := f64_of_Z t; bk_last := now |} ∨ (buckets l !! ip = None ∧ t = n)).

Lemma swept_left ip t l : left_to ip t l →
  (swept l now !! ip = Some {| tokens := f64_of_Z t; bk_last := now |} ∨ (swept l now !! ip = None ∧ t = n)).
Proof.
  intros (_ & _ & Hb). unfold swept. destruct (_ =? 0); [| done]. rewrite map_lookup_filter.
  destruct Hb as [-> | [-> ->]]; [left | by right]. cbn. rewrite option_guard_True; [done |].
  unfold sat_sub. rewrite Z.sub_diag. done.
Qed.

Lemma check_own ip t l : left_to ip t l →
  (check l now ip).1 = (1 <=? t) ∧ left_to ip (if 1 <=? t then t - 1 else t) (check l now ip).2.
Proof.
  intros Hl. pose proof (swept_left _ _ _ Hl) as Hs. destruct Hl as (Hm & Ht & _). unfold check. rewrite Hm.
  assert (default {| tokens := f64_of_Z n; bk_last := now |} (swept l now !! ip) = {| tokens := f64_of_Z t; bk_last := now |}) as ->
    by (destruct Hs as [-> | [-> ->]]; done).
  cbn [tokens bk_last]. rewrite elapsed_none, f64_mul_zero, f64_int_add_zero by lia.
  rewrite f64_min_num by apply f64_of_Z_num. destruct (f64_le_int t n) as [-> _]; [lia | lia |].
  assert (f64_le (f64_of_Z 1) (f64_of_Z t) = (1 <=? t)) as ->.
  { destruct (Z.leb_spec 1 t); [by apply f64_le_int; lia |]. assert (t = 0) as -> by lia. done. }
  cbn [fst snd]. split; [done |]. unfold left_to. cbn [rl_max_rps buckets]. rewrite lookup_insert_eq.
  destruct (Z.leb_spec 1 t); (split_and!; [done | lia | lia |]); left; [| done].
  by rewrite f64_sub_one by lia.
Qed.

Lemma check_other ip ip' t l : ip' ≠ ip → left_to ip t l → left_to ip t (check l now ip').2.
Proof.
  intros Hne Hl. pose proof (swept_left _ _ _ Hl) as Hs. destruct Hl as (Hm & Ht & _).
  unfold check, left_to. cbn [snd rl_max_rps buckets]. by rewrite lookup_insert_ne.
Qed.

(** The answers to a sequence of requests, all at [now]. *)
Fixpoint checks l (ips : list IpAddr) : list (IpAddr * bool) :=
  match ips with
  | [] => []
  | ip :: ips => let '(ok, l) := check l now ip in (ip, ok) :: checks l ips
  end.

Definition granted ip (answers : list (IpAddr * bool)) : Z := Z.of_nat (length (filter (λ a, a = (ip, true)) answers)).
Definition asked_for ip (ips : list IpAddr) : Z := Z.of_nat (length (filter (λ x, x = ip) ips)).

Lemma granted_left ip t l ips : left_to ip t l → granted ip (checks l ips) = Z.min t (asked_for ip ips).
Proof.
  revert t l. induction ips as [| x ips IH]; intros t l Hl; [destruct Hl as (_ & ? & _); unfold granted, asked_for; cbn; lia |].
  cbn [checks]. destruct (check l now x) as [ok l'] eqn:Hc. unfold granted, asked_for. rewrite !filter_cons.
  fold (checks l' ips). destruct (decide (x = ip)) as [-> | Hx].
  - destruct (check_own ip t l Hl) as [Hok Hl']. rewrite Hc in Hok, Hl'. cbn [fst snd] in *. subst ok.
    specialize (IH _ _ Hl'). unfold granted, asked_for in IH. destruct Hl as (_ & Ht & _). destruct (Z.leb_spec 1 t).
    + rewrite decide_True by done. cbn [length]. lia.
    + rewrite decide_False by done. cbn [length]. lia.
  - rewrite decide_False by congruence. pose proof (check_other ip x t l Hx Hl) as Hl'. rewrite Hc in Hl'.
    specialize (IH _ _ Hl'). unfold granted, asked_for in IH. exact IH.
Qed.
End Burst.

(** C35. In one instant an address that has no bucket gets exactly the
    configured number of requests through, and all of them if there are
    fewer, in the code's binary64 arithmetic and whatever requests of other
    addresses come in between. *)
Theorem burst_is_the_rate `{Countable IpAddr} (n now : Z) (l : RateLimiter IpAddr) (ip : IpAddr) ips :
  0 <= n < 2 ^ 32 → rl_max_rps l = f64_of_Z n → buckets l !! ip = None →
  granted ip (checks now l ips) = Z.min n (asked_for ip ips).
Proof.
  intros Hn Hm Hb. assert (0 <= n < 2 ^ 53) as Hn' by lia. apply (granted_left n now Hn'). split_and!; [done | lia | lia |]. by right.
Qed.

Lemma burst_is_the_rate_witness :
  let ips := [1; 2; 1; 1; 2; 1]%nat in
  granted 1%nat (checks 5 (limiter_new 3) ips) = 3 ∧ asked_for 1%nat ips = 4.
Proof.
  split; [| done]. assert (0 <= 3 < 2 ^ 32) as Hn by lia.
  exact (burst_is_the_rate 3 5 (limiter_new 3) 1%nat [1; 2; 1; 1; 2; 1]%nat Hn eq_refl eq_refl).
Defined.
