(* ===== verification/GatewayList.v ===== *)
(** * A client that follows the continuation tokens

    It asks for a page, reads the names and the token out of the XML, and asks
    for the page after the token until none is given. *)

From Stdlib Require Import ZArith Lia Strings.Byte Sorting.Sorted.
From stdpp Require Import base list gmap sorting strings.
From S2P Require Import Prelude Domain Text Paging Verified SigV4 Gateway GatewayFacts.
Open Scope Z_scope.

(** ** Escaping *)

(** A client's reading of escaped text. *)
Fixpoint xml_unescape (s : bytes) : bytes :=
  match s with
  | x26 :: x61 :: x6d :: x70 :: x3b :: s => x26 :: xml_unescape s
  | x26 :: x6c :: x74 :: x3b :: s => x3c :: xml_unescape s
  | x26 :: x67 :: x74 :: x3b :: s => x3e :: xml_unescape s
  | b :: s => b :: xml_unescape s
  | [] => []
  end.

Lemma xml_escape_cons b s : xml_escape (b :: s) = xml_escape [b] ++ xml_escape s.
Proof. unfold xml_escape, replace_byte. change (b :: s) with ([b] ++ s). by rewrite !bind_app. Qed.

Lemma xml_round s : xml_unescape (xml_escape s) = s.
Proof.
  induction s as [| b s IH]; [done |]. rewrite xml_escape_cons.
  transitivity (b :: xml_unescape (xml_escape s)); [| by rewrite IH].
  generalize (xml_escape s). clear. intros r. destruct b; reflexivity.
Qed.

(** ** Names and keys *)

Definition slashed (k : bytes) : Prop := [x2f] `prefix_of` k.

Lemma bkey_slashed k : slashed (bkey k).
Proof. unfold bkey, starts_with. case_bool_decide; [done |]. by exists k. Qed.

Lemma bkey_id k : slashed k → bkey k = k.
Proof. intros Hk. unfold bkey, starts_with. by rewrite bool_decide_eq_true_2. Qed.

(** The name of an object gives its key back, but for a second slash. *)
Lemma bkey_object_name k : slashed k → ¬ [x2f; x2f] `prefix_of` k → utf8 k → bkey (object_name k) = k.
Proof.
  intros Hs Hn Hu. unfold object_name. rewrite Hu. destruct Hs as [r Hr]. subst k. cbn [app strip_prefix].
  rewrite decide_True by done. cbn [default id]. unfold bkey, starts_with. rewrite bool_decide_eq_false_2; [done |].
  intros [r' ->]. apply Hn. by exists r'.
Qed.

(** A key with two slashes is listed under the name of another object. *)
Example double_slash_names_another_object :
  let k := bkey (str "//x") in object_name k = str "/x" ∧ bkey (object_name k) ≠ k.
Proof. vm_compute. done. Qed.

(** ** The walk *)

Section Walk.
Context {B : Type} `{BS : !BlockStore B, BSS : !BlockStoreSpec B}.
Context (always_ready : ∀ s, bs_ok s → bs_ready s).
Local Abbreviation BM := (M B DomainError).
Local Open Scope rust_scope.

(** The query of the first page; later ones add the token. *)
Context (q0 : bytes → option bytes).
Context (first_page : q0 (str "continuation-token") = None ∧ q0 (str "start-after") = None).

Definition with_token (token : option bytes) (name : bytes) : option bytes :=
  if decide (name = str "continuation-token") then token else q0 name.

(** The objects seen; [None] is a walk that has not ended. *)
Fixpoint client_walk (fuel : nat) (token : option bytes) : BM (option (list (bytes * Z))) :=
  match fuel with
  | O => mret None
  | S fuel =>
      let! r := list_query (with_token token) in
      let page := map (λ e, (object_name e.1, e.2)) (lr_items r) in
      match next_token r with
      | None => mret (Some page)
      | Some t =>
          let! rest := client_walk fuel (Some (xml_unescape (xml_escape t))) in
          mret (match rest with Some l => Some (page ++ l) | None => None end)
      end
  end.

Definition walk_prefix : bytes := bkey (default [] (q0 (str "prefix"))).
Context (content : BlockKey → option bytes) (all : list BlockKey).
Context (finite : ∀ k, due walk_prefix (held content) k → k ∈ all).
Context (text : ∀ k, due walk_prefix (held content) k → utf8 k).

Definition object_of (k : BlockKey) : bytes * Z := (object_name k, blen (default [] (content k))).

Lemma page_objects after n page :
  list_page (here content) walk_prefix after n page →
  map (λ e, (object_name e.1, e.2)) page = map object_of page.*1.
Proof.
  intros [_ Hd _ _]. rewrite map_map. apply map_ext_in. intros [k sz] Hin%list_elem_of_In.
  destruct (Hd _ _ Hin) as ((v & Hv & ->) & _). unfold object_of. cbn. by rewrite Hv.
Qed.

Lemma due_key k : due walk_prefix (held content) k → bkey (from_utf8_lossy k) = k.
Proof.
  intros Hk. rewrite (text k Hk). apply bkey_id. destruct Hk as [[r ->] _].
  destruct (bkey_slashed (default [] (q0 (str "prefix")))) as [r' Hr']. exists (r' ++ r). unfold walk_prefix. by rewrite Hr'.
Qed.

Lemma wp_client_walk fuel token after keys s :
  1 <= max_keys_of q0 → bs_ok s → (∀ k, bs_val s k = content k) →
  (bkey <$> token) = after → seen walk_prefix (held content) after keys → (length all < fuel + length keys)%nat →
  wp (client_walk fuel token) (λ r s', vals_same bs_val s s' ∧
    match r with
    | Ok o => ∃ keys', complete walk_prefix (held content) (keys ++ keys') ∧ o = Some (map object_of keys')
    | Err _ => True
    end) s.
Proof.
  intros Hmax. revert token after keys s. induction fuel as [| fuel IH]; intros token after keys s Hok Hv Htok Hsn Hf.
  { pose proof (seen_bounded _ _ all after keys finite Hsn). lia. }
  cbn [client_walk]. unfold list_query. do 2 wp_step.
  assert (max_keys_of (with_token token) = max_keys_of q0) as -> by done.
  assert (with_token token (str "prefix") = q0 (str "prefix")) as -> by done. fold walk_prefix.
  assert (token_of (with_token token) = token) as ->.
  { destruct first_page as [_ Hs]. unfold token_of. destruct token; [done |]. exact Hs. }
  rewrite Htok. set (n := Z.to_nat (max_keys_of q0)). assert (Z.to_nat (max_keys_of q0 + 1) = S n) as -> by (unfold n; lia).
  eapply wp_mono; [apply bs_list_spec; [by apply always_ready | by eapply seen_cursor] |].
  intros r s1 (Hok1 & Hs1 & Hr). destruct r as [items | e]; [| done].
  apply (list_page_ext _ (here content)) in Hr; [| intros k sz; unfold here; by rewrite Hv].
  wp_steps. set (page := take n items). assert (list_page (here content) walk_prefix after n page) as Hpage
    by (apply (list_page_take _ _ _ n (S n)); [lia | done]).
  unfold next_token. cbn [lr_items lr_truncated]. fold page. destruct (Z.ltb_spec (max_keys_of q0) (Z.of_nat (length items))) as [Ht | Ht].
  - destruct (seen_page _ _ (here content) after keys n page (held_here content) Hsn Hpage) as (_ & _ & _ & Hnext).
    assert (length page = n) as Hlen by (unfold page; apply length_take_le; lia).
    destruct (last page) as [[a sz] |] eqn:Hlast.
    2: { apply last_None in Hlast. rewrite Hlast in Hlen. cbn in Hlen. lia. }
    assert (last page.*1 = Some a) as Hla by (by rewrite fmap_last, Hlast).
    cbn [fmap option_fmap option_map fst]. rewrite xml_round. wp_step.
    assert (due walk_prefix (held content) a) as Hdue.
    { destruct (seen_page _ _ (here content) after keys n page (held_here content) Hsn Hpage) as (Hd & _). rewrite Forall_forall in Hd. apply Hd.
      by apply last_Some_elem_of. }
    eapply wp_mono; [apply (IH _ (Some a) (keys ++ page.*1)) |].
    + done.
    + intros k. by rewrite Hs1.
    + cbn. by rewrite due_key.
    + by apply Hnext.
    + rewrite length_app, length_fmap. lia.
    + intros o s2 [Hs2 Ho]. destruct o as [o | e]; [| by split; [intros k; rewrite Hs2 |]].
      destruct Ho as (keys' & Hc & ->). apply wp_ret. split; [intros k; by rewrite Hs2 |].
      exists (page.*1 ++ keys'). rewrite app_assoc. split; [done |]. rewrite map_app. do 2 f_equal. by eapply page_objects.
  - apply wp_ret. split; [done |]. assert (page = items) as Hpi by (unfold page; apply take_ge; lia).
    rewrite Hpi in *. exists items.*1. split; [| f_equal; by eapply page_objects].
    apply (seen_page _ _ (here content) after keys (S n) items (held_here content) Hsn Hr). lia.
Qed.
End Walk.

(** C28. The listing of the gateway is complete: a client that follows the
    continuation tokens, with pages of any positive size, ends after at most
    one page more than there are objects, and has then seen every object under
    the prefix once, in the order of the keys, with its size. *)
Theorem token_walk_sees_every_object `{BS : !BlockStore B, BSS : !BlockStoreSpec B} (s : B) q0 all fuel res s' :
  (∀ s, bs_ok s → bs_ready s) → bs_ok s → 1 <= max_keys_of q0 →
  q0 (str "continuation-token") = None → q0 (str "start-after") = None →
  let prefix := bkey (default [] (q0 (str "prefix"))) in
  (∀ k, prefix `prefix_of` k → is_Some (bs_val s k) → k ∈ all ∧ utf8 k) → (length all < fuel)%nat →
  client_walk q0 fuel None s = (res, s') →
  vals_same bs_val s s' ∧
  match res with
  | Ok o => ∃ keys, StronglySorted bytes_lt keys ∧ (∀ k, k ∈ keys ↔ prefix `prefix_of` k ∧ is_Some (bs_val s k)) ∧
      o = Some (map (object_of (bs_val s)) keys)
  | Err _ => True
  end.
Proof.
  intros Hready Hok Hmax Ht Hsa prefix Hall Hfuel Hrun.
  destruct (wp_run _ _ _ _ _ (wp_client_walk Hready q0 (conj Ht Hsa) (bs_val s) all (λ k Hk, proj1 (Hall k (proj1 Hk) (proj2 Hk)))
    (λ k Hk, proj2 (Hall k (proj1 Hk) (proj2 Hk))) fuel None None [] s Hmax Hok (λ k, eq_refl) eq_refl (seen_start _ _)
    ltac:(cbn; lia)) Hrun) as [Hs Hr].
  split; [done |]. destruct res as [o |]; [| done]. destruct Hr as (keys & [Hsort Hdue] & ->). by exists keys.
Qed.
