(* ===== verification/GatewayService.v ===== *)
(** * The service as a map of objects

    One request through the rate limit, the signature and its handler changes
    the map that the store holds in the way its response says, and a request
    that is turned away changes nothing. *)

From Stdlib Require Import ZArith Lia Strings.Byte.
From stdpp Require Import base list gmap strings.
From S2P Require Import Prelude F64 Domain Text Throttle Verified SigV4 Gateway GatewayFacts.
Open Scope Z_scope.

Section Service.
Context {B : Type} `{BS : !BlockStore B, BSS : !BlockStoreSpec B} `{BO : !Bao} `{DG : !Digests}.
Context {IpAddr : Type} `{Countable IpAddr} `{WF : !Web IpAddr}.
Local Abbreviation HM := (M B Empty_set).
Implicit Types (s : B).

(** What a response says of the map before and after. *)
Definition effect (rq : Request IpAddr) (s : B) (resp : Response) (s' : B) : Prop :=
  match rq_call rq with
  | PutObject key =>
      vals_maybe bs_val s (bkey key) (Some (rq_body rq)) s' ∧
      (rs_status resp = 200 → vals_update bs_val s (bkey key) (Some (rq_body rq)) s')
  | GetObject key =>
      vals_same bs_val s s' ∧ (rs_status resp = 200 → bs_val s (bkey key) = Some (rs_body resp)) ∧
      (rs_status resp = 404 → bs_val s (bkey key) = None)
  | HeadObject key =>
      vals_same bs_val s s' ∧
      (rs_status resp = 200 → ∃ d, bs_val s (bkey key) = Some d ∧ rs_headers resp = [(str "content-length", show (blen d))])
  | DeleteObject key =>
      vals_maybe bs_val s (bkey key) None s' ∧
      (rs_status resp = 204 → vals_update bs_val s (bkey key) None s')
  | ListObjects _ _ => vals_same bs_val s s'
  end.

(** A response that claims nothing, over a store that has not changed. *)
Lemma effect_refused rq s resp s' :
  vals_same bs_val s s' → rs_status resp ≠ 200 → rs_status resp ≠ 204 → rs_status resp ≠ 404 → effect rq s resp s'.
Proof.
  intros Hs H1 H2 H3. unfold effect. destruct (rq_call rq); split_and?; try done; by apply vals_same_maybe.
Qed.

Context (always_ready : ∀ s, bs_ok s → bs_ready s).
Context (takes : ∀ s k d, bs_takes s k d) (drops : ∀ s k, bs_drops s k).
(** A refusal of the framework is no success and no missing object. *)
Context (refusals : ∀ b r, bytes_rejection b = Some r → 405 <= rs_status r).

Lemma map_err_refused e : rs_status (map_err e) ≠ 200 ∧ rs_status (map_err e) ≠ 204.
Proof. destruct (map_err_status e) as [[-> _] |]; lia. Qed.

(** A listing goes on from a key under or after its prefix. *)
Definition listing_ok (rq : Request IpAddr) : Prop :=
  match rq_call rq with
  | ListObjects _ q => match token_of q with Some t => bytes_le (bkey (default [] (q (str "prefix")))) (bkey t) | None => True end
  | _ => True
  end.

Lemma wp_dispatch (rq : Request IpAddr) s :
  bs_ok s → listing_ok rq → wp (dispatch rq : HM Response) (λ r s', bs_ok s' ∧
    match r with Ok resp => effect rq s resp s' | Err e => match e with end end) s.
Proof.
  intros Hok Hlist. pose proof (always_ready s Hok) as Hready. unfold dispatch, effect, listing_ok in *.
  destruct (rq_call rq) as [key | key | key | key | bucket q].
  - destruct (bytes_rejection (rq_body rq)) as [r |] eqn:Hrej.
    + apply wp_ret. split; [done |]. apply refusals in Hrej. split; [by apply vals_same_maybe |]. lia.
    + unfold put_object. wp_step. eapply wp_mono; [by apply bs_put_spec |].
      intros [[] | e] s' [Hok' Hs]; apply wp_ret; (split; [done |]).
      * split; [by apply vals_update_maybe | done].
      * split; [done |]. by destruct (map_err_refused e).
  - eapply wp_mono; [by apply wp_get_object |]. intros [resp | []] s' (Hok' & Hs & Hr). split_and!; [done | done | |].
    + intros H200. destruct Hr as [(d & out & Hd & -> & Ha) | [[? _] | ?]]; [| lia | lia].
      rewrite get_response_status in H200. destruct out; [| done | done]. destruct Ha as [_ ->]. done.
    + intros H404. destruct Hr as [(d & out & Hd & -> & Ha) | [[_ ?] | ?]]; [| done | lia].
      rewrite get_response_status in H404. by destruct out.
  - unfold head_object. wp_step. eapply wp_mono; [by apply bs_stat_spec |].
    intros [len | e] s' (Hok' & Hs & Hr).
    + apply wp_ret. split_and!; [done | done |]. intros _. destruct Hr as (d & Hd & ->). by exists d.
    + assert (wp (match e with NotFound => mret {| rs_status := 404; rs_headers := []; rs_body := [] |}
                  | e => mret (map_err e) end : HM Response)
        (λ r s', bs_ok s' ∧ vals_same bs_val s s' ∧ match r with Ok resp => rs_status resp ≠ 200 | Err e => match e with end end) s')
        as Hw by (destruct e; apply wp_ret; by split_and!).
      destruct e; (eapply wp_mono; [exact Hw |]); intros [resp | []] s'' (? & ? & ?); by split_and!.
  - unfold delete_object. wp_step. eapply wp_mono; [by apply bs_delete_spec |].
    intros [[] | e] s' [Hok' Hs]; apply wp_ret; (split; [done |]).
    + split; [by apply vals_update_maybe | done].
    + split; [done |]. by destruct (map_err_refused e).
  - unfold list_objects, list_query. wp_step. wp_step. eapply wp_mono; [apply bs_list_spec; [done |] |].
    { destruct (token_of q); [exact Hlist | done]. }
    intros [items | e] s' (Hok' & Hs & _); [apply wp_ret |]; by apply wp_ret.
Qed.

(** C26. The gateway is a map of objects. One request, whatever the layers in
    front of the handlers: an acknowledged PUT or DELETE is made and no other
    key is touched, one that fails may have been made and nothing else; GET,
    HEAD and listings change nothing, and what a 200 or a 404 says of an
    object is so. With signatures on, a request whose signature does not
    verify is answered 403 or 429 and the store is left as it was, as by any
    request over the rate limit. *)
Theorem served_request_is_a_map_operation now now_ns rq (gw : gateway B IpAddr) resp gw' :
  bs_ok (gw_store gw) → listing_ok rq →
  serve now now_ns rq gw = (resp, gw') →
  bs_ok (gw_store gw') ∧ effect rq (gw_store gw) resp (gw_store gw') ∧
  ((rate_limit_mw (gw_limiter gw) now_ns rq).1 = false → gw_store gw' = gw_store gw ∧ rs_status resp = 429) ∧
  (∀ cfg, gw_auth gw = Some cfg →
     verify cfg now (rq_method rq) (rq_path rq) (rq_query rq) (rq_headers rq) (hex (sha256 (rq_body rq))) ≠ Ok tt →
     gw_store gw' = gw_store gw ∧ (rs_status resp = 403 ∨ rs_status resp = 429)).
Proof.
  intros Hok Hlist Hrun. unfold serve in Hrun. destruct (rate_limit_mw _ _ _) as [pass limiter]. destruct pass.
  2: { injection Hrun as <- <-. cbn [gw_store]. split_and!; [done | by apply effect_refused | done |].
       intros _ _ _. split; [done | by right]. }
  assert (∀ r s', dispatch rq (gw_store gw) = (r, s') → bs_ok s' ∧
    match r with Ok resp => effect rq (gw_store gw) resp s' | Err e => match e with end end) as Hd.
  { intros r s'. by apply (wp_run _ _ _ _ _ (wp_dispatch rq (gw_store gw) Hok Hlist)). }
  destruct (gw_auth gw) as [cfg |].
  2: { destruct (dispatch rq (gw_store gw)) as [[r | []] s']. injection Hrun as <- <-.
       destruct (Hd _ _ eq_refl). by split_and!. }
  unfold sigv4_mw in Hrun. destruct (MAX_BODY <? _).
  { injection Hrun as <- <-. cbn [gw_store]. split_and!; [done | by apply effect_refused | done |].
    intros _ _ _. split; [done | by left]. }
  destruct (verify cfg now _ _ _ _ _) as [[] | e] eqn:Hver.
  - destruct (dispatch rq (gw_store gw)) as [[r | []] s']. injection Hrun as <- <-.
    destruct (Hd _ _ eq_refl). split_and!; [done | done | done |]. intros cfg' [= <-]. by rewrite Hver.
  - injection Hrun as <- <-. cbn [gw_store]. split_and!; [done | by apply effect_refused | done |].
    intros _ _ _. split; [done | by left].
Qed.
End Service.
