(* ===== verification/GatewayDemo.v ===== *)
(** * Runs of the gateway

    A map in memory behind the service, requests signed with a stand-in for
    SHA-256 and HMAC that confuses no texts, and the cases in which the
    gateway's answers are not what a client of S3 would expect. *)

From Stdlib Require Import ZArith Lia Strings.Byte Sorting.Sorted.
From stdpp Require Import base list gmap sorting strings.
From S2P Require Import Prelude F64 Text Domain Paging Piece Latency DiskSlow Erasure Verified Metrics Throttle HealQueue PoolState Pool Store SigV4 Gateway GatewayFacts GatewayList GatewayService.
Open Scope Z_scope.

(** The digest is the text, the code is the key and the text. *)
#[global] Instance plain_digests : Digests := {| sha256 b := b; hmac k b := k ++ b |}.

Lemma plain_never_confused d d' b b' : ¬ confused d d' b b'.
Proof. intros [[Hne H] | [[Hne H] | [Hne H]]]; [by apply app_inv_head in H | done ..]. Qed.

#[global] Instance demo_web : Web nat := {|
  bytes_rejection b := if 2 * 1024 * 1024 <? blen b
    then Some {| rs_status := 413; rs_headers := []; rs_body := str "length limit exceeded" |} else None;
  limit_error := str "length limit exceeded";
  parse_ip _ := None;
  localhost := 0%nat;
|}.

Definition demo_cfg : SigV4Config := SigV4Config_new (str "AK") (str "secret").
Definition demo_date : bytes := str "20240301T120000Z".
Definition demo_now : Z := 1709294400.

(** ** Signatures *)

Definition demo_headers : HeaderMap := λ name,
  if decide (to_ascii_lowercase name = str "host") then Some (str "ozd:9100")
  else if decide (to_ascii_lowercase name = str "x-amz-date") then Some demo_date else None.

Lemma demo_time : parse_amz_date demo_date = Some demo_now.
Proof. vm_compute. reflexivity. Qed.

Lemma amz_date_is_calendar_time_witness :
  parse_amz_date (amz_text 2024 2 29 23 59 59) = Some (calendar_days 2024 2 29 * 86400 + 23 * 3600 + 59 * 60 + 59) ∧
  calendar_days 2024 2 29 * 86400 + 23 * 3600 + 59 * 60 + 59 + 1 + 12 * 3600 = demo_now.
Proof.
  split; [| vm_compute; reflexivity].
  apply (amz_date_is_calendar_time 2024 2 29 23 59 59); lia.
Defined.

Ltac plain_text := unfold plain; repeat constructor; vm_compute; congruence.

Definition demo_names : list bytes := [str "host"; str "X-Amz-Date"].
Definition demo_region : bytes := str "us-east-1".

Lemma demo_signable body : signable demo_cfg demo_now demo_headers body demo_names demo_date demo_region.
Proof.
  split.
  - done.
  - repeat constructor; vm_compute; congruence.
  - apply (bool_decide_unpack _). vm_compute. exact I.
  - apply Forall_forall. repeat constructor; (eexists; split_and!; [reflexivity | reflexivity | vm_compute; reflexivity]).
  - reflexivity.
  - plain_text.
  - plain_text.
  - plain_text.
  - intros _. exists demo_now. split; [apply demo_time | vm_compute; congruence].
  - by left.
Qed.

Definition demo_query : bytes := str "prefix=a&max-keys=2".
Definition demo_auth (query : bytes) : bytes :=
  sign_for_test demo_cfg (str "GET") (str "/bucket") query demo_headers demo_names demo_date demo_region.

Lemma signed_request_is_accepted_witness :
  verify demo_cfg demo_now (str "GET") (str "/bucket") demo_query (with_auth demo_headers (demo_auth demo_query)) (str "e3b0") = Ok tt.
Proof. exact (signed_request_is_accepted demo_cfg demo_now demo_headers (str "e3b0") _ _ _ _ _ _ (demo_signable (str "e3b0"))). Defined.

(** The same pairs in another order are the same request. *)
Definition swapped_query : bytes := str "max-keys=2&prefix=a".

Definition verified (query body : bytes) : result bytes unit :=
  verify demo_cfg demo_now (str "GET") (str "/bucket") query (with_auth demo_headers (demo_auth demo_query)) (hex (sha256 body)).

Lemma demo_lines n v : with_auth demo_headers (demo_auth demo_query) n = Some v → x0a ∉ v.
Proof.
  unfold with_auth, demo_headers. repeat case_decide; intros [= <-]; apply (bool_decide_unpack _); vm_compute; exact I.
Qed.

Lemma one_signature_one_request_witness :
  verified demo_query [] = Ok tt ∧ verified swapped_query [] = Ok tt ∧ raw_pairs demo_query ≡ₚ raw_pairs swapped_query.
Proof.
  assert (verified demo_query [] = Ok tt) as H1 by (vm_compute; reflexivity).
  assert (verified swapped_query [] = Ok tt) as H2 by (vm_compute; reflexivity).
  split_and!; [exact H1 | exact H2 |].
  assert ((x0a ∉ str "GET") ∧ (x0a ∉ str "/bucket") ∧ (x0a ∉ demo_query) ∧ (x0a ∉ swapped_query)) as (N1 & N2 & N3 & N4)
    by (apply (bool_decide_unpack _); vm_compute; exact I).
  destruct (one_signature_one_request demo_cfg demo_now demo_now _ _ _ _ _ _ _ _ _ _ H1 H2 eq_refl demo_lines demo_lines
    N1 N1 N2 N2 N3 N4) as [(d & d' & _ & _ & Hc) | (_ & _ & Hp & _)]; [destruct (plain_never_confused _ _ _ _ Hc) | exact Hp].
Defined.

(** The signer keeps runs of spaces inside a value that the check collapses:
    such a request is not accepted, though it is signed as it is sent. *)
Example spaces_break_the_round_trip :
  let headers : HeaderMap := λ name, if decide (name = str "host") then Some (str "a  b")
    else if decide (name = str "x-amz-date") then Some demo_date else None in
  let names := [str "host"; str "x-amz-date"] in
  verify demo_cfg demo_now (str "GET") (str "/b") []
    (with_auth headers (sign_for_test demo_cfg (str "GET") (str "/b") [] headers names demo_date demo_region)) []
  = Err (str "signature mismatch").
Proof. vm_compute. reflexivity. Qed.

(** ** Ranges *)

Definition hello_key : bytes := str "blocks/HELLO".
Definition hello_store : mem :=
  <[ob_key (bkey hello_key) := make_outboard short_body]> {[bkey hello_key := short_body]}.
Definition range_header (v : bytes) : HeaderMap := λ name, if decide (name = str "range") then Some v else None.

Definition hello_get (range : bytes) : result Empty_set Response * mem :=
  get_object hello_key (range_header range) hello_store.

Lemma range_request_is_exact_witness :
  match (hello_get (str "bytes=1-3")).1 with
  | Ok resp => rs_status resp = 206 ∧ rs_body resp = str "ell"
  | Err e => match e with end
  end.
Proof.
  destruct (hello_get (str "bytes=1-3")) as [[resp | []] s'] eqn:Hrun. cbn [fst].
  assert (bs_val hello_store (bkey hello_key) = Some short_body) as Hv by (vm_compute; reflexivity).
  assert (bs_val hello_store (ob_key (bkey hello_key)) = Some (make_outboard short_body)) as Ho by (vm_compute; reflexivity).
  assert (asked (RangeFrom 1 (Some 3)) short_body = str "ell") as Ha by (vm_compute; reflexivity).
  destruct (range_request_is_exact mem_ready hello_key (range_header (str "bytes=1-3")) (RangeFrom 1 (Some 3)) short_body
    hello_store resp s' (mem_ok _) eq_refl eq_refl Hv (or_intror (conj Ho pad_bao_law)) Hrun)
    as (_ & _ & [(H206 & Hbody & _) | Herr]).
  - split; [exact H206 | by rewrite Hbody].
  - exfalso. assert (match (hello_get (str "bytes=1-3")).1 with Ok r => rs_status r | Err _ => 0 end = 206) as H206
      by (vm_compute; reflexivity).
    rewrite Hrun in H206. cbn [fst] in H206. lia.
Defined.

(** A range behind the end of the object is answered 500, not 416. *)
Example range_behind_the_end :
  match (hello_get (str "bytes=5-")).1 with Ok resp => rs_status resp = 500 | Err _ => False end.
Proof. vm_compute. reflexivity. Qed.

(** ** Listing *)

Definition three : mem := <[str "/a" := [x01]]> (<[str "/b" := []]> {[str "/c&d" := [x01; x02]]}).
Definition list_q (n : bytes) : bytes → option bytes := λ name, if decide (name = str "max-keys") then Some n else None.

Lemma three_keys k : [x2f] `prefix_of` k → is_Some (bs_val three k) → k ∈ [str "/a"; str "/b"; str "/c&d"] ∧ utf8 k.
Proof.
  intros _ [v Hv]. change (three !! k = Some v) in Hv. unfold three in Hv.
  apply lookup_insert_Some in Hv as [[<- _] | [_ Hv]]; [split; [left | vm_compute; reflexivity] |].
  apply lookup_insert_Some in Hv as [[<- _] | [_ Hv]]; [split; [right; left | vm_compute; reflexivity] |].
  apply lookup_singleton_Some in Hv as [<- _]. split; [do 2 right; left | vm_compute; reflexivity].
Qed.

Definition three_objects : list (bytes * Z) := [(str "a", 1); (str "b", 0); (str "c&d", 2)].

Lemma demo_walk : client_walk (list_q (str "2")) 4 None three = (Ok (Some three_objects), (client_walk (list_q (str "2")) 4 None three).2).
Proof. apply run_fst. vm_compute. reflexivity. Qed.

Lemma token_walk_sees_every_object_witness :
  ∃ keys, StronglySorted bytes_lt keys ∧ three_objects = map (object_of (bs_val three)) keys.
Proof.
  assert (1 <= max_keys_of (list_q (str "2"))) as Hmax by (vm_compute; congruence).
  assert ((length [str "/a"; str "/b"; str "/c&d"] < 4)%nat) as Hfuel by (cbn; lia).
  destruct (token_walk_sees_every_object three (list_q (str "2")) _ 4 _ _ mem_ready (mem_ok _) Hmax eq_refl eq_refl
    three_keys Hfuel demo_walk) as (_ & keys & Hs & _ & Ho).
  exists keys. split; [exact Hs |]. by injection Ho.
Defined.

(** Zero keys per page: the page is truncated and has no token to go on with. *)
Example max_keys_zero_has_no_token :
  match (list_query (list_q (str "0")) three).1 with
  | Ok r => lr_truncated r = true ∧ next_token r = None
  | Err _ => False
  end.
Proof. vm_compute. done. Qed.

(** ** The service *)

Definition put_request (query : bytes) : Request nat := {|
  rq_call := PutObject (str "blocks/X"); rq_method := str "GET"; rq_path := str "/bucket"; rq_query := query;
  rq_headers := with_auth demo_headers (demo_auth demo_query); rq_body := str "body"; rq_peer := Some 7%nat |}.
Definition demo_gateway : gateway mem nat :=
  {| gw_store := three; gw_auth := Some demo_cfg; gw_limiter := Some (limiter_new 5) |}.

Lemma demo_refusals b r : bytes_rejection b = Some r → 405 <= rs_status r.
Proof. cbn. destruct (_ <? _); [| done]. intros [= <-]. cbn. lia. Qed.

Definition demo_serve (query : bytes) : Response * gateway mem nat := serve demo_now 1000 (put_request query) demo_gateway.

Lemma served_request_is_a_map_operation_witness :
  rs_status (demo_serve demo_query).1 = 200 ∧
  (gw_store (demo_serve demo_query).2 : mem) !! str "/blocks/X" = Some (str "body") ∧
  rs_status (demo_serve (str "prefix=b")).1 = 403 ∧ gw_store (demo_serve (str "prefix=b")).2 = three.
Proof.
  assert (∀ q, demo_serve q = ((demo_serve q).1, (demo_serve q).2)) as Hpair by (intros; apply surjective_pairing).
  assert (rs_status (demo_serve demo_query).1 = 200) as H200 by (vm_compute; reflexivity).
  split; [exact H200 |].
  pose proof (served_request_is_a_map_operation mem_ready mem_takes mem_drops demo_refusals
    demo_now 1000 (put_request demo_query) demo_gateway _ _ (mem_ok _) I (Hpair demo_query)) as (_ & [_ Heff] & _).
  pose proof (served_request_is_a_map_operation mem_ready mem_takes mem_drops demo_refusals
    demo_now 1000 (put_request (str "prefix=b")) demo_gateway _ _ (mem_ok _) I (Hpair (str "prefix=b"))) as (_ & _ & _ & Hno).
  split; [exact (Heff H200 (str "/blocks/X")) |].
  assert (verify demo_cfg demo_now (str "GET") (str "/bucket") (str "prefix=b")
    (with_auth demo_headers (demo_auth demo_query)) (hex (sha256 (str "body"))) ≠ Ok tt) as Hbad by (vm_compute; congruence).
  destruct (Hno demo_cfg eq_refl Hbad) as [Hsame Hst]. split; [vm_compute; reflexivity | exact Hsame].
Defined.
