(* ===== verification/Zfs.v ===== *)
(** * What ZFS prints (crates/ozd-zfs/src/parser.rs, properties.rs)

    The parsers of [zpool status -p] and of [zfs get -Hp], and the audit of a
    dataset's tuning. The output is text of one byte per character.

    Second part: One ZFS pool (crates/ozd-zfs/src/lib.rs, runner.rs). *)

From Stdlib Require Import ZArith Lia SpecFloat Strings.Byte.
From stdpp Require Import base list gmap strings pretty.
From S2P Require Import Prelude F64 Text Domain.
Open Scope Z_scope.

(** ** Numbers *)

Fixpoint take_digits (s : bytes) : bytes * bytes :=
  match s with
  | b :: r => match digit 10 b with Some _ => let '(d, r) := take_digits r in (b :: d, r) | None => ([], s) end
  | [] => ([], [])
  end.

(** [str::parse::<f64>]: a sign; "inf", "infinity" or "nan" in any case, or
    digits with a point and an exponent. *)
Definition parse_exponent (s : bytes) : option Z :=
  match s with
  | [] => Some 0
  | b :: r =>
      if bool_decide (b = x65 ∨ b = x45) then
        let '(neg, r) := match r with x2b :: r => (false, r) | x2d :: r => (true, r) | r => (false, r) end in
        if bool_decide (r = []) then None
        else match digits 10 0 r with Some x => Some (if neg : bool then - x else x) | None => None end
      else None
  end.

Definition parse_f64 (s : bytes) : option f64 :=
  let '(neg, r) := match s with x2b :: r => (false, r) | x2d :: r => (true, r) | r => (false, r) end in
  let low := to_ascii_lowercase r in
  if bool_decide (low = str "inf" ∨ low = str "infinity") then Some (S754_infinity neg)
  else if bool_decide (low = str "nan") then Some S754_nan
  else
    let '(whole, r) := take_digits r in
    let '(frac, r) := match r with x2e :: r => take_digits r | r => ([], r) end in
    if bool_decide (whole = []) && bool_decide (frac = []) then None
    else
      d ← digits 10 0 (whole ++ frac); x ← parse_exponent r;
      Some (f64_decimal neg d (x - Z.of_nat (length frac))).

Example parse_f64_examples :
  parse_f64 (str "20.00") = Some (f64_of_Z 20) ∧ parse_f64 (str "-.5e1") = Some (f64_opp (f64_of_Z 5)) ∧
  parse_f64 (str ".") = None ∧ parse_f64 (str "1.5.") = None.
Proof. vm_compute. done. Qed.

(** ** parser.rs *)

Inductive PoolState := ZOnline | ZDegraded | ZFaulted | ZOffline | ZUnavail | ZRemoved | ZUnknown.
#[global] Instance PoolState_eq_dec : EqDecision PoolState.
Proof. solve_decision. Defined.

Definition state_parse (s : bytes) : PoolState :=
  if bool_decide (s = str "ONLINE") then ZOnline
  else if bool_decide (s = str "DEGRADED") then ZDegraded
  else if bool_decide (s = str "FAULTED") then ZFaulted
  else if bool_decide (s = str "OFFLINE") then ZOffline
  else if bool_decide (s = str "UNAVAIL") then ZUnavail
  else if bool_decide (s = str "REMOVED") then ZRemoved
  else ZUnknown.

Definition state_str (s : PoolState) : bytes :=
  match s with
  | ZOnline => str "ONLINE" | ZDegraded => str "DEGRADED" | ZFaulted => str "FAULTED" | ZOffline => str "OFFLINE"
  | ZUnavail => str "UNAVAIL" | ZRemoved => str "REMOVED" | ZUnknown => str "UNKNOWN"
  end.

Record DeviceStatus := {
  ds_name : bytes;
  ds_state : PoolState;
  read_errors : Z;
  write_errors : Z;
  cksum_errors : Z;
}.

Record ScrubInfo := {
  scrub_in_progress : bool;
  percent_done : option f64;
  scrub_raw : bytes;
}.
Definition ScrubInfo_default : ScrubInfo := {| scrub_in_progress := false; percent_done := None; scrub_raw := [] |}.

Record PoolHealth := {
  ph_pool : bytes;
  ph_state : PoolState;
  ph_devices : list DeviceStatus;
  ph_scrub : ScrubInfo;
}.

(** Sums in [u64]. *)
Definition total_errors (h : PoolHealth) : Z * Z * Z :=
  foldl (λ acc d, (wrap 64 (acc.1.1 + read_errors d), wrap 64 (acc.1.2 + write_errors d), wrap 64 (acc.2 + cksum_errors d)))
    (0, 0, 0) (ph_devices h).

Definition pool_is_healthy (h : PoolHealth) : bool :=
  bool_decide (ph_state h = ZOnline) &&
  forallb (λ d, bool_decide (ds_state d = ZOnline) && (read_errors d =? 0) && (write_errors d =? 0) && (cksum_errors d =? 0))
    (ph_devices h).

(** The local variables of the parser. *)
Record status_parser := {
  sp_pool : bytes;
  sp_state : PoolState;
  sp_scrub : ScrubInfo;
  sp_devices : list DeviceStatus;
  sp_in_config : bool;
  sp_in_scan : bool;
}.
Definition status_start : status_parser :=
  {| sp_pool := []; sp_state := ZUnknown; sp_scrub := ScrubInfo_default; sp_devices := [];
     sp_in_config := false; sp_in_scan := false |}.

(** A further line of a scan in progress. *)
Definition scan_line (t : bytes) (s : ScrubInfo) : ScrubInfo :=
  {| scrub_in_progress := scrub_in_progress s;
     percent_done :=
       match list_find (λ w, ends_with x25 w = true) (split_whitespace t) with
       | Some (_, p) =>
           match parse_f64 (trim_end_matches [x2c] (trim_end_matches [x25] p)) with
           | Some f => Some f
           | None => percent_done s
           end
       | None => percent_done s
       end;
     scrub_raw := scrub_raw s ++ x20 :: t |}.

(** A line of the table: name, state, three counters. *)
Definition device_line (t : bytes) : option DeviceStatus :=
  match split_whitespace t with
  | name :: st :: r :: w :: c :: _ =>
      let state := state_parse st in
      if bool_decide (state = ZUnknown) && negb (bool_decide (st = str "UNKNOWN")) then None
      else
        let p s := default 0 (parse_u64 s) in
        Some {| ds_name := name; ds_state := state; read_errors := p r; write_errors := p w; cksum_errors := p c |}
  | _ => None
  end.

(** From [config:] on. *)
Definition config_line (t : bytes) (sp : status_parser) : status_parser :=
  if starts_with (str "config:") t then
    {| sp_pool := sp_pool sp; sp_state := sp_state sp; sp_scrub := sp_scrub sp; sp_devices := sp_devices sp;
       sp_in_config := true; sp_in_scan := false |}
  else if starts_with (str "errors:") t then
    {| sp_pool := sp_pool sp; sp_state := sp_state sp; sp_scrub := sp_scrub sp; sp_devices := sp_devices sp;
       sp_in_config := false; sp_in_scan := sp_in_scan sp |}
  else if sp_in_config sp then
    if bool_decide (t = []) || starts_with (str "NAME") t then sp
    else match device_line t with
         | Some d => {| sp_pool := sp_pool sp; sp_state := sp_state sp; sp_scrub := sp_scrub sp;
                        sp_devices := sp_devices sp ++ [d]; sp_in_config := true; sp_in_scan := sp_in_scan sp |}
         | None => sp
         end
  else sp.

(** One line of the output. *)
Definition status_line (sp : status_parser) (line : bytes) : status_parser :=
  let t := trim line in
  match strip_prefix (str "pool:") t with
  | Some v => {| sp_pool := trim v; sp_state := sp_state sp; sp_scrub := sp_scrub sp; sp_devices := sp_devices sp;
                 sp_in_config := sp_in_config sp; sp_in_scan := sp_in_scan sp |}
  | None =>
  match strip_prefix (str "state:") t with
  | Some v => {| sp_pool := sp_pool sp; sp_state := state_parse (trim v); sp_scrub := sp_scrub sp; sp_devices := sp_devices sp;
                 sp_in_config := sp_in_config sp; sp_in_scan := sp_in_scan sp |}
  | None =>
  match strip_prefix (str "scan:") t with
  | Some v =>
      {| sp_pool := sp_pool sp; sp_state := sp_state sp;
         sp_scrub := {| scrub_in_progress := scrub_in_progress (sp_scrub sp) || contains (str "scrub in progress") v;
                        percent_done := percent_done (sp_scrub sp); scrub_raw := trim v |};
         sp_devices := sp_devices sp; sp_in_config := sp_in_config sp; sp_in_scan := true |}
  | None =>
      if sp_in_scan sp && negb (sp_in_config sp) && negb (starts_with (str "config:") t) && negb (bool_decide (t = [])) then
        {| sp_pool := sp_pool sp; sp_state := sp_state sp; sp_scrub := scan_line t (sp_scrub sp); sp_devices := sp_devices sp;
           sp_in_config := sp_in_config sp; sp_in_scan := sp_in_scan sp |}
      else config_line t sp
  end end end.

Definition parse_zpool_status (output : bytes) : option PoolHealth :=
  let sp := foldl status_line status_start (lines output) in
  if bool_decide (sp_pool sp = []) && bool_decide (sp_devices sp = []) then None
  else Some {| ph_pool := sp_pool sp; ph_state := sp_state sp; ph_devices := sp_devices sp; ph_scrub := sp_scrub sp |}.

Definition capacity_line (acc : option Z * option Z) (line : bytes) : option Z * option Z :=
  match split_whitespace line with
  | k :: v :: _ =>
      if bool_decide (k = str "used") then (parse_u64 v, acc.2)
      else if bool_decide (k = str "available") then (acc.1, parse_u64 v)
      else acc
  | _ => acc
  end.
Definition parse_zfs_capacity (output : bytes) : option (Z * Z) :=
  match foldl capacity_line (None, None) (lines output) with
  | (Some used, Some avail) => Some (used, avail)
  | _ => None
  end.

(** ** properties.rs *)

Inductive PropertySource :=
| SrcLocal
| SrcDefault
| SrcInherited (from : bytes)
| SrcNone
| SrcOther (s : bytes).
#[global] Instance PropertySource_eq_dec : EqDecision PropertySource.
Proof. solve_decision. Defined.

Definition source_parse (s : bytes) : PropertySource :=
  if bool_decide (s = str "local") then SrcLocal
  else if bool_decide (s = str "default") then SrcDefault
  else if bool_decide (s = str "-") then SrcNone
  else match strip_prefix (str "inherited from ") s with
       | Some from => SrcInherited from
       | None => SrcOther s
       end.

Record Property := { pr_value : bytes; pr_source : PropertySource }.
Abbreviation Properties := (gmap bytes Property).

Definition property_line (m : Properties) (line : bytes) : Properties :=
  match split x09 line with
  | name :: value :: source :: _ => <[name := {| pr_value := value; pr_source := source_parse source |}]> m
  | _ => m
  end.
Definition properties_parse (output : bytes) : Properties := foldl property_line ∅ (lines output).

Definition prop_string (m : Properties) (prop : bytes) : option bytes :=
  match m !! prop with
  | Some p => if bool_decide (pr_value p = str "-") then None else Some (pr_value p)
  | None => None
  end.

(** The suffixes are powers of 1024. *)
Definition size_mult (suffix : bytes) : option Z :=
  if bool_decide (suffix = []) then Some 1
  else if bool_decide (suffix = str "K" ∨ suffix = str "k") then Some (2 ^ 10)
  else if bool_decide (suffix = str "M" ∨ suffix = str "m") then Some (2 ^ 20)
  else if bool_decide (suffix = str "G" ∨ suffix = str "g") then Some (2 ^ 30)
  else if bool_decide (suffix = str "T" ∨ suffix = str "t") then Some (2 ^ 40)
  else if bool_decide (suffix = str "P" ∨ suffix = str "p") then Some (2 ^ 50)
  else None.

Fixpoint take_number (s : bytes) : bytes * bytes :=
  match s with
  | b :: r =>
      if bool_decide (is_Some (digit 10 b)) || bool_decide (b = x2e)
      then let '(d, r) := take_number r in (b :: d, r) else ([], s)
  | [] => ([], [])
  end.

Definition parse_size (s : bytes) : option Z :=
  let s := trim s in
  match parse_u64 s with
  | Some v => Some v
  | None =>
      let '(number, rest) := take_number s in
      mult ← size_mult (trim_end_matches (str "Bbi") (trim rest));
      num ← parse_f64 number;
      Some (f64_to_u64 (f64_mul num (f64_of_Z mult)))
  end.

Definition prop_bytes (m : Properties) (prop : bytes) : option Z := prop_string m prop ≫= parse_size.
Definition prop_percent (m : Properties) (prop : bytes) : option Z :=
  s ← prop_string m prop; parse_u64 (trim_end_matches [x25] s).
Definition prop_ratio (m : Properties) (prop : bytes) : option f64 :=
  s ← prop_string m prop; parse_f64 (trim_end_matches [x78] s).
Definition prop_bool (m : Properties) (prop : bytes) : option bool :=
  s ← prop_string m prop; Some (bool_decide (s = str "on" ∨ s = str "enabled" ∨ s = str "yes")).
Definition prop_source (m : Properties) (prop : bytes) : option PropertySource := pr_source <$> m !! prop.

Definition EXPECTED_TUNING : list (bytes * bytes) :=
  [(str "recordsize", str "1048576"); (str "compression", str "lz4"); (str "atime", str "off")].

Record DriftIssue := {
  di_property : bytes;
  di_expected : bytes;
  di_actual : bytes;
  di_source : PropertySource;
}.

Definition drift_of (props : Properties) (e : bytes * bytes) : option DriftIssue :=
  let '(name, want) := e in
  let actual := default (str "<absent>") (prop_string props name) in
  let source := default (SrcOther (str "absent")) (prop_source props name) in
  if negb (bool_decide (actual = want)) || negb (bool_decide (source = SrcLocal))
  then Some {| di_property := name; di_expected := want; di_actual := actual; di_source := source |} else None.
Definition audit_drift (props : Properties) (expected : list (bytes * bytes)) : list DriftIssue :=
  omap (drift_of props) expected.

(** * One ZFS pool (crates/ozd-zfs/src/lib.rs, runner.rs)

    The commands that the adapter runs, the taxonomy of their errors, the check
    of a disk's identity, and the reading of a pool's health as a shard's
    status. What runs the commands is an interface; the source's test double,
    a queue of prepared answers, is an instance. *)

(** ** Running commands *)

Record CmdOutput := {
  co_stdout : bytes;
  co_stderr : bytes;
  co_success : bool;
}.

(** [trait Runner]; an [io::Error] is its text. *)
Class Runner (R : Type) := {
  runner_run : bytes → list bytes → M R bytes CmdOutput;
}.

(** [SudoRunner] over the local runner. *)
Definition sudo_runner {R} (local : Runner R) : Runner R := {|
  runner_run program args := @runner_run _ local (str "sudo") (str "-n" :: program :: args);
|}.

Record FakeRunner := { fr_responses : list CmdOutput; fr_calls : list bytes }.
Definition fake_ok (stdout : bytes) : CmdOutput := {| co_stdout := stdout; co_stderr := []; co_success := true |}.
Definition fake_fail (stderr : bytes) : CmdOutput := {| co_stdout := []; co_stderr := stderr; co_success := false |}.
#[global] Instance fake_runner : Runner FakeRunner := {|
  runner_run program args := λ fr,
    let calls := fr_calls fr ++ [program ++ x20 :: join [x20] args] in
    match fr_responses fr with
    | out :: rest => (Ok out, {| fr_responses := rest; fr_calls := calls |})
    | [] => (Err (str "FakeRunner: no more queued responses"), {| fr_responses := []; fr_calls := calls |})
    end;
|}.

(** ** Errors *)

Inductive ZfsError :=
| ZfsNotFound (m : bytes)
| CommandFailed (m : bytes)
| ParseFailed
| ZfsIo (m : bytes).

Definition zfs_error_to_string (e : ZfsError) : bytes :=
  match e with
  | ZfsNotFound m => str "zfs: not found: " ++ m
  | CommandFailed m => str "zfs command failed: " ++ m
  | ParseFailed => str "failed to parse zfs output"
  | ZfsIo m => str "zfs io: " ++ m
  end.

Definition clean_up_stderr (stderr : bytes) : bytes :=
  let cut := default stderr (find_cut (x0a :: str "usage:") stderr) in
  join (str ": ") (filter (λ l, l ≠ []) (map trim (lines cut))).

Definition NOT_FOUND_PATTERNS : list bytes :=
  [str "dataset does not exist"; str "parent does not exist"; str "no such pool"].

Record PoolMetrics := {
  pm_size : Z;
  pm_allocated : Z;
  pm_free : Z;
  pm_freeing : Z;
  pm_leaked : Z;
  fragmentation_pct : Z;
}.
Definition PoolMetrics_default : PoolMetrics :=
  {| pm_size := 0; pm_allocated := 0; pm_free := 0; pm_freeing := 0; pm_leaked := 0; fragmentation_pct := 0 |}.
Definition effective_free (m : PoolMetrics) : Z := wrap 64 (pm_free m + pm_freeing m).

Inductive IdentityCheck :=
| Initialized
| IdVerified
| Mismatch (found expected : bytes).

(** ** The commands of one pool *)

Record ZfsPool := { zp_pool : bytes; zp_dataset : bytes }.

Definition metric_line (m : PoolMetrics) (line : bytes) : PoolMetrics :=
  match split_whitespace line with
  | k :: v :: _ =>
      let num s := default 0 (parse_size (trim_end_matches [x25] s)) in
      let '(Build_PoolMetrics size allocated free freeing leaked frag) := m in
      if bool_decide (k = str "size") then Build_PoolMetrics (num v) allocated free freeing leaked frag
      else if bool_decide (k = str "allocated") then Build_PoolMetrics size (num v) free freeing leaked frag
      else if bool_decide (k = str "free") then Build_PoolMetrics size allocated (num v) freeing leaked frag
      else if bool_decide (k = str "freeing") then Build_PoolMetrics size allocated free (num v) leaked frag
      else if bool_decide (k = str "leaked") then Build_PoolMetrics size allocated free freeing (num v) frag
      else if bool_decide (k = str "fragmentation") then Build_PoolMetrics size allocated free freeing leaked (num v)
      else m
  | _ => m
  end.

Section Commands.
Context {R : Type} `{RN : !Runner R} (zp : ZfsPool).
Local Open Scope rust_scope.
Local Abbreviation ZM := (M R ZfsError).

Definition zfs_run (program : bytes) (args : list bytes) : ZM bytes :=
  let! out := mmap_err (λ e, ZfsIo (program ++ str ": " ++ e)) (runner_run program args) in
  if co_success out then mret (co_stdout out)
  else
    let clean := clean_up_stderr (co_stderr out) in
    if existsb (λ p, contains p clean) NOT_FOUND_PATTERNS then mthrow (ZfsNotFound clean)
    else mthrow (CommandFailed (program ++ x20 :: join [x20] args ++ str ": " ++ clean)).

Definition zfs_status : ZM PoolHealth :=
  let! out := zfs_run (str "zpool") [str "status"; str "-p"; zp_pool zp] in
  match parse_zpool_status out with Some h => mret h | None => mthrow ParseFailed end.

Definition zfs_capacity : ZM Capacity :=
  let! out := zfs_run (str "zfs") [str "get"; str "-Hp"; str "-o"; str "property,value"; str "used,available"; zp_dataset zp] in
  match parse_zfs_capacity out with
  | Some (used, avail) => mret {| total_bytes := wrap 64 (used + avail); free_bytes := avail |}
  | None => mthrow ParseFailed
  end.

Definition pool_metrics : ZM PoolMetrics :=
  let! out := zfs_run (str "zpool") [str "get"; str "-Hp"; str "-o"; str "property,value";
                str "size,allocated,free,freeing,leaked,fragmentation"; zp_pool zp] in
  mret (foldl metric_line PoolMetrics_default (lines out)).

Definition effective_capacity : ZM Capacity :=
  let! m := pool_metrics in mret {| total_bytes := pm_size m; free_bytes := effective_free m |}.

Definition dataset_properties : ZM Properties :=
  let! out := zfs_run (str "zfs") [str "get"; str "-Hp"; str "-o"; str "property,value,source"; str "all"; zp_dataset zp] in
  mret (properties_parse out).

Definition get_user_prop (name : bytes) : ZM (option bytes) :=
  let! out := zfs_run (str "zfs") [str "get"; str "-Hp"; str "-o"; str "value"; name; zp_dataset zp] in
  let v := trim out in
  mret (if bool_decide (v = []) || bool_decide (v = str "-") then None else Some v).

Definition set_user_props (props : list (bytes * bytes)) : ZM unit :=
  do! zfs_run (str "zfs") (str "set" :: map (λ p, p.1 ++ x3d :: p.2) props ++ [zp_dataset zp]);
  mret tt.

Definition SHARD_ID : bytes := str "ozd:shard_id".
Definition FORMAT_VERSION : bytes := str "ozd:format_version".

Definition ensure_identity (shard_id : Z) (format_version : bytes) : ZM IdentityCheck :=
  let expected := show shard_id in
  let! found := get_user_prop SHARD_ID in
  match found with
  | None =>
      do! set_user_props [(SHARD_ID, expected); (FORMAT_VERSION, format_version)];
      mret Initialized
  | Some found => if bool_decide (found = expected) then mret IdVerified else mret (Mismatch found expected)
  end.

Definition scrub_start : ZM unit := do! zfs_run (str "zpool") [str "scrub"; zp_pool zp]; mret tt.
Definition scrub_stop : ZM unit := do! zfs_run (str "zpool") [str "scrub"; str "-s"; zp_pool zp]; mret tt.
Definition scrub_pause : ZM unit := do! zfs_run (str "zpool") [str "scrub"; str "-p"; zp_pool zp]; mret tt.
End Commands.

Definition to_shard_status (h : PoolHealth) : ShardStatus :=
  match ph_state h with
  | ZOnline => if bool_decide (total_errors h = (0, 0, 0)) then Online else Suspect
  | ZDegraded => Suspect
  | _ => Faulted
  end.
