(* ===== verification/ZfsFacts.v ===== *)
(** * The ZFS adapter: what it reads, and whose disk it is

    The parser of [zpool status] reads back a printed report; only a pool that
    is online without an error is shown as online; the identity written on a
    dataset is never overwritten. *)

From Stdlib Require Import ZArith Lia SpecFloat Strings.Byte.
From stdpp Require Import base list gmap strings.
From S2P Require Import Prelude F64 Text Domain Zfs.
Open Scope Z_scope.

(** ** Lines and words *)

(** White space at neither end. *)
Definition tidy (s : bytes) : Prop :=
  (∀ b, head s = Some b → is_white b = false) ∧ (∀ b, last s = Some b → is_white b = false).

Lemma tidy_trim s : tidy s → trim s = s.
Proof. intros [Hh Hl]. by apply trim_id. Qed.

Lemma trim_white b s : is_white b = true → trim (b :: s) = trim s.
Proof. intros Hb. unfold trim. cbn [trim_start_while]. by rewrite Hb. Qed.

Lemma trim_newline s : tidy s → s ≠ [] → trim (s ++ [x0a]) = s.
Proof.
  intros [Hh Hl] Hne. unfold trim, trim_end_while. rewrite (trim_start_id is_white (s ++ [x0a])).
  2: { intros b. destruct s; [done |]. apply Hh. }
  rewrite reverse_app. change (reverse [x0a]) with [x0a]. cbn [app trim_start_while]. change (is_white x0a) with true. cbn iota.
  rewrite trim_start_id, reverse_involutive; [done |].
  intros b. rewrite head_reverse. apply Hl.
Qed.

Definition word (w : bytes) : Prop := w ≠ [] ∧ no_white w.

Lemma split_spaces_word w b s : no_white w → is_white b = true → split_spaces (w ++ b :: s) = w :: split_spaces s.
Proof.
  intros Hw Hb. induction Hw as [| c w Hc _ IH]; cbn; [by rewrite Hb |]. rewrite Hc. by rewrite IH.
Qed.

Lemma split_spaces_end w : no_white w → split_spaces w = [w].
Proof. induction 1 as [| c w Hc _ IH]; [done |]. cbn. rewrite Hc. by rewrite IH. Qed.

Lemma words_end w : word w → split_whitespace w = [w].
Proof. intros [Hne Hw]. unfold split_whitespace. rewrite split_spaces_end by done. by rewrite filter_cons_True. Qed.

Lemma words_cons w s : word w → split_whitespace (w ++ x20 :: x20 :: s) = w :: split_whitespace s.
Proof.
  intros [Hne Hw]. unfold split_whitespace. rewrite split_spaces_word by done. cbn [split_spaces].
  change (is_white x20) with true. cbn iota. rewrite filter_cons_True by done. by rewrite filter_cons_False by (by intros []).
Qed.

(** The words of a row, two spaces apart. *)
Lemma words_join ws : ws ≠ [] → Forall word ws → split_whitespace (join [x20; x20] ws) = ws.
Proof.
  induction ws as [| w ws IH]; [done |]. intros _ [Hw Hws]%Forall_cons. destruct ws as [| v ws]; [by apply words_end |].
  change (join [x20; x20] (w :: v :: ws)) with (w ++ x20 :: x20 :: join [x20; x20] (v :: ws)).
  rewrite words_cons by done. by rewrite IH.
Qed.

Lemma prefix_of_word p w s : no_white p → p `prefix_of` w ++ x20 :: s → p `prefix_of` w.
Proof.
  revert w. induction p as [| b p IH]; intros w Hp H; [apply prefix_nil |].
  inversion_clear Hp as [| ? ? Hb Hp']. destruct w as [| c w]; cbn in H.
  - apply prefix_cons_inv_1 in H as ->. done.
  - pose proof (prefix_cons_inv_1 _ _ _ _ H) as ->. apply prefix_cons, IH; [done |]. by eapply prefix_cons_inv_2.
Qed.

Lemma strip_prefix_None p s : ¬ p `prefix_of` s → strip_prefix p s = None.
Proof.
  intros Hp. destruct (strip_prefix p s) as [r |] eqn:Hs; [| done]. apply strip_prefix_Some in Hs as ->. destruct Hp. by exists r.
Qed.

(** ** The report of a pool *)

Definition device_row (d : DeviceStatus) : bytes :=
  x09 :: x20 :: x20 :: join [x20; x20]
    [ds_name d; state_str (ds_state d); show (read_errors d); show (write_errors d); show (cksum_errors d)].

Definition report_lines (name : bytes) (state : PoolState) (scan : bytes) (devices : list DeviceStatus) : list bytes :=
  [x20 :: x20 :: str "pool:" ++ x20 :: name; x20 :: str "state:" ++ x20 :: state_str state;
   x20 :: x20 :: str "scan:" ++ x20 :: scan; str "config:"; [];
   x09 :: str "NAME        STATE     READ WRITE CKSUM"] ++ map device_row devices
  ++ [[]; str "errors: No known data errors"].

(** The words that begin a line of another kind. *)
Definition keywords : list bytes := [str "pool:"; str "state:"; str "scan:"; str "config:"; str "errors:"; str "NAME"].

Record device_ok (d : DeviceStatus) : Prop := {
  dk_name : word (ds_name d);
  dk_free : ∀ k, k ∈ keywords → ¬ k `prefix_of` ds_name d;
  dk_counts : 0 <= read_errors d < 2 ^ 64 ∧ 0 <= write_errors d < 2 ^ 64 ∧ 0 <= cksum_errors d < 2 ^ 64;
}.

Lemma word_show n : 0 <= n → word (show n).
Proof.
  intros Hn. destruct (show_digits n Hn) as (_ & Hf & Hne). split; [done |]. unfold no_white.
  eapply Forall_impl; [done |]. by intros b [? _]%decimal_plain.
Qed.

Lemma word_state s : word (state_str s).
Proof. destruct s; (split; [done | repeat constructor]). Qed.

Lemma state_round s : state_parse (state_str s) = s.
Proof. by destruct s. Qed.

Definition row_words (d : DeviceStatus) : list bytes :=
  [ds_name d; state_str (ds_state d); show (read_errors d); show (write_errors d); show (cksum_errors d)].

Lemma row_words_ok d : device_ok d → Forall word (row_words d).
Proof.
  intros [Hn _ (? & ? & ?)]. repeat (apply Forall_cons; split); [done | apply word_state | .. | constructor]; apply word_show; lia.
Qed.

Lemma word_ends w : word w → tidy w.
Proof.
  intros [_ Hw]. unfold no_white in Hw. rewrite Forall_forall in Hw. split; intros b Hb; apply Hw.
  - destruct w; [done |]. injection Hb as ->. left.
  - by apply last_Some_elem_of.
Qed.

Lemma last_join ws w : last (join [x20; x20] (ws ++ [w])) = match last w with Some b => Some b | None => last (join [x20; x20] (ws ++ [w])) end.
Proof.
  induction ws as [| v ws IH]; cbn [app]; [by cbn; destruct (last w) |].
  assert (join [x20; x20] (v :: ws ++ [w]) = (v ++ [x20; x20]) ++ join [x20; x20] (ws ++ [w])) as ->.
  { rewrite <-app_assoc. by destruct ws. }
  rewrite last_app, IH. by destruct (last w).
Qed.

Lemma row_tidy d : device_ok d → tidy (join [x20; x20] (row_words d)).
Proof.
  intros Hd. split; intros b.
  - destruct (dk_name _ Hd) as [Hne Hw]. cbn. destruct (ds_name d) as [| c r]; [done |]. cbn. intros [= <-].
    by inversion Hw.
  - change (row_words d) with ([ds_name d; state_str (ds_state d); show (read_errors d); show (write_errors d)] ++ [show (cksum_errors d)]).
    rewrite last_join. destruct (dk_counts _ Hd) as (_ & _ & Hc). destruct (word_show (cksum_errors d) (proj1 Hc)) as [Hne Hw].
    destruct (last (show (cksum_errors d))) eqn:Hl.
    + intros [= <-]. by apply (word_ends _ (conj Hne Hw)).
    + by apply last_None in Hl.
Qed.

Lemma trim_row d : device_ok d → trim (device_row d) = join [x20; x20] (row_words d).
Proof. intros Hd. unfold device_row. rewrite !trim_white by done. by apply tidy_trim, row_tidy. Qed.

Lemma device_line_row d : device_ok d → device_line (join [x20; x20] (row_words d)) = Some d.
Proof.
  intros Hd. unfold device_line. rewrite words_join by (done || by apply row_words_ok). cbn [row_words].
  rewrite state_round. destruct (dk_counts _ Hd) as (H1 & H2 & H3).
  assert (bool_decide (ds_state d = ZUnknown) && negb (bool_decide (state_str (ds_state d) = str "UNKNOWN")) = false) as ->
    by (by destruct (ds_state d)).
  rewrite !parse_u64_show by done. by destruct d.
Qed.

Ltac keyword := unfold keywords; rewrite !elem_of_cons; auto 10.

Lemma row_keyword d k : device_ok d → k ∈ keywords → ¬ k `prefix_of` join [x20; x20] (row_words d).
Proof.
  intros Hd Hk Hp. apply (dk_free _ Hd k Hk). eapply prefix_of_word; [| exact Hp].
  assert (Forall no_white keywords) as Hall by (repeat constructor). rewrite Forall_forall in Hall. by apply Hall.
Qed.

Lemma row_starts d k : device_ok d → k ∈ keywords → starts_with k (join [x20; x20] (row_words d)) = false.
Proof. intros Hd Hk. apply bool_decide_eq_false. by apply row_keyword. Qed.

Definition add_device (sp : status_parser) (ds : list DeviceStatus) : status_parser :=
  {| sp_pool := sp_pool sp; sp_state := sp_state sp; sp_scrub := sp_scrub sp; sp_devices := sp_devices sp ++ ds;
     sp_in_config := true; sp_in_scan := false |}.

Lemma status_row sp d :
  device_ok d → sp_in_config sp = true → sp_in_scan sp = false → status_line sp (device_row d) = add_device sp [d].
Proof.
  intros Hd Hc Hs. unfold status_line. rewrite (trim_row d Hd).
  rewrite !strip_prefix_None by (apply row_keyword; [done | keyword]). rewrite Hs. cbn [andb].
  unfold config_line. rewrite !row_starts by (done || keyword). rewrite Hc.
  rewrite bool_decide_eq_false_2; [cbn [orb] | intros H0; apply (f_equal length) in H0; cbn in H0; rewrite length_app in H0; cbn in H0; lia].
  rewrite device_line_row by done. unfold add_device. by rewrite Hs.
Qed.

Lemma status_rows sp ds :
  Forall device_ok ds → sp_in_config sp = true → sp_in_scan sp = false →
  foldl status_line sp (map device_row ds) = add_device sp ds.
Proof.
  intros Hds. revert sp. induction Hds as [| d ds Hd _ IH]; intros sp Hc Hs; cbn [map foldl].
  - unfold add_device. rewrite app_nil_r, <-Hc, <-Hs. by destruct sp.
  - rewrite status_row by done. rewrite IH by done. unfold add_device. cbn. by rewrite <-app_assoc.
Qed.

Lemma trim_labelled k s : (∀ b, head k = Some b → is_white b = false) → k ≠ [] → tidy s → s ≠ [] → trim (k ++ x20 :: s) = k ++ x20 :: s.
Proof.
  intros Hk Hk' [_ Hs] Hne. apply tidy_trim. split; intros c.
  - destruct k; [done |]. apply Hk.
  - change (k ++ x20 :: s) with (k ++ [x20] ++ s). rewrite !last_app.
    destruct (last s) eqn:Hl; [intros [= <-]; by apply Hs | by apply last_None in Hl].
Qed.

Lemma trim_label s : tidy s → trim (x20 :: s) = s.
Proof. intros Hs. rewrite trim_white by done. by apply tidy_trim. Qed.

(** The lines before the table. *)
Lemma status_pool sp s : tidy s → s ≠ [] →
  status_line sp (x20 :: x20 :: str "pool:" ++ x20 :: s) =
  {| sp_pool := s; sp_state := sp_state sp; sp_scrub := sp_scrub sp; sp_devices := sp_devices sp;
     sp_in_config := sp_in_config sp; sp_in_scan := sp_in_scan sp |}.
Proof.
  intros Hs Hne. unfold status_line. rewrite !trim_white, trim_labelled by (done || by intros b [= <-]).
  by rewrite strip_prefix_app, trim_label.
Qed.

Lemma status_state sp st :
  status_line sp (x20 :: str "state:" ++ x20 :: state_str st) =
  {| sp_pool := sp_pool sp; sp_state := st; sp_scrub := sp_scrub sp; sp_devices := sp_devices sp;
     sp_in_config := sp_in_config sp; sp_in_scan := sp_in_scan sp |}.
Proof. by destruct st. Qed.

Lemma status_scan sp s : tidy s → s ≠ [] →
  status_line sp (x20 :: x20 :: str "scan:" ++ x20 :: s) =
  {| sp_pool := sp_pool sp; sp_state := sp_state sp;
     sp_scrub := {| scrub_in_progress := scrub_in_progress (sp_scrub sp) || contains (str "scrub in progress") (x20 :: s);
                    percent_done := percent_done (sp_scrub sp); scrub_raw := s |};
     sp_devices := sp_devices sp; sp_in_config := sp_in_config sp; sp_in_scan := true |}.
Proof.
  intros Hs Hne. unfold status_line. rewrite !trim_white, trim_labelled by (done || by intros b [= <-]).
  rewrite (strip_prefix_None (str "pool:")), (strip_prefix_None (str "state:")) by (by intros [? ?]).
  by rewrite strip_prefix_app, trim_label.
Qed.

Lemma status_head name state scan :
  tidy name → name ≠ [] → tidy scan → scan ≠ [] →
  foldl status_line status_start (take 6 (report_lines name state scan [])) =
  {| sp_pool := name; sp_state := state;
     sp_scrub := {| scrub_in_progress := contains (str "scrub in progress") (x20 :: scan); percent_done := None; scrub_raw := scan |};
     sp_devices := []; sp_in_config := true; sp_in_scan := false |}.
Proof.
  intros Hn Hne Hs Hse. unfold report_lines. cbn [take app foldl].
  rewrite status_pool, status_state, status_scan by done. cbn. reflexivity.
Qed.

Lemma word_line w : no_white w → x0a ∉ w.
Proof. intros Hw Hin. unfold no_white in Hw. rewrite Forall_forall in Hw. by apply Hw in Hin. Qed.

Lemma row_line d : device_ok d → line_ok (device_row d).
Proof.
  intros Hd. change (device_row d) with ([x09; x20; x20] ++ join [x20; x20] (row_words d)). split.
  - rewrite elem_of_app. intros [H | [H | (w & Hw & H)]%elem_of_join_sep].
    + rewrite !elem_of_cons in H. destruct H as [? | [? | [? | H]]]; [done .. | by apply not_elem_of_nil in H].
    + rewrite !elem_of_cons in H. destruct H as [? | [? | H]]; [done .. | by apply not_elem_of_nil in H].
    + pose proof (row_words_ok d Hd) as Hall. rewrite Forall_forall in Hall. destruct (Hall _ Hw) as [_ Hnw].
      by apply word_line in Hnw.
  - rewrite last_app. destruct (last (join _ _)) as [b |] eqn:Hl; [| done]. intros [= ->].
    apply (row_tidy d Hd) in Hl. done.
Qed.

Lemma label_line k s : x0a ∉ k → x0a ∉ s → tidy s → s ≠ [] → line_ok (k ++ s).
Proof.
  intros Hk Hs [_ Ht] Hne. split; [by rewrite elem_of_app; intros [? | ?] |]. rewrite last_app.
  destruct (last s) as [b |] eqn:Hl; [intros [= ->]; by specialize (Ht _ eq_refl) | by apply last_None in Hl].
Qed.

Ltac no_newline := apply (bool_decide_unpack _); vm_compute; exact I.

Lemma report_lines_ok name state scan devices :
  tidy name → name ≠ [] → x0a ∉ name → tidy scan → scan ≠ [] → x0a ∉ scan → Forall device_ok devices →
  Forall line_ok (report_lines name state scan devices).
Proof.
  intros Hn Hne Hn' Hs Hse Hs' Hds. unfold report_lines. rewrite !Forall_app. split_and!.
  - repeat (apply Forall_cons; split); [| | | | | | constructor].
    + change (x20 :: x20 :: str "pool:" ++ x20 :: name) with (str "  pool: " ++ name). apply label_line; [no_newline | done ..].
    + change (x20 :: str "state:" ++ x20 :: state_str state) with (str " state: " ++ state_str state).
      apply label_line; [no_newline | apply word_line, word_state | apply word_ends, word_state | by destruct state].
    + change (x20 :: x20 :: str "scan:" ++ x20 :: scan) with (str "  scan: " ++ scan). apply label_line; [no_newline | done ..].
    + split; [no_newline | done].
    + split; [no_newline | done].
    + split; [no_newline | done].
  - apply Forall_map. eapply Forall_impl; [exact Hds |]. apply row_line.
  - repeat (apply Forall_cons; split); [split; [no_newline | done] .. | constructor].
Qed.

(** C32. The parser reads a printed report back: the pool, its state, every device
    with its counters in the order of the table, and the line of the scan. *)
Theorem printed_report_is_read name state scan devices :
  tidy name → name ≠ [] → x0a ∉ name → tidy scan → scan ≠ [] → x0a ∉ scan → Forall device_ok devices →
  parse_zpool_status (text_of (report_lines name state scan devices)) =
  Some {| ph_pool := name; ph_state := state; ph_devices := devices;
          ph_scrub := {| scrub_in_progress := contains (str "scrub in progress") (x20 :: scan);
                         percent_done := None; scrub_raw := scan |} |}.
Proof.
  intros Hn Hne Hn' Hs Hse Hs' Hds. unfold parse_zpool_status. rewrite lines_text by (by apply report_lines_ok).
  change (report_lines name state scan devices) with
    (take 6 (report_lines name state scan []) ++ map device_row devices ++ [[]; str "errors: No known data errors"]).
  rewrite !foldl_app, status_head, status_rows by done. unfold add_device. cbn [foldl sp_pool sp_devices].
  rewrite bool_decide_eq_false_2 by done. cbn. reflexivity.
Qed.

(** ** Health as a shard's status *)

Lemma total_errors_sums h :
  total_errors h =
  (wrap 64 (foldl (λ a d, a + read_errors d) 0 (ph_devices h)), wrap 64 (foldl (λ a d, a + write_errors d) 0 (ph_devices h)),
   wrap 64 (foldl (λ a d, a + cksum_errors d) 0 (ph_devices h))).
Proof.
  unfold total_errors. assert (∀ f ds a, foldl (λ a (d : DeviceStatus), wrap 64 (a + f d)) (wrap 64 a) ds = wrap 64 (foldl (λ a d, a + f d) a ds)) as H.
  { intros f ds. induction ds as [| d ds IH]; intros a; [done |]. cbn [foldl].
    assert (wrap 64 (wrap 64 a + f d) = wrap 64 (a + f d)) as -> by (unfold wrap; apply Zplus_mod_idemp_l). apply IH. }
  assert (∀ ds x y z, foldl (λ (acc : Z * Z * Z) d, (wrap 64 (acc.1.1 + read_errors d), wrap 64 (acc.1.2 + write_errors d), wrap 64 (acc.2 + cksum_errors d))) (x, y, z) ds
    = (foldl (λ a d, wrap 64 (a + read_errors d)) x ds, foldl (λ a d, wrap 64 (a + write_errors d)) y ds, foldl (λ a d, wrap 64 (a + cksum_errors d)) z ds)) as Hs.
  { intros ds. induction ds as [| d ds IH]; intros x y z; [done |]. cbn [foldl]. apply IH. }
  rewrite Hs. pose proof (λ f, H f (ph_devices h) 0) as H0. change (wrap 64 0) with 0 in H0. by rewrite !H0.
Qed.

(** Counters whose sums fit. *)
Definition counts_fit (ds : list DeviceStatus) : Prop :=
  Forall (λ d, 0 <= read_errors d ∧ 0 <= write_errors d ∧ 0 <= cksum_errors d) ds ∧
  foldl (λ a d, a + read_errors d) 0 ds < 2 ^ 64 ∧ foldl (λ a d, a + write_errors d) 0 ds < 2 ^ 64 ∧
  foldl (λ a d, a + cksum_errors d) 0 ds < 2 ^ 64.

Lemma sum_zero (f : DeviceStatus → Z) ds a :
  Forall (λ d, 0 <= f d) ds → 0 <= a → (a <= foldl (λ a d, a + f d) a ds) ∧ (foldl (λ a d, a + f d) a ds = 0 ↔ a = 0 ∧ Forall (λ d, f d = 0) ds).
Proof.
  intros Hf. revert a. induction Hf as [| d ds Hd _ IH]; intros a Ha; cbn [foldl].
  - split; [lia |]. split; [by intros -> | by intros [-> _]].
  - destruct (IH (a + f d) ltac:(lia)) as [Hle Hiff]. split; [lia |]. rewrite Hiff, Forall_cons. split.
    + intros [? ?]. split_and!; [lia | lia | done].
    + intros (-> & -> & ?). by split.
Qed.

(** A pool is shown as an online shard exactly when it is online and no device
    has counted an error. *)
Theorem online_means_clean h :
  counts_fit (ph_devices h) →
  to_shard_status h = Online ↔
  ph_state h = ZOnline ∧ Forall (λ d, read_errors d = 0 ∧ write_errors d = 0 ∧ cksum_errors d = 0) (ph_devices h).
Proof.
  intros (Hnn & Hr & Hw & Hc). unfold to_shard_status. rewrite total_errors_sums.
  assert (∀ f, (∀ d, 0 <= read_errors d ∧ 0 <= write_errors d ∧ 0 <= cksum_errors d → 0 <= f d) →
    foldl (λ a d, a + f d) 0 (ph_devices h) < 2 ^ 64 →
    wrap 64 (foldl (λ a d, a + f d) 0 (ph_devices h)) = 0 ↔ Forall (λ d, f d = 0) (ph_devices h)) as H.
  { intros f Hf Hlt. destruct (sum_zero f (ph_devices h) 0) as [Hle Hiff]; [eapply Forall_impl; [exact Hnn | apply Hf] | lia |].
    rewrite wrap_small by lia. rewrite Hiff. tauto. }
  pose proof (H read_errors ltac:(tauto) Hr) as H1. pose proof (H write_errors ltac:(tauto) Hw) as H2.
  pose proof (H cksum_errors ltac:(tauto) Hc) as H3. rewrite !Forall_and, <-H1, <-H2, <-H3.
  destruct (ph_state h); try (split; [done | by intros [? _]]).
  case_bool_decide as Hb; split; try done.
  - intros _. by injection Hb.
  - intros (_ & Z1 & Z2 & Z3). destruct Hb. by rewrite Z1, Z2, Z3.
Qed.

(** ** Whose disk it is *)

(** The name of a user property has a colon, that of a native one has none. *)
Definition user_property (name : bytes) : Prop := x3a ∈ name.
(** [child] is a dataset below [ds], and inherits its user properties. *)
Definition below (ds child : bytes) : Prop := (ds ++ [x2f]) `prefix_of` child.

(** User properties of datasets, as zfs(8) documents them: [get -o value]
    prints the value, or a dash, and changes nothing; [set] makes the
    properties it lists those values, all of them if it succeeds, and changes
    no other one, and none of a dataset that is neither this one nor below
    it. Native properties, whose values zfs rewrites, are not spoken of. *)
Record dataset_law {R} `{RN : !Runner R} (prop_of : R → bytes → bytes → option bytes) : Prop := {
  dl_get : ∀ w ds name, user_property name →
    wp (runner_run (str "zfs") [str "get"; str "-Hp"; str "-o"; str "value"; name; ds]) (λ r w',
      prop_of w' = prop_of w ∧
      ∀ out, r = Ok out → co_success out = true → co_stdout out = default (str "-") (prop_of w ds name) ++ [x0a]) w;
  dl_set : ∀ w ds props, (∀ p, p ∈ props → user_property p.1 ∧ x3d ∉ p.1) →
    wp (runner_run (str "zfs") (str "set" :: map (λ p, p.1 ++ x3d :: p.2) props ++ [ds])) (λ r w',
      (∀ ds' n, ds' ≠ ds → ¬ below ds ds' → prop_of w' ds' n = prop_of w ds' n) ∧
      (∀ n, user_property n → prop_of w' ds n = prop_of w ds n ∨ ∃ v, (n, v) ∈ props ∧ prop_of w' ds n = Some v) ∧
      ∀ out, r = Ok out → co_success out = true → ∀ n v, (n, v) ∈ props → ∃ v', (n, v') ∈ props ∧ prop_of w' ds n = Some v') w;
}.

Section Identity.
Context {R : Type} `{RN : !Runner R} (zp : ZfsPool) (prop_of : R → bytes → bytes → option bytes).
Context (law : dataset_law prop_of).
Local Abbreviation ds := (zp_dataset zp).
Implicit Types (w : R).

Lemma wp_zfs_run (program : bytes) (args : list bytes) (Q : result bytes CmdOutput → R → Prop) w :
  wp (runner_run program args) Q w →
  wp (zfs_run program args) (λ r w', ∃ r0, Q r0 w' ∧
    match r with Ok s => ∃ out, r0 = Ok out ∧ co_success out = true ∧ s = co_stdout out | Err _ => True end) w.
Proof.
  intros HQ. unfold zfs_run. do 2 wp_step. eapply wp_mono; [exact HQ |]. intros [out | e] w' Hr.
  - destruct (co_success out) eqn:Hs.
    + apply wp_ret. exists (Ok out). split; [done |]. by exists out.
    + destruct (existsb _ _); apply wp_throw; by exists (Ok out).
  - by exists (Err e).
Qed.

(** A value that the output shows as it is. *)
Definition readable (v : bytes) : Prop := v ≠ [] ∧ v ≠ str "-" ∧ tidy v.

Lemma readable_show n : 0 <= n → readable (show n).
Proof.
  intros Hn. destruct (word_show n Hn) as [Hne Hw]. split_and!; [done | | by apply word_ends].
  intros Hdash. destruct (show_digits n Hn) as (_ & Hf & _). rewrite Hdash in Hf. apply Forall_cons in Hf as [Hd _].
  by apply decimal_plain in Hd as (_ & _ & _ & ?).
Qed.

Lemma wp_get_user_prop name w :
  user_property name → (∀ v, prop_of w ds name = Some v → readable v) →
  wp (get_user_prop zp name) (λ r w', prop_of w' = prop_of w ∧ match r with Ok o => o = prop_of w ds name | Err _ => True end) w.
Proof.
  intros Hu Hread. unfold get_user_prop. wp_step.
  eapply wp_mono; [by apply wp_zfs_run, (dl_get _ law) |]. intros r w' (r0 & [Hsame Hout] & Hr). destruct r as [s |]; [| done].
  destruct Hr as (out & -> & Hs & ->). rewrite (Hout out eq_refl Hs). apply wp_ret. split; [done |].
  destruct (prop_of w ds name) as [v |]; cbn [default id].
  - destruct (Hread v eq_refl) as (Hne & Hd & Ht). rewrite trim_newline by done. by rewrite !bool_decide_eq_false_2.
  - done.
Qed.

Lemma identity_properties : user_property SHARD_ID ∧ user_property FORMAT_VERSION.
Proof. split; apply (bool_decide_unpack _); vm_compute; exact I. Qed.

(** What the check of a disk leaves behind, and what it answers. *)
Definition identity_outcome (shard_id : Z) w (res : result ZfsError IdentityCheck) w' : Prop :=
  match prop_of w ds SHARD_ID with
  | Some v => prop_of w' = prop_of w ∧
      match res with
      | Ok Initialized => False
      | Ok IdVerified => v = show shard_id
      | Ok (Mismatch found expected) => found = v ∧ expected = show shard_id ∧ v ≠ show shard_id
      | Err _ => True
      end
  | None =>
      match res with
      | Ok Initialized => prop_of w' ds SHARD_ID = Some (show shard_id) ∧ readable (show shard_id)
      | Ok _ => False
      | Err _ => prop_of w' ds SHARD_ID = None ∨ prop_of w' ds SHARD_ID = Some (show shard_id)
      end
  end.

Lemma wp_ensure_identity shard_id version w :
  0 <= shard_id → (∀ v, prop_of w ds SHARD_ID = Some v → readable v) →
  wp (ensure_identity zp shard_id version) (λ res w', identity_outcome shard_id w res w' ∧
    ∀ ds' n, ds' ≠ ds → ¬ below ds ds' → prop_of w' ds' n = prop_of w ds' n) w.
Proof.
  intros Hid Hread. destruct identity_properties as [Hu1 Hu2].
  unfold ensure_identity. wp_step. eapply wp_mono; [by apply wp_get_user_prop |]. intros r w1 [Hsame Hr]. unfold identity_outcome.
  destruct r as [found |]; [| rewrite Hsame; destruct (prop_of w ds SHARD_ID); auto]. subst found.
  destruct (prop_of w ds SHARD_ID) as [v |] eqn:Hv.
  { case_bool_decide as Hb; apply wp_ret; by rewrite Hsame; split_and!. }
  wp_step. unfold set_user_props. wp_step. eapply wp_mono; [apply wp_zfs_run, (dl_set _ law) |].
  { apply Forall_forall. repeat constructor; try done; no_newline. }
  intros r w2 (r0 & (Hother & Hmay & Hall) & Hr).
  assert (∀ v, (SHARD_ID, v) ∈ [(SHARD_ID, show shard_id); (FORMAT_VERSION, version)] → v = show shard_id) as Honly.
  { intros v. rewrite !elem_of_cons. intros [[= ->] | [[= Hn] | Hin]]; [done .. | by apply not_elem_of_nil in Hin]. }
  assert (∀ ds' n, ds' ≠ ds → ¬ below ds ds' → prop_of w2 ds' n = prop_of w ds' n) as Hother' by (intros; by rewrite Hother, Hsame).
  destruct r as [s |].
  - destruct Hr as (out & -> & Hs & _). do 2 apply wp_ret. split; [| done].
    destruct (Hall out eq_refl Hs SHARD_ID (show shard_id)) as (v' & Hin & ->); [left |]. rewrite (Honly _ Hin). split; [done |].
    by apply readable_show.
  - split; [| done]. destruct (Hmay SHARD_ID Hu1) as [Hm | (v & Hin & Hm)].
    + left. by rewrite Hm, Hsame.
    + right. by rewrite Hm, (Honly _ Hin).
Qed.

(** C31. An identity, once on a dataset, is never overwritten: the check of any
    shard number then changes no property, and finds it verified exactly when
    it is this shard's. A dataset without one gets this shard's, unless the
    command failed. *)
Theorem identity_is_never_overwritten shard_id version w res w' :
  0 <= shard_id → (∀ v, prop_of w ds SHARD_ID = Some v → readable v) →
  ensure_identity zp shard_id version w = (res, w') →
  identity_outcome shard_id w res w'.
Proof. intros Hid Hread Hrun. by destruct (wp_run _ _ _ _ _ (wp_ensure_identity shard_id version w Hid Hread) Hrun). Qed.
End Identity.
