(* ===== verification/ZfsDemo.v ===== *)
(** * Runs of the ZFS adapter

    The report of a degraded pool as [zpool status -p] prints it, a simulated
    dataset, and the prepared answers of the test double. *)

From Stdlib Require Import ZArith Lia SpecFloat Strings.Byte.
From stdpp Require Import base list gmap strings.
From S2P Require Import Prelude F64 Text Domain Zfs ZfsFacts.
Open Scope Z_scope.

(** ** Reports *)

Definition degraded_report : bytes := text_of [
  str "  pool: disk02"; str " state: DEGRADED";
  str "status: One or more devices has experienced an unrecoverable error.";
  str "  scan: scrub in progress since Tue Jun 10 12:00:00 2026";
  x09 :: str "1288490188 scanned at 104857600/s, 524288000 issued at 52428800/s, 2684354560 total";
  x09 :: str "0 repaired, 20.00% done, 00:00:40 to go";
  str "config:"; [];
  x09 :: str "NAME        STATE     READ WRITE CKSUM";
  x09 :: str "disk02      DEGRADED     0     0     0";
  x09 :: str "  sdb       DEGRADED     3     1    12"; [];
  str "errors: No known data errors"].

Example degraded_is_read :
  match parse_zpool_status degraded_report with
  | Some h => ph_pool h = str "disk02" ∧ ph_state h = ZDegraded ∧ total_errors h = (3, 1, 12) ∧
      scrub_in_progress (ph_scrub h) = true ∧ percent_done (ph_scrub h) = Some (f64_of_Z 20) ∧ to_shard_status h = Suspect
  | None => False
  end.
Proof. vm_compute. split_and!; reflexivity. Qed.

Definition sda : DeviceStatus :=
  {| ds_name := str "sda"; ds_state := ZOnline; read_errors := 0; write_errors := 0; cksum_errors := 7 |}.

Lemma sda_ok : device_ok sda.
Proof.
  split.
  - split; [done | repeat constructor].
  - apply Forall_forall. repeat constructor; (apply (bool_decide_unpack _); vm_compute; exact I).
  - cbn. lia.
Qed.

Lemma printed_report_is_read_witness :
  ph_devices <$> parse_zpool_status (text_of (report_lines (str "disk01") ZOnline (str "none requested") [sda])) = Some [sda] ∧
  cksum_errors sda = 7.
Proof.
  split; [| done]. rewrite printed_report_is_read.
  - reflexivity.
  - split; by intros b [= <-].
  - done.
  - apply (bool_decide_unpack _). vm_compute. exact I.
  - split; by intros b [= <-].
  - done.
  - apply (bool_decide_unpack _). vm_compute. exact I.
  - repeat constructor; apply sda_ok.
Defined.

Lemma online_means_clean_witness :
  to_shard_status {| ph_pool := str "disk01"; ph_state := ZOnline; ph_devices := [sda]; ph_scrub := ScrubInfo_default |} ≠ Online.
Proof.
  intros H. apply online_means_clean in H.
  - destruct H as [_ H]. apply Forall_cons in H as [(_ & _ & H) _]. discriminate H.
  - split_and!; [repeat constructor; done | cbn; lia ..].
Defined.

(** The sums are those of [u64]: errors that add up to 2^64 count as none. *)
Example errors_wrap_to_zero :
  let d n := {| ds_name := str "d"; ds_state := ZOnline; read_errors := n; write_errors := 0; cksum_errors := 0 |} in
  let h := {| ph_pool := str "p"; ph_state := ZOnline; ph_devices := [d (2 ^ 64 - 1); d 1]; ph_scrub := ScrubInfo_default |} in
  to_shard_status h = Online ∧ pool_is_healthy h = false.
Proof. vm_compute. done. Qed.

(** ** Simulated datasets *)

Definition demo_pool : ZfsPool := {| zp_pool := str "disk01"; zp_dataset := str "disk01/ozd" |}.
(** The properties of all datasets; none is inherited. *)
Abbreviation props := (gmap (bytes * bytes) bytes).

Definition sim_set (ds : bytes) (m : props) (arg : bytes) : props :=
  match split_once x3d arg with Some (k, v) => <[(ds, k) := v]> m | None => m end.
Definition done_with (stdout : bytes) : result bytes CmdOutput :=
  Ok {| co_stdout := stdout; co_stderr := []; co_success := true |}.

#[global] Instance sim_runner : Runner props := {|
  runner_run program args := λ m,
    let ds := default [] (last args) in
    let set := (done_with [], foldl (sim_set ds) m (removelast (tail args))) in
    match args with
    | [g; _; _; _; name; _] =>
        if decide (g = str "get") then (done_with (default (str "-") (m !! (ds, name)) ++ [x0a]), m) else set
    | _ => set
    end;
|}.

Definition sim_prop (m : props) (ds n : bytes) : option bytes := m !! (ds, n).

Lemma sim_set_eq (ds : bytes) m k v : x3d ∉ k → sim_set ds m (k ++ x3d :: v) = <[(ds, k) := v]> m.
Proof. intros Hk. unfold sim_set. by rewrite split_once_app. Qed.

Lemma sim_sets (ds : bytes) (l : list (bytes * bytes)) m n :
  (∀ p, p ∈ l → x3d ∉ p.1) →
  let m' := foldl (sim_set ds) m (map (λ p, p.1 ++ x3d :: p.2) l) in
  (m' !! (ds, n) = m !! (ds, n) ∨ ∃ v, (n, v) ∈ l ∧ m' !! (ds, n) = Some v) ∧
  (∀ v, (n, v) ∈ l → ∃ v', (n, v') ∈ l ∧ m' !! (ds, n) = Some v').
Proof.
  cbv zeta. revert m. induction l as [| [k v] l IH]; intros m Hl; cbn [map foldl].
  { split; [by left |]. by intros v ?%not_elem_of_nil. }
  destruct (IH (sim_set ds m (k ++ x3d :: v))) as [H1 H2]; [intros p Hp; apply Hl; by right |].
  pose proof (sim_set_eq ds m k v (Hl (k, v) ltac:(left))) as E. cbn [fst snd] in *. rewrite E in *. split.
  - destruct H1 as [H1 | (v' & Hin & Hv')]; [| right; exists v'; split; [by right | done]].
    rewrite H1. destruct (decide (k = n)) as [-> | Hkn].
    + right. exists v. split; [left | apply lookup_insert_eq].
    + left. apply lookup_insert_ne. congruence.
  - intros w [[= -> ->] | Hin]%elem_of_cons.
    + destruct H1 as [H1 | (v' & Hin & Hv')]; [| exists v'; split; [by right | done]].
      exists v. split; [left |]. rewrite H1. apply lookup_insert_eq.
    + destruct (H2 w Hin) as (v' & Hin' & Hv'). exists v'. split; [by right | done].
Qed.

Lemma sim_sets_other (ds ds' : bytes) (l : list (bytes * bytes)) m n : ds' ≠ ds → (∀ p, p ∈ l → x3d ∉ p.1) →
  foldl (sim_set ds) m (map (λ p, p.1 ++ x3d :: p.2) l) !! (ds', n) = m !! (ds', n).
Proof.
  intros Hne. revert m. induction l as [| [k v] l IH]; intros m Hl; cbn [map foldl]; [done |].
  rewrite IH by (intros p Hp; apply Hl; by right). cbn [fst snd]. rewrite sim_set_eq by apply (Hl (k, v) ltac:(left)).
  apply lookup_insert_ne. congruence.
Qed.

Lemma sim_run_set (ds : bytes) (l : list (bytes * bytes)) (m : props) :
  runner_run (str "zfs") (str "set" :: map (λ p, p.1 ++ x3d :: p.2) l ++ [ds]) m =
  (done_with [], foldl (sim_set ds) m (map (λ p, p.1 ++ x3d :: p.2) l)).
Proof.
  assert (∀ (x : list bytes) y, removelast (x ++ [y]) = x) as Hrl by (intros; apply removelast_last).
  cbn [runner_run sim_runner tail]. rewrite !Hrl.
  assert (default [] (last (str "set" :: map (λ p, p.1 ++ x3d :: p.2) l ++ [ds])) = ds) as ->
    by (rewrite app_comm_cons, last_app; reflexivity).
  destruct (map _ l ++ [_]) as [| a [| b [| c [| d [| e [| f r]]]]]] eqn:He; try done.
Qed.

Lemma sim_law : dataset_law sim_prop.
Proof.
  split.
  - intros m ds name _. split; [done |]. by intros out [= <-].
  - intros m ds l Hl. unfold wp. rewrite sim_run_set. cbn [fst snd].
    assert (∀ p, p ∈ l → x3d ∉ p.1) as Hl' by (intros p Hp; by apply Hl). split_and!.
    + intros ds' n Hne _. by apply sim_sets_other.
    + intros n _. apply (sim_sets ds l m n Hl').
    + intros out _ _ n. apply (sim_sets ds l m n Hl').
Qed.

(** A dataset of shard 5, checked for shard 7. *)
Definition disk_of_5 : props := {[(zp_dataset demo_pool, SHARD_ID) := str "5"]}.

Lemma five_readable v : sim_prop disk_of_5 (zp_dataset demo_pool) SHARD_ID = Some v → readable v.
Proof. intros [= <-]. split_and!; [done | done | split; by intros b [= <-]]. Qed.

Lemma identity_is_never_overwritten_witness :
  (ensure_identity demo_pool 7 (str "v1") disk_of_5).1 = Ok (Mismatch (str "5") (str "7")) ∧
  sim_prop (ensure_identity demo_pool 7 (str "v1") disk_of_5).2 = sim_prop disk_of_5.
Proof.
  split; [vm_compute; reflexivity |]. assert (0 <= 7) as H7 by lia.
  exact (proj1 (identity_is_never_overwritten demo_pool sim_prop sim_law 7 (str "v1") disk_of_5 _ _ H7 five_readable
    (surjective_pairing _))).
Defined.

(** A clean dataset, with the prepared answers of the source's test. *)
Example clean_dataset_is_initialized :
  let run := ensure_identity demo_pool 7 (str "v1") {| fr_responses := [fake_ok (str "-"); fake_ok []]; fr_calls := [] |} in
  run.1 = Ok Initialized ∧
  fr_calls run.2 = [str "zfs get -Hp -o value ozd:shard_id disk01/ozd"; str "zfs set ozd:shard_id=7 ozd:format_version=v1 disk01/ozd"].
Proof. vm_compute. done. Qed.

Example no_such_pool :
  (zfs_status demo_pool {| fr_responses := [fake_fail (text_of [str "cannot open 'disk01': no such pool"; str "usage:"; str "  zpool status ..."])];
     fr_calls := [] |}).1 = Err (ZfsNotFound (str "cannot open 'disk01': no such pool")).
Proof. vm_compute. reflexivity. Qed.

(** ** Tuning *)

Example drift_is_found :
  let props := properties_parse (text_of [str "recordsize" ++ x09 :: str "131072" ++ x09 :: str "default";
    str "compression" ++ x09 :: str "lz4" ++ x09 :: str "local"; str "atime" ++ x09 :: str "off" ++ x09 :: str "local"]) in
  map di_property (audit_drift props EXPECTED_TUNING) = [str "recordsize"].
Proof. vm_compute. reflexivity. Qed.

Example sizes : parse_size (str "336M") = Some (336 * 2 ^ 20) ∧ parse_size (str "1.5K") = Some 1536 ∧ parse_size (str "2TiB") = Some (2 ^ 41).
Proof. vm_compute. done. Qed.
