(* ===== verification/Fs.v ===== *)
(** * Directories (std::fs)

    The calls of [std::fs] that the snapshots use, on a tree of directories
    and hard-linked files. A path is the list of its components; there are no
    symbolic links. A call may fail for reasons of its own: the faults are an
    input, and a [remove_dir_all] or [create_dir_all] that fails may have done
    a part of its work. *)

From Stdlib Require Import ZArith Lia Strings.Byte.
From stdpp Require Import base list gmap strings.
From S2P Require Import Prelude Text.
Open Scope Z_scope.

Abbreviation path := (list bytes).

Inductive node := Dir | File (inode : nat).
#[global] Instance node_eq_dec : EqDecision node.
Proof. solve_decision. Defined.

(** A fault: the text of the error and how many steps of the call were done. *)
Record fault := { ft_text : bytes; ft_done : nat }.

Record fs := {
  fs_nodes : gmap path node;
  fs_inodes : gmap nat bytes;
  fs_faults : list (option fault);
}.
Definition set_nodes (f : gmap path node → gmap path node) (s : fs) : fs :=
  {| fs_nodes := f (fs_nodes s); fs_inodes := fs_inodes s; fs_faults := fs_faults s |}.
Definition set_inode (i : nat) (b : bytes) (s : fs) : fs :=
  {| fs_nodes := fs_nodes s; fs_inodes := <[i := b]> (fs_inodes s); fs_faults := fs_faults s |}.

(** The name of a node: not empty, no separator, neither "." nor "..". *)
Definition plain_name (c : bytes) : Prop := c ≠ [] ∧ (x2f ∉ c) ∧ c ≠ str "." ∧ c ≠ str "..".

Local Open Scope rust_scope.
Abbreviation FM := (M fs bytes).

(** The text of an [io::Error]. *)
Definition ENOENT : bytes := str "No such file or directory (os error 2)".
Definition EEXIST : bytes := str "File exists (os error 17)".
Definition ENOTDIR : bytes := str "Not a directory (os error 20)".
Definition EISDIR : bytes := str "Is a directory (os error 21)".
Definition ENOTEMPTY : bytes := str "Directory not empty (os error 39)".
Definition EPERM : bytes := str "Operation not permitted (os error 1)".
Definition EINVAL : bytes := str "Invalid argument (os error 22)".

(** The fault that the next call meets. *)
Definition next_fault : FM (option fault) := λ s,
  (Ok (match fs_faults s with f :: _ => f | [] => None end),
   {| fs_nodes := fs_nodes s; fs_inodes := fs_inodes s; fs_faults := tail (fs_faults s) |}).

(** ** Paths *)

(** [p.join(name)]: an absolute name replaces the path. *)
Definition push (p : path) (name : bytes) : path :=
  let cs := filter (λ c, c ≠ []) (split x2f name) in
  match name with x2f :: _ => cs | _ => p ++ cs end.
(** What the system looks up. *)
Definition norm_step (acc : path) (c : bytes) : path :=
  if bool_decide (c = str ".") then acc else if bool_decide (c = str "..") then removelast acc else acc ++ [c].
Definition norm (p : path) : path := foldl norm_step [] p.
(** The root is always there. *)
Definition lookup_node (p : path) (s : fs) : option node :=
  match norm p with [] => Some Dir | q => fs_nodes s !! q end.

(** The names in a directory. *)
Definition child_of (d q : path) : option bytes :=
  if bool_decide (d `prefix_of` q) then match drop (length d) q with [n] => Some n | _ => None end else None.
Definition children (d : path) (s : fs) : list bytes := omap (λ x : path * node, child_of d x.1) (map_to_list (fs_nodes s)).

(** The path without its last component. *)
Definition parent (p : path) : path := take (length p - 1) p.

(** [Path::is_dir] and [metadata().map(|m| m.len())]: an error is no answer. *)
Definition is_dir (p : path) : FM bool :=
  let! f := next_fault in
  let! s := mget in
  mret (bool_decide (f = None ∧ lookup_node p s = Some Dir)).
Definition file_len (p : path) : FM (option Z) :=
  let! f := next_fault in
  let! s := mget in
  mret (match f, lookup_node p s with
        | None, Some (File i) => Some (match fs_inodes s !! i with Some b => blen b | None => 0 end)
        | None, Some Dir => Some 0
        | _, _ => None
        end).

(** ** Changes *)

(** The directories on the way to [p], from the top. *)
Definition ancestors (p : path) : list path := map (λ n, take n p) (seq 1 (length p)).

Definition mkdir1 (p : path) : FM unit :=
  let! s := mget in
  match lookup_node p s with
  | Some Dir => mret tt
  | Some (File _) => mthrow ENOTDIR
  | None => mmodify (set_nodes (insert (norm p) Dir))
  end.
Definition create_dir_all (p : path) : FM unit :=
  let! f := next_fault in
  match f with
  | None => miter mkdir1 (ancestors p)
  | Some f => do! miter mkdir1 (take (ft_done f) (ancestors p)); mthrow (ft_text f)
  end.

(** A call that does all or nothing. *)
Definition atomically {A} (c : FM A) : FM A :=
  let! f := next_fault in
  match f with Some f => mthrow (ft_text f) | None => c end.

Definition hard_link (src dst : path) : FM unit := atomically (
  let! s := mget in
  match lookup_node src s, lookup_node dst s with
  | None, _ => mthrow ENOENT
  | Some _, Some _ => mthrow EEXIST
  | Some Dir, None => mthrow EPERM
  | Some (File i), None =>
      match lookup_node (parent dst) s with
      | Some Dir => mmodify (set_nodes (insert (norm dst) (File i)))
      | Some (File _) => mthrow ENOTDIR
      | None => mthrow ENOENT
      end
  end).

Definition remove_file (p : path) : FM unit := atomically (
  let! s := mget in
  match lookup_node p s with
  | Some (File _) => mmodify (set_nodes (delete (norm p)))
  | Some Dir => mthrow EISDIR
  | None => mthrow ENOENT
  end).

(** [File::open], and what reading gives: nothing where it is a directory. *)
Definition open_file (p : path) : FM (option bytes) := atomically (
  let! s := mget in
  match lookup_node p s with
  | Some (File i) => mret (Some (default [] (fs_inodes s !! i)))
  | Some Dir => mret None
  | None => mthrow ENOENT
  end).

(** [File::create], then writing [b]: a file that is there keeps its inode,
    and so its other links. *)
Definition create_file (p : path) (b : bytes) : FM unit := atomically (
  let! s := mget in
  match lookup_node p s with
  | Some (File i) => mmodify (set_inode i b)
  | Some Dir => mthrow EISDIR
  | None =>
      match lookup_node (parent p) s with
      | Some Dir =>
          let i := fresh (dom (fs_inodes s)) in
          mmodify (λ s, set_inode i b (set_nodes (insert (norm p) (File i)) s))
      | Some (File _) => mthrow ENOTDIR
      | None => mthrow ENOENT
      end
  end).

(** [rmdir] refuses a path that ends in a dot. *)
Definition remove_dir (p : path) : FM unit := atomically (
  let! s := mget in
  match lookup_node p s with
  | Some Dir =>
      if bool_decide (last p = Some (str ".")) then mthrow EINVAL
      else if bool_decide (children (norm p) s = []) then mmodify (set_nodes (delete (norm p)))
      else mthrow ENOTEMPTY
  | Some (File _) => mthrow ENOTDIR
  | None => mthrow ENOENT
  end).

(** Everything at and below [d]. *)
Definition cut_tree (d : path) (m : gmap path node) : gmap path node := filter (λ x, ¬ (d `prefix_of` x.1)) m.

Section Listing.
(** The order in which the system lists a directory. *)
Context (order : list bytes → list bytes).

Definition read_dir (p : path) : FM (list bytes) := atomically (
  let! s := mget in
  match lookup_node p s with
  | Some Dir => mret (order (children (norm p) s))
  | Some (File _) => mthrow ENOTDIR
  | None => mthrow ENOENT
  end).

Definition remove_dir_all (p : path) : FM unit :=
  let! f := next_fault in
  let! s := mget in
  match f, lookup_node p s with
  | None, Some Dir => mmodify (set_nodes (cut_tree (norm p)))
  | None, Some (File _) => mthrow ENOTDIR
  | None, None => mthrow ENOENT
  | Some f, _ =>
      do! mmodify (set_nodes (λ m, foldl (λ m n, cut_tree (norm p ++ [n]) m) m (take (ft_done f) (order (children (norm p) s)))));
      mthrow (ft_text f)
  end.
End Listing.

Lemma push_plain p c : plain_name c → push p c = p ++ [c].
Proof.
  intros (Hne & Hs & _). unfold push. rewrite split_free by done. rewrite filter_cons_True by done.
  destruct c as [| b c]; [done |]. destruct (decide (b = x2f)) as [-> | Hb]; [destruct Hs; left |]. by destruct b.
Qed.
Lemma norm_snoc p c : norm (p ++ [c]) = norm_step (norm p) c.
Proof. unfold norm. by rewrite foldl_app. Qed.
Lemma norm_plain p c : plain_name c → norm (push p c) = norm p ++ [c].
Proof.
  intros Hc. rewrite push_plain, norm_snoc by done. destruct Hc as (_ & _ & Hd & Hdd). unfold norm_step.
  by rewrite !bool_decide_eq_false_2.
Qed.

Example join_examples :
  norm (push [str "d"; str "snapshots"] (str "../x/./y")) = [str "d"; str "x"; str "y"] ∧
  push [str "d"] (str "/etc") = [str "etc"].
Proof. vm_compute. done. Qed.
