(* ===== verification/Snapshot.v ===== *)
(** * Snapshots (crates/ozd-admin/src/lib.rs)

    A snapshot is a directory of hard links to the segment files of every
    shard, named by the time it was taken. The handlers that create, list and
    delete snapshots, and the retention of the last few. *)

From Stdlib Require Import ZArith Lia Strings.Byte.
From stdpp Require Import base list gmap strings sorting.
From S2P Require Import Prelude Text Fs.
Open Scope Z_scope.

(** ** The name of a snapshot *)

(** Year, month and day of a day number, in [u64]. *)
Definition civil_of_days (days : Z) : Z * Z * Z :=
  let z := days + 719468 in
  let era := z / 146097 in
  let doe := z - era * 146097 in
  let yoe := (doe - doe / 1460 + doe / 36524 - doe / 146096) / 365 in
  let y := yoe + era * 400 in
  let doy := doe - (365 * yoe + yoe / 4 - yoe / 100) in
  let mp := (5 * doy + 2) / 153 in
  let d := doy - (153 * mp + 2) / 5 + 1 in
  let mo := if mp <? 10 then mp + 3 else mp - 9 in
  let yr := if mo <=? 2 then y + 1 else y in
  (yr, mo, d).

Definition chrono_lite (epoch_secs : Z) : bytes :=
  let days := epoch_secs / 86400 in
  let rem := epoch_secs mod 86400 in
  let h := rem / 3600 in
  let m := rem mod 3600 / 60 in
  let s := rem mod 60 in
  let '(yr, mo, d) := civil_of_days days in
  pad0 4 (show yr) ++ pad0 2 (show mo) ++ pad0 2 (show d) ++ x2d ::
  pad0 2 (show h) ++ pad0 2 (show m) ++ pad0 2 (show s).

(** [format!("{:04x}", v)] of a number of 16 bits *)
Definition hex4 (v : Z) : bytes :=
  [hex_digit (v / 4096 mod 16); hex_digit (v / 256 mod 16); hex_digit (v / 16 mod 16); hex_digit (v mod 16)].

Definition snapshot_id (secs nanos : Z) : bytes := chrono_lite secs ++ x2d :: hex4 (Z.land nanos 0xFFFF).

(** ** Where snapshots are *)

Definition snap_path_for (snapshot_dir : option path) (data_path : path) (id : bytes) (shard_idx : nat) : path :=
  match snapshot_dir with
  | Some dir => push (push dir id) (str "shard-" ++ show (Z.of_nat shard_idx))
  | None => push (push data_path (str "snapshots")) id
  end.
Definition snap_root_for (snapshot_dir : option path) (data_path_0 : path) : path :=
  match snapshot_dir with Some dir => dir | None => push data_path_0 (str "snapshots") end.

(** [name.starts_with("seg.") && name.ends_with(".dat")] *)
Definition is_segment_name (name : bytes) : bool :=
  let n := from_utf8_lossy name in
  starts_with (str "seg.") n && bool_decide (str ".dat" `suffix_of` n).

(** [path.display()] of an absolute path *)
Definition path_text (p : path) : bytes := x2f :: join [x2f] p.

(** ** Answers *)

Record SnapshotResponse := {
  sn_id : bytes;
  sn_shards : nat;
  sn_segments : nat;
  sn_bytes : Z;
  sn_path : bytes;
}.
Record SnapshotListItem := {
  sl_id : bytes;
  sl_created : bytes;
  sl_segments : nat;
  sl_bytes : Z;
}.
Record SnapshotDeleteResponse := {
  sd_id : bytes;
  sd_deleted_files : nat;
  sd_deleted_dirs : nat;
}.
Record SnapshotRetentionResponse := {
  sx_kept : nat;
  sx_deleted : nat;
  sx_deleted_ids : list bytes;
}.

(** An answer in JSON, or an [ErrorResponse]. *)
Inductive Reply (A : Type) :=
| Json (a : A)
| ErrorJson (status : Z) (error : bytes).
Arguments Json {A} a.
Arguments ErrorJson {A} status error.

Section Snapshots.
Context (order : list bytes → list bytes) (snapshot_dir : option path) (data_paths : list path).
Local Open Scope rust_scope.

(** The message of a panic of the blocking task. *)
Definition task_panicked : bytes := str "task panicked".

(** [spawn_blocking(task).await], answered as JSON: an error keeps status 200. *)
Definition reply {A} (task : FM A) : FM (Reply A) :=
  match! task with! r => mret (match r with Ok a => Json a | Err e => ErrorJson 200 e end).

(** *** Creation *)

Definition link_segment (dp snap_dir : path) (acc : nat * Z) (name : bytes) : FM (nat * Z) :=
  if is_segment_name name then
    match! hard_link (push dp name) (push snap_dir name) with! r =>
    match r with
    | Ok _ => let! len := file_len (push dp name) in mret (S acc.1, wrap 64 (acc.2 + default 0 len))
    | Err _ => mret acc
    end
  else mret acc.

Definition snapshot_shard (id : bytes) (acc : nat * Z) (shard : nat * path) : FM (nat * Z) :=
  let snap_dir := snap_path_for snapshot_dir shard.2 id shard.1 in
  do! mmap_err (λ e, str "mkdir " ++ path_text snap_dir ++ str ": " ++ e) (create_dir_all snap_dir);
  let! names := mmap_err (λ e, str "readdir shard " ++ show (Z.of_nat shard.1) ++ str ": " ++ e) (read_dir order shard.2) in
  mfold (link_segment shard.2 snap_dir) acc names.

(** After the flush of the pool. *)
Definition take_snapshot (secs nanos : Z) : FM SnapshotResponse :=
  let id := snapshot_id secs nanos in
  let! r := mfold (snapshot_shard id) (0%nat, 0) (imap pair data_paths) in
  mret {| sn_id := id; sn_shards := length data_paths; sn_segments := r.1; sn_bytes := r.2;
          sn_path := str "snapshots/<id>/ inside each data_path" |}.

(** *** Listing *)

(** The names of the directories in [p]. *)
Definition subdirs (p : path) (names : list bytes) (s : fs) : list bytes :=
  filter (λ n, lookup_node (push p n) s = Some Dir) names.

Definition count_segment (sdir : path) (acc : nat * Z) (name : bytes) : FM (nat * Z) :=
  if is_segment_name name then
    let! len := file_len (push sdir name) in mret (S acc.1, wrap 64 (acc.2 + default 0 len))
  else mret acc.
Definition count_shard (id : bytes) (acc : nat * Z) (shard : nat * path) : FM (nat * Z) :=
  let sdir := snap_path_for snapshot_dir shard.2 id shard.1 in
  match! read_dir order sdir with! r =>
  match r with Ok names => mfold (count_segment sdir) acc names | Err _ => mret acc end.
Definition list_item (items : list SnapshotListItem) (name : bytes) : FM (list SnapshotListItem) :=
  let id := from_utf8_lossy name in
  let! r := mfold (count_shard id) (0%nat, 0) (imap pair data_paths) in
  mret (items ++ [{| sl_id := id; sl_created := id; sl_segments := r.1; sl_bytes := r.2 |}]).

Definition item_le (x y : SnapshotListItem) : Prop := bytes_le (sl_id x) (sl_id y).
#[global] Instance item_le_dec x y : Decision (item_le x y).
Proof. unfold item_le. apply _. Defined.

Definition list_snapshots : FM (Reply (list SnapshotListItem)) := reply (
  match data_paths with
  | [] => mthrow task_panicked
  | dp0 :: _ =>
      let snap_root := snap_root_for snapshot_dir dp0 in
      match! read_dir order snap_root with! r =>
      match r with
      | Err _ => mret []
      | Ok names =>
          let! s := mget in
          let! items := mfold list_item [] (subdirs snap_root names s) in
          mret (merge_sort item_le items)
      end
  end).

(** *** Deletion *)

Definition remove_entry (snap_dir : path) (n : nat) (name : bytes) : FM nat :=
  match! remove_file (push snap_dir name) with! r => mret (match r with Ok _ => S n | Err _ => n end).

(** Files and directories deleted so far, and whether there was one. *)
Definition delete_shard (id : bytes) (acc : nat * nat * bool) (shard : nat * path) : FM (nat * nat * bool) :=
  let snap_dir := snap_path_for snapshot_dir shard.2 id shard.1 in
  let! d := is_dir snap_dir in
  if (d : bool) then
    let! files := (match! read_dir order snap_dir with! r =>
                   match r with Ok names => mfold (remove_entry snap_dir) acc.1.1 names | Err _ => mret acc.1.1 end) in
    match! remove_dir snap_dir with! r =>
    mret (files, match r with Ok _ => S acc.1.2 | Err _ => acc.1.2 end, true)
  else mret acc.

Definition delete_snapshot (id : option bytes) : FM (Reply SnapshotDeleteResponse) :=
  match id with
  | None => mret (ErrorJson 400 (str "id parameter required"))
  | Some id =>
      if bool_decide (id = []) || bool_decide (x2f ∈ id) || contains (str "..") id then
        mret (ErrorJson 400 (str "invalid snapshot id"))
      else
        let! r := mfold (delete_shard id) (0, 0, false)%nat (imap pair data_paths) in
        mret (if (r.2 : bool) then Json {| sd_id := id; sd_deleted_files := r.1.1; sd_deleted_dirs := r.1.2 |}
              else ErrorJson 404 (str "snapshot not found"))
  end.

(** *** Retention *)

Definition drop_shard (id : bytes) (shard : nat * path) : FM unit :=
  let snap_dir := snap_path_for snapshot_dir shard.2 id shard.1 in
  let! d := is_dir snap_dir in
  if (d : bool) then (match! remove_dir_all order snap_dir with! _ => mret tt) else mret tt.
Definition drop_snapshot (id : bytes) : FM unit := miter (drop_shard id) (imap pair data_paths).

Definition delete_old_snapshots (keep : option Z) : FM (Reply SnapshotRetentionResponse) :=
  match keep with
  | Some k =>
      if k <? 1 then mret (ErrorJson 400 (str "keep parameter required (>=1)"))
      else
        reply (
          match data_paths with
          | [] => mthrow task_panicked
          | dp0 :: _ =>
              let snap_root := snap_root_for snapshot_dir dp0 in
              match! read_dir order snap_root with! r =>
              match r with
              | Err _ => mret {| sx_kept := 0; sx_deleted := 0; sx_deleted_ids := [] |}
              | Ok names =>
                  let! s := mget in
                  let ids := merge_sort bytes_le (map from_utf8_lossy (subdirs snap_root names s)) in
                  if Z.of_nat (length ids) <=? k then
                    mret {| sx_kept := length ids; sx_deleted := 0; sx_deleted_ids := [] |}
                  else
                    let to_delete := take (length ids - Z.to_nat k) ids in
                    do! miter drop_snapshot to_delete;
                    mret {| sx_kept := Z.to_nat k; sx_deleted := length to_delete; sx_deleted_ids := to_delete |}
              end
          end)
  | None => mret (ErrorJson 400 (str "keep parameter required (>=1)"))
  end.
End Snapshots.

Example chrono_lite_examples :
  chrono_lite 0 = str "19700101-000000" ∧ chrono_lite 951827696 = str "20000229-123456" ∧
  snapshot_id 1767225599 0x12abcd = str "20251231-235959-abcd".
Proof. vm_compute. done. Qed.
