(* ===== verification/Calendar.v ===== *)
(** * The names of snapshots sort by time

    The calendar of [chrono_lite] is the one of the request signatures, and
    the names it prints are in the order of the times. *)

From Stdlib Require Import ZArith Lia Strings.Byte.
From stdpp Require Import base list strings pretty.
From S2P Require Import Prelude Text SigV4 Fs Snapshot.
Open Scope Z_scope.

(** ** One era of 400 years *)

(** The last second that the names cover, of the year 9999. *)
Definition TIME_END : Z := 253402300800.

(** Year, month and day as one number. *)
Definition date_key (e : Z * Z * Z) : Z := e.1.1 * 10000 + e.1.2 * 100 + e.2.

(** The year of an era, and the day of that year, of the day [doe] of the era;
    years begin in March. *)
Definition year_of_era (doe : Z) : Z := (doe - doe / 1460 + doe / 36524 - doe / 146096) / 365.
Definition day_of_year (doe : Z) : Z :=
  doe - (365 * year_of_era doe + year_of_era doe / 4 - year_of_era doe / 100).
(** The month, from March, and the day of the month. *)
Definition month_of (doy : Z) : Z := (5 * doy + 2) / 153.
Definition day_of_month (doy : Z) : Z := doy - (153 * month_of doy + 2) / 5 + 1.

Lemma era_bounds doe : 0 <= doe < 146097 → 0 <= year_of_era doe < 400 ∧ 0 <= day_of_year doe <= 365.
Proof. intros H. unfold day_of_year, year_of_era. Z.to_euclidean_division_equations. lia. Qed.

Definition year_start (y : Z) : Z := 365 * y + y / 4 - y / 100.
Lemma year_ends doe : 0 <= doe < 146096 → doe < year_start (year_of_era doe + 1).
Proof. intros H. unfold year_start, year_of_era. Z.to_euclidean_division_equations. lia. Qed.

(** The next day is the next of the year, or the first of the next year. *)
Lemma era_next doe :
  0 <= doe → doe + 1 < 146097 →
  (year_of_era (doe + 1) = year_of_era doe ∧ day_of_year (doe + 1) = day_of_year doe + 1) ∨
  (year_of_era (doe + 1) = year_of_era doe + 1 ∧ day_of_year (doe + 1) = 0).
Proof.
  intros H1 H2. destruct (era_bounds doe ltac:(lia)) as [_ Ha]. destruct (era_bounds (doe + 1) ltac:(lia)) as [_ Hb].
  pose proof (year_ends doe ltac:(lia)) as Hc.
  assert (∀ y n, 0 <= n → year_start y + 365 * n <= year_start (y + n)) as Hmono.
  { intros y n Hn. unfold year_start. Z.to_euclidean_division_equations. lia. }
  unfold day_of_year in *. fold (year_start (year_of_era doe)) (year_start (year_of_era (doe + 1))) in *.
  set (y := year_of_era doe) in *. set (y' := year_of_era (doe + 1)) in *. clearbody y y'.
  assert (¬ y' < y) as Hge.
  { intros Hlt. pose proof (Hmono y' (y - y') ltac:(lia)) as Hm. replace (y' + (y - y')) with y in Hm by lia. lia. }
  assert (¬ y + 1 < y') as Hle.
  { intros Hlt. pose proof (Hmono (y + 1) (y' - y - 1) ltac:(lia)) as Hm. replace (y + 1 + (y' - y - 1)) with y' in Hm by lia. lia. }
  destruct (decide (y' = y)) as [-> |]; [left; lia | right].
  assert (y' = y + 1) as -> by lia. lia.
Qed.

Lemma month_bounds doy : 0 <= doy <= 365 → 0 <= month_of doy <= 11 ∧ 1 <= day_of_month doy <= 31.
Proof. intros H. unfold day_of_month, month_of. Z.to_euclidean_division_equations. lia. Qed.
Lemma month_next doy :
  0 <= doy →
  (month_of (doy + 1) = month_of doy ∧ day_of_month (doy + 1) = day_of_month doy + 1) ∨ month_of (doy + 1) = month_of doy + 1.
Proof. intros H. unfold day_of_month, month_of. Z.to_euclidean_division_equations. lia. Qed.

(** A date from the era, the year in it, and the day of the year. *)
Definition date_at (era yoe doy : Z) : Z * Z * Z :=
  let mp := month_of doy in
  (yoe + era * 400 + (if mp <? 10 then 0 else 1), if mp <? 10 then mp + 3 else mp - 9, day_of_month doy).

Lemma civil_date_at days :
  0 <= days →
  ∃ era doe, 0 <= era ∧ 0 <= doe < 146097 ∧ days = doe - 719468 + 146097 * era ∧
    civil_of_days days = date_at era (year_of_era doe) (day_of_year doe).
Proof.
  intros Hd. exists ((days + 719468) / 146097), ((days + 719468) mod 146097).
  pose proof (Z.div_mod (days + 719468) 146097) as Hdm. pose proof (Z.mod_pos_bound (days + 719468) 146097) as Hmb.
  split; [apply Z.div_pos; lia |]. split; [lia |]. split; [lia |]. unfold civil_of_days, date_at.
  replace (days + 719468 - (days + 719468) / 146097 * 146097) with ((days + 719468) mod 146097) by lia.
  set (doe := (days + 719468) mod 146097) in *. fold (year_of_era doe). fold (day_of_year doe). fold (month_of (day_of_year doe)).
  fold (day_of_month (day_of_year doe)). destruct (era_bounds doe ltac:(lia)) as [_ Hb]. destruct (month_bounds _ Hb) as [Hm _].
  cbv zeta. destruct (Z.ltb_spec (month_of (day_of_year doe)) 10); [rewrite (proj2 (Z.leb_gt _ _)) by lia | rewrite (proj2 (Z.leb_le _ _)) by lia];
    (f_equal; f_equal; lia).
Qed.

Lemma date_at_next era yoe doy :
  0 <= doy < 365 → date_key (date_at era yoe doy) < date_key (date_at era yoe (doy + 1)).
Proof.
  intros Hd. destruct (month_bounds doy ltac:(lia)) as [Hm Hb]. destruct (month_bounds (doy + 1) ltac:(lia)) as [Hm' Hb'].
  unfold date_key, date_at. cbn [fst snd].
  destruct (month_next doy ltac:(lia)) as [[H1 H2] | H1]; destruct (Z.ltb_spec (month_of doy) 10), (Z.ltb_spec (month_of (doy + 1)) 10); lia.
Qed.
Lemma date_at_year era yoe doy era' yoe' :
  0 <= doy <= 365 → yoe + era * 400 < yoe' + era' * 400 → date_key (date_at era yoe doy) < date_key (date_at era' yoe' 0).
Proof.
  intros Hd Hy. destruct (month_bounds doy Hd) as [Hm Hb]. unfold date_key, date_at. cbn [fst snd].
  change (month_of 0) with 0. change (day_of_month 0) with 1. cbn [Z.ltb Z.compare]. destruct (Z.ltb_spec (month_of doy) 10); lia.
Qed.

Lemma date_at_days era yoe doy :
  0 <= yoe < 400 → 0 <= era → 0 <= doy <= 365 → let e := date_at era yoe doy in
  days_of_civil e.1.1 e.1.2 e.2 = era * 146097 + (yoe * 365 + yoe / 4 - yoe / 100 + doy) - 719468.
Proof.
  intros Hy He Hd. destruct (month_bounds doy Hd) as [Hm Hb]. unfold date_at. cbn [fst snd].
  set (mp := month_of doy) in *. assert (day_of_month doy = doy - (153 * mp + 2) / 5 + 1) as Hdom by done.
  unfold days_of_civil. cbv zeta.
  assert (∀ y mo, y = yoe + era * 400 → Z.rem (mo + 9) 12 = mp →
    y / 400 * 146097 + ((y - y / 400 * 400) * 365 + Z.quot (y - y / 400 * 400) 4 - Z.quot (y - y / 400 * 400) 100 +
      (Z.quot (153 * Z.rem (mo + 9) 12 + 2) 5 + day_of_month doy - 1)) - 719468 =
    era * 146097 + (yoe * 365 + yoe / 4 - yoe / 100 + doy) - 719468) as H.
  { intros y mo -> ->. rewrite Z.div_add, (Z.div_small yoe) by lia. replace (yoe + era * 400 - (0 + era) * 400) with yoe by lia.
    rewrite !Z.quot_div_nonneg by lia. rewrite Hdom. lia. }
  destruct (Z.ltb_spec mp 10).
  - rewrite (proj2 (Z.leb_gt _ _)) by lia. apply H; [lia |]. replace (mp + 3 + 9) with (mp + 1 * 12) by lia.
    rewrite Z.rem_add by lia. apply Z.rem_small. lia.
  - rewrite (proj2 (Z.leb_le _ _)) by lia. apply H; [lia |]. replace (mp - 9 + 9) with mp by lia. apply Z.rem_small. lia.
Qed.

Lemma civil_days days :
  0 <= days →
  let e := civil_of_days days in
  1 <= e.1.2 <= 12 ∧ 1 <= e.2 <= 31 ∧ 0 <= e.1.1 ∧ days_of_civil e.1.1 e.1.2 e.2 = days ∧
  date_key e < date_key (civil_of_days (days + 1)).
Proof.
  intros Hd. destruct (civil_date_at days Hd) as (era & doe & He & Hdoe & Hdays & ->).
  destruct (era_bounds doe Hdoe) as [Hy Hdy]. destruct (month_bounds _ Hdy) as [Hm Hb]. cbv zeta. split.
  { unfold date_at. cbn [fst snd]. destruct (Z.ltb_spec (month_of (day_of_year doe)) 10); lia. }
  split; [done |]. split.
  { unfold date_at. cbn [fst snd]. destruct (Z.ltb_spec (month_of (day_of_year doe)) 10); lia. }
  split; [rewrite date_at_days by done; unfold day_of_year; lia |].
  destruct (civil_date_at (days + 1) ltac:(lia)) as (era' & doe' & He' & Hdoe' & Hdays' & ->).
  destruct (decide (doe + 1 < 146097)) as [Hlt | Hge].
  - assert (era' = era ∧ doe' = doe + 1) as [-> ->] by lia.
    destruct (era_next doe (proj1 Hdoe) Hlt) as [[-> H2] | [-> ->]]; [| apply date_at_year; lia].
    rewrite H2. apply date_at_next. destruct (era_bounds (doe + 1) Hdoe') as [_ Hb']. lia.
  - assert (era' = era + 1 ∧ doe' = 0) as [-> ->] by lia. change (year_of_era 0) with 0. change (day_of_year 0) with 0.
    apply date_at_year; lia.
Qed.

Lemma date_key_grows d1 d2 : 0 <= d1 → d1 < d2 → date_key (civil_of_days d1) < date_key (civil_of_days d2).
Proof.
  intros H1 H2. replace d2 with (d1 + 1 + Z.of_nat (Z.to_nat (d2 - d1 - 1))) by lia. clear H2.
  induction (Z.to_nat (d2 - d1 - 1)) as [| n IH].
  - rewrite Z.add_0_r. by apply (civil_days d1).
  - etransitivity; [exact IH |]. replace (d1 + 1 + Z.of_nat (S n)) with (d1 + 1 + Z.of_nat n + 1) by lia.
    apply (civil_days (d1 + 1 + Z.of_nat n)). lia.
Qed.

(** ** The text *)

Fixpoint all_below (f : Z → bool) (n : nat) (z : Z) : bool :=
  match n with O => true | S n => f z && all_below f n (z + 1) end.
Lemma all_below_spec f n z x : all_below f n z = true → z <= x < z + Z.of_nat n → f x = true.
Proof.
  revert z. induction n as [| n IH]; intros z H Hx; [lia |]. apply andb_true_iff in H as [Hz H].
  destruct (decide (x = z)) as [-> |]; [done |]. apply (IH (z + 1)); [done | lia].
Qed.

Lemma pad_two v : 0 <= v < 100 → pad0 2 (show v) = two_digits v.
Proof.
  intros Hv. assert (all_below (λ v, bool_decide (pad0 2 (show v) = two_digits v)) 100 0 = true) as H by (vm_compute; reflexivity).
  pose proof (all_below_spec _ _ _ v H ltac:(lia)) as Hb. by apply bool_decide_eq_true in Hb.
Qed.
Lemma pad_four v : 0 <= v < 10000 → pad0 4 (show v) = four_digits v.
Proof.
  intros Hv.
  assert (all_below (λ v, bool_decide (pad0 4 (show v) = four_digits v)) (Z.to_nat 10000) 0 = true) as H by (vm_compute; reflexivity).
  pose proof (all_below_spec _ _ _ v H ltac:(lia)) as Hb. by apply bool_decide_eq_true in Hb.
Qed.

Definition civil_text (y mo d h mi s : Z) : bytes :=
  four_digits y ++ two_digits mo ++ two_digits d ++ x2d :: two_digits h ++ two_digits mi ++ two_digits s.

Lemma chrono_text secs :
  0 <= secs < TIME_END →
  let e := civil_of_days (secs / 86400) in
  let rem := secs mod 86400 in
  e.1.1 < 10000 ∧ chrono_lite secs = civil_text e.1.1 e.1.2 e.2 (rem / 3600) (rem mod 3600 / 60) (rem mod 60).
Proof.
  intros Hs e rem. assert (0 <= secs / 86400 < 2932897) as Hd.
  { split; [apply Z.div_pos; lia |]. apply Z.div_lt_upper_bound; [lia |]. unfold TIME_END in Hs. lia. }
  assert (0 <= rem < 86400) as Hr by (apply Z.mod_pos_bound; lia).
  destruct (civil_days _ (proj1 Hd)) as (Hmo & Hday & Hy & _ & _). fold e in Hmo, Hday, Hy.
  assert (e.1.1 < 10000) as Hyr.
  { assert (date_key e < date_key (civil_of_days 2932897)) as Hk by (apply date_key_grows; lia).
    assert (date_key (civil_of_days 2932897) = 100000101) as Hv by (vm_compute; reflexivity). rewrite Hv in Hk.
    unfold date_key in Hk. lia. }
  split; [done |]. unfold chrono_lite. fold rem. destruct e as [[y mo] d] eqn:He. fold e. rewrite He. cbn [fst snd] in *.
  unfold civil_text. assert (0 <= rem / 3600 < 100) by (Z.to_euclidean_division_equations; lia).
  assert (0 <= rem mod 3600 / 60 < 100) by (Z.to_euclidean_division_equations; lia).
  assert (0 <= rem mod 60 < 100) by (Z.to_euclidean_division_equations; lia).
  by rewrite pad_four, !pad_two by lia.
Qed.

(** ** The order of digits *)

Lemma digit_N a : 0 <= a < 10 → Byte.to_N (hex_digit a) = Z.to_N (48 + a).
Proof.
  intros Ha. assert (a = 0 ∨ a = 1 ∨ a = 2 ∨ a = 3 ∨ a = 4 ∨ a = 5 ∨ a = 6 ∨ a = 7 ∨ a = 8 ∨ a = 9) as Hc by lia.
  clear Ha. destruct_or! Hc; subst a; reflexivity.
Qed.

(** [a] before [b], or the same and then [x] before [y]. *)
Lemma lt_digit a b x y :
  0 <= a < 10 → 0 <= b < 10 → a < b ∨ (a = b ∧ bytes_lt x y) → bytes_lt (hex_digit a :: x) (hex_digit b :: y).
Proof.
  intros Ha Hb H. unfold bytes_lt. simpl. rewrite !digit_N by done.
  destruct H as [H | [-> H]]; [| by rewrite N.compare_refl].
  assert (Z.to_N (48 + a) < Z.to_N (48 + b))%N as Hlt by lia. apply N.compare_lt_iff in Hlt. by rewrite Hlt.
Qed.
Lemma lt_two a b x y :
  0 <= a < 100 → 0 <= b < 100 → a < b ∨ (a = b ∧ bytes_lt x y) → bytes_lt (two_digits a ++ x) (two_digits b ++ y).
Proof.
  intros Ha Hb H. unfold two_digits. simpl. apply lt_digit; [Z.to_euclidean_division_equations; lia .. |].
  destruct (decide (a / 10 < b / 10)); [by left | right]. destruct H as [H | [-> H]].
  - split; [Z.to_euclidean_division_equations; lia |]. apply lt_digit; [Z.to_euclidean_division_equations; lia .. |].
    left. Z.to_euclidean_division_equations. lia.
  - split; [done |]. apply lt_digit; [Z.to_euclidean_division_equations; lia .. | by right].
Qed.
Lemma lt_four a b x y :
  0 <= a < 10000 → 0 <= b < 10000 → a < b ∨ (a = b ∧ bytes_lt x y) → bytes_lt (four_digits a ++ x) (four_digits b ++ y).
Proof.
  intros Ha Hb H. unfold four_digits. rewrite <-!app_assoc. apply lt_two; [Z.to_euclidean_division_equations; lia .. |].
  destruct (decide (a / 100 < b / 100)); [by left | right]. destruct H as [H | [-> H]].
  - split; [Z.to_euclidean_division_equations; lia |]. apply lt_two; [Z.to_euclidean_division_equations; lia .. |].
    left. Z.to_euclidean_division_equations. lia.
  - split; [done |]. apply lt_two; [Z.to_euclidean_division_equations; lia .. | by right].
Qed.
Lemma lt_dash x y : bytes_lt x y → bytes_lt (x2d :: x) (x2d :: y).
Proof. done. Qed.

(** ** Names and times *)

(** The name of a snapshot taken before the year 10000 is its calendar
    time, the days counted one by one, and two snapshots of different seconds
    are named in the order in which they were taken. *)
Theorem snapshot_names_tell_the_time secs nanos :
  0 <= secs < TIME_END →
  (∃ (y mo : nat) d h mi s, snapshot_id secs nanos = civil_text (Z.of_nat y) (Z.of_nat mo) d h mi s ++ x2d :: hex4 (Z.land nanos 0xFFFF) ∧
    calendar_days y mo d * 86400 + h * 3600 + mi * 60 + s = secs ∧
    (1 <= mo <= 12)%nat ∧ 1 <= d <= 31 ∧ 0 <= h < 24 ∧ 0 <= mi < 60 ∧ 0 <= s < 60) ∧
  ∀ later nanos', secs < later < TIME_END → bytes_lt (snapshot_id secs nanos) (snapshot_id later nanos').
Proof.
  intros Hs. destruct (chrono_text secs Hs) as [Hy Ht]. unfold snapshot_id. rewrite Ht.
  assert (0 <= secs / 86400) as Hd by (apply Z.div_pos; lia).
  destruct (civil_days _ Hd) as (Hmo & Hday & Hy0 & Hdays & _).
  set (e := civil_of_days (secs / 86400)) in *. split.
  - exists (Z.to_nat e.1.1), (Z.to_nat e.1.2). exists e.2, (secs mod 86400 / 3600), (secs mod 86400 mod 3600 / 60), (secs mod 86400 mod 60).
    rewrite !Z2Nat.id by lia. split; [done |]. split.
    + rewrite <-days_of_civil_calendar by lia. rewrite !Z2Nat.id by lia. rewrite Hdays. Z.to_euclidean_division_equations. lia.
    + split; [lia |]. split; [done |]. Z.to_euclidean_division_equations. lia.
  - intros later nanos' Hl. destruct (chrono_text later ltac:(lia)) as [Hy' ->].
    assert (0 <= later / 86400) as Hd' by (apply Z.div_pos; lia).
    destruct (civil_days _ Hd') as (Hmo' & Hday' & Hy0' & _).
    set (e' := civil_of_days (later / 86400)) in *. unfold civil_text. rewrite <-!app_assoc.
    assert (secs / 86400 <= later / 86400) as Hle by (apply Z.div_le_mono; lia).
    destruct (decide (secs / 86400 = later / 86400)) as [Heq | Hne].
    + assert (e = e') as <- by (unfold e, e'; by rewrite Heq).
      apply lt_four; [lia | lia | right; split; [done |]]. apply lt_two; [lia | lia | right; split; [done |]].
      apply lt_two; [lia | lia | right; split; [done |]]. rewrite <-!app_comm_cons. apply lt_dash. rewrite <-!app_assoc.
      assert (secs mod 86400 < later mod 86400) as Hm by (Z.to_euclidean_division_equations; lia).
      set (r := secs mod 86400) in *. set (r' := later mod 86400) in *.
      assert (0 <= r < 86400 ∧ 0 <= r' < 86400) as [Hr Hr'] by (split; apply Z.mod_pos_bound; lia).
      clearbody r r'. clear -Hm Hr Hr'.
      apply lt_two; [Z.to_euclidean_division_equations; lia .. |].
      destruct (decide (r / 3600 < r' / 3600)); [by left | right]. split; [Z.to_euclidean_division_equations; lia |].
      apply lt_two; [Z.to_euclidean_division_equations; lia .. |].
      destruct (decide (r mod 3600 / 60 < r' mod 3600 / 60)); [by left | right]. split; [Z.to_euclidean_division_equations; lia |].
      apply lt_two; [Z.to_euclidean_division_equations; lia .. |]. left. Z.to_euclidean_division_equations. lia.
    + assert (date_key e < date_key e') as Hk by (apply date_key_grows; lia). unfold date_key in Hk.
      apply lt_four; [lia | lia |]. destruct (decide (e.1.1 < e'.1.1)); [by left | right]. split; [lia |].
      apply lt_two; [lia | lia |]. destruct (decide (e.1.2 < e'.1.2)); [by left | right]. split; [lia |].
      apply lt_two; [lia | lia |]. left. lia.
Qed.

Lemma snapshot_names_tell_the_time_witness :
  0 <= 1767225599 < TIME_END ∧ bytes_lt (snapshot_id 1767225599 5) (snapshot_id 1767225600 0).
Proof.
  assert (0 <= 1767225599 < TIME_END) as H by (vm_compute; split; congruence).
  split; [exact H |]. refine (proj2 (snapshot_names_tell_the_time 1767225599 5 H) 1767225600 0 _).
  vm_compute. split; congruence.
Defined.

(** Within one second the names sort by the low 16 bits of the nanoseconds. *)
Example names_of_one_second : bytes_lt (snapshot_id 0 65536) (snapshot_id 0 65535).
Proof. vm_compute. reflexivity. Qed.
