(* ===== verification/SnapshotFacts.v ===== *)
(** * Snapshots: what is deleted, and what is kept

    Whatever fails, a deletion stays inside the directories of snapshots, and
    the retention touches nothing but snapshots behind the last names.

    Second part: Retention keeps the last snapshots. *)

From Stdlib Require Import ZArith Lia Strings.Byte Sorting.Sorted.
From stdpp Require Import base list gmap strings sorting.
From S2P Require Import Prelude Text Fs Snapshot Calendar.

(** ** Calls that only remove *)

(** Of [s], only paths of [P] are missing in [s']. *)
Definition removed (P : path → Prop) (s s' : fs) : Prop :=
  ∀ q, fs_nodes s' !! q = fs_nodes s !! q ∨ (P q ∧ fs_nodes s' !! q = None).

#[global] Instance removed_preorder P : PreOrder (removed P).
Proof.
  split; [intros s q; by left |]. intros s1 s2 s3 H1 H2 q.
  destruct (H2 q) as [-> | [? ->]]; [apply H1 | by right].
Qed.

(** The names of a file system are plain. *)
Definition tidy_fs (s : fs) : Prop := ∀ q n, fs_nodes s !! q = Some n → Forall plain_name q.

Lemma removed_tidy P s s' : removed P s s' → tidy_fs s → tidy_fs s'.
Proof. intros H Ht q n Hn. destruct (H q) as [Hq | [_ Hq]]; [apply (Ht q n); congruence | congruence]. Qed.

Definition removes {A} (P : path → Prop) (c : FM A) : Prop := ∀ s, tidy_fs s → wp c (λ _ s', removed P s s') s.

Section Removes.
Context (P : path → Prop).

Lemma removes_ret {A} (a : A) : removes P (mret a).
Proof. intros s _. by apply wp_ret. Qed.
Lemma removes_throw {A} e : removes P (mthrow (A := A) e).
Proof. intros s _. by apply wp_throw. Qed.
Lemma removes_get : removes P mget.
Proof. intros s _. by apply wp_get. Qed.
Lemma removes_modify f : (∀ s, removed P s (f s)) → removes P (mmodify f).
Proof. intros Hf s _. by apply wp_modify. Qed.
Lemma wp_removes {A} (c : FM A) (Q : result bytes A → fs → Prop) s :
  tidy_fs s → removes P c → (∀ r s', removed P s s' → tidy_fs s' → Q r s') → wp c Q s.
Proof. intros Ht Hc HQ. eapply wp_mono; [by apply Hc |]. intros r s' H. apply HQ; [done | exact (removed_tidy _ _ _ H Ht)]. Qed.
Lemma removes_bind {A B} (c : FM A) (k : A → FM B) : removes P c → (∀ a, removes P (k a)) → removes P (mthen c k).
Proof.
  intros Hc Hk s Ht. wp_step. apply wp_removes; [done.. |]. intros [a | e] s1 H1 Ht1; [| done].
  apply wp_removes; [done.. |]. intros r s2 H2 _. exact (transitivity H1 H2).
Qed.
Lemma removes_catch {A B} (c : FM A) (k : result bytes A → FM B) :
  removes P c → (∀ r, removes P (k r)) → removes P (mcatch c k).
Proof.
  intros Hc Hk s Ht. wp_step. apply wp_removes; [done.. |]. intros r s1 H1 Ht1.
  apply wp_removes; [done.. |]. intros r' s2 H2 _. exact (transitivity H1 H2).
Qed.
Lemma removes_fold {A B} (f : B → A → FM B) acc l : (∀ acc a, a ∈ l → removes P (f acc a)) → removes P (mfold f acc l).
Proof.
  intros Hf s Ht. apply (wp_fold (λ s', removed P s s')); [done |]. intros acc' a s' Ha H1.
  apply wp_removes; [exact (removed_tidy _ _ _ H1 Ht) | by apply Hf |]. intros r s2 H2 _. exact (transitivity H1 H2).
Qed.
Lemma removes_iter {A} (f : A → FM unit) l : (∀ a, a ∈ l → removes P (f a)) → removes P (miter f l).
Proof.
  intros Hf s Ht. apply (wp_iter (λ s', removed P s s')); [done |]. intros a s' Ha H1.
  apply wp_removes; [exact (removed_tidy _ _ _ H1 Ht) | by apply Hf |]. intros r s2 H2 _. exact (transitivity H1 H2).
Qed.
Lemma removes_next : removes P next_fault.
Proof. intros s _ q. by left. Qed.
Lemma removes_atomically {A} (c : FM A) : removes P c → removes P (atomically c).
Proof. intros Hc. apply removes_bind; [apply removes_next |]. intros [f |]; [apply removes_throw | done]. Qed.
Lemma removes_is_dir p : removes P (is_dir p).
Proof. apply removes_bind; [apply removes_next |]. intros f. apply removes_bind; [apply removes_get |]. intros s. apply removes_ret. Qed.
Lemma removes_read_dir order p : removes P (read_dir order p).
Proof.
  apply removes_atomically, removes_bind; [apply removes_get |]. intros s.
  destruct (lookup_node p s) as [[| i] |]; [apply removes_ret | apply removes_throw ..].
Qed.

Lemma removed_delete s p : P p → removed P s (set_nodes (delete p) s).
Proof.
  intros Hp q. simpl. destruct (decide (p = q)) as [-> |]; [right | left; by apply lookup_delete_ne].
  by rewrite lookup_delete_eq.
Qed.
Lemma removed_cut s d : (∀ q, d `prefix_of` q → P q) → removed P s (set_nodes (cut_tree d) s).
Proof.
  intros Hd q. simpl. unfold cut_tree. destruct (decide (d `prefix_of` q)) as [Hq | Hq].
  - right. split; [by apply Hd |]. apply map_lookup_filter_None. right. intros n _ Hn. by apply Hn.
  - left. destruct (fs_nodes s !! q) as [n |] eqn:Hn; [by apply map_lookup_filter_Some |].
    apply map_lookup_filter_None. by left.
Qed.

Lemma removes_remove_file p : P (norm p) → removes P (remove_file p).
Proof.
  intros Hp. apply removes_atomically, removes_bind; [apply removes_get |]. intros s.
  destruct (lookup_node p s) as [[| i] |]; [apply removes_throw | | apply removes_throw].
  apply removes_modify. intros s'. by apply removed_delete.
Qed.
Lemma removes_remove_dir p : (last p ≠ Some (str ".") → P (norm p)) → removes P (remove_dir p).
Proof.
  intros Hp. apply removes_atomically, removes_bind; [apply removes_get |]. intros s.
  destruct (lookup_node p s) as [[| i] |]; [| apply removes_throw ..].
  case_bool_decide as Hdot; [apply removes_throw |]. case_bool_decide; [| apply removes_throw].
  apply removes_modify. intros s'. by apply removed_delete, Hp.
Qed.
Lemma removes_remove_dir_all order p : (∀ q, norm p `prefix_of` q → P q) → removes P (remove_dir_all order p).
Proof.
  intros Hp. apply removes_bind; [apply removes_next |]. intros f. apply removes_bind; [apply removes_get |]. intros s.
  destruct f as [f |].
  - apply removes_bind; [| intros []; apply removes_throw]. apply removes_modify. intros s'.
    assert (∀ (l : list bytes) m, removed P s' (set_nodes (λ _, m) s') →
      removed P s' (set_nodes (λ _, foldl (λ m n, cut_tree (norm p ++ [n]) m) m l) s')) as Hl.
    { induction l as [| n l IH]; intros m Hm; [done |]. apply IH. transitivity (set_nodes (λ _, m) s'); [done |].
      apply (removed_cut (set_nodes (λ _, m) s') (norm p ++ [n])). intros q Hq. apply Hp.
      etransitivity; [by apply prefix_app_r | exact Hq]. }
    apply (Hl _ (fs_nodes s')). intros q. by left.
  - destruct (lookup_node p s) as [[| i] |]; [| apply removes_throw ..]. apply removes_modify. intros s'. by apply removed_cut.
Qed.
End Removes.

#[export] Hint Resolve removes_ret removes_throw removes_get removes_next removes_is_dir removes_read_dir : ozd.

(** ** Deletion stays inside *)

Section Deletion.
Context (order : list bytes → list bytes) (snapshot_dir : option path) (data_paths : list path).

(** Strictly below a directory of snapshots. *)
Definition inside (q : path) : Prop :=
  ∃ dp, dp ∈ data_paths ∧ ∃ c r, q = norm (snap_root_for snapshot_dir dp) ++ c :: r.

Lemma snapshots_plain : plain_name (str "snapshots").
Proof. split_and!; [done | apply (bool_decide_unpack _); vm_compute; exact I | done | done]. Qed.
Lemma shard_name_plain i : plain_name (str "shard-" ++ show (Z.of_nat i)).
Proof.
  split_and!; [done | | done | done]. intros [H | H]%elem_of_app.
  - revert H. apply (bool_decide_unpack _). vm_compute. exact I.
  - destruct (show_digits (Z.of_nat i)) as (_ & Hd & _); [lia |]. rewrite Forall_forall in Hd. apply Hd in H.
    revert H. unfold decimal. vm_compute. intuition congruence.
Qed.

(** What the check of an id lets through. *)
Definition checked_id (id : bytes) : Prop := plain_name id ∨ id = str ".".
Lemma id_check id :
  bool_decide (id = []) || bool_decide (x2f ∈ id) || contains (str "..") id = false → checked_id id.
Proof.
  intros [[Hne%bool_decide_eq_false Hs%bool_decide_eq_false]%orb_false_iff Hc]%orb_false_iff.
  destruct (decide (id = str ".")) as [| Hd]; [by right |]. left. split_and!; [done.. |]. intros ->. done.
Qed.
Lemma norm_push_dot p : norm (push p (str ".")) = norm p ∧ last (push p (str ".")) = Some (str ".").
Proof. change (push p (str ".")) with (p ++ [str "."]). rewrite norm_snoc, last_snoc. done. Qed.

(** The directory of a snapshot is below the root, or is it, for the id ".". *)
Lemma snap_path_below dp id i :
  dp ∈ data_paths → checked_id id →
  (inside (norm (snap_path_for snapshot_dir dp id i))) ∨
  (last (snap_path_for snapshot_dir dp id i) = Some (str ".") ∧
   norm (snap_path_for snapshot_dir dp id i) = norm (snap_root_for snapshot_dir dp)).
Proof.
  intros Hdp Hid. unfold inside, snap_path_for, snap_root_for. destruct snapshot_dir as [dir |].
  - left. exists dp. split; [done |]. rewrite norm_plain by apply shard_name_plain. destruct Hid as [Hid | ->].
    + rewrite norm_plain, <-app_assoc by done. simpl. eauto.
    + rewrite (proj1 (norm_push_dot _)). eauto.
  - destruct Hid as [Hid | ->].
    + left. exists dp. split; [done |]. rewrite (norm_plain _ id) by done. eauto.
    + right. destruct (norm_push_dot (push dp (str "snapshots"))) as [-> ->]. done.
Qed.

Lemma inside_below q c : inside q → inside (q ++ c).
Proof. intros (dp & Hdp & c0 & r & ->). exists dp. split; [done |]. rewrite <-app_assoc. simpl. eauto. Qed.

Lemma child_of_app d n q : child_of d q = Some n → q = d ++ [n].
Proof.
  unfold child_of. case_bool_decide as Hp; [| done]. destruct Hp as [r ->]. rewrite drop_app_length.
  destruct r as [| n' [| ? ?]]; [done | | done]. by intros [= ->].
Qed.

Lemma children_spec d s n : n ∈ children d s ↔ ∃ x, fs_nodes s !! (d ++ [n]) = Some x.
Proof.
  unfold children. rewrite list_elem_of_omap. split.
  - intros ([q x] & Hin & Hc). apply child_of_app in Hc. simpl in Hc. subst q. exists x. by apply elem_of_map_to_list.
  - intros [x Hx]. exists (d ++ [n], x). split; [by apply elem_of_map_to_list |]. unfold child_of. simpl.
    rewrite bool_decide_eq_true_2 by by exists [n]. by rewrite drop_app_length.
Qed.

Context (order_perm : ∀ l, order l ≡ₚ l).

Lemma wp_read_dir p s (Q : result bytes (list bytes) → fs → Prop) :
  tidy_fs s →
  (∀ names s', fs_nodes s' = fs_nodes s → names ≡ₚ children (norm p) s → Forall plain_name names → Q (Ok names) s') →
  (∀ e s', fs_nodes s' = fs_nodes s → Q (Err e) s') → wp (read_dir order p) Q s.
Proof.
  intros Ht HO HE. unfold read_dir, atomically. wp_step. unfold wp at 1, next_fault. cbn [fst snd].
  destruct (match fs_faults s with f :: _ => f | [] => None end) as [f |]; [apply wp_throw; by apply HE |].
  wp_step. apply wp_get. destruct (lookup_node p _) as [[| i] |]; [| apply wp_throw; by apply HE ..].
  apply wp_ret. apply HO; [done | apply order_perm |]. apply Forall_forall. intros n. rewrite order_perm, children_spec.
  intros [x Hx]. apply (Ht _ _), Forall_app in Hx as [_ Hx]. by apply Forall_cons in Hx as [? _].
Qed.

Lemma removed_same P s s' : fs_nodes s' = fs_nodes s → removed P s s'.
Proof. intros H q. left. by rewrite H. Qed.

Lemma removes_delete_shard id acc shard :
  shard.2 ∈ data_paths → checked_id id → removes inside (delete_shard order snapshot_dir id acc shard).
Proof.
  intros Hdp Hid. unfold delete_shard. set (sd := snap_path_for _ _ _ _). apply removes_bind; [auto with ozd |]. intros [|]; [| auto with ozd].
  pose proof (snap_path_below _ id shard.1 Hdp Hid) as Hsd. fold sd in Hsd.
  assert (∀ n, plain_name n → inside (norm (push sd n))) as Hin.
  { intros n Hn. rewrite norm_plain by done. destruct Hsd as [Hsd | [_ Hsd]]; [by apply inside_below |].
    rewrite Hsd. exists shard.2. split; [done |]. eauto. }
  apply removes_bind.
  - intros s Ht. wp_step. apply wp_read_dir; [done | |].
    + intros names s1 H1 _ Hnames. apply wp_removes with (P := inside); [exact (removed_tidy _ _ _ (removed_same inside _ _ H1) Ht) | |].
      * apply removes_fold. intros n name Hname. apply removes_catch; [| intros; auto with ozd].
        apply removes_remove_file, Hin. rewrite Forall_forall in Hnames. by apply Hnames.
      * intros r s2 H2 _. etransitivity; [by apply removed_same | exact H2].
    + intros e s1 H1. apply wp_ret. by apply removed_same.
  - intros files. apply removes_catch; [| intros; auto with ozd]. apply removes_remove_dir. intros Hlast.
    by destruct Hsd as [? | [? _]].
Qed.

(** C38. Whatever the id that a client sends and whatever calls of the system
    fail, the deletion of a snapshot removes nothing but paths strictly below
    the directories of snapshots, and changes and creates nothing. *)
Theorem delete_stays_inside id s r s' :
  tidy_fs s → delete_snapshot order snapshot_dir data_paths id s = (r, s') →
  ∀ q, fs_nodes s' !! q = fs_nodes s !! q ∨ (inside q ∧ fs_nodes s' !! q = None).
Proof.
  intros Ht Hrun. revert r s' Hrun.
  enough (removes inside (delete_snapshot order snapshot_dir data_paths id)) as H.
  { intros r s' Hrun. exact (wp_run _ _ _ _ _ (H s Ht) Hrun). }
  unfold delete_snapshot. destruct id as [id |]; [| auto with ozd]. destruct (_ || _) eqn:Hid; [auto with ozd |]. apply id_check in Hid.
  apply removes_bind; [| intros; auto with ozd]. apply removes_fold. intros acc [i dp] Hin. apply removes_delete_shard; [| done].
  apply elem_of_lookup_imap in Hin as (j & dp' & [= -> ->] & Hj). by eapply list_elem_of_lookup_2.
Qed.
End Deletion.

(** * Retention keeps the newest snapshots

    Names that have [keep] newer ones go, the others stay, whatever fails. *)

Lemma filter_every {A} (P : A → Prop) `{!∀ x, Decision (P x)} (l : list A) : (∀ x, x ∈ l → P x) → filter P l = l.
Proof.
  induction l as [| x l IH]; intros Hall; [done |]. rewrite filter_cons_True by (apply Hall; left). f_equal. apply IH. intros y Hy. apply Hall. by right.
Qed.
Lemma filter_none {A} (P : A → Prop) `{!∀ x, Decision (P x)} (l : list A) : (∀ x, x ∈ l → ¬ P x) → filter P l = [].
Proof.
  induction l as [| x l IH]; intros Hall; [done |]. rewrite filter_cons_False by (apply Hall; left). apply IH. intros y Hy. apply Hall. by right.
Qed.

(** ** Sorted names *)

#[global] Instance bytes_le_total : Total bytes_le.
Proof.
  intros x y. destruct (decide (bytes_le x y)) as [|H]; [by left |]. right. by apply bytes_lt_le, bytes_nle_lt.
Qed.

Lemma sort_strict (l : list bytes) : NoDup l → StronglySorted bytes_lt (merge_sort bytes_le l).
Proof.
  intros Hnd. pose proof (StronglySorted_merge_sort bytes_le l) as Hs.
  assert (NoDup (merge_sort bytes_le l)) as Hnd' by (by rewrite merge_sort_Permutation).
  induction Hs as [| x l' Hs IH Hall]; [constructor |]. apply NoDup_cons in Hnd' as [Hx Hnd'].
  constructor; [by apply IH |]. rewrite Forall_forall in Hall. apply Forall_forall. intros y Hy.
  destruct (proj1 (bytes_le_lteq x y) (Hall y Hy)) as [| ->]; done.
Qed.

(** The names behind the first ones of a sorted list. *)
Lemma front_has_newer (l : list bytes) k x :
  StronglySorted bytes_lt l →
  x ∈ take (length l - k) l ↔ x ∈ l ∧ (k ≤ length (filter (bytes_lt x) l))%nat.
Proof.
  induction l as [| y l IH]; intros Hs; simpl; [split; [by intros ?%not_elem_of_nil | by intros [?%not_elem_of_nil _]] |].
  apply StronglySorted_inv in Hs as [Hs Hall]. specialize (IH Hs). rewrite Forall_forall in Hall.
  assert (∀ z, length (filter (bytes_lt z) l) ≤ length l)%nat as Hle by (intros; apply length_filter).
  destruct (decide (x = y)) as [-> | Hxy].
  - rewrite filter_cons_False by apply bytes_lt_irrefl.
    assert (filter (bytes_lt y) l = l) as Hf.
    { apply filter_every. exact Hall. }
    rewrite Hf. split.
    + intros Hin. split; [left |]. destruct (decide (S (length l) ≤ k)%nat); [| lia].
      replace (S (length l) - k)%nat with 0%nat in Hin by lia. by apply not_elem_of_nil in Hin.
    + intros [_ Hk]. replace (S (length l) - k)%nat with (S (length l - k)) by lia. left.
  - split.
    + intros Hin. destruct (S (length l) - k)%nat as [| n] eqn:Hn; [by apply not_elem_of_nil in Hin |].
      apply elem_of_cons in Hin as [? | Hin]; [done |]. replace n with (length l - k)%nat in Hin by lia.
      apply IH in Hin as [Hin Hk]. split; [by right |]. rewrite filter_cons. case_decide; simpl; lia.
    + intros [[? | Hin]%elem_of_cons Hk]; [done |]. rewrite filter_cons_False in Hk.
      2: { intros Hlt. apply (bytes_lt_irrefl x). eapply bytes_lt_trans; [exact Hlt | by apply Hall]. }
      specialize (Hle x). replace (S (length l) - k)%nat with (S (length l - k)) by lia. right. by apply IH.
Qed.

Section Retention.
Context (order : list bytes → list bytes) (order_perm : ∀ l, order l ≡ₚ l).
Context (snapshot_dir : option path) (dp0 : path) (more_paths : list path).
Local Abbreviation data_paths := (dp0 :: more_paths).
Implicit Types (s : fs).

(** ** The snapshots there are *)

Definition names_of s (names : list bytes) : list bytes :=
  map from_utf8_lossy (subdirs (snap_root_for snapshot_dir dp0) names s).
Definition snapshot_names s : list bytes := names_of s (children (norm (snap_root_for snapshot_dir dp0)) s).
(** The names are text. *)
Definition readable_names s : Prop := Forall utf8 (children (norm (snap_root_for snapshot_dir dp0)) s).
Definition newer s (id : bytes) : list bytes := filter (bytes_lt id) (snapshot_names s).

(** The paths of a snapshot, on all shards. *)
Definition in_snapshot (id : bytes) (q : path) : Prop :=
  ∃ i dp, data_paths !! i = Some dp ∧ norm (snap_path_for snapshot_dir dp id i) `prefix_of` q.

Lemma children_NoDup d s : NoDup (children d s).
Proof.
  unfold children. pose proof (NoDup_map_to_list (fs_nodes s)) as Hnd.
  assert (∀ x y n, x ∈ map_to_list (fs_nodes s) → y ∈ map_to_list (fs_nodes s) → child_of d x.1 = Some n →
    child_of d y.1 = Some n → x = y) as Hinj.
  { intros [q x] [q' y] n Hx%elem_of_map_to_list Hy%elem_of_map_to_list Hq%child_of_app Hq'%child_of_app.
    simpl in *. subst. congruence. }
  induction Hnd as [| x l Hx Hnd IH]; simpl; [constructor |].
  destruct (child_of d x.1) as [n |] eqn:Hn.
  - constructor; [| apply IH; intros; eapply Hinj; [by right | by right | done | done]].
    intros (y & Hy & Hny)%list_elem_of_omap. destruct Hx. rewrite (Hinj x y n); [done | left | by right | done | done].
  - apply IH. intros. eapply Hinj; [by right | by right | done | done].
Qed.

Lemma names_of_read s names :
  readable_names s → names ≡ₚ children (norm (snap_root_for snapshot_dir dp0)) s →
  merge_sort bytes_le (names_of s names) = merge_sort bytes_le (snapshot_names s) ∧ NoDup (snapshot_names s).
Proof.
  intros Hr Hp. assert (∀ l, Forall utf8 l → map from_utf8_lossy l = l) as Hid.
  { clear. induction 1 as [| x l Hx _ IH]; [done |]. simpl. by rewrite Hx, IH. }
  assert (NoDup (snapshot_names s)) as Hnd.
  { unfold snapshot_names, names_of. rewrite Hid; [apply NoDup_filter, children_NoDup |]. unfold readable_names in Hr. rewrite Forall_forall in *.
    intros n [_ Hn]%list_elem_of_filter. by apply Hr. }
  split; [| done]. apply (Sorted_unique bytes_le).
  - apply Sorted_merge_sort, _.
  - apply Sorted_merge_sort, _.
  - rewrite !merge_sort_Permutation. unfold snapshot_names, names_of, subdirs. by rewrite Hp.
Qed.

Lemma names_of_same s s' names : fs_nodes s' = fs_nodes s → names_of s' names = names_of s names.
Proof. intros H. unfold names_of, subdirs, lookup_node. by rewrite H. Qed.

(** A name has at least [k] newer ones. *)
Definition outdated (k : Z) s (id : bytes) : Prop := id ∈ snapshot_names s ∧ (k <= Z.of_nat (length (newer s id)))%Z.

#[global] Instance outdated_dec k s id : Decision (outdated k s id).
Proof. unfold outdated. apply _. Defined.

Lemma to_delete_spec k s names :
  (1 <= k)%Z → readable_names s → names ≡ₚ children (norm (snap_root_for snapshot_dir dp0)) s →
  let ids := merge_sort bytes_le (names_of s names) in
  ∀ id, id ∈ take (length ids - Z.to_nat k) ids ↔ outdated k s id.
Proof.
  intros Hk Hr Hp ids id. unfold ids. destruct (names_of_read s names Hr Hp) as [-> Hnd].
  rewrite front_has_newer by by apply sort_strict. unfold outdated, newer.
  assert (length (filter (bytes_lt id) (merge_sort bytes_le (snapshot_names s))) = length (filter (bytes_lt id) (snapshot_names s))) as ->.
  { by rewrite merge_sort_Permutation. }
  rewrite merge_sort_Permutation. split; intros [? ?]; (split; [done | lia]).
Qed.

(** The snapshots that stay: the last [k], or all there are. *)
Definition remaining (k : Z) s : list bytes := filter (λ id, ¬ outdated k s id) (snapshot_names s).

Lemma length_remaining k s : (1 <= k)%Z → readable_names s → length (remaining k s) = Nat.min (Z.to_nat k) (length (snapshot_names s)).
Proof.
  intros Hk Hr. pose proof (to_delete_spec k s _ Hk Hr (reflexivity _)) as Hd. cbv zeta in Hd. fold (snapshot_names s) in Hd.
  destruct (names_of_read s _ Hr (reflexivity _)) as [_ Hnd]. unfold remaining.
  set (l := merge_sort bytes_le (snapshot_names s)) in *. assert (l ≡ₚ snapshot_names s) as Hl by apply merge_sort_Permutation.
  rewrite <-Hl in Hnd |- *. rewrite <-(take_drop (length l - Z.to_nat k) l) in Hnd. apply NoDup_app in Hnd as (_ & Hdis & _).
  rewrite <-(take_drop (length l - Z.to_nat k) l) at 1. rewrite filter_app, length_app.
  assert (filter (λ id, ¬ outdated k s id) (take (length l - Z.to_nat k) l) = []) as ->.
  { apply filter_none. intros id Hid Hno. by apply Hno, Hd. }
  assert (filter (λ id, ¬ outdated k s id) (drop (length l - Z.to_nat k) l) = drop (length l - Z.to_nat k) l) as ->.
  { apply filter_every. intros id Hid Hod%Hd. by apply (Hdis id). }
  rewrite length_drop. cbn [length]. lia.
Qed.

(** What goes is not newer than what stays. *)
Lemma kept_is_newer k s id id' : outdated k s id → id' ∈ remaining k s → bytes_lt id id'.
Proof.
  intros [Hin Hk] [Hno Hin']%list_elem_of_filter. apply bytes_nle_lt. intros Hle. apply Hno. split; [done |].
  etransitivity; [exact Hk |]. apply inj_le. unfold newer. clear -Hle. induction (snapshot_names s) as [| x l IH]; [done |].
  rewrite !filter_cons. destruct (decide (bytes_lt id' x)) as [| Hx]; destruct (decide (bytes_lt id x)); cbn; try lia.
  destruct Hx. apply bytes_le_lteq in Hle as [Hlt | <-]; [| done].
  by eapply bytes_lt_trans.
Qed.

Lemma kept_is_later k s id id' t n t' n' :
  outdated k s id → id' ∈ remaining k s → id = snapshot_id t n → id' = snapshot_id t' n' →
  (0 <= t' < TIME_END)%Z → (0 <= t < TIME_END)%Z → (t <= t')%Z.
Proof.
  intros Hod Hk -> -> Ht' Ht. pose proof (kept_is_newer _ _ _ _ Hod Hk) as Hlt. destruct (Z.le_gt_cases t t'); [done |].
  destruct (snapshot_names_tell_the_time t' n' Ht') as [_ Hn]. destruct (bytes_lt_irrefl (snapshot_id t n)).
  eapply bytes_lt_trans; [exact Hlt |]. apply Hn. lia.
Qed.

(** ** What is dropped *)

Lemma removes_drop_shard P id shard :
  (∀ q, norm (snap_path_for snapshot_dir shard.2 id shard.1) `prefix_of` q → P q) →
  removes P (drop_shard order snapshot_dir id shard).
Proof.
  intros HP. unfold drop_shard. apply removes_bind; [auto with ozd |]. intros [|]; [| auto with ozd].
  apply removes_catch; [| intros; auto with ozd]. by apply removes_remove_dir_all.
Qed.

Lemma removes_drop_snapshot P id :
  (∀ q, in_snapshot id q → P q) → removes P (drop_snapshot order snapshot_dir data_paths id).
Proof.
  intros HP. apply removes_iter. intros [i dp] Hin. apply removes_drop_shard. intros q Hq. apply HP.
  apply elem_of_lookup_imap in Hin as (j & dp' & [= -> ->] & Hj). by exists j, dp'.
Qed.

(** Two snapshots share no path: no data path is below another one. *)
Definition apart : Prop :=
  ∀ dp dp', dp ∈ data_paths → dp' ∈ data_paths → norm dp `prefix_of` norm dp' → norm dp = norm dp'.

Lemma prefix_snoc2 (l l' q : path) a b a' b' :
  l ++ [a; b] `prefix_of` q → l' ++ [a'; b'] `prefix_of` q → (length l ≤ length l')%nat → l `prefix_of` l' ∧ (l = l' → a = a' ∧ b = b').
Proof.
  intros [r ->] [r' Hr'] Hle. rewrite <-!app_assoc in Hr'. split.
  - apply (f_equal (take (length l))) in Hr'. rewrite take_app_length, take_app_le in Hr' by done.
    exists (drop (length l) l'). rewrite Hr' at 1. by rewrite take_drop.
  - intros <-. apply app_inv_head in Hr'. simpl in Hr'. by injection Hr' as -> -> _.
Qed.

Lemma snapshots_disjoint id id' q :
  apart → plain_name id → plain_name id' → in_snapshot id q → in_snapshot id' q → id = id'.
Proof.
  intros Ha Hid Hid' (i & dp & Hdp & Hq) (i' & dp' & Hdp' & Hq'). unfold snap_path_for in *. destruct snapshot_dir as [dir |].
  - rewrite !norm_plain, <-app_assoc in Hq, Hq' by (done || apply shard_name_plain).
    destruct (prefix_snoc2 _ _ _ _ _ _ _ Hq Hq' (Nat.le_refl _)) as [_ H]. by destruct H.
  - rewrite !norm_plain, <-app_assoc in Hq, Hq' by (done || apply snapshots_plain).
    apply list_elem_of_lookup_2 in Hdp, Hdp'. destruct (Nat.le_ge_cases (length (norm dp)) (length (norm dp'))) as [Hle | Hle].
    + destruct (prefix_snoc2 _ _ _ _ _ _ _ Hq Hq' Hle) as [Hp H]. apply H. by apply Ha.
    + destruct (prefix_snoc2 _ _ _ _ _ _ _ Hq' Hq Hle) as [Hp H]. destruct H; [by apply Ha | done].
Qed.

(** Without faults a tree whose root is a directory goes as a whole. *)
Definition rooted s : Prop := ∀ q r n, q ≠ [] → fs_nodes s !! (q ++ r) = Some n → is_Some (fs_nodes s !! q).
Definition gone s0 (d : path) s : Prop :=
  fs_nodes s0 !! d = Some Dir → ∀ q, d `prefix_of` q → fs_nodes s !! q = None.

(** Since [s0] trees have been cut, and no call fails. *)
Record cutting s0 s : Prop := {
  ct_calm : fs_faults s = [];
  ct_rooted : rooted s;
  ct_part : ∀ q n, fs_nodes s !! q = Some n → fs_nodes s0 !! q = Some n;
}.

Lemma cut_lookup d m q : cut_tree d m !! q = if decide (d `prefix_of` q) then None else m !! q.
Proof.
  unfold cut_tree. case_decide as Hq.
  - apply map_lookup_filter_None. right. intros n _ Hn. by apply Hn.
  - destruct (m !! q) as [n |] eqn:Hn; [by apply map_lookup_filter_Some |]. apply map_lookup_filter_None. by left.
Qed.

Lemma wp_drop_shard s0 id shard s :
  cutting s0 s → norm (snap_path_for snapshot_dir shard.2 id shard.1) ≠ [] →
  wp (drop_shard order snapshot_dir id shard) (λ r s', r = Ok tt ∧ cutting s0 s' ∧
    gone s0 (norm (snap_path_for snapshot_dir shard.2 id shard.1)) s' ∧
    ∀ d, gone s0 d s → gone s0 d s') s.
Proof.
  intros [Hf Hr Hp] Hne. unfold drop_shard. set (sd := snap_path_for _ _ _ _) in *.
  unfold wp, mthen, is_dir, mcatch, remove_dir_all, mthen, mget, next_fault, mret, mmodify. rewrite Hf. cbn [fst snd fs_faults tail].
  assert (∀ t, lookup_node sd {| fs_nodes := fs_nodes s; fs_inodes := fs_inodes s; fs_faults := t |} = fs_nodes s !! norm sd) as Hl.
  { intros t. unfold lookup_node. by destruct (norm sd). }
  rewrite Hl. case_bool_decide as Hd.
  - destruct Hd as [_ Hd]. rewrite Hl, Hd. cbn [fst snd]. split; [done |]. unfold gone. simpl. split.
    + split; simpl; [done | |].
      * intros q r n Hq Hn. cbn [set_nodes fs_nodes] in *. rewrite cut_lookup in Hn |- *. case_decide as Hqr; [done |].
        rewrite decide_False; [by eapply Hr |]. intros H. apply Hqr. by apply prefix_app_r.
      * intros q n Hn. rewrite cut_lookup in Hn. case_decide; [done | by apply Hp].
    + split; [intros _ q Hq; rewrite cut_lookup; by rewrite decide_True |].
      intros d Hg H0 q Hq. rewrite cut_lookup. case_decide; [done | by apply Hg].
  - cbn [fst snd]. split; [done |]. split; [by split |]. split; [| done]. intros H0 q [r ->].
    destruct (fs_nodes s !! (norm sd ++ r)) as [n |] eqn:Hn; simpl; [| done]. destruct (Hr _ _ _ Hne Hn) as [n' Hn'].
    apply Hp in Hn' as Hn0. rewrite H0 in Hn0. injection Hn0 as <-. by destruct Hd.
Qed.

Lemma snapshot_name_plain s id : tidy_fs s → readable_names s → id ∈ snapshot_names s → plain_name id.
Proof.
  intros Ht Hr Hin. apply list_elem_of_fmap in Hin as (n & -> & [_ Hn]%list_elem_of_filter).
  unfold readable_names in Hr. rewrite Forall_forall in Hr. rewrite (Hr n Hn). apply children_spec in Hn as [x Hx].
  apply Ht, Forall_app in Hx as [_ Hx]. by apply Forall_cons in Hx as [? _].
Qed.

Lemma snap_path_norm id dp i : plain_name id → norm (snap_path_for snapshot_dir dp id i) ≠ [].
Proof.
  intros Hid. unfold snap_path_for. destruct snapshot_dir as [dir |];
    rewrite norm_plain by (done || apply shard_name_plain); intros H; apply (f_equal length) in H; rewrite length_app in H; simpl in H; lia.
Qed.

Lemma removes_retention k s :
  (1 <= k)%Z → tidy_fs s → readable_names s →
  wp (delete_old_snapshots order snapshot_dir data_paths (Some k))
    (λ _ s', removed (λ q, ∃ id, outdated k s id ∧ in_snapshot id q) s s') s.
Proof.
  intros Hk Ht Hr. unfold delete_old_snapshots. rewrite (proj2 (Z.ltb_ge _ _)) by done. unfold reply. do 2 wp_step.
  apply wp_read_dir; [done | done | |].
  2: { intros e s1 H1. wp_step. wp_step. by apply removed_same. }
  intros names s1 H1 Hp _. wp_step. apply wp_get. pose proof (names_of_same s s1 names H1) as Hn. unfold names_of in Hn. rewrite Hn.
  pose proof (to_delete_spec k s names Hk Hr Hp) as Hdel. simpl in Hdel. unfold names_of in Hdel.
  destruct (_ <=? _)%Z; [by wp_step; wp_step; apply removed_same |]. wp_step.
  apply (wp_removes (λ q, ∃ id, outdated k s id ∧ in_snapshot id q)); [exact (removed_tidy _ _ _ (removed_same (λ _, False) _ _ H1) Ht) | |].
  { apply removes_iter. intros id Hid. apply removes_drop_snapshot. intros q Hq. exists id. split; [by apply Hdel | done]. }
  intros r s2 H2 _. assert (removed (λ q, ∃ id, outdated k s id ∧ in_snapshot id q) s s2) as H.
  { etransitivity; [by apply removed_same | exact H2]. }
  destruct r as [[] | e]; by repeat wp_step.
Qed.

Lemma wp_retention_calm k s :
  (1 <= k)%Z → tidy_fs s → readable_names s → fs_faults s = [] → rooted s →
  lookup_node (snap_root_for snapshot_dir dp0) s = Some Dir →
  wp (delete_old_snapshots order snapshot_dir data_paths (Some k)) (λ r s',
    (∃ rep, r = Ok (Json rep) ∧ ∀ id, id ∈ sx_deleted_ids rep ↔ outdated k s id) ∧
    ∀ id i dp, outdated k s id → data_paths !! i = Some dp → gone s (norm (snap_path_for snapshot_dir dp id i)) s') s.
Proof.
  intros Hk Ht Hr Hf Hrt Hroot. unfold delete_old_snapshots. rewrite (proj2 (Z.ltb_ge _ _)) by done. unfold reply. do 2 wp_step.
  unfold read_dir, atomically. wp_step. unfold wp at 1, next_fault. rewrite Hf. cbn [fst snd tail]. wp_step. apply wp_get.
  set (s1 := {| fs_nodes := fs_nodes s; fs_inodes := fs_inodes s; fs_faults := [] |}).
  change (lookup_node (snap_root_for snapshot_dir dp0) s1) with (lookup_node (snap_root_for snapshot_dir dp0) s). rewrite Hroot. wp_step.
  assert (order (children (norm (snap_root_for snapshot_dir dp0)) s1) ≡ₚ children (norm (snap_root_for snapshot_dir dp0)) s) as Hp
    by apply order_perm.
  set (names := order _) in *. wp_step. apply wp_get.
  pose proof (names_of_same s s1 names eq_refl) as Hn. unfold names_of in Hn. rewrite Hn.
  pose proof (to_delete_spec k s names Hk Hr Hp) as Hdel. simpl in Hdel. unfold names_of in Hdel.
  set (ids := merge_sort bytes_le _) in *. destruct (Z.leb_spec (Z.of_nat (length ids)) k) as [Hle | Hgt].
  { assert (∀ id, ¬ outdated k s id) as Hno.
    { intros id Hid%Hdel. replace (length ids - Z.to_nat k)%nat with 0%nat in Hid by lia. by apply not_elem_of_nil in Hid. }
    wp_step. wp_step. split; [| intros id i dp Hid; by destruct (Hno id)]. eexists. split; [done |].
    intros id. simpl. split; [by intros ?%not_elem_of_nil | intros Hid; by destruct (Hno id)]. }
  wp_step.
  eapply wp_mono.
  { apply (wp_iter_all (cutting s) (λ id s', ∀ i dp, data_paths !! i = Some dp → gone s (norm (snap_path_for snapshot_dir dp id i)) s')).
    - split; [done | exact Hrt | done].
    - intros id s2 Hid C2. apply Hdel in Hid as Hod. pose proof (snapshot_name_plain s id Ht Hr (proj1 Hod)) as Hpl.
      eapply wp_mono.
      { apply (wp_iter_all (λ s3, cutting s s3 ∧ ∀ d, gone s d s2 → gone s d s3)
          (λ x s', gone s (norm (snap_path_for snapshot_dir x.2 id x.1)) s')); [done |].
        intros [i dp] s3 _ [C3 K3]. eapply wp_mono; [apply wp_drop_shard; [exact C3 | by apply snap_path_norm] |].
        intros r s4 (-> & C4 & Hg & Hkeep). split_and!; [done | done | by auto | done |]. intros b. apply Hkeep. }
      intros r s3 (-> & [C3 K3] & Hg & _). split_and!; [done | done | |].
      + intros i dp Hi. apply (Hg (i, dp)). apply elem_of_lookup_imap. by exists i, dp.
      + intros id' Hg' i dp Hi. apply K3. by apply Hg'. }
  intros r s2 (-> & _ & Hg & _). wp_step. wp_step. split.
  - eexists. split; [done |]. exact Hdel.
  - intros id i dp Hid Hi. apply Hg; [by apply Hdel | done].
Qed.

(** C39. Retention of the last [k] snapshots: whatever calls of the system
    fail, it removes nothing but snapshots that are behind the [k] last names,
    and creates and changes nothing. The [k] snapshots that stay (all of them,
    when there are fewer) keep every path, and none of them was taken in an
    earlier second than one that goes: the names sort by the second, and
    within one second by the low bits of the nanoseconds, not by time. Without
    failures it reports and removes, on every shard, all the others. *)
Theorem retention_keeps_the_newest k s r s' :
  (1 <= k)%Z → tidy_fs s → readable_names s → apart →
  delete_old_snapshots order snapshot_dir data_paths (Some k) s = (r, s') →
  (∀ q, fs_nodes s' !! q = fs_nodes s !! q ∨ (∃ id, outdated k s id ∧ in_snapshot id q) ∧ fs_nodes s' !! q = None) ∧
  length (remaining k s) = Nat.min (Z.to_nat k) (length (snapshot_names s)) ∧
  (∀ id q, id ∈ remaining k s → in_snapshot id q → fs_nodes s' !! q = fs_nodes s !! q) ∧
  (∀ id id' t n t' n', outdated k s id → id' ∈ remaining k s → id = snapshot_id t n → id' = snapshot_id t' n' →
     (0 <= t' < TIME_END)%Z → (0 <= t < TIME_END)%Z → (t <= t')%Z) ∧
  (fs_faults s = [] → rooted s → lookup_node (snap_root_for snapshot_dir dp0) s = Some Dir →
   (∃ rep, r = Ok (Json rep) ∧ ∀ id, id ∈ sx_deleted_ids rep ↔ outdated k s id) ∧
   ∀ id i dp, outdated k s id → data_paths !! i = Some dp → gone s (norm (snap_path_for snapshot_dir dp id i)) s').
Proof.
  intros Hk Ht Hr Ha Hrun. pose proof (wp_run _ _ _ _ _ (removes_retention k s Hk Ht Hr) Hrun) as H1.
  split_and!; [exact H1 | by apply length_remaining | | by apply kept_is_later |].
  - intros id q [Hno Hid]%list_elem_of_filter Hq. destruct (H1 q) as [| [(id' & Hod & Hq') _]]; [done |]. destruct Hno.
    assert (id = id') as ->; [| done]. eapply snapshots_disjoint; [done | | | done | done].
    + by eapply snapshot_name_plain.
    + eapply snapshot_name_plain; [done | done | by apply Hod].
  - intros Hf Hrt Hroot. exact (wp_run _ _ _ _ _ (wp_retention_calm k s Hk Ht Hr Hf Hrt Hroot) Hrun).
Qed.
End Retention.
