(* ===== verification/SnapshotDemo.v ===== *)
(** * Runs of the snapshots

    Two disks with three snapshots; a shared directory of snapshots; the
    layout that the engine really has. *)

From Stdlib Require Import ZArith Lia Strings.Byte.
From stdpp Require Import base list gmap strings sorting.
From S2P Require Import Prelude Text Fs Snapshot SnapshotFacts.
Open Scope Z_scope.

Definition fs_of (dirs : list path) (files : list (path * nat)) (inodes : gmap nat bytes) : fs :=
  {| fs_nodes := list_to_map (map (λ d, (d, Dir)) dirs ++ map (λ x, (x.1, File x.2)) files);
     fs_inodes := inodes; fs_faults := [] |}.

(** A check of every node of a file system. *)
Definition all_nodes (f : path → node → bool) (s : fs) : bool := forallb (λ x, f x.1 x.2) (map_to_list (fs_nodes s)).
Lemma all_nodes_spec f s q n : all_nodes f s = true → fs_nodes s !! q = Some n → f q n = true.
Proof.
  intros H Hq. unfold all_nodes in H. rewrite forallb_forall in H. apply (H (q, n)).
  by apply list_elem_of_In, elem_of_map_to_list.
Qed.
Lemma tidy_check s : all_nodes (λ q _, forallb (λ c, bool_decide (plain_name c)) q) s = true → tidy_fs s.
Proof.
  intros H q n Hn. pose proof (all_nodes_spec _ _ _ _ H Hn) as Hq. simpl in Hq. rewrite forallb_forall in Hq.
  apply Forall_forall. intros c Hc. apply (bool_decide_eq_true_1 (plain_name c)), Hq. by apply list_elem_of_In.
Qed.

Definition rooted_node (s : fs) (q : path) (_ : node) : bool :=
  forallb (λ m, bool_decide (is_Some (fs_nodes s !! take m q))) (seq 1 (length q)).
Lemma rooted_check s : all_nodes (rooted_node s) s = true → rooted s.
Proof.
  intros H q r n Hq Hn. pose proof (all_nodes_spec _ _ _ _ H Hn) as Hb. unfold rooted_node in Hb. rewrite forallb_forall in Hb.
  specialize (Hb (length q)). rewrite take_app_length in Hb. apply bool_decide_eq_true in Hb; [done |].
  apply list_elem_of_In, elem_of_seq. rewrite length_app. destruct q; [done | simpl; lia].
Qed.

Definition d0 : path := [str "d0"].
Definition d1 : path := [str "d1"].
Definition snap (d : path) (id : bytes) : path := d ++ [str "snapshots"; id].
Definition id_a : bytes := str "20250101-000000-0001".
Definition id_b : bytes := str "20250201-000000-0000".
Definition id_c : bytes := str "20250201-000001-0000".
Definition seg (d : path) : path := d ++ [str "seg.00000001.dat"].

Definition two_disks : fs :=
  fs_of [d0; d1; d0 ++ [str "snapshots"]; d1 ++ [str "snapshots"];
         snap d0 id_a; snap d0 id_b; snap d0 id_c; snap d1 id_a; snap d1 id_b; snap d1 id_c]
        [(seg d0, 1%nat); (seg (snap d0 id_a), 1%nat); (seg (snap d1 id_a), 2%nat); (seg (snap d0 id_c), 1%nat)]
        {[1%nat := [x01; x02]]}.

Lemma two_disks_tidy : tidy_fs two_disks.
Proof. apply tidy_check. vm_compute. reflexivity. Qed.

(** *** Deletion *)

Lemma delete_stays_inside_witness :
  let run := delete_snapshot id None [d0; d1] (Some id_a) two_disks in
  (∀ q, fs_nodes run.2 !! q = fs_nodes two_disks !! q ∨ (inside None [d0; d1] q ∧ fs_nodes run.2 !! q = None)) ∧
  run.1 = Ok (Json {| sd_id := id_a; sd_deleted_files := 2; sd_deleted_dirs := 2 |}).
Proof.
  cbv zeta. split; [| vm_compute; reflexivity].
  exact (delete_stays_inside id None [d0; d1] (λ l, reflexivity l) (Some id_a) two_disks _ _ two_disks_tidy (surjective_pairing _)).
Defined.

Example ids_that_leave_are_refused :
  (delete_snapshot id None [d0] (Some (str "../seg")) two_disks).1 = Ok (ErrorJson 400 (str "invalid snapshot id")) ∧
  (delete_snapshot id None [d0] (Some (str "/etc")) two_disks).1 = Ok (ErrorJson 400 (str "invalid snapshot id")) ∧
  (delete_snapshot id None [d0] (Some (str "x")) two_disks).1 = Ok (ErrorJson 404 (str "snapshot not found")).
Proof. vm_compute. done. Qed.

(** *** Retention *)

Lemma two_disks_readable : readable_names None d0 two_disks.
Proof. apply (bool_decide_unpack _). vm_compute. exact I. Qed.
Lemma two_disks_apart : apart d0 [d1].
Proof.
  intros dp dp' Hdp Hdp'. apply elem_of_cons in Hdp as [-> | ->%list_elem_of_singleton]; apply elem_of_cons in Hdp' as [-> | ->%list_elem_of_singleton];
    intros H; done || (exfalso; revert H; apply (bool_decide_unpack _); vm_compute; exact I).
Qed.

Lemma retention_keeps_the_newest_witness :
  let run := delete_old_snapshots id None [d0; d1] (Some 2) two_disks in
  fs_nodes run.2 !! seg (snap d0 id_c) = Some (File 1) ∧ fs_nodes run.2 !! seg (snap d1 id_a) = None ∧
  length (remaining None d0 2 two_disks) = 2%nat.
Proof.
  cbv zeta.
  assert (1 <= 2) as H12 by lia.
  assert (outdated None d0 2 two_disks id_a) as Ha by (apply (bool_decide_unpack _); vm_compute; exact I).
  assert (id_c ∈ remaining None d0 2 two_disks) as Hc by (apply (bool_decide_unpack _); vm_compute; exact I).
  assert (rooted two_disks) as Hrt by (apply rooted_check; vm_compute; reflexivity).
  destruct (retention_keeps_the_newest id (λ l, reflexivity l) None d0 [d1] 2 two_disks _ _ H12 two_disks_tidy two_disks_readable
    two_disks_apart (surjective_pairing _)) as (_ & Hlen & Hkeep & _ & Hgone). split_and!.
  - rewrite (Hkeep id_c _ Hc); [vm_compute; reflexivity |]. exists 0%nat, d0. split; [reflexivity |].
    apply (bool_decide_unpack _). vm_compute. exact I.
  - destruct (Hgone eq_refl Hrt eq_refl) as [_ Hg]. apply (Hg id_a 1%nat d1 Ha eq_refl eq_refl).
    apply (bool_decide_unpack _). vm_compute. exact I.
  - exact Hlen.
Defined.

(** In a shared directory of snapshots only the parts of the shards go: the
    deleted snapshot stays in the list, empty, and is deleted again by every
    later retention. *)
Definition shared : path := [str "snaps"].
Definition shared_disk : fs :=
  fs_of [d0; shared; shared ++ [id_a]; shared ++ [id_a; str "shard-0"]; shared ++ [id_b]; shared ++ [id_b; str "shard-0"]]
        [(seg (shared ++ [id_a; str "shard-0"]), 1%nat)] {[1%nat := [x01; x02]]}.
Example deleted_snapshot_is_still_listed :
  let s1 := (delete_snapshot id (Some shared) [d0] (Some id_a) shared_disk).2 in
  (list_snapshots id (Some shared) [d0] s1).1 =
    Ok (Json [{| sl_id := id_a; sl_created := id_a; sl_segments := 0; sl_bytes := 0 |};
              {| sl_id := id_b; sl_created := id_b; sl_segments := 0; sl_bytes := 0 |}]) ∧
  (delete_old_snapshots id (Some shared) [d0] (Some 1) s1).1 =
    Ok (Json {| sx_kept := 1; sx_deleted := 1; sx_deleted_ids := [id_a] |}).
Proof. vm_compute. done. Qed.

(** *** Creation *)

(** A segment in the data path itself is linked, and the link keeps the bytes
    when the segment goes. *)
Example linked_segment_outlives_its_name :
  let r := take_snapshot id None [d0] 0 7 (fs_of [d0] [(seg d0, 1%nat)] {[1%nat := [x01; x02]]}) in
  r.1 = Ok {| sn_id := str "19700101-000000-0007"; sn_shards := 1; sn_segments := 1; sn_bytes := 2;
              sn_path := str "snapshots/<id>/ inside each data_path" |} ∧
  (file_len (seg (snap d0 (str "19700101-000000-0007"))) (remove_file (seg d0) r.2).2).1 = Ok (Some 2).
Proof. vm_compute. done. Qed.

(** The engine keeps its segments one level deeper: nothing is linked. *)
Example snapshot_of_the_real_layout_is_empty :
  match (take_snapshot id None [d0] 0 7 (fs_of [d0; d0 ++ [str "seg"]] [(seg (d0 ++ [str "seg"]), 1%nat)] {[1%nat := [x01; x02]]})).1 with
  | Ok r => sn_segments r = 0%nat
  | Err _ => False
  end.
Proof. vm_compute. reflexivity. Qed.

(** Two snapshots of one second may have one name: the second links nothing. *)
Example same_name_links_nothing :
  let s0 := fs_of [d0] [(seg d0, 1%nat)] {[1%nat := [x01; x02]]} in
  match (take_snapshot id None [d0] 0 65543 (take_snapshot id None [d0] 0 7 s0).2).1 with
  | Ok r => sn_segments r = 0%nat
  | Err _ => False
  end.
Proof. vm_compute. reflexivity. Qed.
