(* ===== verification/Exposition.v ===== *)
(** * The Prometheus page (crates/ozd-app/src/metrics.rs, crates/ozd-admin/src/lib.rs)

    The text that [GET /metrics] answers: the gauges of every shard, then the
    counters and histograms of the pool. What a scraper reads back from it is
    what the pool counts.

    Second part: What a scraper reads from the metrics page. *)

From Stdlib Require Import ZArith Lia SpecFloat Strings.Byte.
From stdpp Require Import base list gmap strings.
From S2P Require Import Prelude F64 Text Domain Latency DiskSlow Shard Erasure Verified Metrics Throttle HealQueue PoolState Pool.
Open Scope Z_scope.

(** ** Numbers *)

(** [x * 10^d] of a number that is not negative, to the nearest integer. *)
Definition f64_scaled (d : nat) (x : f64) : Z :=
  match x with
  | S754_finite _ m e =>
      if 0 <=? e then Z.shiftl (Z.pos m) e * 10 ^ Z.of_nat d
      else div_half_even (Z.pos m * 10 ^ Z.of_nat d) (Z.shiftl 1 (- e))
  | _ => 0
  end.

(** [format!("{x:.d$}")] *)
Definition f64_fixed (d : nat) (x : f64) : bytes :=
  let n := f64_scaled d x in
  let whole := show (n / 10 ^ Z.of_nat d) in
  match d with O => whole | _ => whole ++ x2e :: pad0 d (show (n mod 10 ^ Z.of_nat d)) end.

(** [format!("{x}")]: the fewest digits after the point that give [x] back. *)
Fixpoint f64_shortest (fuel d : nat) (x : f64) : bytes :=
  match fuel with
  | O => f64_fixed d x
  | S fuel =>
      if bool_decide (f64_decimal false (f64_scaled d x) (- Z.of_nat d) = x) then f64_fixed d x
      else f64_shortest fuel (S d) x
  end.
Definition f64_show (x : f64) : bytes := f64_shortest 17 0 x.

Example f64_texts :
  f64_show (f64_ratio 2500000 1000000) = str "2.5" ∧ f64_show (f64_ratio 1000 1000000) = str "0.001" ∧
  f64_show (f64_ratio 5000000 1000000) = str "5" ∧ f64_fixed 6 (f64_ratio 1234567 1000000) = str "1.234567".
Proof. vm_compute. done. Qed.

(** ** Lines *)

(** [# TYPE name kind] *)
Definition type_line (name kind : bytes) : bytes := str "# TYPE " ++ name ++ x20 :: kind.
(** [name value] *)
Definition sample_line (name value : bytes) : bytes := name ++ x20 :: value.
(** [name{label="value"}] *)
Definition labelled (name label value : bytes) : bytes :=
  name ++ x7b :: label ++ x3d :: x22 :: value ++ [x22; x7d].

(** [Histogram::prometheus] *)
Definition bucket_line (name le : bytes) (v : Z) : bytes := sample_line (labelled (name ++ str "_bucket") (str "le") le) (show v).
Definition histogram_lines (name : bytes) (h : Histogram) : list bytes :=
  type_line name (str "histogram") ::
  zip_with (λ bound cum, bucket_line name (f64_show (f64_ratio bound 1000000)) cum)
    HIST_BUCKETS_US (hist_cumulative 0 (h_buckets h)) ++
  [bucket_line name (str "+Inf") (h_count h);
   sample_line (name ++ str "_sum") (f64_fixed 6 (f64_ratio (h_sum_us h) 1000000));
   sample_line (name ++ str "_count") (show (h_count h))].

(** What the text is made of: samples with their type line, and histograms. *)
Inductive item := Sample (name kind value : bytes) | Histo (name : bytes) (h : Histogram).
Definition item_lines (it : item) : list bytes :=
  match it with
  | Sample name kind value => [type_line name kind; sample_line name value]
  | Histo name h => histogram_lines name h
  end.
Definition counter_item (name : string) (v : Z) : item := Sample (str name) (str "counter") (show v).
Definition gauge_item (name : string) (v : Z) : item := Sample (str name) (str "gauge") (show v).
Definition seconds_item (name : string) (micros : Z) : item :=
  Sample (str name) (str "counter") (f64_fixed 6 (f64_ratio micros 1000000)).

(** [OpsMetrics::prometheus] *)
Definition prometheus_items (m : OpsMetrics) : list item :=
  let v := mt_count m in
  [counter_item "ozd_puts_total" (v puts);
   counter_item "ozd_put_errors_total" (v put_errors);
   seconds_item "ozd_put_seconds_sum" (v put_micros);
   Histo (str "ozd_put_duration_seconds") (put_hist m);
   counter_item "ozd_gets_total" (v gets);
   counter_item "ozd_get_not_found_total" (v get_not_found);
   counter_item "ozd_get_errors_total" (v get_errors);
   seconds_item "ozd_get_seconds_sum" (v get_micros);
   Histo (str "ozd_get_duration_seconds") (get_hist m);
   counter_item "ozd_deletes_total" (v deletes);
   counter_item "ozd_hedged_reads_total" (v hedged_reads);
   counter_item "ozd_handoff_writes_total" (v handoff_writes);
   counter_item "ozd_mrf_enqueued_total" (v mrf_enqueued);
   counter_item "ozd_mrf_healed_total" (v mrf_healed);
   counter_item "ozd_scrub_checked_total" (v scrub_checked);
   counter_item "ozd_scrub_corrupt_total" (v scrub_corrupt);
   counter_item "ozd_scrub_repaired_total" (v scrub_repaired);
   counter_item "ozd_scrub_unrepairable_total" (v scrub_unrepairable);
   counter_item "ozd_resilver_repaired_total" (v resilver_repaired);
   counter_item "ozd_resilver_errors_total" (v resilver_errors);
   counter_item "ozd_ec_puts_total" (v ec_puts);
   counter_item "ozd_ec_reconstructs_total" (v ec_reconstructs);
   counter_item "ozd_ec_pieces_repaired_total" (v ec_pieces_repaired);
   counter_item "ozd_migrate_migrated_total" (v migrate_migrated);
   counter_item "ozd_migrate_canary_failed_total" (v migrate_canary_failed);
   counter_item "ozd_migrate_errors_total" (v migrate_errors);
   counter_item "ozd_migrate_era_backfilled_total" (v migrate_era_backfilled);
   counter_item "ozd_cache_hits_total" (v cache_hits);
   counter_item "ozd_cache_misses_total" (v cache_misses);
   counter_item "ozd_cache_coalesced_total" (v cache_coalesced);
   counter_item "ozd_cache_self_heals_total" (v cache_self_heals);
   counter_item "ozd_cache_populated_bytes_total" (v cache_populated_bytes);
   counter_item "ozd_cache_evicted_segments_total" (v cache_evicted_segments);
   counter_item "ozd_cache_evicted_bytes_total" (v cache_evicted_bytes);
   counter_item "ozd_bg_throttle_waits_total" (v bg_throttle_waits);
   counter_item "ozd_bg_throttle_bytes_total" (v bg_throttle_bytes);
   gauge_item "ozd_bg_rate_bps" (v bg_rate_bps);
   gauge_item "ozd_hedge_threshold_ms" (v hedge_threshold_ms);
   counter_item "ozd_gc_victims_total" (v gc_victims);
   counter_item "ozd_gc_moved_total" (v gc_moved);
   counter_item "ozd_gc_reclaimed_bytes_total" (v gc_reclaimed_bytes);
   counter_item "ozd_gc_orphans_total" (v gc_orphans);
   counter_item "ozd_gc_orphan_bytes_total" (v gc_orphan_bytes);
   gauge_item "ozd_inflight_puts" (v inflight_puts);
   gauge_item "ozd_inflight_gets" (v inflight_gets);
   counter_item "ozd_bytes_written_total" (v bytes_written)].
Definition prometheus (m : OpsMetrics) : list bytes := concat (map item_lines (prometheus_items m)).

Section Page.
Context {E : Type} `{SE : !ShardEngine E} `{ME : !MaintEngine E}.
Implicit Types (p : pool E).

(** The pool's numbers of one shard. *)
Definition status_number (s : option ShardStatus) : Z :=
  match s with Some Online => 0 | Some Suspect => 1 | Some Faulted => 2 | None => -1 end.
Definition usage_or_default (s : E) : Capacity := match se_usage s with Ok c => c | Err _ => Capacity_default end.
Definition shard_ewma_ms p (i : nat) : Z := ewma_ms (m_slow_mon (p_meters p)) i.

Definition shard_gauges p (i : nat) (s : E) : list (string * Z) :=
  let cap := usage_or_default s in
  [("ozd_shard_total_bytes"%string, total_bytes cap);
   ("ozd_shard_free_bytes"%string, free_bytes cap);
   ("ozd_shard_status"%string, status_number (shard_status p i));
   ("ozd_shard_ballast_released"%string, if se_ballast_released s then 1 else 0);
   ("ozd_shard_lat_ewma_ms"%string, shard_ewma_ms p i);
   ("ozd_shard_slow"%string, if shard_slow p i then 1 else 0)].
Definition shard_name (name : string) (i : nat) : bytes := labelled (str name) (str "shard") (show (Z.of_nat i)).
Definition shard_lines p (i : nat) (s : E) : list bytes :=
  map (λ g, sample_line (shard_name g.1 i) (show g.2)) (shard_gauges p i s).

(** [metrics], line by line. *)
Definition metrics_lines p : list bytes :=
  map (λ n, type_line (str n) (str "gauge")) ["ozd_shard_total_bytes"%string; "ozd_shard_free_bytes"%string; "ozd_shard_status"%string] ++
  concat (imap (shard_lines p) (p_shards p)) ++
  item_lines (gauge_item "ozd_mrf_queue" (Z.of_nat (mrf_len p))) ++
  prometheus (m_metrics (p_meters p)).
Definition metrics_page p : bytes := text_of (metrics_lines p).
End Page.

(** * What a scraper reads from the metrics page

    The page is split into lines and the sample with a given name is looked
    up. Every name stands for one number of the pool, and that is the number
    read back. *)

(** The first sample called [name]: its text, and the number it is. *)
Definition samples (name : bytes) (ls : list bytes) : list bytes := omap (strip_prefix (name ++ [x20])) ls.
Definition scrape_text (name page : bytes) : option bytes := head (samples name (lines page)).
Definition parse_number (s : bytes) : option Z :=
  match parse_u64 s with Some v => Some v | None => parse_i64 s end.
Definition scrape (name page : bytes) : option Z := scrape_text name page ≫= parse_number.

Lemma parse_number_show v : -1 <= v < 2 ^ 64 → parse_number (show v) = Some v.
Proof.
  intros Hv. unfold parse_number. destruct (decide (v = -1)) as [-> |]; [by vm_compute |].
  by rewrite parse_u64_show by lia.
Qed.

(** ** Lines *)

Definition in_line (b : byte) : Prop := b ≠ x0a ∧ b ≠ x0d.
Abbreviation clean := (Forall in_line).

Lemma clean_line l : clean l → line_ok l.
Proof.
  intros H. split.
  - intros Hb. rewrite Forall_forall in H. by destruct (H _ Hb).
  - intros Hl. apply last_Some_elem_of in Hl. rewrite Forall_forall in H. by destruct (H _ Hl).
Qed.

Lemma clean_show n : clean (show n).
Proof.
  assert (∀ n, clean (show (Z.of_N n))) as HN.
  { intros k. destruct (show_digits (Z.of_N k)) as (_ & H & _); [lia |]. eapply Forall_impl; [exact H |].
    intros b Hb. by destruct (decimal_plain b Hb) as (_ & ? & ? & _). }
  destruct n as [| p | p]; [apply (HN 0%N) | apply (HN (N.pos p)) |].
  change (show (Z.neg p)) with (x2d :: show (Z.of_N (N.pos p))). constructor; [done | apply HN].
Qed.

Lemma clean_str s : forallb (λ b, negb (bool_decide (b = x0a)) && negb (bool_decide (b = x0d))) (str s) = true → clean (str s).
Proof.
  intros H. apply Forall_forall. intros b Hb. rewrite forallb_forall in H. apply list_elem_of_In, H in Hb.
  split; intros ->; done.
Qed.

Lemma clean_pad w s : clean s → clean (pad0 w s).
Proof. intros H. apply Forall_app. split; [| done]. by apply Forall_replicate. Qed.

Lemma clean_fixed d x : clean (f64_fixed d x).
Proof.
  unfold f64_fixed. cbv zeta. destruct d; [apply clean_show |]. apply Forall_app. split; [apply clean_show |].
  constructor; [done |]. apply clean_pad, clean_show.
Qed.
Lemma clean_shortest fuel d x : clean (f64_shortest fuel d x).
Proof.
  revert d. induction fuel as [| fuel IH]; intros d; simpl; [apply clean_fixed |].
  case_bool_decide; [apply clean_fixed | apply IH].
Qed.

Create HintDb page.
#[export] Hint Resolve clean_show clean_fixed : page.
#[export] Hint Extern 3 (clean (f64_show _)) => apply clean_shortest : page.
#[export] Hint Extern 4 (clean (str _)) => apply clean_str; vm_compute; reflexivity : page.
#[export] Hint Extern 3 (clean (_ ++ _)) => apply Forall_app; split : page.
#[export] Hint Extern 3 (clean (_ :: _)) => constructor; [done |] : page.
#[export] Hint Extern 3 (clean []) => constructor : page.

Lemma clean_sample name v : clean name → clean v → clean (sample_line name v).
Proof. intros. unfold sample_line. auto with page. Qed.
Lemma clean_type name kind : clean name → clean kind → clean (type_line name kind).
Proof. intros. unfold type_line. auto with page. Qed.
Lemma clean_labelled name label v : clean name → clean label → clean v → clean (labelled name label v).
Proof. intros. unfold labelled. auto 10 with page. Qed.
#[export] Hint Resolve clean_sample clean_type clean_labelled : page.

(** ** Items of the page *)

(** What every sample of an item starts with. *)
Definition item_name (it : item) : bytes := match it with Sample n _ _ => n ++ [x20] | Histo n _ => n ++ [x5f] end.
Definition item_clean (it : item) : Prop :=
  match it with Sample n k v => clean n ∧ clean k ∧ clean v | Histo n _ => clean n end.

(** The two texts differ before either ends. *)
Fixpoint clash (n l : bytes) : bool :=
  match n, l with
  | x :: n, y :: l => if decide (x = y) then clash n l else true
  | _, _ => false
  end.

Lemma clash_strip n l r : clash n l = true → strip_prefix n (l ++ r) = None.
Proof.
  revert l. induction n as [| x n IH]; intros [| y l]; simpl; try done.
  destruct (decide (x = y)); [apply IH | done].
Qed.

Lemma clash_app n l r : clash n l = true → clash n (l ++ r) = true.
Proof.
  revert l. induction n as [| x n IH]; intros [| y l]; simpl; try done.
  destruct (decide (x = y)); [apply IH | done].
Qed.

Lemma samples_app n a b : samples n (a ++ b) = samples n a ++ samples n b.
Proof. apply omap_app. Qed.
Lemma samples_none n ls : (∀ l, l ∈ ls → ∃ q r, l = q ++ r ∧ clash (n ++ [x20]) q = true) → samples n ls = [].
Proof.
  induction ls as [| l ls IH]; intros H; [done |]. cbn [samples omap list_omap].
  destruct (H l) as (q & r & -> & Hq); [left |]. rewrite clash_strip by done. apply IH. intros l' Hl. apply H. by right.
Qed.

(** No sample of [it] is called [n]. *)
Definition foreign (n : bytes) (it : item) : bool := clash (n ++ [x20]) (item_name it).
(** A name is not the start of a comment. *)
Definition named (n : bytes) : bool := clash (n ++ [x20]) (str "# TYPE ").

Lemma hist_line l name h : l ∈ histogram_lines name h →
  (∃ r, l = str "# TYPE " ++ r) ∨ ∃ r, l = (name ++ [x5f]) ++ r.
Proof.
  unfold histogram_lines. rewrite elem_of_cons, elem_of_app. intros [-> | [Hl | Hl]].
  - left. by eexists.
  - right. apply elem_of_lookup_zip_with in Hl as (i & bound & cum & -> & _). unfold bucket_line, labelled, sample_line.
    eexists. rewrite <-!app_assoc. reflexivity.
  - right. unfold bucket_line, labelled, sample_line in Hl. rewrite !elem_of_cons in Hl.
    destruct Hl as [-> | [-> | [-> | Hl]]]; [eexists; rewrite <-!app_assoc; reflexivity .. | by apply not_elem_of_nil in Hl].
Qed.

Lemma samples_foreign n it : named n = true → foreign n it = true → samples n (item_lines it) = [].
Proof.
  intros Hn Hf. apply samples_none. destruct it as [name kind v | name h]; intros l Hl.
  - apply elem_of_cons in Hl as [-> | ->%list_elem_of_singleton].
    + eexists (str "# TYPE "), _. split; [reflexivity | done].
    + exists (name ++ [x20]), v. split; [unfold sample_line; by rewrite <-app_assoc | done].
  - apply hist_line in Hl as [[r ->] | [r ->]]; eexists _, r; done.
Qed.

Lemma samples_foreigns n its : named n = true → forallb (foreign n) its = true → samples n (concat (map item_lines its)) = [].
Proof.
  intros Hn. induction its as [| it its IH]; [done |]. simpl. intros [Hf H]%andb_prop.
  rewrite samples_app, samples_foreign by done. by apply IH.
Qed.

Lemma sample_hit n v ls : samples n (sample_line n v :: ls) = v :: samples n ls.
Proof.
  unfold sample_line. cbn [samples omap list_omap].
  change (x20 :: v) with ([x20] ++ v). by rewrite app_assoc, strip_prefix_app.
Qed.
Lemma sample_comment n name kind ls : named n = true → samples n (type_line name kind :: ls) = samples n ls.
Proof. intros Hn. cbn [samples omap list_omap]. unfold type_line. by rewrite clash_strip. Qed.

Lemma samples_at n v its i it rest :
  its !! i = Some it → samples n (item_lines it) = v :: rest → named n = true → forallb (foreign n) (take i its) = true →
  ∃ rest, samples n (concat (map item_lines its)) = v :: rest.
Proof.
  intros Hi Hv Hn Hf. rewrite <-(take_drop_middle its i _ Hi), map_app, concat_app, samples_app, samples_foreigns by done.
  cbn [map concat]. rewrite samples_app, Hv. by eexists.
Qed.

Lemma samples_sample n kind v : named n = true → samples n (item_lines (Sample n kind v)) = [v].
Proof. intros Hn. cbn [item_lines]. by rewrite sample_comment, sample_hit. Qed.

Lemma sample_miss n l ls : strip_prefix (n ++ [x20]) l = None → samples n (l :: ls) = samples n ls.
Proof. intros H. unfold samples. cbn [omap list_omap]. by rewrite H. Qed.

(** *** Histograms *)

(** The bounds of the buckets, as the page writes them. *)
Definition BUCKET_LABELS : list string :=
  ["0.001"; "0.005"; "0.01"; "0.025"; "0.05"; "0.1"; "0.25"; "0.5"; "1"; "2.5"; "5"; "10"]%string.
Definition bucket_name (name label : string) : bytes := labelled (str name ++ str "_bucket") (str "le") (str label).

Lemma bucket_labels : map (λ b, f64_show (f64_ratio b 1000000)) HIST_BUCKETS_US = map str BUCKET_LABELS.
Proof. vm_compute. reflexivity. Qed.

(** What [histogram_lines] prints: name and text of every sample. *)
Definition histogram_samples (name : string) (h : Histogram) : list (bytes * bytes) :=
  zip_with (λ label cum, (bucket_name name label, show cum)) BUCKET_LABELS (hist_cumulative 0 (h_buckets h)) ++
  [(bucket_name name "+Inf", show (h_count h));
   (str name ++ str "_sum", f64_fixed 6 (f64_ratio (h_sum_us h) 1000000));
   (str name ++ str "_count", show (h_count h))].

Lemma histogram_lines_samples name h :
  histogram_lines (str name) h =
  type_line (str name) (str "histogram") :: map (λ x, sample_line x.1 x.2) (histogram_samples name h).
Proof.
  unfold histogram_lines, histogram_samples. f_equal. rewrite map_app. f_equal.
  assert (∀ (ls : list bytes) bs ss cs, map (λ b, f64_show (f64_ratio b 1000000)) bs = ls → ls = map str ss →
    zip_with (λ bound cum, bucket_line (str name) (f64_show (f64_ratio bound 1000000)) cum) bs cs =
    map (λ x, sample_line x.1 x.2) (zip_with (λ label cum, (bucket_name name label, show cum)) ss cs)) as H.
  { intros ls bs. revert ls. induction bs as [| b bs IH]; intros ls [| s ss] cs <- [=]; [done |].
    destruct cs as [| c cs]; [done |]. cbn [zip_with map fst snd]. f_equal; [| by eapply IH].
    unfold bucket_line, bucket_name. by rewrite H0. }
  eapply H; [apply bucket_labels | done].
Qed.

Lemma hist_cumulative_sum bs cum i : 0 <= cum < 2 ^ 64 →
  hist_cumulative cum bs !! i = (if (i <? length bs)%nat then Some (wrap 64 (cum + foldr Z.add 0 (take (S i) bs))) else None).
Proof.
  revert cum i. induction bs as [| b bs IH]; intros cum i Hc; [by destruct i |]. cbn [hist_cumulative].
  pose proof (wrap_bound 64 (cum + b) ltac:(lia)) as Hw. destruct i as [| i]; [cbn; by rewrite Z.add_0_r |].
  cbn [lookup list_lookup length]. change (S i <? S (length bs))%nat with (i <? length bs)%nat.
  change (take (S (S i)) (b :: bs)) with (b :: take (S i) bs). cbn [foldr].
  rewrite IH by lia. destruct (i <? length bs)%nat; [| done]. f_equal.
  unfold wrap. rewrite Zplus_mod_idemp_l. f_equal. lia.
Qed.

(** No sample of the list before the [i]-th is called [n]. *)
Lemma samples_nth n v (xs : list (bytes * bytes)) i :
  xs !! i = Some (n, v) → forallb (λ x, clash (n ++ [x20]) (x.1 ++ [x20])) (take i xs) = true →
  ∃ rest, samples n (map (λ x, sample_line x.1 x.2) xs) = v :: rest.
Proof.
  revert i. induction xs as [| x xs IH]; intros [| i] H Hf; [done .. | |]; cbn in H; cbn [map].
  - injection H as ->. cbn [fst snd]. rewrite sample_hit. by eexists.
  - cbn [take forallb] in Hf. apply andb_prop in Hf as [Hx Hf]. destruct (IH i H Hf) as [rest Hr]. exists rest.
    rewrite sample_miss; [done |]. unfold sample_line. change (x20 :: x.2) with ([x20] ++ x.2). rewrite app_assoc. by apply clash_strip.
Qed.

(** ** Lines of the shards *)

Lemma strip_clash a b r r' : clash a b = true → strip_prefix (a ++ r) (b ++ r') = None.
Proof.
  revert b. induction a as [| x a IH]; intros [| y b]; simpl; try done.
  destruct (decide (x = y)); [apply IH | done].
Qed.

Lemma show_quote n : x22 ∉ show (Z.of_nat n).
Proof.
  destruct (show_digits (Z.of_nat n)) as (_ & H & _); [lia |]. intros Hq. rewrite Forall_forall in H.
  specialize (H _ Hq). vm_compute in H. by destruct H as [H _].
Qed.

Lemma shard_name_split name i : shard_name name i = (str name ++ [x7b]) ++ str "shard=" ++ x22 :: show (Z.of_nat i) ++ [x22; x7d].
Proof. unfold shard_name, labelled. by rewrite <-app_assoc. Qed.

Lemma strip_name name name' i j v :
  clash (str name ++ [x7b]) (str name' ++ [x7b]) = true →
  strip_prefix (shard_name name i ++ [x20]) (sample_line (shard_name name' j) v) = None.
Proof.
  intros H. unfold sample_line. rewrite !shard_name_split, <-!(app_assoc (str _ ++ [x7b])). by apply strip_clash.
Qed.
Lemma strip_index name i j v : i ≠ j → strip_prefix (shard_name name i ++ [x20]) (sample_line (shard_name name j) v) = None.
Proof.
  intros Hij. destruct (strip_prefix _ _) as [r |] eqn:Hs; [exfalso; apply Hij | done].
  apply strip_prefix_Some in Hs. unfold sample_line in Hs. rewrite !shard_name_split in Hs.
  repeat (rewrite <-app_assoc in Hs; cbn [app] in Hs). apply app_inv_head in Hs. injection Hs as Hs.
  apply cut_inj in Hs as [Hs _]; [| apply show_quote ..].
  apply show_inj in Hs; lia.
Qed.

Lemma samples_imap {A} n (f : nat → A → list bytes) l i :
  (∀ j a, j ≠ i → samples n (f j a) = []) →
  samples n (concat (imap f l)) = match l !! i with Some a => samples n (f i a) | None => [] end.
Proof.
  assert (∀ (g : nat → A → list bytes) l, (∀ j a, samples n (g j a) = []) → samples n (concat (imap g l)) = []) as Hnone.
  { intros g l'. revert g. induction l' as [| a l' IH]; intros g Hg; [done |]. cbn [imap concat].
    rewrite samples_app, Hg. apply IH. intros. apply Hg. }
  revert f i. induction l as [| a l IH]; intros f [| i] Hf; [done .. | |]; cbn [imap concat lookup list_lookup]; rewrite samples_app.
  - rewrite Hnone, app_nil_r; [done |]. intros j b. by apply Hf.
  - rewrite Hf by done. apply (IH (f ∘ S)). intros j b Hj. apply Hf. lia.
Qed.

(** Line by line. *)
Ltac clean_lines :=
  repeat match goal with
  | |- Forall (Forall in_line) (_ ++ _) => apply Forall_app; split
  | |- Forall (Forall in_line) (_ :: _) => constructor
  | |- Forall (Forall in_line) [] => constructor
  end; cbn [fst snd]; auto 12 with page.

Section Scrape.
Context {E : Type} `{SE : !ShardEngine E} `{ME : !MaintEngine E}.
Implicit Types (p : pool E).

Lemma shard_hit p i s g : g ∈ shard_gauges p i s → ∃ rest, samples (shard_name g.1 i) (shard_lines p i s) = show g.2 :: rest.
Proof.
  unfold shard_lines, shard_gauges. cbv zeta. rewrite !elem_of_cons, elem_of_nil. cbn [map fst snd].
  intros [-> | [-> | [-> | [-> | [-> | [-> | []]]]]]]; cbn [fst snd];
    repeat (rewrite sample_miss by (apply strip_name; vm_compute; reflexivity)); rewrite sample_hit; by eexists.
Qed.

Lemma shard_miss p i j s g s' : j ≠ i → g ∈ shard_gauges p i s → samples (shard_name g.1 i) (shard_lines p j s') = [].
Proof.
  unfold shard_lines, shard_gauges. cbv zeta. rewrite !elem_of_cons, elem_of_nil. cbn [map fst snd].
  intros Hij [-> | [-> | [-> | [-> | [-> | [-> | []]]]]]]; cbn [fst snd];
    repeat (rewrite sample_miss by (first [apply strip_index; by intros -> | apply strip_name; vm_compute; reflexivity])); reflexivity.
Qed.

(** *** The page *)

Lemma clean_shard_lines p i s : Forall clean (shard_lines p i s).
Proof. unfold shard_lines, shard_gauges, shard_name. cbv zeta. cbn [map]. clean_lines. Qed.

Lemma clean_hist name h : clean name → Forall clean (histogram_lines name h).
Proof.
  intros Hn. unfold histogram_lines, bucket_line. clean_lines.
  apply Forall_forall. intros l Hl. apply elem_of_lookup_zip_with in Hl as (i & bound & cum & -> & _). auto 12 with page.
Qed.

Lemma clean_prometheus m : Forall clean (prometheus m).
Proof.
  unfold prometheus, prometheus_items, counter_item, gauge_item, seconds_item. cbv zeta. cbn [map concat item_lines].
  clean_lines; apply clean_hist; auto with page.
Qed.

Lemma clean_page p : Forall line_ok (metrics_lines p).
Proof.
  eapply Forall_impl with (P := clean); [| apply clean_line]. unfold metrics_lines.
  apply Forall_app; split; [| apply Forall_app; split; [| apply Forall_app; split]].
  - cbn [map]. clean_lines.
  - apply Forall_forall. intros l (ls & Hl & Hls)%elem_of_concat. apply elem_of_lookup_imap in Hls as (i & s & -> & _).
    pose proof (clean_shard_lines p i s) as H. rewrite Forall_forall in H. by apply H.
  - unfold gauge_item, item_lines. clean_lines.
  - apply clean_prometheus.
Qed.

Lemma scrape_line name p v rest : samples name (metrics_lines p) = v :: rest → scrape_text name (metrics_page p) = Some v.
Proof. intros Hs. unfold scrape_text, metrics_page. rewrite lines_text by apply clean_page. by rewrite Hs. Qed.

Lemma scrape_number name page v : scrape_text name page = Some (show v) → -1 <= v < 2 ^ 64 → scrape name page = Some v.
Proof. intros Hs Hv. unfold scrape. rewrite Hs. by apply parse_number_show. Qed.

(** The first lines of the page: none is a sample. *)
Lemma skip_types name p : named name = true →
  samples name (metrics_lines p) =
  samples name (concat (imap (shard_lines p) (p_shards p))) ++
  samples name (item_lines (gauge_item "ozd_mrf_queue" (Z.of_nat (mrf_len p)))) ++ samples name (prometheus (m_metrics (p_meters p))).
Proof.
  intros Hn. unfold metrics_lines. rewrite samples_app. cbn [map]. rewrite !sample_comment by done.
  change (samples name []) with (@nil bytes). by rewrite !samples_app.
Qed.

Lemma skip_shards name p : clash (name ++ [x20]) (str "ozd_shard_") = true →
  samples name (concat (imap (shard_lines p) (p_shards p))) = [].
Proof.
  intros Hn. apply samples_none. intros l (ls & Hl & Hls)%elem_of_concat. apply elem_of_lookup_imap in Hls as (i & s & -> & _).
  unfold shard_lines, shard_gauges in Hl. cbv zeta in Hl. cbn [map] in Hl. rewrite !elem_of_cons, elem_of_nil in Hl.
  exists (str "ozd_shard_"). destruct Hl as [-> | [-> | [-> | [-> | [-> | [-> | []]]]]]]; by eexists.
Qed.

(** The names of the counters. *)
Definition COUNTER_NAMES : list (counter * string) :=
  [(puts, "ozd_puts_total"); (put_errors, "ozd_put_errors_total"); (gets, "ozd_gets_total");
   (get_not_found, "ozd_get_not_found_total"); (get_errors, "ozd_get_errors_total"); (deletes, "ozd_deletes_total");
   (hedged_reads, "ozd_hedged_reads_total"); (handoff_writes, "ozd_handoff_writes_total");
   (mrf_enqueued, "ozd_mrf_enqueued_total"); (mrf_healed, "ozd_mrf_healed_total");
   (scrub_checked, "ozd_scrub_checked_total"); (scrub_corrupt, "ozd_scrub_corrupt_total");
   (scrub_repaired, "ozd_scrub_repaired_total"); (scrub_unrepairable, "ozd_scrub_unrepairable_total");
   (resilver_repaired, "ozd_resilver_repaired_total"); (resilver_errors, "ozd_resilver_errors_total");
   (ec_puts, "ozd_ec_puts_total"); (ec_reconstructs, "ozd_ec_reconstructs_total");
   (ec_pieces_repaired, "ozd_ec_pieces_repaired_total"); (migrate_migrated, "ozd_migrate_migrated_total");
   (migrate_canary_failed, "ozd_migrate_canary_failed_total"); (migrate_errors, "ozd_migrate_errors_total");
   (migrate_era_backfilled, "ozd_migrate_era_backfilled_total"); (cache_hits, "ozd_cache_hits_total");
   (cache_misses, "ozd_cache_misses_total"); (cache_coalesced, "ozd_cache_coalesced_total");
   (cache_self_heals, "ozd_cache_self_heals_total"); (cache_populated_bytes, "ozd_cache_populated_bytes_total");
   (cache_evicted_segments, "ozd_cache_evicted_segments_total"); (cache_evicted_bytes, "ozd_cache_evicted_bytes_total");
   (bg_throttle_waits, "ozd_bg_throttle_waits_total"); (bg_throttle_bytes, "ozd_bg_throttle_bytes_total");
   (bg_rate_bps, "ozd_bg_rate_bps"); (hedge_threshold_ms, "ozd_hedge_threshold_ms"); (gc_victims, "ozd_gc_victims_total");
   (gc_moved, "ozd_gc_moved_total"); (gc_reclaimed_bytes, "ozd_gc_reclaimed_bytes_total"); (gc_orphans, "ozd_gc_orphans_total");
   (gc_orphan_bytes, "ozd_gc_orphan_bytes_total"); (inflight_puts, "ozd_inflight_puts"); (inflight_gets, "ozd_inflight_gets");
   (bytes_written, "ozd_bytes_written_total")]%string.

(** The sums of the latencies, in seconds, and the histograms. *)
Definition SECONDS_NAMES : list (counter * string) :=
  [(put_micros, "ozd_put_seconds_sum"); (get_micros, "ozd_get_seconds_sum")]%string.
Definition HISTOGRAM_NAMES : list ((OpsMetrics → Histogram) * string) :=
  [(put_hist, "ozd_put_duration_seconds"); (get_hist, "ozd_get_duration_seconds")]%string.

(** Every counter has its name. *)
Lemma every_counter_is_named c : c ∈ map fst (COUNTER_NAMES ++ SECONDS_NAMES).
Proof. destruct c; apply (bool_decide_unpack _); vm_compute; exact I. Qed.

(** Where the item of a name is. *)
Definition index_of (name : bytes) : nat :=
  match list_find (λ it, item_name it = name) (prometheus_items OpsMetrics_default) with
  | Some (i, _) => i
  | None => 0%nat
  end.
(** Nothing before the [i]-th item of the pool's part has a sample [n]. *)
Definition free_before (m : OpsMetrics) (n : bytes) (i : nat) : bool :=
  named n && clash (n ++ [x20]) (str "ozd_shard_") && foreign n (gauge_item "ozd_mrf_queue" 0) &&
  forallb (foreign n) (take i (prometheus_items m)).

Lemma page_at p n v i it rest :
  prometheus_items (m_metrics (p_meters p)) !! i = Some it → samples n (item_lines it) = v :: rest →
  free_before (m_metrics (p_meters p)) n i = true → scrape_text n (metrics_page p) = Some v.
Proof.
  intros Hi Hv Hf. unfold free_before in Hf. apply andb_prop in Hf as [[[Hn Hs]%andb_prop Hq]%andb_prop Hf].
  destruct (samples_at _ _ _ _ _ _ Hi Hv Hn Hf) as [rest' Hr]. apply (scrape_line _ _ _ rest').
  rewrite skip_types, skip_shards, samples_foreign by done. exact Hr.
Qed.

Lemma sample_page p n kind v i :
  prometheus_items (m_metrics (p_meters p)) !! i = Some (Sample n kind v) →
  free_before (m_metrics (p_meters p)) n i = true → scrape_text n (metrics_page p) = Some v.
Proof.
  intros Hi Hf. eapply page_at; [exact Hi | | exact Hf]. apply samples_sample. unfold free_before in Hf.
  by repeat apply andb_prop in Hf as [Hf _].
Qed.

(** By the position of the name in a list of names. *)
Ltac each_name H :=
  repeat (apply elem_of_cons in H as [[= -> ->] | H]; [match goal with |- context [str ?n] =>
    let i := eval vm_compute in (index_of (str n ++ [x20])) in
    eapply (sample_page _ (str n) _ _ i); [reflexivity | vm_compute; reflexivity] end |]);
  by apply not_elem_of_nil in H.

Lemma counter_text p c name : (c, name) ∈ COUNTER_NAMES →
  scrape_text (str name) (metrics_page p) = Some (show (mt_count (m_metrics (p_meters p)) c)).
Proof. intros H. unfold COUNTER_NAMES in H. each_name H. Qed.

Lemma seconds_text p c name : (c, name) ∈ SECONDS_NAMES →
  scrape_text (str name) (metrics_page p) = Some (f64_fixed 6 (f64_ratio (mt_count (m_metrics (p_meters p)) c) 1000000)).
Proof. intros H. unfold SECONDS_NAMES in H. each_name H. Qed.

Lemma length_cumulative cum bs : length (hist_cumulative cum bs) = length bs.
Proof. revert cum. induction bs as [| b bs IH]; intros cum; [done |]. cbn. by rewrite IH. Qed.

(** The text of the [i]-th sample of a histogram. *)
Lemma histogram_text p (f : OpsMetrics → Histogram) name i n v : (f, name) ∈ HISTOGRAM_NAMES →
  let h := f (m_metrics (p_meters p)) in
  length (h_buckets h) = 12%nat → histogram_samples name h !! i = Some (n, v) → scrape_text n (metrics_page p) = Some v.
Proof.
  intros Hn h Hh Hi.
  assert (∃ j, prometheus_items (m_metrics (p_meters p)) !! j = Some (Histo (str name) h) ∧
    named n = true ∧ free_before (m_metrics (p_meters p)) n j = true ∧
    forallb (λ x, clash (n ++ [x20]) (x.1 ++ [x20])) (take i (histogram_samples name h)) = true) as (j & Hj & Hnm & Hfree & Hbefore).
  2:{ destruct (samples_nth _ _ _ _ Hi Hbefore) as [rest Hr]. eapply page_at; [exact Hj | | exact Hfree].
      cbn [item_lines]. rewrite histogram_lines_samples, sample_comment by done. exact Hr. }
  exists (index_of (str name ++ [x5f])). revert Hi. unfold histogram_samples. rewrite <-(length_cumulative 0) in Hh.
  generalize dependent (hist_cumulative 0 (h_buckets h)). intros cs Hcs.
  do 12 (destruct cs as [| ? cs]; [discriminate Hcs |]). destruct cs; [| discriminate Hcs]. cbn [zip_with BUCKET_LABELS app].
  unfold HISTOGRAM_NAMES in Hn. apply elem_of_cons in Hn as [[= -> ->] | [[= -> ->] | []%not_elem_of_nil]%elem_of_cons];
    do 15 (destruct i as [| i]; [intros [= <- <-]; split_and!; [reflexivity | vm_compute; reflexivity ..] |]); done.
Qed.

End Scrape.
