(* ===== verification/Admin.v ===== *)
(** * The admin server (crates/ozd-admin/src/lib.rs, types.rs)

    One definition per handler, on the state that the handlers share: the
    pool, whose shards they also call past it, what runs the ZFS commands, and
    the directories. The answers are the records of types.rs, before they
    become JSON. The query is a map; the clock, the schedule of the import and
    the order of directories are inputs. *)

From Stdlib Require Import ZArith Lia SpecFloat Strings.Byte.
From stdpp Require Import base list gmap strings.
From S2P Require Import Prelude F64 Text Domain Piece Latency DiskSlow Shard Erasure Verified Metrics Throttle HealQueue PoolState Pool Repair Migrate Store Car Zfs Fs Snapshot Exposition.
Open Scope Z_scope.

(** ** Answers (types.rs) *)

Record UsageItem := { us_shard : nat; us_total : Z; us_free : Z }.
Record GcItem := {
  gi_shard : nat;
  gi_victim : option Z;
  gi_moved : nat;
  gi_reclaimed : Z;
  gi_orphans : nat;
  gi_orphan_bytes : Z;
  gi_error : option bytes;
}.
Record ScrubItem := {
  si_shard : nat;
  si_checked : option Z;
  si_corrupt : option Z;
  si_repaired : option Z;
  si_unrepairable : option Z;
  si_error : option bytes;
}.
Record ResilverResponse := { rv_scanned : nat; rv_repaired : nat; rv_errors : nat; rv_done : bool }.
Record MigrateResponse := {
  mg_scanned : nat;
  mg_migrated : nat;
  mg_skipped_small : nat;
  mg_skipped_ec : nat;
  mg_canary_failed : nat;
  mg_errors : nat;
  mg_done : bool;
}.
Record CarImportResponse := { cir_blocks : nat; cir_bytes : Z; cir_skipped : nat; cir_corrupt : nat; cir_errors : nat }.
Record CarExportResponse := { cer_blocks : nat; cer_bytes : Z }.
Record CapacityShard := { cs_shard : nat; cs_total : Z; cs_free : Z; cs_fill_pct : f64 }.
Record CapacityResponse := {
  cr_total_bytes : Z;
  cr_free_bytes : Z;
  cr_fill_pct : f64;
  cr_bytes_written_total : Z;
  cr_free_until_95pct : Z;
  cr_shards : list CapacityShard;
}.
Record ZfsHealthItem := {
  zh_shard : nat;
  zh_pool : bytes;
  zh_state : bytes;
  zh_shard_status : bytes;
  zh_read_errors : Z;
  zh_write_errors : Z;
  zh_cksum_errors : Z;
  zh_scrub_in_progress : bool;
  zh_free : Z;
  zh_freeing : Z;
  zh_effective_free : Z;
  zh_fragmentation_pct : Z;
  zh_drift : list bytes;
  zh_error : option bytes;
}.
Record StructureItem := {
  st_shard : nat;
  st_healthy : bool;
  st_segments : nat;
  st_missing : list Z;
  st_keys_at_risk : Z;
  st_orphans : list Z;
  st_error : option bytes;
}.
Record ZfsScrubItem := { zs_shard : nat; zs_scrub : option bytes; zs_error : option bytes }.
Record BallastItem := { bi_shard : nat; bi_released : option bool; bi_error : option bytes }.
Record RuntimeConfig := {
  rc_replicas : nat;
  rc_write_quorum : nat;
  rc_redundancy : bytes;
  rc_ec_data : nat;
  rc_ec_parity : nat;
  rc_gc_discard_ratio : f64;
  rc_gc_interval_secs : Z;
  rc_scrub_interval_secs : Z;
  rc_bg_max_bytes_per_sec : Z;
  rc_bg_min_bytes_per_sec : Z;
  rc_rate_limit_rps : Z;
  rc_shards : nat;
  rc_adaptive_hedge : bool;
  rc_blake3_outboard : bool;
}.

(** [ErrorResponse::new(e)] of a domain error, as JSON with status 200. *)
Definition error_text (e : DomainError) : bytes := str (error_to_string e).
Definition answer {A B} (f : A → B) (r : DomainResult A) : Reply B :=
  match r with Ok a => Json (f a) | Err e => ErrorJson 200 (error_text e) end.

(** ** State *)

(** The fields of [AdminState] that do not change. *)
Record AdminConfig := {
  ac_gc_discard_ratio : f64;
  ac_zfs : list (option ZfsPool);
  ac_data_paths : list path;
  ac_snapshot_dir : option path;
  ac_runtime_config : RuntimeConfig;
}.

Record admin (E R : Type) := { ad_pool : pool E; ad_runner : R; ad_fs : fs }.
Arguments ad_pool {E R} a : rename.
Arguments ad_runner {E R} a : rename.
Arguments ad_fs {E R} a : rename.

(** ** Queries *)

Abbreviation Query := (gmap bytes bytes).
(** [q.get(name).and_then(|s| s.parse().ok())] of a [usize], a [bool], an [f64] *)
Definition q_usize (q : Query) (name : string) : option nat := Z.to_nat <$> (q !! str name ≫= parse_u64).
Definition q_bool (q : Query) (name : string) : option bool :=
  q !! str name ≫= λ s, if bool_decide (s = str "true") then Some true
                        else if bool_decide (s = str "false") then Some false else None.
Definition q_f64 (q : Query) (name : string) : option f64 := q !! str name ≫= parse_f64.
(** [want.is_some_and(|w| w != i)] *)
Definition unwanted (want : option nat) (i : nat) : bool := match want with Some w => negb (w =? i)%nat | None => false end.

(** [(x * 10.0).round() / 10.0]: [round] goes away from zero on a tie. *)
Definition f64_round (x : f64) : f64 :=
  match x with
  | S754_finite s m e =>
      if 0 <=? e then x
      else
        let q := (2 * Z.pos m + Z.shiftl 1 (- e)) / (2 * Z.shiftl 1 (- e)) in
        if q =? 0 then S754_zero s else f64_of_Z (if s then - q else q)
  | _ => x
  end.
Definition one_decimal (x : f64) : f64 := f64_div (f64_round (f64_mul x (f64_of_Z 10))) (f64_of_Z 10).
(** How full, in percent. *)
Definition fill (total free : Z) : f64 :=
  if 0 <? total then f64_mul (f64_of_Z 100) (f64_sub (f64_of_Z 1) (f64_ratio free total)) else f64_of_Z 0.

Example fill_examples :
  one_decimal (fill 1000 500) = f64_of_Z 50 ∧ one_decimal (fill 3 1) = f64_ratio 667 10 ∧ one_decimal (fill 0 0) = f64_of_Z 0.
Proof. vm_compute. done. Qed.

(** ** Handlers *)

Section Handlers.
Context {E : Type} `{SE : !ShardEngine E} `{ME : !MaintEngine E} `{PP : !PlacementPolicy} `{RS : !ReedSolomon} `{BO : !Bao}.
Context {R : Type} `{RN : !Runner R}.
Context (sha256 : bytes → bytes) (order : list bytes → list bytes) (cwd : path) (ac : AdminConfig).
Local Open Scope rust_scope.
Local Abbreviation AM := (M (admin E R) bytes).
Implicit Types (q : Query).

(** A call of the pool, of a ZFS pool, of [std::fs]. *)
Definition on_pool {A} (c : M (pool E) DomainError A) : M (admin E R) DomainError A := λ s,
  let '(r, p) := c (ad_pool s) in (r, {| ad_pool := p; ad_runner := ad_runner s; ad_fs := ad_fs s |}).
Definition on_runner {A} (c : M R ZfsError A) : M (admin E R) ZfsError A := λ s,
  let '(r, w) := c (ad_runner s) in (r, {| ad_pool := ad_pool s; ad_runner := w; ad_fs := ad_fs s |}).
Definition on_fs {A} (c : FM A) : M (admin E R) bytes A := λ s,
  let '(r, f) := c (ad_fs s) in (r, {| ad_pool := ad_pool s; ad_runner := ad_runner s; ad_fs := f |}).

(** One item per shard of [want], in order. *)
Definition per_shard {A} (want : option nat) (n : nat) (item : nat → AM A) : AM (list A) :=
  mfold (λ items i, if unwanted want i then mret items else let! a := item i in mret (items ++ [a])) [] (seq 0 n).
Definition shard_total (s : admin E R) : nat := length (p_shards (ad_pool s)).

(** *** GET /admin/usage, /admin/capacity, /metrics, /admin/config *)

Definition usage : AM (list UsageItem) :=
  let! s := mget in
  mret (imap (λ i e, let cap := usage_or_default e in
    {| us_shard := i; us_total := total_bytes cap; us_free := free_bytes cap |}) (p_shards (ad_pool s))).

Definition capacity_shard (i : nat) (e : E) : CapacityShard :=
  let cap := usage_or_default e in
  {| cs_shard := i; cs_total := total_bytes cap; cs_free := free_bytes cap;
     cs_fill_pct := one_decimal (fill (total_bytes cap) (free_bytes cap)) |}.
Definition sum_u64 (l : list Z) : Z := foldl (λ acc n, wrap 64 (acc + n)) 0 l.
Definition capacity_report : AM CapacityResponse :=
  let! s := mget in
  let caps := map usage_or_default (p_shards (ad_pool s)) in
  let total := sum_u64 (map total_bytes caps) in
  let free := sum_u64 (map free_bytes caps) in
  mret {| cr_total_bytes := total; cr_free_bytes := free; cr_fill_pct := one_decimal (fill total free);
          cr_bytes_written_total := mt_count (m_metrics (p_meters (ad_pool s))) bytes_written;
          cr_free_until_95pct := sat_sub free (total / 20);
          cr_shards := imap capacity_shard (p_shards (ad_pool s)) |}.

Definition metrics : AM bytes := let! s := mget in mret (metrics_page (ad_pool s)).
Definition get_config : AM RuntimeConfig := mret (ac_runtime_config ac).

(** *** POST /admin/scrub, /admin/resilver, /admin/migrate *)

Definition scrub_item (i : nat) (r : DomainResult ScrubReport) : ScrubItem :=
  match r with
  | Ok r => {| si_shard := i; si_checked := Some (sr_checked r); si_corrupt := Some (sr_corrupt r);
               si_repaired := Some (sr_repaired r); si_unrepairable := Some (sr_unrepairable r); si_error := None |}
  | Err e => {| si_shard := i; si_checked := None; si_corrupt := None; si_repaired := None;
                si_unrepairable := None; si_error := Some (error_text e) |}
  end.
Definition run_scrub q : AM (list ScrubItem) :=
  let batch := default 1000%nat (q_usize q "batch") in
  let! s := mget in
  per_shard (q_usize q "shard") (shard_total s) (λ i,
    match! on_pool (scrub_shard_step i None batch) with! r => mret (scrub_item i r)).

(** [None]: the walk has not ended in [fuel] steps. *)
Definition run_resilver (fuel : nat) q : AM (option (Reply ResilverResponse)) :=
  let batch := default 1000%nat (q_usize q "batch") in
  match! on_pool (resilver_full fuel batch) with! r =>
  mret (match r with
        | Ok None => None
        | Ok (Some r) => Some (Json {| rv_scanned := rr_scanned r; rv_repaired := rr_repaired r; rv_errors := rr_errors r;
                                       rv_done := rr_done r |})
        | Err e => Some (ErrorJson 200 (error_text e))
        end).

(** One step from the persistent cursor. The daemon's background task does the
    same. *)
Definition migrate_turn (batch : nat) : M (pool E) DomainError MigrateReport :=
  match! look_shard 0%nat (λ s, se_load_cursor s "migrate") with! cur =>
  let! r := migrate_step (match cur with Ok c => c | Err _ => None end) batch in
  do! keep_cursor "migrate" (if mr_done r then None else mr_last_key r);
  mret r.
Definition migrate_response (r : MigrateReport) : MigrateResponse :=
  {| mg_scanned := mr_scanned r; mg_migrated := mr_migrated r; mg_skipped_small := mr_skipped_small r;
     mg_skipped_ec := mr_skipped_ec r; mg_canary_failed := mr_canary_failed r; mg_errors := mr_errors r;
     mg_done := mr_done r |}.
Definition run_migrate q : AM (Reply MigrateResponse) :=
  let batch := default 2000%nat (q_usize q "batch") in
  let! s := mget in
  match p_shards (ad_pool s) with
  | [] => mthrow (str "index out of bounds")
  | _ :: _ => match! on_pool (migrate_turn batch) with! r => mret (answer migrate_response r)
  end.

(** *** POST /admin/gc, /admin/ballast/release, GET /admin/structure *)

Definition gc_item (i : nat) (r : DomainResult GcReport) : GcItem :=
  match r with
  | Ok r => {| gi_shard := i; gi_victim := victim_seg r; gi_moved := live_moved r; gi_reclaimed := reclaimed_bytes r;
               gi_orphans := orphans_removed r; gi_orphan_bytes := orphan_bytes r; gi_error := None |}
  | Err e => {| gi_shard := i; gi_victim := None; gi_moved := 0; gi_reclaimed := 0; gi_orphans := 0;
                gi_orphan_bytes := 0; gi_error := Some (error_text e) |}
  end.
Definition gc_shard (ratio : f64) (i : nat) : M (pool E) DomainError GcReport :=
  let! r := on_shard i (se_gc ratio) in
  do! count (record_gc r);
  mret r.
Definition run_gc q : AM (list GcItem) :=
  let ratio := default (ac_gc_discard_ratio ac) (q_f64 q "ratio") in
  let! s := mget in
  per_shard None (shard_total s) (λ i, match! on_pool (gc_shard ratio i) with! r => mret (gc_item i r)).

Definition ballast_item (i : nat) (r : DomainResult bool) : BallastItem :=
  match r with
  | Ok b => {| bi_shard := i; bi_released := Some b; bi_error := None |}
  | Err e => {| bi_shard := i; bi_released := None; bi_error := Some (error_text e) |}
  end.
Definition ballast_release q : AM (list BallastItem) :=
  let! s := mget in
  per_shard (q_usize q "shard") (shard_total s) (λ i,
    match! on_pool (on_shard i se_release_ballast) with! r => mret (ballast_item i r)).

Definition structure_item (i : nat) (r : DomainResult StructureReport) : StructureItem :=
  match r with
  | Ok rep => {| st_shard := i; st_healthy := is_healthy rep; st_segments := segments_referenced rep;
                 st_missing := segments_missing rep; st_keys_at_risk := keys_at_risk rep;
                 st_orphans := orphan_segments rep; st_error := None |}
  | Err e => {| st_shard := i; st_healthy := false; st_segments := 0; st_missing := []; st_keys_at_risk := 0;
                st_orphans := []; st_error := Some (error_text e) |}
  end.
Definition structure : AM (list StructureItem) :=
  let! s := mget in mret (imap (λ i e, structure_item i (se_verify_structure e)) (p_shards (ad_pool s))).

(** *** GET /admin/zfs, POST /admin/zfs/scrub *)

(** [format!("{source:?}")]; a name without quotes or backslashes *)
Definition source_debug (s : PropertySource) : bytes :=
  let quoted c n := c ++ str "(" ++ x22 :: n ++ [x22] ++ str ")" in
  match s with
  | SrcLocal => str "Local"
  | SrcDefault => str "Default"
  | SrcInherited from => quoted (str "Inherited") from
  | SrcNone => str "None"
  | SrcOther o => quoted (str "Other") o
  end.
Definition status_debug (s : ShardStatus) : bytes :=
  match s with Online => str "Online" | Suspect => str "Suspect" | Faulted => str "Faulted" end.
Definition drift_text (d : DriftIssue) : bytes :=
  di_property d ++ str ": expected " ++ di_expected d ++ str ", got " ++ di_actual d ++
  str " (source=" ++ source_debug (di_source d) ++ str ")".

(** Only the status must answer; metrics and tuning default to nothing. *)
Definition zfs_probe (zp : ZfsPool) : M R ZfsError (PoolHealth * PoolMetrics * list DriftIssue) :=
  let! h := zfs_status zp in
  match! pool_metrics zp with! m =>
  match! dataset_properties zp with! d =>
  mret (h, match m with Ok m => m | Err _ => PoolMetrics_default end,
        match d with Ok p => audit_drift p EXPECTED_TUNING | Err _ => [] end).
Definition health_item (i : nat) (r : result ZfsError (PoolHealth * PoolMetrics * list DriftIssue)) : ZfsHealthItem :=
  match r with
  | Ok (h, m, drift) =>
      {| zh_shard := i; zh_pool := ph_pool h; zh_state := state_str (ph_state h);
         zh_shard_status := status_debug (to_shard_status h);
         zh_read_errors := (total_errors h).1.1; zh_write_errors := (total_errors h).1.2;
         zh_cksum_errors := (total_errors h).2; zh_scrub_in_progress := scrub_in_progress (ph_scrub h);
         zh_free := pm_free m; zh_freeing := pm_freeing m; zh_effective_free := effective_free m;
         zh_fragmentation_pct := fragmentation_pct m; zh_drift := map drift_text drift; zh_error := None |}
  | Err e =>
      {| zh_shard := i; zh_pool := []; zh_state := []; zh_shard_status := []; zh_read_errors := 0;
         zh_write_errors := 0; zh_cksum_errors := 0; zh_scrub_in_progress := false; zh_free := 0; zh_freeing := 0;
         zh_effective_free := 0; zh_fragmentation_pct := 0; zh_drift := [];
         zh_error := Some (zfs_error_to_string e) |}
  end.

(** The shards that have a ZFS pool. *)
Definition per_pool {A} (want : option nat) (item : nat → ZfsPool → AM A) : AM (list A) :=
  mfold (λ items x, match x with
    | (i, Some zp) => if unwanted want i then mret items else let! a := item i zp in mret (items ++ [a])
    | (_, None) => mret items
    end) [] (imap pair (ac_zfs ac)).
Definition zfs_health : AM (list ZfsHealthItem) :=
  per_pool None (λ i zp, match! on_runner (zfs_probe zp) with! r => mret (health_item i r)).
Definition zfs_scrub q : AM (list ZfsScrubItem) :=
  per_pool (q_usize q "shard") (λ i zp, match! on_runner (scrub_start zp) with! r =>
    mret (match r with
          | Ok _ => {| zs_shard := i; zs_scrub := Some (str "started"); zs_error := None |}
          | Err e => {| zs_shard := i; zs_scrub := None; zs_error := Some (zfs_error_to_string e) |}
          end)).

(** *** POST /admin/car/import, /admin/car/export *)

Definition io_at (p e : bytes) : DomainError := Io (String.string_of_list_byte (p ++ str ": " ++ e)).
(** A directory opens; the first read of it fails. *)
Definition read_all (p : bytes) : M (admin E R) DomainError bytes :=
  let! b := mmap_err (io_at p) (on_fs (open_file (push cwd p))) in
  match b with Some b => mret b | None => mthrow (Io "car varint: Is a directory (os error 21)") end.

Definition car_import_task (p prefix : bytes) (par : nat) (verify : bool) (sched : list nat)
    : M (admin E R) DomainError CarImportReport :=
  let! b := read_all p in
  on_pool (car_import sha256 prefix verify (BS := pool_store) b par sched).
Definition run_car_import (sched : list nat) q : AM (Reply CarImportResponse) :=
  match q !! str "path" with
  | None => mret (ErrorJson 200 (str "path required"))
  | Some p =>
      let prefix := default (str "/blocks/") (q !! str "prefix") in
      match! car_import_task p prefix (default 8%nat (q_usize q "parallelism")) (default true (q_bool q "verify")) sched with! r =>
      mret (answer (λ r, {| cir_blocks := ci_blocks r; cir_bytes := ci_bytes r; cir_skipped := ci_skipped r;
                            cir_corrupt := ci_corrupt r; cir_errors := ci_errors r |}) r)
  end.

(** The file is created, the export runs, and its bytes reach the file; of an
    export that fails, those in [spilled] had reached it. [None]: the export
    has not ended in [fuel] pages. *)
Definition car_export_task (fuel : nat) (spilled : bytes) (p prefix : bytes)
    : M (admin E R) DomainError (option CarExportReport) :=
  do! mmap_err (io_at p) (on_fs (create_file (push cwd p) []));
  match! on_pool (car_export prefix (BS := pool_store) fuel) with! r =>
  match r with
  | Ok (Some (out, rep)) =>
      match! on_fs (create_file (push cwd p) out) with! w =>
      match w with
      | Ok _ => mret (Some rep)
      | Err e =>
          match! on_fs (create_file (push cwd p) spilled) with! _ =>
          mthrow (Io (String.string_of_list_byte e))
      end
  | Ok None => mret None
  | Err e => match! on_fs (create_file (push cwd p) spilled) with! _ => mthrow e
  end.
Definition run_car_export (fuel : nat) (spilled : bytes) q : AM (option (Reply CarExportResponse)) :=
  match q !! str "path" with
  | None => mret (Some (ErrorJson 200 (str "path required")))
  | Some p =>
      let prefix := default (str "/blocks/") (q !! str "prefix") in
      match! car_export_task fuel spilled p prefix with! r =>
      mret (match r with
            | Ok None => None
            | Ok (Some rep) => Some (Json {| cer_blocks := ce_blocks rep; cer_bytes := ce_bytes rep |})
            | Err e => Some (ErrorJson 200 (error_text e))
            end)
  end.

(** *** Snapshots *)

(** Flush errors do not matter; [now] is the time of day. *)
Definition create_snapshot (secs nanos : Z) : AM (Reply SnapshotResponse) :=
  match! on_pool flush_all with! _ =>
  on_fs (reply (take_snapshot order (ac_snapshot_dir ac) (ac_data_paths ac) secs nanos)).
Definition get_snapshots : AM (Reply (list SnapshotListItem)) :=
  on_fs (list_snapshots order (ac_snapshot_dir ac) (ac_data_paths ac)).
Definition remove_snapshot q : AM (Reply SnapshotDeleteResponse) :=
  on_fs (delete_snapshot order (ac_snapshot_dir ac) (ac_data_paths ac) (q !! str "id")).
Definition remove_old_snapshots q : AM (Reply SnapshotRetentionResponse) :=
  on_fs (delete_old_snapshots order (ac_snapshot_dir ac) (ac_data_paths ac) (q !! str "keep" ≫= parse_u64)).

(** *** The router *)

(** A route with its query; besides, the time, the schedule of the import, and
    the fuel of a walk. *)
Inductive Request :=
| GetUsage
| PostGc (q : Query)
| PostResilver (fuel : nat) (q : Query)
| GetStructure
| GetZfs
| PostZfsScrub (q : Query)
| PostScrub (q : Query)
| PostBallastRelease (q : Query)
| PostMigrate (q : Query)
| PostCarImport (sched : list nat) (q : Query)
| PostCarExport (fuel : nat) (spilled : bytes) (q : Query)
| GetCapacity
| PostSnapshot (secs nanos : Z)
| DeleteSnapshot (q : Query)
| GetSnapshots
| DeleteOldSnapshots (q : Query)
| GetConfig
| GetMetrics.

Inductive Answer :=
| AUsage (a : list UsageItem)
| AGc (a : list GcItem)
| AResilver (a : option (Reply ResilverResponse))
| AStructure (a : list StructureItem)
| AZfs (a : list ZfsHealthItem)
| AZfsScrub (a : list ZfsScrubItem)
| AScrub (a : list ScrubItem)
| ABallast (a : list BallastItem)
| AMigrate (a : Reply MigrateResponse)
| ACarImport (a : Reply CarImportResponse)
| ACarExport (a : option (Reply CarExportResponse))
| ACapacity (a : CapacityResponse)
| ASnapshot (a : Reply SnapshotResponse)
| ASnapshotDelete (a : Reply SnapshotDeleteResponse)
| ASnapshots (a : Reply (list SnapshotListItem))
| ARetention (a : Reply SnapshotRetentionResponse)
| AConfig (a : RuntimeConfig)
| AMetrics (a : bytes).

Definition reply_as {A} (f : A → Answer) (c : AM A) : AM Answer := let! a := c in mret (f a).
Definition serve (r : Request) : AM Answer :=
  match r with
  | GetUsage => reply_as AUsage usage
  | PostGc q => reply_as AGc (run_gc q)
  | PostResilver fuel q => reply_as AResilver (run_resilver fuel q)
  | GetStructure => reply_as AStructure structure
  | GetZfs => reply_as AZfs zfs_health
  | PostZfsScrub q => reply_as AZfsScrub (zfs_scrub q)
  | PostScrub q => reply_as AScrub (run_scrub q)
  | PostBallastRelease q => reply_as ABallast (ballast_release q)
  | PostMigrate q => reply_as AMigrate (run_migrate q)
  | PostCarImport sched q => reply_as ACarImport (run_car_import sched q)
  | PostCarExport fuel spilled q => reply_as ACarExport (run_car_export fuel spilled q)
  | GetCapacity => reply_as ACapacity capacity_report
  | PostSnapshot secs nanos => reply_as ASnapshot (create_snapshot secs nanos)
  | DeleteSnapshot q => reply_as ASnapshotDelete (remove_snapshot q)
  | GetSnapshots => reply_as ASnapshots get_snapshots
  | DeleteOldSnapshots q => reply_as ARetention (remove_old_snapshots q)
  | GetConfig => reply_as AConfig get_config
  | GetMetrics => reply_as AMetrics metrics
  end.
End Handlers.
