(* ===== verification/Safe.v ===== *)
(** * Work that loses no body

    The relation between a pool before and after any background work: no copy
    is lost or changed, and a new copy is of a body that was there. The
    operations of maintenance keep it, whatever they answer, and so does any
    composition of them: the loops of the daemon and the requests of the admin
    server are made of these. *)

From Stdlib Require Import ZArith Lia.
From stdpp Require Import base list gmap strings.
From S2P Require Import Prelude F64 Text Domain Paging Piece Latency DiskSlow Shard Erasure Verified Metrics Throttle HealQueue PoolState Pool PoolFacts PoolRead PoolWrite Repair RepairFacts Migrate PoolKeep ResilverFacts Drain Zfs Fs Snapshot Exposition Admin.

Section Safe.
Context {E : Type} `{SE : !ShardEngine E, DS : !DiskSpec E, WES : !WalkEngineSpec E, SD : !SturdyDisk E}
  `{ME : !MaintEngine E, MES : !MaintEngineSpec E, SM : !SturdyMaint E} `{SCS : !ScrubEngineSpec E}
  `{PP : !PlacementPolicy} `{PPS : !PlacementSpec} `{RS : !ReedSolomon}.
Implicit Types (p : pool E).
Local Abbreviation PM := (M (pool E) DomainError).

Record safe p p' : Prop := {
  sf_cfg : p_cfg p' = p_cfg p;
  sf_len : length (p_shards p') = length (p_shards p);
  sf_wf : pool_wf p → pool_wf p';
  sf_ok : Forall se_ok (p_shards p) → Forall se_ok (p_shards p');
  sf_kept : ∀ i k v, read_at p i k = Ok v → read_at p' i k = Ok v;
  sf_from : ∀ i k v, read_at p' i k = Ok v → ∃ j, read_at p j k = Ok v;
}.

#[global] Instance safe_preorder : PreOrder safe.
Proof.
  split; [by intros p; split; eauto |]. intros p1 p2 p3 [C1 L1 W1 O1 K1 B1] [C2 L2 W2 O2 K2 B2].
  split; [congruence | congruence | auto .. |]. intros i k v Hv. destruct (B2 _ _ _ Hv) as [j Hj]. by apply (B1 j).
Qed.

Lemma walked_safe p p' : walked p p' → safe p p'.
Proof. intros [[] ? ? ?]. by split. Qed.
Lemma still_safe p p' : still p p' → safe p p'.
Proof. intros S. by apply walked_safe, still_walked. Qed.
(** What touches neither shards nor configuration. *)
Lemma same_shards_safe p p' : p_cfg p' = p_cfg p → p_shards p' = p_shards p → (pool_wf p → pool_wf p') → safe p p'.
Proof. intros Hc Hs Hw. split; [done | by rewrite Hs | done | by rewrite Hs | |]; unfold read_at; rewrite Hs; eauto. Qed.

(** A mirrored pool in shape. *)
Record good p : Prop := {
  gd_wf : pool_wf p;
  gd_ok : Forall se_ok (p_shards p);
  gd_mirror : pc_ec (p_cfg p) = None;
}.
Lemma safe_good p p' : safe p p' → good p → good p'.
Proof. intros [] []. split; [auto | auto | congruence]. Qed.

(** [c] loses no body of the pool that is a part of its state. *)
Definition harmless {S X A} (part : S → pool E) (c : M S X A) : Prop :=
  ∀ s, good (part s) → wp c (λ _ s', safe (part s) (part s')) s.
Local Abbreviation tame c := (harmless (λ p, p) c).

Section Compose.
Context {S X : Type} (part : S → pool E).
Local Abbreviation harmless := (harmless part).

Lemma harmless_then {X' A} s s' (c : M S X' A) :
  safe (part s) (part s') → good (part s) → harmless c → wp c (λ _ s'', safe (part s) (part s'')) s'.
Proof. intros S1 G Hc. eapply wp_mono; [apply Hc; by eapply safe_good |]. intros r s2 S2. by etransitivity. Qed.

Lemma harmless_ret {A} (a : A) : harmless (mret (E := X) a).
Proof. intros s _. apply wp_ret. reflexivity. Qed.
Lemma harmless_throw {A} (e : X) : harmless (mthrow (A := A) e).
Proof. intros s _. apply wp_throw. reflexivity. Qed.
Lemma harmless_lift {A} (r : result X A) : harmless (mlift r).
Proof. intros s _. apply wp_lift. reflexivity. Qed.
Lemma harmless_get : harmless (mget (E := X)).
Proof. intros s _. apply wp_get. reflexivity. Qed.
Lemma harmless_modify f : (∀ s, safe (part s) (part (f s))) → harmless (mmodify (E := X) f).
Proof. intros Hf s _. apply wp_modify, Hf. Qed.
Lemma harmless_bind {A B} (c : M S X A) (k : A → M S X B) : harmless c → (∀ a, harmless (k a)) → harmless (mthen c k).
Proof.
  intros Hc Hk s G. apply wp_bind. eapply wp_mono; [by apply Hc |]. intros [a | e] s1 S1; [| done]. by apply harmless_then.
Qed.
Lemma harmless_catch {X' A B} (c : M S X' A) (k : result X' A → M S X B) :
  harmless c → (∀ r, harmless (k r)) → harmless (mcatch c k).
Proof. intros Hc Hk s G. apply wp_catch. eapply wp_mono; [by apply Hc |]. intros r s1 S1. by apply harmless_then. Qed.
Lemma harmless_map_err {X' A} (f : X' → X) (c : M S X' A) : harmless c → harmless (mmap_err f c).
Proof. intros Hc s G. apply wp_map_err. eapply wp_mono; [by apply Hc | done]. Qed.
Lemma harmless_fold {A B} (f : B → A → M S X B) acc l : (∀ acc a, harmless (f acc a)) → harmless (mfold f acc l).
Proof.
  intros Hf. revert acc. induction l as [| a l IH]; intros acc; simpl; [apply harmless_ret |]. by apply harmless_bind.
Qed.
Lemma harmless_iter {A} (f : A → M S X unit) l : (∀ a, harmless (f a)) → harmless (miter f l).
Proof. intros Hf. induction l as [| a l IH]; simpl; [apply harmless_ret |]. by apply harmless_bind. Qed.
End Compose.

Lemma harmless_calm {A} (c : PM A) P : calm_call c P → tame c.
Proof. intros Hc p _. eapply wp_calm; [done |]. intros a p' _ S. by apply still_safe. Qed.
Lemma harmless_count f : tame (count f).
Proof. eapply harmless_calm, calm_count. Qed.
Lemma harmless_bg n : tame (bg_acquire n).
Proof. eapply harmless_calm, calm_bg_acquire. Qed.
Lemma harmless_choose n : tame (choose n).
Proof. eapply harmless_calm, calm_choose. Qed.

Lemma harmless_look {A} i (f : E → DomainResult A) : tame (look_shard i f).
Proof. intros p _. unfold wp, look_shard. by destruct (p_shards p !! i). Qed.
Lemma harmless_on_shard {A} i (c : M E DomainError A) :
  (∀ s, se_ok s → wp c (λ _ s', se_ok s' ∧ reads_same s s') s) → tame (on_shard i c).
Proof. intros Hc p G. apply wp_on_shard_same; [apply G | done |]. intros r p' W. by apply walked_safe. Qed.

(** ** Operations of the pool *)

Lemma safe_mrf q p : safe p (set_mrf q p).
Proof. by apply same_shards_safe. Qed.
Lemma harmless_push key prio : tame (mrf_push key prio).
Proof. apply harmless_modify. intros p. apply safe_mrf. Qed.

Lemma harmless_repair k : tame (repair_key k).
Proof.
  intros p [Hwf Hok Hec]. eapply wp_mono; [by apply wp_repair_key |].
  intros r p' Hout. apply walked_safe. by eapply (repaired_walked _ _ (found p k)).
Qed.

Lemma harmless_ranking key n : tame (ranking_for key n).
Proof. intros p G. apply wp_ranking; [apply G |]. intros ids p' _ S. by apply still_safe. Qed.
Lemma harmless_replicas key : tame (replicas_for key).
Proof. apply harmless_bind; [apply harmless_get |]. intros p. apply harmless_ranking. Qed.

Lemma harmless_keep_cursor name pos : tame (keep_cursor name pos).
Proof. intros p G. apply wp_keep_cursor; [apply G |]. intros p' W. by apply walked_safe. Qed.
Lemma harmless_flush : tame flush_all.
Proof. intros p G. eapply wp_mono; [apply wp_flush_all, G |]. intros r p' W. by apply walked_safe. Qed.
Lemma harmless_gc i ratio : tame (on_shard i (se_gc ratio)).
Proof. apply harmless_on_shard. intros s Hs. apply se_gc_spec; [by apply sturdy_ready | by apply sturdy_room]. Qed.
Lemma harmless_release i : tame (on_shard i se_release_ballast).
Proof. apply harmless_on_shard. intros s. apply se_release_spec. Qed.
Lemma harmless_save i name pos : tame (on_shard i (se_save_cursor name pos)).
Proof.
  apply harmless_on_shard. intros s Hs. eapply wp_mono; [by apply se_save_cursor_spec |]. intros r s' (? & ? & _). by split.
Qed.

Lemma harmless_status i st : tame (set_shard_status i st).
Proof.
  apply harmless_modify. intros p. destruct (p_statuses p !! i); [| done]. case_decide; [done |].
  apply same_shards_safe; [done | done |]. by intros _ c.
Qed.
Lemma harmless_slow i b : tame (set_shard_slow i b).
Proof.
  apply harmless_modify. intros p. destruct (p_slow_flags p !! i); [| done]. destruct (Bool.eqb _ _); [done |].
  apply same_shards_safe; [done | done |]. by intros _ c.
Qed.
Lemma harmless_capacity i cap : tame (set_shard_capacity i cap).
Proof. apply harmless_modify. intros p. by apply same_shards_safe. Qed.
Lemma harmless_shutdown : tame shutdown.
Proof. apply harmless_modify. intros p. by apply same_shards_safe. Qed.
Lemma harmless_meter {A} (f : meters → A * meters) : tame (meter f).
Proof. intros p _. unfold wp, meter. destruct (f (p_meters p)) as [a m]. by apply same_shards_safe. Qed.
End Safe.

Create HintDb harmless.
#[export] Hint Resolve harmless_ret harmless_throw harmless_lift harmless_get harmless_count harmless_bg harmless_choose
  harmless_look harmless_push harmless_repair harmless_replicas harmless_keep_cursor harmless_flush harmless_gc
  harmless_release harmless_save harmless_status harmless_slow harmless_capacity harmless_shutdown harmless_meter : harmless.

(** Follows the program; case distinctions of the program become cases. *)
Ltac harmless_step :=
  match goal with
  | |- ∀ _, _ => intro
  | |- harmless _ (if ?b then _ else _) => destruct b
  | |- harmless _ (match ?x with _ => _ end) => destruct x
  | |- harmless _ _ => solve [eauto 4 with harmless nocore]
  | |- harmless _ (mthen _ _) => apply harmless_bind
  | |- harmless _ (mcatch _ _) => apply harmless_catch
  | |- harmless _ (mmap_err _ _) => apply harmless_map_err
  | |- harmless _ (mfold _ _ _) => apply harmless_fold
  | |- harmless _ (miter _ _) => apply harmless_iter
  end.
Ltac harmless_auto := repeat (harmless_step; cbv beta zeta).

Section Walks.
Context {E : Type} `{SE : !ShardEngine E, DS : !DiskSpec E, WES : !WalkEngineSpec E, SD : !SturdyDisk E}
  `{ME : !MaintEngine E, MES : !MaintEngineSpec E, SM : !SturdyMaint E} `{SCS : !ScrubEngineSpec E}
  `{PP : !PlacementPolicy} `{PPS : !PlacementSpec} `{RS : !ReedSolomon}.
Implicit Types (p : pool E).
Local Abbreviation tame c := (harmless (E := E) (λ p, p) c).

(** ** Walks *)

Lemma harmless_resilver_step after batch : tame (resilver_step after batch).
Proof. unfold resilver_step, resilver_key. harmless_auto. Qed.
Lemma harmless_resilver fuel batch : tame (resilver_full fuel batch).
Proof.
  unfold resilver_full. apply harmless_bind; [auto with harmless |]. intros after.
  apply harmless_bind; [| harmless_auto]. generalize ResilverReport_default.
  revert after. induction fuel as [| fuel IH]; intros after total; simpl; [auto with harmless |].
  apply harmless_bind; [apply harmless_resilver_step |]. intros r. harmless_auto.
Qed.

(** A mirrored pool has nothing to migrate to. *)
Lemma harmless_migrate batch : tame (migrate_turn batch).
Proof.
  unfold migrate_turn. apply harmless_catch; [auto with harmless |]. intros cur. apply harmless_bind; [| harmless_auto].
  intros p G. unfold migrate_step. do 2 wp_step. rewrite (gd_mirror _ G). by apply wp_throw.
Qed.

Lemma harmless_gc_shard ratio i : tame (gc_shard ratio i).
Proof. unfold gc_shard. harmless_auto. Qed.

(** ** Heal workers *)

Lemma harmless_take_batch max : tame (take_batch max).
Proof.
  induction max as [| max IH]; simpl; [auto with harmless |]. apply harmless_bind; [auto with harmless |]. intros p.
  destruct (hq_pop (p_mrf p)) as [r q]. apply harmless_bind; [| harmless_auto].
  apply harmless_modify. intros p'. apply safe_mrf.
Qed.
Lemma harmless_worker cap w d : tame (worker_step cap w d).
Proof. unfold worker_step. harmless_auto. Qed.
Lemma harmless_drain max : tame (mrf_drain max).
Proof.
  unfold mrf_drain. apply harmless_bind; [apply harmless_take_batch |]. intros batch. case_bool_decide; [auto with harmless |].
  apply harmless_bind; [auto with harmless |]. intros p. cbv zeta. apply harmless_bind; [| harmless_auto].
  generalize (drain_fuel (replicas (p_cfg p)) (drain_start (length (p_shards p))
    (Nat.min (Nat.max (heal_parallelism (p_cfg p)) 1) (length batch)) batch)) as fuel.
  generalize (drain_start (length (p_shards p)) (Nat.min (Nat.max (heal_parallelism (p_cfg p)) 1) (length batch)) batch) as d.
  intros d fuel. revert d. induction fuel as [| fuel IH]; intros d; simpl; [auto with harmless |].
  destruct (Drain.live d); [auto with harmless |]. apply harmless_bind; [auto with harmless |]. intros i.
  apply harmless_bind; [apply harmless_worker | apply IH].
Qed.

(** ** Scrub *)

(** Nothing but [key] changes. *)
Definition only (key : BlockKey) p p' : Prop := safe p p' ∧ ∀ i k, k ≠ key → read_at p' i k = read_at p i k.

Lemma wp_repair_only key p : good p → wp (repair_key key) (λ _ p', only key p p') p.
Proof.
  intros G. destruct G as [Hwf Hok Hec]. eapply wp_mono; [by apply wp_repair_key |].
  intros r p' Hout. split.
  { apply walked_safe. by eapply (repaired_walked _ _ (found p key)). }
  intros i k Hk. destruct r as [[n fails] | e]; simpl in Hout.
  - destruct Hout as (desired & W & _ & _ & [[T HW] _ _ _ _ _]). rewrite (wrote_read _ _ _ _ _ _ _ _ HW).
    destruct (W !! i); [by rewrite decide_False | done].
  - apply read_at_still, Hout.
Qed.

(** The record of a key that the disk cannot read goes away. *)
Lemma wp_drop_corrupt shard key p : good p → (∀ d, read_at p shard key ≠ Ok d) →
  wp (shard_delete shard key) (λ _ p', only key p p') p.
Proof.
  intros [Hwf Hok Hec] Hbad. unfold shard_delete, wp, on_shard. destruct (p_shards p !! shard) as [s |] eqn:Hs; [| by split].
  rewrite Forall_lookup in Hok. pose proof (se_delete_spec s key (Hok _ _ Hs)) as Hd. unfold wp in Hd.
  destruct (se_delete key s) as [r s']. simpl in *. destruct Hd as (Hok' & _ & Hr).
  assert (∀ k, se_get s' k = se_get s k ∨ k = key ∧ se_get s' k = Err NotFound) as Hget.
  { intros k. destruct r; [| left; apply Hr]. rewrite (Hr k). case_decide; [subst; by right | by left]. }
  assert (∀ i k, read_at (set_shards (<[shard := s']> (p_shards p)) p) i k = read_at p i k ∨
    k = key ∧ i = shard ∧ read_at (set_shards (<[shard := s']> (p_shards p)) p) i k = Err NotFound) as Hread.
  { intros i k. unfold read_at. simpl. destruct (decide (i = shard)) as [-> | Hi]; [| left; by rewrite list_lookup_insert_ne].
    rewrite list_lookup_insert_eq by (by eapply lookup_lt_Some). rewrite Hs.
    destruct (Hget k) as [-> | [-> ->]]; [by left | by right]. }
  split; [split |]; simpl.
  - done.
  - by rewrite length_insert.
  - intros Hw c Hc. simpl. rewrite length_insert. by apply Hw.
  - intros _. apply Forall_insert; [by apply Forall_lookup | done].
  - intros i k v Hv. destruct (Hread i k) as [-> | (-> & -> & _)]; [done | by destruct (Hbad v)].
  - intros i k v. destruct (Hread i k) as [-> | (_ & _ & ->)]; [eauto | done].
  - intros i k Hk. by destruct (Hread i k) as [-> | [? _]].
Qed.

Lemma wp_scrub_key shard acc key p : good p → (∀ d, read_at p shard key ≠ Ok d) →
  wp (scrub_corrupt_key shard acc key) (λ _ p', only key p p') p.
Proof.
  intros G Hbad. unfold scrub_corrupt_key. wp_step. eapply wp_mono; [by apply wp_drop_corrupt |]. intros _ p1 [S1 O1].
  wp_step. eapply wp_mono; [apply wp_repair_only; by eapply safe_good |]. intros r p2 [S2 O2].
  assert (only key p p2) as H2 by (split; [by etransitivity | intros i k Hk; by rewrite O2, O1]).
  assert (wp (let! _ := mrf_push key Urgent in mret (acc.1, acc.2 + 1)%Z)%rust (λ _ p', only key p p') p2) as Hpush.
  { unfold mrf_push. do 3 wp_step. destruct H2 as [S O]. split; [etransitivity; [exact S | apply safe_mrf] | exact O]. }
  destruct r as [[[| n] [| m]] | e]; first [exact Hpush | by apply wp_ret].
Qed.

Lemma wp_scrub_keys shard keys acc p : good p → NoDup keys → (∀ k, k ∈ keys → ∀ d, read_at p shard k ≠ Ok d) →
  wp (mfold (scrub_corrupt_key shard) acc keys) (λ _ p', safe p p') p.
Proof.
  revert acc p. induction keys as [| k keys IH]; intros acc p G Hnd Hbad; simpl; [by apply wp_ret |].
  apply NoDup_cons in Hnd as [Hk Hnd]. wp_step. eapply wp_mono; [apply wp_scrub_key; [done |]; apply Hbad; left |].
  intros r p1 [S1 O1]. destruct r as [acc' | e]; [| done]. eapply wp_mono; [apply IH; [by eapply safe_good | done |] |].
  - intros k' Hk' d. rewrite O1; [apply Hbad; by right |]. by intros ->.
  - intros r p2 S2. by etransitivity.
Qed.

Lemma harmless_scrub shard after limit : tame (scrub_shard_step shard after limit).
Proof.
  intros p G. unfold scrub_shard_step. wp_step. unfold wp at 1, look_shard. destruct (p_shards p !! shard) as [s |] eqn:Hs; [| simpl; reflexivity].
  pose proof (gd_ok _ G) as Hok. rewrite Forall_lookup in Hok.
  destruct (se_scrub_step s after limit) as [st | e] eqn:Hscrub; cbn [fst snd]; [| reflexivity].
  destruct (se_scrub_spec s after limit st (Hok _ _ Hs) Hscrub) as [Hnd Hbad].
  wp_step. eapply wp_calm; [apply calm_bg_acquire |]. intros [] p1 _ S1. pose proof (still_safe _ _ S1) as F1.
  wp_step. eapply wp_mono.
  { apply wp_scrub_keys; [by eapply safe_good | exact Hnd |]. intros k Hk d. rewrite (read_at_still _ _ _ _ S1).
    unfold read_at. rewrite Hs. by apply Hbad. }
  intros [r | e] p2 S2; [| by etransitivity]. apply (harmless_then (λ p, p)); [by etransitivity | done |]. harmless_auto.
Qed.
End Walks.
#[export] Hint Resolve harmless_resilver harmless_migrate harmless_gc_shard harmless_drain harmless_scrub : harmless.
