(* ===== verification/AdminFacts.v ===== *)
(** * What the admin server keeps

    None of the requests for maintenance loses a body; the answers count what
    was done. *)

From Stdlib Require Import ZArith Lia SpecFloat Strings.Byte.
From stdpp Require Import base list gmap strings.
From S2P Require Import Prelude F64 Text Domain Paging Piece Latency DiskSlow Shard Erasure Verified Metrics Throttle HealQueue PoolState Pool PoolFacts PoolRead PoolWrite Repair RepairFacts Migrate PoolKeep ResilverFacts Drain Store Car Zfs Fs Snapshot Exposition Admin Safe.
Open Scope Z_scope.

Section AdminFacts.
Context {E : Type} `{SE : !ShardEngine E, DS : !DiskSpec E, WES : !WalkEngineSpec E, SD : !SturdyDisk E}
  `{ME : !MaintEngine E, MES : !MaintEngineSpec E, SM : !SturdyMaint E} `{SCS : !ScrubEngineSpec E}
  `{PP : !PlacementPolicy} `{PPS : !PlacementSpec} `{RS : !ReedSolomon} `{BO : !Bao}.
Context {R : Type} `{RN : !Runner R}.
Context (sha256 : bytes → bytes) (order : list bytes → list bytes) (cwd : path) (ac : AdminConfig).
Implicit Types (s : admin E R).
Local Abbreviation calm c := (harmless (E := E) (@ad_pool E R) c).

Lemma calm_on_pool {A} (c : M (pool E) DomainError A) : harmless (λ p, p) c → calm (on_pool (R := R) c).
Proof. intros Hc s G. specialize (Hc (ad_pool s) G). unfold wp, on_pool in *. by destruct (c (ad_pool s)). Qed.
Lemma calm_on_runner {A} (c : M R ZfsError A) : calm (on_runner c).
Proof. intros s _. unfold wp, on_runner. by destruct (c (ad_runner s)). Qed.
Lemma calm_on_fs {A} (c : FM A) : calm (on_fs (R := R) c).
Proof. intros s _. unfold wp, on_fs. by destruct (c (ad_fs s)). Qed.
#[local] Hint Resolve calm_on_pool calm_on_runner calm_on_fs : harmless.

Lemma calm_per_shard {A} want n (item : nat → M (admin E R) bytes A) : (∀ i, calm (item i)) → calm (per_shard want n item).
Proof. intros Hi. unfold per_shard. harmless_auto. Qed.
Lemma calm_per_pool {A} want (item : nat → ZfsPool → M (admin E R) bytes A) :
  (∀ i zp, calm (item i zp)) → calm (per_pool ac want item).
Proof. intros Hi. unfold per_pool. harmless_auto. Qed.
#[local] Hint Resolve calm_per_shard calm_per_pool : harmless.

(** The requests that move blocks in or out. *)
Definition moves_blocks (r : Request) : bool :=
  match r with PostCarImport _ _ | PostCarExport _ _ _ => true | _ => false end.

Lemma calm_serve r : moves_blocks r = false → calm (serve (R := R) sha256 order cwd ac r).
Proof.
  destruct r; simpl; intros Hr; try done; unfold reply_as, usage, run_gc, run_resilver, structure, zfs_health, zfs_scrub,
    run_scrub, ballast_release, run_migrate, capacity_report, create_snapshot, remove_snapshot, get_snapshots,
    remove_old_snapshots, get_config, metrics; harmless_auto; try (apply calm_per_shard || apply calm_per_pool); harmless_auto.
Qed.

End AdminFacts.
