(* ===== verification/Daemon.v ===== *)
(** * The daemon: configuration and start (crates/ozd-daemon/src/main.rs)

    The configuration file with its defaults, the checks before anything is
    opened, the shards with the stub that takes the place of one that does not
    open, and the pool that results. Reading the file and its TOML are third-party
    code: a configuration is the parsed record. *)

From Stdlib Require Import ZArith Lia SpecFloat Strings.Byte.
From stdpp Require Import base list gmap strings pretty.
From S2P Require Import Prelude F64 Text Domain Table Piece Segment Writer Engine EngineGc Health Latency DiskSlow Shard Erasure Verified Metrics Throttle HealQueue PoolState Pool Repair Migrate Drain Cache SigV4 Gateway Zfs Fs Snapshot Exposition Admin.
Open Scope Z_scope.

(** ** Configuration *)

Record AuthCfg := { au_access_key : bytes; au_secret_key : bytes; au_max_skew_secs : Z }.
Record CacheCfg := {
  cc_path : path;
  cc_index_path : option path;
  cc_max_bytes : Z;
  cc_min_size : Z;
  cc_segment_max_size : Z;
}.
Record DiskCfg := {
  dk_data_path : path;
  dk_index_path : option path;
  dk_zfs_pool : option bytes;
  dk_zfs_dataset : option bytes;
  dk_failover_path : option path;
}.
Record EngineCfg := {
  en_segment_max_size : option Z;
  en_inline_min : option Z;
  en_fsync_items : option Z;
  en_compress : option bytes;
  en_compress_min : option Z;
  en_ballast_bytes : option Z;
  en_fadvise_dontneed : option bool;
}.
Definition EngineCfg_default : EngineCfg :=
  {| en_segment_max_size := None; en_inline_min := None; en_fsync_items := None; en_compress := None;
     en_compress_min := None; en_ballast_bytes := None; en_fadvise_dontneed := None |}.

Record Config := {
  c_listen : bytes;
  c_replicas : nat;
  c_write_quorum : nat;
  c_free_space_cache_ttl_secs : Z;
  c_speculative_retry_ms : Z;
  c_gc_discard_ratio : f64;
  c_gc_interval_secs : Z;
  c_zfs_health_interval_secs : Z;
  c_drive_suspect_threshold : Z;
  c_drive_recover_threshold : Z;
  c_scrub_interval_secs : Z;
  c_scrub_keys_per_cycle : nat;
  c_heal_mrf : bool;
  c_heal_parallelism : nat;
  c_heal_max_per_shard : nat;
  c_bg_max_bytes_per_sec : Z;
  c_bg_min_bytes_per_sec : Z;
  c_bg_fg_busy_ops : f64;
  c_redundancy : bytes;
  c_ec_data : nat;
  c_ec_parity : nat;
  c_ec_min_size : Z;
  c_ec_write_quorum : option nat;
  c_disk_slow_interval_secs : Z;
  c_disk_slow_floor_ms : Z;
  c_disk_slow_factor : f64;
  c_adaptive_hedge : bool;
  c_blake3_outboard : bool;
  c_ob_min_size : Z;
  c_migrate_interval_secs : Z;
  c_migrate_keys_per_cycle : nat;
  c_log_format : bytes;
  c_rate_limit_rps : Z;
  c_snapshot_dir : option path;
  c_disks : list DiskCfg;
  c_engine : EngineCfg;
  c_cache : option CacheCfg;
  c_auth : option AuthCfg;
}.

(** A file that names the address and the disks only: the [default_*]
    functions. *)
Definition Config_default (listen : bytes) (disks : list DiskCfg) : Config :=
  {| c_listen := listen; c_replicas := 2; c_write_quorum := 2; c_free_space_cache_ttl_secs := 5;
     c_speculative_retry_ms := 100; c_gc_discard_ratio := f64_ratio 1 2; c_gc_interval_secs := 300;
     c_zfs_health_interval_secs := 30; c_drive_suspect_threshold := 3; c_drive_recover_threshold := 2;
     c_scrub_interval_secs := 600; c_scrub_keys_per_cycle := 5000; c_heal_mrf := true; c_heal_parallelism := 4;
     c_heal_max_per_shard := 2; c_bg_max_bytes_per_sec := 64 * 1024 * 1024;
     c_bg_min_bytes_per_sec := 4 * 1024 * 1024; c_bg_fg_busy_ops := f64_of_Z 50; c_redundancy := str "mirror";
     c_ec_data := 4; c_ec_parity := 2; c_ec_min_size := 64 * 1024; c_ec_write_quorum := None;
     c_disk_slow_interval_secs := 10; c_disk_slow_floor_ms := 250; c_disk_slow_factor := f64_of_Z 4;
     c_adaptive_hedge := true; c_blake3_outboard := false; c_ob_min_size := 256 * 1024;
     c_migrate_interval_secs := 0; c_migrate_keys_per_cycle := 2000; c_log_format := str "text";
     c_rate_limit_rps := 0; c_snapshot_dir := None; c_disks := disks; c_engine := EngineCfg_default;
     c_cache := None; c_auth := None |}.

(** ** Checks *)

(** [anyhow::Result] *)
Abbreviation Result := (result bytes).
(** [anyhow::ensure!(b, m)] *)
Definition ensure (b : bool) (m : bytes) : Result unit := if b then Ok tt else Err m.
Definition and_then {A B} (r : Result A) (k : A → Result B) : Result B :=
  match r with Ok a => k a | Err e => Err e end.
Definition show_nat (n : nat) : bytes := show (Z.of_nat n).

Definition disk_count (c : Config) : nat := length (c_disks c).

Definition check_config (c : Config) : Result unit :=
  let r := c_replicas c in
  let w := c_write_quorum c in
  and_then (ensure (0 <? disk_count c)%nat (str "config: at least one disk required")) (λ _,
  and_then (ensure (bool_decide (c_log_format c = str "text") || bool_decide (c_log_format c = str "json"))
    (str "config: log_format = " ++ x22 :: c_log_format c ++ x22 :: str " (ожидали text|json)")) (λ _,
  and_then (ensure (r <=? disk_count c)%nat
    (str "config: replicas R=" ++ show_nat r ++ str " > disks " ++ show_nat (disk_count c))) (λ _,
  and_then (ensure (w <=? r)%nat
    (str "config: write_quorum W=" ++ show_nat w ++ str " > replicas R=" ++ show_nat r ++
     str " (кворум не может быть больше R)")) (λ _,
  ensure ((1 <=? r) && (1 <=? w))%nat
    (str "config: replicas=" ++ show_nat r ++ str " и write_quorum=" ++ show_nat w ++ str " должны быть ≥ 1"))))).

(** At least R shards opened. *)
Definition check_alive (c : Config) (alive : nat) : Result unit :=
  ensure (c_replicas c <=? alive)%nat
    (str "degraded start: живых шардов " ++ show_nat alive ++ str " < replicas R=" ++ show_nat (c_replicas c) ++
     str " — невозможно обеспечить запись").

(** [x.clamp(lo, hi)] *)
Definition clamp (x lo hi : nat) : nat := Nat.min (Nat.max x lo) hi.

Definition ec_config (c : Config) : Result (option EcConfig) :=
  let k := c_ec_data c in
  let m := c_ec_parity c in
  if bool_decide (c_redundancy c = str "erasure") then
    and_then (ensure ((1 <=? k) && (1 <=? m))%nat (str "config: ec_data/ec_parity >= 1")) (λ _,
    and_then (ensure (k + m <=? disk_count c)%nat
      (str "config: erasure " ++ show_nat k ++ str "+" ++ show_nat m ++ str " требует >= " ++ show_nat (k + m) ++
       str " дисков, есть " ++ show_nat (disk_count c))) (λ _,
    Ok (Some {| ec_data := k; ec_parity := m; ec_min_size := c_ec_min_size c;
                ec_write_quorum := clamp (default (k + 1)%nat (c_ec_write_quorum c)) k (k + m) |})))
  else if bool_decide (c_redundancy c = str "mirror") then Ok None
  else Err (str "config: redundancy = " ++ x22 :: c_redundancy c ++ x22 :: str " (ждали mirror|erasure)").

(** ** Shards *)

Definition engine_config (c : Config) (d : DiskCfg) : EngineConfig :=
  let e := c_engine c in
  {| segment_max_size := default (2 ^ 31) (en_segment_max_size e); inline_min := default 4096 (en_inline_min e);
     cfg_fsync_items := default 256 (en_fsync_items e);
     compress_zstd := bool_decide (en_compress e = Some (str "zstd"));
     compress_min := default 512 (en_compress_min e); ballast_bytes := default 0 (en_ballast_bytes e);
     failover_path := bool_decide (is_Some (dk_failover_path d));
     fadvise_dontneed := default true (en_fadvise_dontneed e) |}.

(** The engine of the cache: rarely synced, nothing compressed. *)
Definition cache_engine_config (cc : CacheCfg) : EngineConfig :=
  {| segment_max_size := cc_segment_max_size cc; inline_min := 64; cfg_fsync_items := 4096; compress_zstd := false;
     compress_min := compress_min EngineConfig_default; ballast_bytes := ballast_bytes EngineConfig_default;
     failover_path := false; fadvise_dontneed := fadvise_dontneed EngineConfig_default |}.

(** [Arc<dyn ShardEngine>]: an engine, or the stub of a shard that did not
    open. *)
Inductive slot (E : Type) := DiskSlot (e : E) | NullEngine.
Arguments DiskSlot {E} e.
Arguments NullEngine {E}.

Definition unavailable : DomainError := Io "shard unavailable (degraded start)".
Definition live {E} (s : slot E) : bool := match s with DiskSlot _ => true | NullEngine => false end.

Section Slot.
Context {E : Type} `{SE : !ShardEngine E} `{ME : !MaintEngine E}.

Definition look {A} (f : E → DomainResult A) (null : DomainResult A) (s : slot E) : DomainResult A :=
  match s with DiskSlot e => f e | NullEngine => null end.
Definition run {A} (c : M E DomainError A) (null : DomainResult A) : M (slot E) DomainError A := λ s,
  match s with
  | DiskSlot e => let '(r, e') := c e in (r, DiskSlot e')
  | NullEngine => (null, NullEngine)
  end.

(** [impl ShardEngine for NullEngine]: the operations it gives itself, and the
    default methods of the trait, some of which call those. *)
#[global] Instance slot_engine : ShardEngine (slot E) := {|
  se_put k d := run (se_put k d) (Err unavailable);
  se_get s k := look (λ e, se_get e k) (Err unavailable) s;
  se_has s k := look (λ e, se_has e k) (Err unavailable) s;
  se_delete k := run (se_delete k) (Err unavailable);
  se_list s prefix after limit := look (λ e, se_list e prefix after limit) (Ok []) s;
  se_usage s := look se_usage (Ok {| total_bytes := 0; free_bytes := 0 |}) s;
  se_flush := run se_flush (Ok tt);
  se_scrub_step s after limit := look (λ e, se_scrub_step e after limit)
    (Ok {| ss_checked := 0; ss_bytes := 0; ss_corrupt := []; ss_last_key := None; ss_done := true |}) s;
  se_stat s k := look (λ e, se_stat e k) (Err unavailable) s;
  se_save_cursor n pos := run (se_save_cursor n pos) (Ok tt);
  se_load_cursor s n := look (λ e, se_load_cursor e n) (Ok None) s;
  se_put_meta k d o := run (se_put_meta k d o) (Err unavailable);
  se_stat_obj s k := look (λ e, se_stat_obj e k) (Err unavailable) s;
  se_set_obj_logical k o := run (se_set_obj_logical k o) (Ok false);
|}.
#[global] Instance slot_maint : MaintEngine (slot E) := {|
  se_gc ratio := run (se_gc ratio) (Ok GcReport_default);
  se_verify_structure s := look se_verify_structure (Ok StructureReport_default) s;
  se_ballast_released s := match s with DiskSlot e => se_ballast_released e | NullEngine => false end;
  se_release_ballast := run se_release_ballast (Ok false);
|}.
End Slot.

(** ** Start *)

(** [DiskEngine::open] on what is on a disk. *)
Class OpenEngine (D E : Type) := { oe_open : EngineConfig → M D DomainError E }.
#[global] Instance engine_opens {T : Type → Type} `{RT : !RedbTable T} `{EE : !EngineEnv} (free : option Z) :
  OpenEngine (disk T) (engine T) := {| oe_open c := engine_open c free |}.

Definition pool_config (c : Config) (ec : option EcConfig) : PoolConfig :=
  {| replicas := c_replicas c; write_quorum := c_write_quorum c;
     free_space_cache_ttl := c_free_space_cache_ttl_secs c * 10 ^ 9;
     speculative_retry_after := if 0 <? c_speculative_retry_ms c then Some (c_speculative_retry_ms c * 10 ^ 6) else None;
     heal_parallelism := c_heal_parallelism c; heal_max_per_shard := c_heal_max_per_shard c;
     bg_throttle := {| max_bytes_per_sec := c_bg_max_bytes_per_sec c; min_bytes_per_sec := c_bg_min_bytes_per_sec c;
                       fg_busy_ops_per_sec := c_bg_fg_busy_ops c |};
     pc_ec := ec;
     pc_outboard := if c_blake3_outboard c then Some {| ob_min_size := c_ob_min_size c |} else None;
     adaptive_hedge := c_adaptive_hedge c;
     disk_slow := {| abs_floor_ms := c_disk_slow_floor_ms c; rel_factor := c_disk_slow_factor c; ds_min_samples := 32 |} |}.

Definition zfs_pools (c : Config) : list (option ZfsPool) :=
  map (λ d, p ← dk_zfs_pool d; Some {| zp_pool := p; zp_dataset := default p (dk_zfs_dataset d) |}) (c_disks c).

Definition auth_config (c : Config) : option SigV4Config :=
  a ← c_auth c; Some {| access_key := au_access_key a; secret_key := au_secret_key a; max_skew_secs := au_max_skew_secs a |}.

Definition limiter {IpAddr : Type} `{Countable IpAddr} (c : Config) : option (RateLimiter IpAddr) :=
  if 0 <? c_rate_limit_rps c then Some (limiter_new (c_rate_limit_rps c)) else None.

Definition admin_config (c : Config) : AdminConfig :=
  {| ac_gc_discard_ratio := c_gc_discard_ratio c; ac_zfs := zfs_pools c; ac_data_paths := map dk_data_path (c_disks c);
     ac_snapshot_dir := c_snapshot_dir c;
     ac_runtime_config :=
       {| rc_replicas := c_replicas c; rc_write_quorum := c_write_quorum c; rc_redundancy := c_redundancy c;
          rc_ec_data := c_ec_data c; rc_ec_parity := c_ec_parity c; rc_gc_discard_ratio := c_gc_discard_ratio c;
          rc_gc_interval_secs := c_gc_interval_secs c; rc_scrub_interval_secs := c_scrub_interval_secs c;
          rc_bg_max_bytes_per_sec := c_bg_max_bytes_per_sec c; rc_bg_min_bytes_per_sec := c_bg_min_bytes_per_sec c;
          rc_rate_limit_rps := c_rate_limit_rps c; rc_shards := disk_count c;
          rc_adaptive_hedge := c_adaptive_hedge c; rc_blake3_outboard := c_blake3_outboard c |} |}.

Section Start.
Context {D E : Type} `{OE : !OpenEngine D E} `{SE : !ShardEngine E} `{ME : !MaintEngine E} `{PP : !PlacementPolicy}.
Context {R : Type} `{RN : !Runner R}.
Local Open Scope rust_scope.

(** The shards and the numbers of those that did not open. *)
Definition open_shard (c : Config) (acc : list (slot E) * list nat) (x : DiskCfg * D) : list (slot E) * list nat :=
  match (oe_open (engine_config c x.1) x.2).1 with
  | Ok e => (acc.1 ++ [DiskSlot e], acc.2)
  | Err _ => (acc.1 ++ [NullEngine], acc.2 ++ [length acc.1])
  end.
Definition open_shards (c : Config) (disks : list D) : list (slot E) * list nat :=
  foldl (open_shard c) ([], []) (zip (c_disks c) disks).

(** A dataset that carries another shard's number stops the start; a ZFS that
    does not answer does not. *)
Definition identity_text (zp : ZfsPool) (found expected : bytes) : bytes :=
  str "disk identity mismatch on " ++ zp_dataset zp ++ str ": dataset carries ozd:shard_id=" ++ found ++
  str ", config expects " ++ expected ++
  str " — диски перепутаны местами или конфиг сбит; откажемся стартовать, чтобы не писать не туда".
Definition check_identity (x : nat * option ZfsPool) : M R bytes unit :=
  match x with
  | (_, None) => mret tt
  | (i, Some zp) =>
      match! ensure_identity zp (wrap 16 (Z.of_nat i)) (str "v1") with! r =>
      match r with
      | Ok (Mismatch found expected) => mthrow (identity_text zp found expected)
      | _ => mret tt
      end
  end.

(** What runs once the start is through. *)
Record started := {
  sd_pool : pool (slot E);
  sd_cache : option (E * CacheConfig);
  sd_auth : option SigV4Config;
  sd_admin : AdminConfig;
}.

Definition open_cache (c : Config) (cache_disk : D) : Result (option (E * CacheConfig)) :=
  match c_cache c with
  | None => Ok None
  | Some cc =>
      match (oe_open (cache_engine_config cc) cache_disk).1 with
      | Ok e => Ok (Some (e, {| max_bytes := cc_max_bytes cc; min_size := cc_min_size cc |}))
      | Err e => Err (str "cache (" ++ path_text (cc_path cc) ++ str "): " ++ error_text e)
      end
  end.

(** [main] up to the listener, at time [t]; the background tasks are started
    on the way and listed in DaemonLoops.v. *)
Definition start (c : Config) (disks : list D) (cache_disk : D) (t : Z) (clock : list Z) (sched : list nat)
    : M R bytes started :=
  do! mlift (check_config c);
  let opened := open_shards c disks in
  do! mlift (check_alive c (disk_count c - length opened.2));
  let! ec := mlift (ec_config c) in
  match pool_new opened.1 (pool_config c ec) t clock sched with
  | None => mthrow (str "assertion failed")
  | Some p =>
      let p := (miter (λ i, set_shard_status i Faulted) opened.2 p).2 in
      do! miter check_identity (imap pair (zfs_pools c));
      let! cache := mlift (open_cache c cache_disk) in
      do! mlift (ensure ((c_migrate_interval_secs c <=? 0) || bool_decide (is_Some ec))
        (str "config: migrate_interval_secs требует redundancy=" ++ x22 :: str "erasure" ++ [x22]));
      mret {| sd_pool := p; sd_cache := cache; sd_auth := auth_config c; sd_admin := admin_config c |}
  end.
End Start.
Arguments started : clear implicits.
