(* ===== verification/DaemonLoops.v ===== *)
(** * The background tasks of the daemon (crates/ozd-daemon/src/main.rs)

    One round of every loop that [main] spawns: the ZFS health monitor, the
    drain of the heal queue, the scrub with its persistent cursors, the slow
    disk verdicts, the migration, the garbage collection; the reload on SIGHUP
    and the shutdown. The state has the pool and the loops' own variables; any
    interleaving of rounds is a list of events. *)

From Stdlib Require Import ZArith Lia SpecFloat Strings.Byte.
From stdpp Require Import base list gmap strings.
From S2P Require Import Prelude F64 Text Domain Health Latency DiskSlow Shard Erasure Verified Metrics Throttle HealQueue PoolState Pool Repair Migrate Drain Zfs Fs Snapshot Exposition Admin.
Open Scope Z_scope.

(** The settings that the loops captured when they were spawned. *)
Record LoopConfig := {
  lc_zfs : list (option ZfsPool);
  lc_scrub_keys : nat;
  lc_migrate_keys : nat;
  lc_gc_ratio : f64;
}.

(** [dm_gc_alive] and [dm_hup_alive]: a task that panicked is gone. *)
Record daemon (E R : Type) := {
  dm_pool : pool E;
  dm_runner : R;
  dm_zfs_fsms : list HealthFsm;
  dm_slow_fsms : list HealthFsm;
  dm_cursors : list (option BlockKey);
  dm_pass_migrated : nat;
  dm_gc_alive : bool;
  dm_hup_alive : bool;
}.
Arguments dm_pool {E R} d : rename.
Arguments dm_runner {E R} d : rename.
Arguments dm_zfs_fsms {E R} d : rename.
Arguments dm_slow_fsms {E R} d : rename.
Arguments dm_cursors {E R} d : rename.
Arguments dm_pass_migrated {E R} d : rename.
Arguments dm_gc_alive {E R} d : rename.
Arguments dm_hup_alive {E R} d : rename.

(** ** The pause between scrubs *)

(** [base - jitter / 2 + nanos % jitter.max(1)], in seconds *)
Definition scrub_pause (base nanos : Z) : Z :=
  let jitter := Z.max (base / 10) 1 in
  base - jitter / 2 + nanos mod Z.max jitter 1.

Section Loops.
Context {E : Type} `{SE : !ShardEngine E} `{ME : !MaintEngine E} `{PP : !PlacementPolicy} `{RS : !ReedSolomon}.
Context {R : Type} `{RN : !Runner R} (lc : LoopConfig).
Local Open Scope rust_scope.
Local Abbreviation DM := (M (daemon E R) bytes).
Implicit Types (d : daemon E R).

Definition set_pool (p : pool E) d : daemon E R :=
  {| dm_pool := p; dm_runner := dm_runner d; dm_zfs_fsms := dm_zfs_fsms d; dm_slow_fsms := dm_slow_fsms d;
     dm_cursors := dm_cursors d; dm_pass_migrated := dm_pass_migrated d; dm_gc_alive := dm_gc_alive d;
     dm_hup_alive := dm_hup_alive d |}.
Definition set_runner (w : R) d : daemon E R :=
  {| dm_pool := dm_pool d; dm_runner := w; dm_zfs_fsms := dm_zfs_fsms d; dm_slow_fsms := dm_slow_fsms d;
     dm_cursors := dm_cursors d; dm_pass_migrated := dm_pass_migrated d; dm_gc_alive := dm_gc_alive d;
     dm_hup_alive := dm_hup_alive d |}.
Definition set_zfs_fsms (l : list HealthFsm) d : daemon E R :=
  {| dm_pool := dm_pool d; dm_runner := dm_runner d; dm_zfs_fsms := l; dm_slow_fsms := dm_slow_fsms d;
     dm_cursors := dm_cursors d; dm_pass_migrated := dm_pass_migrated d; dm_gc_alive := dm_gc_alive d;
     dm_hup_alive := dm_hup_alive d |}.
Definition set_slow_fsms (l : list HealthFsm) d : daemon E R :=
  {| dm_pool := dm_pool d; dm_runner := dm_runner d; dm_zfs_fsms := dm_zfs_fsms d; dm_slow_fsms := l;
     dm_cursors := dm_cursors d; dm_pass_migrated := dm_pass_migrated d; dm_gc_alive := dm_gc_alive d;
     dm_hup_alive := dm_hup_alive d |}.
Definition set_cursors (l : list (option BlockKey)) d : daemon E R :=
  {| dm_pool := dm_pool d; dm_runner := dm_runner d; dm_zfs_fsms := dm_zfs_fsms d; dm_slow_fsms := dm_slow_fsms d;
     dm_cursors := l; dm_pass_migrated := dm_pass_migrated d; dm_gc_alive := dm_gc_alive d;
     dm_hup_alive := dm_hup_alive d |}.
Definition set_pass (n : nat) d : daemon E R :=
  {| dm_pool := dm_pool d; dm_runner := dm_runner d; dm_zfs_fsms := dm_zfs_fsms d; dm_slow_fsms := dm_slow_fsms d;
     dm_cursors := dm_cursors d; dm_pass_migrated := n; dm_gc_alive := dm_gc_alive d;
     dm_hup_alive := dm_hup_alive d |}.
Definition set_gc_alive (b : bool) d : daemon E R :=
  {| dm_pool := dm_pool d; dm_runner := dm_runner d; dm_zfs_fsms := dm_zfs_fsms d; dm_slow_fsms := dm_slow_fsms d;
     dm_cursors := dm_cursors d; dm_pass_migrated := dm_pass_migrated d; dm_gc_alive := b;
     dm_hup_alive := dm_hup_alive d |}.
Definition set_hup_alive (b : bool) d : daemon E R :=
  {| dm_pool := dm_pool d; dm_runner := dm_runner d; dm_zfs_fsms := dm_zfs_fsms d; dm_slow_fsms := dm_slow_fsms d;
     dm_cursors := dm_cursors d; dm_pass_migrated := dm_pass_migrated d; dm_gc_alive := dm_gc_alive d;
     dm_hup_alive := b |}.

Definition in_pool {A} (c : M (pool E) DomainError A) : M (daemon E R) DomainError A := λ d,
  let '(r, p) := c (dm_pool d) in (r, set_pool p d).
Definition in_runner {A} (c : M R ZfsError A) : M (daemon E R) ZfsError A := λ d,
  let '(r, w) := c (dm_runner d) in (r, set_runner w d).
(** A call of the pool that cannot fail. *)
Definition tell (c : M (pool E) DomainError unit) : DM unit := match! in_pool c with! _ => mret tt.

(** ** ZFS health *)

Definition zfs_look (zp : ZfsPool) : M R ZfsError (PoolHealth * option Capacity) :=
  let! h := zfs_status zp in
  match! effective_capacity zp with! cap =>
  mret (h, match cap with Ok c => Some c | Err _ => None end).
Definition observation (r : option (PoolHealth * option Capacity)) : Observation :=
  match r with
  | Some (h, _) => match to_shard_status h with Online => Healthy | Suspect => Degraded | Faulted => Down end
  | None => Down
  end.

(** [hung i]: the commands for shard [i] did not come back within a minute. *)
Definition zfs_tick_one (hung : nat → bool) (x : nat * option ZfsPool) : DM unit :=
  match x with
  | (_, None) => mret tt
  | (i, Some zp) =>
      let! r := (if hung i then mret None
                 else match! in_runner (zfs_look zp) with! r => mret (match r with Ok a => Some a | Err _ => None end)) in
      let! d := mget in
      match dm_zfs_fsms d !! i with
      | None => mthrow (str "index out of bounds")
      | Some fsm =>
          let '(fsm, st) := observe fsm (observation r) in
          do! mmodify (set_zfs_fsms (<[i := fsm]> (dm_zfs_fsms d)));
          do! tell (set_shard_status i st);
          match r with
          | Some (_, Some cap) => tell (set_shard_capacity i cap)
          | _ => mret tt
          end
      end
  end.
Definition zfs_tick (hung : nat → bool) : DM unit := miter (zfs_tick_one hung) (imap pair (lc_zfs lc)).

(** ** Heal queue *)

Definition mrf_tick : DM unit :=
  let! d := mget in
  if (mrf_len (dm_pool d) =? 0)%nat then mret tt
  else match! in_pool (mrf_drain 256) with! _ => mret tt.

(** ** Scrub *)

(** At the start of the task: where the last run left off. *)
Definition resume_cursors (p : pool E) : list (option BlockKey) :=
  map (λ s, match se_load_cursor s "scrub" with Ok c => c | Err _ => None end) (p_shards p).

Definition scrub_cycle_one (i : nat) : DM unit :=
  let! d := mget in
  match dm_cursors d !! i with
  | None => mthrow (str "index out of bounds")
  | Some after =>
      match! in_pool (scrub_shard_step i after (lc_scrub_keys lc)) with! r =>
      match r with
      | Ok r =>
          let cur := if sr_done r then None else sr_last_key r in
          do! mmodify (λ d, set_cursors (<[i := cur]> (dm_cursors d)) d);
          match! in_pool (on_shard i (se_save_cursor "scrub" cur)) with! _ => mret tt
      | Err _ => mret tt
      end
  end.
Definition scrub_cycle : DM unit :=
  let! d := mget in miter scrub_cycle_one (seq 0 (length (p_shards (dm_pool d)))).

(** ** Slow disks *)

Definition slow_tick_one (x : nat * bool) : DM unit :=
  let! d := mget in
  match dm_slow_fsms d !! x.1 with
  | None => mthrow (str "index out of bounds")
  | Some fsm =>
      let '(fsm, st) := observe fsm (if x.2 then Degraded else Healthy) in
      do! mmodify (set_slow_fsms (<[x.1 := fsm]> (dm_slow_fsms d)));
      tell (set_shard_slow x.1 (negb (bool_decide (st = Online))))
  end.
Definition slow_tick : DM unit :=
  let! d := mget in miter slow_tick_one (imap pair (disk_slow_verdicts (dm_pool d))).

(** ** Migration *)

Definition migrate_tick : DM unit :=
  match! in_pool (migrate_turn (lc_migrate_keys lc)) with! r =>
  match r with
  | Ok r => mmodify (λ d, set_pass (if mr_done r then 0 else dm_pass_migrated d + mr_migrated r)%nat d)
  | Err _ => mret tt
  end.

(** ** Garbage collection *)

(** A report worth a line in the log is counted; the line unwraps the number
    of the victim. *)
Definition gc_tick_one (i : nat) : DM unit :=
  match! in_pool (let! r := on_shard i (se_gc (lc_gc_ratio lc)) in
                  do! bg_acquire (wrap 64 (reclaimed_bytes r + orphan_bytes r));
                  mret r) with! r =>
  match r with
  | Ok r =>
      if bool_decide (is_Some (victim_seg r)) || (0 <? orphans_removed r)%nat then
        do! tell (count (record_gc r));
        match victim_seg r with
        | Some _ => mret tt
        | None => do! mmodify (set_gc_alive false); mthrow (str "called Option::unwrap() on a None value")
        end
      else mret tt
  | Err _ => mret tt
  end.
Definition gc_tick : DM unit :=
  let! d := mget in
  if dm_gc_alive d then miter gc_tick_one (seq 0 (length (p_shards (dm_pool d)))) else mret tt.

(** ** SIGHUP *)

(** [None]: the file cannot be read or parsed. [f64::clamp] panics when the
    limits are the wrong way round. *)
Definition reload (new : option BgThrottleConfig) : DM unit :=
  let! d := mget in
  match new with
  | Some new =>
      if dm_hup_alive d then
        match update_config (m_bg (p_meters (dm_pool d))) new (m_metrics (p_meters (dm_pool d))) with
        | Some (bg, mt) =>
            tell (meter (λ m, (tt, {| m_metrics := mt; m_bg := bg; m_read_lat := m_read_lat m; m_slow_mon := m_slow_mon m;
                                      m_clock := m_clock m; m_sched := m_sched m |})))
        | None => do! mmodify (set_hup_alive false); mthrow (str "assertion failed: min <= max")
        end
      else mret tt
  | None => mret tt
  end.

(** ** Any interleaving *)

Inductive event :=
| ZfsTick (hung : nat → bool)
| MrfTick
| ScrubCycle
| SlowTick
| MigrateTick
| GcTick
| Reload (new : option BgThrottleConfig).

Definition step_event (ev : event) : DM unit :=
  match ev with
  | ZfsTick hung => zfs_tick hung
  | MrfTick => mrf_tick
  | ScrubCycle => scrub_cycle
  | SlowTick => slow_tick
  | MigrateTick => migrate_tick
  | GcTick => gc_tick
  | Reload new => reload new
  end.
(** A task that panics stops; the others go on. *)
Definition run_events (evs : list event) : DM unit :=
  miter (λ ev, match! step_event ev with! _ => mret tt) evs.

(** ** Shutdown *)

Inductive drained := Drained | DrainTimeout | StillDraining.
#[global] Instance drained_eq_dec : EqDecision drained.
Proof. solve_decision. Defined.

Definition DRAIN_TIMEOUT : Z := 30 * 10 ^ 9.
Definition DRAIN_POLL : Z := 50 * 10 ^ 6.

(** The loop from time [t]: [inflight] and [now] are what the next polls
    read. *)
Fixpoint drain_wait (polls : list (Z * Z)) (deadline : Z) : drained :=
  match polls with
  | [] => StillDraining
  | (inflight, now) :: polls =>
      if inflight =? 0 then Drained else if deadline <=? now then DrainTimeout else drain_wait polls deadline
  end.

(** What ctrl-c does at time [t]; the requests in flight end as [ending]. *)
Definition graceful_shutdown (t : Z) (polls : list (Z * Z)) (ending : DM unit) : DM drained :=
  do! tell shutdown;
  do! ending;
  match drain_wait polls (t + DRAIN_TIMEOUT) with
  | StillDraining => mret StillDraining
  | r => do! tell flush_all; mret r
  end.
End Loops.
