(* ===== verification/DaemonFacts.v ===== *)
(** * What a start guarantees

    A daemon that started has a pool in shape, whose quorums can be reached
    by the disks it has, and which sends nothing to a disk that did not open;
    one whose disks were swapped does not start.

    Second part: What the background tasks keep. *)

From Stdlib Require Import ZArith Lia SpecFloat Strings.Byte.
From stdpp Require Import base list gmap strings pretty.
From S2P Require Import Prelude F64 Text Domain Paging Piece Health Latency DiskSlow Shard Erasure Verified Metrics Throttle HealQueue PoolState Pool PoolFacts PoolRead PoolWrite Repair RepairFacts Migrate PoolKeep ResilverFacts Drain Cache SigV4 Zfs ZfsFacts Fs Snapshot Exposition Admin Safe Daemon DaemonLoops.
Open Scope Z_scope.

(** ** Steps that succeeded *)

Lemma then_ok {S E A B} (c : M S E A) (k : A → M S E B) s b s' :
  mthen c k s = (Ok b, s') → ∃ a s1, c s = (Ok a, s1) ∧ k a s1 = (Ok b, s').
Proof. unfold mthen. destruct (c s) as [[a | e] s1]; [by exists a, s1 | done]. Qed.
Lemma lift_ok {S E A} (r : result E A) (s s' : S) a : mlift r s = (Ok a, s') → r = Ok a ∧ s' = s.
Proof. unfold mlift. by intros [= -> ->]. Qed.
Lemma and_then_ok {A B} (r : Result A) (k : A → Result B) b : and_then r k = Ok b → ∃ a, r = Ok a ∧ k a = Ok b.
Proof. destruct r as [a | e]; [by exists a | done]. Qed.
Lemma ensure_ok b m u : ensure b m = Ok u → b = true.
Proof. by destruct b. Qed.

(** ** Checks *)

Lemma checked c u : check_config c = Ok u →
  (1 ≤ c_write_quorum c ≤ c_replicas c ∧ c_replicas c ≤ disk_count c)%nat.
Proof.
  unfold check_config. cbv zeta. intros ([] & _ & (_ & _ & ([] & H3%ensure_ok & ([] & H4%ensure_ok & H5%ensure_ok)%and_then_ok)%and_then_ok)%and_then_ok)%and_then_ok.
  apply andb_prop in H5 as [H5 H6]. rewrite !Nat.leb_le in *. lia.
Qed.

(** The erasure code of a pool with [n] disks, if it has one. *)
Definition code_ok (n : nat) (ec : option EcConfig) : Prop :=
  ∀ e, ec = Some e → (1 ≤ ec_data e ∧ 1 ≤ ec_parity e ∧ ec_data e ≤ ec_write_quorum e ≤ ec_total e ∧ ec_total e ≤ n)%nat.

Lemma code_checked c ec : ec_config c = Ok ec → code_ok (disk_count c) ec.
Proof.
  unfold ec_config. cbv zeta. case_bool_decide.
  - intros ([] & Hk%ensure_ok & ([] & Hn%ensure_ok & [= <-])%and_then_ok)%and_then_ok e [= <-].
    apply andb_prop in Hk as [Hk Hm]. rewrite !Nat.leb_le in *. unfold ec_total. cbn [ec_data ec_parity ec_write_quorum].
    unfold clamp. lia.
  - case_bool_decide; [| done]. by intros [= <-] e.
Qed.

(** ** Shards *)

Section Started.
Context {D E : Type} `{OE : !OpenEngine D E} `{SE : !ShardEngine E} `{ME : !MaintEngine E}
  `{PP : !PlacementPolicy} `{PPS : !PlacementSpec}.
Context {R : Type} `{RN : !Runner R}.
Implicit Types (p : pool (slot E)).

Abbreviation alive l := (filter (λ s, live s = true) l).

(** The numbers are those of the stubs. *)
Record opened (acc : list (slot E) * list nat) : Prop := {
  op_dead : ∀ i s, acc.1 !! i = Some s → live s = negb (bool_decide (i ∈ acc.2));
  op_range : ∀ i, i ∈ acc.2 → (i < length acc.1)%nat;
  op_count : (length acc.1 = length (alive acc.1) + length acc.2)%nat;
}.

Lemma opened_snoc acc s : opened acc → opened (acc.1 ++ [s], if live s then acc.2 else acc.2 ++ [length acc.1]).
Proof.
  intros [Hd Hr Hc]. split; cbn [fst snd].
  - intros i s' Hi. apply lookup_snoc_Some in Hi as [[Hlt Hi] | [-> ->]].
    + rewrite (Hd _ _ Hi). f_equal. apply bool_decide_ext. destruct (live s); [done |]. rewrite elem_of_app, list_elem_of_singleton.
      split; [by left | intros [? | ->]; [done | lia]].
    + destruct (live s') eqn:Hl.
      * rewrite bool_decide_eq_false_2; [done |]. intros Hi. specialize (Hr _ Hi). lia.
      * rewrite bool_decide_eq_true_2; [done |]. apply elem_of_app. right. by apply list_elem_of_singleton.
  - intros i Hi. rewrite length_app. simpl. assert (i ∈ acc.2 ∨ i = length acc.1) as [H | ->] by (destruct (live s);
      [by left | by apply elem_of_app in Hi as [? | ?%list_elem_of_singleton]; [left | right]]); [specialize (Hr _ H); lia | lia].
  - rewrite filter_app, !length_app, filter_cons, filter_nil. simpl. destruct (live s) eqn:Hl; rewrite ?length_app.
    + rewrite decide_True by done. simpl. lia.
    + rewrite decide_False by done. simpl. lia.
Qed.

Lemma opened_shards c (disks : list D) : opened (open_shards (E := E) c disks) ∧
  length (open_shards (E := E) c disks).1 = length (zip (c_disks c) disks).
Proof.
  unfold open_shards. induction (zip (c_disks c) disks) as [| x l [IH IHl]] using rev_ind.
  { split; [| done]. split; simpl; [by intros i s H; rewrite lookup_nil in H | by intros i ?%not_elem_of_nil | done]. }
  rewrite foldl_app. cbn [foldl]. unfold open_shard. set (acc := foldl _ _ l) in *.
  destruct ((oe_open _ _).1) as [e | e].
  - split; [exact (opened_snoc acc (DiskSlot e) IH) |]. cbn [fst]. rewrite !length_app. simpl. by rewrite IHl.
  - split; [exact (opened_snoc acc NullEngine IH) |]. cbn [fst]. rewrite !length_app. simpl. by rewrite IHl.
Qed.

(** ** Statuses *)

(** [l] are [Faulted], the others as they were. *)
Lemma mark_faulted l p : p_topo p = None →
  let p' := (miter (λ i, set_shard_status i Faulted) l p).2 in
  p_cfg p' = p_cfg p ∧ p_shards p' = p_shards p ∧ p_topo p' = None ∧
  ∀ i, p_statuses p' !! i = if bool_decide (i ∈ l) then (λ _, Faulted) <$> p_statuses p !! i else p_statuses p !! i.
Proof.
  revert p. induction l as [| a l IH]; intros p Ht; [by split_and!; [| | | intros i; rewrite bool_decide_eq_false_2 by apply not_elem_of_nil] |].
  cbn [miter]. set (p1 := (set_shard_status a Faulted p).2).
  change ((mthen (set_shard_status a Faulted) (λ _, miter (λ i, set_shard_status i Faulted) l) p).2)
    with ((miter (λ i, set_shard_status i Faulted) l p1).2).
  assert (p_cfg p1 = p_cfg p ∧ p_shards p1 = p_shards p ∧ p_topo p1 = None ∧
    ∀ i, p_statuses p1 !! i = if decide (i = a) then (λ _, Faulted) <$> p_statuses p !! i else p_statuses p !! i)
    as (Hc & Hs & Ht1 & Hst).
  { unfold p1, set_shard_status, mmodify. simpl. destruct (p_statuses p !! a) as [cur |] eqn:Ha;
      [destruct (decide (cur = Faulted)) as [-> |] |]; simpl; split_and!; try done; intros i; case_decide as Hi; subst;
      rewrite ?Ha; try done; [by rewrite list_lookup_insert_eq by (by eapply lookup_lt_Some) | by rewrite list_lookup_insert_ne]. }
  destruct (IH p1 Ht1) as (Hc2 & Hs2 & Ht2 & Hst2). cbv zeta. split_and!; [congruence | congruence | done |].
  intros i. rewrite Hst2, Hst. rewrite (bool_decide_ext (i ∈ a :: l) (i = a ∨ i ∈ l)) by apply elem_of_cons.
  repeat case_bool_decide; repeat case_decide; try done; try tauto. by destruct (p_statuses p !! i).
Qed.

(** Before the first look at the topology it is made from the statuses. *)
Lemma first_ranking key n p ids p' : p_topo p = None →
  ranking_for key n p = (Ok ids, p') → ids = pp_select key (fresh_topology p) n.
Proof.
  intros Ht H. unfold ranking_for in H. apply then_ok in H as (t & p1 & Hp & [= <- <-]).
  unfold pool_topology in Hp. apply then_ok in Hp as (p2 & ? & [= <- <-] & Hp). rewrite Ht in Hp.
  apply then_ok in Hp as (o & ? & [= <- <-] & Hp). cbv zeta in Hp. apply then_ok in Hp as (t0 & p3 & _ & Hp).
  apply then_ok in Hp as (? & ? & _ & [= <- _]). reflexivity.
Qed.

Lemma fresh_entry p i cap st : (i, cap, st) ∈ fresh_topology p → st ≠ Faulted →
  ∃ s, p_shards p !! i = Some s ∧ p_statuses p !! i ≠ Some Faulted.
Proof.
  intros Hin Hst. apply elem_of_lookup_imap in Hin as (j & s & Heq & Hj). unfold topo_entry in Heq. injection Heq as -> _ ->.
  exists s. split; [done |]. intros Hf. apply Hst. rewrite Hf. reflexivity.
Qed.

(** ** The start *)

(** C13. A daemon that started, on disks of which some may not have opened: the
    quorum is at least one and at most R, at least R disks opened, an erasure
    code fits the disks and its quorum lies between k and k + m; exactly the
    disks that did not open are faulted, and no key is placed on one. *)
Theorem started_pool_is_well_formed c (disks : list D) cache_disk t clock sched w s w' :
  length disks = disk_count c →
  start (E := E) c disks cache_disk t clock sched w = (Ok s, w') →
  let p := sd_pool s in
  (1 ≤ write_quorum (p_cfg p) ≤ replicas (p_cfg p))%nat ∧
  (replicas (p_cfg p) ≤ length (alive (p_shards p)))%nat ∧
  length (p_shards p) = disk_count c ∧ code_ok (length (p_shards p)) (pc_ec (p_cfg p)) ∧ pool_wf p ∧
  (∀ i sh, p_shards p !! i = Some sh → shard_status p i = Some (if live sh then Online else Faulted)) ∧
  (∀ key n ids p', ranking_for key n p = (Ok ids, p') → ∀ i, i ∈ ids → ∃ e, p_shards p !! i = Some (DiskSlot e)).
Proof.
  intros Hlen H. unfold start in H.
  apply then_ok in H as (u1 & ? & [Hc%checked ->]%lift_ok & H). cbv zeta in H.
  destruct (opened_shards c disks) as [Ho Hn]. set (o := open_shards c disks) in *.
  rewrite length_zip_with, Hlen, Nat.min_id in Hn.
  apply then_ok in H as (u2 & ? & [Ha%ensure_ok ->]%lift_ok & H). apply Nat.leb_le in Ha.
  apply then_ok in H as (ec & ? & [Hec%code_checked ->]%lift_ok & H).
  destruct (pool_new o.1 (pool_config c ec) t clock sched) as [p0 |] eqn:Hnew; [| done].
  assert (p_cfg p0 = pool_config c ec ∧ p_shards p0 = o.1 ∧ p_topo p0 = None ∧ p_statuses p0 = replicate (length o.1) Online)
    as (Hcfg & Hsh & Htopo & Hst).
  { unfold pool_new in Hnew. destruct (_ && _); [| done]. destruct (throttle_new _ _ _). by injection Hnew as <-. }
  destruct (mark_faulted o.2 p0 Htopo) as (Hcfg' & Hsh' & Htopo' & Hst'). set (p := (miter _ o.2 p0).2) in *.
  apply then_ok in H as (u3 & w1 & _ & H). apply then_ok in H as (cache & ? & [_ ->]%lift_ok & H).
  apply then_ok in H as (u4 & ? & [_ ->]%lift_ok & H). injection H as <- <-. cbn [sd_pool].
  assert (∀ i sh, p_shards p !! i = Some sh → p_statuses p !! i = Some (if live sh then Online else Faulted)) as Hstatus.
  { intros i sh Hi. rewrite Hsh', Hsh in Hi. pose proof (lookup_lt_Some _ _ _ Hi) as Hlt.
    rewrite Hst', Hst, lookup_replicate_2 by done. rewrite (op_dead _ Ho _ _ Hi). by case_bool_decide. }
  rewrite Hcfg', Hcfg, Hsh', Hsh. unfold pool_config. cbn [write_quorum replicas pc_ec].
  pose proof (op_count _ Ho). split_and!; try lia.
  - by rewrite Hn.
  - intros tc Htc. by rewrite Htopo' in Htc.
  - intros i sh Hi. unfold shard_status. apply Hstatus. by rewrite Hsh', Hsh.
  - intros key n ids p' Hrank i Hi. rewrite (first_ranking _ _ _ _ _ Htopo' Hrank) in Hi.
    destruct (pp_alive _ _ _ _ Hi) as (cap & st & Hin & Hnf). destruct (fresh_entry _ _ _ _ Hin Hnf) as (sh & Hsi & Hne).
    rewrite (Hstatus _ _ Hsi) in Hne. rewrite Hsh', Hsh in Hsi. destruct sh as [e |]; [by exists e | done].
Qed.

(** ** Swapped disks *)

Lemma lift_same {S E0 A} (r : result E0 A) (s s' : S) x : mlift r s = (x, s') → s' = s.
Proof. destruct r; by intros [= _ <-]. Qed.

Lemma iter_ok_at {S E0 A} (f : A → M S E0 unit) l i a s s' :
  l !! i = Some a → miter f l s = (Ok tt, s') →
  ∃ s1 s2, miter f (take i l) s = (Ok tt, s1) ∧ f a s1 = (Ok tt, s2).
Proof.
  revert i s. induction l as [| b l IH]; intros [| i] s Hi H; simplify_eq/=.
  - apply then_ok in H as ([] & s1 & Hf & _). by exists s, s1.
  - apply then_ok in H as ([] & s1 & Hf & H). destruct (IH i s1 Hi H) as (s2 & s3 & Ht & Ha).
    exists s2, s3. split; [| done]. unfold mthen. by rewrite Hf.
Qed.

Lemma iter_keeps {S E0 A} (P : S → Prop) (f : A → M S E0 unit) l s : 
  P s → (∀ a s, a ∈ l → P s → P (f a s).2) → P (miter f l s).2.
Proof.
  revert s. induction l as [| a l IH]; intros s Hs Hf; [done |]. simpl. unfold mthen.
  pose proof (Hf a s ltac:(left) Hs) as H. destruct (f a s) as [[u | e] s1]; [| done].
  apply IH; [done |]. intros b s2 Hb. apply Hf. by right.
Qed.

(** The datasets of the configuration: none is below another. *)
Definition side_by_side (c : Config) : Prop := ∀ i j zp zp',
  zfs_pools c !! i = Some (Some zp) → zfs_pools c !! j = Some (Some zp') → ¬ below (zp_dataset zp) (zp_dataset zp').

(** Their numbers, if they have one, can be read; and a dataset that had one
    in [w] has the same in [w']. *)
Definition legible (c : Config) (prop_of : R → bytes → bytes → option bytes) (w : R) : Prop := ∀ j zp v,
  zfs_pools c !! j = Some (Some zp) → prop_of w (zp_dataset zp) SHARD_ID = Some v → readable v.
Definition same_numbers (c : Config) (prop_of : R → bytes → bytes → option bytes) (w w' : R) : Prop := ∀ j zp v,
  zfs_pools c !! j = Some (Some zp) → prop_of w (zp_dataset zp) SHARD_ID = Some v →
  prop_of w' (zp_dataset zp) SHARD_ID = Some v.

Section Numbers.
Context (c : Config) (prop_of : R → bytes → bytes → option bytes) (law : dataset_law prop_of) (flat : side_by_side c).

Lemma check_identity_keeps j zp w :
  zfs_pools c !! j = Some (Some zp) → legible c prop_of w →
  legible c prop_of (check_identity (j, Some zp) w).2 ∧ same_numbers c prop_of w (check_identity (j, Some zp) w).2.
Proof.
  intros Hj Hl.
  assert (wp (ensure_identity zp (wrap 16 (Z.of_nat j)) (str "v1"))
    (λ _ w', legible c prop_of w' ∧ same_numbers c prop_of w w') w) as Hwp.
  { pose proof (wrap_bound 16 (Z.of_nat j) ltac:(lia)) as Hb.
    eapply wp_mono; [apply (wp_ensure_identity zp prop_of law _ _ w (proj1 Hb)); intros v; by apply (Hl j) |].
    intros res w' [Hout Hother].
    assert (∀ k zp' v, zfs_pools c !! k = Some (Some zp') → prop_of w' (zp_dataset zp') SHARD_ID = Some v →
      prop_of w (zp_dataset zp') SHARD_ID = Some v ∨ v = show (wrap 16 (Z.of_nat j)) ∧ prop_of w (zp_dataset zp') SHARD_ID = None) as Hnew.
    { intros k zp' v Hk Hv. destruct (decide (zp_dataset zp' = zp_dataset zp)) as [He | Hne].
      - rewrite He in *. unfold identity_outcome in Hout. destruct (prop_of w (zp_dataset zp) SHARD_ID) eqn:Ho;
          [destruct Hout as [Hs _]; left; by rewrite Hs, Ho in Hv |].
        right. destruct res as [[] |]; [destruct Hout; split; congruence | done | done | destruct Hout; split; congruence].
      - left. by rewrite <-Hother by (done || by eapply flat). }
    split.
    - intros k zp' v Hk Hv. destruct (Hnew k zp' v Hk Hv) as [Hv' | [-> _]]; [by eapply Hl | apply readable_show; lia].
    - intros k zp' v Hk Hv. destruct (decide (zp_dataset zp' = zp_dataset zp)) as [He | Hne].
      + rewrite He in *. unfold identity_outcome in Hout. rewrite Hv in Hout. destruct Hout as [Hs _]. by rewrite Hs.
      + by rewrite Hother by (done || by eapply flat). }
  unfold check_identity, mcatch. unfold wp in Hwp. destruct (ensure_identity _ _ _ w) as [[[] |] w'] eqn:Hrun; exact Hwp.
Qed.

Lemma identities_keep l w :
  (∀ j zp, (j, Some zp) ∈ l → zfs_pools c !! j = Some (Some zp)) → legible c prop_of w →
  legible c prop_of (miter check_identity l w).2 ∧ same_numbers c prop_of w (miter check_identity l w).2.
Proof.
  intros Hl Hw. apply (iter_keeps (λ w0, legible c prop_of w0 ∧ same_numbers c prop_of w w0)).
  - split; [done |]. by intros j zp v.
  - intros [j [zp |]] w0 Hin [Hl0 Hs0]; [| by split]. destruct (check_identity_keeps j zp w0 (Hl j zp Hin) Hl0) as [H1 H2].
    split; [done |]. intros k zp' v Hk Hv. eapply H2; [done |]. by eapply Hs0.
Qed.
End Numbers.

Lemma pools_indexed c n j zp : (j, Some zp) ∈ take n (imap pair (zfs_pools c)) → zfs_pools c !! j = Some (Some zp).
Proof.
  intros (k & [Hk _]%lookup_take_Some)%list_elem_of_lookup. rewrite list_lookup_imap in Hk.
  destruct (zfs_pools c !! k) as [o |] eqn:Hz; [| done]. by injection Hk as -> ->.
Qed.

(** Whatever a start does, it goes no further with the datasets than the check
    of the identities. *)
Lemma start_numbers c (disks : list D) cache_disk t clock sched w prop_of :
  dataset_law prop_of → side_by_side c → legible c prop_of w →
  same_numbers c prop_of w (start (E := E) c disks cache_disk t clock sched w).2.
Proof.
  intros law flat Hl. assert (same_numbers c prop_of w w) as Hrefl by by intros j zp v.
  unfold start. unfold mthen at 1. destruct (mlift (check_config c) w) as [[] w1] eqn:H1; apply lift_same in H1 as ->; [| done].
  cbv zeta. unfold mthen at 1. destruct (mlift (check_alive _ _) w) as [[] w2] eqn:H2; apply lift_same in H2 as ->; [| done].
  unfold mthen at 1. destruct (mlift (ec_config c) w) as [[] w3] eqn:H3; apply lift_same in H3 as ->; [| done].
  destruct (pool_new _ _ _ _ _) as [p |]; [| done]. unfold mthen at 1.
  pose proof (identities_keep c prop_of law flat (imap pair (zfs_pools c)) w) as Hk.
  destruct (miter check_identity _ w) as [[] w4]; cbn [snd] in *.
  2: { apply Hk; [| done]. intros j zp Hin. by apply (pools_indexed c (length (imap pair (zfs_pools c)))); rewrite take_ge. }
  assert (same_numbers c prop_of w w4) as H4.
  { apply Hk; [| done]. intros j zp Hin. by apply (pools_indexed c (length (imap pair (zfs_pools c)))); rewrite take_ge. }
  unfold mthen at 1. destruct (mlift (open_cache c cache_disk) w4) as [[] w5] eqn:H5; apply lift_same in H5 as ->; [| done].
  unfold mthen at 1. destruct (mlift (ensure _ _) w4) as [[] w6] eqn:H6; apply lift_same in H6 as ->; done.
Qed.

End Started.

(** * What the background tasks keep

    Whatever the background tasks of a mirrored pool do, in any order and for
    ever, no copy of a body is lost or changed; the shutdown comes to its end;
    the background migration is the full migration, a step at a time. *)

Section Loops.
Context {E : Type} `{SE : !ShardEngine E, DS : !DiskSpec E, WES : !WalkEngineSpec E, SD : !SturdyDisk E}
  `{ME : !MaintEngine E, MES : !MaintEngineSpec E, SM : !SturdyMaint E} `{SCS : !ScrubEngineSpec E}
  `{PP : !PlacementPolicy} `{PPS : !PlacementSpec} `{RS : !ReedSolomon}.
Context {R : Type} `{RN : !Runner R} (lc : LoopConfig).
Implicit Types (d : daemon E R).
Local Abbreviation calm c := (harmless (E := E) (@dm_pool E R) c).

Lemma calm_in_pool {A} (c : M (pool E) DomainError A) : harmless (λ p, p) c → calm (in_pool (R := R) c).
Proof. intros Hc d G. specialize (Hc (dm_pool d) G). unfold wp, in_pool in *. by destruct (c (dm_pool d)). Qed.
Lemma calm_in_runner {A} (c : M R ZfsError A) : calm (in_runner c).
Proof. intros d _. unfold wp, in_runner. by destruct (c (dm_runner d)). Qed.
Lemma calm_tell c : harmless (λ p, p) c → calm (tell (R := R) c).
Proof. intros Hc. unfold tell. apply harmless_catch; [by apply calm_in_pool |]. intros r. apply harmless_ret. Qed.
Lemma calm_set (f : daemon E R → daemon E R) : (∀ d, dm_pool (f d) = dm_pool d) → calm (mmodify (E := bytes) f).
Proof. intros Hf. apply harmless_modify. intros d. by rewrite Hf. Qed.

#[local] Hint Resolve calm_in_pool calm_in_runner calm_tell : harmless.
#[local] Hint Extern 2 (harmless _ (mmodify _)) => apply calm_set; reflexivity : harmless.

Lemma calm_zfs hung : calm (zfs_tick lc hung).
Proof. unfold zfs_tick, zfs_tick_one. harmless_auto. Qed.
Lemma calm_mrf : calm mrf_tick.
Proof. unfold mrf_tick. harmless_auto. Qed.
Lemma calm_scrub : calm (scrub_cycle lc).
Proof. unfold scrub_cycle, scrub_cycle_one. harmless_auto. Qed.
Lemma calm_slow : calm slow_tick.
Proof. unfold slow_tick, slow_tick_one. harmless_auto. Qed.
Lemma calm_migrate : calm (migrate_tick lc).
Proof. unfold migrate_tick. harmless_auto. Qed.
Lemma calm_gc : calm (gc_tick lc).
Proof.
  unfold gc_tick, gc_tick_one. harmless_auto. apply calm_in_pool. harmless_auto.
Qed.
Lemma calm_reload new : calm (reload new).
Proof. unfold reload. harmless_auto. Qed.

Lemma calm_event ev : calm (step_event lc ev).
Proof.
  destruct ev; simpl; auto using calm_zfs, calm_mrf, calm_scrub, calm_slow, calm_migrate, calm_gc, calm_reload.
Qed.

End Loops.

(** ** Shutdown *)

(** The wait for the requests in flight ends: polls that are at least
    50 ms apart see the last request end, or the deadline of 30 s pass, within
    601 of them, and the flush runs. *)
Theorem shutdown_ends {E R} `{SE : !ShardEngine E} (t : Z) (polls : list (Z * Z)) (ending : M (daemon E R) bytes unit) d :
  (∀ j n now, polls !! j = Some (n, now) → t + Z.of_nat j * DRAIN_POLL <= now) → (600 < length polls)%nat →
  drain_wait polls (t + DRAIN_TIMEOUT) ≠ StillDraining ∧
  ∀ d1, (do! tell shutdown; ending)%rust d = (Ok tt, d1) →
    (graceful_shutdown t polls ending d).2 = (tell flush_all d1).2.
Proof.
  intros Hpolls Hlen.
  assert (drain_wait polls (t + DRAIN_TIMEOUT) ≠ StillDraining) as Hw.
  { assert (∀ l j, (∀ i n now, l !! i = Some (n, now) → t + Z.of_nat (j + i) * DRAIN_POLL <= now) → (600 < j + length l)%nat →
      (j <= 600)%nat → drain_wait l (t + DRAIN_TIMEOUT) ≠ StillDraining) as Hgo.
    { induction l as [| [n now] l IH]; intros j Hl Hn Hj; simpl in *; [lia |].
      destruct (n =? 0); [done |]. destruct (Z.leb_spec (t + DRAIN_TIMEOUT) now) as [| Hlt]; [done |].
      pose proof (Hl 0%nat n now eq_refl) as H0. unfold DRAIN_TIMEOUT, DRAIN_POLL in *.
      apply (IH (S j)); [| lia | lia]. intros i n' now' Hi. specialize (Hl (S i) n' now' Hi).
      replace (S j + i)%nat with (j + S i)%nat by lia. done. }
    apply (Hgo polls 0%nat); [exact Hpolls | simpl; lia | lia]. }
  split; [done |]. intros d1 Hd. unfold graceful_shutdown. unfold mthen in *.
  destruct (tell shutdown d) as [[[] | e] d0]; [| done]. rewrite Hd. destruct (drain_wait _ _); [| | done];
    unfold tell, mcatch; by destruct (in_pool flush_all d1) as [r2 d2].
Qed.

(** ** Migration *)

Section Turns.
Context {E : Type} `{SE : !ShardEngine E} `{PP : !PlacementPolicy} `{RS : !ReedSolomon}.
Implicit Types (p : pool E).
Local Open Scope rust_scope.
Local Abbreviation PM := (M (pool E) DomainError).

(** No shard comes or goes. *)
Definition same_size {A} (c : PM A) : Prop := ∀ p, wp c (λ _ p', length (p_shards p') = length (p_shards p)) p.

Lemma size_same {A} (c : PM A) : (∀ p, p_shards (c p).2 = p_shards p) → same_size c.
Proof. intros Hc p. unfold wp. by rewrite Hc. Qed.
Lemma size_bind {A B} (c : PM A) (k : A → PM B) : same_size c → (∀ a, same_size (k a)) → same_size (mthen c k).
Proof.
  intros Hc Hk p. apply wp_bind. eapply wp_mono; [apply Hc |]. intros [a | e] p1 H1; [| done].
  eapply wp_mono; [apply Hk |]. intros r p2 H2. congruence.
Qed.
Lemma size_catch {A B} (c : PM A) (k : DomainResult A → PM B) : same_size c → (∀ r, same_size (k r)) → same_size (mcatch c k).
Proof.
  intros Hc Hk p. apply wp_catch. eapply wp_mono; [apply Hc |]. intros r p1 H1.
  eapply wp_mono; [apply Hk |]. intros r' p2 H2. congruence.
Qed.
Lemma size_fold {A B} (f : B → A → PM B) acc l : (∀ acc a, same_size (f acc a)) → same_size (mfold f acc l).
Proof. intros Hf. revert acc. induction l as [| a l IH]; intros acc; simpl; [by apply size_same |]. by apply size_bind. Qed.
Lemma size_iter {A} (f : A → PM unit) l : (∀ a, same_size (f a)) → same_size (miter f l).
Proof. intros Hf. induction l as [| a l IH]; simpl; [by apply size_same |]. by apply size_bind. Qed.
Lemma size_on_shard {A} i (c : M E DomainError A) : same_size (on_shard i c).
Proof.
  intros p. unfold wp, on_shard. destruct (p_shards p !! i) as [s |]; [| done]. destruct (c s). apply length_insert.
Qed.
Lemma size_look {A} i (f : E → DomainResult A) : same_size (look_shard i f).
Proof. intros p. unfold wp, look_shard. by destruct (p_shards p !! i). Qed.
Lemma size_meter {A} (f : meters → A * meters) : same_size (meter f).
Proof. intros p. unfold wp, meter. by destruct (f (p_meters p)). Qed.
Lemma size_modify f : (∀ p, p_shards (f p) = p_shards p) → same_size (mmodify f).
Proof. intros Hf. apply size_same. apply Hf. Qed.

Ltac size_step :=
  match goal with
  | |- ∀ _, _ => intro
  | |- same_size (if ?b then _ else _) => destruct b
  | |- same_size (match ?x with _ => _ end) => destruct x
  | |- same_size (mret _) => by apply size_same
  | |- same_size (mthrow _) => by apply size_same
  | |- same_size (mlift _) => by apply size_same
  | |- same_size mget => by apply size_same
  | |- same_size (mmodify _) => by apply size_modify
  | |- same_size (meter _) => apply size_meter
  | |- same_size (on_shard _ _) => apply size_on_shard
  | |- same_size (look_shard _ _) => apply size_look
  | |- same_size (mthen _ _) => apply size_bind
  | |- same_size (mcatch _ _) => apply size_catch
  | |- same_size (mfold _ _ _) => apply size_fold
  | |- same_size (miter _ _) => apply size_iter
  | H : _ |- same_size _ => apply H
  end.
Ltac size_auto := repeat (size_step; cbv beta zeta).

Lemma size_metered {A} i (c : PM A) : same_size c → same_size (metered i c).
Proof. intros Hc. unfold metered, now. size_auto. Qed.
Lemma size_shard_put_meta i key d o : same_size (shard_put_meta i key d o).
Proof. apply size_metered, size_on_shard. Qed.
Lemma size_shard_get i key : same_size (shard_get i key).
Proof. apply size_metered, size_look. Qed.
Lemma size_has i key : same_size (has_or_false i key).
Proof. unfold has_or_false, shard_has. size_auto. Qed.
Lemma size_bg n : same_size (bg_acquire n).
Proof. unfold bg_acquire, now. size_auto. Qed.
Lemma size_ranking key n : same_size (ranking_for key n).
Proof. unfold ranking_for, pool_topology, now. size_auto. Qed.
Lemma size_any_holds key ids : same_size (any_holds key ids).
Proof. pose proof size_has. induction ids; simpl; size_auto. Qed.
Lemma size_get_any key ids : same_size (get_any key ids).
Proof. pose proof size_shard_get. induction ids; simpl; size_auto. Qed.
Lemma size_write_tail key pieces obj legs : same_size (write_tail key pieces obj legs).
Proof.
  pose proof size_shard_get. pose proof size_shard_put_meta. induction legs; simpl; size_auto.
Qed.

Lemma size_migrate_key key ec : same_size (migrate_key key ec).
Proof.
  pose proof size_ranking. pose proof size_any_holds. pose proof size_get_any. pose proof size_write_tail. pose proof size_bg.
  pose proof size_shard_get. pose proof size_shard_put_meta. pose proof size_has.
  unfold migrate_key, migrate_body, backfill, write_head, drop_at, split_holders, enqueue_heal, count, mrf_push, shard_stat,
    shard_stat_obj, shard_delete. size_auto.
Qed.

(** What one step says, when it says something. *)
Lemma migrate_step_report after batch p r p' : migrate_step after batch p = (Ok r, p') →
  length (p_shards p') = length (p_shards p) ∧ ((0 < batch)%nat → mr_last_key r = None → mr_done r = true).
Proof.
  pose proof size_migrate_key as Hk. intros H. split.
  - assert (same_size (migrate_step after batch)) as Hs by (unfold migrate_step, count; size_auto).
    exact (wp_run _ _ _ _ _ (Hs p) H).
  - intros Hb. unfold migrate_step in H. apply then_ok in H as (p0 & ? & [= <- <-] & H).
    destruct (pc_ec (p_cfg p)) as [ec |]; [| done]. apply then_ok in H as (page & ? & [Hl ->]%lift_ok & H). cbv zeta in H.
    apply then_ok in H as (rep & p1 & Hf & H). do 3 (apply then_ok in H as (? & ? & _ & H)). injection H as <- _.
    assert (∀ (keys : list BlockKey) r0 p0 r1 p1, mfold (λ rep key, (match! migrate_key key ec with! o => mret (count_outcome rep o)) : PM MigrateReport) r0 keys p0 = (Ok r1, p1) →
      mr_last_key r1 = mr_last_key r0 ∧ mr_done r1 = mr_done r0) as Hkeep.
    { induction keys as [| k keys IH]; intros r0 p2 r1 p3 Hr; simpl in Hr; [by injection Hr as <- _ |].
      apply then_ok in Hr as (r2 & p4 & H2 & Hr). unfold mcatch in H2. destruct (migrate_key k ec p2) as [o p5].
      injection H2 as <- _. destruct (IH _ _ _ _ Hr) as [-> ->]. done. }
    destruct (Hkeep _ _ _ _ _ Hf) as [-> ->]. cbn [mr_last_key mr_done]. intros Hlast. apply last_None in Hlast. rewrite Hlast.
    by apply Nat.ltb_lt.
Qed.

(** A cursor that is saved is the one that is loaded next. *)
Context (saved : ∀ (s : E) n pos, ∃ s', se_save_cursor n pos s = (Ok tt, s') ∧ se_load_cursor s' n = Ok pos).

(** The turns of the background task until one says that the pass is done. *)
Fixpoint migrate_turns (fuel batch : nat) (total : MigrateReport) : PM (option MigrateReport) :=
  match fuel with
  | O => mret None
  | S fuel =>
      let! r := migrate_turn batch in
      if mr_done r then mret (Some (migrate_sum total r true)) else migrate_turns fuel batch (migrate_sum total r false)
  end.

Lemma keep_cursor_loads name pos p : p_shards p ≠ [] →
  ∃ p', keep_cursor name pos p = (Ok tt, p') ∧ p_shards p' ≠ [] ∧
    look_shard 0%nat (λ s, se_load_cursor s name) p' = (Ok pos, p').
Proof.
  intros Hne. unfold keep_cursor, mcatch, on_shard, look_shard. destruct (p_shards p) as [| s l] eqn:Hs; [done |]. cbn [lookup list_lookup].
  destruct (saved s name pos) as (s' & -> & Hl). eexists. split; [reflexivity |]. simpl. by rewrite Hl.
Qed.

(** C36. The background migration, one batch a turn from the cursor on the first
    shard, is the full migration: it makes the same changes in the same order,
    ends at the same point, and adds up to the same report. *)
Theorem turns_are_the_full_migration fuel batch after p :
  (0 < batch)%nat → p_shards p ≠ [] → look_shard 0%nat (λ s, se_load_cursor s "migrate") p = (Ok after, p) →
  (let! r := migrate_turns fuel batch MigrateReport_default in do! flush_all; mret r) p = migrate_full fuel batch p.
Proof.
  intros Hb Hne Hcur.
  assert (migrate_turns fuel batch MigrateReport_default p = migrate_loop fuel batch after MigrateReport_default p) as Heq.
  2: { unfold migrate_full, mthen in *. by rewrite Hcur, Heq. }
  generalize MigrateReport_default as total. revert after p Hne Hcur.
  induction fuel as [| fuel IH]; intros after p Hne Hcur total; [done |]. simpl. unfold migrate_turn, mcatch, mthen. rewrite Hcur.
  destruct (migrate_step after batch p) as [[r | e] p1] eqn:Hstep; [| done].
  destruct (migrate_step_report _ _ _ _ _ Hstep) as [Hlen Hlast].
  assert (p_shards p1 ≠ []) as Hne1 by (intros H1; rewrite H1 in Hlen; symmetry in Hlen; by apply nil_length_inv in Hlen).
  destruct (mr_done r) eqn:Hd; cbn [orb].
  - destruct (keep_cursor_loads "migrate" None p1 Hne1) as (p2 & Hk & _). unfold mthen, mret in *. rewrite Hk, Hd. done.
  - rewrite bool_decide_eq_false_2 by (intros Hn; by specialize (Hlast Hb Hn)).
    destruct (keep_cursor_loads "migrate" (mr_last_key r) p1 Hne1) as (p2 & Hk & Hne2 & Hcur2).
    unfold mthen, mret in *. rewrite Hk, Hd. by apply IH.
Qed.
End Turns.
