(* ===== verification/Vault.v ===== *)
(** * Pools of pieces and copies keep every body

    On a pool with erasure coding a key may be stored as copies, as pieces, or
    as both after a migration that did not finish. [vault]: every body of a
    catalogue can be read, and nothing else is there. As long as no disk
    changes its rank, repair, scrub, resilver, healing, migration and
    collection keep that, in any order and whatever fails. *)

From Stdlib Require Import ZArith Lia.
From stdpp Require Import base list gmap sets strings.
From S2P Require Import Prelude F64 Text Domain Paging Piece Latency DiskSlow Shard Erasure Verified Metrics Throttle HealQueue PoolState Pool PoolFacts PoolRead PoolEcRead PoolWrite PoolEcWrite Repair RepairFacts Migrate PoolKeep ResilverFacts Drain MigrateFacts Zfs Fs Snapshot Exposition Admin Daemon DaemonLoops.

(** ** Steps that change the places of one body *)

Section Touched.
Context {E : Type} `{SE : !ShardEngine E, DS : !DiskSpec E} `{PP : !PlacementPolicy} `{RS : !ReedSolomon}.
Implicit Types (p : pool E).

(** Only [key] reads differently. *)
Record touched (key : BlockKey) p p' : Prop := {
  tc_cfg : p_cfg p' = p_cfg p;
  tc_wf : pool_wf p → pool_wf p';
  tc_steady : ∀ t, steady t p → steady t p';
  tc_ok : Forall se_ok (p_shards p) → Forall se_ok (p_shards p');
  tc_other : ∀ i k, k ≠ key → read_at p' i k = read_at p i k;
}.
#[global] Instance touched_preorder key : PreOrder (touched key).
Proof.
  split; [by intros p |]. intros p1 p2 p3 [C1 W1 T1 O1 R1] [C2 W2 T2 O2 R2].
  split; [congruence | auto | auto | auto |]. intros i k Hk. by rewrite R2, R1.
Qed.

Lemma touched_still key p p' : still p p' → touched key p p'.
Proof.
  intros S. split; [apply S | apply S | apply S | by rewrite (still_shards _ _ S) |]. intros i k _. by apply read_at_still.
Qed.
Lemma touched_moved key D p p' : moved key p D p' → touched key p p'.
Proof. intros []. by split. Qed.
Lemma touched_wrote key W T p q p' : Forall se_ready (p_shards p) → wrote p key W T q p' → touched key p p'.
Proof.
  intros Hr HW. split; [apply HW | intros _; apply HW | apply HW | intros _; by eapply wrote_ok |].
  intros i k Hk. rewrite (wrote_read _ _ _ _ _ _ _ _ HW). destruct (W !! i); [by rewrite decide_False | done].
Qed.
End Touched.

Section OneKey.
Context {E : Type} `{SE : !ShardEngine E, DS : !DiskSpec E} `{PP : !PlacementPolicy} `{PPS : !PlacementSpec}
  `{RS : !ReedSolomon} `{BO : !Bao}.
Context (key : BlockKey) (k m : nat) (body : bytes) (pieces : list bytes) (Hps : piece_set k m body pieces).
Context (Hplain : parse_piece_header body = None) (targets : list ShardId) (Hnd : NoDup targets).
Implicit Types (p : pool E).
Local Abbreviation PM := (M (pool E) DomainError).
Local Abbreviation piece r := (nth r pieces []).
Local Abbreviation settled p := (settled key k body pieces targets p).

(** More copies of the body, where nothing could be read. *)
Lemma settled_copied p p' : settled p →
  (∀ i, read_at p' i key = read_at p i key ∨ reads p i key = false ∧ read_at p' i key = Ok body) → settled p'.
Proof.
  intros (Hmix & Hrk & Hrd) Hch. split_and!.
  - intros i b Hb. destruct (Hch i) as [Heq | [_ Heq]]; [rewrite Heq in Hb; by apply (Hmix i) |]. left. split; [congruence | done].
  - intros r i b j Hi Hb Hj. destruct (Hch i) as [Heq | [_ Heq]]; [rewrite Heq in Hb; by apply (Hrk r i b) |].
    assert (b = body) as -> by congruence. by rewrite (ps_header _ _ _ _ Hps _ _ Hj) in Hplain.
  - destruct Hrd as [(A & HA & Hk) | (_ & r & i & Hi & Hb & Hmin)]; [left | right; split; [done |]].
    + exists A. split; [| done]. intros j Hj. destruct (HA j Hj) as (i & b & Hb & Hjb). exists i, b. split; [| done].
      destruct (Hch i) as [-> | [Hf _]]; [done |]. by eapply reads_false in Hf.
    + assert (∀ i' b, read_at p i' key = Ok b → read_at p' i' key = Ok b) as Hkeep.
      { intros i' b Hb'. destruct (Hch i') as [-> | [Hf _]]; [done |]. by eapply reads_false in Hf. }
      destruct (least_index (λ i, reads p' i key) targets) as (r' & i' & Hi' & Hr' & Hmin').
      { exists i. split; [by eapply list_elem_of_lookup_2 |]. apply reads_true. eauto. }
      exists r', i'. split; [done |]. split; [| intros r2 i2 b2 Hlt H2 Hb2; specialize (Hmin' r2 i2 Hlt H2); by eapply reads_false in Hmin'].
      apply reads_true in Hr' as [v Hv]. destruct (Hch i') as [Heq | [_ Heq]]; [| done].
      destruct (Nat.lt_trichotomy r' r) as [Hlt | [-> | Hlt]].
      * rewrite Heq in Hv. by destruct (Hmin r' i' v Hlt Hi').
      * assert (i' = i) as -> by congruence. by apply Hkeep.
      * specialize (Hmin' r i Hlt Hi). eapply reads_false in Hmin'. by destruct Hmin'; apply Hkeep.
Qed.

(** Pieces on the shards of their ranks, when [k] of them are there. *)
Lemma settled_pieced p p' A : settled p → available key pieces p A → (k ≤ size A)%nat → (length targets ≤ length pieces)%nat →
  (∀ i, read_at p' i key = read_at p i key ∨ ∃ r, targets !! r = Some i ∧ read_at p' i key = Ok (piece r)) → settled p'.
Proof.
  intros (Hmix & Hrk & _) HA HkA Hlen Hch.
  assert (∀ r i, targets !! r = Some i → pieces !! r = Some (piece r)) as Hpiece.
  { intros r i Hi. apply lookup_lt_Some in Hi. destruct (lookup_lt_is_Some_2 pieces r) as [b Hb]; [lia |].
    by rewrite (nth_lookup_Some _ _ _ _ Hb). }
  split_and!.
  - intros i b Hb. destruct (Hch i) as [Heq | (r & Hi & Heq)]; [rewrite Heq in Hb; by apply (Hmix i) |].
    right. exists r. assert (b = piece r) as -> by congruence. by apply (Hpiece r i).
  - intros r i b j Hi Hb Hj. destruct (Hch i) as [Heq | (r' & Hi' & Heq)]; [rewrite Heq in Hb; by apply (Hrk r i b) |].
    assert (r' = r) as -> by (by eapply NoDup_lookup). assert (b = piece r) as -> by congruence.
    eapply (piece_index k m body pieces Hps); [by apply (Hpiece r i) | done].
  - left. exists A. split; [| done]. intros j Hj. destruct (HA j Hj) as (i & b & Hb & Hjb). exists i, b. split; [| done].
    destruct (Hch i) as [-> | (r & Hi & Heq)]; [done |]. rewrite Heq. pose proof (Hrk r i b j Hi Hb Hjb) as ->.
    by rewrite (nth_lookup_Some _ _ _ _ Hjb).
Qed.
End OneKey.

(** ** Repair *)

(** The filled slots from number [o] on. *)
Lemma filled_ranks {A} (slots : list (option A)) (o : nat) :
  ∃ X : gset nat, size X = have slots ∧ ∀ j, j ∈ X → (o ≤ j)%nat ∧ ∃ b, slots !! (j - o)%nat = Some (Some b).
Proof.
  revert o. induction slots as [| s slots IH]; intros o; [exists ∅; split; [done | set_solver] |].
  destruct (IH (S o)) as (X & Hsz & HX).
  assert (∀ j, j ∈ X → (o ≤ j)%nat ∧ ∃ b, (s :: slots) !! (j - o)%nat = Some (Some b)) as HX'.
  { intros j Hj. destruct (HX j Hj) as (Hle & b & Hb). split; [lia |]. exists b. by replace (j - o)%nat with (S (j - S o)) by lia. }
  destruct s as [b |]; [| by exists X]. exists ({[o]} ∪ X). split.
  - rewrite size_union, size_singleton, Hsz; [done |]. apply disjoint_singleton_l. intros Ho. destruct (HX o Ho). lia.
  - intros j [->%elem_of_singleton | Hj]%elem_of_union; [| by apply HX']. split; [done |]. exists b. by rewrite Nat.sub_diag.
Qed.

Section RepairAny.
Context {E : Type} `{SE : !ShardEngine E, DS : !DiskSpec E} `{PP : !PlacementPolicy} `{PPS : !PlacementSpec}
  `{RS : !ReedSolomon} `{BO : !Bao}.
Context (key : BlockKey) (k m : nat) (body : bytes) (pieces : list bytes) (Hps : piece_set k m body pieces).
Context (Hplain : parse_piece_header body = None) (p0 : pool E) (Hmix : mixed key body pieces p0).
Implicit Types (p : pool E) (slots : list (option bytes)).
Local Abbreviation PM := (M (pool E) DomainError).
Local Abbreviation piece r := (nth r pieces []).

(** Every slot that is filled has what some shard reads. *)
Definition sourced slots : Prop := ∀ j b, slots !! j = Some (Some b) → ∃ i, read_at p0 i key = Ok b.

Lemma sourced_none n : sourced (replicate n None).
Proof. intros j b [H _]%lookup_replicate. done. Qed.
Lemma sourced_fill tot slots h b i : sourced slots → read_at p0 i key = Ok b → sourced (fill_slot tot slots h b).
Proof.
  intros Hs Hb j b'. unfold fill_slot. cbv zeta. destruct (slots !! Z.to_nat (ph_piece_idx h)) as [[x |] |]; [apply Hs | | apply Hs].
  destruct (_ <? tot)%nat; [| apply Hs].
  intros [(_ & [= <-] & _) | [_ Hj]]%list_lookup_insert_Some; [by exists i | by apply (Hs j)].
Qed.

(** The pieces of the slots, and as many. *)
Lemma sourced_available slots : erased slots pieces → sourced slots →
  ∃ A : gset nat, available key pieces p0 A ∧ size A = have slots.
Proof.
  intros He Hs. destruct (filled_ranks slots 0) as (A & HA & Hj). exists A. split; [| done].
  intros j Hin. destruct (Hj j Hin) as (_ & b & Hb). rewrite Nat.sub_0_r in Hb. destruct (Hs j b Hb) as [i Hi].
  exists i, b. split; [done |]. by eapply erased_lookup.
Qed.

(** The step of [canonical_pieces]. *)
Definition look_at (acc : list (option bytes) * list (nat * ShardId)) (e : nat * ShardId)
    : PM (list (option bytes) * list (nat * ShardId)) :=
  mcatch (shard_get e.2 key) (λ r,
  mret (match r with
        | Ok b =>
            match parse_piece_header b with
            | Some h =>
                (fill_slot (k + m) acc.1 h b,
                 if (Z.to_nat (ph_piece_idx h) =? e.1)%nat then acc.2 else acc.2 ++ [e])
            | None => (acc.1, acc.2 ++ [e])
            end
        | Err _ => (acc.1, acc.2 ++ [e])
        end)).

(** The pieces found on the targets, and the targets that miss theirs. *)
Lemma wp_look_at l slots miss p :
  still p0 p → erased slots pieces → sourced slots →
  wp (mfold look_at (slots, miss) l) (λ r p', ∃ slots' miss', r = Ok (slots', miss ++ miss') ∧ still p0 p' ∧
    erased slots' pieces ∧ sourced slots' ∧ miss' `sublist_of` l) p.
Proof.
  revert slots miss p. induction l as [| e l IH]; intros slots miss p S He Hs; simpl.
  { apply wp_ret. exists slots, []. rewrite app_nil_r. by split_and!. }
  wp_step. unfold look_at at 1. wp_step. apply wp_shard_get. intros p1 S1. apply wp_ret. rewrite (read_at_still _ _ _ _ S).
  assert (still p0 p1) as S01 by (by etransitivity).
  assert (∀ slots' (b : bool), erased slots' pieces → sourced slots' →
    wp (mfold look_at (slots', if b then miss else miss ++ [e]) l) (λ r p', ∃ slots2 miss', r = Ok (slots2, miss ++ miss') ∧
      still p0 p' ∧ erased slots2 pieces ∧ sourced slots2 ∧ miss' `sublist_of` e :: l) p1) as Hgo.
  { intros slots' b He' Hs'. eapply wp_mono; [by apply IH |]. intros r p2 (slots2 & miss' & -> & S2 & He2 & Hs2 & Hsub).
    destruct b; eexists slots2, _; (split; [rewrite <-?app_assoc; reflexivity |]); split_and!; try done;
      [by apply sublist_cons | by apply sublist_skip]. }
  destruct (read_at p0 e.2 key) as [b | err] eqn:Hb; [| by apply (Hgo slots false)].
  destruct (parse_piece_header b) as [h |] eqn:Hh; [| by apply (Hgo slots false)].
  destruct (Hmix _ _ Hb) as [[-> _] | [j Hj]]; [congruence |].
  apply Hgo; [by apply (fill_piece k m body pieces Hps slots j b h) | by eapply sourced_fill].
Qed.

Lemma wp_strays_any targets slots p :
  still p0 p → erased slots pieces → sourced slots →
  wp (scan_strays key targets (k + m) slots : PM _) (λ r p', ∃ slots', r = Ok slots' ∧ still p0 p' ∧ erased slots' pieces ∧ sourced slots') p.
Proof.
  intros S He Hs. unfold scan_strays. do 2 wp_step. generalize (others p targets) as ids. intros ids. revert slots p S He Hs.
  induction ids as [| i ids IH]; intros slots p S He Hs; simpl; [apply wp_ret; by exists slots |].
  do 2 wp_step. apply wp_shard_get. intros p1 S1. apply wp_ret. rewrite (read_at_still _ _ _ _ S).
  assert (still p0 p1) as S01 by (by etransitivity). destruct (read_at p0 i key) as [b | err] eqn:Hb; [| by apply IH].
  destruct (parse_piece_header b) as [h |] eqn:Hh; [| by apply IH].
  destruct (Hmix _ _ Hb) as [[-> _] | [j Hj]]; [congruence |].
  apply IH; [done | by apply (fill_piece k m body pieces Hps slots j b h) | by eapply sourced_fill].
Qed.

Context (targets : list ShardId) (Htok : targets_ok p0 targets) (Hlen : (length targets ≤ k + m)%nat).
Context (Hwf : pool_wf p0) (Hready : Forall se_ready (p_shards p0)) (Hfit : ∀ b, b ∈ pieces → se_fits key b).
Context (Hset : settled key k body pieces targets p0).

(** Only [key] was written to, and its body can be read. *)
Definition mended p : Prop := touched key p0 p ∧ settled key k body pieces targets p.
Lemma mended_still p : still p0 p → mended p.
Proof. intros S. split; [by apply touched_still | by eapply settled_still]. Qed.

Lemma wp_repair_ec_any b h p :
  still p0 p → (∃ j, pieces !! j = Some b) → parse_piece_header b = Some h →
  wp (repair_key_ec key h targets) (λ _ p', mended p') p.
Proof.
  intros S [j0 Hj0] Hh. rewrite (ps_header _ _ _ _ Hps _ _ Hj0) in Hh. injection Hh as <-.
  unfold repair_key_ec. cbn [ph_k ph_m ph_logical_len]. rewrite !Nat2Z.id. cbv zeta. wp_step. unfold canonical_pieces.
  eapply wp_mono.
  { apply (wp_look_at (take (k + m) (imap pair targets)) (replicate (k + m) None) [] p); [done | | apply sourced_none].
    apply erased_none. symmetry. apply (ps_len _ _ _ _ Hps). }
  intros r p1 (slots & missing & -> & S1 & He & Hs & Hsub). cbn [app]. wp_step.
  assert (wp (if (have slots <? k)%nat then scan_strays key targets (k + m) slots else mret slots : PM (list (option bytes)))
    (λ r p', ∃ slots', r = Ok slots' ∧ still p0 p' ∧ erased slots' pieces ∧ sourced slots') p1) as Hstray.
  { destruct (_ <? _)%nat; [by apply wp_strays_any | apply wp_ret; by exists slots]. }
  eapply wp_mono; [exact Hstray |]. intros r p2 (slots2 & -> & S2 & He2 & Hs2).
  destruct (Nat.ltb_spec (have slots2) k) as [_ | Hk2]; [apply wp_throw; by apply mended_still |].
  case_bool_decide; [apply wp_ret; by apply mended_still |]. wp_step. apply wp_lift. rewrite (ps_repair _ _ _ _ Hps slots2 He2 Hk2).
  cbv zeta. wp_step. pose proof (ps_fits _ _ _ _ Hps) as [_ _ _ Hobj].
  assert (∀ e, e ∈ missing → targets !! e.1 = Some e.2) as Hmt.
  { intros [r i] Hin. apply elem_of_imap_pair, (elem_of_take_in _ (k + m)). by eapply elem_of_sublist. }
  eapply wp_mono.
  { apply (wp_fill_missing p0 key _ snd (λ e, piece e.1) missing p2); try done.
    - apply leg_put_meta. lia.
    - eapply sublist_NoDup; [| apply (fmap_sublist snd), Hsub]. eapply sublist_NoDup; [| apply (fmap_sublist snd), sublist_take].
      change (NoDup (map snd (imap pair targets))). rewrite imap_pair_snd. apply Htok.
    - intros e Hm. pose proof (Hmt e Hm) as Hi. split; [by eapply Htok, list_elem_of_lookup_2 |].
      eapply Hfit, list_elem_of_lookup_2, (nth_piece k m body pieces Hps). apply lookup_lt_Some in Hi. lia. }
  intros r p3 (lg & W & T & -> & [HW _ _ _ Hb _ _ _]). wp_step.
  eapply wp_calm; [apply calm_count |]. intros [] p4 _ S4. wp_step. eapply wp_calm; [apply calm_bg_acquire |].
  intros [] p5 _ S5. apply wp_ret.
  assert (wrote p0 key W T (p_mrf p0) p5) as HW5 by (do 2 (eapply wrote_still; [| done]); done).
  split; [by eapply touched_wrote |].
  destruct (sourced_available slots2 He2 Hs2) as (A & HA & HsA).
  apply (settled_pieced key k m body pieces Hps targets (proj1 Htok) p0 p5 A); [done | done | lia | |].
  - rewrite (ps_len _ _ _ _ Hps). done.
  - intros i. rewrite (wrote_read _ _ _ _ _ _ _ _ HW5). destruct (W !! i) as [d |] eqn:HWi; [| by left].
    rewrite decide_True by done. destruct (Hb i d HWi) as (e & He' & <- & ->). right. exists e.1. split; [by apply Hmt | done].
Qed.

Lemma wp_repair_copy_any p :
  still p0 p → (∃ i, read_at p0 i key = Ok body) → (∀ v, se_fits key v) →
  wp (repair_key_mirror key (Some body)) (λ _ p', mended p') p.
Proof.
  intros S [src Hsrc] Hfits. pose proof (λ i, read_at_still _ _ i key S) as Hs. eapply wp_mono.
  { apply wp_repair_mirror; [by apply (still_wf _ _ S) | by rewrite (still_shards _ _ S) | done |].
    intros v [= <-]. exists src. by rewrite Hs. }
  intros [[n failed] | e] p' Hout; simpl in Hout; [| apply mended_still; etransitivity; [exact S | apply Hout]].
  destruct Hout as (desired & W & _ & _ & [[T HW] Hfrom Hmiss _ _ _]).
  assert (Forall se_ready (p_shards p)) as Hr by (by rewrite (still_shards _ _ S)).
  split; [etransitivity; [by apply touched_still | by eapply touched_wrote] |].
  apply (settled_copied key k m body pieces Hps Hplain targets p); [by eapply settled_still |]. intros i.
  rewrite (wrote_read _ _ _ _ _ _ _ _ HW). destruct (W !! i) as [d |] eqn:HWi; [| by left]. rewrite decide_True by done.
  destruct (Hmiss i d HWi) as (_ & _ & Hf). right. split; [done |].
  destruct Hfrom as [-> | (v & [_ Hv] & Hd)]; [by rewrite lookup_empty in HWi |]. by rewrite (Hd i d HWi), (Hv body eq_refl).
Qed.

Lemma wp_repair_found b p : still p0 p → found p0 key b → (∀ v, se_fits key v) →
  wp (repair_found key targets b) (λ _ p', mended p') p.
Proof.
  intros S [i Hb] Hfits. unfold repair_found. destruct (Hmix i b Hb) as [[-> _] | [j Hj]].
  - rewrite Hplain. apply wp_repair_copy_any; [done | by exists i | done].
  - pose proof (ps_header _ _ _ _ Hps _ _ Hj) as Hh. rewrite Hh. apply (wp_repair_ec_any b); [done | by exists j | done].
Qed.
End RepairAny.

(** ** Computations that keep an invariant *)

Section Stable.
Context {P : Type} (I : P → Prop).

(** [c] keeps [I] of a part of its state, whatever it answers. *)
Definition stable {S X A} (part : S → P) (c : M S X A) : Prop := ∀ s, I (part s) → wp c (λ _ s', I (part s')) s.

Section Compose.
Context {S X : Type} (part : S → P).
Local Abbreviation stable := (stable part).

Lemma stable_ret {A} (a : A) : stable (mret (E := X) a).
Proof. intros s H. by apply wp_ret. Qed.
Lemma stable_throw {A} (e : X) : stable (mthrow (A := A) e).
Proof. intros s H. by apply wp_throw. Qed.
Lemma stable_lift {A} (r : result X A) : stable (mlift r).
Proof. intros s H. by apply wp_lift. Qed.
Lemma stable_get : stable (mget (E := X)).
Proof. intros s H. by apply wp_get. Qed.
Lemma stable_modify f : (∀ s, I (part s) → I (part (f s))) → stable (mmodify (E := X) f).
Proof. intros Hf s H. apply wp_modify. by apply Hf. Qed.
Lemma stable_bind {A B} (c : M S X A) (k : A → M S X B) : stable c → (∀ a, stable (k a)) → stable (mthen c k).
Proof. intros Hc Hk s H. apply wp_bind. eapply wp_mono; [by apply Hc |]. intros [a | e] s1 H1; [by apply Hk | done]. Qed.
Lemma stable_catch {X' A B} (c : M S X' A) (k : result X' A → M S X B) : stable c → (∀ r, stable (k r)) → stable (mcatch c k).
Proof. intros Hc Hk s H. apply wp_catch. eapply wp_mono; [by apply Hc |]. intros r s1 H1. by apply Hk. Qed.
Lemma stable_fold {A B} (f : B → A → M S X B) acc l : (∀ acc a, stable (f acc a)) → stable (mfold f acc l).
Proof.
  intros Hf. revert acc. induction l as [| a l IH]; intros acc; simpl; [apply stable_ret |]. by apply stable_bind.
Qed.
Lemma stable_iter {A} (f : A → M S X unit) l : (∀ a, stable (f a)) → stable (miter f l).
Proof. intros Hf. induction l as [| a l IH]; simpl; [apply stable_ret |]. by apply stable_bind. Qed.
End Compose.
End Stable.

Create HintDb stable.
#[export] Hint Resolve stable_ret stable_throw stable_lift stable_get : stable.

(** Follows the program; case distinctions of the program become cases. *)
Ltac stable_step :=
  match goal with
  | |- ∀ _, _ => intro
  | |- stable _ _ (if ?b then _ else _) => destruct b
  | |- stable _ _ (match ?x with _ => _ end) => destruct x
  | |- stable _ _ _ => solve [eauto 4 with stable nocore]
  | |- stable _ _ (mthen _ _) => apply stable_bind
  | |- stable _ _ (mcatch _ _) => apply stable_catch
  | |- stable _ _ (mfold _ _ _) => apply stable_fold
  | |- stable _ _ (miter _ _) => apply stable_iter
  end.
Ltac stable_auto := repeat (stable_step; cbv beta zeta).

(** ** The vault *)

Section Vault.
Context {E : Type} `{SE : !ShardEngine E, DS : !DiskSpec E, WES : !WalkEngineSpec E, ERS : !EraEngineSpec E, SD : !SturdyDisk E}
  `{ME : !MaintEngine E, MES : !MaintEngineSpec E, SM : !SturdyMaint E} `{SCS : !ScrubEngineSpec E}
  `{PP : !PlacementPolicy} `{PPS : !PlacementSpec} `{RS : !ReedSolomon} `{BO : !Bao}.
Implicit Types (p : pool E).
Local Abbreviation PM := (M (pool E) DomainError).

Context (ec : EcConfig) (t : topology) (bodies : BlockKey → option bytes).
Context (Hdata : (1 ≤ ec_data ec)%nat) (Hlaw : rs_law (ec_data ec) (ec_parity ec)).
(** The bodies of the catalogue fit into the code, and do not look like pieces. *)
Context (Hbodies : ∀ key body, bodies key = Some body →
  ec_fits (ec_data ec) (ec_parity ec) body ∧ parse_piece_header body = None).

Definition coded (body : bytes) : list bytes := match ec_encode body ec with Ok l => l | Err _ => [] end.
Definition ranks (key : BlockKey) : list ShardId := pp_select key t (ec_total ec).
(** What the shards read of a key makes up its body; of a key without one they
    read nothing. *)
Definition kept (key : BlockKey) p : Prop :=
  match bodies key with
  | Some body => settled key (ec_data ec) body (coded body) (ranks key) p
  | None => ∀ i v, read_at p i key ≠ Ok v
  end.

(** A pool in shape with all of the catalogue in it, whose disks keep their
    ranks. *)
Record vault p : Prop := {
  va_wf : pool_wf p;
  va_ok : Forall se_ok (p_shards p);
  va_ec : pc_ec (p_cfg p) = Some ec;
  va_replicas : (replicas (p_cfg p) ≤ S (ec_parity ec))%nat;
  va_steady : steady t p;
  va_kept : ∀ key, kept key p;
}.

Lemma va_ready p : vault p → Forall se_ready (p_shards p).
Proof. intros V. eapply Forall_impl; [apply (va_ok _ V) |]. intros s Hs. by apply sturdy_ready. Qed.
Lemma coded_pieces key body : bodies key = Some body →
  ec_encode body ec = Ok (coded body) ∧ piece_set (ec_data ec) (ec_parity ec) body (coded body).
Proof.
  intros [Hf _]%Hbodies. destruct (encode_piece_set ec body Hlaw Hf) as (pieces & Henc & Hps). unfold coded. by rewrite Henc.
Qed.

Lemma kept_oks key p p' : kept key p → (∀ i b, read_at p' i key = Ok b ↔ read_at p i key = Ok b) → kept key p'.
Proof.
  unfold kept. intros Hk Hs. destruct (bodies key) as [body |]; [by eapply settled_oks |]. intros i v ?%Hs. by apply (Hk i v).
Qed.
Lemma vault_touched key p p' : vault p → touched key p p' → kept key p' → vault p'.
Proof.
  intros [Hwf Hok Hec Hrep Ht Hk] [C W T O R] Hkey. split; [auto | auto | congruence | by rewrite C | auto |].
  intros k. destruct (decide (k = key)) as [-> | Hne]; [done |]. eapply kept_oks; [apply Hk |]. intros i b. by rewrite R.
Qed.
Lemma vault_reads p p' : vault p → frame p p' → Forall se_ok (p_shards p') →
  (∀ i k, read_at p' i k = read_at p i k) → vault p'.
Proof.
  intros [Hwf Hok Hec Hrep Ht Hk] F Hok' R. pose proof (fr_cfg _ _ F) as C.
  split; [by apply F | done | congruence | by rewrite C | by apply F |].
  intros k. eapply kept_oks; [apply Hk |]. intros i b. by rewrite R.
Qed.
Lemma vault_still p p' : vault p → still p p' → vault p'.
Proof.
  intros V S. apply (vault_reads p); [done | by apply still_frame | | intros i k; by rewrite (read_at_still _ _ _ _ S)].
  rewrite (still_shards _ _ S). apply V.
Qed.
Lemma vault_mrf q p : vault p → vault (set_mrf q p).
Proof. intros [Hwf Hok Hec Hrep Ht Hk]. by split. Qed.

(** *** One key *)

(** Only [key] was worked on, and it is as well kept as before. *)
Definition tended (key : BlockKey) p p' : Prop := touched key p p' ∧ kept key p'.
Lemma tended_still key p p' : vault p → still p p' → tended key p p'.
Proof. intros V S. split; [by apply touched_still |]. by apply (va_kept _ (vault_still _ _ V S)). Qed.
Lemma tended_vault key p p' : vault p → tended key p p' → vault p'.
Proof. intros V []. by eapply vault_touched. Qed.

Lemma wp_tend_repair key p : vault p → wp (repair_key key) (λ _ p', tended key p p') p.
Proof.
  intros V. pose proof V as [Hwf Hok Hec Hrep Ht Hk]. unfold repair_key. do 2 wp_step. rewrite Hec. wp_step.
  replace (Nat.max (ec_total ec) (replicas (p_cfg p))) with (ec_total ec) by (unfold ec_total; lia).
  apply wp_ranking_steady; [done |]. intros ids p1 Hpl S1 Hids. rewrite (Hids t Ht) in *. fold (ranks key) in *.
  destruct (placed_targets _ _ _ _ Hpl) as [Htok Hlen]. wp_step. eapply wp_mono; [apply wp_missing_ranks |].
  intros r p2 [-> ->]. cbv zeta. case_bool_decide; [apply wp_ret; by apply tended_still |].
  destruct (_ && _); [apply wp_ret; by apply tended_still |].
  assert (∀ v p', found p key v → still p p' → wp (repair_found key (ranks key) v) (λ _ p', tended key p p') p') as Hfound.
  { intros v p' Hv S'. pose proof (Hk key) as Hkey. unfold tended, kept in *. destruct (bodies key) as [body |] eqn:Hb.
    - destruct (coded_pieces key body Hb) as [_ Hps]. destruct (Hbodies key body Hb) as [_ Hplain].
      apply (wp_repair_found key _ _ body (coded body) Hps Hplain p); try done; [by apply Hkey | by apply va_ready | by intros; apply sturdy_fits ..].
    - destruct Hv as [i Hv]. by destruct (Hkey i v). }
  wp_step. eapply wp_mono; [apply (wp_get_among key _ p1 p S1) |]. intros r p3 (o & -> & S3 & Ho).
  destruct o as [v |]; [destruct (Ho v eq_refl) as (i & _ & Hv); apply Hfound; [by exists i | done] |].
  wp_step. eapply wp_mono; [apply (wp_get_among key _ p3 p S3) |]. intros r p4 (o & -> & S4 & Ho').
  destruct o as [v |]; [destruct (Ho' v eq_refl) as (i & _ & Hv); apply Hfound; [by exists i | done] |].
  apply wp_throw. by apply tended_still.
Qed.

(** A key that no shard reads has nothing to migrate. *)
Lemma wp_migrate_nothing key p : pool_wf p → Forall se_ready (p_shards p) → (∀ i v, read_at p i key ≠ Ok v) →
  wp (migrate_key key ec) (λ _ p', same_reads key p p') p.
Proof.
  intros Hwf Hr Hno. assert (same_reads key p p) as S0 by (split; [exists ∅; by apply moved_start | done]).
  unfold migrate_key. do 2 wp_step. wp_step. apply wp_ranking; [done |]. intros ids p1 _ S1.
  pose proof (same_reads_still _ _ _ _ S0 S1) as S01.
  destruct (_ <? _)%nat; [by apply wp_throw |]. cbv zeta.
  wp_step. eapply wp_mono; [apply wp_any_holds |]. intros r p2 (-> & ->). destruct (existsb _ _).
  { wp_step. eapply wp_mono; [by apply (wp_backfill key ids 0 p) |].
    intros r p3 (S3 & n & ->). wp_step. destruct (0 <? n)%Z; [| do 2 wp_step; done].
    eapply wp_calm; [apply calm_bg_acquire |]. intros [] p4 _ S4. apply wp_ret. by eapply same_reads_still. }
  wp_step. eapply wp_mono; [apply wp_split_holders |]. intros r p2 [-> ->]. simpl.
  destruct (filter _ _) as [| h holders] eqn:Hh; [by apply wp_throw |].
  do 2 wp_step. apply wp_look_shard. intros sz. apply wp_ret.
  destruct (match sz with Ok sz => (sz <? ec_min_size ec)%Z | Err _ => false end); [by apply wp_ret |].
  wp_step. eapply wp_mono; [apply (wp_get_among key (h :: holders) p1 p S1) |].
  intros r p3 (o & -> & S3 & Hlk). pose proof (same_reads_still _ _ _ _ S0 S3) as S03.
  destruct o as [v |]; [| by apply wp_throw]. destruct (Hlk v eq_refl) as (i & _ & Hv). by destruct (Hno i v).
Qed.

Lemma wp_tend_migrate key p : vault p → wp (migrate_key key ec) (λ _ p', tended key p p') p.
Proof.
  intros V. pose proof V as [Hwf Hok Hec Hrep Ht Hk]. pose proof (Hk key) as Hkey.
  destruct (bodies key) as [body |] eqn:Hb; unfold kept in Hkey; rewrite Hb in Hkey.
  - destruct (coded_pieces key body Hb) as [Henc Hps]. destruct (Hbodies key body Hb) as [_ Hplain].
    eapply wp_mono; [apply (wp_migrate_key ec key (ec_data ec) (ec_parity ec) body (coded body) t p); try done; [by apply va_ready | by intros; apply sturdy_fits] |].
    intros r p' ([D HM] & Hset). split; [by eapply touched_moved |]. unfold kept. by rewrite Hb.
  - eapply wp_mono; [apply wp_migrate_nothing; [done | by apply va_ready | done] |]. intros r p' [[D HM] Hs].
    split; [by eapply touched_moved |]. eapply kept_oks; [apply V |]. intros i b. by rewrite Hs.
Qed.

(** The record of a key that the disk cannot read goes away. *)
Lemma wp_tend_drop shard key p : vault p → (∀ d, read_at p shard key ≠ Ok d) →
  wp (shard_delete shard key) (λ _ p', tended key p p') p.
Proof.
  intros V Hbad. eapply wp_mono; [apply (wp_drop_one key p ∅ p shard), moved_start; [apply V | by apply va_ready] |].
  intros r p' (D & HM & Hj & Hi). split; [by eapply touched_moved |]. eapply kept_oks; [apply V |]. intros i b.
  destruct (decide (i = shard)) as [-> | Hne]; [| by rewrite Hj]. destruct Hi as [-> | Hi]; [done |]. rewrite Hi.
  split; [done |]. intros Hb. by destruct (Hbad b).
Qed.

Lemma wp_tend_scrub shard acc key p : vault p → (∀ d, read_at p shard key ≠ Ok d) →
  wp (scrub_corrupt_key shard acc key) (λ _ p', tended key p p') p.
Proof.
  intros V Hbad. unfold scrub_corrupt_key. wp_step. eapply wp_mono; [by apply wp_tend_drop |]. intros r0 p1 H1.
  pose proof (tended_vault _ _ _ V H1) as V1. wp_step. eapply wp_mono; [by apply wp_tend_repair |]. intros r p2 [T2 K2].
  assert (tended key p p2) as H2 by (split; [etransitivity; [apply H1 | exact T2] | done]).
  assert (wp (let! _ := mrf_push key Urgent in mret (acc.1, acc.2 + 1)%Z)%rust (λ _ p', tended key p p') p2) as Hpush.
  { unfold mrf_push. do 3 wp_step. destruct H2 as [[] K]. split; [by split | exact K]. }
  destruct r as [[[| n] [| m]] | e]; first [exact Hpush | by apply wp_ret].
Qed.

Lemma wp_vault_scrub shard keys acc p : vault p → NoDup keys → (∀ k, k ∈ keys → ∀ d, read_at p shard k ≠ Ok d) →
  wp (mfold (scrub_corrupt_key shard) acc keys) (λ _ p', vault p') p.
Proof.
  revert acc p. induction keys as [| k keys IH]; intros acc p V Hnd Hbad; simpl; [by apply wp_ret |].
  apply NoDup_cons in Hnd as [Hk Hnd]. wp_step. eapply wp_mono; [apply wp_tend_scrub; [done |]; apply Hbad; left |].
  intros r p1 H1. pose proof (tended_vault _ _ _ V H1) as V1. destruct r as [acc' | e]; [| done].
  apply IH; [done | done |]. intros k' Hk' d. rewrite (tc_other _ _ _ (proj1 H1)); [apply Hbad; by right |]. by intros ->.
Qed.

(** *** Operations of the pool *)

Local Abbreviation safely c := (stable vault (λ p, p) c).

Lemma safely_calm {A} (c : PM A) Q : calm_call c Q → safely c.
Proof. intros Hc p V. eapply wp_calm; [done |]. intros a p' _ S. by eapply vault_still. Qed.
Lemma safely_count f : safely (count f).
Proof. eapply safely_calm, calm_count. Qed.
Lemma safely_bg n : safely (bg_acquire n).
Proof. eapply safely_calm, calm_bg_acquire. Qed.
Lemma safely_choose n : safely (choose n).
Proof. eapply safely_calm, calm_choose. Qed.
Lemma safely_look {A} i (f : E → DomainResult A) : safely (look_shard i f).
Proof. intros p V. by apply wp_look_shard. Qed.
Lemma safely_push key prio : safely (mrf_push key prio).
Proof. apply stable_modify. intros p. apply vault_mrf. Qed.
Lemma safely_replicas key : safely (replicas_for key).
Proof.
  apply stable_bind; [apply stable_get |]. intros p0 p V. apply wp_ranking; [apply V |]. intros ids p' _ S. by eapply vault_still.
Qed.
Lemma safely_on_shard {A} i (c : M E DomainError A) :
  (∀ s, se_ok s → wp c (λ _ s', se_ok s' ∧ reads_same s s') s) → safely (on_shard i c).
Proof. intros Hc p V. apply wp_on_shard_reads; [apply V | done |]. intros r p'. by apply vault_reads. Qed.
Lemma safely_save i name pos : safely (on_shard i (se_save_cursor name pos)).
Proof.
  apply safely_on_shard. intros s Hs. eapply wp_mono; [by apply se_save_cursor_spec |]. intros r s' (? & ? & _). by split.
Qed.
Lemma safely_flush i : safely (on_shard i se_flush).
Proof. apply safely_on_shard. intros s Hs. eapply wp_mono; [by apply se_flush_spec |]. intros r s' (? & ? & _). by split. Qed.
Lemma safely_gc i ratio : safely (on_shard i (se_gc ratio)).
Proof. apply safely_on_shard. intros s Hs. apply se_gc_spec; [by apply sturdy_ready | by apply sturdy_room]. Qed.
Lemma safely_repair key : safely (repair_key key).
Proof. intros p V. eapply wp_mono; [by apply wp_tend_repair |]. intros r p'. by apply tended_vault. Qed.
Lemma safely_migrate_key key : safely (migrate_key key ec).
Proof. intros p V. eapply wp_mono; [by apply wp_tend_migrate |]. intros r p'. by apply tended_vault. Qed.

#[local] Hint Resolve safely_count safely_bg safely_choose safely_look safely_push safely_replicas safely_save safely_flush
  safely_gc safely_repair safely_migrate_key : stable.

Lemma safely_keep_cursor name pos : safely (keep_cursor name pos).
Proof. unfold keep_cursor. stable_auto. Qed.
Lemma safely_flush_all : safely flush_all.
Proof. unfold flush_all. stable_auto. Qed.
#[local] Hint Resolve safely_keep_cursor safely_flush_all : stable.

Lemma safely_resilver_step after batch : safely (resilver_step after batch).
Proof. unfold resilver_step, resilver_key. stable_auto. Qed.
Lemma safely_resilver fuel batch : safely (resilver_full fuel batch).
Proof.
  unfold resilver_full. apply stable_bind; [auto with stable |]. intros after.
  apply stable_bind; [| stable_auto]. generalize ResilverReport_default.
  revert after. induction fuel as [| fuel IH]; intros after total; simpl; [auto with stable |].
  apply stable_bind; [apply safely_resilver_step |]. intros r. stable_auto.
Qed.

Lemma safely_migrate_turn batch : safely (migrate_turn batch).
Proof.
  unfold migrate_turn. apply stable_catch; [auto with stable |]. intros cur. apply stable_bind; [| stable_auto].
  intros p V. unfold migrate_step. do 2 wp_step. rewrite (va_ec _ V). generalize (pool_list p []).
  intros pages. revert p V. apply (stable_bind vault (λ p, p)); stable_auto.
Qed.

Lemma safely_take_batch max : safely (take_batch max).
Proof.
  induction max as [| max IH]; simpl; [auto with stable |]. apply stable_bind; [auto with stable |]. intros p.
  destruct (hq_pop (p_mrf p)) as [r q]. apply stable_bind; [| stable_auto].
  apply stable_modify. intros p'. apply vault_mrf.
Qed.
Lemma safely_worker cap w d : safely (worker_step cap w d).
Proof. unfold worker_step. stable_auto. Qed.
Lemma safely_workers fuel cap d : safely (run_workers fuel cap d).
Proof.
  revert d. induction fuel as [| fuel IH]; intros d; simpl; [auto with stable |]. destruct (Drain.live d); [auto with stable |].
  apply stable_bind; [auto with stable |]. intros i. apply stable_bind; [apply safely_worker | apply IH].
Qed.
Lemma safely_drain max : safely (mrf_drain max).
Proof.
  unfold mrf_drain. apply stable_bind; [apply safely_take_batch |]. intros batch. case_bool_decide; [auto with stable |].
  apply stable_bind; [auto with stable |]. intros p. cbv zeta. apply stable_bind; [apply safely_workers | stable_auto].
Qed.

Lemma safely_scrub shard after limit : safely (scrub_shard_step shard after limit).
Proof.
  intros p V. unfold scrub_shard_step. wp_step. unfold wp at 1, look_shard. destruct (p_shards p !! shard) as [s |] eqn:Hs; [| done].
  pose proof (va_ok _ V) as Hok. rewrite Forall_lookup in Hok.
  destruct (se_scrub_step s after limit) as [st | e] eqn:Hscrub; cbn [fst snd]; [| done].
  destruct (se_scrub_spec s after limit st (Hok _ _ Hs) Hscrub) as [Hnd Hbad].
  wp_step. eapply wp_calm; [apply calm_bg_acquire |]. intros [] p1 _ S1.
  wp_step. eapply wp_mono.
  { apply wp_vault_scrub; [by eapply vault_still | exact Hnd |]. intros k Hk d. rewrite (read_at_still _ _ _ _ S1).
    unfold read_at. rewrite Hs. by apply Hbad. }
  intros [r | e] p2 V2; [| done]. revert p2 V2. apply (stable_bind vault (λ p, p)); stable_auto.
Qed.
#[local] Hint Resolve safely_resilver safely_migrate_turn safely_drain safely_scrub : stable.

(** *** The tasks of the daemon *)

Context {R : Type} `{RN : !Runner R} (lc : LoopConfig).
Implicit Types (d : daemon E R).
Local Abbreviation calm c := (stable vault (@dm_pool E R) c).

Lemma lasts_in_pool {A} (c : PM A) : safely c → calm (in_pool (R := R) c).
Proof. intros Hc d V. specialize (Hc (dm_pool d) V). unfold wp, in_pool in *. by destruct (c (dm_pool d)). Qed.
Lemma lasts_tell c : safely c → calm (tell (R := R) c).
Proof. intros Hc. unfold tell. apply stable_catch; [by apply lasts_in_pool |]. intros r. apply stable_ret. Qed.
Lemma lasts_set (f : daemon E R → daemon E R) : (∀ d, dm_pool (f d) = dm_pool d) → calm (mmodify (E := bytes) f).
Proof. intros Hf. apply stable_modify. intros d. by rewrite Hf. Qed.
#[local] Hint Resolve lasts_in_pool lasts_tell : stable.
#[local] Hint Extern 2 (stable _ _ (mmodify _)) => apply lasts_set; reflexivity : stable.

Lemma lasts_mrf : calm mrf_tick.
Proof. unfold mrf_tick. stable_auto. Qed.
Lemma lasts_scrub : calm (scrub_cycle lc).
Proof. unfold scrub_cycle, scrub_cycle_one. stable_auto. Qed.
Lemma lasts_migrate : calm (migrate_tick lc).
Proof. unfold migrate_tick. stable_auto. Qed.
Lemma lasts_gc : calm (gc_tick lc).
Proof. unfold gc_tick, gc_tick_one. stable_auto. apply lasts_in_pool. stable_auto. Qed.
Lemma lasts_reload new : calm (reload new).
Proof.
  unfold reload. stable_auto. apply lasts_tell. intros p V. unfold wp, meter. simpl.
  eapply vault_still; [exact V |]. apply still_meters. simpl. done.
Qed.

(** The events after which every disk has the status it had. *)
Definition no_verdict (ev : event) : bool := match ev with ZfsTick _ | SlowTick => false | _ => true end.

Lemma lasts_event ev : no_verdict ev = true → calm (step_event lc ev).
Proof. destruct ev; intros Hev; try done; [apply lasts_mrf | apply lasts_scrub | apply lasts_migrate | apply lasts_gc | apply lasts_reload]. Qed.

End Vault.
