(* ===== verification/DaemonDemo.v ===== *)
(** * Runs of the daemon and the admin server

    Starts with disks that do not open or carry another shard's number, rounds
    of the background tasks, a metrics page; and what the code makes of some
    inputs that it does not expect. *)

From Stdlib Require Import ZArith Lia SpecFloat Strings.Byte.
From stdpp Require Import base list gmap strings.
From S2P Require Import Prelude F64 Text Domain Table Piece Segment SegmentFacts Writer Engine EngineGc EngineInv EngineOps EngineGcFacts Instances EngineProps Health Latency DiskSlow Placement Shard Erasure Verified Metrics Throttle HealQueue PoolState Pool PoolFacts Repair Migrate Drain PoolDemo HealDemo Store MigrateFacts MemShard WalkDemo Cache Car Zfs ZfsFacts ZfsDemo Fs Snapshot Exposition Admin Safe AdminFacts Daemon DaemonLoops DaemonFacts Vault.
Open Scope Z_scope.

(** ** Starts *)

(** A disk that opens, or does not. *)
#[global] Instance mem_opens : OpenEngine (option mem_disk) mem_disk := {|
  oe_open _ := λ d, (match d with Some s => Ok s | None => Err (Io "no device") end, d);
|}.

Definition disk_cfg (zfs : option ZfsPool) : DiskCfg :=
  {| dk_data_path := [str "d"]; dk_index_path := None; dk_zfs_pool := zp_pool <$> zfs; dk_zfs_dataset := zp_dataset <$> zfs;
     dk_failover_path := None |}.
Definition three_disks (pool : option ZfsPool) : Config :=
  Config_default (str "127.0.0.1:9100") [disk_cfg None; disk_cfg None; disk_cfg pool].
Definition empty_disk : option mem_disk := Some (mem_disk_of ∅).

Definition degraded_start := start (three_disks None) [empty_disk; empty_disk; None] None 0 [] [] (∅ : props).

(** One of three disks does not open: the daemon starts, and no key goes there. *)
Definition third_shard (r : result bytes (started mem_disk)) : option (slot mem_disk) :=
  match r with Ok s => p_shards (sd_pool s) !! 2%nat | Err _ => None end.
Lemma started_pool_is_well_formed_witness :
  ∃ s w', degraded_start = (Ok s, w') ∧ shard_status (sd_pool s) 2 = Some Faulted ∧
      ∀ key ids p', ranking_for key 3 (sd_pool s) = (Ok ids, p') → ∀ i, i ∈ ids → ∃ e, p_shards (sd_pool s) !! i = Some (DiskSlot e).
Proof.
  assert (third_shard degraded_start.1 = Some NullEngine) as H2 by (vm_compute; reflexivity).
  assert (∃ r, degraded_start = r) as [[[s | m] w'] H] by eauto; rewrite H in H2; [| discriminate H2].
  assert (length [empty_disk; empty_disk; None] = disk_count (three_disks None)) as Hlen by reflexivity.
  destruct (started_pool_is_well_formed (three_disks None) [empty_disk; empty_disk; None] None 0 [] [] ∅ s w' Hlen H)
    as (_ & _ & _ & _ & _ & Hst & Hrank).
  exists s, w'. split; [exact H |]. split; [exact (Hst 2%nat NullEngine H2) | intros key; apply Hrank].
Defined.

(** The third disk carries the number of shard 5, the second one its own. *)
Definition second_pool : ZfsPool := {| zp_pool := str "disk02"; zp_dataset := str "disk02/ozd" |}.
Definition two_datasets : Config :=
  Config_default (str "127.0.0.1:9100") [disk_cfg None; disk_cfg (Some second_pool); disk_cfg (Some demo_pool)].
Definition numbered_disks : props := <[(zp_dataset second_pool, SHARD_ID) := str "1"]> disk_of_5.

Lemma zfs_pools_two j zp : zfs_pools two_datasets !! j = Some (Some zp) → zp = second_pool ∨ zp = demo_pool.
Proof. destruct j as [| [| [| j]]]; intros [=]; auto. Qed.


(** Three disks, an erasure code 2+1 whose quorum is all three pieces, and one
    disk that does not open: the start is let through, and every body above
    the threshold is refused. *)
Definition ec_config_3 : Config :=
  let c := three_disks None in
  {| c_listen := c_listen c; c_replicas := 2; c_write_quorum := 2; c_free_space_cache_ttl_secs := 5;
     c_speculative_retry_ms := 100; c_gc_discard_ratio := c_gc_discard_ratio c; c_gc_interval_secs := 300;
     c_zfs_health_interval_secs := 30; c_drive_suspect_threshold := 3; c_drive_recover_threshold := 2;
     c_scrub_interval_secs := 600; c_scrub_keys_per_cycle := 5000; c_heal_mrf := true; c_heal_parallelism := 4;
     c_heal_max_per_shard := 2; c_bg_max_bytes_per_sec := 0; c_bg_min_bytes_per_sec := 0;
     c_bg_fg_busy_ops := c_bg_fg_busy_ops c; c_redundancy := str "erasure"; c_ec_data := 2; c_ec_parity := 1;
     c_ec_min_size := 0; c_ec_write_quorum := None; c_disk_slow_interval_secs := 10; c_disk_slow_floor_ms := 250;
     c_disk_slow_factor := c_disk_slow_factor c; c_adaptive_hedge := false; c_blake3_outboard := false;
     c_ob_min_size := 0; c_migrate_interval_secs := 0; c_migrate_keys_per_cycle := 2000; c_log_format := str "json";
     c_rate_limit_rps := 0; c_snapshot_dir := None; c_disks := c_disks c; c_engine := c_engine c; c_cache := None;
     c_auth := None |}.
Example degraded_code_takes_no_body :
  match (start ec_config_3 [empty_disk; empty_disk; None] None 0 [] [] (∅ : props)).1 with
  | Ok s => ∃ e, (pool_put [x61] [x01; x02; x03] (sd_pool s)).1 = Err e
  | Err _ => False
  end.
Proof. vm_compute. eexists. reflexivity. Qed.

(** ** Rounds of the background tasks *)

Definition daemon_of {E R} `{SE : !ShardEngine E} (p : pool E) (w : R) : daemon E R :=
  {| dm_pool := p; dm_runner := w; dm_zfs_fsms := replicate (length (p_shards p)) (fsm_new 3 2);
     dm_slow_fsms := replicate (length (p_shards p)) (fsm_new 3 3); dm_cursors := resume_cursors p;
     dm_pass_migrated := 0; dm_gc_alive := true; dm_hup_alive := true |}.
Definition no_zfs : LoopConfig := {| lc_zfs := [None; None; None]; lc_scrub_keys := 1; lc_migrate_keys := 1; lc_gc_ratio := f64_ratio 1 2 |}.
Definition a_night : list event := [GcTick; ScrubCycle; SlowTick; Reload (Some BgThrottleConfig_default); MrfTick; ScrubCycle; MigrateTick; ZfsTick (λ _, true)].
Definition thin_daemon : daemon mem_disk props := daemon_of thin_pool ∅.

(** Disks that rot: of the two copies of the second key, the one on the first
    disk cannot be read any more. *)
Definition two_bodies : gmap bytes bytes := md_bodies first_disk.
Definition worn_pool : pool worn_disk :=
  (pool_topology (pool_of (mirror_cfg 2) [worn two_bodies {[key_b]}; worn ∅ ∅; worn two_bodies ∅] [])).2.
Definition worn_daemon : daemon worn_disk props := daemon_of worn_pool ∅.
Lemma worn_wf : pool_wf worn_pool.
Proof. intros c. vm_compute. intros [= <-]. reflexivity. Qed.
Lemma worn_ok : Forall se_ok (p_shards worn_pool).
Proof. by apply Forall_true. Qed.

(** Disk engines behind their check. *)
Section GuardedEngine.
Local Abbreviation E := (engine MapTable).
Local Abbreviation DS := (disk_engine_base (T := MapTable) (Some (10, 100, 50))).
Local Abbreviation ME := (engine_maint_spec (T := MapTable) (Some (10, 100, 50))).
Local Abbreviation ready_if := (λ (e : E) (Hi : inv e) (Hw : can_write e = true), can_write_ready e Hi Hw).
Local Abbreviation fits_if := (λ k d (H : takes k d = true), takes_fits k d H).
Local Abbreviation room_if := (λ (e : E) (H : can_collect e = true), can_collect_room e H).
#[global] Instance guarded_engine : ShardEngine (guarded E) := guarded_shard can_write takes.
#[global] Instance guarded_engine_spec : DiskSpec (guarded E) := guarded_spec (DS := DS) can_write takes ready_if fits_if.
#[global] Instance guarded_engine_maint : MaintEngine (guarded E) := guarded_maint can_write can_collect.
#[global] Instance guarded_engine_maint_spec : MaintEngineSpec (guarded E) :=
  guarded_maint_spec (DS := DS) (MES := ME) can_write can_collect takes ready_if room_if fits_if.
#[global] Instance guarded_engine_sturdy : SturdyDisk (guarded E) := guarded_sturdy (DS := DS) can_write takes ready_if fits_if.
#[global] Instance guarded_engine_walk : WalkEngineSpec (guarded E) := guarded_walk (DS := DS) can_write takes ready_if fits_if (engine_walk_spec _).
#[global] Instance guarded_engine_scrub : ScrubEngineSpec (guarded E) := guarded_scrub (DS := DS) can_write takes ready_if fits_if (engine_scrub_spec _).
#[global] Instance guarded_engine_sturdy_maint : SturdyMaint (guarded E) :=
  guarded_sturdy_maint (DS := DS) (MES := ME) can_write can_collect takes ready_if room_if fits_if.
End GuardedEngine.

Definition engine_pool : pool (guarded (engine MapTable)) :=
  pool_of (mirror_cfg 2) [Guarded (fresh small_cfg); Guarded filled; Guarded (fresh small_cfg)] [].
Lemma engine_pool_ok : Forall se_ok (p_shards engine_pool).
Proof.
  constructor; [exact (rd_inv _ fresh_small_ready) |]. constructor; [exact (rd_inv _ filled_ready) |].
  constructor; [exact (rd_inv _ fresh_small_ready) | constructor].
Qed.


(** The scrub finds the damaged copy, drops it and writes it anew. *)
Example the_scrub_restores_the_copy :
  read_at worn_pool 0 key_b = Err (Corrupt "crc mismatch") ∧
  read_at (dm_pool (run_events no_zfs a_night worn_daemon).2) 0 key_b = Ok [x02; x03].
Proof. vm_compute. split; reflexivity. Qed.

(** Copies of a body on its first two ranks, the second of which cannot be
    read any more, on a pool that cuts bodies into pieces: two nights of
    upkeep drop the damaged record and migrate the key, and a get reads it. *)
Definition one_copy : pool worn_disk :=
  (pool_topology (pool_of coded_cfg [worn {[k1 := d1]} {[k1]}; worn ∅ ∅; worn {[k1 := d1]} ∅] [])).2.
Definition one_body (key : BlockKey) : option bytes := if decide (key = k1) then Some d1 else None.
Definition quiet_night : list event := [GcTick; ScrubCycle; MigrateTick; MrfTick; Reload (Some BgThrottleConfig_default); ScrubCycle].
Definition coded_daemon : daemon worn_disk props := daemon_of one_copy ∅.

Lemma one_body_fits key body : one_body key = Some body → ec_fits (ec_data ec3) (ec_parity ec3) body ∧ parse_piece_header body = None.
Proof. unfold one_body. case_decide; [intros [= <-]; split; [exact d1_fits_code | vm_compute; reflexivity] | done]. Qed.

Lemma one_copy_reads i key v : read_at one_copy i key = Ok v → key = k1 ∧ i = 2%nat ∧ v = d1.
Proof.
  assert (∀ rotten : gset bytes, wn_get (worn {[k1 := d1]} rotten) key = Ok v → key ∉ rotten ∧ key = k1 ∧ v = d1) as Hg.
  { intros rotten [Hno Hv]%wn_get_ok. split; [done |].
    change (match ({[k1 := d1]} : gmap bytes bytes) !! key with Some d => Ok d | None => Err NotFound end = Ok v) in Hv.
    destruct (decide (key = k1)) as [-> |]; [rewrite lookup_singleton_eq in Hv; by injection Hv as <- | by rewrite lookup_singleton_ne in Hv]. }
  unfold read_at. destruct i as [| [| [| i]]]; try done.
  - change (p_shards one_copy !! 0%nat) with (Some (worn {[k1 := d1]} {[k1]})). intros (Hno & -> & _)%Hg. set_solver.
  - change (p_shards one_copy !! 2%nat) with (Some (worn {[k1 := d1]} ∅)). by intros (_ & -> & ->)%Hg.
Qed.

Lemma one_copy_vault : vault ec3 (fresh_topology one_copy) one_body one_copy.
Proof.
  split.
  - intros c. vm_compute. intros [= <-]. reflexivity.
  - by apply Forall_true.
  - reflexivity.
  - apply Nat.leb_le. reflexivity.
  - eapply steady_check; [vm_compute; reflexivity | reflexivity |]. vm_compute. reflexivity.
  - intros key. unfold kept. destruct (one_body key) as [body |] eqn:Hb.
    + destruct (coded_pieces ec3 one_body xor_code_law one_body_fits key body Hb) as [_ Hps]. destruct (one_body_fits key body Hb) as [_ Hplain].
      unfold one_body in Hb. case_decide as Hk; [| done]. injection Hb as <-. subst key.
      apply (settled_copies k1 _ _ d1 _ Hps); [by intros i v (_ & _ & ->)%one_copy_reads | done |].
      exists 2%nat. split; [apply (bool_decide_unpack _); vm_compute; exact I | vm_compute; reflexivity].
    + intros i v (-> & _ & _)%one_copy_reads. by unfold one_body in Hb.
Qed.


(** The body really becomes pieces, the damaged copy as well. *)
Example the_night_migrates :
  read_at one_copy 0 k1 = Err (Corrupt "crc mismatch") ∧
  let p := dm_pool (run_events no_zfs quiet_night coded_daemon).2 in
  forallb (λ i, match read_at p i k1 with Ok b => bool_decide (is_Some (parse_piece_header b)) | Err _ => false end) [0; 1; 2]%nat = true.
Proof. vm_compute. split; reflexivity. Qed.

(** A copy on a tail rank passes for a piece: the key counts as coded, at every
    pass. *)
Example copy_on_the_tail_stays_a_copy :
  let p := (pool_topology (pool_of coded_cfg [mem_disk_of ∅; mem_disk_of {[k1 := d1]}; mem_disk_of ∅] [])).2 in
  let run := migrate_key k1 ec3 p in
  pp_select k1 (fresh_topology p) 3 = [2; 0; 1]%nat ∧ run.1 = Ok SkippedEc ∧ read_at run.2 1 k1 = Ok d1.
Proof. vm_compute. done. Qed.

(** A pass of the collector that finds no victim but an orphan: the task
    panics on its line of the log, and no disk is collected any more. *)
Definition orphaned : engine MapTable :=
  let e := fresh small_cfg in
  set_e_seg {| sg_world := {| w_seg := <[(Primary, 1) := []]> {[(Primary, 0) := [x01; x02]]}; w_meta := ∅; w_faults := [] |};
               sg_wr := {| failover := false; active_dir := Primary; wr_seg_id := 1; file := (Primary, 1); len := 0;
                           flush_offset := 0; unflushed_items := 0; max_size := 64; fsync_items := 2;
                           failed_over := false; drop_cache := false |} |} e.
Example orphan_sweep_ends_the_collector :
  let d := daemon_of (pool_of (mirror_cfg 2) [orphaned; orphaned; orphaned] []) (∅ : props) in
  let run := gc_tick (R := props) no_zfs d in
  run.1 = Err (str "called Option::unwrap() on a None value") ∧
  map (λ e, length (sealed_segments e)) (p_shards (dm_pool run.2)) = [0; 1; 1]%nat ∧
  let again := gc_tick no_zfs run.2 in
  again.1 = Ok tt ∧ map (λ e, length (sealed_segments e)) (p_shards (dm_pool again.2)) = [0; 1; 1]%nat.
Proof. vm_compute. repeat split. Qed.

(** The monitor gives a shard that never opened the state of its ZFS pool. *)
Definition healthy_status : bytes :=
  text_of [str "  pool: disk01"; str " state: ONLINE"; str "config:"; []; str "	NAME        STATE     READ WRITE CKSUM";
           str "	disk01      ONLINE       0     0     0"; []; str "errors: No known data errors"].
Example monitor_brings_back_a_dead_shard :
  match (start (three_disks (Some demo_pool)) [empty_disk; empty_disk; None] None 0 [] [] (∅ : props)).1 with
  | Ok s =>
      let lc := {| lc_zfs := zfs_pools (three_disks (Some demo_pool)); lc_scrub_keys := 1; lc_migrate_keys := 1; lc_gc_ratio := f64_ratio 1 2 |} in
      let d := daemon_of (sd_pool s) {| fr_responses := [fake_ok healthy_status; fake_ok (str "100")]; fr_calls := [] |} in
      shard_status (dm_pool d) 2 = Some Faulted ∧
      shard_status (dm_pool (zfs_tick lc (λ _, false) d).2) 2 = Some Online
  | Err _ => False
  end.
Proof. vm_compute. done. Qed.

(** A ceiling of zero is how the budget is switched off; with the default floor
    a reload to it panics, and later reloads are not heard. *)
Definition no_budget : BgThrottleConfig := {| max_bytes_per_sec := 0; min_bytes_per_sec := 4 * 1024 * 1024; fg_busy_ops_per_sec := f64_of_Z 50 |}.
Example reload_to_off_is_the_last :
  let run := reload (R := props) (Some no_budget) thin_daemon in
  let rate d := bg_rate (m_bg (p_meters (dm_pool d))) in
  run.1 = Err (str "assertion failed: min <= max") ∧
  rate (reload (Some {| max_bytes_per_sec := 8; min_bytes_per_sec := 4; fg_busy_ops_per_sec := f64_of_Z 50 |}) run.2).2 = rate run.2.
Proof. vm_compute. repeat split. Qed.

(** With a floor of zero it goes through, and the next task to pay more than
    it has saved panics: it would have to wait for ever. *)
Example reload_to_zero_stops_the_payers :
  let d := (reload (R := props) (Some {| max_bytes_per_sec := 0; min_bytes_per_sec := 0; fg_busy_ops_per_sec := f64_of_Z 50 |}) thin_daemon).2 in
  let m := p_meters (dm_pool d) in
  (acquire (m_bg m) 1 1000 (m_metrics m)).1.1 = None.
Proof. vm_compute. reflexivity. Qed.

(** The pause spreads over a tenth of the interval, five hundredths each way. *)
Example pause_of_ten_minutes :
  scrub_pause 600 0 = 570 ∧ scrub_pause 600 59 = 629 ∧ scrub_pause 600 60 = 570.
Proof. vm_compute. done. Qed.

(** ** Shutdown *)

Definition one_request_in_flight : list (Z * Z) := map (λ j, (1, Z.of_nat j * DRAIN_POLL)) (seq 0 602).
Lemma shutdown_ends_witness :
  drain_wait one_request_in_flight (0 + DRAIN_TIMEOUT) ≠ StillDraining.
Proof.
  assert (∀ j n now, one_request_in_flight !! j = Some (n, now) → 0 + Z.of_nat j * DRAIN_POLL <= now) as Hp.
  { intros j n now H. unfold one_request_in_flight in H. rewrite list_lookup_fmap in H.
    destruct (seq 0 602 !! j) as [x |] eqn:Hx; [| done]. apply lookup_seq in Hx as [-> _]. injection H as _ <-. lia. }
  assert (Nat.lt 600 (length one_request_in_flight)) as Hl by (unfold one_request_in_flight; rewrite length_map, length_seq; lia).
  exact (proj1 (shutdown_ends 0 one_request_in_flight (mret tt) thin_daemon Hp Hl)).
Defined.

(** ** Migration by turns *)

Lemma mem_cursor_saved (s : mem_disk) n pos : ∃ s', se_save_cursor n pos s = (Ok tt, s') ∧ se_load_cursor s' n = Ok pos.
Proof. eexists. split; [reflexivity |]. simpl. destruct pos; [by rewrite lookup_insert_eq | by rewrite lookup_delete_eq]. Qed.

(** Two bodies written as copies, to be migrated to pieces. *)
Definition to_migrate : pool mem_disk := pool_of coded_cfg (p_shards thin_pool) [].
Lemma turns_are_the_full_migration_witness :
  ((let! r := migrate_turns 4 1 MigrateReport_default in do! flush_all; mret r) to_migrate = migrate_full 4 1 to_migrate)%rust.
Proof.
  assert (Nat.lt 0 1) as H1 by lia. assert (p_shards to_migrate ≠ []) as Hne by done.
  exact (turns_are_the_full_migration mem_cursor_saved 4 1 None to_migrate H1 Hne eq_refl).
Defined.
Example migration_has_something_to_do :
  match (migrate_full 4 1 to_migrate).1 with Ok (Some r) => mr_done r = true ∧ mr_scanned r = 2%nat | _ => False end.
Proof. vm_compute. done. Qed.

(** ** Requests to the admin server *)

Definition worn_admin : admin worn_disk props := {| ad_pool := worn_pool; ad_runner := ∅; ad_fs := {| fs_nodes := ∅; fs_inodes := ∅; fs_faults := [] |} |}.
Definition thin_config : AdminConfig := admin_config (three_disks None).
Example the_request_restores_the_copy :
  read_at (ad_pool (serve (λ _, []) id [] thin_config (PostScrub ∅) worn_admin).2) 0 key_b = Ok [x02; x03].
Proof. vm_compute. reflexivity. Qed.

