(* ===== verification/Bench.v ===== *)
(** * The load driver (crates/ozd-bench/src/main.rs)

    The arguments, the deterministic generator and what is drawn from it, and
    the three phases of a run over any store: puts one after the other, a
    planned list of reads by several threads, slices of a hundred bodies. A
    panic is an error of the run; what is printed is in the report, but for
    the formatting. *)

From Stdlib Require Import ZArith Lia Strings.Byte SpecFloat.
From stdpp Require Import base list gmap strings.
From S2P Require Import Prelude F64 Text Domain Engine Cache Latency DiskSlow Piece Erasure Verified Metrics Throttle HealQueue PoolState Pool Store Zfs.
Open Scope Z_scope.

(** ** Arguments *)

Record Args := {
  a_disks : Z;
  a_objects : Z;
  a_reads : Z;
  hot_keys_frac : f64;
  hot_traffic : f64;
  a_redundancy : bytes;
  cache_mb : Z;
  a_threads : Z;
  a_seed : Z;
}.
Definition Args_default : Args :=
  {| a_disks := 6; a_objects := 1000; a_reads := 5000; hot_keys_frac := f64_ratio 1 10; hot_traffic := f64_ratio 9 10;
     a_redundancy := str "mirror"; cache_mb := 0; a_threads := 4; a_seed := 42 |}.

(** [--key=value]; [None] ends the process. *)
Definition parse_arg (a : Args) (arg : bytes) : option Args :=
  kv ← strip_prefix (str "--") arg ≫= split_once x3d;
  let '(k, v) := kv in
  let num (f : Z → Args) := f <$> parse_u64 v in
  if bool_decide (k = str "disks") then
    num (λ n, {| a_disks := n; a_objects := a_objects a; a_reads := a_reads a; hot_keys_frac := hot_keys_frac a;
      hot_traffic := hot_traffic a; a_redundancy := a_redundancy a; cache_mb := cache_mb a; a_threads := a_threads a; a_seed := a_seed a |})
  else if bool_decide (k = str "objects") then
    num (λ n, {| a_disks := a_disks a; a_objects := n; a_reads := a_reads a; hot_keys_frac := hot_keys_frac a;
      hot_traffic := hot_traffic a; a_redundancy := a_redundancy a; cache_mb := cache_mb a; a_threads := a_threads a; a_seed := a_seed a |})
  else if bool_decide (k = str "reads") then
    num (λ n, {| a_disks := a_disks a; a_objects := a_objects a; a_reads := n; hot_keys_frac := hot_keys_frac a;
      hot_traffic := hot_traffic a; a_redundancy := a_redundancy a; cache_mb := cache_mb a; a_threads := a_threads a; a_seed := a_seed a |})
  else if bool_decide (k = str "hot-keys") then
    x ← parse_f64 v;
    Some {| a_disks := a_disks a; a_objects := a_objects a; a_reads := a_reads a; hot_keys_frac := x;
      hot_traffic := hot_traffic a; a_redundancy := a_redundancy a; cache_mb := cache_mb a; a_threads := a_threads a; a_seed := a_seed a |}
  else if bool_decide (k = str "hot-traffic") then
    x ← parse_f64 v;
    Some {| a_disks := a_disks a; a_objects := a_objects a; a_reads := a_reads a; hot_keys_frac := hot_keys_frac a;
      hot_traffic := x; a_redundancy := a_redundancy a; cache_mb := cache_mb a; a_threads := a_threads a; a_seed := a_seed a |}
  else if bool_decide (k = str "redundancy") then
    Some {| a_disks := a_disks a; a_objects := a_objects a; a_reads := a_reads a; hot_keys_frac := hot_keys_frac a;
      hot_traffic := hot_traffic a; a_redundancy := v; cache_mb := cache_mb a; a_threads := a_threads a; a_seed := a_seed a |}
  else if bool_decide (k = str "cache-mb") then
    num (λ n, {| a_disks := a_disks a; a_objects := a_objects a; a_reads := a_reads a; hot_keys_frac := hot_keys_frac a;
      hot_traffic := hot_traffic a; a_redundancy := a_redundancy a; cache_mb := n; a_threads := a_threads a; a_seed := a_seed a |})
  else if bool_decide (k = str "threads") then
    num (λ n, {| a_disks := a_disks a; a_objects := a_objects a; a_reads := a_reads a; hot_keys_frac := hot_keys_frac a;
      hot_traffic := hot_traffic a; a_redundancy := a_redundancy a; cache_mb := cache_mb a; a_threads := n; a_seed := a_seed a |})
  else if bool_decide (k = str "seed") then
    num (λ n, {| a_disks := a_disks a; a_objects := a_objects a; a_reads := a_reads a; hot_keys_frac := hot_keys_frac a;
      hot_traffic := hot_traffic a; a_redundancy := a_redundancy a; cache_mb := cache_mb a; a_threads := a_threads a; a_seed := n |})
  else None.
Definition parse_args (args : list bytes) : option Args :=
  foldl (λ a arg, a ← a; parse_arg a arg) (Some Args_default) args.

Example parse_args_example :
  (a ← parse_args [str "--objects=20"; str "--hot-keys=0.5"]; Some (a_objects a, hot_keys_frac a, a_disks a)) =
  Some (20, f64_ratio 1 2, 6) ∧ parse_args [str "--size=3"] = None ∧ parse_args [str "-seed=3"] = None.
Proof. vm_compute. done. Qed.

(** ** The generator *)

(** [Rng::next]: the number and the next state. *)
Definition rng_step (x : Z) : Z :=
  let x := Z.lxor x (wrap 64 (Z.shiftl x 13)) in
  let x := Z.lxor x (Z.shiftr x 7) in
  Z.lxor x (wrap 64 (Z.shiftl x 17)).
Definition rng_next (x : Z) : Z * Z :=
  let x := rng_step x in (wrap 64 (x * 2685821657736338717), x).
(** [Rng::f64] and, for a bound that is not zero, [Rng::below]. *)
Definition rng_f64 (x : Z) : f64 * Z :=
  let '(n, x) := rng_next x in (f64_div (f64_of_Z (Z.shiftr n 11)) (f64_of_Z (2 ^ 53)), x).
Definition rng_below (n : nat) (x : Z) : nat * Z :=
  let '(r, x) := rng_next x in (Z.to_nat (r mod Z.of_nat n), x).

(** Sizes of the mix of Kubo. *)
Definition body_size (x : Z) : nat * Z :=
  let '(r, x) := rng_f64 x in
  (if f64_lt r (f64_ratio 75 100) then Z.to_nat 262144
   else if f64_lt r (f64_ratio 90 100) then Z.to_nat 4096 else Z.to_nat 1048576, x).

(** The whole chunks of eight bytes are drawn, the rest stays zero. *)
Fixpoint fill_chunks (n : nat) (x : Z) : bytes * Z :=
  match n with
  | O => ([], x)
  | S n => let '(v, x) := rng_next x in let '(b, x) := fill_chunks n x in (le_split 8 v ++ b, x)
  end.
Definition fill_body (x : Z) (size : nat) : bytes * Z :=
  let '(b, x) := fill_chunks (size / 8) x in (b ++ replicate (size mod 8) x00, x).

(** ** Percentiles *)

(** [x.ceil() as usize] *)
Definition f64_ceil_u64 (x : f64) : Z :=
  match x with
  | S754_finite false m e => Z.min (2 ^ 64 - 1) (- Z.shiftl (- Z.pos m) e)
  | _ => f64_to_u64 x
  end.
(** The nearest rank, of a sorted list. *)
Definition pctl_index (n : nat) (p : f64) : nat :=
  Z.to_nat (Z.min (Z.max (f64_ceil_u64 (f64_mul (f64_of_Z (Z.of_nat n)) p)) 1) (Z.of_nat n)) - 1.
Definition pctl (sorted : list Z) (p : f64) : Z :=
  match sorted with [] => 0 | _ => nth (pctl_index (length sorted) p) sorted 0 end.

Example pctl_examples :
  let us := [10; 20; 30; 40; 50; 60; 70; 80; 90; 100] in
  pctl us (f64_ratio 50 100) = 50 ∧ pctl us (f64_ratio 99 100) = 100 ∧ pctl us (f64_ratio 0 1) = 10 ∧ pctl [] (f64_ratio 1 2) = 0.
Proof. vm_compute. done. Qed.

(** ** The pool and the cache of a run *)

Definition bench_ec (a : Args) : option (option EcConfig) :=
  if bool_decide (a_redundancy a = str "erasure") then Some (Some EcConfig_default)
  else if bool_decide (a_redundancy a = str "mirror") then Some None else None.
Definition bench_engine_config : EngineConfig :=
  {| segment_max_size := 256 * 1024 * 1024; inline_min := 4096; cfg_fsync_items := 256; compress_zstd := false;
     compress_min := compress_min EngineConfig_default; ballast_bytes := ballast_bytes EngineConfig_default;
     failover_path := failover_path EngineConfig_default; fadvise_dontneed := fadvise_dontneed EngineConfig_default |}.
Definition bench_cache_engine_config : EngineConfig :=
  {| segment_max_size := 64 * 1024 * 1024; inline_min := 64; cfg_fsync_items := 4096;
     compress_zstd := compress_zstd EngineConfig_default;
     compress_min := compress_min EngineConfig_default; ballast_bytes := ballast_bytes EngineConfig_default;
     failover_path := failover_path EngineConfig_default; fadvise_dontneed := fadvise_dontneed EngineConfig_default |}.
Definition bench_cache_config (a : Args) : CacheConfig :=
  {| max_bytes := wrap 64 (cache_mb a * 1024 * 1024); min_size := 4096 |}.
Definition bench_pool_config (a : Args) : option PoolConfig :=
  ec ← bench_ec a;
  Some {| replicas := 2; write_quorum := 2; free_space_cache_ttl := free_space_cache_ttl PoolConfig_default;
          speculative_retry_after := speculative_retry_after PoolConfig_default;
          heal_parallelism := heal_parallelism PoolConfig_default; heal_max_per_shard := heal_max_per_shard PoolConfig_default;
          bg_throttle := bg_throttle PoolConfig_default; pc_ec := ec; pc_outboard := Some ObConfig_default;
          adaptive_hedge := adaptive_hedge PoolConfig_default; disk_slow := disk_slow PoolConfig_default |}.

(** ** The reads *)

Definition bench_key (i : nat) : BlockKey := str "/blocks/BENCH" ++ pad0 8 (show (Z.of_nat i)).

Definition hot_count (a : Args) : nat :=
  Z.to_nat (Z.max (f64_to_u64 (f64_mul (f64_of_Z (a_objects a)) (hot_keys_frac a))) 1).
(** The keys that the reads draw; [None] is a draw below zero, which panics. *)
Fixpoint read_plan (a : Args) (reads : nat) (x : Z) : option (list nat) :=
  match reads with
  | O => Some []
  | S reads =>
      let '(r, x) := rng_f64 x in
      let n := if f64_lt r (hot_traffic a) then hot_count a else Z.to_nat (a_objects a) in
      if (n =? 0)%nat then None
      else let '(i, x) := rng_below n x in l ← read_plan a reads x; Some (i :: l)
  end.

(** A reader: between two reads, at one, done, or gone with a panic. *)
Inductive reader :=
| Fetching (local : list Z)
| Reading (i ki : nat) (local : list Z)
| Returned
| Panicked.

(** What the readers share, and where each is. *)
Record readers := {
  rd_next : nat;
  rd_bytes : Z;
  rd_samples : list Z;
  rd_threads : list reader;
}.
Definition readers_start (threads : nat) : readers :=
  {| rd_next := 0; rd_bytes := 0; rd_samples := []; rd_threads := replicate (Nat.max threads 1) (Fetching []) |}.
Definition rd_set (w : nat) (s : reader) (rd : readers) : readers :=
  {| rd_next := rd_next rd; rd_bytes := rd_bytes rd; rd_samples := rd_samples rd; rd_threads := <[w := s]> (rd_threads rd) |}.

Section Run.
Context {B : Type} `{BS : !BlockStore B}.
(** How long the [i]-th read takes, in microseconds. *)
Context (elapsed : nat → Z).
Local Open Scope rust_scope.
Local Abbreviation BM := (M B DomainError).

Section Reads.
Context (keys : list (BlockKey * nat)) (plan : list nat).

(** One step of thread [w]: it takes the next read or hands in its samples;
    or it reads, and checks the length. *)
Definition read_step (w : nat) (rd : readers) : BM readers :=
  match rd_threads rd !! w with
  | Some (Fetching local) =>
      mret (match plan !! rd_next rd with
            | Some ki =>
                {| rd_next := S (rd_next rd); rd_bytes := rd_bytes rd; rd_samples := rd_samples rd;
                   rd_threads := <[w := Reading (rd_next rd) ki local]> (rd_threads rd) |}
            | None =>
                {| rd_next := S (rd_next rd); rd_bytes := rd_bytes rd; rd_samples := rd_samples rd ++ local;
                   rd_threads := <[w := Returned]> (rd_threads rd) |}
            end)
  | Some (Reading i ki local) =>
      match keys !! ki with
      | None => mret (rd_set w Panicked rd)
      | Some (key, size) =>
          match! bs_get key with! r =>
          mret (match r with
                | Ok v =>
                    if (length v =? size)%nat then
                      {| rd_next := rd_next rd; rd_bytes := wrap 64 (rd_bytes rd + Z.of_nat size); rd_samples := rd_samples rd;
                         rd_threads := <[w := Fetching (local ++ [elapsed i])]> (rd_threads rd) |}
                    else rd_set w Panicked rd
                | Err _ => rd_set w Panicked rd
                end)
      end
  | _ => mret rd
  end.
Definition reader_can (rd : readers) (w : nat) : bool :=
  match rd_threads rd !! w with Some (Fetching _) | Some (Reading _ _ _) => true | _ => false end.
Definition readers_ready (rd : readers) : list nat :=
  filter (λ w, reader_can rd w = true) (seq 0 (length (rd_threads rd))).

(** [thread::scope]: under the scheduling [sched], until all have returned;
    the scope panics when a thread did. [None] is a run that has not ended. *)
Fixpoint run_readers (fuel : nat) (sched : list nat) (rd : readers) : BM (option readers) :=
  match fuel with
  | O => mret None
  | S fuel =>
      match readers_ready rd with
      | [] => if forallb (λ s, match s with Panicked => false | _ => true end) (rd_threads rd) then mret (Some rd)
              else mthrow (Io "a scoped thread panicked")
      | ts =>
          let! rd := read_step (nth (hd 0 sched mod length ts) ts 0)%nat rd in
          run_readers fuel (tl sched) rd
      end
  end.
(** A read takes two steps, a thread one more. *)
Definition readers_fuel (threads : nat) : nat := S (2 * length plan + Nat.max threads 1).
End Reads.

(** ** The puts *)

(** The keys and sizes put from number [i] on, and the state of the generator. *)
Fixpoint put_phase (n i : nat) (x : Z) : BM (list (BlockKey * nat) * Z) :=
  match n with
  | O => mret ([], x)
  | S n =>
      let '(size, x) := body_size x in
      let '(body, x) := fill_body x size in
      do! bs_put (bench_key i) body;
      let! r := put_phase n (S i) x in
      mret ((bench_key i, size) :: r.1, r.2)
  end.

Record BenchReport := {
  br_put_bytes : Z;
  br_get_us : list Z;
  br_get_bytes : Z;
}.

(** Both phases; [flush] is [pool.flush_all]. *)
Definition bench_run (a : Args) (flush : BM unit) (sched : list nat) : BM (option BenchReport) :=
  let! r := put_phase (Z.to_nat (a_objects a)) 0 (Z.lor (a_seed a) 1) in
  let '(keys, x) := r in
  do! flush;
  match read_plan a (Z.to_nat (a_reads a)) x with
  | None => mthrow (Io "attempt to calculate the remainder with a divisor of zero")
  | Some plan =>
      let threads := Z.to_nat (a_threads a) in
      let! rd := run_readers keys plan (readers_fuel plan threads) sched (readers_start threads) in
      mret (rd ← rd;
            Some {| br_put_bytes := wrap 64 (Z.of_nat (sum_list_with snd keys)); br_get_us := rd_samples rd;
                    br_get_bytes := rd_bytes rd |})
  end.
End Run.

(** ** Slices *)

Section Slices.
Context {E : Type} `{SE : !ShardEngine E} `{PP : !PlacementPolicy} `{RS : !ReedSolomon} `{BO : !Bao}.
Local Open Scope rust_scope.

(** How many of the first hundred bodies of 256 KiB were read, and how many
    sliced; a read or a slice that fails panics. *)
Definition slice_phase (keys : list (BlockKey * nat)) : M (pool E) DomainError (nat * nat) :=
  mfold (λ acc (e : BlockKey * nat),
    let! body := pool_get e.1 in
    match! pool_get (ob_key e.1) with! ob =>
    match ob with
    | Ok ob => let! _ := mlift (verified_slice body ob 65536 16384) in mret (S acc.1, S acc.2)
    | Err _ => mret (S acc.1, acc.2)
    end) (0, 0)%nat (take 100 (filter (λ e, e.2 = Z.to_nat 262144) keys)).
End Slices.

(** ** The generator never sticks *)

(** A number that is its own shift has no bits. *)
Lemma shifted_left_zero x k : 0 <= x → 0 < k → x = wrap 64 (Z.shiftl x k) → x = 0.
Proof.
  intros Hx Hk H. apply Z.bits_inj_0. intros n. destruct (Z.neg_nonneg_cases n) as [Hn | Hn]; [by apply Z.testbit_neg_r |].
  revert Hn. apply (Zlt_0_ind (λ n, Z.testbit x n = false)). clear n. intros n IH Hn. rewrite H.
  unfold wrap. destruct (Z.lt_ge_cases n 64) as [Hlt | Hge]; [| by apply Z.mod_pow2_bits_high].
  rewrite Z.mod_pow2_bits_low, Z.shiftl_spec by done.
  destruct (Z.lt_ge_cases n k); [by apply Z.testbit_neg_r; lia | apply IH; lia].
Qed.
Lemma shifted_right_zero x k : 0 <= x → 0 < k → x = Z.shiftr x k → x = 0.
Proof.
  intros Hx Hk H. rewrite Z.shiftr_div_pow2 in H by lia. pose proof (proj1 (Z.pow_gt_1 2 k ltac:(lia)) Hk).
  destruct (Z.eq_dec x 0) as [| Hne]; [done |]. pose proof (Z.div_lt x (2 ^ k) ltac:(lia) ltac:(lia)). lia.
Qed.

Lemma lxor_bound a b : 0 <= a < 2 ^ 64 → 0 <= b < 2 ^ 64 → 0 <= Z.lxor a b < 2 ^ 64.
Proof.
  intros Ha Hb. assert (0 <= Z.lxor a b) as H0 by (apply Z.lxor_nonneg; lia).
  split; [done |]. destruct (Z.eq_dec (Z.lxor a b) 0) as [-> | Hne]; [lia |].
  apply Z.log2_lt_pow2; [lia |].
  assert (∀ z, 0 <= z < 2 ^ 64 → Z.log2 z < 64) as Hlog.
  { intros z Hz. destruct (Z.eq_dec z 0) as [-> | ?]; [done |]. apply Z.log2_lt_pow2; lia. }
  pose proof (Z.log2_lxor a b ltac:(lia) ltac:(lia)). pose proof (Hlog a Ha). pose proof (Hlog b Hb). lia.
Qed.

(** From a state that is not zero the generator goes to another one. *)
Lemma rng_never_sticks x : 0 < x < 2 ^ 64 → 0 < rng_step x < 2 ^ 64.
Proof.
  assert (∀ x y, 0 < x < 2 ^ 64 → 0 <= y < 2 ^ 64 → x ≠ y → 0 < Z.lxor x y < 2 ^ 64) as Hgo.
  { intros a b Ha Hb Hne. pose proof (lxor_bound a b ltac:(lia) Hb). split; [| lia].
    destruct (Z.eq_dec (Z.lxor a b) 0) as [H0 |]; [by apply Z.lxor_eq in H0 | lia]. }
  assert (∀ x k, 0 < x < 2 ^ 64 → 0 < k → 0 < Z.lxor x (wrap 64 (Z.shiftl x k)) < 2 ^ 64) as Hl.
  { intros a k Ha Hk. apply Hgo; [done | by apply wrap_bound |]. intros H. apply shifted_left_zero in H; lia. }
  intros Hx. unfold rng_step. cbv zeta. apply Hl; [| done]. pose proof (Hl x 13 Hx ltac:(done)) as H1.
  apply Hgo; [done | | intros H; apply shifted_right_zero in H; lia].
  split; [by apply Z.shiftr_nonneg; lia |]. rewrite Z.shiftr_div_pow2 by done.
  eapply Z.le_lt_trans; [apply Z.div_le_upper_bound; [done |] | exact (proj2 H1)]. nia.
Qed.

(** ** A run *)

Lemma length_fill_chunks n x : length (fill_chunks n x).1 = (8 * n)%nat.
Proof.
  revert x. induction n as [| n IH]; intros x; cbn [fill_chunks]; [done |]. destruct (rng_next x) as [v x1]. specialize (IH x1).
  destruct (fill_chunks n x1) as [b x2]. cbn [fst] in *. rewrite length_app, length_le_split. lia.
Qed.
Lemma length_fill_body x size : length (fill_body x size).1 = size.
Proof.
  unfold fill_body. pose proof (length_fill_chunks (size / 8) x) as H. destruct (fill_chunks (size / 8) x) as [b x1]. cbn [fst] in *.
  rewrite length_app, length_replicate, H. pose proof (Nat.div_mod_eq size 8). lia.
Qed.

Lemma bench_key_inj i j : bench_key i = bench_key j → i = j.
Proof.
  unfold bench_key. intros H%app_inv_head. apply Nat2Z.inj.
  assert (∀ n s, digits 10 0 (replicate n x30 ++ s) = digits 10 0 s) as Hz by (induction n; intros s; simpl; [done | apply IHn]).
  assert (∀ i, digits 10 0 (pad0 8 (show (Z.of_nat i))) = Some (Z.of_nat i)) as Hd.
  { intros n. unfold pad0. rewrite Hz. apply show_digits. lia. }
  pose proof (Hd i) as Hi. rewrite H, Hd in Hi. by injection Hi.
Qed.

Section Runs.
Context {B : Type} `{BSS : BlockStoreSpec B} (elapsed : nat → Z).
Implicit Types (s : B) (rd : readers).
(** A store that is always ready, and in which nothing fails. *)
Context (always_ready : ∀ s, bs_ok s → bs_ready s)
  (answers : ∀ s k v, bs_ok s → bs_val s k = Some v → (bs_get k s).1 = Ok v).

Lemma wp_answered s k v : bs_ok s → bs_val s k = Some v →
  wp (bs_get k) (λ r s', r = Ok v ∧ bs_ok s' ∧ vals_same bs_val s s') s.
Proof.
  intros Hok Hv. pose proof (answers s k v Hok Hv) as Ha. pose proof (bs_get_spec s k (always_ready s Hok)) as Hg.
  unfold wp in *. destruct (bs_get k s) as [r s']. simpl in Ha. subst r. by destruct Hg as (? & ? & _).
Qed.

Section Reading.
Context (keys : list (BlockKey * nat)) (plan : list nat).
Context (Hplan : ∀ ki, ki ∈ plan → (ki < length keys)%nat).

Definition planned_size (i : nat) : nat := default 0%nat (snd <$> (plan !! i ≫= λ ki, keys !! ki)).
(** The samples that a thread will hand in, and the bytes it has not counted. *)
Definition share (r : reader) : list Z :=
  match r with Fetching l => l | Reading i _ l => l ++ [elapsed i] | _ => [] end.
Definition uncounted (r : reader) : nat := match r with Reading i _ _ => planned_size i | _ => 0 end.
Definition steps_left (r : reader) : nat := match r with Fetching _ => 1 | Reading _ _ _ => 2 | _ => 0 end.
Definition planned (n : nat) : list nat := seq 0 (Nat.min n (length plan)).

Definition holds_keys s : Prop := ∀ k size, (k, size) ∈ keys → ∃ v, bs_val s k = Some v ∧ length v = size.

Record reading_ok rd : Prop := {
  ro_samples : rd_samples rd ++ (rd_threads rd ≫= share) ≡ₚ elapsed <$> planned (rd_next rd);
  ro_bytes : ∃ done_, rd_bytes rd = wrap 64 (Z.of_nat done_) ∧
    (done_ + sum_list_with uncounted (rd_threads rd) = sum_list_with planned_size (planned (rd_next rd)))%nat;
  ro_threads : ∀ w r, rd_threads rd !! w = Some r →
    match r with Reading i ki _ => plan !! i = Some ki | Panicked => False | Returned => (length plan ≤ rd_next rd)%nat | _ => True end;
}.
Definition todo rd : nat := 2 * (length plan - rd_next rd) + sum_list_with steps_left (rd_threads rd).

Lemma planned_next n ki : plan !! n = Some ki → planned (S n) = planned n ++ [n].
Proof.
  intros Hlt%lookup_lt_Some. unfold planned. rewrite !Nat.min_l by lia. by rewrite seq_S.
Qed.

(** One step of a thread that can go. *)
Lemma wp_read_step w rd s :
  reading_ok rd → bs_ok s → holds_keys s → reader_can rd w = true →
  wp (read_step elapsed keys plan w rd) (λ r s', ∃ rd', r = Ok rd' ∧ reading_ok rd' ∧ (todo rd' < todo rd)%nat ∧
    length (rd_threads rd') = length (rd_threads rd) ∧ bs_ok s' ∧ vals_same bs_val s s') s.
Proof.
  intros [Hs Hb Ht] Hok Hkeys Hcan. unfold read_step, reader_can in *. destruct (rd_threads rd !! w) as [r |] eqn:Hw; [| done].
  pose proof (Ht w r Hw) as Hr. destruct Hb as (n & Hb & Hn).
  assert (∀ r', ∃ rest', (rd_threads rd ≫= share) ≡ₚ rest' ++ share r ∧ (<[w := r']> (rd_threads rd) ≫= share) ≡ₚ rest' ++ share r')
    as Hmove by (intros r'; by apply bind_insert).
  assert (∀ r', sum_list_with uncounted (<[w := r']> (rd_threads rd)) + uncounted r = sum_list_with uncounted (rd_threads rd) + uncounted r')%nat
    as Hsum by (intros r'; by apply sum_insert).
  assert (∀ r', sum_list_with steps_left (<[w := r']> (rd_threads rd)) + steps_left r = sum_list_with steps_left (rd_threads rd) + steps_left r')%nat
    as Hleft by (intros r'; by apply sum_insert).
  assert (∀ r' m, (rd_next rd ≤ m)%nat → match r' with Reading i ki _ => plan !! i = Some ki | Panicked => False | Returned => (length plan ≤ m)%nat | _ => True end →
    ∀ w' r'', <[w := r']> (rd_threads rd) !! w' = Some r'' →
    match r'' with Reading i ki _ => plan !! i = Some ki | Panicked => False | Returned => (length plan ≤ m)%nat | _ => True end) as Hset.
  { intros r' m Hm Hr' w' r'' Hin. apply list_lookup_insert_Some in Hin as [(_ & <- & _) | [_ Hin]]; [done |].
    specialize (Ht w' r'' Hin). destruct r''; try done. lia. }
  assert (∀ rest' h h' w' d' q, (rd_threads rd ≫= share) ≡ₚ rest' ++ h → w' ≡ₚ rest' ++ h' → d' ++ h' ++ [] ≡ₚ rd_samples rd ++ h ++ q →
    d' ++ w' ≡ₚ (elapsed <$> planned (rd_next rd)) ++ q) as Hhand.
  { intros rest' h h' w' d' q H1 H2 H3. apply (Permutation_trans (l' := rd_samples rd ++ (rd_threads rd ≫= share) ++ q)).
    - rewrite <-(app_nil_r w'). by eapply perm_exchange.
    - rewrite app_assoc. by apply Permutation_app_tail. }
  destruct r as [local | i ki local | |]; try done.
  - apply wp_ret. destruct (plan !! rd_next rd) as [ki |] eqn:Hki; eexists; (split; [reflexivity |]).
    + pose proof (lookup_lt_Some _ _ _ Hki). destruct (Hmove (Reading (rd_next rd) ki local)) as (rest' & Hp1 & Hp2).
      split; [split | split; [| split_and!; [by cbn [rd_threads]; rewrite length_insert | done | done]]]; cbn [rd_samples rd_threads rd_next rd_bytes].
      * rewrite (planned_next _ _ Hki), fmap_app. simpl. apply Hhand with rest' local (local ++ [elapsed (rd_next rd)]); [done.. |].
        by rewrite app_nil_r.
      * exists n. split; [done |]. rewrite (planned_next _ _ Hki), sum_list_with_app. simpl.
        pose proof (Hsum (Reading (rd_next rd) ki local)) as H1. simpl in *. lia.
      * apply Hset; [lia | done].
      * unfold todo. cbn [rd_next rd_threads]. pose proof (Hleft (Reading (rd_next rd) ki local)) as H1. simpl in *. lia.
    + apply lookup_ge_None in Hki. destruct (Hmove Returned) as (rest' & Hp1 & Hp2).
      assert (planned (S (rd_next rd)) = planned (rd_next rd)) as Hsame by (unfold planned; by rewrite !Nat.min_r by lia).
      split; [split | split; [| split_and!; [by cbn [rd_threads]; rewrite length_insert | done | done]]]; cbn [rd_samples rd_threads rd_next rd_bytes].
      * rewrite Hsame. apply (Permutation_trans (l' := (elapsed <$> planned (rd_next rd)) ++ [])); [| by rewrite app_nil_r].
        apply Hhand with rest' local []; [done.. |]. by rewrite !app_nil_r.
      * exists n. split; [done |]. rewrite Hsame. pose proof (Hsum Returned) as H1. simpl in *. lia.
      * apply Hset; lia.
      * unfold todo. cbn [rd_next rd_threads]. pose proof (Hleft Returned) as H1. simpl in *. lia.
  - pose proof (Hplan ki (list_elem_of_lookup_2 _ _ _ Hr)) as Hlt. destruct (lookup_lt_is_Some_2 _ _ Hlt) as [[k size] Hk]. rewrite Hk.
    destruct (Hkeys k size (list_elem_of_lookup_2 _ _ _ Hk)) as (v & Hv & Hlen). wp_step.
    eapply wp_mono; [by apply (wp_answered s k v) |]. intros r s' (-> & Hok' & Hvals). apply wp_ret.
    rewrite Hlen, Nat.eqb_refl. eexists. split; [reflexivity |].
    destruct (Hmove (Fetching (local ++ [elapsed i]))) as (rest' & Hp1 & Hp2).
    assert (planned_size i = size) as Hsz by (unfold planned_size; rewrite Hr; simpl; by rewrite Hk).
    split; [split | split; [| split_and!; [by cbn [rd_threads]; rewrite length_insert | done | done]]]; cbn [rd_samples rd_threads rd_next rd_bytes].
    + apply (Permutation_trans (l' := (elapsed <$> planned (rd_next rd)) ++ [])); [| by rewrite app_nil_r].
      apply Hhand with rest' (local ++ [elapsed i]) (local ++ [elapsed i]); [done.. |]. by rewrite !app_nil_r.
    + exists (n + size)%nat. split; [rewrite Hb; unfold wrap; rewrite Zplus_mod_idemp_l; f_equal; lia |].
      pose proof (Hsum (Fetching (local ++ [elapsed i]))) as H1. simpl in *. lia.
    + by apply Hset.
    + unfold todo. cbn [rd_next rd_threads]. pose proof (Hleft (Fetching (local ++ [elapsed i]))) as H1. simpl in *. lia.
Qed.

Lemma readers_ready_in rd w : w ∈ readers_ready rd → reader_can rd w = true.
Proof. by intros [? _]%list_elem_of_filter. Qed.
Lemma readers_ready_none rd w r : readers_ready rd = [] → rd_threads rd !! w = Some r → steps_left r = 0%nat.
Proof.
  intros Hn Hw. destruct (decide (reader_can rd w = true)) as [Hc | Hc].
  - assert (w ∈ readers_ready rd) as Hin; [| rewrite Hn in Hin; by apply not_elem_of_nil in Hin].
    apply list_elem_of_filter. split; [done |]. apply elem_of_seq. apply lookup_lt_Some in Hw. lia.
  - unfold reader_can in Hc. rewrite Hw in Hc. by destruct r.
Qed.

(** What the threads have when all are back. *)
Lemma readers_back rd : reading_ok rd → (0 < length (rd_threads rd))%nat → readers_ready rd = [] →
  forallb (λ r, match r with Panicked => false | _ => true end) (rd_threads rd) = true ∧
  rd_samples rd ≡ₚ elapsed <$> seq 0 (length plan) ∧
  rd_bytes rd = wrap 64 (Z.of_nat (sum_list_with planned_size (seq 0 (length plan)))).
Proof.
  intros [Hs (n & Hb & Hn) Ht] Hpos Hnone.
  assert (∀ w r, rd_threads rd !! w = Some r → r = Returned ∧ (length plan ≤ rd_next rd)%nat) as Hret.
  { intros w r Hw. pose proof (readers_ready_none rd w r Hnone Hw) as H0. specialize (Ht w r Hw). by destruct r. }
  assert (length plan ≤ rd_next rd)%nat as Hle by (destruct (lookup_lt_is_Some_2 _ _ Hpos) as [r Hr]; by eapply Hret).
  assert ((rd_threads rd ≫= share) = []) as Hsh.
  { apply elem_of_nil_inv. intros x (r & Hx & (w & Hw)%list_elem_of_lookup)%list_elem_of_bind.
    apply Hret in Hw as [-> _]. by apply not_elem_of_nil in Hx. }
  assert (sum_list_with uncounted (rd_threads rd) = 0%nat) as Hun.
  { clear -Hret. induction (rd_threads rd) as [| r l IH]; [done |]. simpl.
    destruct (Hret 0%nat r eq_refl) as [-> _]. apply IH. intros w r'. apply (Hret (S w)). }
  unfold planned in *. rewrite Nat.min_r in * by done. split_and!.
  - apply forallb_forall. intros r Hr%list_elem_of_In. apply list_elem_of_lookup in Hr as [w Hw]. by apply Hret in Hw as [-> _].
  - by rewrite Hsh, app_nil_r in Hs.
  - rewrite Hb. do 2 f_equal. lia.
Qed.

Lemma wp_run_readers fuel sched rd s :
  reading_ok rd → bs_ok s → holds_keys s → (0 < length (rd_threads rd))%nat → (todo rd < fuel)%nat →
  wp (run_readers elapsed keys plan fuel sched rd) (λ r s', ∃ rd', r = Ok (Some rd') ∧
    rd_samples rd' ≡ₚ elapsed <$> seq 0 (length plan) ∧
    rd_bytes rd' = wrap 64 (Z.of_nat (sum_list_with planned_size (seq 0 (length plan)))) ∧
    bs_ok s' ∧ vals_same bs_val s s') s.
Proof.
  revert sched rd s. induction fuel as [| fuel IH]; intros sched rd s Hr Hok Hkeys Hpos Hf; [lia |]. cbn [run_readers].
  destruct (readers_ready rd) as [| t ts] eqn:Hts.
  - destruct (readers_back rd Hr Hpos Hts) as (-> & ? & ?). apply wp_ret. by exists rd.
  - set (w := nth (hd 0%nat sched mod length (t :: ts)) (t :: ts) 0%nat).
    assert (reader_can rd w = true) as Hcan.
    { apply readers_ready_in. rewrite Hts. apply list_elem_of_In, nth_In. by apply Nat.mod_upper_bound. }
    wp_step. eapply wp_mono; [by apply wp_read_step |].
    intros r s1 (rd1 & -> & Hr1 & Hlt & Hlen & Hok1 & Hv1).
    eapply wp_mono; [apply IH; [done | done | | by rewrite Hlen | lia] |].
    + intros k size Hk. destruct (Hkeys k size Hk) as (v & Hv & Hl). exists v. by rewrite Hv1.
    + intros r s2 (rd2 & -> & ? & ? & ? & Hv2). exists rd2. split_and!; [done .. |]. intros k. by rewrite Hv2, Hv1.
Qed.

Lemma readers_start_ok threads : reading_ok (readers_start threads) ∧ todo (readers_start threads) = (2 * length plan + Nat.max threads 1)%nat.
Proof.
  assert (∀ n (f : reader → nat), f (Fetching []) = 0%nat → sum_list_with f (replicate n (Fetching [])) = 0%nat) as Hz
    by (intros n f H0; rewrite sum_repeat, H0; lia).
  split; [split |].
  - simpl. unfold planned. simpl. generalize (Nat.max threads 1) as n. by induction n.
  - exists 0%nat. split; [done |]. simpl. by rewrite Hz.
  - intros w r. simpl. by intros [-> _]%lookup_replicate.
  - unfold todo. simpl. rewrite sum_repeat. simpl. lia.
Qed.
End Reading.

(** ** The puts *)

Context (takes : ∀ s k d, bs_ok s → bs_takes s k d) (stores : ∀ s k d, bs_ok s → (bs_put k d s).1 = Ok tt).

Lemma wp_stored s k d : bs_ok s →
  wp (bs_put k d) (λ r s', r = Ok tt ∧ bs_ok s' ∧ vals_update bs_val s k (Some d) s') s.
Proof.
  intros Hok. pose proof (bs_put_spec s k d (always_ready s Hok) (takes _ _ _ Hok)) as Hput. pose proof (stores s k d Hok) as Hst.
  unfold wp in *. destruct (bs_put k d s) as [r s1]. simpl in Hst. by subst r.
Qed.

Lemma wp_put_phase n i x s : bs_ok s →
  wp (put_phase n i x) (λ r s', ∃ keys x', r = Ok (keys, x') ∧ bs_ok s' ∧ keys.*1 = bench_key <$> seq i n ∧
    holds_keys keys s' ∧ ∀ k, (∀ j, (i ≤ j < i + n)%nat → k ≠ bench_key j) → bs_val s' k = bs_val s k) s.
Proof.
  revert i x s. induction n as [| n IH]; intros i x s Hok; cbn [put_phase].
  { apply wp_ret. exists [], x. split_and!; try done. intros k size Hk. by apply not_elem_of_nil in Hk. }
  destruct (body_size x) as [size x1]. pose proof (length_fill_body x1 size) as Hl. destruct (fill_body x1 size) as [body x2].
  cbn [fst] in Hl. wp_step. eapply wp_mono; [by apply wp_stored |]. intros r s1 (-> & Hok1 & Hv1). wp_step. eapply wp_mono; [by apply IH |]. intros r s2 (keys & x3 & -> & Hok2 & Hk2 & Hh2 & Ho2). apply wp_ret.
  exists ((bench_key i, size) :: keys), x3. split_and!; [done | done | by rewrite fmap_cons, Hk2 | |].
  - intros k sz [[= -> ->] | Hin]%elem_of_cons; [| by apply Hh2]. exists body. split; [| done].
    rewrite Ho2, Hv1, decide_True; [done | done |]. intros j Hj ?%bench_key_inj. lia.
  - intros k Hk. rewrite Ho2, Hv1 by (intros j Hj; apply Hk; lia). rewrite decide_False; [done |].
    intros <-. apply (Hk i); [lia | done].
Qed.

Lemma read_plan_ok a n x : (hot_count a ≤ Z.to_nat (a_objects a))%nat →
  ∃ plan, read_plan a n x = Some plan ∧ length plan = n ∧ ∀ ki, ki ∈ plan → (ki < Z.to_nat (a_objects a))%nat.
Proof.
  intros Hhot. assert (0 < hot_count a)%nat as Hpos by (unfold hot_count; lia).
  revert x. induction n as [| n IH]; intros x; cbn [read_plan].
  { exists []. split_and!; [done | done |]. by intros ki ?%not_elem_of_nil. }
  destruct (rng_f64 x) as [r x1]. set (m := if f64_lt r (hot_traffic a) then _ else _).
  assert (0 < m ≤ Z.to_nat (a_objects a))%nat as Hm by (unfold m; destruct (f64_lt _ _); lia).
  rewrite (proj2 (Nat.eqb_neq m 0)) by lia. unfold rng_below. destruct (rng_next x1) as [v x2].
  destruct (IH x2) as (plan & -> & Hlen & Hall). simpl. eexists. split; [reflexivity |]. split; [by simpl; rewrite Hlen |].
  intros ki [-> | Hin]%elem_of_cons; [| by apply Hall].
  pose proof (Z.mod_pos_bound v (Z.of_nat m) ltac:(lia)). lia.
Qed.

(** C40. A run of the driver, with at least as many objects as it has hot keys,
    over a store in which nothing fails ends without a panic, whatever the
    scheduling of its threads: every key was put, and every planned read was
    done exactly once, measured once, and found as many bytes as were put.
    (With fewer objects a reader panics: hot_keys_above_one.) *)
Theorem bench_measures_every_read a flush sched s :
  (hot_count a ≤ Z.to_nat (a_objects a))%nat →
  (∀ s, bs_ok s → wp flush (λ r s', r = Ok tt ∧ bs_ok s' ∧ vals_same bs_val s s') s) →
  bs_ok s →
  wp (bench_run elapsed a flush sched) (λ r s', ∃ report keys plan, r = Ok (Some report) ∧
    keys.*1 = bench_key <$> seq 0 (Z.to_nat (a_objects a)) ∧
    (∀ k size, (k, size) ∈ keys → ∃ v, bs_val s' k = Some v ∧ length v = size) ∧
    length plan = Z.to_nat (a_reads a) ∧ (∀ ki, ki ∈ plan → (ki < length keys)%nat) ∧
    br_put_bytes report = wrap 64 (Z.of_nat (sum_list_with snd keys)) ∧
    br_get_us report ≡ₚ elapsed <$> seq 0 (Z.to_nat (a_reads a)) ∧
    br_get_bytes report = wrap 64 (Z.of_nat (sum_list_with (planned_size keys plan) (seq 0 (length plan))))) s.
Proof.
  intros Hhot Hflush Hok. unfold bench_run. wp_step. eapply wp_mono; [by apply wp_put_phase |].
  intros r s1 (keys & x & -> & Hok1 & Hk & Hh & _). wp_step. eapply wp_mono; [by apply Hflush |].
  intros r s2 (-> & Hok2 & Hv2). destruct (read_plan_ok a (Z.to_nat (a_reads a)) x Hhot) as (plan & -> & Hlen & Hall).
  assert (length keys = Z.to_nat (a_objects a)) as Hlk by (rewrite <-(length_fmap fst keys), Hk, length_fmap; apply length_seq).
  rewrite <-Hlk in Hall. destruct (readers_start_ok keys plan (Z.to_nat (a_threads a))) as [Hst Htodo].
  wp_step. eapply wp_mono.
  { apply (wp_run_readers keys plan Hall); [done | done | | |].
    - intros k size Hin. rewrite Hv2. by apply Hh.
    - simpl. rewrite length_replicate. lia.
    - rewrite Htodo. unfold readers_fuel. lia. }
  intros r s3 (rd & -> & Hs & Hb & Hok3 & Hv3). apply wp_ret. eexists _, keys, plan. split; [reflexivity |].
  split_and!; [done | | done | done | done | by rewrite <-Hlen | done].
  intros k size Hin. rewrite Hv3, Hv2. by apply Hh.
Qed.
End Runs.

(** ** Runs *)

Definition small_args : Args :=
  {| a_disks := 6; a_objects := 3; a_reads := 4; hot_keys_frac := f64_ratio 1 2; hot_traffic := f64_ratio 9 10;
     a_redundancy := str "mirror"; cache_mb := 0; a_threads := 2; a_seed := 42 |}.

Lemma bench_measures_every_read_witness :
  wp (bench_run (B := mem) Z.of_nat small_args (mret tt) [1; 0; 1]%nat) (λ r _, ∃ report, r = Ok (Some report) ∧
    br_get_us report ≡ₚ [0; 1; 2; 3]) ∅.
Proof.
  assert (hot_count small_args ≤ Z.to_nat (a_objects small_args))%nat as Hhot by (apply Nat.leb_le; vm_compute; reflexivity).
  eapply wp_mono; [apply (bench_measures_every_read (B := mem) Z.of_nat) |].
  - done.
  - intros s k v _ Hv. simpl in *. by rewrite Hv.
  - done.
  - done.
  - exact Hhot.
  - intros s _. by apply wp_ret.
  - exact I.
  - intros r s' (report & keys & plan & -> & _ & _ & _ & _ & _ & Hus & _). exists report. split; [done |]. exact Hus.
Defined.

(** More hot keys than keys: the draw finds no key, and the reader panics. *)
Example hot_keys_above_one :
  let a := {| a_disks := 6; a_objects := 0; a_reads := 1; hot_keys_frac := f64_ratio 1 2; hot_traffic := f64_of_Z 1;
     a_redundancy := str "mirror"; cache_mb := 0; a_threads := 1; a_seed := 42 |} in
  match (bench_run (B := mem) Z.of_nat a (mret tt) [] ∅).1 with Err _ => true | Ok _ => false end = true.
Proof. vm_compute. reflexivity. Qed.
